(* ===== verification/_CoqProject ===== *)
-Q . S2P
Prelude.v
Float64.v
Float32.v
Platform.v
Toml.v
Killswitch.v
Failsafe.v
CircuitBreaker.v
SafetyWord.v
RateLimiter.v
BreakerWait.v
Triggers.v
Posture.v
ReplyGate.v
PolicyKernel.v
Delegation.v
DelegationConfig.v
StateFile.v
DispatchGuard.v
ConcurrencyGate.v
Takeover.v
Bytes.v
Utf8.v
Chars.v
TextUtils.v
RedactToken.v
Vault.v
RedactEngine.v
Redaction.v
RuleSpecs.v
Keyword.v
Identity.v
JsonValue.v
Egress.v
Decimal.v
JsonPath.v
FieldRules.v
DataSource.v
NerText.v
NerDecode.v
NerRule.v
DbField.v
RuleSet.v
Structured.v
Conditions.v
AutopilotEvents.v
Screen.v
Autonomy.v
AutonomyChange.v
AutonomyLease.v
FireBreaker.v
Cep.v
AutopilotEngine.v
AuditChain.v
Interleave.v
Approval.v
ApprovalStore.v
ApprovalTx.v
ApprovalBroker.v
ApprovalSafety.v
ApprovalPromise.v
ApprovalGuarantees.v
Sse.v
AnthropicSse.v
ConversationQueue.v
Otp.v
Accounts.v
AccountLoad.v
Rotation.v
