(* ===== verification/Prelude.v ===== *)
(** * DuDuClaw: a verification library

    DuDuClaw runs AI employees: messages of chat channels are answered by
    model calls, agents delegate work to each other, and tools act on the
    outside.  This library models the parts of its Rust sources that decide
    whether something may happen, keep the state such decisions rest on, or
    carry data whose meaning must survive: the gates in front of a reply, the
    authority of agents, the accounts a call runs under, the redaction of
    sensitive values, login codes, the audit log, the conversation queues and
    the streamed answers of a model.

    ** How the parts interact

    A message of a channel waits in its conversation's queue
    ([ConversationQueue]).  Its worker runs the reply turn, whose gates stand
    in a fixed order ([ReplyGate]): safety words ([SafetyWord]), the failsafe
    level of its scope ([Failsafe]), the circuit breaker ([CircuitBreaker])
    with its waiting loop ([BreakerWait]), and the enforced triggers of
    KILLSWITCH.toml ([Triggers], [Killswitch]).  A breaker that trips and the
    triggers raise the failsafe level of the scope; the posture loop
    ([Posture]) raises and lowers the global one, and works against the
    interface [FailsafeScopes], which [Failsafe] implements.  A conversation
    held by a person is not answered ([Takeover]).  A turn that passes is
    answered by a model under one of the configured accounts: [AccountLoad]
    builds them from config.toml, [Accounts] books their health and selects
    one, [Rotation] classifies failures and moves on to the next account.
    The answer arrives as server-sent events ([Sse]), read by the provider's
    parser ([AnthropicSse]).  Delegation between agents is decided by one
    predicate ([Delegation]) whose settings [DelegationConfig] reads; dispatch
    and concurrency are bounded across processes by two guards over shared
    state files ([DispatchGuard] and [ConcurrencyGate] over [StateFile]).  A
    tool call passes the policy kernel ([PolicyKernel]) and, when its
    arguments hold redaction tokens, the egress table ([Egress]), which asks
    the pipeline ([Redaction]) for the values; the pipeline finds spans
    ([RedactEngine]), writes tokens ([RedactToken]) and keeps the originals in
    the vault ([Vault]).  Its rules are compiled from specifications
    ([RuleSpecs]) into one engine ([RuleSet]): regular expressions, keywords
    ([Keyword]), the names of known people ([Identity]), what a named-entity
    model finds ([NerRule], which cuts a text into chunks as [NerText] says
    and decodes the model's scores as [NerDecode] does), fields of tool
    results by their position ([FieldRules] over [JsonPath]), and columns of
    databases ([DbField]), which become field rules through the registry of
    data sources ([DataSource]).  A tool result
    passes the field rules first, then its texts the other rules
    ([Structured]).  What happened is appended to a hash-chained log
    ([AuditChain]).  Logins to the dashboard use one-time codes ([Otp]).

    Work also starts without a person.  What happens in the system becomes an
    event with a flat map of fields ([AutopilotEvents]); the operator's rules
    test it ([Conditions]) or wait for a second event ([Cep], whose resolved
    sequences come back as events of their own); a rule that matches passes
    its circuit breaker ([FireBreaker]), may ask a local model for a second
    opinion ([Screen]), and runs its action ([AutopilotEngine]).  Before an
    action, and again at each hand-over, the engine asks the autonomy gate
    ([Autonomy]) whether the work of the system and of the agents concerned is
    paused; the pauses are written by [AutonomyChange] under the lock whose
    leases [AutonomyLease] follows.

    What an agent may not do alone, a person decides.  A request waits in the
    approval store ([ApprovalStore]); the broker ([ApprovalBroker]) files it,
    waits for it, has it decided by a channel, the dashboard or a batch of one
    turn, and uses it up.  A bound request ([Approval]) carries a snapshot of
    the authority it was raised under, and the operation it allows is
    prepared, claimed under a fenced lease, begun and settled ([ApprovalTx]).
    Every process of the system runs these methods against the same store, so
    each is a task whose statements interleave with all others
    ([Interleave]).

    ** Files

    Shared: this file (strings as lists of scalar values, machine integers,
    bounded queues, the tactics and the hint database [queues]); [Float64]
    and [Float32] ([f64], [f32]); [Platform], [Toml], [JsonValue] (what the standard library and
    the toml and serde_json crates provide); [Interleave] (tasks, the systems they
    run in, and what holds of every answer); [Bytes], [Utf8], [Chars] and
    [Decimal] (texts as their bytes, encoded characters, decimal numbers);
    [StateFile] (locked JSON files, with the class [StateCodec]).

    crates/duduclaw-security: [Killswitch] is killswitch.rs, [Failsafe] is
    failsafe.rs, [CircuitBreaker] is circuit_breaker.rs, [SafetyWord] is
    safety_word.rs, [RateLimiter] is rate_limiter.rs, [PolicyKernel] is
    policy_kernel.rs, [AuditChain] is audit_chain.rs, and [Posture] is
    security_posture.rs with the gateway's posture_watch.rs.

    crates/duduclaw-core: [Delegation] and [DelegationConfig] are
    delegation_policy.rs, [DispatchGuard] is dispatch_guard.rs,
    [ConcurrencyGate] is concurrency_gate.rs, [Takeover] is
    takeover_state.rs, [StateFile] is fs_lock.rs; [Autonomy] is the reading
    and admitting half of autonomy_gate.rs, [AutonomyChange] its writing half,
    [AutonomyLease] the admission lock; [TextUtils] cuts texts.

    crates/duduclaw-gateway: [BreakerWait] is channel_reply/breaker_wait.rs,
    [ReplyGate] the gates of channel_reply/inner.rs, [Triggers] is
    killswitch_triggers.rs, [ConversationQueue] is conversation_queue.rs,
    [Rotation] is [rotate_cli_spawn] of channel_reply/cli_spawn.rs with the
    classifiers of claude_runner.rs, failure_message.rs and pty_runtime.rs.
    Of autopilot_engine.rs, [AutopilotEvents] holds the events, their fields
    and the rows of events.db, [Conditions] the conditions and templates (with
    the validator of handlers/task_json.rs), [FireBreaker] the circuit breaker
    and [AutopilotEngine] the rest from the event to the effects of a fire;
    [Screen] is autopilot_screen.rs and [Cep] cep_matcher.rs.  Of approval/,
    [Approval] holds the data and checks of mod.rs, binding.rs and
    action_grant.rs, [ApprovalStore] the tables and rows of store.rs,
    [ApprovalTx] the deciding transactions of store.rs, binding.rs, ag_ui.rs,
    turn_origin.rs, operations.rs and workflow_grants.rs, and [ApprovalBroker]
    the methods; [ApprovalSafety] proves what every statement keeps,
    [ApprovalPromise] what every answer says, [ApprovalGuarantees] what follows
    for any history.

    crates/duduclaw-redaction: [RedactToken] is token.rs and the token scan of
    pipeline.rs, [Vault] is vault/store.rs, [RedactEngine] is engine.rs,
    [Redaction] is [redact] and [restore] of pipeline.rs, [Egress] is
    egress.rs.  [RuleSpecs] holds the rule specifications of rules/mod.rs;
    [Keyword] is rules/keyword.rs, [Identity] is rules/identity.rs;
    [JsonPath] and [FieldRules] are rules/json_path.rs with the structured
    half of engine.rs, [DataSource] is data_source.rs, [DbField] is
    rules/db_field.rs; [NerText] is ner/mod.rs, [NerDecode] is ner/decode.rs,
    [NerRule] is ner/labels.rs, ner/runtime.rs and rules/ner.rs; [RuleSet] is
    the loading half of engine.rs with rules/regex.rs, and [Structured] holds the passes of pipeline.rs over
    JSON values.

    crates/duduclaw-llm: [Sse] is sse.rs, [AnthropicSse] is
    providers/anthropic.rs with types.rs and error.rs.

    crates/duduclaw-auth: [Otp] is otp.rs.  crates/duduclaw-agent: [Accounts]
    and [AccountLoad] are account_rotator/.

    Definitions keep the names of the code.  A struct is a record, an enum an
    inductive type; a method that mutates [self] returns the new state, and
    one whose return value matters returns both.  The body of a method that
    runs under one lock, or one SQL statement, is one function.  Clock
    readings, random draws and the faults of files, databases and processes
    are arguments; where other tasks come between two accesses of the code,
    what they do is an argument too ([BreakerWait.others], [Rotation.others])
    or a step of a relation ([ConversationQueue], [Otp.otp_step],
    [Interleave.sys_step]).  A [None]
    in the result of an operation that has no [Option] in the code is a panic:
    an instant past the latest one ([Platform.instant_add], behind
    [CircuitBreaker.frequency_wait] and [Failsafe.recover_at]), a date past
    chrono's last ([Accounts.add_seconds]), a slice off a character boundary or
    outside its data.  Where the code reads the clock before it waits for a
    lock, the histories keep the two times apart ([ConcurrencyGate.history],
    [DispatchGuard.history]).

    ** What the theorems show

    Gates: a turn under L2 or higher never passes, every turn is decided
    without a panic while the configured windows and timers are within the
    clock, the announced waits of the breaker suffice and the waiting loop ends
    within its cap; a halt lasts until somebody releases it; a breaker recovers
    after its cooldown; reply and request rates and the number of leases stay
    within their limits over every history, dispatches within theirs in a
    window less the longest wait for the lock; the posture loop never
    oversteps; an unreadable configuration enforces what was last read.

    Authority: delegation is allowed exactly for the documented relations, the
    upward walk decides ancestry in any graph, the grace of identity tokens is
    lost for good, the policy kernel takes the strictest matching rule.

    Accounts: a selection is the strategy's best among the eligible accounts,
    round robin is fair, a refused account rests for its cooldown, no history
    of failures leaves an account out for good, a rotation tries each account
    once and reaches one that works while other tasks book the other accounts,
    and the host's login needs consent.

    Rules: a path selects exactly the nodes it denotes and survives printing;
    a field rule masks what it selects, whatever is embedded in what; a
    database column's rules select that column in the results of the tools
    that return its table, and nothing else; keywords and names are found
    wherever they stand as words; no source, entry or rule is dropped without
    an error, a rule set loads as the reference says, and what loaded never
    makes redaction panic.

    Model rules: the decoder's path is a legal one that no legal path beats,
    its spans are exactly the entities of that path, a chunk's spans are the
    same pieces of the whole text, and the cache of results is a
    least-recently-used one.

    Data: redacting and restoring gives the text back to an authorised caller,
    the vault reveals only what was stored for that caller, tokens round-trip,
    egress passes a tool call only with its tokens, found where a declarative
    cut of the strings finds them, each replaced by its own value; a streamed answer equals the whole one however
    the body is cut into chunks; the last line of an intact log commits to
    everything before it, and appending keeps the log intact.

    Rules and autonomy: a stored condition means its formula and a template
    substitutes each placeholder once; event data never replaces the fields
    that identify the event, an MCP event's work carries its notice and its
    lane; a sequence resolves only for two events in its window, a window
    resolves at most once; a rule acts only when it is enabled, matches, and
    its breaker, its screen and the gate let it, never more often than the
    breaker's limit, and a rule that was quiet fires again.  Work is admitted
    exactly when nothing pauses it or its ancestors, a change that is reported
    is on disk with its receipt and one reported as failed is not, a paused
    agent is refused, and no pause is written under work that was admitted.

    Approvals: over every interleaving of calls, a request is decided once,
    pending, in time, with a live turn, and by somebody entitled to it; an
    approval is used once; a step begins once and only under the latest claim;
    what begins on a human approval is the payload that was approved, and
    earlier in the log stands the answer of somebody entitled who approved it,
    with what that call had looked up; a batch decides its whole turn or
    changes nothing, a withdrawn turn decides nothing, and a wait ends.

    Sessions: a login code is used once under any interleaving and survives at
    most five sequential guesses, a verified channel is never taken over, a
    conversation is answered in order within its caps and everything
    submitted is started.

    Lemmas without a place in these groups state what the code does against
    its intent: a concrete run, or the general statement where there is one.

    ** Bounds and fuel

    [BreakerWait.wait_fuel] is the number of waits that fit the cap, proved
    enough by [wait_fuel_enough].  The loops over texts ([rewrite_tokens],
    [split], [drain_lines], the UTF-8 decoder) consume at least one element
    per round and get the length plus one.  The upward walk of [Delegation]
    takes the code's own bound of hops.  [Otp.run_verify] takes the five
    statements a call makes.  [Rotation.rotate_loop] takes the code's number
    of attempts.  [Otp.generate_numeric_code] draws until a draw is accepted,
    so its fuel bounds the draws looked at.  [Conditions.render_loop] drops at
    least one byte per round and gets the length plus one.
    [Autonomy.MAX_ANCESTRY] is the code's own number of rounds.
    [ApprovalBroker.await_loop] takes a number of rounds, [await_terminates]
    says how many suffice.  Integers are [Z] with the width's
    wrap-around, saturation or truncation written where the code can meet it,
    as a release build computes them.

    ** Interfaces

    [Platform] (hashing, the earliest and the latest [Instant]), [Toml], [Json],
    [StateCodec], [UtcTime], [Chrono], [Host], [Secrets], [LowerCase],
    [Hmac], [VaultPlatform], [Sha256], [JsonLines], [JsonText], [Mpsc],
    [PasswordHash] and [RowOrder] stand for crates, the operating system and
    parts of the standard library that the sources only call; [CharLower] and
    [StrLower] (Unicode lower case), [JsonPointer] (RFC 6901), [RuleDebug]
    (the text of a derived [Debug]), [RegexCrate], [NerSession] (tokenizer and
    model), [FloatMath] ([exp] and [ln]), [TextDigest], [SerdeValue]
    (numbers of serde_json and the text of a value), [PathText] (file names of
    paths), [EngineText] (the perception sanitizer, the JSON of a field map)
    and [AutonomyCrates] (the state's JSON, its digest and RFC 3339 times) and
    [ApprovalCrates] (times in RFC 3339 and in SQLite, the detection and masking
    of credentials) are of the same kind.  Their laws are
    the documented ones (a codec reads what it writes, a digest is 64 hex
    digits, a password verifies against its own hash, a bounded channel is a
    queue, a tensor holds what its shape says); injectivity of SHA-256 and HMAC is never assumed, the theorems
    name the collision instead.  Each file ends with concrete instances on
    which its theorems are evaluated.

    ** Not modelled

    Network and user interface code (channels, servers, dashboard, command
    line), process spawning, SQL-backed stores other than the vault, the
    login codes and the approvals, the memory and knowledge engines, model runtimes, operating
    system services, and cryptographic libraries: they are glue around
    external systems or queries whose meaning is the database's.  Of the
    modelled crates: the installation, calibration file, telemetry and idle
    timer of the named-entity model, and the manager that owns pipelines; the
    retry loop of claude_runner.rs, the detection of the host's login and the
    resolution of secrets; passwords, sessions and second factors; the request
    builders and the other providers of duduclaw-llm; of the rules, the belief
    sections, the proactive gate, the stores and the sending of messages; of
    the autonomy gate, the waiting time for its lock, the checks of a file's
    owner and links, and the barrier of lifecycle edits; of the approvals,
    revision grants and workflow runs, tasks, policy snapshots, the requester
    of a mail and the digest of a card, which answer in [ApprovalStore.World],
    the delivery of notifications, lifecycle events, simulations, and the
    migration of an older store (histories start from an empty one).  They
    call external systems or only pass text on. *)

From Stdlib Require Export ZArith Lia Sorted.
From stdpp Require Export base tactics list gmap strings pretty option.
#[global] Open Scope Z_scope.

(** ** Strings

    A Rust [&str] / [String] is a sequence of Unicode scalar values.  Code
    that looks at bytes ([as_bytes], [len]) goes through [utf8_encode]. *)
Abbreviation ustr := (list N).

(** The ASCII bytes of a Rocq literal (which is UTF-8), as numbers. *)
Fixpoint bytes_of_string (s : string) : list N :=
  match s with
  | EmptyString => []
  | String a r => Ascii.N_of_ascii a :: bytes_of_string r
  end.

(** UTF-8 decoding of a well-formed byte sequence. *)
Fixpoint utf8_decode (bs : list N) : ustr :=
  match bs with
  | [] => []
  | b :: r =>
      if (b <? 128)%N then b :: utf8_decode r
      else if (b <? 224)%N then
        match r with
        | c1 :: r' => ((b - 192) * 64 + (c1 - 128))%N :: utf8_decode r'
        | _ => []
        end
      else if (b <? 240)%N then
        match r with
        | c1 :: c2 :: r' =>
            ((b - 224) * 4096 + (c1 - 128) * 64 + (c2 - 128))%N :: utf8_decode r'
        | _ => []
        end
      else
        match r with
        | c1 :: c2 :: c3 :: r' =>
            ((b - 240) * 262144 + (c1 - 128) * 4096 + (c2 - 128) * 64 + (c3 - 128))%N
              :: utf8_decode r'
        | _ => []
        end
  end.

(** [char::encode_utf8]. *)
Definition utf8_char (c : N) : list N :=
  (if c <? 128 then [c]
   else if c <? 2048 then [192 + c / 64; 128 + c mod 64]
   else if c <? 65536 then
     [224 + c / 4096; 128 + (c / 64) mod 64; 128 + c mod 64]
   else
     [240 + c / 262144; 128 + (c / 4096) mod 64; 128 + (c / 64) mod 64;
      128 + c mod 64])%N.

(** [str::as_bytes]. *)
Definition utf8_encode (s : ustr) : list N := concat (map utf8_char s).

(** A source literal. *)
Definition u (s : string) : ustr := utf8_decode (bytes_of_string s).

(** The double quote character, for messages that quote a value. *)
Definition dquote : ustr := [34%N].

(** [char::is_whitespace]: the Unicode [White_Space] property. *)
Definition is_whitespace (c : N) : bool :=
  (((9 <=? c) && (c <=? 13)) || (c =? 32) || (c =? 133) || (c =? 160)
   || (c =? 5760) || ((8192 <=? c) && (c <=? 8202)) || (c =? 8232)
   || (c =? 8233) || (c =? 8239) || (c =? 8287) || (c =? 12288))%N.

Fixpoint trim_start (s : ustr) : ustr :=
  match s with
  | [] => []
  | c :: r => if is_whitespace c then trim_start r else s
  end.

Definition trim_end (s : ustr) : ustr := rev (trim_start (rev s)).

(** [str::trim]. *)
Definition trim (s : ustr) : ustr := trim_end (trim_start s).

(** [char::to_ascii_lowercase] and its lifting to strings. *)
Definition ascii_lower (c : N) : N := if ((65 <=? c) && (c <=? 90))%N then (c + 32)%N else c.
Definition to_ascii_lowercase (s : ustr) : ustr := map ascii_lower s.

(** [str::eq_ignore_ascii_case]. *)
Definition eq_ignore_ascii_case (a b : ustr) : bool :=
  bool_decide (to_ascii_lowercase a = to_ascii_lowercase b).

(** [str ==]. *)
Definition ustr_eqb (a b : ustr) : bool := bool_decide (a = b).

(** [str::is_empty]. *)
Definition is_empty {A} (l : list A) : bool := match l with [] => true | _ => false end.

(** [str::starts_with] with a string pattern. *)
Fixpoint starts_with (s p : ustr) : bool :=
  match p, s with
  | [], _ => true
  | _, [] => false
  | c :: p', d :: s' => (c =? d)%N && starts_with s' p'
  end.

(** [str::contains] with a string pattern. *)
Fixpoint contains (s p : ustr) : bool :=
  starts_with s p || match s with [] => false | _ :: s' => contains s' p end.

(** The ordering of [String] (byte-wise, which for UTF-8 is the ordering by
    scalar values). *)
Fixpoint ustr_leb (a b : ustr) : bool :=
  match a, b with
  | [], _ => true
  | _ :: _, [] => false
  | x :: a', y :: b' => (x <? y)%N || ((x =? y)%N && ustr_leb a' b')
  end.

(** Decimal rendering of an integer ([{}] in a format string). *)
Definition show_Z (z : Z) : ustr := u (pretty z).
Definition show_nat (n : nat) : ustr := show_Z (Z.of_nat n).
Definition show_bool (b : bool) : ustr := u (if b then "true" else "false").

(** ** Machine integers *)
Definition u8_max : Z := 2 ^ 8 - 1.
Definition u32_max : Z := 2 ^ 32 - 1.
Definition u64_max : Z := 2 ^ 64 - 1.
Definition i64_max : Z := 2 ^ 63 - 1.
Definition i64_min : Z := - 2 ^ 63.

(** [as u32] on an unsigned value, [as i64] on an unsigned 64-bit value. *)
Definition as_u32 (z : Z) : Z := z mod 2 ^ 32.
Definition as_i64 (z : Z) : Z := let m := z mod 2 ^ 64 in if m <? 2 ^ 63 then m else m - 2 ^ 64.

Definition u64_saturating_mul (a b : Z) : Z := Z.min u64_max (a * b).
Definition u32_saturating_add (a b : Z) : Z := Z.min u32_max (a + b).

(** ** Time

    An [Instant] is a number of nanoseconds; a [Duration] a non-negative
    number of nanoseconds. *)
Definition secs (n : Z) : Z := n * 1000000000.
Definition millis (n : Z) : Z := n * 1000000.

(** [Instant::saturating_duration_since] (and [duration_since], which
    saturates as well). *)
Definition duration_since (later earlier : Z) : Z := Z.max 0 (later - earlier).

(** ** Bounded queues

    [Vec::retain] is list filtering; the sliding windows of the code push at
    the back and drop the front past a cap. *)
Abbreviation retain := List.filter.

(** [q.push_back(x); if q.len() > cap { q.pop_front(); }]. *)
Definition push_capped {A} (cap : nat) (q : list A) (x : A) : list A :=
  let q' := q ++ [x] in
  if (cap <? length q')%nat then List.tl q' else q'.

(** The last [n] elements, in order. *)
Definition last_n {A} (n : nat) (l : list A) : list A := drop (length l - n) l.

(** ** Results

    [Result<T, E>] as a sum type. *)
Inductive result (T E : Type) : Type :=
| Ok (t : T)
| Err (e : E).
Arguments Ok {T E} t.
Arguments Err {T E} e.

(** ** Queries *)

(** The order of the rows of a query without ORDER BY, and of equal keys. *)
Class RowOrder := {
  row_order {A} : list A → list A;
  row_order_perm {A} (l : list A) : row_order l ≡ₚ l;
}.

(** ** Tactics *)

(** Splits every [if]/[match] of the goal and hypotheses on its scrutinee. *)
Ltac case_code :=
  repeat (first
    [ progress simplify_eq/=
    | match goal with
      | |- context [if ?b then _ else _] => let E := fresh "E" in destruct b eqn:E
      | H : context [if ?b then _ else _] |- _ => let E := fresh "E" in destruct b eqn:E
      | |- context [match ?x with _ => _ end] => let E := fresh "E" in destruct x eqn:E
      | H : context [match ?x with _ => _ end] |- _ => let E := fresh "E" in destruct x eqn:E
      end ]).

(** Evaluates a closed decidable statement (an equation of data, an integer
    comparison or its negation). *)
Ltac by_eval :=
  vm_compute;
  first [reflexivity | exact I | discriminate
        | let H := fresh in intros H; first [discriminate H | inversion H]
        | split; by_eval].

(** A [Forall] over a literal list, each element by evaluation. *)
Ltac forall_by_eval := repeat (apply List.Forall_cons; [by_eval|]); apply List.Forall_nil.

(** Turns boolean tests of the hypotheses into propositions. *)
Ltac reflect_bools :=
  repeat match goal with
  | H : _ && _ = true |- _ => apply andb_true_iff in H as [? ?]
  | H : _ || _ = false |- _ => apply orb_false_iff in H as [? ?]
  | H : negb _ = true |- _ => apply negb_true_iff in H
  | H : negb _ = false |- _ => apply negb_false_iff in H
  | H : (_ <? _)%Z = true |- _ => apply Z.ltb_lt in H
  | H : (_ <? _)%Z = false |- _ => apply Z.ltb_ge in H
  | H : (_ <=? _)%Z = true |- _ => apply Z.leb_le in H
  | H : (_ <=? _)%Z = false |- _ => apply Z.leb_gt in H
  | H : (_ =? _)%Z = true |- _ => apply Z.eqb_eq in H
  | H : (_ =? _)%Z = false |- _ => apply Z.eqb_neq in H
  | H : (_ <? _)%nat = true |- _ => apply Nat.ltb_lt in H
  | H : (_ <? _)%nat = false |- _ => apply Nat.ltb_ge in H
  | H : (_ <=? _)%nat = true |- _ => apply Nat.leb_le in H
  | H : (_ <=? _)%nat = false |- _ => apply Nat.leb_gt in H
  | H : bool_decide _ = true |- _ => apply bool_decide_eq_true_1 in H
  | H : bool_decide _ = false |- _ => apply bool_decide_eq_false_1 in H
  | H : ustr_eqb _ _ = true |- _ => apply bool_decide_eq_true_1 in H
  | H : ustr_eqb _ _ = false |- _ => apply bool_decide_eq_false_1 in H
  end.

(** ** Trimming *)

Lemma trim_start_spec s : trim_start s = [] ∨ ∃ c r, trim_start s = c :: r ∧ is_whitespace c = false.
Proof.
  induction s as [|c s IH]; simpl; [by left|].
  destruct (is_whitespace c) eqn:E; [done|]. right. eauto.
Qed.

Lemma trim_start_idem s : trim_start (trim_start s) = trim_start s.
Proof.
  destruct (trim_start_spec s) as [->|(c & r & -> & Hc)]; [done|]. simpl. by rewrite Hc.
Qed.

(** Dropping trailing white space keeps a first character that is not white. *)
Lemma trim_end_cons c r : is_whitespace c = false → ∃ r', trim_end (c :: r) = c :: r'.
Proof.
  intros Hc. unfold trim_end. simpl.
  assert (∀ l, ∃ l', trim_start (l ++ [c]) = l' ++ [c]) as Hl.
  { induction l as [|x l [l' IH]]; simpl; [rewrite Hc; by exists []|].
    destruct (is_whitespace x); [by exists l'|by exists (x :: l)]. }
  destruct (Hl (rev r)) as [l' ->]. rewrite rev_app_distr. simpl. eauto.
Qed.

Lemma trim_idem s : trim (trim s) = trim s.
Proof.
  unfold trim at 2 3.
  destruct (trim_start_spec s) as [->|(c & r & -> & Hc)]; [done|].
  destruct (trim_end_cons c r Hc) as [r' Er]. unfold trim. rewrite Er. simpl. rewrite Hc, <- Er.
  unfold trim_end. rewrite rev_involutive. by rewrite trim_start_idem.
Qed.

(** ** Lemmas on queues *)

Create HintDb queues.

Section queues.
Context {A : Type}.
Implicit Types (q : list A) (P : A → Prop) (f : A → bool).

Lemma length_push_capped cap q x :
  (length q ≤ cap)%nat → (length (push_capped cap q x) ≤ cap)%nat.
Proof.
  intros Hq. unfold push_capped. destruct (_ <? _)%nat eqn:E; reflect_bools; [|lia].
  rewrite length_app in E. simpl in E.
  destruct q as [|y q]; simpl in *; rewrite ?length_app; simpl; lia.
Qed.

Lemma push_capped_small cap q x :
  (length q < cap)%nat → push_capped cap q x = q ++ [x].
Proof.
  intros Hq. unfold push_capped. destruct (_ <? _)%nat eqn:E; reflect_bools; [|done].
  rewrite length_app in E. simpl in E. lia.
Qed.

Lemma push_capped_suffix cap q x : push_capped cap q x `suffix_of` q ++ [x].
Proof.
  unfold push_capped. destruct (_ <? _)%nat; [|done].
  destruct (q ++ [x]) as [|y l]; [done|]. by exists [y].
Qed.

Lemma Forall_push_capped P cap q x :
  Forall P q → P x → Forall P (push_capped cap q x).
Proof.
  intros Hq Hx. destruct (push_capped_suffix cap q x) as [k Hk].
  assert (Forall P (q ++ [x])) as H by (apply Forall_app; auto).
  rewrite Hk in H. by apply Forall_app in H as [_ ?].
Qed.

Lemma push_capped_last cap q x :
  (0 < cap)%nat → list.last (push_capped cap q x) = Some x.
Proof.
  intros Hc. unfold push_capped. destruct (_ <? _)%nat eqn:E; [|by rewrite list.last_snoc].
  reflect_bools. rewrite length_app in E. simpl in E.
  destruct q as [|y q]; simpl in *; [lia|]. by rewrite list.last_snoc.
Qed.

Lemma length_retain f q : (length (retain f q) ≤ length q)%nat.
Proof. apply filter_length_le. Qed.

Lemma Forall_retain P f q : Forall P q → Forall P (retain f q).
Proof.
  rewrite !List.Forall_forall. intros H x Hx. apply filter_In in Hx as [Hx _]. auto.
Qed.

Lemma elem_of_flat_map {X Y} (f : X → list Y) l y : y ∈ flat_map f l ↔ ∃ x, x ∈ l ∧ y ∈ f x.
Proof.
  rewrite list_elem_of_In, in_flat_map. by setoid_rewrite list_elem_of_In.
Qed.

Lemma elem_of_retain f q x : x ∈ retain f q ↔ x ∈ q ∧ f x = true.
Proof. rewrite !list_elem_of_In. apply filter_In. Qed.

Lemma Forall_retained f q : Forall (λ x, f x = true) (retain f q).
Proof. rewrite List.Forall_forall. intros x Hx. by apply filter_In in Hx as [_ ?]. Qed.

Lemma retain_all f q : Forall (λ x, f x = true) q → retain f q = q.
Proof. induction 1 as [|x l Hx _ IH]; simpl; [done|]. by rewrite Hx, IH. Qed.

Lemma retain_none f q : Forall (λ x, f x = false) q → retain f q = [].
Proof. induction 1 as [|x l Hx _ IH]; simpl; [done|]. by rewrite Hx, IH. Qed.

Lemma sublist_retain f q : sublist (retain f q) q.
Proof. induction q as [|x q IH]; simpl; [done|]. destruct (f x); by constructor. Qed.

Lemma StronglySorted_retain (R : relation A) f q :
  StronglySorted R q → StronglySorted R (retain f q).
Proof.
  induction 1 as [|x l _ IH Hx]; simpl; [constructor|].
  destruct (f x); [|done]. constructor; [done|]. by apply Forall_retain.
Qed.

Lemma StronglySorted_snoc (R : relation A) q x :
  StronglySorted R q → Forall (λ y, R y x) q → StronglySorted R (q ++ [x]).
Proof.
  induction 1 as [|y l _ IH Hy]; simpl; intros HF; [repeat constructor|].
  inversion HF; subst. constructor; [by apply IH|].
  apply Forall_app. auto.
Qed.

Lemma StronglySorted_suffix (R : relation A) q q' :
  q' `suffix_of` q → StronglySorted R q → StronglySorted R q'.
Proof.
  intros [k ->]. induction k as [|y k IH]; simpl; [done|].
  inversion 1; auto.
Qed.

Lemma StronglySorted_push_capped (R : relation A) cap q x :
  StronglySorted R q → Forall (λ y, R y x) q →
  StronglySorted R (push_capped cap q x).
Proof.
  intros. eapply StronglySorted_suffix; [apply push_capped_suffix|].
  by apply StronglySorted_snoc.
Qed.

Lemma StronglySorted_lookup (R : relation A) `{!Reflexive R} q i j x y :
  StronglySorted R q → q !! i = Some x → q !! j = Some y → (i ≤ j)%nat → R x y.
Proof.
  intros Hs. revert i j. induction Hs as [|z l _ IH Hz]; intros [|i] [|j] Hi Hj Hij;
    simplify_eq/=; try lia; [done| |].
  - rewrite Forall_forall in Hz. apply Hz, list_elem_of_In. by eapply list_elem_of_lookup_2.
  - eapply IH; eauto; lia.
Qed.
End queues.

#[export] Hint Resolve length_push_capped Forall_push_capped Forall_retain
  StronglySorted_retain StronglySorted_push_capped : queues.

(** ** Lemmas on strings *)

Lemma ustr_eqb_refl a : ustr_eqb a a = true.
Proof. by apply bool_decide_eq_true_2. Qed.

Lemma eq_ignore_ascii_case_refl a : eq_ignore_ascii_case a a = true.
Proof. by apply bool_decide_eq_true_2. Qed.

Lemma ustr_leb_total a b : ustr_leb a b = true ∨ ustr_leb b a = true.
Proof.
  revert b. induction a as [|x a IH]; intros [|y b]; simpl; auto.
  destruct (IH b) as [H|H]; destruct (N.lt_trichotomy x y) as [E|[E|E]].
  all: rewrite ?(proj2 (N.ltb_lt _ _) E); subst; simpl; auto.
  all: rewrite N.eqb_refl, H; simpl; rewrite orb_true_r; auto.
Qed.

Lemma ustr_leb_antisym a b : ustr_leb a b = true → ustr_leb b a = true → a = b.
Proof.
  revert b. induction a as [|x a IH]; intros [|y b]; simpl; try done.
  rewrite !orb_true_iff, !andb_true_iff, !N.ltb_lt, !N.eqb_eq.
  intros [?|[-> H1]] [?|[? H2]]; try lia. f_equal. auto.
Qed.

Lemma ustr_leb_trans a b c : ustr_leb a b = true → ustr_leb b c = true → ustr_leb a c = true.
Proof.
  revert b c. induction a as [|i a IH]; intros [|j b] [|k c]; simpl; try done.
  rewrite !orb_true_iff, !andb_true_iff, !N.ltb_lt, !N.eqb_eq.
  intros [H1|[E1 H1]] [H2|[E2 H2]]; subst; [left; lia|by left|by left|right; eauto].
Qed.

(** ** Sliding windows

    [in_window W t l]: the times of [l] in the window of length [W] that ends
    at [t]. *)
Definition in_window (W t : Z) (l : list Z) : list Z :=
  retain (λ x, (t - W <? x) && (x <=? t)) l.

Lemma in_window_le (W t c : Z) (l : list Z) :
  c ≤ t - W → Z.of_nat (length (in_window W t l)) ≤ Z.of_nat (length (retain (λ x : Z, c <? x) l)).
Proof.
  intros Hc. induction l as [|x l IH]; simpl; [done|].
  destruct (_ <? x) eqn:E1; destruct (c <? x) eqn:E2; simpl; [|reflect_bools; lia|lia|lia].
  destruct (x <=? t); simpl; lia.
Qed.

Lemma in_window_app (W t : Z) (l1 l2 : list Z) :
  length (in_window W t (l1 ++ l2)) = (length (in_window W t l1) + length (in_window W t l2))%nat.
Proof. unfold in_window. by rewrite List.filter_app, length_app. Qed.

(** One more time [t1], when fewer than [N] are recent, keeps every window
    within [N]. *)
Lemma in_window_snoc (W N t0 t1 : Z) (l : list Z) :
  0 ≤ N → t0 ≤ t1 →
  (∀ t, Z.of_nat (length (in_window W t l)) ≤ N) →
  Z.of_nat (length (retain (λ x : Z, t0 - W <? x) l)) < N →
  ∀ t, Z.of_nat (length (in_window W t (l ++ [t1]))) ≤ N.
Proof.
  intros H0 Hle Hn Hlt t. rewrite in_window_app. unfold in_window at 2. simpl.
  destruct ((_ <? t1) && (t1 <=? t)) eqn:E; simpl.
  - reflect_bools. pose proof (in_window_le W t (t0 - W) l ltac:(lia)). lia.
  - specialize (Hn t). lia.
Qed.

(** What is old at a time is old later. *)
Lemma retain_later (c c' : Z) (l : list Z) :
  c ≤ c' → retain (λ x : Z, c <? x) l = [] → retain (λ x : Z, c' <? x) l = [].
Proof.
  intros Hc. induction l as [|x l IH]; simpl; [done|].
  destruct (c <? x) eqn:E1; [done|]. reflect_bools. rewrite (proj2 (Z.ltb_ge c' x)) by lia. done.
Qed.
