(* ===== verification/Float64.v ===== *)
(** * IEEE-754 binary64, as the [f64] values of the configuration and of the
    similarity and error-rate computations.

    The operations are those of [SpecFloat] at precision 53 and maximal
    exponent 1024 (round to nearest, ties to even): they run on [Z] and rest
    on no axiom, and they are the arithmetic Rust specifies for [f64]. *)

From Stdlib Require Import SpecFloat.
From S2P Require Import Prelude.

Abbreviation f64 := spec_float.

#[export] Instance f64_eq_dec : EqDecision f64.
Proof. solve_decision. Defined.

(** [n as f64] for an integer. *)
Definition f64_of_Z (n : Z) : f64 := binary_normalize 53 1024 n 0 false.

Definition f64_mul (a b : f64) : f64 := SFmul 53 1024 a b.
Definition f64_div (a b : f64) : f64 := SFdiv 53 1024 a b.

(** The comparison operators; all are false on [NaN]. *)
Definition f64_ltb (a b : f64) : bool := SFltb a b.
Definition f64_leb (a b : f64) : bool := SFleb a b.
Definition f64_gtb (a b : f64) : bool := SFltb b a.
Definition f64_geb (a b : f64) : bool := SFleb b a.

(** [as i64]: truncated and clamped, 0 for a NaN. *)
Definition f64_as_i64 (a : f64) : Z :=
  match a with
  | S754_finite s m e =>
      let n := if 0 <=? e then Z.pos m * 2 ^ e else Z.pos m / 2 ^ (- e) in
      Z.max i64_min (Z.min i64_max (if s then - n else n))
  | S754_infinity s => if s then i64_min else i64_max
  | _ => 0
  end.

Definition f64_is_finite (a : f64) : bool :=
  match a with S754_finite _ _ _ | S754_zero _ => true | _ => false end.

(** A decimal literal [num/den] with exactly representable parts: the
    correctly rounded quotient. *)
Definition f64_lit (num den : Z) : f64 := f64_div (f64_of_Z num) (f64_of_Z den).

(** [format!("{:.2}", x)]: two decimals, ties to even on the exact value. *)
Definition hundredths (m : positive) (e : Z) : Z :=
  if 0 <=? e then Z.pos m * 100 * 2 ^ e
  else
    let d := 2 ^ (- e) in
    let q := (Z.pos m * 100) / d in
    let r := (Z.pos m * 100) mod d in
    if (d <? 2 * r) || ((2 * r =? d) && Z.odd q) then q + 1 else q.

Definition show_hundredths (h : Z) : ustr :=
  show_Z (h / 100) ++ u "."
    ++ (if h mod 100 <? 10 then u "0" else []) ++ show_Z (h mod 100).

Definition fmt_2 (x : f64) : ustr :=
  match x with
  | S754_nan => u "NaN"
  | S754_infinity s => if s then u "-inf" else u "inf"
  | S754_zero s => (if s then u "-" else []) ++ u "0.00"
  | S754_finite s m e => (if s then u "-" else []) ++ show_hundredths (hundredths m e)
  end.

Example fmt_2_095 : fmt_2 (f64_lit 95 100) = u "0.95".
Proof. vm_compute. reflexivity. Qed.

Example fmt_2_tie : fmt_2 (f64_lit 1 8) = u "0.12".
Proof. vm_compute. reflexivity. Qed.

(** ** Facts about comparisons *)

(** [a <= b] and [b < a] exclude each other. *)
Lemma f64_leb_not_gtb a b : f64_leb a b = true → f64_gtb a b = false.
Proof.
  unfold f64_leb, f64_gtb, SFleb, SFltb.
  destruct a as [[]|[]| |[] m e], b as [[]|[]| |[] m' e']; simpl; try done.
  all: try rewrite (Z.compare_antisym e e').
  all: destruct (e ?= e'); simpl; try done.
  all: change (Pos.compare_cont Eq ?x ?y) with (x ?= y)%positive.
  all: try rewrite (Pos.compare_antisym m m'); destruct (m ?= m')%positive; done.
Qed.

Lemma f64_nan_ltb b : f64_ltb S754_nan b = false.
Proof. done. Qed.

Lemma f64_nan_gtb a : f64_gtb a S754_nan = false.
Proof. by destruct a. Qed.

(** [n / n] is exactly 1 for the bucket counts of a similarity. *)
Lemma f64_div_self n : 1 ≤ n ≤ 256 → f64_div (f64_of_Z n) (f64_of_Z n) = f64_of_Z 1.
Proof.
  intros Hn.
  assert (forallb (λ k, bool_decide
    (f64_div (f64_of_Z (Z.of_nat k)) (f64_of_Z (Z.of_nat k)) = f64_of_Z 1)) (seq 1 256) = true)
    as Hall by (vm_compute; reflexivity).
  rewrite forallb_forall in Hall. specialize (Hall (Z.to_nat n)).
  rewrite Z2Nat.id, bool_decide_eq_true in Hall by lia. apply Hall, in_seq. lia.
Qed.
