(* ===== verification/Float32.v ===== *)
(** * IEEE-754 binary32, for the scores of the named-entity decoder

    Every finite binary32 number is a multiple of 2^-149, so it is written as
    that multiple; sums are exact on it and then rounded to 24 significant
    bits, to nearest and ties to even.  The two zeros are one number, which no
    comparison or sum of the decoder tells apart. *)

From Stdlib Require Import SpecFloat.
From S2P Require Import Prelude.

Inductive f32 :=
| NaN32
| Inf32 (negative : bool)
| Num32 (n : Z).

#[export] Instance f32_eq_dec : EqDecision f32.
Proof. solve_decision. Defined.

(** [a / 2^k] to the nearest integer, ties to even. *)
Definition nearest_even (a k : Z) : Z :=
  let q := a / 2 ^ k in
  let r := a mod 2 ^ k in
  if (2 ^ (k - 1) <? r) || ((r =? 2 ^ (k - 1)) && Z.odd q) then q + 1 else q.

(** A magnitude to 24 significant bits. *)
Definition round_magnitude (a : Z) : Z :=
  if a <? 2 ^ 24 then a else let k := Z.log2 a - 23 in nearest_even a k * 2 ^ k.
Definition round_24 (n : Z) : Z := Z.sgn n * round_magnitude (Z.abs n).

(** 2^128 is out of range. *)
Definition f32_round (n : Z) : f32 :=
  let m := round_24 n in if 2 ^ 277 <=? Z.abs m then Inf32 (m <? 0) else Num32 m.

Definition f32_of_Z (n : Z) : f32 := f32_round (n * 2 ^ 149).

Definition f32_add (x y : f32) : f32 :=
  match x, y with
  | NaN32, _ | _, NaN32 => NaN32
  | Inf32 s, Inf32 t => if Bool.eqb s t then Inf32 s else NaN32
  | Inf32 s, Num32 _ | Num32 _, Inf32 s => Inf32 s
  | Num32 n, Num32 m => f32_round (n + m)
  end.
Definition f32_opp (x : f32) : f32 :=
  match x with NaN32 => NaN32 | Inf32 s => Inf32 (negb s) | Num32 n => Num32 (- n) end.
Definition f32_sub (x y : f32) : f32 := f32_add x (f32_opp y).

(** The comparison operators; all are false on [NaN32]. *)
Definition f32_ltb (x y : f32) : bool :=
  match x, y with
  | NaN32, _ | _, NaN32 => false
  | Inf32 s, Inf32 t => s && negb t
  | Inf32 s, Num32 _ => s
  | Num32 _, Inf32 t => negb t
  | Num32 n, Num32 m => n <? m
  end.
Definition f32_leb (x y : f32) : bool :=
  match x, y with
  | NaN32, _ | _, NaN32 => false
  | Inf32 s, Inf32 t => s || negb t
  | Inf32 s, Num32 _ => s
  | Num32 _, Inf32 t => negb t
  | Num32 n, Num32 m => n <=? m
  end.

Definition f32_is_finite (x : f32) : bool := match x with Num32 _ => true | _ => false end.
(** [f32::max]: a [NaN32] loses. *)
Definition f32_max (x y : f32) : f32 :=
  match x, y with
  | NaN32, _ => y
  | _, NaN32 => x
  | _, _ => if f32_ltb x y then y else x
  end.

(** ** Agreement with the standard library's binary32 on samples *)

Definition f32_value (x : spec_float) : f32 :=
  match x with
  | S754_nan => NaN32
  | S754_infinity s => Inf32 s
  | S754_zero _ => Num32 0
  | S754_finite s m e => Num32 ((if s then -1 else 1) * Z.pos m * 2 ^ (e + 149))
  end.

Definition sample_floats : list spec_float :=
  map (λ p : Z * Z, binary_normalize 24 128 p.1 p.2 false)
    [(0, 0); (1, 0); (-1, 0); (1, -149); (3, -149); (-5, -140); (16777215, 0); (16777215, 104); (-16777215, 104);
     (16777215, -24); (12345679, -30); (-9999999, 13); (1, 24); (3, 24); (33554431, -1); (10 ^ 30, 0); (- 10 ^ 30, 0)]
  ++ [S754_nan; S754_infinity false; S754_infinity true].

Example add_agrees :
  forallb (λ x, forallb (λ y, bool_decide (f32_value (SFadd 24 128 x y) = f32_add (f32_value x) (f32_value y)))
                  sample_floats) sample_floats = true.
Proof. vm_compute. reflexivity. Qed.

Example compare_agrees :
  forallb (λ x, forallb (λ y, bool_decide (SFltb x y = f32_ltb (f32_value x) (f32_value y)
                                           ∧ SFleb x y = f32_leb (f32_value x) (f32_value y)))
                  sample_floats) sample_floats = true.
Proof. vm_compute. reflexivity. Qed.

(** ** Rounding is monotone *)

Lemma nearest_even_mono a c k : 0 <= a <= c → 1 <= k → nearest_even a k <= nearest_even c k.
Proof.
  intros [H0 H1] Hk. unfold nearest_even. cbv zeta.
  assert (0 < 2 ^ k) as Hp by (apply Z.pow_pos_nonneg; lia).
  pose proof (Z.div_le_mono a c (2 ^ k) Hp H1) as Hq.
  destruct (Z.eq_dec (a / 2 ^ k) (c / 2 ^ k)) as [Heq|Hne].
  - pose proof (Z.div_mod a (2 ^ k)). pose proof (Z.div_mod c (2 ^ k)).
    assert (a mod 2 ^ k <= c mod 2 ^ k) as Hr by (rewrite Heq in *; lia).
    rewrite Heq. repeat case_match; reflect_bools; try lia.
    all: repeat match goal with K : _ || _ = true |- _ => apply orb_true_iff in K end.
    all: repeat match goal with K : _ && _ = false |- _ => apply andb_false_iff in K end.
    all: rewrite ?andb_true_iff, ?Z.ltb_lt, ?Z.eqb_eq, ?Z.eqb_neq in *; intuition (congruence || lia).
  - repeat case_match; lia.
Qed.

Lemma nearest_even_bounds a k : 0 <= a → 0 <= k → a / 2 ^ k <= nearest_even a k <= a / 2 ^ k + 1.
Proof. intros _ _. unfold nearest_even. cbv zeta. case_match; lia. Qed.

(** A magnitude with its binary exponent. *)
Lemma magnitude_range a :
  2 ^ 24 <= a → 1 <= Z.log2 a - 23 ∧ 2 ^ 23 <= a / 2 ^ (Z.log2 a - 23) < 2 ^ 24.
Proof.
  intros Ha. assert (0 < a) as Hpos by (change (2 ^ 24) with 16777216 in Ha; lia).
  assert (24 <= Z.log2 a) as Hl by (apply Z.log2_le_pow2; done).
  destruct (Z.log2_spec a Hpos) as [H1 H2]. split; [lia|].
  assert (0 < 2 ^ (Z.log2 a - 23)) as Hp by (apply Z.pow_pos_nonneg; lia). split.
  - apply Z.div_le_lower_bound; [done|]. rewrite <- Z.pow_add_r by lia. by replace (_ - 23 + 23) with (Z.log2 a) by lia.
  - apply Z.div_lt_upper_bound; [done|]. rewrite <- Z.pow_add_r by lia.
    by replace (_ - 23 + 24) with (Z.succ (Z.log2 a)) by lia.
Qed.

Lemma round_magnitude_mono a c : 0 <= a <= c → round_magnitude a <= round_magnitude c.
Proof.
  intros Hac. unfold round_magnitude. cbv zeta.
  destruct (Z.ltb_spec a (2 ^ 24)) as [Ha|Ha], (Z.ltb_spec c (2 ^ 24)) as [Hc|Hc]; [lia| |lia|].
  - destruct (magnitude_range c Hc) as [Hk [Hq _]].
    pose proof (nearest_even_bounds c (Z.log2 c - 23)) as Hb.
    assert (2 ^ 1 <= 2 ^ (Z.log2 c - 23)) as Hp by (apply Z.pow_le_mono_r; lia).
    change (2 ^ 1) with 2 in Hp. change (2 ^ 24) with 16777216 in *. change (2 ^ 23) with 8388608 in *.
    assert (8388608 <= nearest_even c (Z.log2 c - 23)) by lia. nia.
  - destruct (magnitude_range a Ha) as [Hka [_ Hqa]], (magnitude_range c Hc) as [Hkc [Hqc _]].
    pose proof (Z.log2_le_mono a c ltac:(lia)) as Hl.
    destruct (Z.eq_dec (Z.log2 a) (Z.log2 c)) as [He|Hne].
    + rewrite <- He. apply Z.mul_le_mono_nonneg_r; [apply Z.pow_nonneg; lia|]. apply nearest_even_mono; lia.
    + pose proof (nearest_even_bounds a (Z.log2 a - 23) ltac:(lia) ltac:(lia)).
      pose proof (nearest_even_bounds c (Z.log2 c - 23) ltac:(lia) ltac:(lia)).
      trans (2 ^ 24 * 2 ^ (Z.log2 a - 23)); [apply Z.mul_le_mono_nonneg_r; [apply Z.pow_nonneg; lia|lia]|].
      trans (2 ^ 23 * 2 ^ (Z.log2 c - 23)); [|apply Z.mul_le_mono_nonneg_r; [apply Z.pow_nonneg; lia|lia]].
      rewrite <- !Z.pow_add_r by lia. apply Z.pow_le_mono_r; lia.
Qed.

Lemma round_magnitude_nonneg a : 0 <= a → 0 <= round_magnitude a.
Proof. intros Ha. pose proof (round_magnitude_mono 0 a ltac:(lia)). done. Qed.

Lemma round_24_mono n m : n <= m → round_24 n <= round_24 m.
Proof.
  intros Hnm. unfold round_24.
  pose proof (round_magnitude_nonneg (Z.abs n) (Z.abs_nonneg n)). pose proof (round_magnitude_nonneg (Z.abs m) (Z.abs_nonneg m)).
  destruct (Z.sgn_spec n) as [[? ->]|[[<- ->]|[? ->]]], (Z.sgn_spec m) as [[? ->]|[[<- ->]|[? ->]]]; try lia.
  - pose proof (round_magnitude_mono (Z.abs n) (Z.abs m)). lia.
  - pose proof (round_magnitude_mono (Z.abs m) (Z.abs n)). lia.
Qed.

Lemma f32_round_mono n m : n <= m → f32_leb (f32_round n) (f32_round m) = true.
Proof.
  intros Hnm%round_24_mono. unfold f32_round. cbv zeta. change (2 ^ 277) with (2 ^ 276 * 2).
  assert (0 < 2 ^ 276) by done. generalize dependent (2 ^ 276). intros P HP.
  destruct (P * 2 <=? Z.abs (round_24 n)) eqn:E1, (P * 2 <=? Z.abs (round_24 m)) eqn:E2; cbn; reflect_bools.
  - destruct (Z.ltb_spec (round_24 n) 0), (Z.ltb_spec (round_24 m) 0); try done. lia.
  - apply Z.ltb_lt. lia.
  - apply negb_true_iff, Z.ltb_ge. lia.
  - by apply Z.leb_le.
Qed.

(** ** Order and sums *)

Lemma f32_leb_trans x y z : f32_leb x y = true → f32_leb y z = true → f32_leb x z = true.
Proof. destruct x as [|[]|], y as [|[]|], z as [|[]|]; cbn; try done. rewrite !Z.leb_le. lia. Qed.

Lemma f32_lt_le x y : f32_ltb x y = true → f32_leb x y = true.
Proof. destruct x as [|[]|], y as [|[]|]; cbn; try done. rewrite Z.ltb_lt, Z.leb_le. lia. Qed.

Lemma f32_lt_le_trans x y z : f32_ltb x y = true → f32_leb y z = true → f32_ltb x z = true.
Proof. destruct x as [|[]|], y as [|[]|], z as [|[]|]; cbn; try done. rewrite !Z.ltb_lt, Z.leb_le. lia. Qed.

Lemma f32_ltb_irrefl x : f32_ltb x x = false.
Proof. destruct x as [|[]|]; cbn; try done. apply Z.ltb_irrefl. Qed.

Lemma f32_ltb_not_leb x y : f32_ltb x y = true → f32_leb y x = false.
Proof. destruct x as [|[]|], y as [|[]|]; cbn; try done. rewrite Z.ltb_lt, Z.leb_gt. lia. Qed.

Lemma f32_not_ltb x y : x ≠ NaN32 → y ≠ NaN32 → f32_ltb x y = false → f32_leb y x = true.
Proof. destruct x as [|[]|], y as [|[]|]; cbn; try done. rewrite Z.ltb_ge, Z.leb_le. lia. Qed.

Lemma f32_not_leb x y : x ≠ NaN32 → y ≠ NaN32 → f32_leb x y = false → f32_ltb y x = true.
Proof. destruct x as [|[]|], y as [|[]|]; cbn; try done. rewrite Z.ltb_lt, Z.leb_gt. lia. Qed.

Lemma f32_add_number x y : f32_add x y ≠ NaN32 → x ≠ NaN32 ∧ y ≠ NaN32.
Proof. by destruct x, y. Qed.

(** Numbers that compare are not [NaN32]. *)
Lemma f32_ltb_number x y : f32_ltb x y = true → x ≠ NaN32 ∧ y ≠ NaN32.
Proof. by destruct x, y. Qed.
Lemma f32_leb_number x y : f32_leb x y = true → x ≠ NaN32 ∧ y ≠ NaN32.
Proof. by destruct x, y. Qed.
Lemma f32_leb_refl x : x ≠ NaN32 → f32_leb x x = true.
Proof. destruct x as [|[]|]; cbn; try done. intros _. apply Z.leb_refl. Qed.

(** Sums are monotone, as far as they stay above some number. *)
Lemma f32_add_mono x y z bound :
  f32_leb x y = true → f32_ltb bound (f32_add x z) = true → f32_leb (f32_add x z) (f32_add y z) = true.
Proof.
  destruct x as [|[]|n], y as [|[]|m], z as [|[]|l]; cbn; try done; try (by destruct bound as [|[]|]).
  - intros _ _. unfold f32_round. cbv zeta. case_match; [apply orb_true_r|done].
  - intros Hnm%Z.leb_le _. apply f32_round_mono. lia.
Qed.
