(* ===== verification/Platform.v ===== *)
(** * What the Rust standard library leaves open

    [DefaultHasher]'s algorithm is unspecified, the earliest and the latest
    representable [Instant] depend on the operating system, and the shortest decimal
    rendering of an [f64] only ever reaches log and audit text.  The
    components that use them are parameterised by this class and assume
    nothing about its members. *)

From S2P Require Import Prelude Float64.

Class Platform := {
  text_hash : ustr → Z;
  instant_min : Z;
  instant_max : Z;
  show_f64 : f64 → ustr;
}.

(** [Instant::checked_sub]: [None] below the earliest instant. *)
Definition checked_sub `{Platform} (t d : Z) : option Z :=
  if instant_min <=? t - d then Some (t - d) else None.

(** [Instant - Duration], which panics where [checked_sub] is [None]. *)
Definition instant_sub `{Platform} (t d : Z) : option Z := checked_sub t d.

(** [Instant + Duration]: [None] is the panic past the latest instant. *)
Definition instant_add `{Platform} (t d : Z) : option Z :=
  if t + d <=? instant_max then Some (t + d) else None.

(** [cutoff.is_none_or(|c| t > c)]. *)
Definition after_cutoff (cutoff : option Z) (t : Z) : bool :=
  match cutoff with Some c => c <? t | None => true end.

(** A platform to evaluate the definitions on: every string hashes to 0, so
    every two texts collide. *)
Definition colliding_platform : Platform :=
  {| text_hash := λ _, 0; instant_min := 0; instant_max := 2 ^ 63 * 10 ^ 9 - 1;
     show_f64 := fmt_2 |}.

Lemma instant_add_Some `{Platform} t d :
  t + d ≤ instant_max → instant_add t d = Some (t + d).
Proof. intros Hle. unfold instant_add. by rewrite (proj2 (Z.leb_le _ _) Hle). Qed.

Lemma instant_add_inv `{Platform} t d r :
  instant_add t d = Some r → r = t + d ∧ t + d ≤ instant_max.
Proof. unfold instant_add. destruct (_ <=? _) eqn:E; intros; simplify_eq; by apply Z.leb_le in E. Qed.
