(* ===== verification/Toml.v ===== *)
(** * The [toml] crate, as the configuration readers use it

    Its values are opaque; the readers parse a document, look keys up in a
    table and ask a value for the shape they expect ([None] for another
    shape).  Nothing is assumed about the parser. *)

From S2P Require Import Prelude Float64.

Class Toml := {
  toml_table : Type;
  toml_value : Type;
  toml_parse : ustr → option toml_table;
  toml_get : toml_table → ustr → option toml_value;
  as_table : toml_value → option toml_table;
  as_integer : toml_value → option Z;
  as_float : toml_value → option f64;
  as_str : toml_value → option ustr;
  as_bool : toml_value → option bool;
  as_array : toml_value → option (list toml_value);
}.
