(* ===== verification/Killswitch.v ===== *)
(** * KILLSWITCH.toml (crates/duduclaw-security/src/killswitch.rs)

    The configuration records, their defaults and [validate]. *)

From S2P Require Import Prelude Float64.

Record TriggersConfig := {
  max_replies_per_minute : Z;
  max_consecutive_errors : Z;
  error_rate_threshold : f64;
  cost_limit_usd : f64;
}.

Record CircuitBreakerConfig := {
  frequency_window_secs : Z;
  frequency_max_replies : Z;
  similarity_threshold : f64;
  token_explosion_multiplier : f64;
  cooldown_secs : Z;
  half_open_allow_count : Z;
  hard_window_secs : Z;
  hard_max_messages : Z;
}.

Record FailsafeConfig := {
  l1_auto_recover_secs : Z;
  l2_auto_recover_secs : Z;
  l3_auto_recover_secs : Z;
  default_restricted_reply : ustr;
  default_halted_reply : ustr;
}.

Record SafetyWordsConfig := {
  stop : list ustr;
  stop_all : list ustr;
  resume_words : list ustr;
  status : list ustr;
}.

Record DefensivePromptConfig := {
  dp_enabled : bool;
  languages : list ustr;
}.

Record KillswitchConfig := {
  triggers : TriggersConfig;
  circuit_breaker : CircuitBreakerConfig;
  failsafe : FailsafeConfig;
  safety_words : SafetyWordsConfig;
  defensive_prompt : DefensivePromptConfig;
}.

(** ** Defaults *)

Definition TriggersConfig_default : TriggersConfig := {|
  max_replies_per_minute := 10;
  max_consecutive_errors := 5;
  error_rate_threshold := f64_lit 3 10;
  cost_limit_usd := f64_of_Z 50;
|}.

Definition CircuitBreakerConfig_default : CircuitBreakerConfig := {|
  frequency_window_secs := 10;
  frequency_max_replies := 5;
  similarity_threshold := f64_lit 95 100;
  token_explosion_multiplier := f64_of_Z 3;
  cooldown_secs := 60;
  half_open_allow_count := 2;
  hard_window_secs := 60;
  hard_max_messages := 30;
|}.

Definition FailsafeConfig_default : FailsafeConfig := {|
  l1_auto_recover_secs := 300;
  l2_auto_recover_secs := 600;
  l3_auto_recover_secs := 0;
  default_restricted_reply := u "系統暫時限制回覆，請稍後再試。";
  default_halted_reply := u "服務已暫停。如需恢復請聯繫管理員。";
|}.

Definition SafetyWordsConfig_default : SafetyWordsConfig := {|
  stop := [u "!STOP"; u "!停止"; u "!緊急停止"];
  stop_all := [u "!STOP ALL"; u "!全部停止"];
  resume_words := [u "!RESUME"; u "!恢復"; u "!繼續"];
  status := [u "!STATUS"; u "!狀態"];
|}.

Definition DefensivePromptConfig_default : DefensivePromptConfig := {|
  dp_enabled := true;
  languages := [u "en"; u "zh-TW"];
|}.

Definition KillswitchConfig_default : KillswitchConfig := {|
  triggers := TriggersConfig_default;
  circuit_breaker := CircuitBreakerConfig_default;
  failsafe := FailsafeConfig_default;
  safety_words := SafetyWordsConfig_default;
  defensive_prompt := DefensivePromptConfig_default;
|}.

(** [SafetyWordsConfig::has_non_bang_prefix]. *)
Definition has_non_bang_prefix (c : SafetyWordsConfig) : bool :=
  existsb (λ w, negb (starts_with w (u "!")))
    (stop c ++ stop_all c ++ resume_words c ++ status c).

(** [KillswitchConfig::validate]: the warnings, in order, joined by [; ]. *)
Definition validate_warnings (c : KillswitchConfig) : list ustr :=
  let t := triggers c in
  let b := circuit_breaker c in
  let zero := f64_of_Z 0 in
  let one := f64_of_Z 1 in
  (if f64_ltb (error_rate_threshold t) zero || f64_gtb (error_rate_threshold t) one
   then [u "error_rate_threshold must be 0.0–1.0"] else [])
  ++ (if f64_ltb (similarity_threshold b) zero || f64_gtb (similarity_threshold b) one
      then [u "similarity_threshold must be 0.0–1.0"] else [])
  ++ (if (hard_window_secs b =? 0) || (hard_max_messages b =? 0)
      then [u "circuit_breaker.hard_window_secs and hard_max_messages must be > 0 (1 is used)"]
      else [])
  ++ (if f64_ltb (token_explosion_multiplier b) one
      then [u "token_explosion_multiplier must be >= 1.0"] else [])
  ++ (if is_empty (stop (safety_words c))
      then [u "safety_words.stop should have at least one entry"] else []).

Fixpoint join (sep : ustr) (l : list ustr) : ustr :=
  match l with
  | [] => []
  | [x] => x
  | x :: r => x ++ sep ++ join sep r
  end.

Definition validate (c : KillswitchConfig) : result unit ustr :=
  match validate_warnings c with
  | [] => Ok tt
  | ws => Err (join (u "; ") ws)
  end.

(** [KillswitchConfig::load] over the file's text ([None]: unreadable), with
    the TOML parser (a library) as a parameter.  The warnings are only
    logged. *)
Definition load (toml_from_str : ustr → option KillswitchConfig)
    (content : option ustr) : KillswitchConfig :=
  match content with
  | Some text =>
      match toml_from_str text with
      | Some config => config
      | None => KillswitchConfig_default
      end
  | None => KillswitchConfig_default
  end.

Example validate_default : validate KillswitchConfig_default = Ok tt.
Proof. vm_compute. reflexivity. Qed.
