(* ===== verification/Failsafe.v ===== *)
(** * Failsafe levels (crates/duduclaw-security/src/failsafe.rs)

    The five-level degradation state machine of a scope and the manager that
    keeps one state per scope.  A method that reads the clock takes the
    reading as an argument; methods run under the manager's write lock, so
    each is one atomic state transformer.  [Instant::now() + d] panics past
    the latest instant: a method that sets a timer has no answer then. *)

From S2P Require Import Prelude Float64 Platform Killswitch.

(** ** Levels *)

Inductive FailsafeLevel :=
| L0Normal
| L1Degraded
| L2Restricted
| L3Muted
| L4Halted.

#[export] Instance FailsafeLevel_eq_dec : EqDecision FailsafeLevel.
Proof. solve_decision. Defined.

(** The discriminants, which also give the derived [Ord]. *)
Definition rank (l : FailsafeLevel) : Z :=
  match l with
  | L0Normal => 0 | L1Degraded => 1 | L2Restricted => 2 | L3Muted => 3 | L4Halted => 4
  end.

Definition level_ltb (a b : FailsafeLevel) : bool := rank a <? rank b.

(** [std::cmp::max]: the second argument on a tie. *)
Definition level_max (a b : FailsafeLevel) : FailsafeLevel := if level_ltb b a then a else b.

Definition escalate_level (l : FailsafeLevel) : FailsafeLevel :=
  match l with
  | L0Normal => L1Degraded
  | L1Degraded => L2Restricted
  | L2Restricted => L3Muted
  | L3Muted => L4Halted
  | L4Halted => L4Halted
  end.

Definition deescalate_level (l : FailsafeLevel) : FailsafeLevel :=
  match l with
  | L0Normal => L0Normal
  | L1Degraded => L0Normal
  | L2Restricted => L1Degraded
  | L3Muted => L2Restricted
  | L4Halted => L3Muted
  end.

Definition label (l : FailsafeLevel) : ustr :=
  match l with
  | L0Normal => u "Normal"
  | L1Degraded => u "Degraded"
  | L2Restricted => u "Restricted"
  | L3Muted => u "Muted"
  | L4Halted => u "Halted"
  end.

Definition blocks_processing (l : FailsafeLevel) : bool :=
  match l with L3Muted | L4Halted => true | _ => false end.

Definition uses_canned_reply (l : FailsafeLevel) : bool :=
  match l with L2Restricted | L4Halted => true | _ => false end.

(** [Display]. *)
Definition show_level (l : FailsafeLevel) : ustr :=
  u "L" ++ show_Z (rank l) ++ u " (" ++ label l ++ u ")".

(** ** The manager *)

Record FailsafeState := {
  level : FailsafeLevel;
  since : Z;
  reason : ustr;
  auto_recover_at : option Z;
}.

Abbreviation states := (gmap ustr FailsafeState).

Section manager.
Context `{Platform} (config : FailsafeConfig).
Implicit Types (scope : ustr) (now : Z) (m : states).

Definition canned_reply (l : FailsafeLevel) : option ustr :=
  match l with
  | L2Restricted => Some (default_restricted_reply config)
  | L4Halted => Some (default_halted_reply config)
  | _ => None
  end.

Definition auto_recover_duration (l : FailsafeLevel) : option Z :=
  let s :=
    match l with
    | L1Degraded => l1_auto_recover_secs config
    | L2Restricted => l2_auto_recover_secs config
    | L3Muted => l3_auto_recover_secs config
    | _ => 0
    end in
  if 0 <? s then Some (secs s) else None.

(** [now]: the reading of the auto-recovery check. *)
Definition get_level now scope m : FailsafeLevel * states :=
  match m !! scope with
  | Some state =>
      match auto_recover_at state with
      | Some recover_at =>
          if recover_at <=? now then (L0Normal, delete scope m) else (level state, m)
      | None => (level state, m)
      end
  | None => (L0Normal, m)
  end.

Definition get_state now scope m : option FailsafeState * states :=
  match m !! scope with
  | Some state =>
      let current :=
        if bool_decide (level state = L0Normal) then (None, m) else (Some state, m) in
      match auto_recover_at state with
      | Some recover_at =>
          if recover_at <=? now then (None, delete scope m) else current
      | None => current
      end
  | None => (None, m)
  end.

(** [auto_recover.map(|d| Instant::now() + d)]. *)
Definition recover_at (t_recover : Z) (l : FailsafeLevel) : option (option Z) :=
  match auto_recover_duration l with
  | Some d => Some <$> instant_add t_recover d
  | None => Some None
  end.

(** The entry a level change writes: [t_since] and [t_recover] are its two
    clock readings. *)
Definition entry (t_since t_recover : Z) (l : FailsafeLevel) (r : ustr) : option FailsafeState :=
  timer ← recover_at t_recover l;
  Some {| level := l; since := t_since; reason := r; auto_recover_at := timer |}.

(** [FailsafeManager::escalate]: the stored level, whatever its timer says.
    A panic comes before the insertion: the map stays as it was. *)
Definition escalate (t_since t_recover : Z) scope (r : ustr) m : option (FailsafeLevel * states) :=
  let current := match m !! scope with Some s => level s | None => L0Normal end in
  let new_level := escalate_level current in
  e ← entry t_since t_recover new_level r;
  Some (new_level, <[scope := e]> m).

(** A panic here leaves the level and the time already lowered, and the old
    timer. *)
Definition deescalate (t_since t_recover : Z) scope m : option FailsafeLevel * states :=
  let current := match m !! scope with Some s => level s | None => L0Normal end in
  let new_level := deescalate_level current in
  if bool_decide (new_level = L0Normal) then (Some new_level, delete scope m)
  else
    match m !! scope with
    | Some s =>
        let lowered timer :=
          <[scope := {| level := new_level; since := t_since; reason := reason s;
                        auto_recover_at := timer |}]> m in
        match recover_at t_recover new_level with
        | Some timer => (Some new_level, lowered timer)
        | None => (None, lowered (auto_recover_at s))
        end
    | None => (Some new_level, m)
    end.

(** A panic leaves the map as it was. *)
Definition set_level (t_since t_recover : Z) scope (l : FailsafeLevel) (r : ustr) m
    : option states :=
  if bool_decide (l = L0Normal) then Some (delete scope m)
  else
    e ← entry t_since t_recover l r;
    Some (<[scope := e]> m).

Definition force_halt (t_since t_recover : Z) scope (r : ustr) m : option states :=
  set_level t_since t_recover scope L4Halted r m.

Definition resume (t_since t_recover : Z) scope m : option states :=
  set_level t_since t_recover scope L0Normal (u "manual resume") m.

(** [active_states]: the non-normal entries (the map iterates in an
    unspecified order). *)
Definition active_states m : list (ustr * FailsafeState) :=
  retain (λ p, negb (bool_decide (level p.2 = L0Normal))) (map_to_list m).
End manager.

(** [format_status] with its clock readings: the elapsed time and the
    remaining time of the timer. *)
Definition as_secs (d : Z) : Z := d / 1000000000.

Definition format_status (t_elapsed t_remaining : Z) (scope : ustr)
    (state : option FailsafeState) : ustr :=
  match state with
  | Some s =>
      let elapsed := duration_since t_elapsed (since s) in
      let auto_recover :=
        match auto_recover_at s with
        | Some at_ =>
            u ", auto-recover in " ++ show_Z (as_secs (duration_since at_ t_remaining)) ++ u "s"
        | None => []
        end in
      u "Scope: " ++ scope ++ [10%N] ++ u "Level: " ++ show_level (level s) ++ [10%N]
        ++ u "Since: " ++ show_Z (as_secs elapsed) ++ u "s ago" ++ [10%N]
        ++ u "Reason: " ++ reason s ++ auto_recover
  | None =>
      u "Scope: " ++ scope ++ [10%N] ++ u "Level: L0 (Normal)" ++ [10%N]
        ++ u "All systems operational."
  end.

(** ** Abstract view

    What a scope's level is at a time, with the expiry of timers applied
    eagerly.  The manager removes an expired entry lazily, on a read. *)
Definition expired_at (t : Z) (s : FailsafeState) : bool :=
  match auto_recover_at s with Some r => r <=? t | None => false end.

Definition level_at (m : states) (scope : ustr) (t : Z) : FailsafeLevel :=
  match m !! scope with
  | Some s => if expired_at t s then L0Normal else level s
  | None => L0Normal
  end.

(** Entries the manager itself writes: never [L0], and a halted scope has no
    timer. *)
Definition state_wf (s : FailsafeState) : Prop :=
  level s ≠ L0Normal ∧ (level s = L4Halted → auto_recover_at s = None).

Definition states_wf (m : states) : Prop := map_Forall (λ _, state_wf) m.

(** Every method that writes the map; one that panics leaves what it had
    written. *)
Inductive op :=
| GetLevel (now : Z) (scope : ustr)
| GetState (now : Z) (scope : ustr)
| Escalate (t1 t2 : Z) (scope r : ustr)
| Deescalate (t1 t2 : Z) (scope : ustr)
| SetLevel (t1 t2 : Z) (scope : ustr) (l : FailsafeLevel) (r : ustr).

Definition run_op `{Platform} (config : FailsafeConfig) (o : op) (m : states) : states :=
  match o with
  | GetLevel now scope => (get_level now scope m).2
  | GetState now scope => (get_state now scope m).2
  | Escalate t1 t2 scope r => from_option snd m (escalate config t1 t2 scope r m)
  | Deescalate t1 t2 scope => (deescalate config t1 t2 scope m).2
  | SetLevel t1 t2 scope l r => default m (set_level config t1 t2 scope l r m)
  end.

Definition run_ops `{Platform} (config : FailsafeConfig) (os : list op) (m : states) : states :=
  foldl (λ m o, run_op config o m) m os.

(** The operations that may lower a scope's level. *)
Definition releases (scope : ustr) (o : op) : Prop :=
  match o with
  | Deescalate _ _ s | SetLevel _ _ s _ _ => s = scope
  | _ => False
  end.

(** ** Component lemmas *)

Create HintDb failsafe.
Create Rewrite HintDb failsafe_levels.

Section lemmas.
Context `{Platform} (config : FailsafeConfig).
Implicit Types (m : states) (scope : ustr) (l : FailsafeLevel).

Lemma rank_escalate l : rank (escalate_level l) = Z.min 4 (rank l + 1).
Proof. by destruct l. Qed.

Lemma rank_deescalate l : rank (deescalate_level l) = Z.max 0 (rank l - 1).
Proof. by destruct l. Qed.

Lemma rank_inj l1 l2 : rank l1 = rank l2 → l1 = l2.
Proof. by destruct l1, l2. Qed.

Lemma rank_level_max a b : rank (level_max a b) = Z.max (rank a) (rank b).
Proof. by destruct a, b. Qed.

Lemma escalate_level_ne l : escalate_level l ≠ L0Normal.
Proof. by destruct l. Qed.

Lemma auto_recover_duration_pos l d : auto_recover_duration config l = Some d → 0 < d.
Proof.
  unfold auto_recover_duration, secs.
  destruct (_ <? _) eqn:E; reflect_bools; intros; simplify_eq; lia.
Qed.

Lemma recover_at_inv t l timer :
  recover_at config t l = Some timer →
  (l = L4Halted → timer = None) ∧ ∀ at_, timer = Some at_ → t < at_.
Proof.
  unfold recover_at. destruct (auto_recover_duration config l) as [d|] eqn:E.
  - intros Hr. apply fmap_Some in Hr as (at_ & Ha & ->). apply instant_add_inv in Ha as [-> _].
    split; [intros ->; simplify_eq/=|]. apply auto_recover_duration_pos in E.
    intros ? [= <-]. lia.
  - intros [= <-]. done.
Qed.

Lemma entry_inv t1 t2 l r e :
  entry config t1 t2 l r = Some e →
  level e = l ∧ since e = t1 ∧ reason e = r ∧ recover_at config t2 l = Some (auto_recover_at e).
Proof.
  unfold entry. intros He. apply bind_Some in He as (timer & Ht & He). by simplify_eq/=.
Qed.

Lemma entry_wf t1 t2 l r e : entry config t1 t2 l r = Some e → l ≠ L0Normal → state_wf e.
Proof.
  intros He Hl. apply entry_inv in He as (<- & _ & _ & Ht). split; [done|].
  apply recover_at_inv in Ht as [Ht _]. exact Ht.
Qed.

(** The longest timer the configuration sets. *)
Definition longest_timer : Z :=
  secs (Z.max (l1_auto_recover_secs config)
          (Z.max (l2_auto_recover_secs config) (l3_auto_recover_secs config))).

(** While a clock reading leaves room for the longest timer, no method
    panics; a halt and a resume never do. *)
Lemma recover_at_answers t l :
  t + longest_timer ≤ instant_max → is_Some (recover_at config t l).
Proof.
  intros Ht. unfold recover_at. destruct (auto_recover_duration config l) as [d|] eqn:E; [|by eexists].
  rewrite instant_add_Some; [by eexists|].
  unfold auto_recover_duration, longest_timer, secs in *.
  destruct l; simpl in E; try case_match; simplify_eq; lia.
Qed.

Lemma entry_answers t1 t2 l r :
  t2 + longest_timer ≤ instant_max → is_Some (entry config t1 t2 l r).
Proof.
  intros Ht. unfold entry. destruct (recover_at_answers t2 l Ht) as [timer ->]. by eexists.
Qed.

Lemma escalate_answers t1 t2 scope r m :
  t2 + longest_timer ≤ instant_max → is_Some (escalate config t1 t2 scope r m).
Proof.
  intros Ht. unfold escalate. destruct (entry_answers t1 t2 (escalate_level
    (match m !! scope with Some s => level s | None => L0Normal end)) r Ht) as [e ->]. by eexists.
Qed.

Lemma set_level_answers t1 t2 scope l r m :
  t2 + longest_timer ≤ instant_max → is_Some (set_level config t1 t2 scope l r m).
Proof.
  intros Ht. unfold set_level. destruct (bool_decide _); [by eexists|].
  destruct (entry_answers t1 t2 l r Ht) as [e ->]. by eexists.
Qed.

Definition halted (t : Z) (r : ustr) : FailsafeState :=
  {| level := L4Halted; since := t; reason := r; auto_recover_at := None |}.

Lemma force_halt_eq t1 t2 scope r m :
  force_halt config t1 t2 scope r m = Some (<[scope := halted t1 r]> m).
Proof. done. Qed.

Lemma resume_eq t1 t2 scope m : resume config t1 t2 scope m = Some (delete scope m).
Proof. done. Qed.

Lemma level_at_insert m scope t s :
  level_at (<[scope := s]> m) scope t = if expired_at t s then L0Normal else level s.
Proof. unfold level_at. by rewrite lookup_insert_eq. Qed.

Lemma level_at_insert_ne m scope scope' t s :
  scope ≠ scope' → level_at (<[scope := s]> m) scope' t = level_at m scope' t.
Proof. intros. unfold level_at. by rewrite lookup_insert_ne. Qed.

Lemma level_at_delete m scope t : level_at (delete scope m) scope t = L0Normal.
Proof. unfold level_at. by rewrite lookup_delete_eq. Qed.

Lemma level_at_delete_ne m scope scope' t :
  scope ≠ scope' → level_at (delete scope m) scope' t = level_at m scope' t.
Proof. intros. unfold level_at. by rewrite lookup_delete_ne. Qed.

Lemma expired_at_entry t t1 t2 l r e :
  entry config t1 t2 l r = Some e → t ≤ t2 → expired_at t e = false.
Proof.
  intros He Ht. apply entry_inv in He as (_ & _ & _ & Hr). apply recover_at_inv in Hr as [_ Hr].
  unfold expired_at. destruct (auto_recover_at e) as [at_|]; [|done].
  specialize (Hr _ eq_refl). apply Z.leb_gt. lia.
Qed.

Lemma expired_at_mono t t' s : t ≤ t' → expired_at t s = true → expired_at t' s = true.
Proof.
  unfold expired_at. destruct (auto_recover_at s); [|done].
  rewrite !Z.leb_le. lia.
Qed.

(** Dropping an expired entry is invisible from then on. *)
Lemma level_at_delete_expired m scope s now scope' t :
  m !! scope = Some s → expired_at now s = true → now ≤ t →
  level_at (delete scope m) scope' t = level_at m scope' t.
Proof.
  intros Hm Hs Ht. destruct (decide (scope = scope')) as [->|Hne].
  - rewrite level_at_delete. unfold level_at. rewrite Hm.
    by rewrite (expired_at_mono now t).
  - by apply level_at_delete_ne.
Qed.

Lemma get_level_spec now scope m :
  get_level now scope m =
    (level_at m scope now,
     match m !! scope with
     | Some s => if expired_at now s then delete scope m else m
     | None => m
     end).
Proof.
  unfold get_level, level_at, expired_at.
  destruct (m !! scope) as [s|]; [|done].
  destruct (auto_recover_at s); [|done]. by destruct (_ <=? _).
Qed.

Lemma level_at_get_level now scope scope' t m :
  now ≤ t → level_at (get_level now scope m).2 scope' t = level_at m scope' t.
Proof.
  intros Ht. rewrite get_level_spec. simpl.
  destruct (m !! scope) as [s|] eqn:Hm; [|done].
  destruct (expired_at now s) eqn:Hs; [|done].
  by eapply level_at_delete_expired.
Qed.

(** An entry that is written, at any time up to its writing. *)
Lemma level_at_set_level t t1 t2 scope l r m m' :
  set_level config t1 t2 scope l r m = Some m' → t ≤ t2 → l ≠ L0Normal →
  level_at m' scope t = l.
Proof.
  intros Hs Ht Hl. unfold set_level in Hs. rewrite bool_decide_eq_false_2 in Hs by done.
  apply bind_Some in Hs as (e & He & Hs). simplify_eq.
  rewrite level_at_insert, (expired_at_entry _ _ _ _ _ _ He) by done. by apply entry_inv in He as [-> _].
Qed.

Lemma level_at_set_level_ne t t1 t2 scope scope' l r m m' :
  set_level config t1 t2 scope l r m = Some m' → scope ≠ scope' →
  level_at m' scope' t = level_at m scope' t.
Proof.
  intros Hs Hne. unfold set_level in Hs.
  destruct (bool_decide _); [simplify_eq; by apply level_at_delete_ne|].
  apply bind_Some in Hs as (e & He & Hs). simplify_eq. by apply level_at_insert_ne.
Qed.

Lemma level_at_escalate_ne t t1 t2 scope scope' r m l m' :
  escalate config t1 t2 scope r m = Some (l, m') → scope ≠ scope' →
  level_at m' scope' t = level_at m scope' t.
Proof.
  intros Hs Hne. unfold escalate in Hs. apply bind_Some in Hs as (e & He & Hs). simplify_eq.
  by apply level_at_insert_ne.
Qed.

Lemma states_wf_insert m scope s : states_wf m → state_wf s → states_wf (<[scope := s]> m).
Proof. intros. by apply map_Forall_insert_2. Qed.

Lemma states_wf_delete m scope : states_wf m → states_wf (delete scope m).
Proof. intros. by apply map_Forall_delete. Qed.

End lemmas.

#[export] Hint Resolve states_wf_insert states_wf_delete escalate_level_ne : failsafe.
#[export] Hint Rewrite level_at_insert level_at_delete : failsafe_levels.

(** ** Properties *)

(** Reading a level through [get_level] returns the scope's
    level with timers applied at the time of the read, and removing the
    expired entry on the way changes no scope's level at that or any later
    time: the lazy auto-recovery implements the eager one. *)
Theorem get_level_refines (now : Z) (scope : ustr) (m : states) :
  (get_level now scope m).1 = level_at m scope now
  ∧ ∀ scope' t, now ≤ t →
      level_at (get_level now scope m).2 scope' t = level_at m scope' t.
Proof. split; [by rewrite get_level_spec|]. intros. by apply level_at_get_level. Qed.

Lemma run_op_wf `{Platform} config o m : states_wf m → states_wf (run_op config o m).
Proof.
  intros Hm. destruct o; simpl.
  - rewrite get_level_spec. simpl. destruct (m !! scope) as [s|]; [|done].
    destruct (expired_at now s); auto with failsafe.
  - unfold get_state. case_code; auto with failsafe.
  - unfold escalate. destruct (entry _ _ _ _ _) as [e|] eqn:E; simpl; [|done].
    apply states_wf_insert; [done|]. eapply entry_wf; [done|apply escalate_level_ne].
  - unfold deescalate. destruct (m !! scope) as [s|] eqn:Hs; simpl; [|by auto with failsafe].
    assert (deescalate_level (level s) ≠ L4Halted) as Hne by by destruct (level s).
    case_bool_decide as Hl; simpl; auto with failsafe.
    destruct (recover_at _ _ _); apply states_wf_insert; done.
  - unfold set_level. case_bool_decide as Hl; simpl; auto with failsafe.
    destruct (entry _ _ _ _ _) as [e|] eqn:E; simpl; [|done].
    apply states_wf_insert; [done|]. by eapply entry_wf.
Qed.

(** Starting from the empty manager, after any sequence of
    operations no stored entry is at L0 and no halted entry carries a timer. *)
Theorem run_ops_wf `{Platform} (config : FailsafeConfig) (os : list op) :
  states_wf (run_ops config os ∅).
Proof.
  unfold run_ops. assert (states_wf ∅) as Hw by apply map_Forall_empty.
  revert Hw. generalize (∅ : states).
  induction os as [|o os IH]; simpl; intros m Hm; [done|].
  apply IH. by apply run_op_wf.
Qed.

Lemma halted_kept_one `{Platform} config o m scope :
  (∀ t, level_at m scope t = L4Halted) → ¬ releases scope o →
  (∀ t, level_at (run_op config o m) scope t = L4Halted).
Proof.
  intros Hh Hr t. destruct o as [now s|now s|t1 t2 s r|t1 t2 s|t1 t2 s l r]; simpl in *.
  - destruct (get_level_refines now s m) as [_ _]. rewrite get_level_spec. simpl.
    destruct (m !! s) as [st|] eqn:Hs; [|done].
    destruct (expired_at now st) eqn:He; [|done].
    destruct (decide (s = scope)) as [->|Hne]; [|by rewrite level_at_delete_ne].
    specialize (Hh now). unfold level_at in Hh. by rewrite Hs, He in Hh.
  - assert ((get_state now s m).2 = (get_level now s m).2) as ->.
    { unfold get_state, get_level. by case_code. }
    rewrite get_level_spec. simpl. destruct (m !! s) as [st|] eqn:Hs; [|done].
    destruct (expired_at now st) eqn:He; [|done].
    destruct (decide (s = scope)) as [->|Hne]; [|by rewrite level_at_delete_ne].
    specialize (Hh now). unfold level_at in Hh. by rewrite Hs, He in Hh.
  - unfold escalate. destruct (entry _ _ _ _ _) as [e|] eqn:E; simpl; [|done].
    destruct (decide (s = scope)) as [->|Hne]; [|by rewrite level_at_insert_ne].
    specialize (Hh t). rewrite level_at_insert. unfold level_at in Hh.
    destruct (m !! scope) as [st|]; [|done].
    destruct (expired_at t st); [done|]. rewrite Hh in E.
    injection E as <-. done.
  - unfold deescalate. destruct (m !! s); case_code; rewrite ?level_at_delete_ne,
      ?level_at_insert_ne; auto.
  - destruct (set_level _ _ _ _ _ _ _) as [m'|] eqn:E; simpl; [|done].
    rewrite (level_at_set_level_ne _ t _ _ _ _ _ _ _ _ E); auto.
Qed.

(** A halted scope stays halted at every time, whatever
    operations run on the manager (reads, escalations, operations on other
    scopes), until a resume, a level change or a de-escalation of that scope
    itself; in particular no timer ever lifts a halt. *)
Theorem halted_until_released `{Platform} (config : FailsafeConfig) (t1 t2 : Z) (scope r : ustr)
    (os : list op) (m : states) :
  Forall (λ o, ¬ releases scope o) os →
  ∃ m', force_halt config t1 t2 scope r m = Some m'
  ∧ ∀ t, level_at (run_ops config os m') scope t = L4Halted.
Proof.
  intros Hos. rewrite force_halt_eq. eexists. split; [done|].
  assert (∀ t, level_at (<[scope := halted t1 r]> m) scope t = L4Halted) as Hh.
  { intros t. by rewrite level_at_insert. }
  revert Hh. generalize (<[scope := halted t1 r]> m).
  unfold run_ops. induction Hos as [|o os Ho _ IH]; simpl; intros m' Hm'; [done|].
  apply IH. by apply halted_kept_one.
Qed.

Definition cfg := FailsafeConfig_default.
#[local] Existing Instance colliding_platform.

Lemma halted_until_released_witness :
  ∃ m', force_halt cfg 0 0 (u "s") (u "stop") ∅ = Some m'
  ∧ ∀ t, level_at
    (run_ops cfg [GetLevel 5 (u "s"); Escalate 6 6 (u "s") (u "x"); Deescalate 7 7 (u "t")] m')
    (u "s") t = L4Halted.
Proof.
  apply (halted_until_released cfg 0 0 (u "s") (u "stop")
    [GetLevel 5 (u "s"); Escalate 6 6 (u "s") (u "x"); Deescalate 7 7 (u "t")] ∅).
  forall_by_eval.
Defined.

Fixpoint escalate_n `{Platform} (config : FailsafeConfig) (n : nat) (t : Z) (scope r : ustr)
    (m : states) : option states :=
  match n with
  | O => Some m
  | S n =>
      '(_, m1) ← escalate config t t scope r m;
      escalate_n config n t scope r m1
  end.

Definition unexpired (m : states) (scope : ustr) (t : Z) : Prop :=
  match m !! scope with Some s => expired_at t s = false | None => True end.

Lemma escalate_one `{Platform} config t scope r m l m' :
  escalate config t t scope r m = Some (l, m') → unexpired m scope t →
  rank (level_at m' scope t) = Z.min 4 (rank (level_at m scope t) + 1)
  ∧ unexpired m' scope t.
Proof.
  unfold unexpired, escalate, level_at. intros He. apply bind_Some in He as (e & He & Hm').
  simplify_eq. rewrite !lookup_insert_eq.
  rewrite (expired_at_entry _ _ _ _ _ _ _ He) by lia. apply entry_inv in He as [-> _].
  intros Hu. split; [|done].
  rewrite rank_escalate. destruct (m !! scope) as [s|]; [by rewrite Hu|done].
Qed.

(** [n] escalations of a scope with no expired timer, at a time that leaves
    room for the timers, raise it by exactly [n] steps, saturating at L4
    Halted, and leave every other scope's level alone. *)
Theorem escalate_n_saturates `{Platform} (config : FailsafeConfig) (n : nat) (t : Z) (scope r : ustr)
    (m : states) :
  unexpired m scope t → t + longest_timer config ≤ instant_max →
  ∃ m', escalate_n config n t scope r m = Some m'
  ∧ rank (level_at m' scope t) = Z.min 4 (rank (level_at m scope t) + Z.of_nat n)
  ∧ ∀ scope' t', scope ≠ scope' → level_at m' scope' t' = level_at m scope' t'.
Proof.
  intros Hm Ht. revert m Hm. induction n as [|n IH]; intros m Hm.
  - exists m. split_and!; [done| |done]. destruct (level_at m scope t); simpl; lia.
  - cbn [escalate_n]. destruct (escalate_answers config t t scope r m Ht) as [[l m1] E].
    rewrite E. simpl. destruct (escalate_one config t scope r m _ _ E Hm) as [Hl1 Hu1].
    destruct (IH _ Hu1) as (m' & -> & Hl & Hf). exists m'. split_and!; [done|rewrite Hl, Hl1; lia|].
    intros scope' t' Hne. rewrite Hf by done. by eapply level_at_escalate_ne.
Qed.

Lemma escalate_n_saturates_witness :
  ∃ m', escalate_n cfg 7 3 (u "s") (u "r") ∅ = Some m' ∧ level_at m' (u "s") 3 = L4Halted.
Proof.
  assert (unexpired ∅ (u "s") 3) as H0 by (vm_compute; exact I).
  destruct (escalate_n_saturates cfg 7 3 (u "s") (u "r") ∅ H0) as (m' & E & Hl & _);
    [apply Z.leb_le; vm_compute; reflexivity|].
  exists m'. split; [done|]. apply rank_inj. rewrite Hl. vm_compute. reflexivity.
Defined.

(** The stored level that [escalate] starts from is the one the timer has
    already lifted: after an L2 restriction expired unread, one escalation
    of the scope, whose level is L0, gives L3 Muted. *)
Theorem escalate_ignores_expiry (t : Z) (scope r : ustr) :
  secs 600 ≤ t → t + longest_timer cfg ≤ instant_max →
  ∃ m m', set_level cfg 0 0 scope L2Restricted r ∅ = Some m
  ∧ level_at m scope t = L0Normal ∧ escalate cfg t t scope r m = Some (L3Muted, m').
Proof.
  intros Ht Hmax. eexists.
  destruct (escalate_answers cfg t t scope r (<[scope := {| level := L2Restricted; since := 0;
    reason := r; auto_recover_at := Some (secs 600) |}]> ∅) Hmax) as [[l m'] E].
  exists m'. split; [done|]. rewrite level_at_insert. split.
  - unfold expired_at. simpl. destruct (_ <=? _) eqn:E'; [done|]. reflect_bools.
    unfold secs in *. lia.
  - unfold escalate in *. rewrite lookup_insert_eq in E |- *. simpl in E |- *.
    by simplify_eq.
Qed.

(** [get_state] and [get_level] agree: on a well-formed manager the status
    shows an entry exactly when the level is not normal, and shows that
    level. *)
Lemma get_state_level now scope m :
  states_wf m →
  (get_state now scope m).2 = (get_level now scope m).2
  ∧ match (get_state now scope m).1 with
    | Some s => level s = level_at m scope now ∧ level s ≠ L0Normal
    | None => level_at m scope now = L0Normal
    end.
Proof.
  intros Hm. unfold get_state, get_level, level_at, expired_at.
  destruct (m !! scope) as [s|] eqn:Hs; [|done].
  destruct (Hm _ _ Hs) as [Hl _]. rewrite (bool_decide_eq_false_2 _ Hl).
  destruct (auto_recover_at s); [|done]. by destruct (_ <=? _).
Qed.
