(* ===== verification/CircuitBreaker.v ===== *)
(** * The reply circuit breaker (crates/duduclaw-security/src/circuit_breaker.rs)

    One breaker per conversation: echo, repetition and frequency detection
    over sliding windows, a three-state machine, and the registry of breakers.
    Clock readings are arguments, in the order the code takes them: [now] at
    the start of a check and [t_trip] inside [trip].  An answer [None] is a
    panic ([Instant + Duration] past the latest instant); the breaker beside
    it is what the panic leaves behind. *)

From S2P Require Import Prelude Float64 Killswitch Platform.

(** ** Data *)

Inductive BreakerState := Closed | HalfOpen | Open.

#[export] Instance BreakerState_eq_dec : EqDecision BreakerState.
Proof. solve_decision. Defined.

Inductive TripReason :=
| FrequencyAnomaly (count window_secs : Z)
| ContentRepetition (similarity : ustr)
| TokenExplosion (current average : Z)
| EchoDetected.

Definition show_trip_reason (r : TripReason) : ustr :=
  match r with
  | FrequencyAnomaly count window_secs =>
      u "frequency anomaly: " ++ show_Z count ++ u " replies in " ++ show_Z window_secs ++ u "s"
  | ContentRepetition similarity =>
      u "content repetition (similarity: " ++ similarity ++ u ")"
  | TokenExplosion current average =>
      u "token explosion: " ++ show_Z current ++ u " tokens vs " ++ show_Z average ++ u " avg"
  | EchoDetected => u "echo detected (bot loop)"
  end.

Inductive SenderKind := Person | Bot.

#[export] Instance SenderKind_eq_dec : EqDecision SenderKind.
Proof. solve_decision. Defined.

Inductive BreakerDecision :=
| Allow
| Throttle
| Wait (d : Z)
| Deny (s : BreakerState)
| Trip (r : TripReason).

Definition HARD_HISTORY_CAP : nat := Z.to_nat 1024.
Definition REPETITION_MIN_CHARS : nat := 20.

(** ** Similarity *)

(** The bucket of each adjacent byte pair ([windows(2)]). *)
Fixpoint bigram_buckets (bs : list N) : list N :=
  match bs with
  | x :: (y :: _) as r => N.land (N.lxor x y) 255 :: bigram_buckets r
  | _ => []
  end.

Definition in_bucket (buckets : list N) (i : nat) : bool :=
  existsb (N.eqb (N.of_nat i)) buckets.

(** How many of the 256 buckets satisfy [f]. *)
Definition count_buckets (f : nat → bool) : Z := Z.of_nat (length (retain f (seq 0 256))).

Definition jaccard_similarity (a b : ustr) : f64 :=
  if is_empty a && is_empty b then f64_of_Z 1
  else if is_empty a || is_empty b then f64_of_Z 0
  else
    let a_bytes := utf8_encode a in
    let b_bytes := utf8_encode b in
    if (length a_bytes <? 2)%nat || (length b_bytes <? 2)%nat then
      (if ustr_eqb a b then f64_of_Z 1 else f64_of_Z 0)
    else
      let a_set := in_bucket (bigram_buckets a_bytes) in
      let b_set := in_bucket (bigram_buckets b_bytes) in
      let union := count_buckets (λ i, a_set i || b_set i) in
      let intersection := count_buckets (λ i, a_set i && b_set i) in
      if union =? 0 then f64_of_Z 0
      else f64_div (f64_of_Z intersection) (f64_of_Z union).

(** ** One breaker *)

Record CircuitBreaker := {
  state : BreakerState;
  inbound_timestamps : list Z;
  hard_timestamps : list Z;
  last_refusal_notice : option Z;
  recent_inbound_hashes : list Z;
  recent_inbound_texts : list ustr;
  recent_token_counts : list Z;
  last_outbound_hash : option Z;
  last_outbound_prefix : option ustr;
  tripped_at : option Z;
  trip_reason : option TripReason;
  half_open_passes : Z;
}.

(** [CircuitBreaker::new]. *)
Definition new : CircuitBreaker := {|
  state := Closed;
  inbound_timestamps := [];
  hard_timestamps := [];
  last_refusal_notice := None;
  recent_inbound_hashes := [];
  recent_inbound_texts := [];
  recent_token_counts := [];
  last_outbound_hash := None;
  last_outbound_prefix := None;
  tripped_at := None;
  trip_reason := None;
  half_open_passes := 0;
|}.

Section breaker.
Context `{Platform} (config : CircuitBreakerConfig).
Implicit Types (b : CircuitBreaker) (text : ustr) (now : Z).

(** [trip]: its own clock reading. *)
Definition trip (t_trip : Z) (reason : TripReason) b : CircuitBreaker := {|
  state := Open;
  inbound_timestamps := inbound_timestamps b;
  hard_timestamps := hard_timestamps b;
  last_refusal_notice := last_refusal_notice b;
  recent_inbound_hashes := recent_inbound_hashes b;
  recent_inbound_texts := recent_inbound_texts b;
  recent_token_counts := recent_token_counts b;
  last_outbound_hash := last_outbound_hash b;
  last_outbound_prefix := last_outbound_prefix b;
  tripped_at := Some t_trip;
  trip_reason := Some reason;
  half_open_passes := half_open_passes b;
|}.

Definition reset b : CircuitBreaker := {|
  state := Closed;
  inbound_timestamps := [];
  hard_timestamps := [];
  last_refusal_notice := last_refusal_notice b;
  recent_inbound_hashes := [];
  recent_inbound_texts := [];
  recent_token_counts := recent_token_counts b;
  last_outbound_hash := last_outbound_hash b;
  last_outbound_prefix := last_outbound_prefix b;
  tripped_at := None;
  trip_reason := None;
  half_open_passes := 0;
|}.

Definition record_inbound_internal text now b : CircuitBreaker := {|
  state := state b;
  inbound_timestamps := push_capped 64 (inbound_timestamps b) now;
  hard_timestamps := push_capped HARD_HISTORY_CAP (hard_timestamps b) now;
  last_refusal_notice := last_refusal_notice b;
  recent_inbound_hashes := push_capped 8 (recent_inbound_hashes b) (text_hash text);
  recent_inbound_texts := push_capped 4 (recent_inbound_texts b) text;
  recent_token_counts := recent_token_counts b;
  last_outbound_hash := last_outbound_hash b;
  last_outbound_prefix := last_outbound_prefix b;
  tripped_at := tripped_at b;
  trip_reason := trip_reason b;
  half_open_passes := half_open_passes b;
|}.

(** Field updates of the pruned windows and of the probing state. *)
Definition with_inbound (ts : list Z) b : CircuitBreaker := {|
  state := state b;
  inbound_timestamps := ts;
  hard_timestamps := hard_timestamps b;
  last_refusal_notice := last_refusal_notice b;
  recent_inbound_hashes := recent_inbound_hashes b;
  recent_inbound_texts := recent_inbound_texts b;
  recent_token_counts := recent_token_counts b;
  last_outbound_hash := last_outbound_hash b;
  last_outbound_prefix := last_outbound_prefix b;
  tripped_at := tripped_at b;
  trip_reason := trip_reason b;
  half_open_passes := half_open_passes b;
|}.

Definition with_hard (ts : list Z) b : CircuitBreaker := {|
  state := state b;
  inbound_timestamps := inbound_timestamps b;
  hard_timestamps := ts;
  last_refusal_notice := last_refusal_notice b;
  recent_inbound_hashes := recent_inbound_hashes b;
  recent_inbound_texts := recent_inbound_texts b;
  recent_token_counts := recent_token_counts b;
  last_outbound_hash := last_outbound_hash b;
  last_outbound_prefix := last_outbound_prefix b;
  tripped_at := tripped_at b;
  trip_reason := trip_reason b;
  half_open_passes := half_open_passes b;
|}.

Definition with_probing (s : BreakerState) (passes : Z) b : CircuitBreaker := {|
  state := s;
  inbound_timestamps := inbound_timestamps b;
  hard_timestamps := hard_timestamps b;
  last_refusal_notice := last_refusal_notice b;
  recent_inbound_hashes := recent_inbound_hashes b;
  recent_inbound_texts := recent_inbound_texts b;
  recent_token_counts := recent_token_counts b;
  last_outbound_hash := last_outbound_hash b;
  last_outbound_prefix := last_outbound_prefix b;
  tripped_at := tripped_at b;
  trip_reason := trip_reason b;
  half_open_passes := passes;
|}.

Definition sum_Z (l : list Z) : Z := foldr Z.add 0 l.

(** [token_explosion]. *)
Definition token_explosion b : option TripReason :=
  let counts := recent_token_counts b in
  if (length counts <? 5)%nat then None
  else
    let avg := sum_Z counts / Z.of_nat (length counts) in
    match list.last counts with
    | Some last =>
        if (0 <? avg)
           && f64_gtb (f64_of_Z last) (f64_mul (f64_of_Z avg) (token_explosion_multiplier config))
        then Some (TokenExplosion last avg) else None
    | None => None
    end.

Definition record_outbound text (token_count : Z) b : option TripReason * CircuitBreaker :=
  let b' := {|
    state := state b;
    inbound_timestamps := inbound_timestamps b;
    hard_timestamps := hard_timestamps b;
    last_refusal_notice := last_refusal_notice b;
    recent_inbound_hashes := recent_inbound_hashes b;
    recent_inbound_texts := recent_inbound_texts b;
    recent_token_counts := push_capped 32 (recent_token_counts b) token_count;
    last_outbound_hash := Some (text_hash text);
    last_outbound_prefix := Some (take 200 text);
    tripped_at := tripped_at b;
    trip_reason := trip_reason b;
    half_open_passes := half_open_passes b;
  |} in
  (token_explosion b', b').

(** The echo test of both the probing and the closed phase: equal hash, text
    not empty, and equal 200-character prefix. *)
Definition is_echo text b : bool :=
  match last_outbound_hash b with
  | Some outbound_hash =>
      (text_hash text =? outbound_hash) && negb (is_empty text)
      && match last_outbound_prefix b with
         | Some p => ustr_eqb p (take 200 text)
         | None => false
         end
  | None => false
  end.

Definition frequency_limit : nat := Z.to_nat (Z.max (frequency_max_replies config) 1).
Definition hard_limit : nat := Z.to_nat (Z.max (hard_max_messages config) 1).
Definition hard_window : Z := secs (Z.max (hard_window_secs config) 1).

(** [frequency_wait]: prunes the window, then the wait if it has no room; no
    answer when [oldest + window] panics. *)
Definition frequency_wait now b : option (option Z) * CircuitBreaker :=
  let window := secs (frequency_window_secs config) in
  let cutoff := checked_sub now window in
  let ts := retain (after_cutoff cutoff) (inbound_timestamps b) in
  let b' := with_inbound ts b in
  if (length ts <? frequency_limit)%nat then (Some None, b')
  else
    match ts !! (length ts - frequency_limit)%nat with
    | Some oldest =>
        match instant_add oldest window with
        | Some room_at => (Some (Some (Z.max (duration_since room_at now) (millis 10))), b')
        | None => (None, b')
        end
    | None => (None, b')
    end.

(** [hard_limit_reached]. *)
Definition hard_limit_reached now b : option TripReason * CircuitBreaker :=
  let cutoff := checked_sub now hard_window in
  let ts := retain (after_cutoff cutoff) (hard_timestamps b) in
  let b' := with_hard ts b in
  if (hard_limit <=? length ts)%nat then
    (Some (FrequencyAnomaly (Z.of_nat (length ts) + 1) (Z.max (hard_window_secs config) 1)), b')
  else (None, b').

(** [record_refused]. *)
Definition record_refused text now b : bool * CircuitBreaker :=
  let b1 := record_inbound_internal text now b in
  let notify :=
    match last_refusal_notice b1 with
    | Some t => hard_window <=? duration_since now t
    | None => true
    end in
  (notify, {|
    state := state b1;
    inbound_timestamps := inbound_timestamps b1;
    hard_timestamps := hard_timestamps b1;
    last_refusal_notice := if notify then Some now else last_refusal_notice b1;
    recent_inbound_hashes := recent_inbound_hashes b1;
    recent_inbound_texts := recent_inbound_texts b1;
    recent_token_counts := recent_token_counts b1;
    last_outbound_hash := last_outbound_hash b1;
    last_outbound_prefix := last_outbound_prefix b1;
    tripped_at := tripped_at b1;
    trip_reason := trip_reason b1;
    half_open_passes := half_open_passes b1;
  |}).

(** ** Check 3: content repetition *)

Definition repetition_candidate (t : ustr) : bool :=
  (REPETITION_MIN_CHARS <=? length (trim t))%nat.

Definition similarity (x y : ustr) : f64 :=
  if f64_geb (similarity_threshold config) (f64_of_Z 1)
  then (if ustr_eqb x y then f64_of_Z 1 else f64_of_Z 0)
  else jaccard_similarity x y.

Definition content_repetition (texts : list ustr) : option TripReason :=
  match rev texts with
  | t1 :: t2 :: t3 :: _ =>
      if repetition_candidate t1 && repetition_candidate t2 && repetition_candidate t3 then
        let sim_1_2 := similarity t1 t2 in
        let sim_2_3 := similarity t2 t3 in
        if f64_geb sim_1_2 (similarity_threshold config)
           && f64_geb sim_2_3 (similarity_threshold config)
        then Some (ContentRepetition (fmt_2 sim_1_2 ++ u "/" ++ fmt_2 sim_2_3))
        else None
      else None
  | _ => None
  end.

(** ** The check *)

(** The closed phase: checks 1, 2a, 2b, the recording, and check 3. *)
Definition check_closed text (sender : SenderKind) now (t_trip : Z) b
    : option BreakerDecision * CircuitBreaker :=
  if is_echo text b then (Some (Trip EchoDetected), trip t_trip EchoDetected b)
  else
    let '(hard, b1) := hard_limit_reached now b in
    match hard with
    | Some reason => (Some (Trip reason), trip t_trip reason b1)
    | None =>
        let '(wait, b2) := frequency_wait now b1 in
        match wait with
        | None => (None, b2)
        | Some (Some w) =>
            match sender with
            | Bot =>
                let reason :=
                  FrequencyAnomaly (Z.of_nat (length (inbound_timestamps b2)) + 1)
                    (frequency_window_secs config) in
                (Some (Trip reason), trip t_trip reason b2)
            | Person => (Some (Wait w), b2)
            end
        | Some None =>
            let b3 := record_inbound_internal text now b2 in
            match content_repetition (recent_inbound_texts b3) with
            | Some reason => (Some (Trip reason), trip t_trip reason b3)
            | None => (Some Allow, b3)
            end
        end
    end.

(** The probing phase. *)
Definition check_half_open text (sender : SenderKind) now (t_trip : Z) b
    : option BreakerDecision * CircuitBreaker :=
  if is_echo text b then (Some (Trip EchoDetected), trip t_trip EchoDetected b)
  else if half_open_allow_count config <=? half_open_passes b then
    check_closed text sender now t_trip (reset b)
  else
    (Some Throttle, record_inbound_internal text now (with_probing HalfOpen (half_open_passes b + 1) b)).

(** [check_inbound_as]. *)
Definition check_inbound_as text (sender : SenderKind) now (t_trip : Z) b
    : option BreakerDecision * CircuitBreaker :=
  match state b with
  | Open =>
      match tripped_at b with
      | Some tripped =>
          if secs (cooldown_secs config) <=? duration_since now tripped
          then check_half_open text sender now t_trip (with_probing HalfOpen 0 b)
          else (Some (Deny Open), b)
      | None => (Some (Deny Open), b)
      end
  | HalfOpen => check_half_open text sender now t_trip b
  | Closed => check_closed text sender now t_trip b
  end.

(** [check_inbound]. *)
Definition check_inbound text now (t_trip : Z) b : option BreakerDecision * CircuitBreaker :=
  check_inbound_as text Person now t_trip b.
End breaker.

(** ** The registry: one breaker per scope, created on first use *)

Abbreviation breakers := (gmap ustr CircuitBreaker).

Section registry.
Context `{Platform} (config : CircuitBreakerConfig).
Implicit Types (scope text : ustr) (now : Z) (m : breakers).

Definition get_or_new scope m : CircuitBreaker :=
  match m !! scope with Some b => b | None => new end.

Definition registry_check_inbound_as scope text (sender : SenderKind) now (t_trip : Z) m
    : option BreakerDecision * breakers :=
  let '(d, b) := check_inbound_as config text sender now t_trip (get_or_new scope m) in
  (d, <[scope := b]> m).

Definition registry_check_inbound scope text now (t_trip : Z) m
    : option BreakerDecision * breakers :=
  registry_check_inbound_as scope text Person now t_trip m.

Definition registry_record_refused scope text now m : bool * breakers :=
  let '(notify, b) := record_refused config text now (get_or_new scope m) in
  (notify, <[scope := b]> m).

Definition registry_record_outbound scope text (token_count : Z) m
    : option TripReason * breakers :=
  match m !! scope with
  | Some b =>
      let '(reason, b') := record_outbound config text token_count b in
      (reason, <[scope := b']> m)
  | None => (None, m)
  end.

Definition registry_reset scope m : breakers :=
  match m !! scope with
  | Some b => <[scope := reset b]> m
  | None => m
  end.

Definition registry_state scope m : BreakerState :=
  match m !! scope with Some b => state b | None => Closed end.

Definition registry_trip_reason scope m : option TripReason :=
  match m !! scope with Some b => trip_reason b | None => None end.

(** [evict_stale]: keeps the breakers that are not closed or saw a message
    after the cutoff. *)
Definition keep_breaker (cutoff : Z) (b : CircuitBreaker) : bool :=
  negb (bool_decide (state b = Closed))
  || match list.last (inbound_timestamps b) with Some t => cutoff <? t | None => false end.

Definition evict_stale now (max_age : Z) m : option breakers :=
  cutoff ← instant_sub now max_age;
  Some (base.filter (λ p : ustr * CircuitBreaker, keep_breaker cutoff p.2 = true) m).
End registry.

(** ** The breaker invariant

    At time [now]: bounded histories, timestamps sorted and between the
    earliest instant and [now], an open breaker knows when it tripped, and
    the probes are within the allowance. *)
Definition timestamps_wf `{Platform} (now : Z) (ts : list Z) : Prop :=
  StronglySorted Z.le ts ∧ Forall (λ t, instant_min ≤ t ≤ now) ts.

Record breaker_wf `{Platform} (config : CircuitBreakerConfig) (now : Z) (b : CircuitBreaker)
    : Prop := {
  wf_inbound : timestamps_wf now (inbound_timestamps b);
  wf_hard : timestamps_wf now (hard_timestamps b);
  wf_inbound_cap : (length (inbound_timestamps b) ≤ 64)%nat;
  wf_hard_cap : (length (hard_timestamps b) ≤ HARD_HISTORY_CAP)%nat;
  wf_hashes_cap : (length (recent_inbound_hashes b) ≤ 8)%nat;
  wf_texts_cap : (length (recent_inbound_texts b) ≤ 4)%nat;
  wf_tokens_cap : (length (recent_token_counts b) ≤ 32)%nat;
  wf_open : state b = Open → ∃ t, tripped_at b = Some t ∧ t ≤ now;
  wf_probes : 0 ≤ half_open_passes b ≤ Z.max 0 (half_open_allow_count config);
}.

Create HintDb breaker.

Section timestamp_lemmas.
Context `{Platform}.
Implicit Types (ts : list Z) (now : Z).

Lemma timestamps_wf_nil now : timestamps_wf now [].
Proof. split; constructor. Qed.

Lemma timestamps_wf_mono now now' ts :
  now ≤ now' → timestamps_wf now ts → timestamps_wf now' ts.
Proof.
  intros Hle [Hs Hb]. split; [done|]. eapply Forall_impl; [|exact Hb].
  simpl. lia.
Qed.

Lemma timestamps_wf_retain now f ts : timestamps_wf now ts → timestamps_wf now (retain f ts).
Proof. intros [Hs Hb]. split; auto with queues. Qed.

Lemma timestamps_wf_push now now' cap ts :
  instant_min ≤ now' → now ≤ now' → timestamps_wf now ts →
  timestamps_wf now' (push_capped cap ts now').
Proof.
  intros Hmin Hle Hts. destruct (timestamps_wf_mono now now' ts Hle Hts) as [Hs Hb].
  split; [apply StronglySorted_push_capped; [done|]|apply Forall_push_capped; [done|lia]].
  eapply Forall_impl; [|exact Hb]. simpl. lia.
Qed.
End timestamp_lemmas.

#[export] Hint Resolve timestamps_wf_nil timestamps_wf_retain : breaker.

Section wf_lemmas.
Context `{Platform} (config : CircuitBreakerConfig).
Implicit Types (b : CircuitBreaker) (text : ustr) (now : Z).
Local Abbreviation wf := (breaker_wf config).

Lemma new_wf now : wf now new.
Proof. split; simpl; auto using timestamps_wf_nil with lia. done. Qed.

Lemma wf_mono now now' b : now ≤ now' → wf now b → wf now' b.
Proof.
  intros Hle []. split; eauto using timestamps_wf_mono.
  intros Ho. destruct (wf_open0 Ho) as (t & ? & ?). exists t. split; [done|lia].
Qed.

Lemma trip_wf now t_trip reason b : now ≤ t_trip → wf now b → wf t_trip (trip t_trip reason b).
Proof.
  intros Hle Hb. destruct (wf_mono now t_trip b Hle Hb). split; simpl; auto.
  intros _. exists t_trip. split; [done|lia].
Qed.

Lemma reset_wf now b : wf now b → wf now (reset b).
Proof. intros []. split; simpl; auto using timestamps_wf_nil with lia. done. Qed.

Lemma record_inbound_wf text now now' b :
  instant_min ≤ now' → now ≤ now' → wf now b → wf now' (record_inbound_internal text now' b).
Proof.
  intros Hmin Hle [].
  split; simpl; eauto using timestamps_wf_push, length_push_capped.
  intros Ho. destruct (wf_open0 Ho) as (t & ? & ?). exists t. split; [done|lia].
Qed.

Lemma with_probing_wf now s p b :
  s ≠ Open → 0 ≤ p ≤ Z.max 0 (half_open_allow_count config) → wf now b →
  wf now (with_probing s p b).
Proof. intros Hs Hp []. split; simpl; auto. done. Qed.

Lemma frequency_wait_wf now b : wf now b → wf now (frequency_wait config now b).2.
Proof.
  intros [].
  assert (∀ f, wf now (with_inbound (retain f (inbound_timestamps b)) b)) as Hw.
  { intros f. split; simpl; auto with breaker.
    pose proof (length_retain f (inbound_timestamps b)). lia. }
  unfold frequency_wait. case_code; apply Hw.
Qed.

Lemma hard_limit_wf now b : wf now b → wf now (hard_limit_reached config now b).2.
Proof.
  intros [].
  assert (∀ f, wf now (with_hard (retain f (hard_timestamps b)) b)) as Hw.
  { intros f. split; simpl; auto with breaker.
    pose proof (length_retain f (hard_timestamps b)). lia. }
  unfold hard_limit_reached. case_code; apply Hw.
Qed.

Lemma check_closed_wf text sender now t_trip b :
  instant_min ≤ now → now ≤ t_trip → wf now b →
  wf t_trip (check_closed config text sender now t_trip b).2.
Proof.
  intros Hmin Hle Hb. unfold check_closed.
  destruct (is_echo text b); [by apply trip_wf with now|].
  destruct (hard_limit_reached config now b) as [hard b1] eqn:E1.
  assert (wf now b1) as Hb1 by (by pose proof (hard_limit_wf now b Hb); rewrite E1 in *).
  destruct hard as [r|]; [by apply trip_wf with now|].
  destruct (frequency_wait config now b1) as [wait b2] eqn:E2.
  assert (wf now b2) as Hb2 by (by pose proof (frequency_wait_wf now b1 Hb1); rewrite E2 in *).
  destruct wait as [[w|]|].
  - destruct sender; simpl; [by apply wf_mono with now|by apply trip_wf with now].
  - pose proof (record_inbound_wf text now now b2 Hmin (Z.le_refl _) Hb2) as Hb3.
    destruct (content_repetition _ _); simpl;
      [by apply trip_wf with now|by apply wf_mono with now].
  - by apply wf_mono with now.
Qed.

Lemma check_half_open_wf text sender now t_trip b :
  instant_min ≤ now → now ≤ t_trip → wf now b →
  wf t_trip (check_half_open config text sender now t_trip b).2.
Proof.
  intros Hmin Hle Hb. unfold check_half_open.
  destruct (is_echo text b); [by apply trip_wf with now|].
  destruct (_ <=? _) eqn:E; reflect_bools.
  - by apply check_closed_wf; [..|apply reset_wf].
  - simpl. apply wf_mono with now; [done|]. apply record_inbound_wf with now; try lia.
    apply with_probing_wf; [done|destruct Hb; lia|done].
Qed.

Lemma check_inbound_wf text sender now t_trip b :
  instant_min ≤ now → now ≤ t_trip → wf now b →
  wf t_trip (check_inbound_as config text sender now t_trip b).2.
Proof.
  intros Hmin Hle Hb. unfold check_inbound_as.
  destruct (state b) eqn:Hs.
  - by apply check_closed_wf.
  - by apply check_half_open_wf.
  - destruct (tripped_at b); [destruct (_ <=? _)|]; simpl; try by apply wf_mono with now.
    apply check_half_open_wf; [done..|]. apply with_probing_wf; [done|lia|done].
Qed.

Lemma record_outbound_wf text n now b : wf now b → wf now (record_outbound config text n b).2.
Proof. intros []. split; simpl; auto using length_push_capped. Qed.

Lemma record_refused_wf text now now' b :
  instant_min ≤ now' → now ≤ now' → wf now b → wf now' (record_refused config text now' b).2.
Proof.
  intros Hmin Hle Hb. destruct (record_inbound_wf text now now' b Hmin Hle Hb).
  split; simpl; auto.
Qed.
End wf_lemmas.

(** ** Runs of one breaker

    Every call that changes a breaker, with its clock readings. *)
Inductive event :=
| Check (text : ustr) (sender : SenderKind) (now t_trip : Z)
| Refused (text : ustr) (now : Z)
| Outbound (text : ustr) (tokens : Z)
| Reset.

Definition run_event `{Platform} (config : CircuitBreakerConfig) (e : event)
    (b : CircuitBreaker) : CircuitBreaker :=
  match e with
  | Check text sender now t_trip => (check_inbound_as config text sender now t_trip b).2
  | Refused text now => (record_refused config text now b).2
  | Outbound text n => (record_outbound config text n b).2
  | Reset => reset b
  end.

(** States reachable at a time, along a monotone clock. *)
Inductive reachable `{Platform} (config : CircuitBreakerConfig) : Z → CircuitBreaker → Prop :=
| reach_new t : instant_min ≤ t → reachable config t new
| reach_tick t t' b : reachable config t b → t ≤ t' → reachable config t' b
| reach_check t b text sender now t_trip :
    reachable config t b → t ≤ now → now ≤ t_trip →
    reachable config t_trip (run_event config (Check text sender now t_trip) b)
| reach_refused t b text now :
    reachable config t b → t ≤ now → reachable config now (run_event config (Refused text now) b)
| reach_outbound t b text n :
    reachable config t b → reachable config t (run_event config (Outbound text n) b)
| reach_reset t b : reachable config t b → reachable config t (run_event config Reset b).

(** In every reachable state the histories stay within their
    caps (64 and 1024 timestamps, 8 hashes, 4 texts, 32 token counts), the
    timestamps are sorted and not in the future, an open breaker has a trip
    time, and at most the allowed number of probes was let through. *)
Theorem reachable_wf `{Platform} (config : CircuitBreakerConfig) (t : Z) (b : CircuitBreaker) :
  reachable config t b → instant_min ≤ t ∧ breaker_wf config t b.
Proof.
  induction 1 as [t Hmin|t t' b _ [Hm Hb] Hle|t b text sender now t_trip _ [Hm Hb] H1 H2
    |t b text now _ [Hm Hb] H1|t b text n _ [Hm Hb]|t b _ [Hm Hb]]; simpl.
  - split; [done|apply new_wf].
  - split; [lia|by apply wf_mono with t].
  - split; [lia|]. apply check_inbound_wf; [lia..|]. by apply wf_mono with t.
  - split; [lia|]. by apply record_refused_wf with t; [lia..|].
  - split; [done|by apply record_outbound_wf].
  - split; [done|by apply reset_wf].
Qed.

(** ** Cooldown and recovery *)

Section recovery.
Context `{Platform} (config : CircuitBreakerConfig).
Implicit Types (b : CircuitBreaker) (text : ustr) (now : Z).

(** Person messages checked in turn, each with its clock readings. *)
Fixpoint check_seq (msgs : list (ustr * Z * Z)) b
    : list (option BreakerDecision) * CircuitBreaker :=
  match msgs with
  | [] => ([], b)
  | (text, now, t_trip) :: rest =>
      let '(d, b1) := check_inbound_as config text Person now t_trip b in
      let '(ds, b2) := check_seq rest b1 in
      (d :: ds, b2)
  end.

Definition open_since (t0 : Z) b : Prop := state b = Open ∧ tripped_at b = Some t0.

(** An event that happens before the cooldown ends and is not a manual
    reset. *)
Definition during_cooldown (t0 : Z) (e : event) : Prop :=
  match e with
  | Check _ _ now _ => now < t0 + secs (cooldown_secs config)
  | Refused _ _ | Outbound _ _ => True
  | Reset => False
  end.

Lemma check_denied text sender now t_trip t0 b :
  0 < secs (cooldown_secs config) → now < t0 + secs (cooldown_secs config) →
  open_since t0 b →
  check_inbound_as config text sender now t_trip b = (Some (Deny Open), b).
Proof.
  intros Hc Hn [Hs Ht]. unfold check_inbound_as. rewrite Hs, Ht.
  destruct (_ <=? _) eqn:E; [|done]. reflect_bools. unfold duration_since in E. lia.
Qed.

Lemma is_echo_ext text b b' :
  last_outbound_hash b' = last_outbound_hash b →
  last_outbound_prefix b' = last_outbound_prefix b → is_echo text b' = is_echo text b.
Proof. unfold is_echo. by intros -> ->. Qed.

Definition recovering (p : Z) b b0 : Prop :=
  state b = HalfOpen ∧ half_open_passes b = p
  ∧ last_outbound_hash b = last_outbound_hash b0
  ∧ last_outbound_prefix b = last_outbound_prefix b0.

Lemma check_half_open_probe text now t_trip b b0 p :
  recovering p b b0 → is_echo text b0 = false → p < half_open_allow_count config →
  ∃ b', check_half_open config text Person now t_trip b = (Some Throttle, b')
    ∧ recovering (p + 1) b' b0.
Proof.
  intros (Hs & Hp & Hh & Hx) He Hlt. unfold check_half_open.
  rewrite (is_echo_ext _ b0), He by done. rewrite Hp.
  destruct (_ <=? _) eqn:E; reflect_bools; [lia|].
  eexists. split; [done|]. repeat split; done.
Qed.

Lemma check_closed_fresh text now t_trip b :
  is_echo text b = false → inbound_timestamps b = [] → hard_timestamps b = [] →
  recent_inbound_texts b = [] →
  ∃ b', check_closed config text Person now t_trip b = (Some Allow, b')
    ∧ state b' = state b ∧ inbound_timestamps b' = [now] ∧ hard_timestamps b' = [now].
Proof.
  intros He Hi Hh Ht. unfold check_closed. rewrite He.
  assert ((hard_limit config <=? 0)%nat = false) as E1.
  { apply Nat.leb_gt. unfold hard_limit. lia. }
  assert ((0 <? frequency_limit config)%nat = true) as E2.
  { apply Nat.ltb_lt. unfold frequency_limit. lia. }
  unfold hard_limit_reached. rewrite Hh. simpl. rewrite E1.
  unfold frequency_wait. simpl. rewrite Hi. simpl. rewrite E2.
  unfold content_repetition, record_inbound_internal. simpl. rewrite Ht. simpl.
  eexists. split; [done|]. by simpl.
Qed.

Lemma check_half_open_close text now t_trip b b0 p :
  recovering p b b0 → is_echo text b0 = false → half_open_allow_count config ≤ p →
  ∃ b', check_half_open config text Person now t_trip b = (Some Allow, b')
    ∧ state b' = Closed ∧ inbound_timestamps b' = [now] ∧ hard_timestamps b' = [now].
Proof.
  intros (Hs & Hp & Hh & Hx) He Hge. unfold check_half_open.
  rewrite (is_echo_ext _ b0), He by done. rewrite Hp.
  destruct (_ <=? _) eqn:E; reflect_bools; [|lia].
  apply (check_closed_fresh text now t_trip (reset b)); try done.
  by rewrite (is_echo_ext _ b0).
Qed.

(** Probing from [p] passes: [n] more probes, then the breaker closes. *)
Lemma probes_then_close (n : nat) : ∀ p b b0 msgs text now t_trip,
  recovering p b b0 → p + Z.of_nat n = Z.max p (half_open_allow_count config) →
  length msgs = n → Forall (λ m, is_echo m.1.1 b0 = false) msgs → is_echo text b0 = false →
  ∃ b', check_seq (msgs ++ [(text, now, t_trip)]) b = (replicate n (Some Throttle) ++ [Some Allow], b')
    ∧ state b' = Closed ∧ inbound_timestamps b' = [now] ∧ hard_timestamps b' = [now].
Proof.
  induction n as [|n IH]; intros p b b0 msgs text now t_trip Hr Hn Hlen Hm He.
  - destruct msgs; [|done]. simpl.
    destruct (check_half_open_close text now t_trip b b0 p Hr He) as (b' & E & Hb'); [lia|].
    unfold check_inbound_as. destruct Hr as [-> _]. rewrite E. by exists b'.
  - destruct msgs as [|[[text1 now1] trip1] msgs]; [done|]. simpl in Hlen.
    inversion Hm as [|? ? He1 Hms]; subst. simpl in He1.
    destruct (check_half_open_probe text1 now1 trip1 b b0 p Hr He1) as (b1 & E & Hr1); [lia|].
    destruct (IH (p + 1) b1 b0 msgs text now t_trip Hr1) as (b' & E' & Hb'); [lia|lia|done..|].
    exists b'. split; [|done]. simpl. unfold check_inbound_as at 1.
    destruct Hr as [-> _]. by rewrite E, E'.
Qed.
End recovery.

(** Once tripped at [t0], the breaker denies every message that
    arrives before the cooldown ends, whoever sends it and whatever it says,
    and stays open with the same trip time through any sequence of checks,
    refusals and replies. *)
Theorem cooldown_blocks `{Platform} (config : CircuitBreakerConfig) (t0 : Z)
    (es : list event) (b : CircuitBreaker) :
  0 < cooldown_secs config → open_since t0 b → Forall (during_cooldown config t0) es →
  let b' := foldl (λ b e, run_event config e b) b es in
  open_since t0 b'
  ∧ ∀ text sender now t_trip, now < t0 + secs (cooldown_secs config) →
      check_inbound_as config text sender now t_trip b' = (Some (Deny Open), b').
Proof.
  intros Hc Ho Hes. assert (0 < secs (cooldown_secs config)) as Hc' by (unfold secs; lia).
  simpl. revert b Ho. induction Hes as [|e es He _ IH]; intros b Ho; simpl.
  - split; [done|]. intros. by apply check_denied with t0.
  - apply IH. destruct e; simpl in *; [|exact Ho|exact Ho|done].
    by rewrite (check_denied config text sender now t_trip t0 b).
Qed.

(** A breaker whose cooldown has elapsed lets exactly
    [half_open_allow_count] messages through as throttled probes and closes on
    the next one, provided none of them echoes the last reply; the probes and
    everything before them no longer count. *)
Theorem recovers_after_cooldown `{Platform} (config : CircuitBreakerConfig) (t0 : Z)
    (b : CircuitBreaker) (msgs : list (ustr * Z * Z)) (text : ustr) (now t_trip : Z) :
  0 ≤ half_open_allow_count config → open_since t0 b →
  length msgs = Z.to_nat (half_open_allow_count config) →
  Forall (λ m, is_echo m.1.1 b = false) (msgs ++ [(text, now, t_trip)]) →
  Forall (λ m, t0 + secs (cooldown_secs config) ≤ m.1.2) (msgs ++ [(text, now, t_trip)]) →
  ∃ b', check_seq config (msgs ++ [(text, now, t_trip)]) b
      = (replicate (length msgs) (Some Throttle) ++ [Some Allow], b')
    ∧ state b' = Closed ∧ inbound_timestamps b' = [now] ∧ hard_timestamps b' = [now].
Proof.
  intros Hc [Hs Ht] Hlen He Hnow. set (b0 := with_probing HalfOpen 0 b).
  assert (recovering 0 b0 b) as Hr by done.
  apply Forall_app in He as [He1 He2]. inversion He2 as [|? ? He3 _]; subst.
  destruct (probes_then_close config (length msgs) 0 b0 b msgs text now t_trip Hr)
    as (b' & E & Hb'); [lia|done..|].
  exists b'. split; [|done]. rewrite <- E.
  assert (∀ m rest, msgs ++ [(text, now, t_trip)] = m :: rest →
    check_inbound_as config m.1.1 Person m.1.2 m.2 b
    = check_inbound_as config m.1.1 Person m.1.2 m.2 b0) as Hfirst.
  { intros [[x n] tr] rest Heq. simpl. unfold check_inbound_as. rewrite Hs, Ht. simpl.
    rewrite Heq in Hnow. inversion Hnow; subst. simpl in *.
    destruct (_ <=? _) eqn:E'; [done|]. reflect_bools. unfold duration_since in E'. lia. }
  destruct (msgs ++ [(text, now, t_trip)]) as [|[[x n] tr] rest] eqn:Em; [by destruct msgs|].
  simpl. pose proof (Hfirst (x, n, tr) rest eq_refl) as Hf. simpl in Hf. by rewrite Hf.
Qed.

(** A breaker tripped by an echo of its own reply, for the witnesses. *)
#[local] Existing Instance colliding_platform.
Definition dflt := CircuitBreakerConfig_default.
Definition tripped_breaker : CircuitBreaker :=
  run_event dflt (Check (u "hello") Person (secs 1) (secs 1))
    (run_event dflt (Outbound (u "hello") 3) new).

Lemma cooldown_blocks_witness :
  check_inbound_as dflt (u "x") Bot (secs 60) (secs 60)
    (foldl (λ b e, run_event dflt e b) tripped_breaker
       [Check (u "again") Person (secs 5) (secs 5); Refused (u "y") (secs 6);
        Outbound (u "z") 7])
  = (Some (Deny Open),
     foldl (λ b e, run_event dflt e b) tripped_breaker
       [Check (u "again") Person (secs 5) (secs 5); Refused (u "y") (secs 6);
        Outbound (u "z") 7]).
Proof.
  apply (cooldown_blocks dflt (secs 1)).
  - done.
  - split; vm_compute; reflexivity.
  - forall_by_eval.
  - done.
Defined.

Lemma recovers_after_cooldown_witness :
  ∃ b', check_seq dflt
      ([(u "a", secs 61, secs 61); (u "b", secs 61, secs 61)]
         ++ [(u "c", secs 62, secs 62)]) tripped_breaker
    = (replicate 2 (Some Throttle) ++ [Some Allow], b')
  ∧ state b' = Closed ∧ inbound_timestamps b' = [secs 62] ∧ hard_timestamps b' = [secs 62].
Proof.
  apply (recovers_after_cooldown dflt (secs 1) tripped_breaker
           [(u "a", secs 61, secs 61); (u "b", secs 61, secs 61)] (u "c") (secs 62) (secs 62)).
  - done.
  - split; vm_compute; reflexivity.
  - done.
  - forall_by_eval.
  - forall_by_eval.
Defined.

(** ** The frequency window

    The one panic of a check is [oldest + window]; it cannot happen while the
    window, counted from any kept timestamp, ends before the latest instant. *)
Definition window_fits `{Platform} (config : CircuitBreakerConfig) (b : CircuitBreaker) : Prop :=
  Forall (λ t, t + secs (frequency_window_secs config) ≤ instant_max) (inbound_timestamps b).

Lemma window_fits_wf `{Platform} config now b :
  breaker_wf config now b → now + secs (frequency_window_secs config) ≤ instant_max →
  window_fits config b.
Proof.
  intros [[_ Hb] _ _ _ _ _ _ _ _] Hnow. eapply List.Forall_impl; [|exact Hb]. simpl. lia.
Qed.

Lemma frequency_wait_answers `{Platform} config now b :
  window_fits config b → is_Some (frequency_wait config now b).1.
Proof.
  intros Hw. unfold frequency_wait. destruct (_ <? _)%nat eqn:El; [by eexists|].
  match goal with |- context [?l !! ?k] => destruct (l !! k) as [oldest|] eqn:E end.
  2: { exfalso. apply lookup_ge_None in E. unfold frequency_limit in *. reflect_bools. lia. }
  rewrite instant_add_Some; [by eexists|].
  unfold window_fits in Hw. rewrite List.Forall_forall in Hw. apply Hw.
  eapply (proj1 (filter_In _ _ _)), list_elem_of_In, list_elem_of_lookup_2, E.
Qed.

Lemma frequency_wait_keeps_window `{Platform} config now b :
  window_fits config b → window_fits config (frequency_wait config now b).2.
Proof. intros Hw. unfold frequency_wait, window_fits. case_code; auto with queues. Qed.

Lemma hard_limit_inbound `{Platform} config now b :
  inbound_timestamps (hard_limit_reached config now b).2 = inbound_timestamps b.
Proof. unfold hard_limit_reached. by case_code. Qed.

Lemma check_closed_answers `{Platform} config text sender now t_trip b :
  window_fits config b → is_Some (check_closed config text sender now t_trip b).1.
Proof.
  intros Hw. unfold check_closed. destruct (is_echo text b); [by eexists|].
  pose proof (hard_limit_inbound config now b) as Hi.
  destruct (hard_limit_reached config now b) as [[r|] b1]; [by eexists|]. simpl in Hi.
  destruct (frequency_wait_answers config now b1) as [wait Hwait];
    [unfold window_fits; by rewrite Hi|].
  destruct (frequency_wait config now b1) as [? b2]. simpl in Hwait. subst.
  destruct wait; [destruct sender; by eexists|]. cbv zeta. destruct (content_repetition _ _); by eexists.
Qed.

Lemma check_inbound_answers `{Platform} config text sender now t_trip b :
  window_fits config b → is_Some (check_inbound_as config text sender now t_trip b).1.
Proof.
  intros Hw.
  assert (∀ b', window_fits config b' →
    is_Some (check_half_open config text sender now t_trip b').1) as Hh.
  { intros b' Hb'. unfold check_half_open. destruct (is_echo text b'); [by eexists|].
    destruct (_ <=? _); [|by eexists]. apply check_closed_answers; constructor. }
  unfold check_inbound_as. destruct (state b); [by apply check_closed_answers|by apply Hh|].
  destruct (tripped_at b); [|by eexists]. destruct (_ <=? _); [by apply Hh|by eexists].
Qed.

Lemma retain_below_length (c : Z) (ts : list Z) (k : nat) (x : Z) :
  StronglySorted Z.le ts → ts !! k = Some x → x ≤ c →
  (length (retain (λ t, (c <? t)%Z) ts) ≤ length ts - S k)%nat.
Proof.
  intros Hs Hk Hx.
  rewrite <- (take_drop (S k) ts) at 1. rewrite filter_app, length_app.
  rewrite (retain_none _ (take (S k) ts)).
  - simpl. etransitivity; [apply length_retain|]. rewrite length_drop. lia.
  - apply List.Forall_forall. intros y Hy. apply list_elem_of_In, list_elem_of_lookup in Hy as [j Hj].
    apply lookup_take_Some in Hj as [Hj Hlt]. apply Z.ltb_ge.
    assert (y ≤ x); [|lia]. apply (StronglySorted_lookup Z.le ts j k); [done..|lia].
Qed.

Lemma frequency_wait_ext `{Platform} (config : CircuitBreakerConfig) (now : Z) (b b' : CircuitBreaker) :
  inbound_timestamps b = inbound_timestamps b' →
  (frequency_wait config now b).1 = (frequency_wait config now b').1.
Proof.
  unfold frequency_wait. intros ->. destruct (_ <? _)%nat; [done|].
  destruct (_ !! _); [|done]. by destruct (instant_add _ _).
Qed.

Lemma wait_is_enough_ts `{Platform} (config : CircuitBreakerConfig) (now now' w : Z)
    (b b' : CircuitBreaker) :
  timestamps_wf now (inbound_timestamps b) → 0 ≤ frequency_window_secs config →
  frequency_wait config now b = (Some (Some w), b') → now + w ≤ now' →
  (frequency_wait config now' b').1 = Some None
  ∧ millis 10 ≤ w ≤ Z.max (millis 10) (secs (frequency_window_secs config)).
Proof.
  intros Hb Hwin Hw Hnow. unfold frequency_wait in Hw.
  set (window := secs (frequency_window_secs config)) in *.
  set (L := retain (after_cutoff (checked_sub now window)) (inbound_timestamps b)) in *.
  assert (timestamps_wf now L) as [Hsort Hbound] by by apply timestamps_wf_retain.
  destruct (length L <? frequency_limit config)%nat eqn:E1; [done|]. reflect_bools.
  destruct (L !! (length L - frequency_limit config)%nat) as [oldest|] eqn:E2; [|done].
  destruct (instant_add oldest window) as [room|] eqn:E2'; [|done].
  apply instant_add_inv in E2' as [-> _].
  simplify_eq. unfold duration_since in *. unfold frequency_wait. simpl. fold window.
  assert (instant_min ≤ oldest ≤ now) as Hold.
  { rewrite List.Forall_forall in Hbound. apply Hbound, list_elem_of_In.
    by eapply list_elem_of_lookup_2. }
  split; [|unfold millis; lia].
  unfold checked_sub. destruct (_ <=? _) eqn:E3; reflect_bools; [|lia]. simpl.
  assert (length (retain (λ t, now' - window <? t)%Z L) < frequency_limit config)%nat as Hlt.
  { pose proof (retain_below_length (now' - window) L _ oldest Hsort E2) as Hr.
    pose proof (lookup_lt_Some _ _ _ E2).
    assert (1 ≤ frequency_limit config)%nat by (unfold frequency_limit; lia). lia. }
  change (after_cutoff (Some (now' - window))) with (λ t, now' - window <? t).
  destruct (_ <? _)%nat eqn:E4; reflect_bools; [done|lia].
Qed.

(** When a check answers [Wait w], the wait is at least 10 ms
    and at most the frequency window (or 10 ms), and waiting it out is
    enough: at any later time the window of the breaker has room, as long as
    nothing else was recorded meanwhile. *)
Theorem wait_is_enough `{Platform} (config : CircuitBreakerConfig) (now now' w : Z)
    (b b' : CircuitBreaker) :
  breaker_wf config now b → 0 ≤ frequency_window_secs config →
  frequency_wait config now b = (Some (Some w), b') → now + w ≤ now' →
  (frequency_wait config now' b').1 = Some None
  ∧ millis 10 ≤ w ≤ Z.max (millis 10) (secs (frequency_window_secs config)).
Proof. intros [] ?. by apply wait_is_enough_ts. Qed.

Definition busy_config : CircuitBreakerConfig := {|
  frequency_window_secs := 10; frequency_max_replies := 1;
  similarity_threshold := f64_lit 95 100; token_explosion_multiplier := f64_of_Z 3;
  cooldown_secs := 60; half_open_allow_count := 2; hard_window_secs := 60;
  hard_max_messages := 30 |}.
Definition busy_breaker : CircuitBreaker :=
  run_event busy_config (Check (u "hi") Person (secs 1) (secs 1)) new.

Lemma busy_breaker_wf : breaker_wf busy_config (secs 4) busy_breaker.
Proof.
  apply reachable_wf. apply reach_tick with (secs 1); [|done].
  apply reach_check with (secs 1); [by apply reach_new|done..].
Qed.

Lemma wait_is_enough_witness :
  (frequency_wait busy_config (secs 11)
     (frequency_wait busy_config (secs 4) busy_breaker).2).1 = Some None.
Proof.
  assert (frequency_wait busy_config (secs 4) busy_breaker
    = (Some (Some (secs 7)), (frequency_wait busy_config (secs 4) busy_breaker).2)) as E
    by (vm_compute; reflexivity).
  destruct (wait_is_enough busy_config (secs 4) (secs 11) (secs 7) busy_breaker
    (frequency_wait busy_config (secs 4) busy_breaker).2) as [H0 _].
  - apply busy_breaker_wf.
  - done.
  - exact E.
  - done.
  - exact H0.
Defined.

(** The history caps are part of the limits.  A configured
    [frequency_max_replies] above 64, or [hard_max_messages] above 1024, is
    never reached: in every reachable state the breaker neither makes a
    message wait, nor trips on the hard limit. *)
Theorem limits_above_caps_unenforced `{Platform} (config : CircuitBreakerConfig)
    (t : Z) (b : CircuitBreaker) :
  reachable config t b →
  (64 < frequency_max_replies config → ∀ now, (frequency_wait config now b).1 = Some None)
  ∧ (1024 < hard_max_messages config → ∀ now, (hard_limit_reached config now b).1 = None).
Proof.
  intros Hr. destruct (reachable_wf config t b Hr) as [_ []].
  split; intros Hlim now.
  - unfold frequency_wait. destruct (_ <? _)%nat eqn:E; [done|]. reflect_bools.
    pose proof (length_retain (after_cutoff (checked_sub now
      (secs (frequency_window_secs config)))) (inbound_timestamps b)).
    unfold frequency_limit in E. lia.
  - unfold hard_limit_reached. destruct (_ <=? _)%nat eqn:E; [|done]. reflect_bools.
    pose proof (length_retain (after_cutoff (checked_sub now (hard_window config)))
      (hard_timestamps b)).
    unfold hard_limit, HARD_HISTORY_CAP in *. lia.
Qed.

Definition generous_config : CircuitBreakerConfig := {|
  frequency_window_secs := 10; frequency_max_replies := 65;
  similarity_threshold := f64_lit 95 100; token_explosion_multiplier := f64_of_Z 3;
  cooldown_secs := 60; half_open_allow_count := 2; hard_window_secs := 60;
  hard_max_messages := 2000 |}.

Lemma limits_above_caps_unenforced_witness :
  (frequency_wait generous_config 0 new).1 = Some None
  ∧ (hard_limit_reached generous_config 0 new).1 = None.
Proof.
  destruct (limits_above_caps_unenforced generous_config 0 new) as [H1 H2].
  - by apply reach_new.
  - split; [by apply H1|by apply H2].
Defined.

(** ** Similarity and repetition *)

Lemma utf8_encode_length (s : ustr) : (length s ≤ length (utf8_encode s))%nat.
Proof.
  induction s as [|c s IH]; simpl; [done|]. unfold utf8_encode in *. simpl.
  assert (1 ≤ length (utf8_char c))%nat.
  { unfold utf8_char. destruct (c <? 128)%N, (c <? 2048)%N, (c <? 65536)%N; simpl; lia. }
  rewrite length_app. lia.
Qed.

Lemma count_buckets_ext f g : (∀ i, f i = g i) → count_buckets f = count_buckets g.
Proof. intros E. unfold count_buckets. by rewrite (filter_ext _ _ E). Qed.

Lemma count_buckets_bounds (bs : list N) :
  (2 ≤ length bs)%nat → 1 ≤ count_buckets (in_bucket (bigram_buckets bs)) ≤ 256.
Proof.
  intros Hlen. destruct bs as [|x [|y r]]; simpl in Hlen; [lia..|].
  unfold count_buckets. split.
  - pose (i := N.to_nat (N.land (N.lxor x y) 255)).
    assert (In i (retain (in_bucket (bigram_buckets (x :: y :: r))) (seq 0 256))) as Hin.
    { apply filter_In. split.
      - apply in_seq. assert (N.land (N.lxor x y) 255 < 256)%N; [|lia].
        change 255%N with (N.ones 8). rewrite N.land_ones. by apply N.mod_lt.
      - unfold in_bucket, i. rewrite N2Nat.id. simpl. by rewrite N.eqb_refl. }
    destruct (retain _ _); [done|]. simpl. lia.
  - pose proof (length_retain (in_bucket (bigram_buckets (x :: y :: r))) (seq 0 256)) as Hr.
    rewrite length_seq in Hr. lia.
Qed.

(** A text of at least two characters is fully similar to itself. *)
Lemma jaccard_self (x : ustr) : (2 ≤ length x)%nat → jaccard_similarity x x = f64_of_Z 1.
Proof.
  intros Hx. unfold jaccard_similarity. pose proof (utf8_encode_length x) as Hlen.
  destruct x as [|c r]; [simpl in Hx; lia|]. simpl is_empty. cbv iota. simpl andb. simpl orb.
  destruct (length (utf8_encode (c :: r)) <? 2)%nat eqn:E; reflect_bools; [lia|]. simpl orb.
  rewrite (count_buckets_ext _ (in_bucket (bigram_buckets (utf8_encode (c :: r))))) by
    (intros; apply orb_diag).
  rewrite (count_buckets_ext (λ i, _ && _) (in_bucket (bigram_buckets (utf8_encode (c :: r)))))
    by (intros; apply andb_diag).
  pose proof (count_buckets_bounds (utf8_encode (c :: r))) as Hb.
  destruct (_ =? 0) eqn:E0; reflect_bools; [lia|]. apply f64_div_self. lia.
Qed.

Lemma jaccard_sym (a b : ustr) : jaccard_similarity a b = jaccard_similarity b a.
Proof.
  unfold jaccard_similarity. rewrite (andb_comm (is_empty a)), (orb_comm (is_empty a)).
  destruct (is_empty b && is_empty a), (is_empty b || is_empty a); try done.
  rewrite (orb_comm (length (utf8_encode a) <? 2)%nat).
  assert (ustr_eqb a b = ustr_eqb b a) as -> by (unfold ustr_eqb; by apply bool_decide_ext).
  rewrite (count_buckets_ext (λ i, in_bucket _ i || _)
    (λ i, in_bucket (bigram_buckets (utf8_encode b)) i
       || in_bucket (bigram_buckets (utf8_encode a)) i)) by (intros; apply orb_comm).
  by rewrite (count_buckets_ext (λ i, in_bucket (bigram_buckets (utf8_encode a)) i && _)
    (λ i, in_bucket (bigram_buckets (utf8_encode b)) i
       && in_bucket (bigram_buckets (utf8_encode a)) i)) by (intros; apply andb_comm).
Qed.

Lemma trim_start_length (s : ustr) : (length (trim_start s) ≤ length s)%nat.
Proof. induction s as [|c s IH]; simpl; [lia|]. destruct (is_whitespace c); simpl; lia. Qed.

Lemma trim_length (s : ustr) : (length (trim s) ≤ length s)%nat.
Proof.
  unfold trim, trim_end. rewrite length_rev.
  pose proof (trim_start_length (rev (trim_start s))). pose proof (trim_start_length s).
  rewrite length_rev in *. lia.
Qed.

Lemma content_repetition_same config (texts : list ustr) (x : ustr) :
  repetition_candidate x = true → f64_leb (similarity_threshold config) (f64_of_Z 1) = true →
  content_repetition config (texts ++ [x; x; x]) = Some (ContentRepetition (u "1.00/1.00")).
Proof.
  intros Hx Hthr. unfold content_repetition. rewrite rev_app_distr. simpl. rewrite Hx. simpl.
  assert (similarity config x x = f64_of_Z 1) as Hs.
  { unfold similarity. destruct (f64_geb _ _); [by rewrite ustr_eqb_refl|].
    apply jaccard_self. unfold repetition_candidate, REPETITION_MIN_CHARS in Hx.
    reflect_bools. pose proof (trim_length x). lia. }
  rewrite Hs. unfold f64_geb, f64_leb in *. by rewrite Hthr.
Qed.

(** A closed breaker that just recorded the same message twice
    (20 or more characters once trimmed) trips with [ContentRepetition] on
    the third one when neither limit applies, for every similarity threshold
    of at most 1 and whichever comparison it selects. *)
Theorem third_repeat_trips `{Platform} (config : CircuitBreakerConfig) (x : ustr)
    (now t_trip : Z) (sender : SenderKind) (b : CircuitBreaker) :
  state b = Closed → recent_inbound_texts b = [x; x] →
  repetition_candidate x = true → is_echo x b = false →
  f64_leb (similarity_threshold config) (f64_of_Z 1) = true →
  (hard_limit_reached config now b).1 = None →
  (frequency_wait config now (hard_limit_reached config now b).2).1 = Some None →
  let r := check_inbound_as config x sender now t_trip b in
  r.1 = Some (Trip (ContentRepetition (u "1.00/1.00"))) ∧ open_since t_trip r.2.
Proof.
  intros Hs Ht Hx He Hthr Hh Hf. simpl. unfold check_inbound_as. rewrite Hs.
  unfold check_closed. rewrite He.
  assert (recent_inbound_texts (frequency_wait config now
    (hard_limit_reached config now b).2).2 = [x; x]) as Ht2.
  { unfold frequency_wait, hard_limit_reached. case_code; exact Ht. }
  destruct (hard_limit_reached config now b) as [hard b1]. simpl in *. subst hard.
  destruct (frequency_wait config now b1) as [wait b2]. simpl in *. subst wait.
  rewrite Ht2. change (push_capped 4 [x; x] x) with ([] ++ [x; x; x]).
  by rewrite content_repetition_same.
Qed.

Definition loop_text : ustr := u "please answer this question now".
Definition repeating_breaker : CircuitBreaker :=
  foldl (λ b e, run_event dflt e b) new
    [Check loop_text Person (secs 1) (secs 1); Check loop_text Person (secs 2) (secs 2)].

Lemma third_repeat_trips_witness :
  (check_inbound_as dflt loop_text Person (secs 3) (secs 3) repeating_breaker).1
    = Some (Trip (ContentRepetition (u "1.00/1.00"))).
Proof.
  apply (third_repeat_trips dflt loop_text (secs 3) (secs 3) Person repeating_breaker);
    vm_compute; reflexivity.
Defined.

Lemma content_repetition_kind config texts r :
  content_repetition config texts = Some r → r ≠ EchoDetected.
Proof. unfold content_repetition. intros Hr. by case_code. Qed.

Lemma check_closed_not_echo `{Platform} config text sender now t_trip b :
  is_echo text b = false → (check_closed config text sender now t_trip b).1 ≠ Some (Trip EchoDetected).
Proof.
  intros He. unfold check_closed. rewrite He.
  destruct (hard_limit_reached config now b) as [[r|] b1] eqn:E1.
  { unfold hard_limit_reached in E1. by case_code. }
  destruct (frequency_wait config now b1) as [[[w|]|] b2]; [by destruct sender| |done].
  destruct (content_repetition _ _) as [r|] eqn:E3; [|done].
  apply content_repetition_kind in E3. simpl. congruence.
Qed.

(** A message trips as an echo of the bot's own reply only
    if its first 200 characters are those of the last reply (a hash
    collision alone is not an echo), and a non-empty message equal to the
    last reply always does, in the closed and in the probing state. *)
Theorem echo_exact `{Platform} (config : CircuitBreakerConfig) (text reply : ustr)
    (tokens now t_trip : Z) (sender : SenderKind) (b : CircuitBreaker) :
  state b ≠ Open →
  let b1 := (record_outbound config reply tokens b).2 in
  let d := (check_inbound_as config text sender now t_trip b1).1 in
  (d = Some (Trip EchoDetected) → take 200 text = take 200 reply ∧ text ≠ [])
  ∧ (text = reply → text ≠ [] → d = Some (Trip EchoDetected)).
Proof.
  intros Hs b1 d.
  assert (is_echo text b1
    = (text_hash text =? text_hash reply) && negb (is_empty text)
      && ustr_eqb (take 200 reply) (take 200 text)) as He by done.
  assert (state b1 = state b) as Hs1 by done.
  split.
  - intros Hd. destruct (is_echo text b1) eqn:E.
    + symmetry in He. reflect_bools. split; [by symmetry|]. by destruct text.
    + exfalso. revert Hd. unfold d, check_inbound_as, check_half_open. rewrite E.
      destruct (state b1) eqn:Hst; [exact (check_closed_not_echo config text sender now t_trip b1 E)| |congruence].
      destruct (_ <=? _); [|done]. apply check_closed_not_echo.
      by rewrite (is_echo_ext text b1).
  - intros -> Hne. assert (is_echo reply b1 = true) as E.
    { rewrite He, Z.eqb_refl, ustr_eqb_refl. by destruct reply. }
    unfold d, check_inbound_as, check_half_open, check_closed. rewrite E.
    destruct (state b1) eqn:Hst; [done|done|congruence].
Qed.

Lemma echo_exact_witness :
  (check_inbound_as dflt (u "hi") Person 0 0 (record_outbound dflt (u "hi") 1 new).2).1
    = Some (Trip EchoDetected).
Proof.
  assert (state new ≠ Open) as H0 by done.
  destruct (echo_exact dflt (u "hi") (u "hi") 1 0 0 Person new H0) as [_ H1].
  apply H1; done.
Defined.
