(* ===== verification/SafetyWord.v ===== *)
(** * Safety words (crates/duduclaw-security/src/safety_word.rs)

    The kill-switch words that run before everything else on a message. *)

From S2P Require Import Prelude Float64 Killswitch.

Inductive SafetyWordScope := CurrentScope | Global.

Inductive SafetyWordAction :=
| Stop (scope : SafetyWordScope)
| Resume
| Status
| NoAction.

(** One of the word lists matches the trimmed message. *)
Definition word_matches (trimmed : ustr) (words : list ustr) : bool :=
  existsb (λ w, eq_ignore_ascii_case trimmed w) words.

(** The four word lists in the order they are tried. *)
Definition match_words (trimmed : ustr) (config : SafetyWordsConfig) : SafetyWordAction :=
  if word_matches trimmed (stop_all config) then Stop Global
  else if word_matches trimmed (stop config) then Stop CurrentScope
  else if word_matches trimmed (resume_words config) then Resume
  else if word_matches trimmed (status config) then Status
  else NoAction.

(** [check]: an empty message, then the fast path on the first byte, then
    the words. *)
Definition check (text : ustr) (config : SafetyWordsConfig) : SafetyWordAction :=
  let trimmed := trim text in
  match utf8_encode trimmed with
  | [] => NoAction
  | first_byte :: _ =>
      if negb (first_byte =? 33)%N && negb (has_non_bang_prefix config) then NoAction
      else match_words trimmed config
  end.

Definition format_response (action : SafetyWordAction) (scope_name : ustr) : ustr :=
  match action with
  | Stop CurrentScope => u "🛑 Agent stopped in scope: " ++ scope_name
  | Stop Global => u "🛑 EMERGENCY STOP — all agents halted"
  | Resume => u "✅ Agent resumed in scope: " ++ scope_name
  | Status => []
  | NoAction => []
  end.

(** ** Lemmas *)

Lemma utf8_encode_nil (s : ustr) : utf8_encode s = [] ↔ s = [].
Proof.
  split; [|by intros ->]. destruct s as [|c r]; [done|]. unfold utf8_encode. simpl.
  unfold utf8_char. by destruct (c <? 128)%N, (c <? 2048)%N, (c <? 65536)%N.
Qed.

(** The first byte is an exclamation mark only if the first character is. *)
Lemma utf8_first_byte (c : N) (r : ustr) (x : N) (bs : list N) :
  utf8_encode (c :: r) = x :: bs → c = 33%N → x = 33%N.
Proof. intros H ->. unfold utf8_encode in H. simpl in H. congruence. Qed.

Lemma ascii_lower_bang (c : N) : ascii_lower c = 33%N → c = 33%N.
Proof.
  unfold ascii_lower. destruct (_ && _) eqn:E; [|done]. reflect_bools.
  apply N.leb_le in H, H0. lia.
Qed.

Lemma bang_word_needs_bang (c : N) (r w : ustr) :
  starts_with w (u "!") = true → eq_ignore_ascii_case (c :: r) w = true → c = 33%N.
Proof.
  unfold eq_ignore_ascii_case. change (u "!") with [33%N]. intros Hw He. reflect_bools.
  destruct w as [|d w]; [done|]. cbn [starts_with] in Hw. apply andb_true_iff in Hw as [Hd _].
  apply N.eqb_eq in Hd. simpl in He. injection He as He _.
  apply ascii_lower_bang. rewrite He, <- Hd. done.
Qed.

Lemma no_bang_no_match (trimmed : ustr) (words : list ustr) (x : N) (bs : list N) :
  utf8_encode trimmed = x :: bs → x ≠ 33%N →
  Forall (λ w, starts_with w (u "!") = true) words → word_matches trimmed words = false.
Proof.
  intros Hx Hne Hw. destruct trimmed as [|c r]; [done|].
  unfold word_matches. apply not_true_iff_false. rewrite existsb_exists.
  intros (w & Hin & He). rewrite List.Forall_forall in Hw.
  apply Hne. eapply utf8_first_byte; [done|]. eapply bang_word_needs_bang; [by apply Hw|done].
Qed.

(** The fast path never changes the answer.  For every
    message and configuration, [check] is the plain in-order comparison of
    the trimmed message with the four word lists ([match_words]) on a
    message that is not blank, and no action on a blank one. *)
Theorem fast_path_equivalent (text : ustr) (config : SafetyWordsConfig) :
  check text config
  = if is_empty (trim text) then NoAction else match_words (trim text) config.
Proof.
  unfold check. destruct (utf8_encode (trim text)) as [|x bs] eqn:E.
  - apply (proj1 (utf8_encode_nil _)) in E. by rewrite E.
  - assert (is_empty (trim text) = false) as -> by (destruct (trim text); done).
    destruct (x =? 33)%N eqn:Hx; [done|]. simpl.
    destruct (has_non_bang_prefix config) eqn:Hb; [done|]. simpl.
    apply N.eqb_neq in Hx.
    assert (Forall (λ w, starts_with w (u "!") = true)
      (stop config ++ stop_all config ++ resume_words config ++ status config)) as Hall.
    { apply List.Forall_forall. intros w Hw. apply not_false_iff_true. intros Hs.
      apply not_true_iff_false in Hb. apply Hb. unfold has_non_bang_prefix.
      apply existsb_exists. exists w. by rewrite Hs. }
    rewrite !Forall_app in Hall. destruct Hall as (H1 & H2 & H3 & H4).
    unfold match_words. by rewrite !(no_bang_no_match (trim text) _ x bs).
Qed.

(** A stop-all word stops everything even when the same
    word is also listed as a plain stop, resume or status word, in any
    letter case and with surrounding white space; a message that matches no
    configured word is never an action. *)
Theorem check_priority (text : ustr) (config : SafetyWordsConfig) :
  let t := trim text in
  (t ≠ [] → word_matches t (stop_all config) = true → check text config = Stop Global)
  ∧ (check text config ≠ NoAction →
       ∃ w, In w (stop_all config ++ stop config ++ resume_words config ++ status config)
         ∧ eq_ignore_ascii_case t w = true).
Proof.
  simpl. rewrite fast_path_equivalent. split.
  - intros Hne Hm. destruct (trim text); [done|]. simpl. unfold match_words. by rewrite Hm.
  - destruct (is_empty _); [done|]. unfold match_words. intros Hm.
    assert (∃ ws, In ws [stop_all config; stop config; resume_words config; status config]
      ∧ word_matches (trim text) ws = true) as (ws & Hin & Hws).
    { destruct (word_matches _ (stop_all _)) eqn:E1; [eexists; split; [by left|done]|].
      destruct (word_matches _ (stop _)) eqn:E2; [eexists; split; [right; by left|done]|].
      destruct (word_matches _ (resume_words _)) eqn:E3;
        [eexists; split; [right; right; by left|done]|].
      destruct (word_matches _ (status _)) eqn:E4; [|done].
      eexists; split; [right; right; right; by left|done]. }
    unfold word_matches in Hws. apply existsb_exists in Hws as (w & Hw & He).
    exists w. split; [|done]. rewrite !in_app_iff.
    destruct Hin as [<-|[<-|[<-|[<-|[]]]]]; auto.
Qed.

Lemma check_priority_witness :
  check (u "  !Stop All ") SafetyWordsConfig_default = Stop Global.
Proof.
  destruct (check_priority (u "  !Stop All ") SafetyWordsConfig_default) as [H _].
  apply H; by_eval.
Defined.
