(* ===== verification/RateLimiter.v ===== *)
(** * The sliding-window rate limiter (crates/duduclaw-security/src/rate_limiter.rs)

    One window of timestamps per key, at most [max_keys] keys.  A method's
    clock readings are [tk 0], [tk 1], ... in the order the code takes them;
    [Instant::now() - window] panics below the earliest instant, so a method
    that takes it returns an option ([None] is the panic). *)

From S2P Require Import Prelude Float64 Platform.

Record SlidingWindow := {
  timestamps : list Z;
  limit : Z;
}.

Record Windows := {
  entries : gmap ustr SlidingWindow;
  last_cleanup : Z;
}.

(** The immutable part of a [RateLimiter]. *)
Record RateLimiter := {
  max_keys : Z;
  default_limit : Z;
  window_duration : Z;
}.

Definition with_max_keys (default_limit window_duration max_keys : Z) : RateLimiter :=
  {| max_keys := max_keys; default_limit := default_limit; window_duration := window_duration |}.

Definition new_limiter (default_limit window_duration : Z) : RateLimiter :=
  with_max_keys default_limit window_duration 10000.

Definition new_windows (t : Z) : Windows := {| entries := ∅; last_cleanup := t |}.

Definition new_window (limit : Z) : SlidingWindow := {| timestamps := []; limit := limit |}.

Section limiter.
Context `{Platform} (L : RateLimiter).
Implicit Types (tk : nat → Z) (key k : ustr) (ws : Windows) (w : SlidingWindow) (acc : list Z).

Definition prune (cutoff : Z) w : SlidingWindow :=
  {| timestamps := retain (λ t, cutoff <? t) (timestamps w); limit := limit w |}.

(** [SlidingWindow::is_allowed]. *)
Definition is_allowed (now : Z) w : option (bool * SlidingWindow) :=
  cutoff ← instant_sub now (window_duration L);
  let w' := prune cutoff w in
  Some (Z.of_nat (length (timestamps w')) <? limit w', w').

(** [SlidingWindow::record]: one reading for the cutoff, one to record. *)
Definition record (now1 now2 : Z) w : option SlidingWindow :=
  cutoff ← instant_sub now1 (window_duration L);
  let w' := prune cutoff w in
  Some {| timestamps := timestamps w' ++ [now2]; limit := limit w' |}.

Definition has_recent (cutoff : Z) w : bool := existsb (λ t, cutoff <? t) (timestamps w).

Definition insert_new key ws : Windows :=
  {| entries := <[key := new_window (default_limit L)]> (entries ws);
     last_cleanup := last_cleanup ws |}.

Definition full ws : bool := max_keys L <=? Z.of_nat (size (entries ws)).

(** [admit_key]: readings 0 (elapsed), 1 (cutoff), 2 (cleanup stamp). *)
Definition admit_key tk key ws : option (bool * Windows) :=
  match entries ws !! key with
  | Some _ => Some (true, ws)
  | None =>
      if full ws then
        ws' ←
          (if Z.min (window_duration L) (secs 1) <=? duration_since (tk 0%nat) (last_cleanup ws)
           then
             cutoff ← instant_sub (tk 1%nat) (window_duration L);
             Some {| entries :=
                       base.filter (λ p : ustr * SlidingWindow, has_recent cutoff p.2 = true)
                         (entries ws);
                     last_cleanup := tk 2%nat |}
           else Some ws);
        if full ws' then Some (false, ws') else Some (true, insert_new key ws')
      else Some (true, insert_new key ws)
  end.

Definition set_window key w ws : Windows :=
  {| entries := <[key := w]> (entries ws); last_cleanup := last_cleanup ws |}.

(** [check]. *)
Definition check tk key ws : option (bool * Windows) :=
  '(ok, ws1) ← admit_key tk key ws;
  if negb ok then Some (false, ws1)
  else
    w ← entries ws1 !! key;
    '(allowed, w') ← is_allowed (tk 3%nat) w;
    Some (allowed, set_window key w' ws1).

(** [record]. *)
Definition record_key tk key ws : option Windows :=
  '(ok, ws1) ← admit_key tk key ws;
  if negb ok then Some ws1
  else
    w ← entries ws1 !! key;
    w' ← record (tk 3%nat) (tk 4%nat) w;
    Some (set_window key w' ws1).

(** [check_and_record]. *)
Definition check_and_record tk key ws : option (bool * Windows) :=
  '(ok, ws1) ← admit_key tk key ws;
  if negb ok then Some (false, ws1)
  else
    w ← entries ws1 !! key;
    '(allowed, w1) ← is_allowed (tk 3%nat) w;
    if (allowed : bool) then
      w2 ← record (tk 4%nat) (tk 5%nat) w1;
      Some (true, set_window key w2 ws1)
    else Some (false, set_window key w1 ws1).

(** [reset]. *)
Definition reset_key key ws : Windows :=
  {| entries := delete key (entries ws); last_cleanup := last_cleanup ws |}.

(** ** Lemmas *)

Definition ts_of key ws : list Z :=
  match entries ws !! key with Some w => timestamps w | None => [] end.

Definition limits_ok ws : Prop := map_Forall (λ _ w, limit w = default_limit L) (entries ws).

Lemma retain_retain_le (c c' : Z) (l : list Z) :
  c ≤ c' → retain (λ t, c' <? t) (retain (λ t, c <? t) l) = retain (λ t, c' <? t) l.
Proof.
  intros Hc. induction l as [|t l IH]; simpl; [done|].
  destruct (c <? t) eqn:E1; simpl; rewrite IH; [done|].
  destruct (c' <? t) eqn:E2; [|done]. reflect_bools. lia.
Qed.

Lemma instant_sub_Some t d c : instant_sub t d = Some c → c = t - d.
Proof. unfold instant_sub, checked_sub. destruct (_ <=? _); congruence. Qed.

Lemma has_recent_false c w : has_recent c w = false → retain (λ t, c <? t) (timestamps w) = [].
Proof.
  intros Hr. apply retain_none, List.Forall_forall. intros t Ht.
  apply not_true_iff_false. intros Hc. apply not_true_iff_false in Hr. apply Hr.
  apply existsb_exists. by exists t.
Qed.

(** What is known of one key: its timestamps are the accepted times after
    some cutoff no later than [now - window]. *)
Definition tracks key (now : Z) ws (acc : list Z) : Prop :=
  ∃ c, c ≤ now - window_duration L ∧ ts_of key ws = retain (λ t, c <? t) acc.

Lemma tracks_mono key now now' ws acc :
  now ≤ now' → tracks key now ws acc → tracks key now' ws acc.
Proof. intros Hle (c & Hc & E). exists c. split; [lia|done]. Qed.

Lemma tracks_ext key now ws ws' acc :
  ts_of key ws' = ts_of key ws → tracks key now ws acc → tracks key now ws' acc.
Proof. intros E (c & Hc & E'). exists c. split; [done|congruence]. Qed.

Lemma ts_of_insert_new key key' ws :
  entries ws !! key' = None → ts_of key (insert_new key' ws) = ts_of key ws.
Proof.
  intros Hn. unfold ts_of, insert_new. simpl.
  destruct (decide (key' = key)) as [->|Hne].
  - by rewrite lookup_insert_eq, Hn.
  - by rewrite lookup_insert_ne.
Qed.

Lemma ts_of_set_ne key key' w ws : key ≠ key' → ts_of key (set_window key' w ws) = ts_of key ws.
Proof. intros Hne. unfold ts_of, set_window. simpl. by rewrite lookup_insert_ne. Qed.

Lemma ts_of_set_eq key w ws : ts_of key (set_window key w ws) = timestamps w.
Proof. unfold ts_of, set_window. simpl. by rewrite lookup_insert_eq. Qed.

Lemma tracks_sweep key now ws acc c cleanup :
  c = now - window_duration L → tracks key now ws acc →
  tracks key now
    {| entries := base.filter (λ p : ustr * SlidingWindow, has_recent c p.2 = true) (entries ws);
       last_cleanup := cleanup |} acc.
Proof.
  intros -> (c0 & Hc0 & E). unfold tracks, ts_of in *. simpl.
  rewrite map_lookup_filter.
  destruct (entries ws !! key) as [w|]; simpl; [|by exists c0].
  destruct (decide (has_recent (now - window_duration L) w = true)) as [Hr|Hr].
  - exists c0. split; [done|]. simpl. by rewrite option_guard_True.
  - exists (now - window_duration L). split; [lia|]. rewrite option_guard_False by done. simpl.
    apply not_true_iff_false, has_recent_false in Hr. rewrite E, retain_retain_le in Hr by lia.
    done.
Qed.

Lemma admit_key_spec tk key ws ok ws1 :
  tk 0%nat ≤ tk 1%nat → tk 1%nat ≤ tk 2%nat →
  admit_key tk key ws = Some (ok, ws1) →
  (∀ key' acc, tracks key' (tk 0%nat) ws acc → tracks key' (tk 2%nat) ws1 acc)
  ∧ (limits_ok ws → limits_ok ws1)
  ∧ (ok = true → is_Some (entries ws1 !! key)).
Proof.
  intros H01 H12 Ha. unfold admit_key in Ha.
  assert (∀ ws', limits_ok ws' → limits_ok (insert_new key ws')) as Hins.
  { intros. by apply map_Forall_insert_2. }
  destruct (entries ws !! key) as [w|] eqn:Ek.
  { simplify_eq. split_and!; eauto. intros. apply tracks_mono with (tk 0%nat); [lia|done]. }
  destruct (full ws).
  - destruct (_ <=? duration_since _ _).
    + destruct (instant_sub (tk 1%nat) (window_duration L)) as [c|] eqn:Ec; [|done]. simpl in Ha.
      apply instant_sub_Some in Ec.
      set (ws' := {| entries := _; last_cleanup := tk 2%nat |}) in Ha.
      assert (entries ws' !! key = None) as Ek'
        by (simpl; rewrite map_lookup_filter, Ek; done).
      assert (∀ key' acc, tracks key' (tk 0%nat) ws acc → tracks key' (tk 2%nat) ws' acc) as Ht.
      { intros key' acc Ht. apply tracks_mono with (tk 1%nat); [lia|].
        apply tracks_sweep; [done|]. apply tracks_mono with (tk 0%nat); [lia|done]. }
      assert (limits_ok ws → limits_ok ws') as Hl.
      { intros Hl k w Hw. simpl in Hw. apply map_lookup_filter_Some in Hw as [Hw _]. eauto. }
      destruct (full ws'); simplify_eq; split_and!; auto; intros; try done.
      * eapply tracks_ext; [by apply ts_of_insert_new|auto].
      * simpl. rewrite lookup_insert_eq. eauto.
    + simpl in Ha. destruct (full ws); simplify_eq; split_and!; auto; intros; try done.
      * apply tracks_mono with (tk 0%nat); [lia|done].
      * apply tracks_mono with (tk 0%nat); [lia|]. eapply tracks_ext; [by apply ts_of_insert_new|done].
      * simpl. rewrite lookup_insert_eq. eauto.
  - simplify_eq. split_and!; auto; intros.
    + apply tracks_mono with (tk 0%nat); [lia|]. eapply tracks_ext; [by apply ts_of_insert_new|done].
    + simpl. rewrite lookup_insert_eq. eauto.
Qed.

(** The window of an admitted key after [check]'s or [check_and_record]'s
    pruning, in terms of the accepted times. *)
Lemma tracks_after_prune key now ws acc w t :
  tracks key now ws acc → now ≤ t → entries ws !! key = Some w →
  retain (λ x : Z, t - window_duration L <? x) (timestamps w)
  = retain (λ x : Z, t - window_duration L <? x) acc.
Proof.
  intros (c & Hc & E) Ht Ew. unfold ts_of in E. rewrite Ew in E. rewrite E.
  apply retain_retain_le. lia.
Qed.

Lemma tracks_set key now ws acc w c :
  c ≤ now - window_duration L → timestamps w = retain (λ x : Z, c <? x) acc →
  tracks key now (set_window key w ws) acc.
Proof. intros Hc E. exists c. by rewrite ts_of_set_eq. Qed.

Lemma limits_ok_set key w ws :
  limits_ok ws → limit w = default_limit L → limits_ok (set_window key w ws).
Proof. intros Hl Hw. by apply map_Forall_insert_2. Qed.

(** A limiter in use, seen from one key: any interleaving of checks and
    checked requests of all keys, and of bare records and resets of the other
    keys.  [acc] collects the times at which the key's requests were
    accepted. *)
Definition ticks (now : Z) tk : Prop := now ≤ tk 0%nat ∧ ∀ i, tk i ≤ tk (S i).

Inductive served key : Z → Windows → list Z → Prop :=
| served_new t : served key t (new_windows t) []
| served_check now ws acc tk k ok ws' :
    served key now ws acc → ticks now tk → check tk k ws = Some (ok, ws') →
    served key (tk 5%nat) ws' acc
| served_request now ws acc tk k ok ws' :
    served key now ws acc → ticks now tk → check_and_record tk k ws = Some (ok, ws') →
    served key (tk 5%nat) ws' (acc ++ if (ok && ustr_eqb k key) then [tk 5%nat] else [])
| served_record now ws acc tk k ws' :
    served key now ws acc → ticks now tk → k ≠ key → record_key tk k ws = Some ws' →
    served key (tk 5%nat) ws' acc
| served_reset now ws acc k :
    served key now ws acc → k ≠ key → served key now (reset_key k ws) acc.

(** Requests accepted in the window that ends at [t]. *)
Definition accepted_in (t : Z) acc : list Z := in_window (window_duration L) t acc.

Definition served_inv key (now : Z) ws (acc : list Z) : Prop :=
  tracks key now ws acc ∧ limits_ok ws
  ∧ ∀ t, Z.of_nat (length (accepted_in t acc)) ≤ default_limit L.

Lemma ticks_le now tk : ticks now tk →
  now ≤ tk 0%nat ∧ tk 0%nat ≤ tk 1%nat ∧ tk 1%nat ≤ tk 2%nat ∧ tk 2%nat ≤ tk 3%nat
  ∧ tk 3%nat ≤ tk 4%nat ∧ tk 4%nat ≤ tk 5%nat.
Proof. intros [H0 Hs]. split; [done|]. split_and!; apply Hs. Qed.

(** Admission, for the invariant. *)
Lemma served_admit key now ws acc tk k ok ws1 :
  served_inv key now ws acc → ticks now tk → admit_key tk k ws = Some (ok, ws1) →
  tracks key (tk 2%nat) ws1 acc ∧ limits_ok ws1.
Proof.
  intros (Ht & Hl & _) Htk Ha. apply ticks_le in Htk as (?&?&?&?&?&?).
  destruct (admit_key_spec _ _ _ _ _ ltac:(eassumption) ltac:(eassumption) Ha) as (Hk1 & Hk2 & _).
  split; [|auto]. apply Hk1. eapply tracks_mono; [|done]. done.
Qed.

Lemma served_check_inv key now ws acc tk k ok ws' :
  served_inv key now ws acc → ticks now tk → check tk k ws = Some (ok, ws') →
  served_inv key (tk 5%nat) ws' acc.
Proof.
  intros Hi Htk Hc. unfold check in Hc.
  destruct (admit_key tk k ws) as [[ok1 ws1]|] eqn:Ea; [|done]. simpl in Hc.
  destruct (served_admit _ _ _ _ _ _ _ _ Hi Htk Ea) as [Ht Hl].
  destruct Hi as (_ & _ & Hn). apply ticks_le in Htk as (?&?&?&?&?&?).
  destruct ok1; simpl in Hc; simplify_eq.
  2: { split_and!; [eapply tracks_mono; [|done]; lia|done|done]. }
  destruct (entries ws1 !! k) as [w|] eqn:Ew; [|done]. simpl in Hc. unfold is_allowed in Hc.
  destruct (instant_sub _ _) as [c|] eqn:Ec; [|done]. simpl in Hc. simplify_eq.
  apply instant_sub_Some in Ec as ->. split_and!; [|by apply limits_ok_set; [|exact (Hl _ _ Ew)]|done].
  destruct (decide (key = k)) as [<-|Hne].
  - eapply tracks_set; [|simpl; by eapply tracks_after_prune; [done| |done]; lia]. lia.
  - eapply tracks_ext; [by apply ts_of_set_ne|]. eapply tracks_mono; [|done]. lia.
Qed.

Lemma served_record_inv key now ws acc tk k ws' :
  served_inv key now ws acc → ticks now tk → k ≠ key → record_key tk k ws = Some ws' →
  served_inv key (tk 5%nat) ws' acc.
Proof.
  intros Hi Htk Hne Hc. unfold record_key in Hc.
  destruct (admit_key tk k ws) as [[ok1 ws1]|] eqn:Ea; [|done]. simpl in Hc.
  destruct (served_admit _ _ _ _ _ _ _ _ Hi Htk Ea) as [Ht Hl].
  destruct Hi as (_ & _ & Hn). apply ticks_le in Htk as (?&?&?&?&?&?).
  destruct ok1; simpl in Hc; simplify_eq.
  2: { split_and!; [eapply tracks_mono; [|done]; lia|done|done]. }
  destruct (entries ws1 !! k) as [w|] eqn:Ew; [|done]. simpl in Hc. unfold record in Hc.
  destruct (instant_sub _ _) as [c|] eqn:Ec; [|done]. simpl in Hc. simplify_eq.
  split_and!; [|by apply limits_ok_set; [|exact (Hl _ _ Ew)]|done].
  eapply tracks_ext; [by apply ts_of_set_ne|]. eapply tracks_mono; [|done]. lia.
Qed.

Lemma served_request_inv key now ws acc tk k ok ws' :
  0 ≤ default_limit L → 0 < window_duration L →
  served_inv key now ws acc → ticks now tk → check_and_record tk k ws = Some (ok, ws') →
  served_inv key (tk 5%nat) ws' (acc ++ if (ok && ustr_eqb k key) then [tk 5%nat] else []).
Proof.
  intros H0 HW Hi Htk Hc. unfold check_and_record in Hc.
  destruct (admit_key tk k ws) as [[ok1 ws1]|] eqn:Ea; [|done]. simpl in Hc.
  destruct (served_admit _ _ _ _ _ _ _ _ Hi Htk Ea) as [Ht Hl].
  destruct Hi as (_ & _ & Hn). apply ticks_le in Htk as (?&?&?&?&?&?).
  destruct ok1; simpl in Hc; simplify_eq.
  2: { simpl. rewrite app_nil_r. split_and!; [eapply tracks_mono; [|done]; lia|done|done]. }
  destruct (entries ws1 !! k) as [w|] eqn:Ew; [|done]. simpl in Hc. unfold is_allowed, record in Hc.
  destruct (instant_sub (tk 3%nat) _) as [c|] eqn:Ec; [|done]. simpl in Hc.
  apply instant_sub_Some in Ec as ->.
  pose proof (Hl _ _ Ew : limit w = default_limit L) as Hlim.
  destruct (_ <? limit w) eqn:Eal.
  - destruct (instant_sub (tk 4%nat) _) as [c|] eqn:Ec; [|done]. simpl in Hc. simplify_eq.
    apply instant_sub_Some in Ec as ->. simpl. reflect_bools.
    destruct (decide (k = key)) as [->|Hne].
    + rewrite ustr_eqb_refl. simpl in Eal.
      rewrite (tracks_after_prune _ _ _ _ _ (tk 3%nat) Ht ltac:(lia) Ew) in Eal.
      split_and!; [|by apply limits_ok_set|].
      * apply tracks_set with (c := tk 4%nat - window_duration L); [lia|]. simpl.
        rewrite retain_retain_le by lia. rewrite (tracks_after_prune _ _ _ _ _ (tk 4%nat) Ht ltac:(lia) Ew).
        rewrite List.filter_app. simpl.
        by rewrite (proj2 (Z.ltb_lt _ _)) by lia.
      * apply (in_window_snoc _ _ (tk 3%nat)); [done|lia|done|]. by rewrite <- Hlim.
    + assert (ustr_eqb k key = false) as -> by by apply bool_decide_eq_false_2.
      rewrite app_nil_r. split_and!; [|by apply limits_ok_set|done].
      eapply tracks_ext; [by apply ts_of_set_ne|]. eapply tracks_mono; [|done]. lia.
  - simplify_eq. simpl. rewrite app_nil_r. split_and!; [|by apply limits_ok_set|done].
    destruct (decide (key = k)) as [<-|Hne].
    + eapply tracks_set; [|simpl; by eapply tracks_after_prune; [done| |done]; lia]. lia.
    + eapply tracks_ext; [by apply ts_of_set_ne|]. eapply tracks_mono; [|done]. lia.
Qed.

Lemma served_invariant key now ws acc :
  0 ≤ default_limit L → 0 < window_duration L →
  served key now ws acc → served_inv key now ws acc.
Proof.
  intros H0 HW Hs. induction Hs.
  - split_and!; [|by apply map_Forall_empty|done].
    exists (t - window_duration L). done.
  - by eapply served_check_inv.
  - by eapply served_request_inv.
  - by eapply served_record_inv.
  - destruct IHHs as (Ht & Hl & Hn). split_and!; [| |done].
    + eapply tracks_ext; [|done]. unfold ts_of. simpl. by rewrite lookup_delete_ne.
    + by apply map_Forall_delete.
Qed.

(** However checks, requests, records and resets of all keys interleave,
    and whatever the capacity sweeps evict meanwhile, the requests of one key
    that [check_and_record] accepted within any window of the configured
    length number at most the limit. *)
Theorem limit_respected key now ws acc t :
  0 ≤ default_limit L → 0 < window_duration L → served key now ws acc →
  Z.of_nat (length (accepted_in t acc)) ≤ default_limit L.
Proof. intros H0 HW Hs. by apply (served_invariant _ _ _ _ H0 HW Hs). Qed.

(** No request is refused that fits: an admitted key's request is accepted
    exactly when fewer than [limit] of its requests were accepted within the
    window that ends now. *)
Theorem request_exact key now ws acc tk ok ws' :
  0 ≤ default_limit L → 0 < window_duration L → served key now ws acc → ticks now tk →
  full ws = false ∨ is_Some (entries ws !! key) →
  check_and_record tk key ws = Some (ok, ws') →
  ok = (Z.of_nat (length (retain (λ x : Z, tk 3%nat - window_duration L <? x) acc))
        <? default_limit L).
Proof.
  intros H0 HW Hs Htk Hadm Hc. pose proof (served_invariant _ _ _ _ H0 HW Hs) as Hi.
  assert (∃ ws1, admit_key tk key ws = Some (true, ws1)) as [ws1 Ea].
  { unfold admit_key. destruct (entries ws !! key) eqn:E; [by eauto|].
    destruct Hadm as [->|[? ?]]; [by eauto|done]. }
  destruct (served_admit _ _ _ _ _ _ _ _ Hi Htk Ea) as [Ht Hl].
  apply ticks_le in Htk as (?&?&?&?&?&?).
  unfold check_and_record in Hc. rewrite Ea in Hc. simpl in Hc.
  destruct (entries ws1 !! key) as [w|] eqn:Ew; [|done]. simpl in Hc. unfold is_allowed in Hc.
  destruct (instant_sub (tk 3%nat) _) as [c|] eqn:Ec; [|done]. simpl in Hc.
  apply instant_sub_Some in Ec as ->.
  rewrite (tracks_after_prune _ _ _ _ _ (tk 3%nat) Ht ltac:(lia) Ew) in Hc.
  rewrite (Hl _ _ Ew : limit w = default_limit L) in Hc.
  destruct (_ <? default_limit L); [|by simplify_eq].
  destruct (record _ _ _); simpl in Hc; by simplify_eq.
Qed.

(** The number of keys, through each operation. *)
Definition capped ws : Prop := Z.of_nat (size (entries ws)) ≤ Z.max 0 (max_keys L).

Lemma capped_insert_new key ws : full ws = false → capped ws → capped (insert_new key ws).
Proof.
  unfold full, capped. intros Hf Hc. reflect_bools. simpl.
  destruct (entries ws !! key) eqn:E.
  - rewrite map_size_insert_Some by eauto. lia.
  - rewrite map_size_insert_None by done. lia.
Qed.

Lemma capped_admit tk key ws ok ws1 :
  capped ws → admit_key tk key ws = Some (ok, ws1) → capped ws1.
Proof.
  intros Hc Ha. unfold admit_key in Ha.
  destruct (entries ws !! key); simplify_eq; [done|].
  destruct (full ws) eqn:Ef.
  - set (swept := if _ <=? _ then _ else _) in Ha.
    assert (∀ ws', swept = Some ws' → capped ws') as Hs.
    { unfold swept. intros ws' E. destruct (_ <=? _); simplify_eq; [|done].
      destruct (instant_sub _ _); [|done]. simpl in E. simplify_eq. unfold capped in *. simpl.
      pose proof (map_size_filter (λ p : ustr * SlidingWindow, has_recent z p.2 = true) (entries ws)).
      lia. }
    destruct swept as [ws'|]; [|done]. simpl in Ha. specialize (Hs _ eq_refl).
    destruct (full ws') eqn:Ef'; simplify_eq; [done|]. by apply capped_insert_new.
  - simplify_eq. by apply capped_insert_new.
Qed.

Lemma capped_set key w ws : is_Some (entries ws !! key) → capped ws → capped (set_window key w ws).
Proof. unfold capped. intros [w0 E] Hc. simpl. rewrite map_size_insert_Some by eauto. done. Qed.

(** Whatever keys callers present, a limiter never holds more than
    [max_keys] windows: at capacity a new key is refused unless the sweep
    freed a slot. *)
Theorem keys_bounded ws tk key :
  capped ws →
  (∀ ok ws', check tk key ws = Some (ok, ws') → capped ws')
  ∧ (∀ ok ws', check_and_record tk key ws = Some (ok, ws') → capped ws')
  ∧ (∀ ws', record_key tk key ws = Some ws' → capped ws')
  ∧ capped (reset_key key ws).
Proof.
  intros Hc. split_and!.
  4: { unfold capped in *. simpl. rewrite map_size_delete. destruct (entries ws !! key); simpl; lia. }
  all: unfold check, check_and_record, record_key; intros *;
    destruct (admit_key tk key ws) as [[[] ws1]|] eqn:Ea; simpl; [| |done];
    pose proof (capped_admit _ _ _ _ _ Hc Ea); [|intros; by simplify_eq].
  all: destruct (entries ws1 !! key) as [w|] eqn:Ew; simpl; [|done];
    intros; unfold mbind, option_bind in *; case_code; apply capped_set; eauto.
Qed.

Lemma admit_key_window tk key ws ws1 :
  admit_key tk key ws = Some (true, ws1) →
  default [] (timestamps <$> entries ws1 !! key) = ts_of key ws.
Proof.
  unfold admit_key, ts_of. destruct (entries ws !! key) as [w|] eqn:E; [intros; simplify_eq; by rewrite E|].
  assert (∀ ws', default [] (timestamps <$> entries (insert_new key ws') !! key) = []) as Hi
    by (intros; simpl; by rewrite lookup_insert_eq).
  destruct (full ws); [|intros; by simplify_eq].
  destruct (if _ <=? _ then _ else _) as [ws'|]; simpl; [|done].
  destruct (full ws'); intros; by simplify_eq.
Qed.

Lemma admit_key_refused tk key ws ws1 :
  admit_key tk key ws = Some (false, ws1) → entries ws1 !! key = None.
Proof.
  unfold admit_key. destruct (entries ws !! key) as [w|] eqn:E; [done|].
  destruct (full ws); [|done].
  destruct (_ <=? _); simpl; [destruct (instant_sub _ _); simpl; [|done]|];
    destruct (full _); intros; simplify_eq; [|done].
  simpl. by rewrite map_lookup_filter, E.
Qed.

(** [check] alone never consumes capacity: it records no timestamp, and
    answers exactly whether a [check_and_record] with the same readings would
    have been accepted. *)
Theorem check_agrees tk key ws ok ws' :
  check tk key ws = Some (ok, ws') →
  sublist (ts_of key ws') (ts_of key ws)
  ∧ (∀ ok2 ws2, check_and_record tk key ws = Some (ok2, ws2) → ok2 = ok).
Proof.
  unfold check, check_and_record.
  destruct (admit_key tk key ws) as [[[] ws1]|] eqn:Ea; simpl; [|intros; simplify_eq|done].
  - destruct (entries ws1 !! key) as [w|] eqn:Ew; simpl; [|done]. unfold is_allowed.
    destruct (instant_sub _ _) as [c|]; simpl; [|done]. intros E. simplify_eq. split.
    + rewrite ts_of_set_eq. simpl. apply admit_key_window in Ea. rewrite Ew in Ea.
      simpl in Ea. rewrite <- Ea. apply sublist_retain.
    + intros ok2 ws2 E. destruct (_ <? _); [|by simplify_eq].
      destruct (record _ _ _); simpl in E; by simplify_eq.
  - split; [|by intros; simplify_eq]. apply admit_key_refused in Ea. unfold ts_of at 1.
    rewrite Ea. apply sublist_nil_l.
Qed.
End limiter.

(** ** Witnesses *)

Definition demo : RateLimiter := with_max_keys 1 (secs 60) 1.
Definition at_ (t : Z) : nat → Z := λ i, t + Z.of_nat i.

Lemma at_ticks now t : now ≤ t → ticks now (at_ t).
Proof. intros Hle. unfold at_. split; [lia|]. intros i. lia. Qed.

Definition after_one : option Windows :=
  snd <$> @check_and_record colliding_platform demo (at_ (secs 100)) (u "alice") (new_windows (secs 90)).
Definition demo_ws : Windows := default (new_windows 0) after_one.

Lemma demo_served :
  @served colliding_platform demo (u "alice") (secs 100 + 5) demo_ws [secs 100 + 5].
Proof.
  apply (@served_request colliding_platform demo (u "alice") (secs 90) (new_windows (secs 90)) []
           (at_ (secs 100)) (u "alice") true demo_ws); [constructor|by apply at_ticks|by_eval].
Qed.

Lemma limit_respected_witness :
  Z.of_nat (length (accepted_in demo (secs 101) [secs 100 + 5])) ≤ 1.
Proof.
  apply (@limit_respected colliding_platform demo (u "alice") (secs 100 + 5) demo_ws _ (secs 101));
    [by_eval|by_eval|apply demo_served].
Defined.

Lemma request_exact_witness :
  fst <$> @check_and_record colliding_platform demo (at_ (secs 130)) (u "alice") demo_ws = Some false
  ∧ (false = (1 <? 1)).
Proof.
  split; [by_eval|].
  apply (@request_exact colliding_platform demo (u "alice") (secs 100 + 5) demo_ws [secs 100 + 5]
           (at_ (secs 130)) false
           (default demo_ws (snd <$> @check_and_record colliding_platform demo (at_ (secs 130)) (u "alice") demo_ws)));
    [by_eval|by_eval|apply demo_served|by apply at_ticks|right; vm_compute; eauto|by_eval].
Defined.

Lemma keys_bounded_witness : capped demo (reset_key (u "bob") demo_ws).
Proof. apply (@keys_bounded colliding_platform demo demo_ws (at_ (secs 130)) (u "bob")). by_eval. Defined.

Lemma check_agrees_witness :
  sublist (ts_of (u "alice") (default demo_ws
    (snd <$> @check colliding_platform demo (at_ (secs 130)) (u "alice") demo_ws)))
    (ts_of (u "alice") demo_ws).
Proof.
  apply (@check_agrees colliding_platform demo (at_ (secs 130)) (u "alice") demo_ws false).
  by_eval.
Defined.

(** In the first window after an earliest instant, [Instant::now() - window]
    panics: a first request ten seconds after it. *)
Lemma early_request_panics :
  @check_and_record colliding_platform demo (at_ (secs 10)) (u "alice") (new_windows 0) = None.
Proof. by_eval. Qed.
