(* ===== verification/BreakerWait.v ===== *)
(** * Waiting for room in the reply window (gateway channel_reply/breaker_wait.rs)

    The loop that holds a message while the breaker answers [Wait].  Between
    two steps of the loop other tasks use the registry: [others i] is what
    they did to it before the loop's [i]-th access, and [clock i], [clock_trip i]
    are the readings of that access.  No result means that a check panicked
    ([oldest + window] past the latest instant) or that the fuel ran out. *)

From S2P Require Import Prelude Float64 Platform Killswitch CircuitBreaker.

(** [MAX_TOTAL_WAIT]. *)
Definition MAX_TOTAL_WAIT : Z := secs 30.

Inductive Admission :=
| Decision (d : BreakerDecision)
| Refused (notify : bool).

Inductive Lang := ZhTw | En | Ja.

(** [refused_text]. *)
Definition refused_text (lang : Lang) : ustr :=
  match lang with
  | ZhTw => u "訊息太多了，這則先不處理。請等一分鐘後再傳一次。"
  | En => u "Too many messages at once, so this one was not handled. Please send it again in a minute."
  | Ja => u "メッセージが多すぎるため、このメッセージは処理しませんでした。1 分ほどしてからもう一度送ってください。"
  end.

(** [current_sender]: the task-local sender, a person outside [as_sender]. *)
Definition current_sender (task_local : option SenderKind) : SenderKind :=
  default Person task_local.

(** What surrounds one run of the loop. *)
Record schedule := {
  others : nat → breakers → breakers;
  clock : nat → Z;
  clock_trip : nat → Z;
}.

Section waiting.
Context `{Platform} (config : CircuitBreakerConfig) (S : schedule).
Implicit Types (scope text : ustr) (m : breakers).

(** The [loop] of [check_inbound_waiting_at_most], from its [i]-th access on.
    The result carries the time spent asleep. *)
Fixpoint wait_loop (fuel : nat) scope text (sender : SenderKind) (cap : Z)
    (i : nat) (waited : Z) m : option (Admission * Z * breakers) :=
  match fuel with
  | O => None
  | Datatypes.S fuel' =>
      let '(decision, m1) :=
        registry_check_inbound_as config scope text sender (clock S i) (clock_trip S i)
          (others S i m) in
      match decision with
      | None => None
      | Some (Wait wait) =>
          if cap <=? waited then
            let '(notify, m2) :=
              registry_record_refused config scope text (clock S (i + 1))
                (others S (i + 1) m1) in
            Some (Refused notify, waited, m2)
          else
            let step := Z.min wait (cap - waited) in
            wait_loop fuel' scope text sender cap (i + 1) (waited + step) m1
      | Some decision => Some (Decision decision, waited, m1)
      end
  end.

Definition check_inbound_waiting_at_most (fuel : nat) scope text (task_local : option SenderKind)
    (cap : Z) m : option (Admission * Z * breakers) :=
  wait_loop fuel scope text (current_sender task_local) cap 0 0 m.

Definition check_inbound_waiting (fuel : nat) scope text (task_local : option SenderKind) m
    : option (Admission * Z * breakers) :=
  check_inbound_waiting_at_most fuel scope text task_local MAX_TOTAL_WAIT m.

(** Iterations the loop can need: one per 10 ms of the cap, and the last. *)
Definition wait_fuel (cap : Z) : nat := Z.to_nat (cap / millis 10 + 3).

(** ** Lemmas *)

Definition is_wait (d : BreakerDecision) : bool := match d with Wait _ => true | _ => false end.

(** A [Wait] comes out of [frequency_wait], for a person, and leaves the
    breaker closed. *)
Lemma check_closed_waits text sender now t_trip b w b' :
  state b = Closed →
  check_closed config text sender now t_trip b = (Some (Wait w), b') →
  sender = Person ∧ state b' = Closed
  ∧ ∃ b1, frequency_wait config now b1 = (Some (Some w), b')
          ∧ inbound_timestamps b1 = inbound_timestamps b.
Proof.
  intros Hs Hc. unfold check_closed in Hc. destruct (is_echo text b); [done|].
  destruct (hard_limit_reached config now b) as [[r|] b1] eqn:E1; [done|].
  destruct (frequency_wait config now b1) as [[[w'|]|] b2] eqn:E2; [|by case_code|done].
  destruct sender; [|done]. simplify_eq. split; [done|].
  assert (state b1 = Closed ∧ inbound_timestamps b1 = inbound_timestamps b) as [Hs1 Hi1].
  { unfold hard_limit_reached in E1. destruct (_ <=? _)%nat; by simplify_eq/=. }
  split; [|by eauto].
  unfold frequency_wait in E2. destruct (_ <? _)%nat; [done|].
  destruct (_ !! _); [|done]. destruct (instant_add _ _); by simplify_eq.
Qed.

Lemma check_inbound_waits text sender now t_trip b w b' :
  check_inbound_as config text sender now t_trip b = (Some (Wait w), b') →
  sender = Person ∧ state b' = Closed
  ∧ ∃ b1, frequency_wait config now b1 = (Some (Some w), b')
          ∧ (inbound_timestamps b1 = inbound_timestamps b ∨ inbound_timestamps b1 = []).
Proof.
  unfold check_inbound_as, check_half_open. intros Hc.
  assert (∀ b0, state b0 = Closed →
    (inbound_timestamps b0 = inbound_timestamps b ∨ inbound_timestamps b0 = []) →
    check_closed config text sender now t_trip b0 = (Some (Wait w), b') →
    sender = Person ∧ state b' = Closed
    ∧ ∃ b1, frequency_wait config now b1 = (Some (Some w), b')
            ∧ (inbound_timestamps b1 = inbound_timestamps b ∨ inbound_timestamps b1 = [])) as Hcl.
  { intros b0 Hb0 Hi Hc0. apply check_closed_waits in Hc0 as (? & ? & b1 & ? & Hi1); [|done].
    split_and!; [done..|]. exists b1. rewrite Hi1. auto. }
  destruct (state b) eqn:Es; [by eauto| |]; case_code;
    (eapply Hcl; [| |eassumption]); simpl; auto.
Qed.

Lemma frequency_wait_min now b w b' :
  frequency_wait config now b = (Some (Some w), b') → millis 10 ≤ w.
Proof.
  unfold frequency_wait. destruct (_ <? _)%nat; [done|]. destruct (_ !! _); [|done].
  destruct (instant_add _ _); [|done].
  intros. simplify_eq. lia.
Qed.

Lemma wait_step scope text sender i m w m1 :
  registry_check_inbound_as config scope text sender (clock S i) (clock_trip S i) m = (Some (Wait w), m1) →
  sender = Person ∧ millis 10 ≤ w.
Proof.
  unfold registry_check_inbound_as. destruct (check_inbound_as _ _ _ _ _ _) as [d b'] eqn:E.
  intros. simplify_eq. apply check_inbound_waits in E as (-> & _ & b1 & Hw & _).
  eauto using frequency_wait_min.
Qed.

(** What keeps the loop from panicking: every breaker it can meet has room
    for the window.  The loop itself records nothing before it returns. *)
Definition registry_fits m : Prop := map_Forall (λ _, window_fits config) m.
Definition others_fit : Prop := ∀ i m, registry_fits m → registry_fits (others S i m).

Lemma check_inbound_keeps_window text sender now t_trip b w b' :
  window_fits config b →
  check_inbound_as config text sender now t_trip b = (Some (Wait w), b') → window_fits config b'.
Proof.
  intros Hb Hc. apply check_inbound_waits in Hc as (_ & _ & b1 & Hf & Hi).
  pose proof (frequency_wait_keeps_window config now b1) as Hk. rewrite Hf in Hk. apply Hk.
  unfold window_fits. destruct Hi as [->| ->]; [exact Hb|constructor].
Qed.

Lemma get_or_new_fits scope m : registry_fits m → window_fits config (get_or_new scope m).
Proof.
  intros Hm. unfold get_or_new. destruct (m !! scope) eqn:E; [by apply (Hm _ _ E)|constructor].
Qed.

Lemma registry_check_answers scope text sender i m :
  registry_fits m →
  ∃ d m1, registry_check_inbound_as config scope text sender (clock S i) (clock_trip S i) m
            = (Some d, m1)
          ∧ (is_wait d = true → registry_fits m1).
Proof.
  intros Hm. unfold registry_check_inbound_as. pose proof (get_or_new_fits scope m Hm) as Hb.
  destruct (check_inbound_answers config text sender (clock S i) (clock_trip S i) _ Hb) as [d Hd].
  destruct (check_inbound_as _ _ _ _ _ _) as [? b'] eqn:E. simpl in Hd. subst.
  do 2 eexists. split; [done|]. destruct d; try done. intros _.
  apply map_Forall_insert_2; [|done]. by eapply check_inbound_keeps_window.
Qed.

Lemma wait_loop_terminates scope text sender cap fuel : ∀ i waited m,
  others_fit → registry_fits m →
  waited ≤ cap → cap - waited < Z.of_nat fuel * millis 10 - millis 10 →
  is_Some (wait_loop fuel scope text sender cap i waited m).
Proof.
  induction fuel as [|fuel IH]; intros i waited m Ho Hm Hw Hf; [unfold millis in *; lia|].
  cbn [wait_loop].
  destruct (registry_check_answers scope text sender i (others S i m)) as (d & m1 & E & Hm1); [auto|].
  rewrite E.
  destruct d; try by eauto. specialize (Hm1 eq_refl).
  destruct (cap <=? waited) eqn:Ec; [destruct (registry_record_refused _ _ _ _ _); by eauto|].
  apply wait_step in E as [_ Hmin]. reflect_bools.
  destruct (decide (d ≤ cap - waited)).
  - apply IH; auto; unfold millis in *; lia.
  - destruct fuel as [|fuel]; [unfold millis in *; lia|].
    rewrite Z.min_r by lia. replace (waited + (cap - waited)) with cap by lia. cbn [wait_loop].
    destruct (registry_check_answers scope text sender (i + 1) (others S (i + 1) m1))
      as (d' & m2 & -> & _); [auto|].
    destruct d'; try by eauto. rewrite Z.leb_refl.
    destruct (registry_record_refused _ _ _ _ _); by eauto.
Qed.

(** What a returned result is, given that the loop has slept [waited]. *)
Definition admission_ok (sender : SenderKind) (cap total : Z) (a : Admission) : Prop :=
  match a with
  | Decision d => is_wait d = false ∧ 0 ≤ total ≤ cap
  | Refused _ => total = cap ∧ sender = Person
  end.

Lemma wait_loop_sound scope text sender cap fuel : ∀ i waited m a total m',
  0 ≤ waited ≤ cap →
  wait_loop fuel scope text sender cap i waited m = Some (a, total, m') →
  admission_ok sender cap total a.
Proof.
  induction fuel as [|fuel IH]; intros i waited m a total m' Hw Hl; [done|]. cbn [wait_loop] in Hl.
  destruct (registry_check_inbound_as _ _ _ _ _ _ _) as [[d|] m1] eqn:E; [|done].
  destruct d; simplify_eq; try (split; [done|lia]).
  apply wait_step in E as [-> Hmin]. unfold millis in Hmin.
  destruct (cap <=? waited) eqn:Ec; reflect_bools.
  - destruct (registry_record_refused _ _ _ _ _). simplify_eq. split; [lia|done].
  - eapply IH; [|done]. lia.
Qed.

Lemma wait_fuel_enough cap : 0 ≤ cap → cap - 0 < Z.of_nat (wait_fuel cap) * millis 10 - millis 10.
Proof.
  intros Hc. unfold wait_fuel. rewrite Z2Nat.id.
  - change (millis 10) with 10000000. pose proof (Z.mod_pos_bound cap 10000000 ltac:(lia)).
    pose proof (Z.div_mod cap 10000000 ltac:(lia)). lia.
  - assert (0 ≤ cap / millis 10) by (apply Z.div_pos; unfold millis; lia). lia.
Qed.

(** Whatever the other tasks do to the registry between the loop's accesses
    (as long as the window still fits the clock) and whatever the clock reads,
    holding a message ends: the loop returns
    within 10 ms steps of its cap, having slept at most the cap; a decision it
    returns is never [Wait], and it refuses only a person, and only after
    sleeping exactly the cap. *)
Theorem check_inbound_waiting_total scope text task_local cap m :
  others_fit → registry_fits m → 0 ≤ cap →
  ∃ a total m',
    check_inbound_waiting_at_most (wait_fuel cap) scope text task_local cap m = Some (a, total, m')
    ∧ admission_ok (current_sender task_local) cap total a.
Proof.
  intros Ho Hm Hc.
  destruct (wait_loop_terminates scope text (current_sender task_local) cap (wait_fuel cap) 0 0 m)
    as [[[a total] m'] E]; [done..|lia|by apply wait_fuel_enough|].
  exists a, total, m'. split; [done|]. eapply wait_loop_sound; [|done]. lia.
Qed.

(** More fuel changes nothing. *)
Lemma wait_loop_mono fuel scope text sender cap : ∀ i waited m r k,
  wait_loop fuel scope text sender cap i waited m = Some r →
  wait_loop (fuel + k) scope text sender cap i waited m = Some r.
Proof.
  induction fuel as [|fuel IH]; intros i waited m r k Hl; [done|].
  cbn [wait_loop Nat.add] in *.
  destruct (registry_check_inbound_as _ _ _ _ _ _ _) as [[d|] m1]; [|done].
  destruct d; try done. destruct (cap <=? waited); [done|]. by apply IH.
Qed.

(** Alone in its scope, a held message is answered: if nothing else uses the
    registry, the sleep lasts at least as long as asked, and the breaker's
    window fits the cap, the loop returns the breaker's decision (never a
    refusal) after at most one sleep. *)
Theorem quiet_message_decided scope text task_local cap m fuel :
  (∀ i m', others S i m' = m') →
  (∀ w m1,
    registry_check_inbound_as config scope text (current_sender task_local)
      (clock S 0) (clock_trip S 0) m = (Some (Wait w), m1) →
    clock S 0 + Z.min w cap ≤ clock S 1) →
  map_Forall (λ _ b, breaker_wf config (clock S 0) b) m →
  clock S 0 + secs (frequency_window_secs config) ≤ instant_max →
  0 ≤ frequency_window_secs config →
  Z.max (millis 10) (secs (frequency_window_secs config)) ≤ cap →
  ∃ d total m',
    check_inbound_waiting_at_most (2 + fuel) scope text task_local cap m
    = Some (Decision d, total, m') ∧ is_wait d = false.
Proof.
  intros Hq Hsleep Hm Hmax Hwin Hcap. unfold check_inbound_waiting_at_most. cbn [wait_loop Nat.add].
  rewrite Hq. set (sender := current_sender task_local) in *.
  assert (registry_fits m) as Hfit.
  { intros k b Hk. by eapply window_fits_wf, Hmax; apply (Hm k). }
  destruct (registry_check_answers scope text sender 0 m Hfit) as (d & m1 & E & Hm1). rewrite E.
  destruct d as [| |w| |]; try by eauto 10.
  specialize (Hsleep _ _ E). specialize (Hm1 eq_refl). rewrite Hq.
  destruct (registry_check_answers scope text sender 1 m1 Hm1) as (d2 & m2 & E2 & _).
  unfold registry_check_inbound_as in E.
  destruct (check_inbound_as _ _ _ _ _ (get_or_new scope m)) as [d b'] eqn:Ec. simplify_eq.
  change (0 + 1)%nat with 1%nat.
  assert (breaker_wf config (clock S 0) (get_or_new scope m)) as Hb.
  { unfold get_or_new. destruct (m !! scope) eqn:Em; [by apply (Hm _ _ Em)|apply new_wf]. }
  apply check_inbound_waits in Ec as (-> & Hs & b1 & Hf & Hi).
  assert (timestamps_wf (clock S 0) (inbound_timestamps b1)) as Ht.
  { destruct Hb, Hi as [->| ->]; [done|apply timestamps_wf_nil]. }
  destruct (wait_is_enough_ts config (clock S 0) (clock S 0 + w) w b1 b') as [_ Hw];
    [done|done|done|lia|].
  rewrite Z.min_l in Hsleep by lia.
  destruct (wait_is_enough_ts config (clock S 0) (clock S 1) w b1 b') as [Hnone _]; [done..|].
  destruct (cap <=? 0) eqn:E0; reflect_bools; [unfold millis in *; lia|]. rewrite Z.sub_0_r, Z.min_l by lia.
  rewrite E2. destruct d2; try by eauto 10. exfalso.
  unfold registry_check_inbound_as, get_or_new in E2. rewrite lookup_insert_eq in E2.
  unfold check_inbound_as in E2. rewrite Hs in E2.
  destruct (check_closed config text Person (clock S 1) (clock_trip S 1) b') as [d2 b2] eqn:Ec2.
  simplify_eq.
  apply check_closed_waits in Ec2 as (_ & _ & b3 & Hf3 & Hi3); [|done].
  apply (f_equal fst) in Hf3. rewrite (frequency_wait_ext _ _ _ _ Hi3), Hnone in Hf3. done.
Qed.
End waiting.

(** ** Witnesses *)

(** A registry whose breaker answers [Wait], and a schedule where only this
    loop runs. *)
Definition quiet : schedule :=
  {| others := λ _ m, m; clock := λ i, secs (4 + 10 * Z.of_nat i);
     clock_trip := λ i, secs (4 + 10 * Z.of_nat i) |}.
Definition busy_registry : breakers := {[ u "line:U1" := busy_breaker ]}.

Lemma busy_registry_fits : @registry_fits colliding_platform busy_config busy_registry.
Proof.
  apply map_Forall_singleton, (window_fits_wf busy_config (secs 4)); [apply busy_breaker_wf|].
  apply Z.leb_le. vm_compute. reflexivity.
Qed.

(** A window near the largest integer KILLSWITCH.toml can hold makes the
    second message of a conversation panic inside the check. *)
Definition huge_window : CircuitBreakerConfig := {|
  frequency_window_secs := 2 ^ 63 - 1; frequency_max_replies := 1;
  similarity_threshold := f64_lit 95 100; token_explosion_multiplier := f64_of_Z 3;
  cooldown_secs := 60; half_open_allow_count := 2; hard_window_secs := 60;
  hard_max_messages := 30 |}.

Lemma huge_window_panics scope :
  let m := {[ scope := (@run_event colliding_platform huge_window
                          (Check (u "hi") Person (secs 1) (secs 1)) new) ]} in
  @check_inbound_waiting colliding_platform huge_window quiet (wait_fuel MAX_TOTAL_WAIT)
    scope (u "hello") None m = None.
Proof.
  intros m. unfold check_inbound_waiting, check_inbound_waiting_at_most.
  replace (wait_fuel MAX_TOTAL_WAIT) with (Datatypes.S (pred (wait_fuel MAX_TOTAL_WAIT)))
    by (vm_compute; reflexivity).
  cbn [wait_loop]. unfold registry_check_inbound_as, get_or_new, m. simpl (others _ _ _).
  rewrite lookup_singleton_eq.
  destruct (check_inbound_as _ _ _ _ _ _) as [d b] eqn:E.
  apply (f_equal fst) in E. vm_compute in E. by subst d.
Qed.

Lemma check_inbound_waiting_total_witness :
  ∃ a total m',
    @check_inbound_waiting_at_most colliding_platform busy_config quiet (wait_fuel (secs 3))
      (u "line:U1") (u "hello") (Some Person) (secs 3) busy_registry = Some (a, total, m')
    ∧ admission_ok Person (secs 3) total a.
Proof.
  apply (@check_inbound_waiting_total colliding_platform busy_config quiet
    (u "line:U1") (u "hello") (Some Person) (secs 3) busy_registry).
  - by intros i m Hm.
  - apply busy_registry_fits.
  - by_eval.
Defined.

Lemma quiet_message_decided_witness :
  ∃ d total m',
    @check_inbound_waiting_at_most colliding_platform busy_config quiet 2
      (u "line:U1") (u "hello") (Some Person) (secs 10) busy_registry = Some (Decision d, total, m')
    ∧ is_wait d = false.
Proof.
  apply (@quiet_message_decided colliding_platform busy_config quiet
    (u "line:U1") (u "hello") (Some Person) (secs 10) busy_registry 0).
  - done.
  - intros w m1 E. apply (f_equal fst) in E. simpl (_.1) in E at 2.
    assert (w = secs 7) as -> by (vm_compute in E; vm_compute; congruence). by_eval.
  - apply map_Forall_singleton, busy_breaker_wf.
  - by_eval.
  - done.
  - by_eval.
Defined.
