(* ===== verification/Triggers.v ===== *)
(** * KILLSWITCH.toml [triggers] on the reply path (gateway killswitch_triggers.rs)

    Per-scope reply rate and error counters with LRU eviction, the monitor
    with its mtime-cached configuration and its cached 24 h spend, and the two
    hooks the reply path calls. *)

From stdpp Require Import sorting.
From S2P Require Import Prelude Float64 Platform Toml Failsafe.

Definition ERROR_WINDOW : nat := 20.
Definition MIN_RATE_SAMPLES : nat := 10.
Definition RATE_WINDOW : Z := secs 60.
Definition COST_CACHE_TTL : Z := secs 60.
Definition MAX_SCOPES : Z := 10000.

(** ** The enforced thresholds *)

Record EnforcedTriggers := {
  max_replies_per_minute : option Z;
  max_consecutive_errors : option Z;
  error_rate_threshold : option f64;
  cost_limit_usd : option f64;
}.

Definition no_triggers : EnforcedTriggers :=
  {| max_replies_per_minute := None; max_consecutive_errors := None;
     error_rate_threshold := None; cost_limit_usd := None |}.

Definition filter_opt {A} (p : A → bool) (o : option A) : option A :=
  match o with Some x => if p x then Some x else None | None => None end.

Definition in_range (lo hi v : Z) : bool := (lo <=? v) && (v <=? hi).

Section config.
Context `{Toml}.

(** [EnforcedTriggers::from_table]. *)
Definition from_table (table : toml_table) : EnforcedTriggers :=
  match toml_get table (u "triggers") ≫= as_table with
  | None => no_triggers
  | Some t =>
      let int k := toml_get t (u k) ≫= as_integer in
      let num k :=
        v ← toml_get t (u k);
        match as_float v with
        | Some f => Some f
        | None => f64_of_Z <$> as_integer v
        end in
      {| max_replies_per_minute :=
           as_u32 <$> filter_opt (in_range 1 10000) (int "max_replies_per_minute"%string);
         max_consecutive_errors :=
           as_u32 <$> filter_opt (in_range 1 1000) (int "max_consecutive_errors"%string);
         error_rate_threshold :=
           filter_opt (λ v, f64_is_finite v && (f64_leb (f64_of_Z 0) v && f64_leb v (f64_of_Z 1)))
             (num "error_rate_threshold"%string);
         cost_limit_usd :=
           filter_opt (λ v, f64_is_finite v && f64_gtb v (f64_of_Z 0))
             (num "cost_limit_usd"%string) |}
  end.

(** [EnforcedTriggers::load], given what reading the file returns. *)
Definition load (content : option ustr) : EnforcedTriggers :=
  match content ≫= toml_parse with Some t => from_table t | None => no_triggers end.
End config.

(** ** The counters *)

Inductive OutcomeVerdict :=
| VOk
| Escalate (reason : ustr).

Record ScopeState := {
  last_used : Z;
  replies : list Z;
  consecutive_errors : Z;
  outcomes : list bool;
}.

Definition ScopeState_default : ScopeState :=
  {| last_used := 0; replies := []; consecutive_errors := 0; outcomes := [] |}.

Record TriggerState := {
  scopes : gmap ustr ScopeState;
  lru_clock : Z;
}.

Definition TriggerState_default : TriggerState := {| scopes := ∅; lru_clock := 0 |}.

(** The order of [(u64, String)]. *)
Definition age_le (p q : Z * ustr) : Prop :=
  p.1 < q.1 ∨ (p.1 = q.1 ∧ ustr_leb p.2 q.2 = true).
#[export] Instance age_le_dec : RelDecision age_le.
Proof. intros p q. unfold age_le. apply _. Defined.

Section counters.
Context `{Platform}.
Implicit Types (scope : ustr) (st : TriggerState) (s : ScopeState) (t : EnforcedTriggers).

(** The keys [scope] evicts: the [batch] least recently used. *)
Definition by_age (m : gmap ustr ScopeState) : list (Z * ustr) :=
  merge_sort age_le ((λ p : ustr * ScopeState, (last_used p.2, p.1)) <$> map_to_list m).

Definition evict_batch : nat := Z.to_nat (Z.max (MAX_SCOPES / 100) 1).

Definition evict (m : gmap ustr ScopeState) : gmap ustr ScopeState :=
  foldl (λ m p, delete p.2 m) m (take evict_batch (by_age m)).

(** [TriggerState::scope]: the reference it returns is the entry of [scope],
    read and written back by the callers below. *)
Definition scope_entry scope st : ScopeState * TriggerState :=
  let m :=
    if (MAX_SCOPES <=? Z.of_nat (size (scopes st))) && negb (bool_decide (is_Some (scopes st !! scope)))
    then evict (scopes st) else scopes st in
  let now := lru_clock st + 1 in
  let s0 := default ScopeState_default (m !! scope) in
  let s := {| last_used := now; replies := replies s0;
              consecutive_errors := consecutive_errors s0; outcomes := outcomes s0 |} in
  (s, {| scopes := <[scope := s]> m; lru_clock := now |}).

Definition put scope s st : TriggerState :=
  {| scopes := <[scope := s]> (scopes st); lru_clock := lru_clock st |}.

(** [while front().is_some_and(|t| now - t >= RATE_WINDOW) { pop_front() }]. *)
Fixpoint drop_old (now : Z) (q : list Z) : list Z :=
  match q with
  | x :: r => if RATE_WINDOW <=? duration_since now x then drop_old now r else q
  | [] => []
  end.

Definition with_replies (q : list Z) s : ScopeState :=
  {| last_used := last_used s; replies := q;
     consecutive_errors := consecutive_errors s; outcomes := outcomes s |}.

(** [TriggerState::admit_reply]. *)
Definition admit_reply scope (limit : option Z) (now : Z) st : bool * TriggerState :=
  match limit with
  | None => (true, st)
  | Some limit =>
      let '(s, st1) := scope_entry scope st in
      let q := drop_old now (replies s) in
      if limit <=? Z.of_nat (length q) then (false, put scope (with_replies q s) st1)
      else (true, put scope (with_replies (q ++ [now]) s) st1)
  end.

Definition with_counts (errors : Z) (os : list bool) s : ScopeState :=
  {| last_used := last_used s; replies := replies s;
     consecutive_errors := errors; outcomes := os |}.

Definition failures_in (os : list bool) : nat := length (retain negb os).

(** The error rate of the window. *)
Definition error_rate (os : list bool) : f64 :=
  f64_div (f64_of_Z (Z.of_nat (failures_in os))) (f64_of_Z (Z.of_nat (length os))).

(** The body of [record_outcome] on the scope's entry. *)
Definition outcome_step (success : bool) t s : OutcomeVerdict * ScopeState :=
  let os := last_n ERROR_WINDOW (outcomes s ++ [success]) in
  if success then (VOk, with_counts 0 os s)
  else
    let n := u32_saturating_add (consecutive_errors s) 1 in
    let rate_check :=
      match error_rate_threshold t with
      | Some threshold =>
          if (MIN_RATE_SAMPLES <=? length os)%nat && f64_gtb (error_rate os) threshold then
            (Escalate (u "killswitch trigger: error rate " ++ show_nat (failures_in os) ++ u "/"
                       ++ show_nat (length os) ++ u " over error_rate_threshold = "
                       ++ show_f64 threshold),
             with_counts 0 [] s)
          else (VOk, with_counts n os s)
      | None => (VOk, with_counts n os s)
      end in
    match max_consecutive_errors t with
    | Some max =>
        if max <=? n then
          (Escalate (u "killswitch trigger: " ++ show_Z n
                     ++ u " consecutive errors (max_consecutive_errors = " ++ show_Z max ++ u ")"),
           with_counts 0 [] s)
        else rate_check
    | None => rate_check
    end.

(** [TriggerState::record_outcome]. *)
Definition record_outcome scope (success : bool) t st : OutcomeVerdict * TriggerState :=
  let '(s, st1) := scope_entry scope st in
  let '(v, s') := outcome_step success t s in
  (v, put scope s' st1).
End counters.

(** ** The monitor *)

(** A path is its list of components; [Path::join] of a file name appends it. *)
Abbreviation path := (list ustr).
Definition path_join (p : path) (name : ustr) : path := p ++ [name].

Record TriggerMonitor := {
  state : TriggerState;
  config : option (path * option Z * EnforcedTriggers);
  cost : option (Z * f64);
}.

Definition TriggerMonitor_new : TriggerMonitor :=
  {| state := TriggerState_default; config := None; cost := None |}.

(** KILLSWITCH.toml at one access: its modification time and its content. *)
Record file := { mtime : option Z; content : option ustr }.

(** What the process's cost telemetry answers: absent, or the result of a
    24 h summary in the stored unit (cents). *)
Record telemetry := { installed : bool; summary_global : option Z }.

(** What the reply path records: audit lines (a trigger's also goes to the
    autopilot bus), the autopilot's companion events, silent replies, and the
    two calls of the employee-health module ([health::receive], [health::mark]). *)
Inductive effect :=
| AuditTrigger (subject reason level : ustr)
| AuditSafetyWord (session user action : ustr)
| AuditBreakerTrip (session reason : ustr)
| SilentReply (session user reason : ustr)
| EmitSafetyWord
| EmitBreakerTrip
| HealthReceive (session : ustr)
| HealthMark (mark : ustr).

Section monitor.
Context `{Platform} `{Toml}.
Implicit Types (home : path) (scope : ustr) (M : TriggerMonitor).

(** [TriggerMonitor::triggers], [f] being the file as this access finds it. *)
Definition triggers (f : file) home M : EnforcedTriggers * TriggerMonitor :=
  let p := path_join home (u "KILLSWITCH.toml") in
  let reread :=
    let t := load (content f) in
    (t, {| state := state M; config := Some (p, mtime f, t); cost := cost M |}) in
  match config M with
  | Some (p', m', t) =>
      if bool_decide (p' = p) && bool_decide (m' = mtime f) then (t, M) else reread
  | None => reread
  end.

Definition with_state (st : TriggerState) M : TriggerMonitor :=
  {| state := st; config := config M; cost := cost M |}.

(** [TriggerMonitor::admit_reply]. *)
Definition monitor_admit_reply (f : file) home scope (now : Z) M : bool * TriggerMonitor :=
  let '(t, M1) := triggers f home M in
  let '(ok, st) := admit_reply scope (max_replies_per_minute t) now (state M1) in
  (ok, with_state st M1).

(** [TriggerMonitor::record_outcome]. *)
Definition monitor_record_outcome (f : file) home scope (success : bool) M
    : OutcomeVerdict * TriggerMonitor :=
  let '(t, M1) := triggers f home M in
  let '(v, st) := record_outcome scope success t (state M1) in
  (v, with_state st M1).

(** [cost_limit_reached_from]: [t_elapsed] and [t_store] are its two clock
    readings. *)
Definition cost_limit_reached_from (f : file) home (summary : option Z) (t_elapsed t_store : Z) M
    : option (f64 * f64) * TriggerMonitor :=
  let '(t, M1) := triggers f home M in
  match cost_limit_usd t with
  | None => (None, M1)
  | Some limit =>
      let answer spent M2 := (if f64_geb spent limit then Some (spent, limit) else None, M2) in
      let query :=
        match summary with
        | None => (None, M1)
        | Some total =>
            let usd := f64_div (f64_of_Z total) (f64_of_Z 100) in
            answer usd {| state := state M1; config := config M1; cost := Some (t_store, usd) |}
        end in
      match cost M1 with
      | Some (at_, usd) =>
          if duration_since t_elapsed at_ <? COST_CACHE_TTL then answer usd M1 else query
      | None => query
      end
  end.

(** [cost_limit_reached]: the file is looked at twice. *)
Definition cost_limit_reached (f1 f2 : file) home (tel : telemetry) (t_elapsed t_store : Z) M
    : option (f64 * f64) * TriggerMonitor :=
  let '(t, M1) := triggers f1 home M in
  match cost_limit_usd t with
  | None => (None, M1)
  | Some _ =>
      if installed tel then cost_limit_reached_from f2 home (summary_global tel) t_elapsed t_store M1
      else (None, M1)
  end.
End monitor.

(** ** The two hooks of the reply path *)

(** The part of [ReplyContext] they use. *)
Record gate_env := {
  home_dir : path;
  failsafe_config : Killswitch.FailsafeConfig;
  file_at : nat → file;          (** the file at each access *)
  tel : telemetry;
  clock : nat → Z;               (** the clock readings, in order *)
}.

Definition GLOBAL_SCOPE : ustr := u "__global__".

Section hooks.
Context `{Platform} `{Toml} (E : gate_env).
Implicit Types (session_id user_id agent_id : ustr) (M : TriggerMonitor) (fs : option states).

(** [gate_before_reply].  The failsafe manager is optional; the answer is the
    reply that stops the turn, if any; no result when setting the level's
    timer panics. *)
Definition gate_before_reply session_id user_id M fs
    : option (option ustr * TriggerMonitor * option states * list effect) :=
  let '(reached, M1) :=
    cost_limit_reached (file_at E 0) (file_at E 1) (home_dir E) (tel E) (clock E 0) (clock E 1) M in
  match reached with
  | Some (spent, limit) =>
      let reason :=
        u "killswitch trigger: 24h API spend $" ++ fmt_2 spent
          ++ u " reached cost_limit_usd = $" ++ fmt_2 limit in
      match fs with
      | Some m =>
          let '(l, m1) := get_level (clock E 2) GLOBAL_SCOPE m in
          let reply :=
            default (u "Service restricted.") (canned_reply (failsafe_config E) L2Restricted) in
          if level_ltb l L2Restricted then
            m2 ← set_level (failsafe_config E) (clock E 3) (clock E 4) GLOBAL_SCOPE
                   L2Restricted reason m1;
            Some (Some reply, M1, Some m2, [AuditTrigger GLOBAL_SCOPE reason (u "Restricted")])
          else Some (Some reply, M1, Some m1, [])
      | None => Some (Some (u "Service restricted."), M1, None, [])
      end
  | None =>
      let '(ok, M2) := monitor_admit_reply (file_at E 2) (home_dir E) session_id (clock E 5) M1 in
      if negb ok then
        Some (Some [], M2, fs,
         [SilentReply session_id user_id (u "silent_by_design: killswitch_rate_limited")])
      else Some (None, M2, fs, [])
  end.

(** [record_reply_outcome]. *)
Definition record_reply_outcome session_id (success : bool) M fs
    : option (TriggerMonitor * option states * list effect) :=
  let '(v, M1) := monitor_record_outcome (file_at E 0) (home_dir E) session_id success M in
  match v with
  | VOk => Some (M1, fs, [])
  | Escalate reason =>
      match fs with
      | Some m =>
          '(l, m1) ← escalate (failsafe_config E) (clock E 0) (clock E 1) session_id reason m;
          Some (M1, Some m1, [AuditTrigger session_id reason (label l)])
      | None => Some (M1, None, [AuditTrigger session_id reason (u "unavailable")])
      end
  end.
End hooks.

(** ** The configuration cache *)

Section cache.
Context `{Platform} `{Toml}.
Implicit Types (home : path) (M : TriggerMonitor).

(** The cached thresholds are those of the content the file had at the cached
    modification time. *)
Definition cache_ok (content_of : option Z → option ustr) home M : Prop :=
  ∀ m t, config M = Some (path_join home (u "KILLSWITCH.toml"), m, t) → t = load (content_of m).

Lemma cached_triggers content_of f home M :
  cache_ok content_of home M → content f = content_of (mtime f) →
  ∃ M', triggers f home M = (load (content f), M') ∧ cache_ok content_of home M'
        ∧ state M' = state M ∧ cost M' = cost M.
Proof.
  intros Hc Hf. unfold triggers.
  set (reread := (load (content f), {| state := state M; config := _; cost := cost M |})).
  assert (∃ M', reread = (load (content f), M') ∧ cache_ok content_of home M'
            ∧ state M' = state M ∧ cost M' = cost M) as Hr.
  { eexists. split_and!; [done| |done..]. intros m t E. simpl in E. simplify_eq. by rewrite Hf. }
  destruct (config M) as [[[p m] t]|] eqn:E; [|done].
  destruct (_ && _) eqn:Eb; [|done]. reflect_bools. subst. exists M.
  split_and!; [|done..]. by rewrite Hf, (Hc _ _ E).
Qed.

(** As long as a change of KILLSWITCH.toml changes its modification time, the
    cache is invisible: the monitor answers what re-reading the file at every
    message would, and stays coherent. *)
Theorem cached_triggers_exact content_of f home M :
  cache_ok content_of home M → content f = content_of (mtime f) →
  (triggers f home M).1 = load (content f) ∧ cache_ok content_of home (triggers f home M).2.
Proof.
  intros Hc Hf. by destruct (cached_triggers _ _ _ _ Hc Hf) as (M' & -> & ? & _).
Qed.
End cache.

(** ** LRU eviction *)

#[export] Instance age_le_trans : Transitive age_le.
Proof.
  intros [a x] [b y] [c z]. unfold age_le. simpl.
  intros [?|[-> Hxy]] [?|[-> Hyz]]; [left; lia..|]. right. split; [done|]. by eapply ustr_leb_trans.
Qed.

#[export] Instance age_le_total : Total age_le.
Proof.
  intros [a x] [b y]. unfold age_le. simpl.
  destruct (Z.lt_trichotomy a b) as [?|[->|?]]; [by left; left| |by right; left].
  destruct (ustr_leb_total x y); [left|right]; by right.
Qed.

(** Distinct integers of an interval. *)
Lemma NoDup_interval (l : list Z) (a b : Z) :
  a ≤ b → NoDup l → (∀ x, x ∈ l → a < x ≤ b) → Z.of_nat (length l) ≤ b - a.
Proof.
  intros Hab Hnd Hl.
  assert (length l ≤ length (seqZ (a + 1) (b - a)))%nat as Hlen.
  { apply submseteq_length, NoDup_submseteq; [done|].
    intros x Hx. apply elem_of_seqZ. specialize (Hl x Hx). lia. }
  rewrite length_seqZ in Hlen. lia.
Qed.

Record trigger_wf (st : TriggerState) : Prop := {
  wf_range k s : scopes st !! k = Some s → 0 < last_used s ≤ lru_clock st;
  wf_distinct k1 k2 s1 s2 :
    scopes st !! k1 = Some s1 → scopes st !! k2 = Some s2 → last_used s1 = last_used s2 → k1 = k2;
  wf_clock : 0 ≤ lru_clock st;
  wf_size : Z.of_nat (size (scopes st)) ≤ MAX_SCOPES;
}.

Section lru.
Implicit Types (scope k : ustr) (st : TriggerState) (s : ScopeState) (m : gmap ustr ScopeState).

Lemma by_age_perm m :
  by_age m ≡ₚ (λ p : ustr * ScopeState, (last_used p.2, p.1)) <$> map_to_list m.
Proof. apply merge_sort_Permutation. Qed.

Lemma elem_of_by_age m a k : (a, k) ∈ by_age m ↔ ∃ s, m !! k = Some s ∧ last_used s = a.
Proof.
  rewrite by_age_perm, list_elem_of_fmap. split.
  - intros ([k' s] & E & Hin). simplify_eq/=. exists s. by apply elem_of_map_to_list in Hin.
  - intros (s & Hs & <-). exists (k, s). split; [done|]. by apply elem_of_map_to_list.
Qed.

Lemma length_by_age m : length (by_age m) = size m.
Proof. by rewrite by_age_perm, length_fmap, length_map_to_list. Qed.

Lemma NoDup_by_age m : NoDup (by_age m).*2.
Proof.
  rewrite by_age_perm, <- list_fmap_compose. apply (NoDup_fst_map_to_list m).
Qed.

Lemma evict_batch_bounds : Z.of_nat evict_batch = 100.
Proof. reflexivity. Qed.

Definition victims m : list ustr := (take evict_batch (by_age m)).*2.

Lemma evict_lookup m k : evict m !! k = if decide (k ∈ victims m) then None else m !! k.
Proof.
  unfold evict, victims. generalize (take evict_batch (by_age m)). intros l. revert m.
  induction l as [|[a x] l IH]; intros m; simpl; [done|]. rewrite IH.
  destruct (decide (k ∈ l.*2)) as [Hin|Hin]; [by rewrite decide_True by set_solver|].
  destruct (decide (k = x)) as [->|Hne].
  - rewrite decide_True by set_solver. by rewrite lookup_delete_eq.
  - rewrite decide_False by set_solver. by rewrite lookup_delete_ne.
Qed.

Lemma length_victims m : (evict_batch ≤ size m)%nat → length (victims m) = evict_batch.
Proof. intros Hm. unfold victims. rewrite length_fmap, length_take, length_by_age. lia. Qed.

Lemma NoDup_victims m : NoDup (victims m).
Proof.
  unfold victims. pose proof (NoDup_by_age m) as Hnd.
  rewrite <- (take_drop evict_batch (by_age m)), fmap_app in Hnd. by apply list.NoDup_app in Hnd as [? _].
Qed.

Lemma victims_dom m k : k ∈ victims m → k ∈ dom m.
Proof.
  unfold victims. intros Hk. apply list_elem_of_fmap in Hk as ([a x] & -> & Hin).
  apply elem_of_take in Hin as (i & Hi & _). apply list_elem_of_lookup_2, elem_of_by_age in Hi as (s & Hs & _).
  apply elem_of_dom. simpl. eauto.
Qed.

Lemma size_evict m : (evict_batch ≤ size m)%nat → (size (evict m) + evict_batch = size m)%nat.
Proof.
  intros Hm.
  assert (dom (evict m) = dom m ∖ list_to_set (victims m)) as Hd.
  { apply set_eq. intros k. rewrite elem_of_difference, elem_of_list_to_set, !elem_of_dom, evict_lookup.
    destruct (decide _); [split; [intros [? ?]; done|naive_solver]|naive_solver]. }
  rewrite <- !size_dom, Hd, size_difference.
  - rewrite size_list_to_set, length_victims by (done || apply NoDup_victims).
    rewrite size_dom. lia.
  - intros k Hk. apply elem_of_list_to_set in Hk. by apply victims_dom.
Qed.

(** A key that is evicted is older than every key that is kept. *)
Lemma victim_older m k k' s s' :
  m !! k = Some s → m !! k' = Some s' → k ∈ victims m → k' ∉ victims m →
  last_used s ≤ last_used s'.
Proof.
  intros Hs Hs' Hin Hout.
  pose proof (StronglySorted_merge_sort age_le
    ((λ p : ustr * ScopeState, (last_used p.2, p.1)) <$> map_to_list m)) as Hsort.
  fold (by_age m) in Hsort. rewrite <- (take_drop evict_batch (by_age m)) in Hsort.
  assert ((last_used s, k) ∈ take evict_batch (by_age m)) as H1.
  { unfold victims in Hin. apply list_elem_of_fmap in Hin as ([a x] & Ex & Hx). simpl in Ex. subst x.
    assert ((a, k) ∈ by_age m) as Ha.
    { rewrite <- (take_drop evict_batch (by_age m)). apply elem_of_app. by left. }
    apply elem_of_by_age in Ha as (s2 & Hs2 & <-). by simplify_eq. }
  assert ((last_used s', k') ∈ drop evict_batch (by_age m)) as H2.
  { assert ((last_used s', k') ∈ by_age m) as Ha by (apply elem_of_by_age; eauto).
    rewrite <- (take_drop evict_batch (by_age m)), elem_of_app in Ha. destruct Ha as [Ha|]; [|done].
    destruct Hout. unfold victims. apply list_elem_of_fmap. by exists (last_used s', k'). }
  destruct (StronglySorted_app_1_elem_of _ _ _ _ _ Hsort H1 H2) as [?|[? _]]; simpl in *; lia.
Qed.

(** A key used within the last [size - batch] uses is no victim. *)
Lemma recent_not_victim st k s :
  trigger_wf st → scopes st !! k = Some s → (evict_batch ≤ size (scopes st))%nat →
  lru_clock st - last_used s < Z.of_nat (size (scopes st)) - Z.of_nat evict_batch →
  k ∉ victims (scopes st).
Proof.
  intros Hwf Hs Hsz Hrec Hin.
  set (kept := (λ p : ustr * ScopeState, last_used p.2) <$> map_to_list (evict (scopes st))).
  assert (∀ k' s', evict (scopes st) !! k' = Some s' →
    k' ∉ victims (scopes st) ∧ scopes st !! k' = Some s') as Hk.
  { intros k' s' E. rewrite evict_lookup in E. destruct (decide _); [done|]. done. }
  assert (NoDup kept) as Hnd.
  { unfold kept. apply NoDup_fmap_2_strong; [|apply NoDup_map_to_list].
    intros [k1 s1] [k2 s2] H1 H2 E. apply elem_of_map_to_list, Hk in H1 as [_ H1], H2 as [_ H2].
    simpl in E. pose proof (wf_distinct _ Hwf _ _ _ _ H1 H2 E). by simplify_eq. }
  pose proof (NoDup_interval kept (last_used s) (lru_clock st)) as Hlen.
  pose proof (wf_range _ Hwf _ _ Hs). pose proof (size_evict _ Hsz).
  assert (length kept = size (evict (scopes st))) as Ek
    by (unfold kept; by rewrite length_fmap, length_map_to_list).
  rewrite Ek in Hlen. cut (Z.of_nat (size (evict (scopes st))) ≤ lru_clock st - last_used s); [lia|].
  apply Hlen; [lia|done|].
  intros x Hx. apply list_elem_of_fmap in Hx as ([k' s'] & -> & Hin'). simpl.
  apply elem_of_map_to_list, Hk in Hin' as [Hout Hs'].
  pose proof (victim_older _ _ _ _ _ Hs Hs' Hin Hout).
  pose proof (wf_range _ Hwf _ _ Hs').
  assert (last_used s ≠ last_used s'); [|lia].
  intros E. pose proof (wf_distinct _ Hwf _ _ _ _ Hs Hs' E). by subst.
Qed.

Lemma evict_wf_lookup m k s : evict m !! k = Some s → m !! k = Some s.
Proof. rewrite evict_lookup. by destruct (decide _). Qed.

(** What [scope] does to the map: the entry of the scope, in a well-formed
    state with room for it. *)
Lemma scope_entry_spec scope st s st' :
  trigger_wf st → scope_entry scope st = (s, st') →
  trigger_wf st' ∧ scopes st' !! scope = Some s ∧ lru_clock st' = lru_clock st + 1
  ∧ (∀ s0, scopes st !! scope = Some s0 →
       replies s = replies s0 ∧ consecutive_errors s = consecutive_errors s0 ∧ outcomes s = outcomes s0)
  ∧ (scopes st !! scope = None →
       replies s = [] ∧ consecutive_errors s = 0 ∧ outcomes s = [])
  ∧ (∀ k s1, k ≠ scope → scopes st' !! k = Some s1 → scopes st !! k = Some s1)
  ∧ last_used s = lru_clock st + 1.
Proof.
  intros Hwf Hs. unfold scope_entry in Hs.
  set (m := if _ && _ then _ else _) in Hs.
  assert (∀ k s1, m !! k = Some s1 → scopes st !! k = Some s1) as Hm.
  { intros k s1. unfold m. destruct (_ && _); [apply evict_wf_lookup|done]. }
  assert (∀ s0, scopes st !! scope = Some s0 → m = scopes st) as Hpres.
  { intros s0 E. unfold m. rewrite E, bool_decide_eq_true_2 by eauto. by rewrite andb_false_r. }
  assert (scopes st !! scope = None → m !! scope = None) as Habs.
  { intros E. destruct (m !! scope) eqn:E2; [|done]. apply Hm in E2. congruence. }
  assert (m !! scope = None → Z.of_nat (size m) < MAX_SCOPES) as Hroom.
  { intros E. unfold m in *. pose proof (wf_size _ Hwf).
    pose proof (size_evict (scopes st)). pose proof evict_batch_bounds.
    destruct (_ <=? _) eqn:Esz; reflect_bools; simpl andb in *; [|lia].
    destruct (bool_decide _) eqn:Eb; reflect_bools; simpl negb in *; cbv iota in *;
      [by destruct Eb; simplify_eq|].
    unfold MAX_SCOPES in *. lia. }
  simplify_eq. simpl. destruct Hwf as [Hr Hd Hc Hsz].
  split_and!; [|by rewrite lookup_insert_eq|done| | | |done].
  - split; simpl.
    + intros k s1. destruct (decide (k = scope)) as [->|Hne].
      * rewrite lookup_insert_eq. intros. simplify_eq. simpl. lia.
      * rewrite lookup_insert_ne by done. intros E. apply Hm, Hr in E. lia.
    + intros k1 k2 s1 s2.
      destruct (decide (k1 = scope)) as [->|H1], (decide (k2 = scope)) as [->|H2]; [done| | |].
      * rewrite lookup_insert_eq, lookup_insert_ne by done. intros E1 E2%Hm%Hr. simplify_eq. simpl. lia.
      * rewrite lookup_insert_eq, lookup_insert_ne by done. intros E1%Hm%Hr E2. simplify_eq. simpl. lia.
      * rewrite !lookup_insert_ne by done. eauto.
    + lia.
    + destruct (m !! scope) eqn:E.
      * rewrite map_size_insert_Some by eauto.
        assert (m ⊆ scopes st) as Hsub%map_subseteq_size by (apply map_subseteq_spec; done). lia.
      * rewrite map_size_insert_None by done. specialize (Hroom eq_refl). lia.
  - intros s0 E. rewrite (Hpres _ E), E. done.
  - intros E. rewrite (Habs E). done.
  - intros k s1 Hne. rewrite lookup_insert_ne by done. apply Hm.
Qed.

Lemma put_wf scope s s0 st :
  trigger_wf st → scopes st !! scope = Some s0 → last_used s = last_used s0 →
  trigger_wf (put scope s st).
Proof.
  intros [Hr Hd Hc Hsz] E Hl. split; simpl; [| |done|].
  - intros k s1. destruct (decide (k = scope)) as [->|Hne].
    + rewrite lookup_insert_eq. intros. simplify_eq. rewrite Hl. eauto.
    + rewrite lookup_insert_ne by done. eauto.
  - intros k1 k2 s1 s2.
    destruct (decide (k1 = scope)) as [->|H1], (decide (k2 = scope)) as [->|H2]; [done| | |];
      rewrite ?lookup_insert_eq, ?lookup_insert_ne by done; intros; simplify_eq.
    + rewrite Hl in *. eauto.
    + rewrite Hl in *. eauto.
    + eauto.
  - rewrite map_size_insert_Some by eauto. done.
Qed.
End lru.

(** A flood of new conversations cannot reset the counters of one that is in
    use: a scope used within the last 9,900 uses keeps its entry, whatever
    scope the next message or outcome is for. *)
Theorem active_scope_survives `{Platform} (k scope : ustr) (st : TriggerState) (s : ScopeState)
    (limit : option Z) (now : Z) (success : bool) (t : EnforcedTriggers) :
  trigger_wf st → scopes st !! k = Some s → k ≠ scope →
  lru_clock st - last_used s < 9900 →
  scopes (admit_reply scope limit now st).2 !! k = Some s
  ∧ scopes (record_outcome scope success t st).2 !! k = Some s.
Proof.
  intros Hwf Hs Hne Hrec.
  assert (scopes (scope_entry scope st).2 !! k = Some s) as Hk.
  { unfold scope_entry. simpl. rewrite lookup_insert_ne by done.
    destruct (MAX_SCOPES <=? _) eqn:Esz; reflect_bools; simpl; [|done].
    destruct (negb _); [|done]. rewrite evict_lookup, decide_False; [done|].
    pose proof evict_batch_bounds. unfold MAX_SCOPES in Esz.
    apply recent_not_victim with s; [done|done|lia|lia]. }
  split.
  - unfold admit_reply. destruct limit as [l|]; [|done].
    destruct (scope_entry scope st) as [s1 st1]. simpl in Hk.
    destruct (l <=? _); simpl; by rewrite lookup_insert_ne.
  - unfold record_outcome. destruct (scope_entry scope st) as [s1 st1]. simpl in Hk.
    destruct (outcome_step success t s1). simpl. by rewrite lookup_insert_ne.
Qed.

Lemma outcome_step_last_used `{Platform} success t s :
  last_used (outcome_step success t s).2 = last_used s.
Proof. unfold outcome_step. by case_code. Qed.

Lemma counters_wf_step `{Platform} (scope : ustr) (st : TriggerState)
    (limit : option Z) (now : Z) (success : bool) (t : EnforcedTriggers) :
  trigger_wf st →
  trigger_wf (admit_reply scope limit now st).2 ∧ trigger_wf (record_outcome scope success t st).2.
Proof.
  intros Hwf. split.
  - unfold admit_reply. destruct limit as [l|]; [|done].
    destruct (scope_entry scope st) as [s1 st1] eqn:E.
    apply scope_entry_spec in E as (Hwf1 & E1 & _); [|done].
    destruct (l <=? _); simpl; by eapply put_wf.
  - unfold record_outcome. destruct (scope_entry scope st) as [s1 st1] eqn:E.
    apply scope_entry_spec in E as (Hwf1 & E1 & _); [|done].
    pose proof (outcome_step_last_used success t s1).
    destruct (outcome_step success t s1). by eapply put_wf.
Qed.

(** Memory is bounded and the LRU stamps are sound: every operation keeps at
    most 10,000 scopes, with distinct stamps no later than the counter. *)
Theorem counters_wf `{Platform} (scope : ustr) (st : TriggerState)
    (limit : option Z) (now : Z) (success : bool) (t : EnforcedTriggers) :
  trigger_wf st →
  trigger_wf (admit_reply scope limit now st).2 ∧ trigger_wf (record_outcome scope success t st).2.
Proof. apply counters_wf_step. Qed.

Lemma trigger_wf_default : trigger_wf TriggerState_default.
Proof. by split. Qed.

(** ** The reply rate *)

Section rate.
Context `{Platform}.
Implicit Types (scope k : ustr) (st : TriggerState) (acc : list Z).

Definition present k st acc : list Z := match scopes st !! k with Some _ => acc | None => [] end.

(** A history seen from one scope: replies admitted to it since its counters
    exist, while messages and outcomes of all scopes interleave.  The limit in
    force may change between calls but is at most [N]. *)
Inductive admitted (N : Z) k : Z → TriggerState → list Z → Prop :=
| admitted_new t : admitted N k t TriggerState_default []
| admitted_reply now st acc t k' limit ok st' :
    admitted N k now st acc → now ≤ t → admit_reply k' limit t st = (ok, st') →
    (k' = k → ∃ l, limit = Some l ∧ l ≤ N) →
    admitted N k t st' (present k st' (acc ++ if ok && ustr_eqb k' k then [t] else []))
| admitted_outcome now st acc k' success tr v st' :
    admitted N k now st acc → record_outcome k' success tr st = (v, st') →
    admitted N k now st' (present k st' acc).

Definition replies_in (t : Z) acc : list Z := in_window RATE_WINDOW t acc.

Definition rate_inv (N : Z) k (now : Z) st acc : Prop :=
  trigger_wf st
  ∧ match scopes st !! k with
    | None => acc = []
    | Some s => ∃ old, acc = old ++ replies s ∧ Forall (λ x, x + RATE_WINDOW ≤ now) old
    end
  ∧ ∀ t, Z.of_nat (length (replies_in t acc)) ≤ N.

Lemma drop_old_split now q :
  ∃ d, q = d ++ drop_old now q ∧ Forall (λ x, x + RATE_WINDOW ≤ now) d.
Proof.
  induction q as [|x q (d & IH & Hd)]; simpl; [by exists []|].
  destruct (_ <=? _) eqn:E; [|by exists []].
  exists (x :: d). simpl. rewrite <- IH. split; [done|]. constructor; [|done].
  reflect_bools. unfold duration_since, RATE_WINDOW, secs in *. lia.
Qed.

Lemma replies_recent now old q :
  Forall (λ x, x + RATE_WINDOW ≤ now) old →
  (length (retain (λ x : Z, (now - RATE_WINDOW <? x)%Z) (old ++ q)) ≤ length q)%nat.
Proof.
  intros Hold. rewrite List.filter_app, retain_none; [apply length_retain|].
  eapply List.Forall_impl; [|exact Hold]. simpl. intros x Hx. apply Z.ltb_ge. lia.
Qed.

(** Entries of other scopes do not move the invariant. *)
Lemma rate_inv_frame N k now st st' acc k' s s0 :
  0 ≤ N → rate_inv N k now st acc → scope_entry k' st = (s, s0) → trigger_wf st' →
  (∀ s1, k' ≠ k → scopes st' !! k = Some s1 → scopes s0 !! k = Some s1) →
  k' ≠ k → rate_inv N k now st' (present k st' acc).
Proof.
  intros HN (Hwf & Hk & Hc) Hs Hwf' Hsame Hne. split; [done|]. unfold present.
  destruct (scopes st' !! k) as [s1|] eqn:E; [|done].
  apply scope_entry_spec in Hs as (_ & _ & _ & _ & _ & Hother & _); [|done].
  rewrite (Hother k s1) in Hk by eauto. done.
Qed.

(** The scope's own entry, as [scope_entry] presents it. *)
Lemma rate_inv_own N k now st acc s st1 :
  rate_inv N k now st acc → scope_entry k st = (s, st1) →
  ∃ old, acc = old ++ replies s ∧ Forall (λ x, x + RATE_WINDOW ≤ now) old.
Proof.
  intros (Hwf & Hk & _) Es.
  apply scope_entry_spec in Es as (_ & _ & _ & Hsome & Hnone & _); [|done].
  destruct (scopes st !! k) as [s0|].
  - by destruct (Hsome _ eq_refl) as (-> & _).
  - destruct (Hnone eq_refl) as (-> & _). subst. by exists [].
Qed.

Lemma rate_inv_later N k now t st acc : now ≤ t → rate_inv N k now st acc → rate_inv N k t st acc.
Proof.
  intros Hle (Hwf & Hk & Hc). split_and!; [done| |done].
  destruct (scopes st !! k); [|done]. destruct Hk as (old & -> & Hold). exists old.
  split; [done|]. eapply List.Forall_impl; [|done]. simpl. lia.
Qed.

Lemma rate_inv_reply N k t st acc l ok st' :
  0 ≤ N → rate_inv N k t st acc → l ≤ N → admit_reply k (Some l) t st = (ok, st') → trigger_wf st' →
  rate_inv N k t st' (present k st' (acc ++ if ok then [t] else [])).
Proof.
  intros HN Hi Hl Had Hwf'. unfold admit_reply in Had.
  destruct (scope_entry k st) as [s st1] eqn:Es.
  destruct (rate_inv_own _ _ _ _ _ _ _ Hi Es) as (old & -> & Hold). destruct Hi as (_ & _ & Hc).
  destruct (drop_old_split t (replies s)) as (d & Ed & Hd).
  set (q := drop_old t (replies s)) in *. rewrite Ed, app_assoc in *.
  assert (Forall (λ x, x + RATE_WINDOW ≤ t) (old ++ d)) as Hod by by apply Forall_app.
  destruct (l <=? _) eqn:Ex; reflect_bools; simplify_eq; unfold present; simpl;
    rewrite lookup_insert_eq; simpl; (split; [done|]); simpl; rewrite lookup_insert_eq; simpl.
  - rewrite app_nil_r. split; [|done]. by exists (old ++ d).
  - split; [exists (old ++ d); by rewrite !app_assoc|]. apply (in_window_snoc _ _ t); [done|lia|done|].
    pose proof (replies_recent t (old ++ d) q Hod). lia.
Qed.

Lemma rate_inv_outcome N k now st acc success tr v st' :
  rate_inv N k now st acc → record_outcome k success tr st = (v, st') → trigger_wf st' →
  rate_inv N k now st' (present k st' acc).
Proof.
  intros Hi Ho Hwf'. unfold record_outcome in Ho.
  destruct (scope_entry k st) as [s st1] eqn:Es.
  destruct (rate_inv_own _ _ _ _ _ _ _ Hi Es) as (old & -> & Hold). destruct Hi as (_ & _ & Hc).
  destruct (outcome_step success tr s) as [v' s'] eqn:Eo. simplify_eq.
  unfold present. simpl. rewrite lookup_insert_eq. simpl.
  split; [done|]. simpl. rewrite lookup_insert_eq. split; [|done].
  assert (replies s' = replies s) as -> by (unfold outcome_step in Eo; by case_code).
  by exists old.
Qed.

Lemma rate_inv_holds N k now st acc : 0 ≤ N → admitted N k now st acc → rate_inv N k now st acc.
Proof.
  intros HN Ha.
  induction Ha as [t|now st acc t k' limit ok st' Ha IH Hle Had Hlim
                  |now st acc k' success tr v st' Ha IH Ho].
  - split_and!; [apply trigger_wf_default|done|done].
  - pose proof (proj1 (counters_wf_step k' st limit t true no_triggers (proj1 IH))) as Hwf'.
    rewrite Had in Hwf'. simpl in Hwf'. apply (rate_inv_later _ _ _ t) in IH; [|done].
    destruct (decide (k' = k)) as [->|Hne].
    + destruct (Hlim eq_refl) as (l & -> & Hl). rewrite ustr_eqb_refl, andb_true_r.
      by eapply rate_inv_reply.
    + assert (ustr_eqb k' k = false) as -> by by apply bool_decide_eq_false_2.
      rewrite andb_false_r, app_nil_r. unfold admit_reply in Had. destruct limit as [l|].
      * destruct (scope_entry k' st) as [s st1] eqn:Es.
        eapply rate_inv_frame; [done|done|done|done| |done].
        intros s1 _. destruct (l <=? _); simplify_eq; simpl; by rewrite lookup_insert_ne.
      * simplify_eq. unfold present. destruct IH as (? & Hk & Hc).
        split; [done|]. destruct (scopes st' !! k); [done|]. by subst.
  - pose proof (proj2 (counters_wf_step k' st None now success tr (proj1 IH))) as Hwf'.
    rewrite Ho in Hwf'. simpl in Hwf'.
    destruct (decide (k' = k)) as [->|Hne]; [by eapply rate_inv_outcome|].
    unfold record_outcome in Ho. destruct (scope_entry k' st) as [s st1] eqn:Es.
    destruct (outcome_step success tr s) as [v' s'] eqn:Eo. simplify_eq.
    eapply rate_inv_frame; [done|done|done|done| |done].
    intros s1 _. simpl. by rewrite lookup_insert_ne.
Qed.

(** Within any 60 seconds no conversation gets more replies than the largest
    limit in force, as long as its counters were not evicted meanwhile,
    however the messages and outcomes of all conversations interleave. *)
Theorem reply_rate_bounded (N : Z) k now st acc t :
  0 ≤ N → admitted N k now st acc → Z.of_nat (length (replies_in t acc)) ≤ N.
Proof. intros HN Ha. by apply (rate_inv_holds N k now st acc HN Ha). Qed.
End rate.

(** ** The error triggers *)

Section errors.
Context `{Platform}.
Implicit Types (scope : ustr) (st : TriggerState) (s : ScopeState) (t : EnforcedTriggers).

Definition escalates (v : OutcomeVerdict) : bool := match v with Escalate _ => true | VOk => false end.

(** A run of outcomes of one scope. *)
Fixpoint run_outcomes scope t (os : list bool) st : list bool * TriggerState :=
  match os with
  | [] => ([], st)
  | o :: r =>
      let '(v, st1) := record_outcome scope o t st in
      let '(vs, st2) := run_outcomes scope t r st1 in
      (escalates v :: vs, st2)
  end.

(** The counters a scope's next outcome starts from. *)
Definition errors_of scope st : Z :=
  match scopes st !! scope with Some s => consecutive_errors s | None => 0 end.
Definition outcomes_of scope st : list bool :=
  match scopes st !! scope with Some s => outcomes s | None => [] end.

Lemma record_outcome_spec scope o t st v st' :
  trigger_wf st → record_outcome scope o t st = (v, st') →
  ∃ s s', errors_of scope st = consecutive_errors s ∧ outcomes_of scope st = outcomes s
    ∧ outcome_step o t s = (v, s') ∧ trigger_wf st'
    ∧ errors_of scope st' = consecutive_errors s' ∧ outcomes_of scope st' = outcomes s'.
Proof.
  intros Hwf Ho. pose proof (proj2 (counters_wf_step scope st None 0 o t Hwf)) as Hwf'.
  rewrite Ho in Hwf'. unfold record_outcome in Ho.
  destruct (scope_entry scope st) as [s st1] eqn:Es.
  apply scope_entry_spec in Es as (_ & _ & _ & Hsome & Hnone & _); [|done].
  destruct (outcome_step o t s) as [v' s'] eqn:Eo. simplify_eq.
  exists s, s'. unfold errors_of, outcomes_of. simpl. rewrite lookup_insert_eq.
  destruct (scopes st !! scope) as [s0|].
  - destruct (Hsome _ eq_refl) as (_ & -> & ->). done.
  - destruct (Hnone eq_refl) as (_ & -> & ->). done.
Qed.

Lemma mod_step (n k : Z) : 0 < n → 0 ≤ k < n → (k + 1) mod n = if n <=? k + 1 then 0 else k + 1.
Proof.
  intros Hn Hk. destruct (n <=? k + 1) eqn:E; reflect_bools.
  - replace (k + 1) with n by lia. by apply Z_mod_same_full.
  - apply Z.mod_small. lia.
Qed.

Lemma failure_run_aux scope t n : max_consecutive_errors t = Some n → error_rate_threshold t = None →
  1 ≤ n ≤ u32_max → ∀ (m : nat) (k : Z) st,
  trigger_wf st → 0 ≤ k → errors_of scope st = k mod n →
  (run_outcomes scope t (repeat false m) st).1
  = map (λ i, (k + Z.of_nat i) mod n =? 0) (seq 1 m).
Proof.
  intros Hn Hr Hb m. induction m as [|m IH]; intros k st Hwf Hk He; simpl; [done|].
  destruct (record_outcome scope false t st) as [v st1] eqn:Eo.
  destruct (record_outcome_spec _ _ _ _ _ _ Hwf Eo) as (s & s' & Hs & _ & Hstep & Hwf1 & Hs' & _).
  pose proof (Z.mod_pos_bound k n ltac:(lia)) as Hkb.
  pose proof (mod_step n (k mod n) ltac:(lia) Hkb) as Hmod. rewrite Zplus_mod_idemp_l in Hmod.
  specialize (IH (k + 1) st1 Hwf1 ltac:(lia)).
  destruct (run_outcomes scope t (repeat false m) st1) as [vs st2]. cbn [fst] in *.
  assert (escalates v = ((k + 1) mod n =? 0) ∧ consecutive_errors s' = (k + 1) mod n) as [Hv He'].
  { unfold outcome_step in Hstep. rewrite Hn, Hr in Hstep. rewrite He in Hs. rewrite <- Hs in Hstep.
    unfold u32_saturating_add in Hstep. rewrite Z.min_r in Hstep by lia.
    rewrite Hmod. destruct (n <=? k mod n + 1); simplify_eq; simpl; [done|].
    split; [|done]. symmetry. apply Z.eqb_neq. lia. }
  rewrite IH, Hv by (rewrite Hs'; done). f_equal. rewrite <- (seq_shift m 1), map_map. apply map_ext. intros i.
  do 2 f_equal. lia.
Qed.

(** With only [max_consecutive_errors = n] enforced, a run of failures
    escalates at every [n]-th failure and at no other: neither late, nor again
    before the next [n]. *)
Theorem failure_run_escalates scope t n m st :
  max_consecutive_errors t = Some n → error_rate_threshold t = None → 1 ≤ n ≤ u32_max →
  trigger_wf st → errors_of scope st = 0 →
  (run_outcomes scope t (repeat false m) st).1 = map (λ i, Z.of_nat i mod n =? 0) (seq 1 m).
Proof.
  intros Hn Hr Hb Hwf He. rewrite (failure_run_aux scope t n Hn Hr Hb m 0 st Hwf); [done|done|].
  rewrite He. symmetry. apply Z.mod_0_l. lia.
Qed.

Lemma last_n_length {A} (n : nat) (l : list A) : length (last_n n l) = Nat.min n (length l).
Proof. unfold last_n. rewrite length_drop. lia. Qed.

Lemma few_outcomes_aux scope t : max_consecutive_errors t = None → ∀ os st,
  trigger_wf st → (length (outcomes_of scope st) + length os < MIN_RATE_SAMPLES)%nat →
  Forall (λ b, b = false) (run_outcomes scope t os st).1.
Proof.
  intros Hn os. induction os as [|o os IH]; intros st Hwf Hlen; [constructor|]. simpl in *.
  destruct (record_outcome scope o t st) as [v st1] eqn:Eo.
  destruct (record_outcome_spec _ _ _ _ _ _ Hwf Eo) as (s & s' & _ & Hs & Hstep & Hwf1 & _ & Hs').
  specialize (IH st1 Hwf1). destruct (run_outcomes scope t os st1) as [vs st2]. cbn [fst] in *.
  rewrite Hs in Hlen. set (w := last_n ERROR_WINDOW (outcomes s ++ [o])).
  assert (length w ≤ length (outcomes s) + 1)%nat as Hw.
  { unfold w. rewrite last_n_length, length_app. cbn [length]. lia. }
  assert (escalates v = false ∧ outcomes s' = w) as [Hv Ho'].
  { unfold outcome_step in Hstep. rewrite Hn in Hstep. fold w in Hstep.
    destruct o; [by simplify_eq|].
    destruct (error_rate_threshold t) as [th|]; [|by simplify_eq].
    destruct (_ <=? length w)%nat eqn:E; reflect_bools; [lia|]. simpl in Hstep. by simplify_eq. }
  constructor; [done|]. apply IH. rewrite Hs', Ho'. lia.
Qed.

(** The error rate is never judged on thin evidence: with fewer than ten
    outcomes since the scope's counters were cleared (by an escalation, or by
    being new), [error_rate_threshold] alone never escalates, however many of
    them failed. *)
Theorem rate_needs_samples scope t os st :
  max_consecutive_errors t = None → trigger_wf st → outcomes_of scope st = [] →
  (length os < 10)%nat →
  Forall (λ b, b = false) (run_outcomes scope t os st).1.
Proof.
  intros Hn Hwf He Hlen. apply few_outcomes_aux; [done|done|]. by rewrite He.
Qed.
End errors.

(** ** The hooks *)

Section hook_lemmas.
Context `{Platform} `{Toml} (E : gate_env).
Implicit Types (session_id user_id : ustr) (M : TriggerMonitor) (fs : option states) (m : states).

(** When the 24 h spend has reached the operator's limit, no message gets
    through: the gate answers, the global scope is at least L2 Restricted, no
    scope's level is lowered, and the message consumes no reply capacity. *)
Theorem cost_limit_restricts session_id user_id M m spent limit :
  (∀ i, clock E i ≤ clock E (S i)) →
  clock E 4 + longest_timer (failsafe_config E) ≤ instant_max →
  (cost_limit_reached (file_at E 0) (file_at E 1) (home_dir E) (tel E) (clock E 0) (clock E 1) M).1
    = Some (spent, limit) →
  ∃ reply M' m' logs,
    gate_before_reply E session_id user_id M (Some m) = Some (Some reply, M', Some m', logs)
    ∧ state M' = state M
    ∧ 2 ≤ rank (level_at m' GLOBAL_SCOPE (clock E 2))
    ∧ ∀ scope, rank (level_at m scope (clock E 2)) ≤ rank (level_at m' scope (clock E 2)).
Proof.
  intros Hclk Hmax Hr. unfold gate_before_reply.
  destruct (cost_limit_reached _ _ _ _ _ _ _) as [o M1] eqn:Ec. simpl in Hr. subst o.
  assert (state M1 = state M) as HM.
  { unfold cost_limit_reached, cost_limit_reached_from, triggers in Ec. by case_code. }
  pose proof (Hclk 2%nat). pose proof (Hclk 3%nat).
  destruct (get_level (clock E 2) GLOBAL_SCOPE m) as [l m1] eqn:Eg.
  assert (l = level_at m GLOBAL_SCOPE (clock E 2)
    ∧ ∀ scope, level_at m1 scope (clock E 2) = level_at m scope (clock E 2)) as [Hl Hm1].
  { split; [by rewrite get_level_spec in Eg; simplify_eq|]. intros scope.
    by rewrite <- (level_at_get_level (clock E 2) GLOBAL_SCOPE scope (clock E 2) m), Eg. }
  destruct (level_ltb l L2Restricted) eqn:El; unfold level_ltb in El; reflect_bools; simpl in El.
  - match goal with |- context [set_level ?c ?t1 ?t2 ?s ?l ?r ?m] =>
      destruct (set_level_answers c t1 t2 s l r m Hmax) as [m2 E2]; rewrite E2 end.
    do 4 eexists. split; [done|]. split; [done|].
    assert (level_at m2 GLOBAL_SCOPE (clock E 2) = L2Restricted) as Hg2
      by (eapply level_at_set_level; [done|lia|done]).
    rewrite Hg2. split; [done|]. intros scope. destruct (decide (GLOBAL_SCOPE = scope)) as [<-|Hne].
    + rewrite Hg2, <- Hl. simpl. lia.
    + rewrite (level_at_set_level_ne _ _ _ _ _ _ _ _ _ _ E2), Hm1 by done. done.
  - do 4 eexists. split; [done|]. split; [done|]. rewrite Hm1, <- Hl. split; [lia|].
    intros scope. by rewrite Hm1.
Qed.

(** Upgrading never caps a running deployment: while no key is written in
    [triggers], the gate passes every message and reply outcomes never touch
    the failsafe levels. *)
Theorem unwritten_keys_enforce_nothing content_of session_id user_id success M fs :
  cache_ok content_of (home_dir E) M →
  (∀ i, content (file_at E i) = content_of (mtime (file_at E i))
        ∧ load (content (file_at E i)) = no_triggers) →
  (∃ M', gate_before_reply E session_id user_id M fs = Some (None, M', fs, [])
         ∧ state M' = state M)
  ∧ (∃ M', record_reply_outcome E session_id success M fs = Some (M', fs, [])).
Proof.
  intros Hc Hf. split.
  - unfold gate_before_reply, cost_limit_reached.
    destruct (cached_triggers content_of (file_at E 0) (home_dir E) M Hc) as (M1 & -> & Hc1 & HM1 & _);
      [apply Hf|].
    rewrite (proj2 (Hf 0%nat)). cbn -[u]. unfold monitor_admit_reply.
    destruct (cached_triggers content_of (file_at E 2) (home_dir E) M1 Hc1) as (M2 & -> & _ & HM2 & _);
      [apply Hf|].
    rewrite (proj2 (Hf 2%nat)). cbn -[u]. eexists. split; [done|]. simpl. congruence.
  - unfold record_reply_outcome, monitor_record_outcome.
    destruct (cached_triggers content_of (file_at E 0) (home_dir E) M Hc) as (M1 & -> & _);
      [apply Hf|].
    rewrite (proj2 (Hf 0%nat)). unfold record_outcome.
    destruct (scope_entry session_id (state M1)) as [s st1].
    unfold outcome_step. cbn -[u last_n]. destruct success; eauto.
Qed.
(** The gate panics only where setting the timer does. *)
Lemma gate_before_reply_answers session_id user_id M fs :
  clock E 4 + longest_timer (failsafe_config E) ≤ instant_max →
  is_Some (gate_before_reply E session_id user_id M fs).
Proof.
  intros Hmax. unfold gate_before_reply.
  destruct (cost_limit_reached _ _ _ _ _ _ _) as [[[spent limit]|] M1].
  - destruct fs as [m|]; [|by eexists]. destruct (get_level _ _ _) as [l m1].
    destruct (level_ltb _ _); [|by eexists].
    match goal with |- context [set_level ?c ?t1 ?t2 ?s ?l ?r ?m] =>
      destruct (set_level_answers c t1 t2 s l r m Hmax) as [m2 ->] end. by eexists.
  - destruct (monitor_admit_reply _ _ _ _ _) as [[] M2]; by eexists.
Qed.
End hook_lemmas.

(** ** Witnesses *)

#[local] Existing Instance colliding_platform.

(** A file with one key: [max_replies_per_minute] or [cost_limit_usd],
    selected by its content; an empty content is an empty table. *)
Definition demo_toml : Toml := {|
  toml_table := list (ustr * Z);
  toml_value := list (ustr * Z) + Z;
  toml_parse := λ s, Some (if is_empty s then [] else [(u "triggers", 0); (u "cost_limit_usd", 5)]);
  toml_get := λ t k,
    if existsb (λ p, ustr_eqb p.1 k) t then
      Some (if ustr_eqb k (u "triggers") then inl t else inr 5)
    else None;
  as_table := λ v, match v with inl t => Some t | inr _ => None end;
  as_integer := λ v, match v with inr z => Some z | inl _ => None end;
  as_float := λ _, None;
  as_str := λ _, None;
  as_bool := λ _, None;
  as_array := λ _, None;
|}.
#[local] Existing Instance demo_toml.

Definition demo_env (c : ustr) : gate_env := {|
  home_dir := [u "home"]; failsafe_config := Killswitch.FailsafeConfig_default;
  file_at := λ _, {| mtime := Some 7; content := Some c |};
  tel := {| installed := true; summary_global := Some 500 |};
  clock := λ i, secs (Z.of_nat i) |}.

(** 500 stored cents reach a limit of 5 USD. *)
Lemma cost_limit_restricts_witness :
  ∃ reply M' m' logs,
    gate_before_reply (demo_env (u "x")) (u "line:1") (u "user") TriggerMonitor_new (Some ∅)
      = Some (Some reply, M', Some m', logs)
    ∧ state M' = state TriggerMonitor_new
    ∧ 2 ≤ rank (level_at m' GLOBAL_SCOPE (secs 2))
    ∧ ∀ scope, rank (level_at ∅ scope (secs 2)) ≤ rank (level_at m' scope (secs 2)).
Proof.
  apply (cost_limit_restricts (demo_env (u "x")) (u "line:1") (u "user") TriggerMonitor_new ∅
    (f64_of_Z 5) (f64_of_Z 5)).
  - intros i. simpl. unfold secs. lia.
  - apply Z.leb_le. vm_compute. reflexivity.
  - vm_compute. reflexivity.
Defined.

Lemma unwritten_keys_enforce_nothing_witness :
  ∃ M', gate_before_reply (demo_env []) (u "line:1") (u "user") TriggerMonitor_new None
        = Some (None, M', None, []) ∧ state M' = state TriggerMonitor_new.
Proof.
  apply (unwritten_keys_enforce_nothing (demo_env []) (λ _, Some []) (u "line:1") (u "user") true
    TriggerMonitor_new None).
  - intros m t E. discriminate E.
  - intros i. split; vm_compute; reflexivity.
Defined.

Lemma cached_triggers_exact_witness :
  (triggers {| mtime := Some 7; content := Some [] |} [u "home"] TriggerMonitor_new).1 = load (Some []).
Proof.
  apply (cached_triggers_exact (λ _, Some []) {| mtime := Some 7; content := Some [] |} [u "home"]
    TriggerMonitor_new).
  - intros m t E. discriminate E.
  - reflexivity.
Defined.

Definition three_errors : EnforcedTriggers :=
  {| max_replies_per_minute := None; max_consecutive_errors := Some 3;
     error_rate_threshold := None; cost_limit_usd := None |}.
Definition rate_only : EnforcedTriggers :=
  {| max_replies_per_minute := None; max_consecutive_errors := None;
     error_rate_threshold := Some (f64_lit 3 10); cost_limit_usd := None |}.

Lemma failure_run_escalates_witness :
  (run_outcomes (u "s") three_errors (repeat false 7) TriggerState_default).1
  = [false; false; true; false; false; true; false].
Proof.
  etransitivity;
    [apply (failure_run_escalates (u "s") three_errors 3 7 TriggerState_default)|by_eval];
    [done|done|by_eval|apply trigger_wf_default|done].
Defined.

Lemma rate_needs_samples_witness :
  Forall (λ b, b = false) (run_outcomes (u "s") rate_only (repeat false 9) TriggerState_default).1.
Proof.
  apply rate_needs_samples; [done|apply trigger_wf_default|done|apply Nat.ltb_lt; by_eval].
Defined.

Lemma counters_wf_witness : trigger_wf (admit_reply (u "a") (Some 2) 5 TriggerState_default).2.
Proof. apply (counters_wf (u "a") TriggerState_default (Some 2) 5 true no_triggers), trigger_wf_default. Defined.

Definition one_scope : TriggerState := (admit_reply (u "a") (Some 2) 5 TriggerState_default).2.

Lemma active_scope_survives_witness :
  ∃ s, scopes one_scope !! u "a" = Some s
       ∧ scopes (admit_reply (u "b") (Some 2) 6 one_scope).2 !! u "a" = Some s.
Proof.
  exists (default ScopeState_default (scopes one_scope !! u "a")).
  assert (scopes one_scope !! u "a" = Some (default ScopeState_default (scopes one_scope !! u "a"))) as E
    by (vm_compute; reflexivity).
  split; [exact E|].
  refine (proj1 (active_scope_survives (u "a") (u "b") one_scope _ (Some 2) 6 true no_triggers _ E _ _));
    [apply (counters_wf_step (u "a") TriggerState_default (Some 2) 5 true no_triggers), trigger_wf_default|by_eval|by_eval].
Defined.

Lemma reply_rate_bounded_witness :
  Z.of_nat (length (replies_in 5 (present (u "a") one_scope ([] ++ [5])))) ≤ 2.
Proof.
  apply (reply_rate_bounded 2 (u "a") 5 one_scope); [lia|].
  apply (admitted_reply 2 (u "a") 5 TriggerState_default [] 5 (u "a") (Some 2) true one_scope);
    [constructor|lia|by_eval|eauto with lia].
Defined.
