(* ===== verification/Posture.v ===== *)
(** * The security posture and the loop that acts on it
    (security security_posture.rs, gateway posture_watch.rs)

    The {Green, Yellow, Red} tracker, and one poll of the watch loop against
    any failsafe manager that keeps the promises of [FailsafeScopes].  A poll
    without a result panicked, setting a timer past the latest instant. *)

From S2P Require Import Prelude Float64 Platform Killswitch Failsafe.

(** ** The tracker *)

Inductive SecurityPosture := Green | Yellow | Red.

#[export] Instance SecurityPosture_eq_dec : EqDecision SecurityPosture.
Proof. solve_decision. Defined.

Definition prank (p : SecurityPosture) : Z :=
  match p with Green => 0 | Yellow => 1 | Red => 2 end.

(** The derived order, and [Ord::max]. *)
Definition posture_ltb (a b : SecurityPosture) : bool := prank a <? prank b.
Definition posture_max (a b : SecurityPosture) : SecurityPosture := if posture_ltb b a then a else b.

Definition decayed (p : SecurityPosture) : SecurityPosture :=
  match p with Red => Yellow | Yellow => Green | Green => Green end.

Record PostureThresholds := {
  yellow_warnings : Z;
  yellow_criticals : Z;
  red_criticals : Z;
}.

Definition PostureThresholds_default : PostureThresholds :=
  {| yellow_warnings := 5; yellow_criticals := 1; red_criticals := 3 |}.

Definition DEFAULT_WINDOW_SECONDS : Z := 60.

Definition posture_from_counts (warning critical : Z) (t : PostureThresholds) : SecurityPosture :=
  if red_criticals t <=? critical then Red
  else if (yellow_criticals t <=? critical) || (yellow_warnings t <=? warning) then Yellow
  else Green.

Record PostureTracker := {
  current : SecurityPosture;
  thresholds : PostureThresholds;
}.

Definition PostureTracker_new (t : PostureThresholds) : PostureTracker :=
  {| current := Green; thresholds := t |}.

(** What one observation aims at. *)
Definition target (tr : PostureTracker) (warning critical : Z) (floor : option SecurityPosture)
    : SecurityPosture :=
  posture_max (posture_from_counts warning critical (thresholds tr)) (default Green floor).

(** [PostureTracker::observe]. *)
Definition observe (warning critical : Z) (floor : option SecurityPosture) (tr : PostureTracker)
    : SecurityPosture * PostureTracker :=
  let tgt := target tr warning critical floor in
  let c :=
    if posture_ltb (current tr) tgt then tgt
    else if posture_ltb tgt (current tr) then decayed (current tr)
    else current tr in
  (c, {| current := c; thresholds := thresholds tr |}).

(** ** What the loop needs of a failsafe manager

    [view M scope t]: the level of a scope at a time, timers included. *)
Class FailsafeScopes (M : Type) := {
  fs_get_level : Z → ustr → M → FailsafeLevel * M;
  fs_set_level : Z → Z → ustr → FailsafeLevel → ustr → M → option M;
  fs_resume : Z → Z → ustr → M → option M;
  view : M → ustr → Z → FailsafeLevel;
  fs_get_level_view now scope m : (fs_get_level now scope m).1 = view m scope now;
  fs_get_level_keeps now scope m scope' t :
    now ≤ t → view (fs_get_level now scope m).2 scope' t = view m scope' t;
  fs_set_level_view t t1 t2 scope l r m m' :
    fs_set_level t1 t2 scope l r m = Some m' → t ≤ t2 → l ≠ L0Normal → view m' scope t = l;
  fs_set_level_frame t t1 t2 scope scope' l r m m' :
    fs_set_level t1 t2 scope l r m = Some m' → scope ≠ scope' →
    view m' scope' t = view m scope' t;
  fs_resume_view t1 t2 scope m m' t :
    fs_resume t1 t2 scope m = Some m' → view m' scope t = L0Normal;
  fs_resume_frame t1 t2 scope scope' m m' t :
    fs_resume t1 t2 scope m = Some m' → scope ≠ scope' → view m' scope' t = view m scope' t;
}.

(** The manager of the code keeps them. *)
#[export] Program Instance failsafe_scopes `{Platform} (config : FailsafeConfig) : FailsafeScopes states := {|
  fs_get_level := get_level;
  fs_set_level := set_level config;
  fs_resume := resume config;
  view := level_at;
|}.
Next Obligation. intros. by rewrite get_level_spec. Qed.
Next Obligation. intros. by apply level_at_get_level. Qed.
Next Obligation. intros. by eapply level_at_set_level. Qed.
Next Obligation. intros. by eapply level_at_set_level_ne. Qed.
Next Obligation. intros ????? m m' t E. injection E as <-. apply level_at_delete. Qed.
Next Obligation. intros ?????? m m' t E ?. injection E as <-. by apply level_at_delete_ne. Qed.

(** ** The loop *)

Inductive PostureAction := NoAction | Restrict | Resume.

Definition decide_action (new : SecurityPosture) (we_restricted : bool)
    (current_level : FailsafeLevel) : PostureAction :=
  match new with
  | Red => if level_ltb current_level L2Restricted then Restrict else NoAction
  | Green =>
      if we_restricted && bool_decide (current_level = L2Restricted) then Resume else NoAction
  | Yellow => NoAction
  end.

Inductive Severity := Info | Warning | Critical.

Definition posture_severity (p : SecurityPosture) : Severity :=
  match p with Green => Info | Yellow => Warning | Red => Critical end.

Definition GLOBAL_SCOPE : ustr := u "__global__".

Inductive watch_log :=
| PostureEvent (s : Severity)
| FailsafeChange (scope from to reason : ustr).

Section watch.
Context {M : Type} `{!FailsafeScopes M}.

(** One poll.  [(warning, critical)] is what counting the audit log gave
    ([(0, 0)] when the blocking task failed), [now], [t1], [t2] its clock
    readings; [other] is what other tasks did to the manager between the read
    of the level and the write. *)
Definition poll_once (warning critical now t1 t2 : Z) (other : M → M)
    (fs : option M) (tr : PostureTracker) (we_restricted : bool)
    : option (SecurityPosture * bool * PostureTracker * option M * list watch_log) :=
  let prev := current tr in
  let '(new_posture, tr') := observe warning critical None tr in
  if bool_decide (new_posture = prev) then Some (new_posture, we_restricted, tr', fs, [])
  else
    let event := PostureEvent (posture_severity new_posture) in
    match fs with
    | None => Some (new_posture, we_restricted, tr', None, [event])
    | Some m =>
        let '(current_level, m1) := fs_get_level now GLOBAL_SCOPE m in
        let m2 := other m1 in
        match decide_action new_posture we_restricted current_level with
        | Restrict =>
            let reason :=
              u "security posture escalated to RED (" ++ show_Z warning ++ u " warning + "
                ++ show_Z critical ++ u " critical security_audit.jsonl events in the last "
                ++ show_Z DEFAULT_WINDOW_SECONDS ++ u "s)" in
            m3 ← fs_set_level t1 t2 GLOBAL_SCOPE L2Restricted reason m2;
            Some (new_posture, true, tr', Some m3,
             [event; FailsafeChange GLOBAL_SCOPE (show_level current_level) (u "L2Restricted") reason])
        | Resume =>
            m3 ← fs_resume t1 t2 GLOBAL_SCOPE m2;
            Some (new_posture, false, tr', Some m3,
             [event; FailsafeChange GLOBAL_SCOPE (show_level current_level) (u "L0Normal")
                       (u "security posture recovered to GREEN")])
        | NoAction =>
            Some (new_posture, we_restricted && negb (bool_decide (new_posture = Green)), tr',
             Some m2, [event])
        end
    end.

(** The loop of [spawn]: the state it carries is the tracker, the flag and
    the shared manager. *)
Record watch := { w_tracker : PostureTracker; w_restricted : bool; w_fs : option M }.

Definition watch_step (warning critical now t1 t2 : Z) (w : watch) : option watch :=
  '(_, r, tr, fs, _) ←
    poll_once warning critical now t1 t2 id (w_fs w) (w_tracker w) (w_restricted w);
  Some {| w_tracker := tr; w_restricted := r; w_fs := fs |}.
End watch.
Arguments watch M : clear implicits.

(** ** Properties of the tracker *)

Lemma prank_max a b : prank (posture_max a b) = Z.max (prank a) (prank b).
Proof. by destruct a, b. Qed.

Lemma prank_inj a b : prank a = prank b → a = b.
Proof. by destruct a, b. Qed.

Lemma observe_rank w c f tr :
  prank (observe w c f tr).1 = Z.max (prank (target tr w c f)) (prank (current tr) - 1).
Proof. unfold observe. simpl. by destruct (target tr w c f), (current tr). Qed.

(** A sequence of observations. *)
Fixpoint observe_all (obs : list (Z * Z * option SecurityPosture)) (tr : PostureTracker)
    : PostureTracker :=
  match obs with
  | [] => tr
  | (w, c, f) :: r => observe_all r (observe w c f tr).2
  end.

(** The most severe observation, each discounted by its age: newest first. *)
Fixpoint aged_max (age : Z) (targets : list SecurityPosture) (p0 : Z) : Z :=
  match targets with
  | [] => p0 - age
  | t :: r => Z.max (prank t - age) (aged_max (age + 1) r p0)
  end.

Definition targets_of (t : PostureThresholds) (obs : list (Z * Z * option SecurityPosture))
    : list SecurityPosture :=
  rev (map (λ o : Z * Z * option SecurityPosture,
              target {| current := Green; thresholds := t |} o.1.1 o.1.2 o.2) obs).

Lemma aged_max_snoc age ts t p0 :
  aged_max age (ts ++ [t]) p0
  = aged_max age ts (Z.max (prank t) (p0 - 1)).
Proof. revert age. induction ts as [|x ts IH]; intros age; simpl; [lia|]. by rewrite IH. Qed.

(** Escalate fast, decay slow, exactly: after any sequence of observations
    the posture is the most severe thing observed, each observation (and the
    initial posture) losing one level per observation since.  In particular
    one critical window shows at once, and a single quiet one never clears a
    Red. *)
Theorem posture_is_aged_max obs tr :
  prank (current (observe_all obs tr))
  = aged_max 0 (targets_of (thresholds tr) obs) (prank (current tr)).
Proof.
  revert tr. induction obs as [|[[w c] f] obs IH]; intros tr; [simpl; lia|].
  cbn [observe_all]. rewrite IH. unfold targets_of at 2. cbn [map rev]. rewrite aged_max_snoc.
  change (thresholds (observe w c f tr).2) with (thresholds tr).
  change (current (observe w c f tr).2) with (observe w c f tr).1.
  by rewrite observe_rank.
Qed.

(** ** Properties of the loop *)

Section watch_lemmas.
Context {M : Type} `{!FailsafeScopes M}.
Implicit Types (m : M) (fs : option M).

(** With nothing between its read and its write, a poll changes the global
    scope in two ways only: from below L2 up to L2, on a Red posture; and from
    exactly L2 to L0, on a Green posture with its own flag set.  It never
    touches L3, L4 or another scope. *)
Theorem poll_never_oversteps warning critical now t1 t2 m tr we p we' tr' fs' logs :
  now ≤ t1 → t1 ≤ t2 →
  poll_once warning critical now t1 t2 id (Some m) tr we = Some (p, we', tr', fs', logs) →
  ∃ m', fs' = Some m'
  ∧ (∀ scope, scope ≠ GLOBAL_SCOPE → view m' scope t2 = view m scope t2)
  ∧ (view m' GLOBAL_SCOPE t2 = view m GLOBAL_SCOPE t2
     ∨ (p = Red ∧ rank (view m GLOBAL_SCOPE now) < 2 ∧ we' = true
        ∧ view m' GLOBAL_SCOPE t2 = L2Restricted)
     ∨ (p = Green ∧ view m GLOBAL_SCOPE now = L2Restricted ∧ we = true ∧ we' = false
        ∧ view m' GLOBAL_SCOPE t2 = L0Normal)).
Proof.
  intros H01 H12 Hp. unfold poll_once in Hp.
  destruct (observe warning critical None tr) as [q tr1].
  destruct (bool_decide (q = current tr)); [simplify_eq; exists m; auto|].
  pose proof (fs_get_level_view now GLOBAL_SCOPE m) as Hl.
  pose proof (λ scope, fs_get_level_keeps now GLOBAL_SCOPE m scope t2 ltac:(lia)) as Hk.
  destruct (fs_get_level now GLOBAL_SCOPE m) as [l m1]. simpl in Hl, Hk. subst l.
  unfold decide_action, id in Hp.
  destruct q; [destruct (we && _) eqn:E| |destruct (level_ltb _ _) eqn:E].
  - apply bind_Some in Hp as (m3 & Hm3 & Hp). simplify_eq. reflect_bools.
    exists m3. split; [done|]. split.
    + intros scope Hne. rewrite (fs_resume_frame _ _ _ _ _ _ _ Hm3); auto.
    + right. right. rewrite (fs_resume_view _ _ _ _ _ _ Hm3). auto.
  - simplify_eq. exists m1. auto.
  - simplify_eq. exists m1. auto.
  - apply bind_Some in Hp as (m3 & Hm3 & Hp). simplify_eq.
    unfold level_ltb in E. reflect_bools. simpl in E. exists m3. split; [done|]. split.
    + intros scope Hne. rewrite (fs_set_level_frame _ _ _ _ _ _ _ _ _ Hm3); auto.
    + right. left. rewrite (fs_set_level_view _ _ _ _ _ _ _ _ Hm3) by done. auto.
  - simplify_eq. exists m1. auto.
Qed.

End watch_lemmas.

(** ** Against the manager of the code *)

#[local] Existing Instance colliding_platform.
#[local] Existing Instance failsafe_scopes.
Definition fcfg : FailsafeConfig := FailsafeConfig_default.
Definition red_tracker : PostureTracker :=
  {| current := Red; thresholds := PostureThresholds_default |}.
Definition yellow_tracker : PostureTracker :=
  {| current := Yellow; thresholds := PostureThresholds_default |}.

Definition poll_states := @poll_once states (failsafe_scopes fcfg).

Lemma poll_never_oversteps_witness :
  ∃ p we' tr' m' logs,
    poll_states 0 3 (secs 1) (secs 2) (secs 3) id (Some ∅)
      (PostureTracker_new PostureThresholds_default) false = Some (p, we', tr', Some m', logs)
    ∧ level_at m' GLOBAL_SCOPE (secs 3) = L2Restricted ∧ we' = true.
Proof.
  unfold poll_states. destruct (poll_once _ _ _ _ _ _ _ _ _) as [[[[[p we'] tr'] fs'] logs]|] eqn:E;
    [|vm_compute in E; discriminate E].
  destruct (@poll_never_oversteps states (failsafe_scopes fcfg) 0 3 (secs 1) (secs 2) (secs 3) ∅
    (PostureTracker_new PostureThresholds_default) false p we' tr' fs' logs
    ltac:(by_eval) ltac:(by_eval) E) as (m' & -> & _ & _).
  exists p, we', tr', m', logs. split; [done|].
  vm_compute in E. simplify_eq. split; vm_compute; reflexivity.
Defined.

(** The flag outlives the restriction it stands for.  The loop restricts
    (Red), its entry times out, somebody else restricts the global scope to
    L2, and the posture recovers: the poll that sees Green lifts that other
    restriction. *)
Theorem lifts_foreign_restriction (reason : ustr) :
  let m1 := default ∅ (set_level fcfg 0 0 GLOBAL_SCOPE L2Restricted (u "posture") ∅) in
  let m2 := (get_level (secs 700) GLOBAL_SCOPE m1).2 in
  let m3 := default ∅ (set_level fcfg (secs 800) (secs 800) GLOBAL_SCOPE L2Restricted reason m2) in
  level_at m2 GLOBAL_SCOPE (secs 700) = L0Normal
  ∧ level_at m3 GLOBAL_SCOPE (secs 900) = L2Restricted
  ∧ ∃ we' tr' m' logs,
      poll_states 0 0 (secs 900) (secs 900) (secs 900) id (Some m3) yellow_tracker true
        = Some (Green, we', tr', Some m', logs)
      ∧ level_at m' GLOBAL_SCOPE (secs 900) = L0Normal.
Proof.
  split; [vm_compute; reflexivity|]. split; [vm_compute; reflexivity|].
  do 4 eexists. split; [vm_compute; reflexivity|]. vm_compute. reflexivity.
Qed.

(** The level is read and written under two separate locks.  A global halt
    issued between them is lost: on Red it is overwritten by L2 Restricted
    (whose timer then lifts it), on Green by L0. *)
Theorem concurrent_halt_lost (reason : ustr) (now : Z) :
  now + longest_timer fcfg ≤ instant_max →
  let halt m := default m (force_halt fcfg now now GLOBAL_SCOPE reason m) in
  (∃ we' tr' m' logs,
     poll_states 0 3 now now now halt (Some ∅) (PostureTracker_new PostureThresholds_default) false
       = Some (Red, we', tr', Some m', logs)
     ∧ level_at m' GLOBAL_SCOPE now = L2Restricted)
  ∧ (∃ m we' tr' m' logs,
     set_level fcfg now now GLOBAL_SCOPE L2Restricted (u "posture") ∅ = Some m
     ∧ poll_states 0 0 now now now halt (Some m) yellow_tracker true
       = Some (Green, we', tr', Some m', logs)
     ∧ level_at m' GLOBAL_SCOPE now = L0Normal).
Proof.
  intros Hmax halt.
  pose proof (λ r m, set_level_answers fcfg now now GLOBAL_SCOPE L2Restricted r m Hmax) as Hset.
  split.
  - unfold poll_states, poll_once. cbn -[set_level force_halt u level_at get_level halt].
    rewrite get_level_spec, lookup_empty. cbn -[set_level u halt level_at].
    match goal with |- context [set_level _ _ _ _ _ ?r ?m] => destruct (Hset r m) as [m' Hm'] end.
    rewrite Hm'. do 4 eexists. split; [done|]. by eapply level_at_set_level.
  - destruct (Hset (u "posture") ∅) as [m Hm].
    pose proof (level_at_set_level fcfg now now now GLOBAL_SCOPE _ _ _ _ Hm (Z.le_refl _) ltac:(done)) as Hl.
    unfold poll_states, poll_once. cbn -[set_level force_halt u level_at get_level halt resume].
    exists m. rewrite get_level_spec, Hl. cbn -[set_level u level_at halt].
    do 4 eexists. split; [done|]. split; [done|]. apply level_at_delete.
Qed.
