(* ===== verification/ReplyGate.v ===== *)
(** * The gates of a channel reply, in order (gateway channel_reply/inner.rs)

    L0 safety words, L1 failsafe level, L2 circuit breaker (with its waiting
    loop), L2.4 the enforced triggers: the part of the reply turn between the
    prompt and the budget gate.  A gate either stops the turn with a reply
    (possibly the empty, silent one) or lets it go on.  No result is a panic:
    a timer or a window past the latest instant. *)

From S2P Require Import Prelude Float64 Platform Toml Killswitch Failsafe CircuitBreaker SafetyWord.
From S2P Require Import BreakerWait Triggers.

(** The shared objects of [ReplyContext] the gates use; the first two are
    optional there. *)
Record gate_state := {
  g_failsafe : option states;
  g_breakers : option breakers;
  g_monitor : TriggerMonitor;
}.

(** One turn's surroundings: the configuration, the clock readings of each
    gate, and what other tasks do to the shared objects while the turn waits
    in the breaker loop. *)
Record turn := {
  ks : KillswitchConfig;
  lang : Lang;
  task_sender : option SenderKind;
  t_l0 : nat → Z;
  t_l1 : nat → Z;
  t_escalate : nat → Z;
  waiting : schedule;
  others_failsafe : states → states;
  trig : gate_env;
}.

Definition with_failsafe (fs : option states) (g : gate_state) : gate_state :=
  {| g_failsafe := fs; g_breakers := g_breakers g; g_monitor := g_monitor g |}.
Definition with_breakers (cb : option breakers) (g : gate_state) : gate_state :=
  {| g_failsafe := g_failsafe g; g_breakers := cb; g_monitor := g_monitor g |}.

(** What a gate answers: [Some reply] ends the turn. *)
Definition outcome : Type := option ustr * gate_state * list effect.

Section gates.
Context `{Platform} `{Toml} (T : turn).
Implicit Types (session_id user_id text : ustr) (g : gate_state).

Definition fcfg : FailsafeConfig := failsafe (ks T).

(** L0: safety words, handled inline. *)
Definition safety_gate text session_id user_id g : option outcome :=
  let safety_action := SafetyWord.check text (safety_words (ks T)) in
  let log action := AuditSafetyWord session_id user_id action in
  match safety_action with
  | Stop scope =>
      match g_failsafe g with
      | Some m =>
          match scope with
          | CurrentScope =>
              m' ← force_halt fcfg (t_l0 T 0) (t_l0 T 1) session_id (u "safety word") m;
              Some (Some (format_response safety_action session_id),
                    with_failsafe (Some m') g, [log (u "stop"); EmitSafetyWord])
          | Global =>
              m' ← force_halt fcfg (t_l0 T 0) (t_l0 T 1) session_id
                     (u "safety word: STOP ALL (scope-only)") m;
              Some (Some (u "🛑 Agent stopped (scope). Global stop requires admin — use chat command."),
                    with_failsafe (Some m') g, [log (u "stop_all_downgraded"); EmitSafetyWord])
          end
      | None => Some (Some (format_response safety_action session_id), g, [])
      end
  | Resume =>
      match g_failsafe g with
      | Some m =>
          m' ← resume fcfg (t_l0 T 0) (t_l0 T 1) session_id m;
          Some (Some (format_response safety_action session_id), with_failsafe (Some m') g,
                [log (u "resume"); EmitSafetyWord])
      | None => Some (Some (u "⚠️ Failsafe system not initialized."), g, [])
      end
  | Status =>
      match g_failsafe g with
      | Some m =>
          let '(state, m') := get_state (t_l0 T 0) session_id m in
          Some (Some (format_status (t_l0 T 1) (t_l0 T 2) session_id state),
                with_failsafe (Some m') g, [])
      | None => Some (Some (u "Failsafe: not initialized"), g, [])
      end
  | SafetyWord.NoAction => Some (None, g, [])
  end.

(** L1: the failsafe gate, on the more severe of the two levels. *)
Definition failsafe_gate session_id user_id g : outcome :=
  match g_failsafe g with
  | None => (None, g, [])
  | Some m =>
      let '(global_level, m1) := get_level (t_l1 T 0) GLOBAL_SCOPE m in
      let '(scope_level, m2) := get_level (t_l1 T 1) session_id m1 in
      let effective_level := level_max global_level scope_level in
      let g' := with_failsafe (Some m2) g in
      match effective_level with
      | L4Halted =>
          (Some (default (u "Service paused.") (canned_reply fcfg effective_level)), g',
           [HealthReceive session_id; HealthMark (u "gate_refused")])
      | L3Muted =>
          (Some [], g',
           [HealthReceive session_id; HealthMark (u "gate_refused");
            SilentReply session_id user_id (u "silent_by_design: l3_muted")])
      | L2Restricted =>
          (Some (default (u "Service restricted.") (canned_reply fcfg effective_level)), g',
           [HealthReceive session_id; HealthMark (u "gate_refused")])
      | L1Degraded | L0Normal => (None, g', [])
      end
  end.

(** What the turn finds in the failsafe manager after the breaker loop. *)
Definition after_wait g : gate_state :=
  with_failsafe (others_failsafe T <$> g_failsafe g) g.

(** L2: the circuit breaker.  The breaker state it returns feeds the
    defensive prompt later. *)
Definition breaker_gate text session_id user_id g : option (outcome * BreakerState) :=
  match g_breakers g with
  | None => Some ((None, g, []), Closed)
  | Some cb =>
      '(admission, _, cb') ←
        check_inbound_waiting (circuit_breaker (ks T)) (waiting T) (wait_fuel MAX_TOTAL_WAIT)
          session_id text (task_sender T) cb;
      let g1 := with_breakers (Some cb') (after_wait g) in
      match admission with
      | Refused notify =>
          Some ((Some (if notify : bool then refused_text (lang T) else []), g1,
                 [HealthReceive session_id; HealthMark (u "rate_limited");
                  SilentReply session_id user_id (u "silent_by_design: rate_limited_after_wait")]),
                Closed)
      | Decision d =>
          match d with
          | Allow | Wait _ => Some ((None, g1, []), Closed)
          | Throttle => Some ((None, g1, []), HalfOpen)
          | Deny _ =>
              Some ((Some [], g1,
                     [HealthReceive session_id; HealthMark (u "gate_refused");
                      SilentReply session_id user_id (u "silent_by_design: breaker_deny")]), Closed)
          | Trip reason =>
              let shown := show_trip_reason reason in
              let logs :=
                [HealthReceive session_id; HealthMark (u "gate_refused");
                 AuditBreakerTrip session_id shown; EmitBreakerTrip;
                 SilentReply session_id user_id
                   (u "silent_by_design: breaker_trip (" ++ shown ++ u ")")] in
              match g_failsafe g1 with
              | Some m =>
                  '(_, m') ← escalate fcfg (t_escalate T 0) (t_escalate T 1) session_id
                              (u "circuit breaker: " ++ shown) m;
                  Some ((Some [], with_failsafe (Some m') g1, logs), Closed)
              | None => Some ((Some [], g1, logs), Closed)
              end
          end
      end
  end.

(** L2.4: the enforced triggers. *)
Definition trigger_gate session_id user_id g : option outcome :=
  '(stop, M', fs', logs) ←
    gate_before_reply (trig T) session_id user_id (g_monitor g) (g_failsafe g);
  Some
    (stop, {| g_failsafe := fs'; g_breakers := g_breakers g; g_monitor := M' |},
     match stop with
     | Some _ => logs ++ [HealthReceive session_id; HealthMark (u "gate_refused")]
     | None => logs
     end).

(** The gates in sequence: each runs on the state the previous one left. *)
Definition reply_gates text session_id user_id g : option (outcome * BreakerState) :=
  '(stop1, g1, logs1) ← safety_gate text session_id user_id g;
  match stop1 with
  | Some reply => Some ((Some reply, g1, logs1), Closed)
  | None =>
      let '(stop2, g2, logs2) := failsafe_gate session_id user_id g1 in
      match stop2 with
      | Some reply => Some ((Some reply, g2, logs1 ++ logs2), Closed)
      | None =>
          '((stop3, g3, logs3), b) ← breaker_gate text session_id user_id g2;
          match stop3 with
          | Some reply => Some ((Some reply, g3, logs1 ++ logs2 ++ logs3), b)
          | None =>
              '(stop4, g4, logs4) ← trigger_gate session_id user_id g3;
              Some ((stop4, g4, logs1 ++ logs2 ++ logs3 ++ logs4), b)
          end
      end
  end.

(** ** Lemmas *)

Definition stops (o : outcome) : bool := match o.1.1 with Some _ => true | None => false end.

(** The level a message of a session meets. *)
Definition effective (m : states) session_id (t0 t1 : Z) : FailsafeLevel :=
  level_max (level_at m GLOBAL_SCOPE t0) (level_at m session_id t1).

Lemma failsafe_gate_level session_id user_id g m :
  g_failsafe g = Some m → t_l1 T 0 ≤ t_l1 T 1 →
  ∃ m2, (failsafe_gate session_id user_id g).1.2 = with_failsafe (Some m2) g
    ∧ (∀ scope t, t_l1 T 1 ≤ t → level_at m2 scope t = level_at m scope t)
    ∧ (failsafe_gate session_id user_id g).1.1
      = match effective m session_id (t_l1 T 0) (t_l1 T 1) with
        | L4Halted => Some (default_halted_reply fcfg)
        | L3Muted => Some []
        | L2Restricted => Some (default_restricted_reply fcfg)
        | _ => None
        end.
Proof.
  intros Hg Ht. unfold failsafe_gate. rewrite Hg.
  destruct (get_level (t_l1 T 0) GLOBAL_SCOPE m) as [l0 m1] eqn:E0.
  destruct (get_level (t_l1 T 1) session_id m1) as [l1 m2] eqn:E1.
  assert (∀ scope t, t_l1 T 0 ≤ t → level_at m1 scope t = level_at m scope t) as H1.
  { intros scope t Hle. rewrite <- (level_at_get_level _ GLOBAL_SCOPE scope t m Hle). by rewrite E0. }
  assert (∀ scope t, t_l1 T 1 ≤ t → level_at m2 scope t = level_at m scope t) as H2.
  { intros scope t Hle. rewrite <- (H1 scope t) by lia.
    rewrite <- (level_at_get_level _ session_id scope t m1 Hle). by rewrite E1. }
  assert (level_max l0 l1 = effective m session_id (t_l1 T 0) (t_l1 T 1)) as ->.
  { unfold effective. rewrite <- (H1 session_id (t_l1 T 1)) by lia.
    rewrite get_level_spec in E0, E1. by simplify_eq. }
  exists m2. split; [|split; [done|]]; by destruct (effective _ _ _ _).
Qed.

(** What a turn needs of its clocks: the breaker window, from every
    timestamp the breakers hold (and keep holding while other tasks run), and
    the longest failsafe timer, from the readings that set one, end before the
    latest instant. *)
Record turn_fits g : Prop := {
  fit_breakers cb : g_breakers g = Some cb → registry_fits (circuit_breaker (ks T)) cb;
  fit_others : others_fit (circuit_breaker (ks T)) (waiting T);
  fit_escalate : t_escalate T 1 + longest_timer fcfg ≤ instant_max;
  fit_triggers :
    clock (trig T) 4 + longest_timer (failsafe_config (trig T)) ≤ instant_max;
}.

Lemma breaker_gate_total text session_id user_id g :
  turn_fits g → is_Some (breaker_gate text session_id user_id g).
Proof.
  intros [Hcb Ho He _]. unfold breaker_gate. destruct (g_breakers g) as [cb|] eqn:Eg; [|by eauto].
  destruct (wait_loop_terminates (circuit_breaker (ks T)) (waiting T) session_id text
    (current_sender (task_sender T)) MAX_TOTAL_WAIT (wait_fuel MAX_TOTAL_WAIT) 0 0 cb)
    as [[[a total] cb'] E];
    [done|by apply Hcb|by unfold MAX_TOTAL_WAIT, secs; lia|by apply wait_fuel_enough|].
  unfold check_inbound_waiting, check_inbound_waiting_at_most. rewrite E. simpl.
  destruct a as [[]|]; simpl; try by eexists.
  destruct (_ <$> _) as [m|]; [|by eexists].
  match goal with |- context [escalate ?c ?t1 ?t2 ?s ?r ?m] =>
    destruct (escalate_answers c t1 t2 s r m He) as [[l m'] ->] end. by eexists.
Qed.

Lemma safety_gate_total text session_id user_id g :
  is_Some (safety_gate text session_id user_id g).
Proof.
  unfold safety_gate. destruct (SafetyWord.check _ _) as [[]| | |]; destruct (g_failsafe g);
    try destruct (get_state _ _ _); by eexists.
Qed.
End gates.

(** ** Properties *)

Section properties.
Context `{Platform} `{Toml} (T : turn).
Implicit Types (session_id user_id text : ustr) (g : gate_state).

Lemma safety_gate_frame text session_id user_id g :
  match safety_gate T text session_id user_id g with
  | Some (_, g', _) => g_breakers g' = g_breakers g ∧ g_monitor g' = g_monitor g
  | None => True
  end.
Proof.
  unfold safety_gate. destruct (SafetyWord.check _ _) as [[]| | |]; destruct (g_failsafe g);
    by try destruct (get_state _ _ _).
Qed.

Lemma failsafe_gate_frame session_id user_id g :
  g_breakers (failsafe_gate T session_id user_id g).1.2 = g_breakers g.
Proof.
  unfold failsafe_gate. destruct (g_failsafe g) as [m|]; [|done].
  destruct (get_level _ _ _), (get_level _ _ _). by destruct (level_max _ _).
Qed.

(** C2 Every turn gets an answer from its gates, and no panic, as long as the
    configured breaker window and failsafe timers end before the latest
    instant the clock can represent: whatever the text, the levels, the
    breakers and what other tasks do to the shared objects, each gate returns
    and the waiting loop ends within its fuel. *)
Theorem reply_gates_total text session_id user_id g :
  turn_fits T g → ∃ o b, reply_gates T text session_id user_id g = Some (o, b).
Proof.
  intros Hf. unfold reply_gates.
  pose proof (safety_gate_frame text session_id user_id g) as Hb1.
  destruct (safety_gate_total T text session_id user_id g) as [[[r1 g1] logs1] E1].
  rewrite E1 in Hb1 |- *. destruct r1 as [r1|]; simpl; [by eauto|].
  pose proof (failsafe_gate_frame session_id user_id g1) as Hb2.
  destruct (failsafe_gate T session_id user_id g1) as [[[r2|] g2] logs2]; [by eauto|].
  assert (turn_fits T g2) as Hf2.
  { destruct Hf. split; [|done..]. destruct Hb1 as [Hb1 _]. simpl in Hb2. by rewrite Hb2, Hb1. }
  destruct (breaker_gate_total T text session_id user_id g2 Hf2) as [[[[r3 g3] logs3] b] ->].
  destruct r3 as [r3|]; simpl; [by eauto|].
  unfold trigger_gate.
  destruct (gate_before_reply_answers (trig T) session_id user_id (g_monitor g3) (g_failsafe g3)
    (fit_triggers T g Hf)) as [[[[stop M'] fs'] logs] ->]. simpl. eauto.
Qed.

Lemma safety_gate_pass text session_id user_id g g' logs :
  safety_gate T text session_id user_id g = Some (None, g', logs) →
  SafetyWord.check text (safety_words (ks T)) = SafetyWord.NoAction ∧ g' = g ∧ logs = [].
Proof.
  unfold safety_gate. destruct (SafetyWord.check _ _) as [[]| | |]; destruct (g_failsafe g);
    try destruct (get_state _ _ _);
    (intros Hp; first [discriminate Hp|injection Hp as <- <-; done]).
Qed.

(** C1 While a conversation's level, or the global one, is L2 or higher, no
    message of it reaches the model: whatever its text, the gates end the
    turn, and neither the breakers nor the trigger counters see it. *)
Theorem restricted_never_passes text session_id user_id g m :
  g_failsafe g = Some m → t_l1 T 0 ≤ t_l1 T 1 →
  2 ≤ rank (effective m session_id (t_l1 T 0) (t_l1 T 1)) →
  ∃ reply g' logs,
    reply_gates T text session_id user_id g = Some ((Some reply, g', logs), Closed)
    ∧ g_breakers g' = g_breakers g ∧ g_monitor g' = g_monitor g.
Proof.
  intros Hm Ht Hr. unfold reply_gates.
  pose proof (safety_gate_frame text session_id user_id g) as Hfr.
  destruct (safety_gate_total T text session_id user_id g) as [[[r1 g1] logs1] E1].
  rewrite E1 in Hfr |- *. destruct r1 as [r1|]; simpl; [by eauto|].
  apply safety_gate_pass in E1 as (_ & -> & ->).
  destruct (failsafe_gate_level T session_id user_id g m Hm Ht) as (m2 & Hg2 & _ & Ho).
  destruct (failsafe_gate T session_id user_id g) as [[r2 g2] logs2]. simpl in Hg2, Ho. subst r2 g2.
  destruct (effective _ _ _ _); simpl in Hr; try lia; eauto 10.
Qed.

(** What passing means: the text is no safety word, neither level is above
    L1, the breaker allowed the message (or is probing), the 24 h spend is
    under the limit, the reply rate had room, and no log line was written. *)
Theorem passing_message text session_id user_id g g' logs b :
  (∀ m, g_failsafe g = Some m → t_l1 T 0 ≤ t_l1 T 1) →
  reply_gates T text session_id user_id g = Some ((None, g', logs), b) →
  SafetyWord.check text (safety_words (ks T)) = SafetyWord.NoAction
  ∧ (∀ m, g_failsafe g = Some m → rank (effective m session_id (t_l1 T 0) (t_l1 T 1)) ≤ 1)
  ∧ logs = []
  ∧ ∃ M, (cost_limit_reached (file_at (trig T) 0) (file_at (trig T) 1) (home_dir (trig T))
             (tel (trig T)) (clock (trig T) 0) (clock (trig T) 1) (g_monitor g)).1 = None
         ∧ (monitor_admit_reply (file_at (trig T) 2) (home_dir (trig T)) session_id
              (clock (trig T) 5) M).1 = true.
Proof.
  intros Ht Hp. unfold reply_gates in Hp.
  destruct (safety_gate T text session_id user_id g) as [[[[r1|] g1] logs1]|] eqn:E1; try done.
  simpl in Hp. apply safety_gate_pass in E1 as (Hs & -> & ->). split; [done|].
  assert (∀ m, g_failsafe g = Some m →
    (failsafe_gate T session_id user_id g).1.1 = None →
    rank (effective m session_id (t_l1 T 0) (t_l1 T 1)) ≤ 1) as Hlev.
  { intros m Hm Hn. destruct (failsafe_gate_level T session_id user_id g m Hm (Ht _ Hm)) as (? & _ & _ & Ho).
    rewrite Hn in Ho. destruct (effective _ _ _ _); simpl; done. }
  assert ((failsafe_gate T session_id user_id g).1.1 = None →
    (failsafe_gate T session_id user_id g).2 = []
    ∧ g_monitor (failsafe_gate T session_id user_id g).1.2 = g_monitor g) as Hlog.
  { unfold failsafe_gate. destruct (g_failsafe g) as [m|]; [|done].
    destruct (get_level _ _ _), (get_level _ _ _). by destruct (level_max _ _). }
  destruct (failsafe_gate T session_id user_id g) as [[[r2|] g2] logs2]; [done|].
  cbn [fst snd] in Hlev, Hlog. destruct (Hlog eq_refl) as [-> Hmon2].
  split; [intros m Hm; by apply Hlev|].
  destruct (breaker_gate T text session_id user_id g2) as [[[[[r3|] g3] logs3] b3]|] eqn:E3;
    simpl in Hp; [by simplify_eq| |done].
  assert (logs3 = [] ∧ g_monitor g3 = g_monitor g2) as [-> Hmon3].
  { unfold breaker_gate in E3. destruct (g_breakers g2); [|by simplify_eq].
    destruct (check_inbound_waiting _ _ _ _ _ _ _) as [[[[d|n] ?] ?]|]; simpl in E3; [|by simplify_eq..].
    destruct d; simplify_eq; try done.
    destruct (_ <$> _); simpl in E3; [destruct (escalate _ _ _ _ _ _) as [[]|]|]; by simplify_eq/=. }
  unfold trigger_gate, gate_before_reply in Hp. rewrite Hmon3, Hmon2 in Hp.
  destruct (cost_limit_reached _ _ _ _ _ _ _) as [[[spent limit]|] M1].
  { destruct (g_failsafe g3); [destruct (get_level _ _ _), (level_ltb _ _)|]; try by simplify_eq/=.
    destruct (set_level _ _ _ _ _ _ _); by simplify_eq/=. }
  destruct (monitor_admit_reply _ _ _ _ _) as [[] M2] eqn:Em; simplify_eq/=.
  split; [done|]. exists M1. by rewrite Em.
Qed.

(** [!STOP] always works: a stop word halts its conversation for good, even
    when the conversation is muted, restricted or halted already, touches no
    other scope, and costs nothing at the breaker.  Inline, [!STOP ALL] is
    downgraded to the same effect: the global scope stays as it was. *)
Theorem stop_word_halts text session_id user_id g m s :
  g_failsafe g = Some m →
  SafetyWord.check text (safety_words (ks T)) = Stop s →
  ∃ reply g' m' logs,
    reply_gates T text session_id user_id g = Some ((Some reply, g', logs), Closed)
    ∧ g_failsafe g' = Some m' ∧ g_breakers g' = g_breakers g
    ∧ (∀ t, level_at m' session_id t = L4Halted)
    ∧ (∀ scope t, scope ≠ session_id → level_at m' scope t = level_at m scope t).
Proof.
  intros Hm Hs.
  assert (∀ r t, level_at (<[session_id := halted (t_l0 T 0) r]> m) session_id t = L4Halted) as Hh.
  { intros r t. by rewrite level_at_insert. }
  assert (∀ r scope t, scope ≠ session_id →
    level_at (<[session_id := halted (t_l0 T 0) r]> m) scope t = level_at m scope t) as Hf.
  { intros. by apply level_at_insert_ne. }
  unfold reply_gates, safety_gate. rewrite Hs, Hm.
  destruct s; rewrite force_halt_eq; cbn [mbind option_bind]; do 4 eexists; (split; [done|]); (split; [done|]); (split; [done|]); split; intros; auto.
Qed.

(** A trip is answered with silence and felt next time: the conversation's
    failsafe level goes up one step, saturating at L4, and no other scope's
    level moves. *)
Theorem trip_escalates_scope text session_id user_id g m cb total cb' reason t :
  g_failsafe g = Some m → g_breakers g = Some cb → others_failsafe T = id →
  t_escalate T 0 = t → t_escalate T 1 = t → unexpired m session_id t →
  t + longest_timer (fcfg T) ≤ instant_max →
  check_inbound_waiting (circuit_breaker (ks T)) (waiting T) (wait_fuel MAX_TOTAL_WAIT)
    session_id text (task_sender T) cb = Some (Decision (Trip reason), total, cb') →
  ∃ m' logs,
    breaker_gate T text session_id user_id g
    = Some ((Some [], with_breakers (Some cb') (with_failsafe (Some m') g), logs), Closed)
    ∧ rank (level_at m' session_id t) = Z.min 4 (rank (level_at m session_id t) + 1)
    ∧ ∀ scope t', scope ≠ session_id → level_at m' scope t' = level_at m scope t'.
Proof.
  intros Hm Hcb Hid Ht0 Ht1 Hu Hmax Hw. unfold breaker_gate. rewrite Hcb, Hw. simpl.
  rewrite Hm, Hid, Ht0, Ht1. unfold id. simpl.
  match goal with |- context [escalate ?c ?t1 ?t2 ?s ?r ?m0] =>
    destruct (escalate_answers c t1 t2 s r m0 Hmax) as [[l m'] E] end.
  rewrite E. cbn [mbind option_bind].
  exists m'. eexists. split; [done|].
  split; [by apply (escalate_one _ _ _ _ _ _ _ E)|].
  intros scope t' Hne. by eapply level_at_escalate_ne.
Qed.
End properties.

(** ** Witnesses *)

#[local] Existing Instance colliding_platform.
#[local] Existing Instance demo_toml.

(** A turn in which the window of a busy conversation is full for 7 s, and
    meanwhile [other] happens to the failsafe manager. *)
Definition busy_ks : KillswitchConfig := {|
  Killswitch.triggers := TriggersConfig_default; circuit_breaker := busy_config;
  failsafe := FailsafeConfig_default; safety_words := SafetyWordsConfig_default;
  defensive_prompt := DefensivePromptConfig_default |}.
Definition busy_turn (other : states → states) : turn := {|
  ks := busy_ks; lang := En; task_sender := None;
  t_l0 := λ _, secs 3; t_l1 := λ _, secs 3; t_escalate := λ _, secs 20;
  waiting := quiet; others_failsafe := other; trig := demo_env [] |}.
Definition demo_state (m : states) : gate_state := {|
  g_failsafe := Some m; g_breakers := Some busy_registry; g_monitor := TriggerMonitor_new |}.
Definition session : ustr := u "line:U1".
Definition restricted : states :=
  default ∅ (set_level FailsafeConfig_default 0 0 GLOBAL_SCOPE L2Restricted (u "test") ∅).

Lemma reply_gates_total_witness :
  ∃ o b, reply_gates (busy_turn id) (u "hello") session (u "user") (demo_state ∅) = Some (o, b).
Proof.
  apply (reply_gates_total (busy_turn id) (u "hello") session (u "user") (demo_state ∅)). split.
  - intros cb E. injection E as <-. apply busy_registry_fits.
  - by intros i m Hm.
  - apply Z.leb_le. vm_compute. reflexivity.
  - apply Z.leb_le. vm_compute. reflexivity.
Defined.

Lemma restricted_never_passes_witness :
  ∃ reply g' logs,
    reply_gates (busy_turn id) (u "hello") session (u "user") (demo_state restricted)
      = Some ((Some reply, g', logs), Closed)
    ∧ g_breakers g' = Some busy_registry ∧ g_monitor g' = TriggerMonitor_new.
Proof.
  apply (restricted_never_passes (busy_turn id) (u "hello") session (u "user") (demo_state restricted)
    restricted); by_eval.
Defined.

Lemma stop_word_halts_witness :
  ∃ reply g' m' logs,
    reply_gates (busy_turn id) (u " !stop ") session (u "user") (demo_state restricted)
      = Some ((Some reply, g', logs), Closed)
    ∧ g_failsafe g' = Some m' ∧ g_breakers g' = Some busy_registry
    ∧ (∀ t, level_at m' session t = L4Halted)
    ∧ (∀ scope t, scope ≠ session → level_at m' scope t = level_at restricted scope t).
Proof.
  apply (stop_word_halts (busy_turn id) (u " !stop ") session (u "user") (demo_state restricted)
    restricted CurrentScope); by_eval.
Defined.

(** The gates on a message that is held 7 s and then allowed. *)
Definition held_result (other : states → states) : option (outcome * BreakerState) :=
  reply_gates (busy_turn other) (u "hello") session (u "user") (demo_state ∅).

Definition passes (r : option (outcome * BreakerState)) : bool :=
  match r with Some ((None, _, _), _) => true | _ => false end.
Definition final_state (r : option (outcome * BreakerState)) : gate_state :=
  match r with Some ((_, g, _), _) => g | None => demo_state ∅ end.
Definition final_logs (r : option (outcome * BreakerState)) : list effect :=
  match r with Some ((_, _, logs), _) => logs | None => [] end.
Definition final_breaker (r : option (outcome * BreakerState)) : BreakerState :=
  match r with Some (_, b) => b | None => Closed end.

Lemma passes_eta r : passes r = true →
  r = Some ((None, final_state r, final_logs r), final_breaker r).
Proof.
  intros E. unfold passes in E. unfold outcome in *.
  destruct r as [[[[o g] logs] b]|]; [|discriminate E]. destruct o; [discriminate E|done].
Qed.

Lemma passing_message_witness :
  SafetyWord.check (u "hello") SafetyWordsConfig_default = SafetyWord.NoAction.
Proof.
  apply (passing_message (busy_turn id) (u "hello") session (u "user") (demo_state ∅)
    (final_state (held_result id)) (final_logs (held_result id)) (final_breaker (held_result id))).
  - intros. by_eval.
  - apply passes_eta. vm_compute. reflexivity.
Defined.

(** A conversation one message short of the hard limit. *)
Definition strict_config : CircuitBreakerConfig := {|
  frequency_window_secs := 10; frequency_max_replies := 5;
  similarity_threshold := f64_lit 95 100; token_explosion_multiplier := f64_of_Z 3;
  cooldown_secs := 60; half_open_allow_count := 2; hard_window_secs := 60;
  hard_max_messages := 1 |}.
Definition strict_turn : turn := {|
  ks := {| Killswitch.triggers := TriggersConfig_default; circuit_breaker := strict_config;
           failsafe := FailsafeConfig_default; safety_words := SafetyWordsConfig_default;
           defensive_prompt := DefensivePromptConfig_default |};
  lang := En; task_sender := None;
  t_l0 := λ _, secs 3; t_l1 := λ _, secs 3; t_escalate := λ _, secs 20;
  waiting := quiet; others_failsafe := id; trig := demo_env [] |}.
Definition strict_result : option (Admission * Z * breakers) :=
  check_inbound_waiting strict_config quiet (wait_fuel MAX_TOTAL_WAIT) session (u "hello") None
    busy_registry.
Definition strict_breakers : breakers :=
  match strict_result with Some (_, _, cb) => cb | None => ∅ end.

Lemma trip_escalates_scope_witness :
  ∃ m' logs,
    breaker_gate strict_turn (u "hello") session (u "user") (demo_state ∅)
    = Some ((Some [], with_breakers (Some strict_breakers)
               (with_failsafe (Some m') (demo_state ∅)), logs), Closed)
    ∧ rank (level_at m' session (secs 20)) = Z.min 4 (rank (level_at ∅ session (secs 20)) + 1)
    ∧ ∀ scope t', scope ≠ session → level_at m' scope t' = level_at ∅ scope t'.
Proof.
  apply (trip_escalates_scope strict_turn (u "hello") session (u "user") (demo_state ∅) ∅
    busy_registry 0 strict_breakers (FrequencyAnomaly 2 60) (secs 20));
    [by_eval..|apply Z.leb_le; by_eval|by_eval].
Defined.

(** A halt issued while a message waits for room does not stop it: the
    failsafe levels are read before the wait only, so the message goes on to
    the model although the global scope is L4 Halted by then. *)
Theorem halt_during_wait_ignored :
  let halt m :=
    default m (force_halt FailsafeConfig_default (secs 5) (secs 5) GLOBAL_SCOPE (u "!STOP ALL") m) in
  let r := held_result halt in
  passes r = true
  ∧ ∃ m, g_failsafe (final_state r) = Some m ∧ ∀ t, level_at m GLOBAL_SCOPE t = L4Halted.
Proof.
  split; [vm_compute; reflexivity|].
  exists (<[GLOBAL_SCOPE := halted (secs 5) (u "!STOP ALL")]> ∅).
  split; [vm_compute; reflexivity|]. intros t. vm_compute. reflexivity.
Qed.

(** Without a failsafe manager a stop word is answered as if it had worked. *)
Lemma stop_without_failsafe (T : turn) text session_id user_id g s :
  g_failsafe g = None → SafetyWord.check text (safety_words (ks T)) = Stop s →
  reply_gates T text session_id user_id g
  = Some ((Some (format_response (Stop s) session_id), g, []), Closed).
Proof. intros Hn Hs. unfold reply_gates, safety_gate. by rewrite Hs, Hn. Qed.
