(* ===== verification/PolicyKernel.v ===== *)
(** * The tool-call reference monitor (security policy_kernel.rs, the policy
    types of core types.rs)

    JSON values belong to [serde_json]: the kernel asks them for a string, a
    member, or their text. *)

From S2P Require Import Prelude.

Class Json := {
  json : Type;
  json_string : json → option ustr;          (** [Value::String(s)] *)
  json_to_string : json → ustr;              (** [Value::to_string] *)
  json_get : json → ustr → option json;      (** [Value::get] with a key *)
}.

Inductive PolicyEffect := EAllow | EForbid | EAsk.
#[export] Instance PolicyEffect_eq_dec : EqDecision PolicyEffect.
Proof. solve_decision. Defined.

Inductive ArgOp := Equals | Contains | StartsWith.

Record ArgCondition := { arg : ustr; op : ArgOp; value : ustr }.
Record ToolPolicy := { tool : ustr; effect : PolicyEffect; when : list ArgCondition }.

(** [canonical_tool]. *)
Definition fs_write_names : list ustr :=
  [u "Write"; u "Edit"; u "MultiEdit"; u "NotebookEdit"; u "apply_patch"; u "write_file";
   u "write_to_file"].
Definition shell_names : list ustr := [u "Bash"; u "shell"; u "run_shell_command"; u "run_command"].

Definition canonical_tool (name : ustr) : ustr :=
  if existsb (ustr_eqb name) fs_write_names then u "fs_write"
  else if existsb (ustr_eqb name) shell_names then u "shell_exec"
  else u "mcp_call".

Section kernel.
Context `{Json}.

Inductive Decision :=
| Allow
| AllowRewritten (v : json)
| Deny (reason : ustr)
| Ask (risk : ustr).

Record ToolCallEvent := { tool_name : ustr; arguments : json; agent_id : ustr }.

Implicit Types (rule : ToolPolicy) (event : ToolCallEvent) (policies : list ToolPolicy).

Definition rule_matches_tool rule (event_tool : ustr) : bool :=
  ustr_eqb (tool rule) (u "*") || ustr_eqb (tool rule) event_tool
  || ustr_eqb (tool rule) (canonical_tool event_tool).

Definition value_to_string (v : json) : ustr :=
  match json_string v with Some s => s | None => json_to_string v end.

Definition condition_holds (c : ArgCondition) (args : json) : bool :=
  let actual := default [] (value_to_string <$> json_get args (arg c)) in
  match op c with
  | Equals => ustr_eqb actual (value c)
  | Contains => contains actual (value c)
  | StartsWith => starts_with actual (value c)
  end.

Definition arg_conditions_match (conds : list ArgCondition) (args : json) : bool :=
  forallb (λ c, condition_holds c args) conds.

Definition rule_matches rule event : bool :=
  rule_matches_tool rule (tool_name event) && arg_conditions_match (when rule) (arguments event).

Definition any_rule (e : PolicyEffect) event policies : bool :=
  existsb (λ r, bool_decide (effect r = e) && rule_matches r event) policies.

(** [evaluate]. *)
Definition evaluate event policies : Decision :=
  if is_empty policies then Allow
  else if any_rule EForbid event policies then
    Deny (u "tool '" ++ tool_name event ++ u "' matched a forbid rule")
  else if any_rule EAsk event policies then
    Ask (u "tool '" ++ tool_name event ++ u "' requires approval by policy")
  else if any_rule EAllow event policies then Allow
  else
    Deny (u "tool '" ++ tool_name event
          ++ u "' matched no allow rule (default-deny under active policy)").

(** ** How restrictive a decision is: the specification

    The effects are ranked Allow < Ask < Forbid; a call gets the most
    restrictive effect among the rules it matches, and denial when it matches
    none. *)
Definition decision_rank (d : Decision) : Z :=
  match d with Allow | AllowRewritten _ => 0 | Ask _ => 1 | Deny _ => 2 end.

Definition effect_rank (e : PolicyEffect) : Z :=
  match e with EAllow => 0 | EAsk => 1 | EForbid => 2 end.

Definition matched event policies : list ToolPolicy := retain (λ r, rule_matches r event) policies.

Definition strictest (rs : list ToolPolicy) : Z := foldr (λ r z, Z.max (effect_rank (effect r)) z) 0 rs.

Definition strictest_or_deny (rs : list ToolPolicy) : Z :=
  if is_empty rs then 2 else strictest rs.

Definition spec_rank event policies : Z :=
  if is_empty policies then 0 else strictest_or_deny (matched event policies).

Lemma any_rule_spec e event policies :
  any_rule e event policies = true ↔ ∃ r, r ∈ policies ∧ effect r = e ∧ rule_matches r event = true.
Proof.
  unfold any_rule. rewrite existsb_exists. split.
  - intros (r & Hr & E). apply list_elem_of_In in Hr. reflect_bools. eauto.
  - intros (r & Hr & He & Hm). exists r. rewrite <- list_elem_of_In, He, Hm, bool_decide_eq_true_2; done.
Qed.

Lemma strictest_bounds rs : 0 ≤ strictest rs ≤ 2.
Proof. induction rs as [|r rs IH]; simpl; [lia|]. destruct (effect r); simpl; lia. Qed.

Lemma strictest_ge rs k :
  0 < k → (k ≤ strictest rs ↔ ∃ r, r ∈ rs ∧ k ≤ effect_rank (effect r)).
Proof.
  intros Hk. induction rs as [|r rs IH]; simpl.
  - split; [lia|]. intros (r & Hr & _). by apply not_elem_of_nil in Hr.
  - rewrite Z.max_le_iff, IH. split.
    + intros [?|(r' & ? & ?)]; [exists r|exists r']; (split; [|done]); by constructor.
    + intros (r' & Hr' & ?). apply elem_of_cons in Hr' as [->|]; eauto.
Qed.

Lemma any_matched e event policies :
  any_rule e event policies = true ↔ ∃ r, r ∈ matched event policies ∧ effect r = e.
Proof.
  rewrite any_rule_spec. unfold matched. split.
  - intros (r & Hr & He & Hm). exists r. split; [|done].
    apply list_elem_of_In, filter_In. by rewrite <- list_elem_of_In.
  - intros (r & Hr & He). apply list_elem_of_In, filter_In in Hr as [Hr Hm].
    exists r. by rewrite list_elem_of_In.
Qed.

(** The cascade of the three tests, over the matched rules. *)
Definition has (e : PolicyEffect) (rs : list ToolPolicy) : Prop := ∃ r, r ∈ rs ∧ effect r = e.

Lemma cascade_rank rs (F A L : bool) :
  (F = true ↔ has EForbid rs) → (A = true ↔ has EAsk rs) → (L = true ↔ has EAllow rs) →
  (if F then 2 else if A then 1 else if L then 0 else 2)
  = strictest_or_deny rs.
Proof.
  intros HF HA HL. unfold strictest_or_deny. pose proof (strictest_bounds rs) as Hb.
  assert (2 ≤ strictest rs ↔ F = true) as H2.
  { rewrite HF, strictest_ge by lia. split; intros (r & Hr & He); exists r; (split; [done|]);
      [by destruct (effect r)|by rewrite He]. }
  assert (1 ≤ strictest rs ↔ F = true ∨ A = true) as H1.
  { rewrite HF, HA, strictest_ge by lia. split.
    - intros (r & Hr & He). destruct (effect r) eqn:E; simpl in He; [lia|left|right]; by exists r.
    - intros [(r & Hr & He)|(r & Hr & He)]; exists r; by rewrite He. }
  destruct rs as [|r rs]; simpl is_empty; cbv iota.
  - destruct F; [done|]. destruct A; [by destruct (proj1 HA eq_refl) as (? & []%not_elem_of_nil & _)|].
    destruct L; [by destruct (proj1 HL eq_refl) as (? & []%not_elem_of_nil & _)|done].
  - destruct F; [assert (2 ≤ strictest (r :: rs)) by (by apply H2); lia|].
    assert (¬ 2 ≤ strictest (r :: rs)) by (rewrite H2; done).
    destruct A; [assert (1 ≤ strictest (r :: rs)) by (apply H1; by right); lia|].
    assert (¬ 1 ≤ strictest (r :: rs)) by (rewrite H1; naive_solver).
    destruct L; [lia|]. exfalso.
    assert (has (effect r) (r :: rs)) as Hr by (exists r; split; [by constructor|done]).
    destruct (effect r); [by apply HL in Hr|by apply HF in Hr|by apply HA in Hr].
Qed.

Lemma evaluate_rank event policies :
  decision_rank (evaluate event policies) = spec_rank event policies.
Proof.
  unfold evaluate, spec_rank. destruct policies as [|p ps]; [done|]. simpl is_empty. cbv iota.
  etransitivity; [|apply (cascade_rank (matched event (p :: ps)) _ _ _
    (any_matched EForbid event (p :: ps)) (any_matched EAsk event (p :: ps))
    (any_matched EAllow event (p :: ps)))].
  by repeat case_match.
Qed.

(** The kernel is the specification: its decision is exactly the most
    restrictive effect among the rules the call matches, and denial for a
    call that matches none under an active policy set. *)
Theorem evaluate_refines event policies :
  decision_rank (evaluate event policies) = spec_rank event policies.
Proof. apply evaluate_rank. Qed.

(** The decision depends on which effects are matched, nothing else. *)
Lemma evaluate_ext e1 e2 p1 p2 :
  tool_name e1 = tool_name e2 → is_empty p1 = is_empty p2 →
  (∀ e, any_rule e e1 p1 = any_rule e e2 p2) → evaluate e1 p1 = evaluate e2 p2.
Proof. intros Ht He Ha. unfold evaluate. by rewrite !Ha, He, Ht. Qed.

#[export] Instance evaluate_Permutation event :
  Proper ((≡ₚ) ==> (=)) (evaluate event).
Proof.
  intros p1 p2 Hp. apply evaluate_ext; [done| |].
  - destruct p1, p2; try done; [by apply Permutation_nil_cons in Hp|].
    symmetry in Hp. by apply Permutation_nil_cons in Hp.
  - intros e. apply eq_true_iff_eq. rewrite !any_rule_spec.
    split; intros (r & Hr & ?); exists r; (split; [|done]); by rewrite Hp in *.
Qed.

Lemma matched_cons event r policies :
  matched event (r :: policies)
  = if rule_matches r event then r :: matched event policies else matched event policies.
Proof. done. Qed.

(** The order of the rules and their repetition are irrelevant.  Under an
    active policy set, adding a [forbid] rule never loosens a decision and
    adding an [allow] rule never tightens one. *)
Theorem rule_order_irrelevant event p1 p2 extra :
  p1 ≡ₚ p2 → p1 ≠ [] →
  evaluate event p1 = evaluate event p2
  ∧ (effect extra = EForbid →
     decision_rank (evaluate event p1) ≤ decision_rank (evaluate event (extra :: p1)))
  ∧ (effect extra = EAllow →
     decision_rank (evaluate event (extra :: p1)) ≤ decision_rank (evaluate event p1)).
Proof.
  intros Hp Hne. split; [by rewrite Hp|]. rewrite !evaluate_rank.
  unfold spec_rank, strictest_or_deny. destruct p1 as [|p ps]; [done|]. rewrite (matched_cons event extra).
  pose proof (strictest_bounds (matched event (p :: ps))).
  destruct (rule_matches extra event); [|done].
  simpl is_empty. cbv iota.
  split; intros He; cbn [strictest foldr]; rewrite He; destruct (is_empty _); simpl effect_rank;
    fold (strictest (matched event (p :: ps))); lia.
Qed.

(** ** One rule for every runtime *)

(** A rule written for a family, or for every tool. *)
Definition family_rule rule : Prop :=
  tool rule ∈ [u "*"; u "fs_write"; u "shell_exec"; u "mcp_call"].

(** Rules written for a family bind every runtime alike: two tools of the
    same family called with the same arguments get equally restrictive
    decisions (Bash, shell, run_shell_command, run_command; Write, Edit,
    apply_patch, ...). *)
Theorem family_uniform e1 e2 policies :
  canonical_tool (tool_name e1) = canonical_tool (tool_name e2) →
  arguments e1 = arguments e2 →
  tool_name e1 ∉ [u "*"; u "fs_write"; u "shell_exec"; u "mcp_call"] →
  tool_name e2 ∉ [u "*"; u "fs_write"; u "shell_exec"; u "mcp_call"] →
  Forall family_rule policies →
  decision_rank (evaluate e1 policies) = decision_rank (evaluate e2 policies).
Proof.
  intros Hc Ha H1 H2 Hf. rewrite !evaluate_rank. unfold spec_rank.
  assert (matched e1 policies = matched e2 policies) as ->; [|done].
  unfold matched. apply filter_ext_in. intros r Hr. rewrite List.Forall_forall in Hf.
  specialize (Hf r Hr). unfold rule_matches. rewrite Ha. f_equal.
  unfold rule_matches_tool. rewrite Hc.
  assert (∀ n, n ∉ [u "*"; u "fs_write"; u "shell_exec"; u "mcp_call"] →
    ustr_eqb (tool r) n = false) as Hn.
  { intros n Hn. apply bool_decide_eq_false_2. intros <-. by apply Hn. }
  by rewrite (Hn _ H1), (Hn _ H2).
Qed.
End kernel.

(** ** Witnesses *)

Definition flat_json : Json :=
  {| json := list (ustr * ustr); json_string := λ _, None; json_to_string := λ v, concat (map snd v);
     json_get := λ v k, if existsb (λ p, ustr_eqb p.1 k) v then Some (retain (λ p, ustr_eqb p.1 k) v) else None |}.
#[local] Existing Instance flat_json.

Definition rm_event (name : ustr) : ToolCallEvent :=
  {| tool_name := name; arguments := [(u "command", u "rm -rf /")] : @json flat_json; agent_id := u "a" |}.
Definition forbid_rm : ToolPolicy :=
  {| tool := u "shell_exec"; effect := EForbid;
     when := [{| arg := u "command"; op := Contains; value := u "rm -rf" |}] |}.
Definition allow_all : ToolPolicy := {| tool := u "*"; effect := EAllow; when := [] |}.

Lemma rule_order_irrelevant_witness :
  evaluate (rm_event (u "Bash")) [forbid_rm; allow_all] = evaluate (rm_event (u "Bash")) [allow_all; forbid_rm].
Proof.
  apply (rule_order_irrelevant (rm_event (u "Bash")) [forbid_rm; allow_all] [allow_all; forbid_rm] allow_all).
  - apply Permutation_swap.
  - discriminate.
Defined.

(** A literal name outside a literal list of names. *)
Ltac plain_name :=
  let Hin := fresh in
  intros Hin;
  repeat (apply elem_of_cons in Hin as [Hin|Hin]; [vm_compute in Hin; discriminate Hin|]);
  by apply not_elem_of_nil in Hin.

Lemma family_uniform_witness :
  decision_rank (evaluate (rm_event (u "Bash")) [forbid_rm; allow_all])
  = decision_rank (evaluate (rm_event (u "run_command")) [forbid_rm; allow_all]).
Proof.
  apply (family_uniform (rm_event (u "Bash")) (rm_event (u "run_command"))).
  - vm_compute. reflexivity.
  - reflexivity.
  - plain_name.
  - plain_name.
  - repeat constructor; unfold family_rule; simpl; set_solver.
Defined.

Example forbid_denies : decision_rank (evaluate (rm_event (u "Bash")) [allow_all; forbid_rm]) = 2.
Proof. vm_compute. reflexivity. Qed.
