(* ===== verification/Delegation.v ===== *)
(** * Who may delegate to whom (crates/duduclaw-core/src/delegation_policy.rs)

    The single predicate [can_delegate_ext_impl] and its wrappers over an
    organisation view, the reserved identities, the whitelist and the denial
    messages. *)

From S2P Require Import Prelude.

Definition MAX_ANCESTOR_HOPS : nat := 20.

Definition SYSTEM_SENDERS : list ustr :=
  [u "dashboard"; u "webhook"; u "goal-loop-driver"; u "cron"; u "heartbeat"; u "autopilot"].

Definition RESERVED_QUEUE_SENDERS : list ustr := [u "heartbeat-scheduler"; u "workflow"].
Definition ACP_CLIENT_SENDER : ustr := u "a2a-client".
Definition STANDALONE_CLIENT_PREFIX : ustr := u "standalone-".

Definition is_reserved_queue_sender (name : ustr) : bool :=
  existsb (λ known, eq_ignore_ascii_case known (trim name)) RESERVED_QUEUE_SENDERS.

Definition is_system_sender (sender : ustr) : bool :=
  existsb (λ known, ustr_eqb known (trim sender)) SYSTEM_SENDERS.

(** [str::get(..n)]: the first [n] bytes, when they end on a character. *)
Fixpoint get_prefix (n : nat) (s : ustr) : option ustr :=
  match n, s with
  | O, _ => Some []
  | S _, [] => None
  | S _, c :: r =>
      let k := length (utf8_char c) in
      if (k <=? n)%nat then cons c <$> get_prefix (n - k) r else None
  end.

Definition is_reserved_agent_id (id : ustr) : bool :=
  let s := trim id in
  if is_empty s then false
  else if starts_with s (u "__") then true
  else if
    match get_prefix (length (utf8_encode STANDALONE_CLIENT_PREFIX)) s with
    | Some head => eq_ignore_ascii_case head STANDALONE_CLIENT_PREFIX
    | None => false
    end then true
  else
    existsb (λ known, eq_ignore_ascii_case known s)
      (SYSTEM_SENDERS ++ [ACP_CLIENT_SENDER] ++ [u "default"] ++ [u "doctor-probe"]
       ++ RESERVED_QUEUE_SENDERS).

(** ** Policy and whitelist *)

Inductive DelegationPolicy := Department | Hierarchy | Open.
#[export] Instance DelegationPolicy_eq_dec : EqDecision DelegationPolicy.
Proof. solve_decision. Defined.

Definition DelegationPolicy_default : DelegationPolicy := Department.

Definition policy_as_str (p : DelegationPolicy) : ustr :=
  match p with
  | Department => u "department"
  | Hierarchy => u "hierarchy"
  | Open => u "open"
  end.

Definition label_zh (p : DelegationPolicy) : ustr :=
  match p with
  | Department => u "部門(department)"
  | Hierarchy => u "階級(hierarchy)"
  | Open => u "開放(open)"
  end.

Definition parse_policy (value : ustr) : option DelegationPolicy :=
  let v := to_ascii_lowercase (trim value) in
  if ustr_eqb v (u "department") then Some Department
  else if ustr_eqb v (u "hierarchy") then Some Hierarchy
  else if ustr_eqb v (u "open") then Some Open
  else None.

(** [truncate_chars]. *)
Definition truncate_chars (s : ustr) (max_chars : nat) : ustr := take max_chars s.

Definition from_config_value (value : ustr) : DelegationPolicy * option ustr :=
  match parse_policy value with
  | Some p => (p, None)
  | None =>
      (DelegationPolicy_default,
       Some (u "config.toml [delegation] policy = " ++ dquote ++ truncate_chars (trim value) 40
             ++ dquote ++ u " 無法辨識,已改用預設值 " ++ dquote
             ++ policy_as_str DelegationPolicy_default ++ dquote
             ++ u "。可用值:department / hierarchy / open。"))
  end.

Definition sorted_pair (a b : ustr) : ustr * ustr := if ustr_leb a b then (a, b) else (b, a).

Definition normalize_allow_entry (item : list ustr) : result (ustr * ustr) ustr :=
  match item with
  | [x; y] =>
      let a := trim x in
      let b := trim y in
      if is_empty a || is_empty b then Err (u "配對成員不可為空字串")
      else if ustr_eqb a b then
        Err (u "忽略自我配對(" ++ dquote ++ a ++ dquote ++ u " 與自己)")
      else Ok (sorted_pair a b)
  | _ => Err (u "必須恰好包含 2 個字串,實際 " ++ show_nat (length item) ++ u " 個")
  end.

(** [resolve_allow_pairs]; [debug_entry] is the [Debug] rendering of an entry
    in a warning. *)
Definition resolve_allow_pairs (debug_entry : list ustr → ustr) (entries : list (list ustr))
    : list (ustr * ustr) * list ustr :=
  foldl
    (λ acc entry,
      match normalize_allow_entry entry with
      | Ok p =>
          if bool_decide (p ∈ acc.1) then acc else (acc.1 ++ [p], acc.2)
      | Err reason =>
          (acc.1,
           acc.2 ++ [u "config.toml [delegation] allow 項目已忽略:" ++ reason ++ u "(原始值:"
                     ++ debug_entry entry ++ u ")。"])
      end)
    ([], []) entries.

Record DelegationRules := {
  policy : DelegationPolicy;
  allow_pairs : list (ustr * ustr);
}.

Definition allows_pair (rules : DelegationRules) (a b : ustr) : bool :=
  let a := trim a in
  let b := trim b in
  if is_empty a || is_empty b || ustr_eqb a b then false
  else bool_decide (sorted_pair a b ∈ allow_pairs rules).

(** ** The organisation *)

(** [trait OrgView]. *)
Class OrgView (V : Type) := {
  reports_to : V → ustr → option ustr;
  department : V → ustr → option ustr;
}.

Record OrgNode := { node_reports_to : ustr; node_department : ustr }.

(** [MapOrgView]: a snapshot. *)
Record MapOrgView := { nodes : gmap ustr OrgNode }.

Definition MapOrgView_new : MapOrgView := {| nodes := ∅ |}.
Definition insert_agent (agent_id parent dept : ustr) (v : MapOrgView) : MapOrgView :=
  {| nodes := <[agent_id := {| node_reports_to := parent; node_department := dept |}]> (nodes v) |}.
Definition with_agent (v : MapOrgView) (agent_id parent dept : ustr) : MapOrgView :=
  insert_agent agent_id parent dept v.
Definition view_len (v : MapOrgView) : nat := size (nodes v).
Definition view_is_empty (v : MapOrgView) : bool := (view_len v =? 0)%nat.

#[export] Instance map_org_view : OrgView MapOrgView := {|
  reports_to v agent_id := node_reports_to <$> nodes v !! agent_id;
  department v agent_id := node_department <$> nodes v !! agent_id;
|}.

Definition normalize_parent (value : ustr) : option ustr :=
  let trimmed := trim value in
  if is_empty trimmed || eq_ignore_ascii_case trimmed (u "none") then None else Some trimmed.

Inductive Walk := Found | NotFound | Truncated.
#[export] Instance Walk_eq_dec : EqDecision Walk.
Proof. solve_decision. Defined.

Inductive DenyReason :=
| SelfDelegation
| InvalidAgentId
| NoHierarchyRelation
| DifferentDepartment
| MissingDepartment
| ChainTooDeep
| HumanPrincipalNotPermitted.

Definition reason_as_str (r : DenyReason) : ustr :=
  match r with
  | SelfDelegation => u "self_delegation"
  | InvalidAgentId => u "invalid_agent_id"
  | NoHierarchyRelation => u "no_hierarchy_relation"
  | DifferentDepartment => u "different_department"
  | MissingDepartment => u "missing_department"
  | ChainTooDeep => u "chain_too_deep"
  | HumanPrincipalNotPermitted => u "human_principal_not_permitted"
  end.

Record DelegationDenied := {
  sender : ustr;
  target : ustr;
  denied_policy : DelegationPolicy;
  reason : DenyReason;
}.

Definition short_id (id : ustr) : ustr := truncate_chars (trim id) 64.

Section predicate.
Context {V : Type} `{!OrgView V} (org : V).

Definition parent_of (a : ustr) : option ustr := reports_to org a ≫= normalize_parent.

(** The loop of [walk_up]: [hops] iterations left. *)
Fixpoint walk_loop (hops : nat) (looking_for : ustr) (seen : gset ustr) (current : ustr) : Walk :=
  match hops with
  | O => Truncated
  | S hops' =>
      match parent_of current with
      | None => NotFound
      | Some parent =>
          if ustr_eqb parent looking_for then Found
          else if bool_decide (parent ∈ seen) then NotFound
          else walk_loop hops' looking_for ({[ parent ]} ∪ seen) parent
      end
  end.

Definition walk_up (start looking_for : ustr) : Walk :=
  walk_loop MAX_ANCESTOR_HOPS (trim looking_for) {[ trim start ]} (trim start).

Definition is_ancestor (ancestor descendant : ustr) : bool :=
  bool_decide (walk_up descendant ancestor = Found).

(** [can_delegate_ext_impl]. *)
Definition can_delegate_ext_impl (pol : DelegationPolicy) (rules : option DelegationRules)
    (from to : ustr) (extra_system_senders : list ustr) : result unit DelegationDenied :=
  let s := trim from in
  let t := trim to in
  let deny r := Err {| sender := s; target := t; denied_policy := pol; reason := r |} in
  if is_empty s || is_empty t then deny InvalidAgentId
  else if ustr_eqb s t then deny SelfDelegation
  else if is_system_sender s || existsb (λ extra, ustr_eqb (trim extra) s) extra_system_senders
  then Ok tt
  else if bool_decide (pol = Open) then Ok tt
  else
    let down := walk_up t s in
    if bool_decide (down = Found) then Ok tt
    else
      let up := walk_up s t in
      if bool_decide (up = Found) then Ok tt
      else
        let sender_dept := trim (default [] (department org s)) in
        let target_dept := trim (default [] (department org t)) in
        if bool_decide (pol = Department) && negb (is_empty sender_dept)
           && negb (is_empty target_dept) && ustr_eqb sender_dept target_dept
        then Ok tt
        else if match rules with Some r => allows_pair r s t | None => false end then Ok tt
        else if bool_decide (down = Truncated) || bool_decide (up = Truncated)
        then deny ChainTooDeep
        else
          match pol with
          | Hierarchy => deny NoHierarchyRelation
          | Department =>
              if is_empty sender_dept || is_empty target_dept then deny MissingDepartment
              else deny DifferentDepartment
          | Open => deny NoHierarchyRelation
          end.

Definition can_delegate_ext (pol : DelegationPolicy) (from to : ustr)
    (extra_system_senders : list ustr) : result unit DelegationDenied :=
  can_delegate_ext_impl pol None from to extra_system_senders.

Definition can_delegate (pol : DelegationPolicy) (from to : ustr) : result unit DelegationDenied :=
  can_delegate_ext pol from to [].

Definition can_delegate_rules_ext (rules : DelegationRules) (from to : ustr)
    (extra_system_senders : list ustr) : result unit DelegationDenied :=
  can_delegate_ext_impl (policy rules) (Some rules) from to extra_system_senders.

Definition can_delegate_rules (rules : DelegationRules) (from to : ustr)
    : result unit DelegationDenied :=
  can_delegate_rules_ext rules from to [].
End predicate.

(** ** Denial messages *)

Definition message_zh (d : DelegationDenied) : ustr :=
  let s := short_id (sender d) in
  let t := short_id (target d) in
  let refused := u "委派遭拒:「" ++ s ++ u "」無權指派「" ++ t ++ u "」(委派政策:"
                 ++ label_zh (denied_policy d) ++ u ")。" in
  match reason d with
  | HumanPrincipalNotPermitted =>
      u "委派遭拒:發出這個指令的人沒有權限把工作交給「" ++ t ++ u "」(「" ++ s
      ++ u "」本身可以委派,但 [delegation] human_principal = " ++ dquote ++ u "enforce" ++ dquote
      ++ u " 也要求真人有權限)。可行處理:① 請管理員在 dashboard 把「" ++ t
      ++ u "」綁定給這個人(交辦需要操作權限);② 改由有權限的人直接交辦;③ 需要時把 human_principal 改回 "
      ++ dquote ++ u "record" ++ dquote ++ u "。"
  | SelfDelegation =>
      u "委派遭拒:「" ++ s ++ u "」不可委派給自己。自我委派會形成回音迴圈,三種委派政策皆禁止。"
  | InvalidAgentId =>
      u "委派遭拒:發送者或目標的 agent 名稱為空,無法判定從屬關係,依 fail-closed 原則拒絕。"
  | ChainTooDeep =>
      u "委派遭拒:「" ++ s ++ u "」對「" ++ t ++ u "」的從屬關係無法確認 — reports_to 從屬鏈超過 "
      ++ show_nat MAX_ANCESTOR_HOPS
      ++ u " 層或形成循環,已中止追溯並依 fail-closed 原則拒絕。請檢查組織樹是否過深或成環(reports_to 互指)。"
  | NoHierarchyRelation =>
      refused
      ++ u "兩者不在同一條 reports_to 從屬鏈上(任一方為另一方的上級皆可)。可行處理:① 建立從屬關係 — 把「"
      ++ t ++ u "」的 reports_to 指向「" ++ s
      ++ u "」或其上級;② 若只是同事橫向協作,把 config.toml 的 [delegation] policy 設為 "
      ++ dquote ++ u "department" ++ dquote
      ++ u " 並讓兩者屬於同一部門;③ 需要完全開放時設為 " ++ dquote ++ u "open" ++ dquote ++ u "。"
  | DifferentDepartment =>
      refused
      ++ u "兩者既不在同一條 reports_to 從屬鏈上,也不屬於同一個部門。可行處理:① 建立從屬關係(把其中一方的 reports_to 指向另一方);② 把兩者的 [agent] department 設為同一部門;③ 在 config.toml 將 [delegation] policy 設為 "
      ++ dquote ++ u "open" ++ dquote ++ u " 解除限制。"
  | MissingDepartment =>
      refused
      ++ u "兩者沒有 reports_to 從屬關係,且至少一方未設定部門 — 空白部門不視為同部門。可行處理:① 為雙方的 [agent] department 填上同一個部門;② 建立從屬關係;③ 在 config.toml 將 [delegation] policy 設為 "
      ++ dquote ++ u "open" ++ dquote ++ u " 解除限制。"
  end.

(** ** Reserved senders *)

Lemma is_system_sender_trim s : is_system_sender (trim s) = is_system_sender s.
Proof. unfold is_system_sender. by rewrite trim_idem. Qed.

(** ** The walk *)

Section walk.
Context {V : Type} `{!OrgView V} (org : V).

(** The [k]-th superior. *)
Fixpoint superior (k : nat) (a : ustr) : option ustr :=
  match k with O => Some a | S k' => superior k' a ≫= parent_of org end.

Lemma superior_add j k a b : superior j a = Some b → superior (j + k) a = superior k b.
Proof.
  intros Hj. induction k as [|k IH]; [by rewrite Nat.add_0_r|].
  rewrite Nat.add_succ_r. simpl. by rewrite IH.
Qed.

(** A chain that comes back to a node repeats itself. *)
Lemma superior_cycle i j a b k :
  (i < j)%nat → superior i a = Some b → superior j a = Some b → (j ≤ k)%nat →
  superior k a = superior (k - (j - i)) a.
Proof.
  intros Hij Hi Hj Hk.
  replace k with (j + (k - j))%nat at 1 by lia.
  replace (k - (j - i))%nat with (i + (k - j))%nat by lia.
  by rewrite (superior_add j _ a b), (superior_add i _ a b).
Qed.

(** The state of the loop after [n] hops from [a]: nothing found so far, and
    [seen] is the chain up to [n]. *)
Record walk_inv (a goal : ustr) (n : nat) (seen : gset ustr) (current : ustr) : Prop := {
  wi_current : superior n a = Some current;
  wi_seen x : x ∈ seen ↔ ∃ k, (k ≤ n)%nat ∧ superior k a = Some x;
  wi_not_found k : (1 ≤ k ≤ n)%nat → superior k a ≠ Some goal;
}.

Lemma walk_inv_step a goal n seen current parent :
  walk_inv a goal n seen current → parent_of org current = Some parent → parent ≠ goal →
  walk_inv a goal (S n) ({[parent]} ∪ seen) parent.
Proof.
  intros [Hc Hs Hn] Hp Hne.
  assert (superior (S n) a = Some parent) as Hsn by (simpl; by rewrite Hc).
  split; [done| |].
  - intros x. rewrite elem_of_union, elem_of_singleton, Hs. split.
    + intros [->|(k & ? & ?)]; [exists (S n)|exists k]; (split; [lia|done]).
    + intros (k & Hk & Hx). destruct (decide (k = S n)) as [->|]; [left; congruence|].
      right. exists k. split; [lia|done].
  - intros k Hk Hg. destruct (decide (k = S n)) as [->|]; [congruence|].
    apply (Hn k); [lia|done].
Qed.

(** A chain that ends, or comes back, has no further superiors. *)
Lemma walk_dead_end a goal n current :
  superior n a = Some current → (∀ k, (1 ≤ k ≤ n)%nat → superior k a ≠ Some goal) →
  (parent_of org current = None
   ∨ ∃ parent i, parent_of org current = Some parent ∧ parent ≠ goal ∧ (i ≤ n)%nat
                 ∧ superior i a = Some parent) →
  ∀ k, (1 ≤ k)%nat → superior k a ≠ Some goal.
Proof.
  intros Hc Hn Hend k. induction k as [k IH] using lt_wf_ind. intros Hk Hg.
  destruct (decide (k ≤ n)%nat); [by apply (Hn k)|].
  destruct Hend as [Hnone|(parent & i & Hp & Hne & Hi & Hsi)].
  - replace k with (S n + (k - S n))%nat in Hg by lia.
    assert (∀ m, superior (S n + m) a = None) as Hm.
    { induction m as [|m IHm]; [simpl; rewrite Nat.add_0_r; by rewrite Hc|].
      rewrite Nat.add_succ_r. simpl in *. by rewrite IHm. }
    by rewrite Hm in Hg.
  - assert (superior (S n) a = Some parent) as Hsn by (simpl; by rewrite Hc).
    destruct (decide (k = S n)) as [->|]; [congruence|].
    rewrite (superior_cycle i (S n) a parent k) in Hg; [|lia|done|done|lia].
    apply (IH (k - (S n - i))%nat); [lia|lia|done].
Qed.

Lemma walk_loop_spec a goal hops : ∀ n seen current,
  walk_inv a goal n seen current →
  match walk_loop org hops goal seen current with
  | Found => ∃ k, (1 ≤ k ≤ n + hops)%nat ∧ superior k a = Some goal
  | NotFound => ∀ k, (1 ≤ k)%nat → superior k a ≠ Some goal
  | Truncated => ∀ k, (1 ≤ k ≤ n + hops)%nat → superior k a ≠ Some goal
  end.
Proof.
  induction hops as [|hops IH]; intros n seen current Hi.
  { simpl. rewrite Nat.add_0_r. apply Hi. }
  cbn [walk_loop]. destruct (parent_of org current) as [parent|] eqn:Hp.
  - destruct (ustr_eqb parent goal) eqn:Eg; reflect_bools.
    + subst. exists (S n). split; [lia|]. simpl. by rewrite (wi_current _ _ _ _ _ Hi).
    + destruct (bool_decide (parent ∈ seen)) eqn:Es; reflect_bools.
      * apply (wi_seen _ _ _ _ _ Hi) in Es as (i & Hin & Hsi).
        apply (walk_dead_end a goal n current); [apply Hi|apply Hi|]. right. eauto 6.
      * specialize (IH (S n) ({[parent]} ∪ seen) parent).
        replace (n + S hops)%nat with (S n + hops)%nat by lia.
        apply IH. by apply walk_inv_step with current.
  - apply (walk_dead_end a goal n current); [apply Hi|apply Hi|]. by left.
Qed.

Lemma walk_inv_start a goal : walk_inv a goal 0 {[a]} a.
Proof.
  split; [done| |intros; lia]. intros x. rewrite elem_of_singleton. split.
  - intros ->. exists 0%nat. done.
  - intros (k & Hk & Hx). assert (k = 0%nat) as -> by lia. simpl in Hx. congruence.
Qed.

Lemma walk_up_spec start goal :
  match walk_up org start goal with
  | Found => ∃ k, (1 ≤ k ≤ MAX_ANCESTOR_HOPS)%nat ∧ superior k (trim start) = Some (trim goal)
  | NotFound => ∀ k, (1 ≤ k)%nat → superior k (trim start) ≠ Some (trim goal)
  | Truncated =>
      ∀ k, (1 ≤ k ≤ MAX_ANCESTOR_HOPS)%nat → superior k (trim start) ≠ Some (trim goal)
  end.
Proof. apply (walk_loop_spec (trim start) (trim goal) MAX_ANCESTOR_HOPS 0), walk_inv_start. Qed.

(** [boss x y]: [x] is a superior of [y] within the hop limit. *)
Definition boss (x y : ustr) : Prop :=
  ∃ k, (1 ≤ k ≤ MAX_ANCESTOR_HOPS)%nat ∧ superior k y = Some x.

Lemma walk_found start goal : walk_up org start goal = Found ↔ boss (trim goal) (trim start).
Proof.
  pose proof (walk_up_spec start goal) as Hs. unfold boss.
  destruct (walk_up org start goal); split; try done; intros (k & Hk & E); exfalso;
    [apply (Hs k); [lia|done]|by apply (Hs k)].
Qed.
End walk.

(** ** The whitelist *)

Definition is_ok {T E} (r : result T E) : bool := match r with Ok _ => true | Err _ => false end.

Lemma sorted_pair_sym a b : sorted_pair a b = sorted_pair b a.
Proof.
  unfold sorted_pair. destruct (ustr_leb a b) eqn:E1, (ustr_leb b a) eqn:E2; try done.
  - by rewrite (ustr_leb_antisym a b).
  - destruct (ustr_leb_total a b); congruence.
Qed.

Lemma allows_pair_sym rules a b : allows_pair rules a b = allows_pair rules b a.
Proof.
  unfold allows_pair. rewrite (sorted_pair_sym (trim a)).
  assert (ustr_eqb (trim a) (trim b) = ustr_eqb (trim b) (trim a)) as ->
    by (apply bool_decide_ext; naive_solver).
  by rewrite (orb_comm (is_empty (trim a))).
Qed.

Lemma allows_pair_trim rules a b : allows_pair rules (trim a) (trim b) = allows_pair rules a b.
Proof. unfold allows_pair. by rewrite !trim_idem. Qed.

(** A whitelist as [resolve_allow_pairs] builds it. *)
Definition pair_ok (p : ustr * ustr) : Prop :=
  p.1 ≠ [] ∧ p.2 ≠ [] ∧ p.1 ≠ p.2 ∧ p = sorted_pair p.1 p.2.

Lemma is_empty_false {A} (l : list A) : is_empty l = false ↔ l ≠ [].
Proof. by destruct l. Qed.
Lemma is_empty_true {A} (l : list A) : is_empty l = true ↔ l = [].
Proof. by destruct l. Qed.

Lemma sorted_pair_cases a b : sorted_pair a b = (a, b) ∨ sorted_pair a b = (b, a).
Proof. unfold sorted_pair. destruct (ustr_leb a b); auto. Qed.

Lemma normalize_entry_ok item p : normalize_allow_entry item = Ok p →
  pair_ok p ∧ ∃ x y, item = [x; y] ∧ p = sorted_pair (trim x) (trim y).
Proof.
  unfold normalize_allow_entry. destruct item as [|x [|y [|z item]]]; try done.
  destruct (_ || _) eqn:E1; [done|]. apply orb_false_iff in E1 as [Ex Ey].
  destruct (ustr_eqb _ _) eqn:E2; [done|]. reflect_bools. intros E. injection E as <-.
  apply is_empty_false in Ex, Ey. split; [|eauto]. unfold pair_ok.
  assert (sorted_pair (sorted_pair (trim x) (trim y)).1 (sorted_pair (trim x) (trim y)).2
    = sorted_pair (trim x) (trim y)) as Es.
  { destruct (sorted_pair_cases (trim x) (trim y)) as [E|E]; rewrite E; simpl; [done|].
    by rewrite sorted_pair_sym, E. }
  destruct (sorted_pair_cases (trim x) (trim y)) as [E|E]; rewrite E in *; simpl in *; auto.
Qed.

Lemma resolve_spec dbg entries : ∀ acc,
  NoDup acc.1 → Forall pair_ok acc.1 →
  let r := foldl (λ acc entry,
      match normalize_allow_entry entry with
      | Ok p => if bool_decide (p ∈ acc.1) then acc else (acc.1 ++ [p], acc.2)
      | Err reason => (acc.1, acc.2 ++ [u "config.toml [delegation] allow 項目已忽略:" ++ reason ++ u "(原始值:"
                     ++ dbg entry ++ u ")。"])
      end) acc entries in
  NoDup r.1 ∧ Forall pair_ok r.1
  ∧ (∀ p, p ∈ r.1 ↔ p ∈ acc.1 ∨ ∃ e, e ∈ entries ∧ normalize_allow_entry e = Ok p)
  ∧ (length r.2 = length acc.2 + length (retain (λ e, negb (is_ok (normalize_allow_entry e))) entries))%nat.
Proof.
  induction entries as [|e entries IH]; intros [ps ws] Hnd Hok; cbn [foldl].
  { split_and!; [done|done| |by rewrite Nat.add_0_r]. intros p. split; [by left|].
    intros [?|(? & []%not_elem_of_nil & _)]. done. }
  cbn [List.filter]. destruct (normalize_allow_entry e) as [p|why] eqn:E; cbn [fst snd is_ok negb].
  - destruct (bool_decide (p ∈ ps)) eqn:Ep; reflect_bools.
    + destruct (IH (ps, ws) Hnd Hok) as (H1 & H2 & H3 & H4). split_and!; [done|done| |done].
      intros q. rewrite H3. simpl. setoid_rewrite elem_of_cons. split; [naive_solver|].
      intros [?|(e' & [->|?] & Hq)]; [by left| |by right; eauto]. left. congruence.
    + destruct (IH (ps ++ [p], ws)) as (H1 & H2 & H3 & H4).
      { apply list.NoDup_app. split_and!; [done| |apply NoDup_singleton]. set_solver. }
      { apply Forall_app. split; [done|]. repeat constructor; by apply normalize_entry_ok in E as [(?&?&?&?) _]. }
      split_and!; [done|done| |done]. intros q. rewrite H3. cbn [fst]. rewrite elem_of_app, list_elem_of_singleton.
      setoid_rewrite elem_of_cons. split; [naive_solver|].
      intros [?|(e' & [->|?] & Hq)]; [by left; left| |by right; eauto]. left. right. congruence.
  - destruct (IH (ps, ws ++ [u "config.toml [delegation] allow 項目已忽略:" ++ why ++ u "(原始值:"
                     ++ dbg e ++ u ")。"]) Hnd Hok) as (H1 & H2 & H3 & H4).
    split_and!; [done|done| |].
    + intros q. rewrite H3. simpl. setoid_rewrite elem_of_cons. split; [naive_solver|].
      intros [?|(e' & [->|?] & Hq)]; [by left|congruence|by right; eauto].
    + rewrite H4. cbn [snd length]. rewrite length_app. cbn [length]. lia.
Qed.

(** Resolving [allow]: a bad entry costs exactly one warning and nothing
    else; the whitelist has no duplicate and no self-pair, and permits a pair
    of names, in either order and whatever their surrounding blanks, exactly
    when some well-formed entry names them. *)
Theorem resolve_allow_exact dbg entries pol (a b : ustr) :
  let '(pairs, warnings) := resolve_allow_pairs dbg entries in
  NoDup pairs ∧ Forall pair_ok pairs
  ∧ length warnings = length (retain (λ e, negb (is_ok (normalize_allow_entry e))) entries)
  ∧ (allows_pair {| policy := pol; allow_pairs := pairs |} a b = true
     ↔ ∃ x y, [x; y] ∈ entries ∧ trim x ≠ [] ∧ trim y ≠ [] ∧ trim x ≠ trim y
              ∧ ((trim x = trim a ∧ trim y = trim b) ∨ (trim x = trim b ∧ trim y = trim a))).
Proof.
  destruct (resolve_allow_pairs dbg entries) as [pairs warnings] eqn:E.
  pose proof (resolve_spec dbg entries ([], []) NoDup_nil_2 (List.Forall_nil _)) as Hs.
  unfold resolve_allow_pairs in E. cbv zeta in Hs. rewrite E in Hs. destruct Hs as (H1 & H2 & H3 & H4).
  split_and!; [done|done|done|]. cbn [fst] in H3. unfold allows_pair. cbn [allow_pairs]. split.
  - destruct (_ || _) eqn:Eb; [done|]. intros Hp. reflect_bools.
    apply H3 in Hp as [[]%not_elem_of_nil|(e & He & Hn)].
    apply normalize_entry_ok in Hn as ((Hp1 & Hp2 & Hp3 & _) & x & y & -> & Hxy).
    exists x, y. split; [done|].
    destruct (sorted_pair_cases (trim a) (trim b)) as [E1|E1], (sorted_pair_cases (trim x) (trim y)) as [E2|E2];
      rewrite E1, E2 in *; simpl in *; injection Hxy as Hx1 Hx2; rewrite Hx1, Hx2 in *; (split_and!; [done..| |auto]); congruence.
  - intros (x & y & Hin & Hx & Hy & Hne & Hab).
    assert (is_empty (trim a) || is_empty (trim b) || ustr_eqb (trim a) (trim b) = false) as ->.
    { apply orb_false_iff. rewrite orb_false_iff, !is_empty_false.
      split; [by destruct Hab as [[<- <-]|[<- <-]]|].
      apply bool_decide_eq_false_2. by destruct Hab as [[<- <-]|[<- <-]]. }
    apply bool_decide_eq_true_2, H3. right. exists [x; y]. split; [done|].
    unfold normalize_allow_entry.
    rewrite (proj2 (is_empty_false _) Hx), (proj2 (is_empty_false _) Hy). simpl.
    unfold ustr_eqb. rewrite bool_decide_eq_false_2 by done.
    destruct Hab as [[-> ->]|[-> ->]]; [done|]. by rewrite sorted_pair_sym.
Qed.

(** ** Reserved identities *)

(** No agent can be created under a name that delegates as the system: every
    name [is_system_sender] accepts, every reserved queue sender and the A2A
    client, in any letter case, is a reserved agent id. *)
Theorem system_names_reserved (id known : ustr) :
  known ∈ SYSTEM_SENDERS ++ [ACP_CLIENT_SENDER] ++ RESERVED_QUEUE_SENDERS →
  eq_ignore_ascii_case known (trim id) = true →
  is_reserved_agent_id id = true
  ∧ (is_system_sender id = true → is_reserved_agent_id id = true).
Proof.
  intros Hk He.
  assert (∀ known id, known ∈ SYSTEM_SENDERS ++ [ACP_CLIENT_SENDER] ++ RESERVED_QUEUE_SENDERS →
    eq_ignore_ascii_case known (trim id) = true → is_reserved_agent_id id = true) as Hr.
  { clear. intros known id Hk He. unfold is_reserved_agent_id.
    destruct (is_empty (trim id)) eqn:Em.
    { apply is_empty_true in Em. rewrite Em in He. exfalso.
      apply list_elem_of_In in Hk.
      assert (forallb (λ k, negb (eq_ignore_ascii_case k []))
        (SYSTEM_SENDERS ++ [ACP_CLIENT_SENDER] ++ RESERVED_QUEUE_SENDERS) = true) as Hall
        by (vm_compute; reflexivity).
      rewrite forallb_forall in Hall. specialize (Hall _ Hk). by rewrite He in Hall. }
    destruct (starts_with _ _); [done|].
    set (b := match get_prefix _ _ with Some _ => _ | None => _ end). destruct b; [done|].
    apply existsb_exists. exists known. split; [|done].
    rewrite <- list_elem_of_In. rewrite !elem_of_app in Hk |- *. destruct Hk as [?|[?|?]]; auto 6.
    right. right. apply elem_of_app. right. apply elem_of_app. by right. }
  split; [by eapply Hr|].
  unfold is_system_sender. rewrite existsb_exists. intros (k & Hin & Ek). reflect_bools. subst k.
  apply (Hr (trim id) id); [|apply eq_ignore_ascii_case_refl].
  apply elem_of_app. left. by apply list_elem_of_In.
Qed.

(** ** The predicate *)

Section properties.
Context {V : Type} `{!OrgView V} (org : V).
Implicit Types (pol : DelegationPolicy) (from to : ustr).

Definition dept_of (a : ustr) : ustr := trim (default [] (department org a)).

(** The rule as the module documents it, for two trimmed names. *)
Definition permitted pol (rules : option DelegationRules) (extra : list ustr) (s t : ustr) : Prop :=
  s ≠ [] ∧ t ≠ [] ∧ s ≠ t
  ∧ (is_system_sender s = true ∨ s ∈ map trim extra
     ∨ pol = Open
     ∨ boss org s t ∨ boss org t s
     ∨ (pol = Department ∧ dept_of s ≠ [] ∧ dept_of s = dept_of t)
     ∨ ∃ r, rules = Some r ∧ allows_pair r s t = true).

Lemma extra_sender s extra :
  existsb (λ x, ustr_eqb (trim x) s) extra = true ↔ s ∈ map trim extra.
Proof.
  rewrite existsb_exists, list_elem_of_In, in_map_iff. split.
  - intros (x & Hx & E). reflect_bools. eauto.
  - intros (x & E & Hx). exists x. split; [done|]. by apply bool_decide_eq_true_2.
Qed.

Lemma can_delegate_impl_exact pol rules from to extra :
  is_ok (can_delegate_ext_impl org pol rules from to extra) = true
  ↔ permitted pol rules extra (trim from) (trim to).
Proof.
  unfold can_delegate_ext_impl, permitted. fold (dept_of (trim from)) (dept_of (trim to)).
  set (s := trim from). set (t := trim to).
  assert (∀ a b, trim a = s ∨ trim a = t → trim b = s ∨ trim b = t →
    bool_decide (walk_up org (trim a) (trim b) = Found) = true ↔ boss org (trim b) (trim a)) as Hw.
  { intros a b _ _. rewrite bool_decide_eq_true, walk_found. by rewrite !trim_idem. }
  pose proof (Hw to from (or_intror eq_refl) (or_introl eq_refl)) as Hd.
  pose proof (Hw from to (or_introl eq_refl) (or_intror eq_refl)) as Hu. fold s t in Hd, Hu.
  destruct (is_empty s || is_empty t) eqn:E0.
  { split; [done|]. intros (? & ? & _). by destruct s, t. }
  apply orb_false_iff in E0 as [Es Et]. apply is_empty_false in Es, Et.
  destruct (ustr_eqb s t) eqn:E1; reflect_bools; [split; [done|]; by intros (_ & _ & ? & _)|].
  destruct (is_system_sender s || _) eqn:E2.
  { apply orb_true_iff in E2 as [?|?%extra_sender]; split; auto 10. }
  apply orb_false_iff in E2 as [Esys Eex]. rewrite <- not_true_iff_false, extra_sender in Eex.
  destruct (bool_decide (pol = Open)) eqn:E3; reflect_bools; [split; auto 10|].
  destruct (bool_decide (walk_up org t s = Found)) eqn:E4.
  { pose proof (proj1 Hd eq_refl). split; [|done]. intros _. auto 10. }
  destruct (bool_decide (walk_up org s t = Found)) eqn:E5.
  { pose proof (proj1 Hu eq_refl). split; [|done]. intros _. auto 10. }
  destruct (_ && ustr_eqb _ _) eqn:E6.
  { apply andb_true_iff in E6 as [[[Hpol Hne]%andb_true_iff _]%andb_true_iff Heq].
    reflect_bools. apply is_empty_false in Hne. split; auto 12. }
  destruct (match rules with Some r => _ | None => _ end) eqn:E7.
  { destruct rules as [r|]; [|done]. split; [|done]. intros _. split_and!; eauto 12. }
  split.
  - destruct (_ || _); [done|]. destruct pol; [destruct (_ || _)| |]; done.
  - intros (_ & _ & _ & [H|[H|[H|[H|[H|[H|H]]]]]]); exfalso.
    + congruence.
    + done.
    + done.
    + apply Hd in H. congruence.
    + apply Hu in H. congruence.
    + destruct H as (-> & Hne & Heq). apply not_true_iff_false in E6. apply E6.
      rewrite bool_decide_eq_true_2 by done. rewrite <- Heq, (proj2 (is_empty_false _) Hne).
      simpl. by apply bool_decide_eq_true_2.
    + destruct H as (r & -> & Hr). congruence.
Qed.
(** The walk decides ancestry exactly: [is_ancestor] holds when the one name
    is a superior of the other within 20 hops, it always answers, and unless
    it gave up at the 20th hop, no means no superior at any distance, loops
    included. *)
Theorem is_ancestor_exact (ancestor descendant : ustr) :
  (is_ancestor org ancestor descendant = true ↔ boss org (trim ancestor) (trim descendant))
  ∧ (walk_up org descendant ancestor = NotFound →
     ∀ k, (1 ≤ k)%nat → superior org k (trim descendant) ≠ Some (trim ancestor)).
Proof.
  split; [unfold is_ancestor; by rewrite bool_decide_eq_true, walk_found|].
  intros Hn. pose proof (walk_up_spec org descendant ancestor) as Hs. by rewrite Hn in Hs.
Qed.

(** C9 The predicate is the documented rule: a delegation is allowed exactly
    when both names are present and different and one of the rules holds
    (system sender, Open policy, superior in either direction within 20 hops,
    same non-empty department under Department, whitelist). *)
Theorem can_delegate_exact pol rules from to extra :
  is_ok (can_delegate_ext_impl org pol rules from to extra) = true
  ↔ permitted pol rules extra (trim from) (trim to).
Proof. apply can_delegate_impl_exact. Qed.

(** Between agents the relation is symmetric: who may be given work may also
    report back, under every policy and whitelist. *)
Theorem delegation_symmetric pol rules from to :
  is_system_sender from = false → is_system_sender to = false →
  is_ok (can_delegate_ext_impl org pol rules from to [])
  = is_ok (can_delegate_ext_impl org pol rules to from []).
Proof.
  intros Hf Ht. apply eq_true_iff_eq. rewrite !can_delegate_impl_exact.
  assert (∀ a b, is_system_sender a = false → is_system_sender b = false →
    permitted pol rules [] (trim a) (trim b) → permitted pol rules [] (trim b) (trim a)) as Hs.
  { intros a b Ha Hb (H1 & H2 & H3 & H4). unfold permitted. split_and!; [done|done|by intros E; apply H3|].
    rewrite is_system_sender_trim, Ha in H4. rewrite is_system_sender_trim, Hb.
    destruct H4 as [?|[H|[?|[?|[?|[(? & ? & E)|(r & ? & Hr)]]]]]];
      [done|by apply not_elem_of_nil in H|by auto 10|by auto 10|by auto 10| |].
    - right. right. right. right. right. left. by rewrite <- E.
    - rewrite allows_pair_sym in Hr. eauto 12. }
  split; by apply Hs.
Qed.

Definition narrower (p q : DelegationPolicy) : Prop := q = Open ∨ p = q ∨ (p = Hierarchy ∧ q = Department).

(** Loosening only loosens: whatever Hierarchy allows Department allows,
    whatever either allows Open allows, and a whitelist or an extra system
    sender never revokes a delegation.  Self-delegation stays denied. *)
Theorem loosening_monotone p q rules from to extra more :
  narrower p q →
  is_ok (can_delegate_ext_impl org p None from to extra) = true →
  is_ok (can_delegate_ext_impl org q rules from to (extra ++ more)) = true
  ∧ is_ok (can_delegate_ext_impl org q rules to to more) = false.
Proof.
  intros Hn Hp. rewrite can_delegate_impl_exact in Hp. split.
  - apply can_delegate_impl_exact. destruct Hp as (H1 & H2 & H3 & H4). unfold permitted.
    split_and!; [done..|]. rewrite map_app, elem_of_app.
    destruct Hn as [->|[<-|[-> ->]]]; [by auto 10| |];
      destruct H4 as [?|[?|[?|[?|[?|[?|(? & ? & _)]]]]]]; auto 12; try done.
    destruct H as (? & _). done.
  - apply not_true_iff_false. rewrite can_delegate_impl_exact. by intros (_ & _ & ? & _).
Qed.

(** A refusal names only the two parties, trimmed, and its code tells the
    truth: [chain_too_deep] only when a walk gave up, the department codes
    only under Department. *)
Theorem denial_truthful pol rules from to extra d :
  can_delegate_ext_impl org pol rules from to extra = Err d →
  sender d = trim from ∧ target d = trim to ∧ denied_policy d = pol
  ∧ match reason d with
    | InvalidAgentId => trim from = [] ∨ trim to = []
    | SelfDelegation => trim from = trim to
    | ChainTooDeep => walk_up org to from = Truncated ∨ walk_up org from to = Truncated
    | MissingDepartment =>
        pol = Department ∧ (dept_of (trim from) = [] ∨ dept_of (trim to) = [])
    | DifferentDepartment => pol = Department ∧ dept_of (trim from) ≠ dept_of (trim to)
    | NoHierarchyRelation => pol = Hierarchy
    | HumanPrincipalNotPermitted => False
    end.
Proof.
  unfold can_delegate_ext_impl. fold (dept_of (trim from)) (dept_of (trim to)).
  assert (∀ a b, walk_up org (trim a) (trim b) = walk_up org a b) as Hw.
  { intros. unfold walk_up. by rewrite !trim_idem. }
  rewrite !Hw.
  destruct (_ || is_empty (trim to)) eqn:E0.
  { intros. simplify_eq. simpl. rewrite <- !is_empty_true, <- orb_true_iff. auto. }
  destruct (ustr_eqb (trim from) (trim to)) eqn:E1; [intros; reflect_bools; by simplify_eq|].
  destruct (_ || existsb _ _); [done|].
  destruct (bool_decide (pol = Open)) eqn:E3; [done|].
  destruct (bool_decide (walk_up org to from = Found)); [discriminate|].
  destruct (bool_decide (walk_up org from to = Found)); [discriminate|].
  destruct (_ && ustr_eqb (dept_of _) _) eqn:E6; [done|].
  destruct (match rules with Some r => _ | None => _ end); [done|].
  destruct (bool_decide (walk_up org to from = Truncated) || _) eqn:E7.
  { intros E. injection E as <-. cbn [sender target denied_policy reason].
    apply orb_true_iff in E7 as [Hd%bool_decide_eq_true_1|Hu%bool_decide_eq_true_1].
    - split_and!; [done..|by left].
    - split_and!; [done..|by right]. }
  destruct pol; reflect_bools; [| |done]; [|intros; by simplify_eq].
  destruct (is_empty (dept_of _) || _) eqn:E8; intros; simplify_eq; simpl; (split_and!; [done..|]).
  - rewrite <- !is_empty_true, <- orb_true_iff. done.
  - intros E. apply orb_false_iff in E8 as [E8 E9]. rewrite E8, E9, E in E6. simpl in E6.
    apply not_true_iff_false in E6. apply E6, bool_decide_eq_true_2. done.
Qed.
End properties.

(** ** Witnesses *)

(** ceo <- lead <- rep, one department for the two; a pair that reports to
    each other. *)
Definition demo_org : MapOrgView :=
  with_agent (with_agent (with_agent (with_agent (with_agent MapOrgView_new
    (u "ceo") (u "none") [])
    (u "lead") (u "ceo") (u "sales"))
    (u "rep") (u " lead ") (u "sales"))
    (u "x") (u "y") []) (u "y") (u "x") [].

Lemma delegation_symmetric_witness :
  is_ok (can_delegate_ext_impl demo_org Hierarchy None (u "ceo") (u "rep") [])
  = is_ok (can_delegate_ext_impl demo_org Hierarchy None (u "rep") (u "ceo") []).
Proof. apply delegation_symmetric; by_eval. Defined.

Lemma loosening_monotone_witness :
  is_ok (can_delegate_ext_impl demo_org Department None (u "ceo") (u "rep") []) = true.
Proof.
  apply (loosening_monotone demo_org Hierarchy Department None (u "ceo") (u "rep") [] []).
  - right. right. done.
  - by_eval.
Defined.

Definition demo_denial : DelegationDenied :=
  {| sender := u "x"; target := u "rep"; denied_policy := Hierarchy; reason := NoHierarchyRelation |}.

Lemma denial_truthful_witness : sender demo_denial = trim (u " x").
Proof.
  assert (can_delegate_ext_impl demo_org Hierarchy None (u " x") (u "rep") [] = Err demo_denial) as E
    by (vm_compute; reflexivity).
  exact (proj1 (denial_truthful demo_org Hierarchy None (u " x") (u "rep") [] demo_denial E)).
Defined.

Lemma system_names_reserved_witness : is_reserved_agent_id (u " Cron ") = true.
Proof.
  assert (u "cron" ∈ SYSTEM_SENDERS ++ [ACP_CLIENT_SENDER] ++ RESERVED_QUEUE_SENDERS) as Hin
    by (apply list_elem_of_In; vm_compute; auto 10).
  assert (eq_ignore_ascii_case (u "cron") (trim (u " Cron ")) = true) as E by (vm_compute; reflexivity).
  exact (proj1 (system_names_reserved (u " Cron ") (u "cron") Hin E)).
Defined.

(** A loop in [reports_to] is not reported as one: the walk closes the
    cycle and answers [NotFound], so the refusal carries
    [no_hierarchy_relation], not [chain_too_deep]. *)
Theorem cycle_not_too_deep :
  can_delegate demo_org Hierarchy (u "x") (u "rep")
  = Err {| sender := u "x"; target := u "rep"; denied_policy := Hierarchy;
           reason := NoHierarchyRelation |}
  ∧ superior demo_org 2 (u "x") = Some (u "x").
Proof. split; vm_compute; reflexivity. Qed.
