(* ===== verification/DelegationConfig.v ===== *)
(** * Reading [delegation] from config.toml (core delegation_policy.rs)

    The defensive reader of the section, and the fail-closed reader of the
    identity-token setting with its per-process grace latch. *)

From S2P Require Import Prelude Float64 Toml Delegation.

Record DelegationConfig := {
  raw_policy : ustr;
  raw_allow : list (list ustr);
  require_identity_token : bool;
}.

Definition DelegationConfig_default : DelegationConfig :=
  {| raw_policy := policy_as_str DelegationPolicy_default; raw_allow := [];
     require_identity_token := true |}.

(** [chrono::DateTime::parse_from_rfc3339]: the instant (nanoseconds of UTC)
    and the offset of the text (seconds east of UTC). *)
Class Rfc3339 := { parse_from_rfc3339 : ustr → option (Z * Z) }.

(** What the file system answers about config.toml and the home directory. *)
Inductive metadata := Missing | MetadataError | Present.

Record config_file := {
  meta : metadata;
  text : option ustr;              (** [read_to_string] *)
  canonical : option (list ustr);  (** [canonicalize(home)] *)
}.

(** The process-wide latch: the homes whose grace was once seen invalid, and
    whether its lock is poisoned. *)
Record latch := { disabled : gset (list ustr); poisoned : bool }.

Section reader.
Context `{Toml} (debug_entry : list ustr → ustr).

(** [delegation_config_from_table]. *)
Definition delegation_config_from_table (table : toml_table) : DelegationConfig :=
  match toml_get table (u "delegation") ≫= as_table with
  | None => DelegationConfig_default
  | Some section =>
      {| raw_policy :=
           default (policy_as_str DelegationPolicy_default)
             (toml_get section (u "policy") ≫= as_str);
         raw_allow :=
           default []
             (map (λ entry, default [] (map (λ member, default [] (as_str member)) <$> as_array entry))
              <$> (toml_get section (u "allow") ≫= as_array));
         require_identity_token :=
           default true (toml_get section (u "require_identity_token") ≫= as_bool) |}
  end.

(** [DelegationConfig::from_home]. *)
Definition from_home (f : config_file) : DelegationConfig :=
  match text f with
  | None => DelegationConfig_default
  | Some content =>
      match toml_parse content with
      | None => DelegationConfig_default
      | Some table => delegation_config_from_table table
      end
  end.

Definition resolve (c : DelegationConfig) : DelegationPolicy * option ustr :=
  from_config_value (raw_policy c).

Definition config_policy (c : DelegationConfig) : DelegationPolicy := (resolve c).1.

(** [resolve_rules]: the policy warning comes first. *)
Definition resolve_rules (c : DelegationConfig) : DelegationRules * list ustr :=
  let '(pol, policy_warning) := resolve c in
  let '(pairs, warnings) := resolve_allow_pairs debug_entry (raw_allow c) in
  ({| policy := pol; allow_pairs := pairs |},
   match policy_warning with Some w => w :: warnings | None => warnings end).

Definition policy_from_home (f : config_file) : DelegationPolicy := (resolve (from_home f)).1.
Definition delegation_rules_from_table (table : toml_table) : DelegationRules :=
  (resolve_rules (delegation_config_from_table table)).1.
Definition delegation_rules_from_home (f : config_file) : DelegationRules :=
  (resolve_rules (from_home f)).1.

End reader.

(** ** The identity token *)

Section identity.
Context `{Toml} `{Rfc3339}.

Definition GRACE_MAX : Z := secs (30 * 24 * 60 * 60).

(** [identity_grace_valid]. *)
Definition identity_grace_valid (section : toml_table) (now : Z) : bool :=
  match (toml_get section (u "identity_token_grace_until") ≫= as_str) ≫= parse_from_rfc3339 with
  | None => false
  | Some (deadline, offset) =>
      (offset =? 0) && (now <? deadline) && (deadline - now <=? GRACE_MAX)
  end.

(** [identity_grace_enabled]: [None] is an error. *)
Definition identity_grace_enabled (f : config_file) (section : toml_table) (now : Z) (l : latch)
    : option bool * latch :=
  match canonical f with
  | None => (None, l)
  | Some home =>
      if poisoned l then (None, l)
      else if bool_decide (home ∈ disabled l) then (Some false, l)
      else if identity_grace_valid section now then (Some true, l)
      else (Some false, {| disabled := {[ home ]} ∪ disabled l; poisoned := false |})
  end.

(** [require_identity_token_from_home_at]. *)
Definition require_identity_token_from_home_at (f : config_file) (now : Z) (l : latch)
    : option bool * latch :=
  match meta f with
  | Missing => (Some true, l)
  | MetadataError => (None, l)
  | Present =>
      match text f with
      | None => (None, l)
      | Some content =>
          match toml_parse content with
          | None => (None, l)
          | Some table =>
              match toml_get table (u "delegation") with
              | None => (Some true, l)
              | Some v =>
                  match as_table v with
                  | None => (None, l)
                  | Some section =>
                      match toml_get section (u "require_identity_token") with
                      | None => (Some true, l)
                      | Some value =>
                          match as_bool value with
                          | None => (None, l)
                          | Some true => (Some true, l)
                          | Some false =>
                              let '(valid, l') := identity_grace_enabled f section now l in
                              (negb <$> valid, l')
                          end
                      end
                  end
              end
          end
      end
  end.

(** ** Lemmas *)

Definition latched (f : config_file) (l : latch) : Prop :=
  ∃ home, canonical f = Some home ∧ home ∈ disabled l.

Lemma grace_spec f section now l b l' :
  identity_grace_enabled f section now l = (b, l') →
  disabled l ⊆ disabled l'
  ∧ (b = Some true → identity_grace_valid section now = true ∧ ¬ latched f l ∧ poisoned l = false).
Proof.
  unfold identity_grace_enabled, latched.
  destruct (canonical f) as [home|]; [|intros; by simplify_eq].
  destruct (poisoned l); [intros; by simplify_eq|].
  destruct (bool_decide _) eqn:E; reflect_bools; [intros; by simplify_eq|].
  destruct (identity_grace_valid _ _) eqn:Ev; intros; simplify_eq; simpl; (split; [set_solver|]); [|done].
  intros _. split_and!; [done| |done]. intros (h & Eh & Hh). by simplify_eq.
Qed.

(** Reading the setting: what the latch becomes, and what a [false] answer
    means. *)
Lemma reader_spec f now l b l' :
  require_identity_token_from_home_at f now l = (b, l') →
  disabled l ⊆ disabled l'
  ∧ (b = Some false →
     ¬ latched f l
     ∧ ∃ content table v section value,
         meta f = Present ∧ text f = Some content ∧ toml_parse content = Some table
         ∧ toml_get table (u "delegation") = Some v ∧ as_table v = Some section
         ∧ toml_get section (u "require_identity_token") = Some value ∧ as_bool value = Some false
         ∧ identity_grace_valid section now = true).
Proof.
  unfold require_identity_token_from_home_at.
  destruct (meta f) eqn:E1; [intros; by simplify_eq..|].
  destruct (text f) as [content|] eqn:E2; [|intros; by simplify_eq].
  destruct (toml_parse content) as [table|] eqn:E3; [|intros; by simplify_eq].
  destruct (toml_get table _) as [v|] eqn:E4; [|intros; by simplify_eq].
  destruct (as_table v) as [section|] eqn:E5; [|intros; by simplify_eq].
  destruct (toml_get section _) as [value|] eqn:E6; [|intros; by simplify_eq].
  destruct (as_bool value) as [[]|] eqn:E7; [intros; by simplify_eq| |intros; by simplify_eq].
  destruct (identity_grace_enabled f section now l) as [valid l1] eqn:Eg. intros E. simplify_eq.
  apply grace_spec in Eg as [Hsub Hv]. split; [done|].
  destruct valid as [[]|]; simpl; [|done..]. intros _. destruct (Hv eq_refl) as (? & ? & _).
  split; [done|]. eauto 15.
Qed.

(** A process: one latch, read at any times (the clock may go back) against
    whatever the files say at each read. *)
Fixpoint reads (rs : list (config_file * Z)) (l : latch) : list (option bool) * latch :=
  match rs with
  | [] => ([], l)
  | (f, now) :: r =>
      let '(b, l1) := require_identity_token_from_home_at f now l in
      let '(bs, l2) := reads r l1 in
      (b :: bs, l2)
  end.

Lemma reads_strict f rs : ∀ l,
  latched f l → (∀ f' now, (f', now) ∈ rs → canonical f' = canonical f) →
  Forall (λ b, b ≠ Some false) (reads rs l).1.
Proof.
  induction rs as [|[f' now] rs IH]; intros l Hl Hc; [constructor|]. simpl.
  destruct (require_identity_token_from_home_at f' now l) as [b l1] eqn:E.
  apply reader_spec in E as [Hsub Hb]. specialize (IH l1).
  destruct (reads rs l1) as [bs l2]. simpl. constructor.
  - intros ->. destruct (Hb eq_refl) as [Hn _]. apply Hn.
    destruct Hl as (h & Eh & Hh). exists h. split; [|done].
    rewrite <- Eh. apply (Hc f' now). by constructor.
  - apply IH; [|intros; apply (Hc f'0 now0); by constructor].
    destruct Hl as (h & Eh & Hh). exists h. split; [done|]. by apply Hsub.
Qed.

(** Grace, once lost, stays lost: after one read that answers strict because
    the grace of an explicit [false] was missing, malformed, expired or too
    long, no later read for that home in this process is lenient, whatever
    the file then says, by whatever path the home is named, and even if the
    clock goes back. *)
Theorem grace_lost_for_good f now l rs section b l' :
  identity_grace_enabled f section now l = (Some false, l') →
  (∀ f' now', (f', now') ∈ rs → canonical f' = canonical f) →
  b ∈ (reads rs l').1 → b ≠ Some false.
Proof.
  intros Hg Hc Hb.
  assert (latched f l') as Hl.
  { unfold identity_grace_enabled in Hg. destruct (canonical f) as [home|] eqn:Eh; [|done].
    destruct (poisoned l); [done|]. destruct (bool_decide _) eqn:E; reflect_bools.
    - simplify_eq. by exists home.
    - destruct (identity_grace_valid _ _); [done|]. simplify_eq. exists home. simpl. set_solver. }
  pose proof (reads_strict f rs l' Hl Hc) as Hf. rewrite List.Forall_forall in Hf.
  apply Hf. by apply list_elem_of_In.
Qed.

(** Leniency is fail-closed: the reader answers "no token required" only for
    a readable file whose [delegation] table says [false] and carries a
    deadline written in UTC, strictly in the future and at most 30 days
    ahead, for a home that never lost its grace.  Everything else is strict
    or an error. *)
Theorem lenient_only_within_grace f now l l' :
  require_identity_token_from_home_at f now l = (Some false, l') →
  ¬ latched f l ∧ meta f = Present
  ∧ ∃ content table v section value deadline,
      text f = Some content ∧ toml_parse content = Some table
      ∧ toml_get table (u "delegation") = Some v ∧ as_table v = Some section
      ∧ toml_get section (u "require_identity_token") = Some value ∧ as_bool value = Some false
      ∧ (toml_get section (u "identity_token_grace_until") ≫= as_str) ≫= parse_from_rfc3339
        = Some (deadline, 0)
      ∧ now < deadline ≤ now + GRACE_MAX.
Proof.
  intros Hr. apply reader_spec in Hr as [_ Hr].
  destruct (Hr eq_refl) as (Hl & content & table & v & section & value & Hm & Ht & Hp & Hd & Ha & Hg & Hb & Hv).
  split_and!; [done|done|]. unfold identity_grace_valid in Hv.
  destruct (_ ≫= parse_from_rfc3339) as [[deadline offset]|] eqn:Eo; [|done].
  apply andb_true_iff in Hv as [[Ho Hn]%andb_true_iff Hle]. reflect_bools. subst.
  exists content, table, v, section, value, deadline. split_and!; done || lia.
Qed.

End identity.

(** A malformed configuration never widens delegation: an unreadable or
    unparsable file, a missing or non-table section, and an unrecognised
    policy all resolve to the Department policy, and then with a warning when
    it was the value; and without an [allow] array the whitelist is empty. *)
Theorem malformed_config_is_department `{Toml} (debug_entry : list ustr → ustr) f :
  (text f = None ∨ (∃ c, text f = Some c ∧ toml_parse c = None)
   ∨ (∃ c t, text f = Some c ∧ toml_parse c = Some t
             ∧ toml_get t (u "delegation") ≫= as_table = None)) →
  delegation_rules_from_home debug_entry f = {| policy := Department; allow_pairs := [] |}
  ∧ policy_from_home f = Department
  ∧ ∀ value, parse_policy value = None →
      (from_config_value value).1 = Department ∧ (from_config_value value).2 ≠ None.
Proof.
  intros Hf.
  assert (from_home f = DelegationConfig_default) as E.
  { unfold from_home, delegation_config_from_table.
    destruct Hf as [->|[(c & -> & ->)|(c & t & -> & -> & ->)]]; done. }
  assert (from_config_value (policy_as_str DelegationPolicy_default) = (Department, None)) as Ed
    by (vm_compute; reflexivity).
  unfold delegation_rules_from_home, policy_from_home, resolve_rules, resolve. rewrite E.
  cbn [raw_policy raw_allow DelegationConfig_default]. rewrite Ed.
  split_and!; [done|done|]. intros value Hv. unfold from_config_value. by rewrite Hv.
Qed.
(** The policy names round-trip through the configuration, in any case and
    with surrounding blanks. *)
Lemma policy_roundtrip p s :
  to_ascii_lowercase (trim s) = policy_as_str p → parse_policy s = Some p.
Proof. intros E. unfold parse_policy. rewrite E. destruct p; vm_compute; reflexivity. Qed.

(** ** Witnesses *)

(** Documents are lists of words: a lone [false] is
    [require_identity_token = false] with a deadline 100 s after time 0. *)
Definition grace_toml : Toml := {|
  toml_table := unit; toml_value := ustr;
  toml_parse := λ s, if is_empty s then None else Some tt;
  toml_get := λ _ k, Some k;
  as_table := λ v, Some tt; as_integer := λ _, None; as_float := λ _, None;
  as_str := λ v, Some v; as_bool := λ v, Some false; as_array := λ _, None |}.
#[local] Existing Instance grace_toml.
Definition grace_rfc : Rfc3339 := {| parse_from_rfc3339 := λ _, Some (secs 100, 0) |}.
#[local] Existing Instance grace_rfc.

Definition grace_file : config_file :=
  {| meta := Present; text := Some (u "false"); canonical := Some [u "home"] |}.
Definition fresh_latch : latch := {| disabled := ∅; poisoned := false |}.

Lemma lenient_only_within_grace_witness :
  require_identity_token_from_home_at grace_file (secs 50) fresh_latch = (Some false, fresh_latch)
  ∧ meta grace_file = Present.
Proof.
  split; [vm_compute; reflexivity|].
  apply (lenient_only_within_grace grace_file (secs 50) fresh_latch fresh_latch).
  vm_compute. reflexivity.
Defined.

(** Expired at 200 s; the clock then goes back to 50 s, inside the grace. *)
Definition after_expiry : latch := (identity_grace_enabled grace_file (tt : @toml_table grace_toml) (secs 200) fresh_latch).2.

Lemma grace_lost_for_good_witness :
  (reads [(grace_file, secs 50)] after_expiry).1 = [Some true]
  ∧ Some true ≠ Some false.
Proof.
  split; [vm_compute; reflexivity|].
  apply (grace_lost_for_good grace_file (secs 200) fresh_latch [(grace_file, secs 50)] (tt : @toml_table grace_toml)
    (Some true) after_expiry).
  - vm_compute. reflexivity.
  - intros f' now' Hin. apply elem_of_cons in Hin as [E|Hin]; [by simplify_eq|].
    by apply not_elem_of_nil in Hin.
  - apply list_elem_of_In. vm_compute. by left.
Defined.

Lemma malformed_config_is_department_witness :
  delegation_rules_from_home (λ _, []) {| meta := Missing; text := None; canonical := None |}
  = {| policy := Department; allow_pairs := [] |}.
Proof.
  apply (malformed_config_is_department (λ _, [])
    {| meta := Missing; text := None; canonical := None |}).
  by left.
Defined.
