(* ===== verification/StateFile.v ===== *)
(** * State kept in a small JSON file shared by several processes
    (core fs_lock.rs, and the load/save pairs of dispatch_guard.rs and
    concurrency_gate.rs)

    Every read-modify-write of such a file holds an advisory lock, so the
    operations of all processes are a sequence; each is a function of the file
    it finds and of the faults it meets.  [serde_json] is the interface
    [StateCodec]; its one law is that what it writes it can read back. *)

From stdpp Require Import countable.
From S2P Require Import Prelude.

(** A file: absent, or its bytes. *)
Abbreviation file := (option (list N)).

Class StateCodec (St : Type) := {
  from_slice : list N → option St;
  to_vec : St → option (list N);
  codec_roundtrip s b : to_vec s = Some b → from_slice b = Some s;
}.

(** What goes wrong during one operation. *)
Record faults := {
  lock_fails : bool;
  read_fails : bool;
  write_fails : bool;
  rename_fails : bool;
}.
Definition no_faults : faults :=
  {| lock_fails := false; read_fails := false; write_fails := false; rename_fails := false |}.

(** [with_file_lock]: [Err] without running [f] when the lock cannot be
    taken; the lock is released whatever [f] answers. *)
Definition with_file_lock {A} (F : faults) (f : file → A * file) (d : file) : option A * file :=
  if lock_fails F then (None, d) else let '(a, d') := f d in (Some a, d').

Section state_file.
Context {St : Type} `{!StateCodec St} (empty : St).

(** [load_state]: a missing, unreadable or corrupt file is an empty state. *)
Definition load_state (F : faults) (d : file) : St :=
  if read_fails F then empty
  else match d with Some bytes => default empty (from_slice bytes) | None => empty end.

(** [save_state]: the temporary file, then the rename; the file itself changes
    only when every step worked.  The result is the success flag. *)
Definition save_state (F : faults) (st : St) (d : file) : bool * file :=
  match to_vec st with
  | None => (false, d)
  | Some bytes =>
      if write_fails F then (false, d)
      else if rename_fails F then (false, d)
      else (true, Some bytes)
  end.

(** [let _ = save_state(..)]. *)
Definition try_save (F : faults) (st : St) (d : file) : file := (save_state F st d).2.

(** The state a healthy reader finds. *)
Definition state_in (d : file) : St := load_state no_faults d.

(** All states of the type can be written. *)
Definition writable : Prop := ∀ s : St, is_Some (to_vec s).

Lemma load_save F st d :
  (save_state F st d).1 = true → state_in (save_state F st d).2 = st.
Proof.
  unfold save_state, state_in, load_state. destruct (to_vec st) as [b|] eqn:E; [|done].
  destruct (write_fails F), (rename_fails F); try done. intros _. simpl.
  by rewrite (codec_roundtrip _ _ E).
Qed.

Lemma save_atomic F st d :
  state_in (try_save F st d) = st ∨ try_save F st d = d.
Proof.
  destruct ((save_state F st d).1) eqn:E; [left; by apply load_save|]. right.
  unfold try_save, save_state in *. destruct (to_vec st); [|done].
  by destruct (write_fails F), (rename_fails F).
Qed.

Lemma try_save_ok st d : writable → state_in (try_save no_faults st d) = st.
Proof.
  intros Hw. apply load_save. unfold save_state. by destruct (Hw st) as [b ->].
Qed.
End state_file.

(** A codec for every countable type: one number per state. *)
Section countable_codec.
Context (St : Type) `{Countable St}.

Definition decode_slice (b : list N) : option St :=
  match b with [N.pos p] => decode p | _ => None end.

Lemma decode_slice_encode (s : St) (b : list N) :
  Some [N.pos (encode s)] = Some b → decode_slice b = Some s.
Proof. intros E. injection E as <-. apply decode_encode. Qed.

Definition countable_codec : StateCodec St :=
  {| from_slice := decode_slice; to_vec := λ s, Some [N.pos (encode s)];
     codec_roundtrip := decode_slice_encode |}.
End countable_codec.

Lemma countable_codec_writable (St : Type) `{Countable St} (s : St) :
  is_Some (@to_vec St (countable_codec St) s).
Proof. simpl. eauto. Qed.
