(* ===== verification/DispatchGuard.v ===== *)
(** * The cross-process dispatch rate guard (crates/duduclaw-core/src/dispatch_guard.rs)

    One bucket per feedback path and agent in dispatch_guard.json.  Times are
    epoch milliseconds; the 64-bit arithmetic wraps as release builds do. *)

From stdpp Require Import countable.
From S2P Require Import Prelude StateFile.

Definition PATH_KIND_ROLE_TEAM : ustr := u "role_team".
Definition PATH_KIND_DISCOVERY : ustr := u "discovery".
Definition DEFAULT_ROLE_TEAM_MAX_IN_WINDOW : Z := 60.
Definition DEFAULT_MAX_HOP_DEPTH : Z := 5.

Record DispatchGuardConfig := {
  window_secs : Z;
  max_in_window : Z;
  role_team_max_in_window : Z;
  cooldown_secs : Z;
  max_hop_depth : Z;
}.

Definition DispatchGuardConfig_default : DispatchGuardConfig := {|
  window_secs := 60; max_in_window := 20;
  role_team_max_in_window := DEFAULT_ROLE_TEAM_MAX_IN_WINDOW;
  cooldown_secs := 60; max_hop_depth := DEFAULT_MAX_HOP_DEPTH |}.

(** [DispatchGuardConfig::from_home]: [section_of] is the parser applied to
    the text, looking up the section ([None]: no TOML or no such section) and
    deserializing it. *)
Definition from_home (section_of : ustr → option (option DispatchGuardConfig))
    (content : option ustr) : DispatchGuardConfig :=
  match content with
  | None => DispatchGuardConfig_default
  | Some text =>
      match section_of text with
      | None => DispatchGuardConfig_default
      | Some section => default DispatchGuardConfig_default section
      end
  end.

Definition limit_for_kind (cfg : DispatchGuardConfig) (path_kind : ustr) : Z :=
  if ustr_eqb path_kind PATH_KIND_ROLE_TEAM then role_team_max_in_window cfg
  else max_in_window cfg.

Inductive DispatchGuardDecision :=
| Allow
| Trip (reason : ustr) (retry_after_secs : Z).

Definition is_tripped (d : DispatchGuardDecision) : bool :=
  match d with Trip _ _ => true | Allow => false end.

Record Bucket := {
  events : list Z;
  tripped_until : option Z;
}.
#[export] Instance Bucket_eq_dec : EqDecision Bucket.
Proof. solve_decision. Defined.

Definition Bucket_default : Bucket := {| events := []; tripped_until := None |}.

Abbreviation State := (gmap ustr Bucket).

(** Whether [prune] keeps a bucket. *)
Definition keep_bucket (now_ms window_ms : Z) (b : Bucket) : bool :=
  match tripped_until b with
  | Some until => if now_ms <? until then true else existsb (λ t, now_ms - t <? window_ms) (events b)
  | None => existsb (λ t, now_ms - t <? window_ms) (events b)
  end.

Definition prune (now_ms window_ms : Z) (state : State) : State :=
  base.filter (λ p : ustr * Bucket, keep_bucket now_ms window_ms p.2 = true) state.

(** [saturating_mul(1000) as i64], and a 64-bit addition. *)
Definition to_ms (s : Z) : Z := as_i64 (u64_saturating_mul s 1000).
Definition i64_add (a b : Z) : Z := as_i64 (a + b).

Definition bucket_key (path_kind agent_id : ustr) : ustr := path_kind ++ u "|" ++ agent_id.

Section guard.
Context `{!StateCodec State} (cfg : DispatchGuardConfig).

Definition window_ms : Z := to_ms (window_secs cfg).
Definition cooldown_ms : Z := to_ms (cooldown_secs cfg).

(** The closure of [check_and_record], under the lock.  The new state is saved
    where the code saves it. *)
Definition locked_check (F : faults) (key : ustr) (limit now_ms : Z) (d : file)
    : DispatchGuardDecision * file :=
  let state := prune now_ms window_ms (load_state ∅ F d) in
  let bucket := default Bucket_default (state !! key) in
  let proceed b :=
    let evs := retain (λ t, now_ms - t <? window_ms) (events b) in
    if limit <=? as_u32 (Z.of_nat (length evs)) then
      (Trip (u "dispatch circuit breaker TRIPPED for " ++ key ++ u ": " ++ show_nat (length evs)
             ++ u " dispatches in " ++ show_Z (window_secs cfg) ++ u "s window (limit "
             ++ show_Z limit ++ u ")") (cooldown_secs cfg),
       try_save F (<[key := {| events := evs; tripped_until := Some (i64_add now_ms cooldown_ms) |}]> state) d)
    else
      (Allow,
       try_save F (<[key := {| events := evs ++ [now_ms]; tripped_until := tripped_until b |}]> state) d) in
  match tripped_until bucket with
  | Some until =>
      if now_ms <? until then
        (Trip (u "dispatch circuit breaker OPEN for " ++ key ++ u ": >" ++ show_Z limit
               ++ u " dispatches in " ++ show_Z (window_secs cfg) ++ u "s window; cooling down")
              (Z.max ((until - now_ms) ÷ 1000) 0), d)
      else proceed Bucket_default
  | None => proceed bucket
  end.

(** [check_and_record]; [now_ms] is read before the lock is asked for. *)
Definition check_and_record (F : faults) (path_kind agent_id : ustr) (now_ms : Z) (d : file)
    : DispatchGuardDecision * file :=
  let '(r, d') :=
    with_file_lock F
      (locked_check F (bucket_key path_kind agent_id) (limit_for_kind cfg path_kind) now_ms) d in
  (default Allow r, d').
End guard.

(** ** Lemmas *)

Lemma recent_ltb (W t : Z) (l : list Z) :
  retain (λ x, t - x <? W) l = retain (λ x : Z, t - W <? x) l.
Proof.
  apply List.filter_ext. intros x. apply eq_true_iff_eq. rewrite !Z.ltb_lt. lia.
Qed.

Lemma keep_bucket_false now W b : keep_bucket now W b = false →
  retain (λ x : Z, now - W <? x) (events b) = []
  ∧ match tripped_until b with Some until => until ≤ now | None => True end.
Proof.
  intros Hk. rewrite <- recent_ltb.
  assert (existsb (λ t, now - t <? W) (events b) = false ∧
    match tripped_until b with Some until => until ≤ now | None => True end) as [He Hu].
  { unfold keep_bucket in Hk. destruct (tripped_until b) as [u|]; [|done].
    destruct (now <? u) eqn:E; [done|]. reflect_bools. done. }
  split; [|done]. apply retain_none, List.Forall_forall. intros x Hx.
  apply not_true_iff_false. intros Hx'. apply not_true_iff_false in He. apply He, existsb_exists. eauto.
Qed.

Lemma prune_buckets_lookup now W st key :
  prune now W st !! key
  = match st !! key with Some b => if keep_bucket now W b then Some b else None | None => None end.
Proof.
  unfold prune. rewrite map_lookup_filter. destruct (st !! key) as [b|]; [|done]. simpl.
  destruct (keep_bucket now W b); [by rewrite option_guard_True|by rewrite option_guard_False].
Qed.

Lemma to_ms_small s : 0 ≤ s → s * 1000 < 2 ^ 63 → to_ms s = s * 1000.
Proof.
  intros H0 H1. unfold to_ms, u64_saturating_mul, as_i64. unfold u64_max.
  rewrite Z.min_r by lia. rewrite Z.mod_small by lia.
  by rewrite (proj2 (Z.ltb_lt _ _)) by lia.
Qed.

Lemma i64_add_small a b : 0 ≤ a + b < 2 ^ 63 → i64_add a b = a + b.
Proof.
  intros Hab. unfold i64_add, as_i64. rewrite Z.mod_small by lia.
  by rewrite (proj2 (Z.ltb_lt _ _)) by lia.
Qed.

(** ** The rate bound *)

Section rate.
Context `{!StateCodec State} (cfg : DispatchGuardConfig).
Implicit Types (key path agent : ustr) (d : file) (acc : list Z).
Local Abbreviation W := (window_ms cfg).
Local Abbreviation C := (cooldown_ms cfg).

(** [δ] bounds how long a call waits for the lock after it read the clock. *)
Context (δ : Z).
Local Abbreviation D := (W - δ).

(** A history of the file, seen from one bucket: calls of all processes, on
    all paths, in the order in which they hold the lock, with working files
    and a clock that does not go back.  A call reads the clock at [r] and holds
    the lock at [t]; [acc] collects the [t] of the bucket's calls that were
    allowed; [N] bounds the limit of the calls that share the bucket. *)
Inductive history (N : Z) key : Z → file → list Z → Prop :=
| history_new t : history N key t None []
| history_call now d acc r t path agent dec d' :
    history N key now d acc → now ≤ t → r ≤ t ≤ r + δ → 0 ≤ r → r + C < 2 ^ 63 →
    check_and_record cfg no_faults path agent r d = (dec, d') →
    (bucket_key path agent = key → limit_for_kind cfg path ≤ N) →
    history N key t d'
      (acc ++ if bool_decide (bucket_key path agent = key) && negb (is_tripped dec) then [t] else []).

(** How many of [l] are later than [c]. *)
Definition after (c : Z) (l : list Z) : nat := length (retain (λ x : Z, c <? x) l).

(** What the file knows of a bucket from [now] on: of the allowed calls that
    are recent when it is asked, at least as many readings. *)
Definition bucket_tracks (N now : Z) (ob : option Bucket) acc : Prop :=
  ∀ t, now ≤ t →
  match ob with
  | None => after (t - D) acc = 0%nat
  | Some b =>
      match tripped_until b with
      | None => (after (t - D) acc ≤ after (t - W) (events b))%nat ∧ Z.of_nat (length (events b)) ≤ N
      | Some until => until ≤ t → after (t - D) acc = 0%nat
      end
  end.

Definition history_inv (N : Z) key (now : Z) d acc : Prop :=
  bucket_tracks N now (state_in ∅ d !! key) acc
  ∧ Forall (λ x, x ≤ now) acc
  ∧ ∀ t, Z.of_nat (length (in_window D t acc)) ≤ N.

Lemma after_app c l l' : after c (l ++ l') = (after c l + after c l')%nat.
Proof. unfold after. by rewrite List.filter_app, length_app. Qed.

Lemma after_mono c c' l : c ≤ c' → (after c' l ≤ after c l)%nat.
Proof.
  intros Hc. unfold after. induction l as [|x l IH]; cbn; [done|].
  destruct (Z.ltb_spec c' x), (Z.ltb_spec c x); cbn; lia.
Qed.

Lemma after_old c l : Forall (λ x, x ≤ c) l → after c l = 0%nat.
Proof.
  intros Hf. unfold after. rewrite retain_none; [done|].
  eapply List.Forall_impl; [|exact Hf]. intros x Hx. by apply Z.ltb_ge.
Qed.

(** Dropping what is old at [r] costs nothing later. *)
Lemma after_retain c r l : r - W ≤ c → after c (retain (λ x, r - x <? W) l) = after c l.
Proof.
  intros Hc. rewrite recent_ltb. unfold after. induction l as [|x l IH]; cbn; [done|].
  destruct (Z.ltb_spec (r - W) x); cbn; [by destruct (c <? x); cbn; rewrite IH|].
  destruct (Z.ltb_spec c x); [lia|done].
Qed.

Lemma tracks_later N now now' ob acc : now ≤ now' → bucket_tracks N now ob acc → bucket_tracks N now' ob acc.
Proof. intros Hle Ht t Hnt. apply Ht. lia. Qed.

Lemma tracks_prune N r now key st acc :
  r ≤ now → bucket_tracks N now (st !! key) acc → bucket_tracks N now (prune r W st !! key) acc.
Proof.
  intros Hr Ht. rewrite prune_buckets_lookup. destruct (st !! key) as [b|]; [|done].
  destruct (keep_bucket r W b) eqn:Ek; [done|].
  apply keep_bucket_false in Ek as [He Hu]. intros t Hnt. specialize (Ht t Hnt). cbn in Ht.
  destruct (tripped_until b) as [until|]; [apply Ht; lia|]. destruct Ht as [Ht _].
  pose proof (after_mono (r - W) (t - W) (events b) ltac:(lia)) as Hm.
  unfold after at 2 in Hm. rewrite He in Hm. cbn in Hm. lia.
Qed.

(** A trip outlives what was allowed before it. *)
Lemma tracks_trip N r now evs acc :
  W ≤ C → 0 ≤ r → r + C < 2 ^ 63 → 0 ≤ C → now ≤ r + δ → Forall (λ x, x ≤ now) acc →
  bucket_tracks N now (Some {| events := evs; tripped_until := Some (i64_add r C) |}) acc.
Proof.
  intros HWC H0 Hmax HC Hr Hacc t Hnt. cbn. rewrite i64_add_small by lia. intros Hu.
  apply after_old. eapply List.Forall_impl; [|exact Hacc]. cbn. lia.
Qed.

(** The touched bucket as the judgement sees it, without a live trip. *)
Lemma tracks_judged N r now ob acc :
  0 ≤ N → r ≤ now → bucket_tracks N now ob acc →
  let b := default Bucket_default ob in
  (match tripped_until b with Some u => u ≤ r | None => True end) →
  let evs := match tripped_until b with Some _ => [] | None => events b end in
  (∀ t, now ≤ t → (after (t - D) acc ≤ after (t - W) evs)%nat) ∧ Z.of_nat (length evs) ≤ N.
Proof.
  intros HN Hr Ht b Hu evs. subst b evs. split; [intros t Hnt; specialize (Ht t Hnt)|specialize (Ht now ltac:(lia))];
    (destruct ob as [b|]; cbn in *; [destruct (tripped_until b) as [u|]|]).
  - rewrite Ht by lia. lia.
  - apply Ht.
  - by rewrite Ht.
  - cbn. lia.
  - apply Ht.
  - lia.
Qed.

Lemma tracks_allow N r now evs acc :
  r ≤ now ≤ r + δ → (∀ t, now ≤ t → (after (t - D) acc ≤ after (t - W) evs)%nat) →
  Z.of_nat (length (retain (λ x : Z, r - x <? W) evs)) < N →
  bucket_tracks N now
    (Some {| events := retain (λ x : Z, r - x <? W) evs ++ [r]; tripped_until := None |}) (acc ++ [now]).
Proof.
  intros Hr Ht Hlt t Hnt. cbn [tripped_until events]. rewrite length_app. cbn [length]. split; [|lia].
  rewrite !after_app, after_retain by lia. specialize (Ht t Hnt). unfold after in *. cbn.
  destruct (Z.ltb_spec (t - D) now), (Z.ltb_spec (t - W) r); cbn; lia.
Qed.

(** What the closure does to the file, in three cases. *)
Lemma locked_check_cases key limit t d :
  writable (St := State) →
  let ob := prune t W (state_in ∅ d) !! key in
  let b := default Bucket_default ob in
  let '(dec, d') := locked_check cfg no_faults key limit t d in
  (is_tripped dec = true ∧ d' = d ∧ ∃ u, tripped_until b = Some u ∧ t < u)
  ∨ ((match tripped_until b with Some u => u ≤ t | None => True end)
     ∧ let evs := retain (λ x : Z, t - x <? W)
                    (match tripped_until b with Some _ => [] | None => events b end) in
       (is_tripped dec = true ∧ limit ≤ as_u32 (Z.of_nat (length evs))
        ∧ state_in ∅ d' = <[key := {| events := evs; tripped_until := Some (i64_add t C) |}]>
                             (prune t W (state_in ∅ d)))
       ∨ (is_tripped dec = false ∧ as_u32 (Z.of_nat (length evs)) < limit
          ∧ state_in ∅ d' = <[key := {| events := evs ++ [t]; tripped_until := None |}]>
                               (prune t W (state_in ∅ d)))).
Proof.
  intros Hw ob b. unfold locked_check. fold (state_in (St := State) ∅ d). fold ob. fold b.
  set (st := prune t W (state_in ∅ d)).
  destruct (tripped_until b) as [u|] eqn:Eu.
  - destruct (t <? u) eqn:Et; reflect_bools; [left; eauto 6|].
    cbn [events Bucket_default tripped_until].
    destruct (limit <=? _) eqn:El; reflect_bools; right; (split; [done|]); [left|right];
      by rewrite try_save_ok.
  - destruct (limit <=? _) eqn:El; reflect_bools; right; (split; [done|]); [left|right];
      rewrite try_save_ok by done; by rewrite ?Eu.
Qed.

Lemma history_inv_call (N : Z) key now d acc r t path agent dec d' :
  writable (St := State) → 0 < W → W ≤ C → 0 ≤ N < 2 ^ 32 →
  history_inv N key now d acc → now ≤ t → r ≤ t ≤ r + δ → 0 ≤ r → r + C < 2 ^ 63 →
  check_and_record cfg no_faults path agent r d = (dec, d') →
  (bucket_key path agent = key → limit_for_kind cfg path ≤ N) →
  history_inv N key t d'
    (acc ++ if bool_decide (bucket_key path agent = key) && negb (is_tripped dec) then [t] else []).
Proof.
  intros Hw HW HWC HN (Htr & Hacc & Hcnt) Hle Hr H0 Hmax Hc Hlim.
  assert (Forall (λ x, x ≤ t) acc) as Hacc' by (eapply List.Forall_impl; [|exact Hacc]; simpl; lia).
  apply (tracks_later _ _ t) in Htr; [|done]. pose proof (tracks_prune N r t key _ acc ltac:(lia) Htr) as Hpr.
  unfold check_and_record, with_file_lock in Hc. simpl in Hc.
  set (key' := bucket_key path agent) in *. set (limit := limit_for_kind cfg path) in *.
  pose proof (locked_check_cases key' limit r d Hw) as Hcases.
  destruct (locked_check cfg no_faults key' limit r d) as [dec0 d0]. simpl in Hc. simplify_eq.
  destruct Hcases as [(-> & -> & _)|(Hu & [(-> & _ & Hst)|(-> & Hlt & Hst)])].
  - rewrite andb_false_r, app_nil_r. done.
  - rewrite andb_false_r, app_nil_r. split_and!; [|done|done]. rewrite Hst.
    destruct (decide (key' = key)) as [->|Hne].
    + rewrite lookup_insert_eq. apply tracks_trip; (done || lia).
    + rewrite lookup_insert_ne by done. done.
  - rewrite andb_true_r. destruct (decide (key' = key)) as [->|Hne].
    2: { rewrite bool_decide_eq_false_2 by done. rewrite app_nil_r. split_and!; [|done|done].
         by rewrite Hst, lookup_insert_ne. }
    rewrite bool_decide_eq_true_2 by done. specialize (Hlim eq_refl).
    destruct (tracks_judged N r t _ acc ltac:(lia) ltac:(lia) Hpr Hu) as [Hj Hlen].
    set (evs := match tripped_until _ with Some _ => _ | None => _ end) in *.
    pose proof (length_retain (λ x : Z, r - x <? W) evs) as Hle'.
    unfold as_u32 in Hlt. rewrite Z.mod_small in Hlt by lia. split_and!.
    + rewrite Hst, lookup_insert_eq. apply tracks_allow; [lia|done|lia].
    + apply Forall_app. split; [done|]. by repeat constructor.
    + apply (in_window_snoc _ _ t); [lia|lia|done|]. fold (after (t - D) acc).
      specialize (Hj t ltac:(lia)). pose proof (after_mono (r - W) (t - W) evs ltac:(lia)) as Hm.
      unfold after at 2 in Hm. rewrite <- recent_ltb in Hm. lia.
Qed.

Lemma history_inv_holds N key now d acc :
  writable (St := State) → 0 < W → W ≤ C → 0 ≤ N < 2 ^ 32 →
  history N key now d acc → history_inv N key now d acc.
Proof.
  intros Hw HW HWC HN Hh. induction Hh; [|by eapply history_inv_call].
  split_and!; [done|constructor|]. intros. simpl. lia.
Qed.

(** C40 The budget is a bound: across all processes and whatever other buckets
    do, if no call waits longer than [δ] for the lock after it read the clock,
    at most [N] dispatches of a bucket are let through in any stretch of
    [window_secs] less [δ], counted when each holds the lock, [N] being the
    largest limit the bucket is called with.  The files work, the clock does
    not go back and the cooldown is at least as long as the window (the
    default).  Without waiting the stretch is the whole window; a call that
    waits can get one dispatch too many through in a whole window, see
    [stale_reading_exceeds]. *)
Theorem dispatch_rate_bounded N key now d acc t :
  writable (St := State) → 0 < W → W ≤ C → 0 ≤ N < 2 ^ 32 →
  history N key now d acc →
  Z.of_nat (length (in_window (W - δ) t acc)) ≤ N.
Proof. intros Hw HW HWC HN Hh. by apply (history_inv_holds N key now d acc Hw HW HWC HN Hh). Qed.
End rate.

Section rate_failures.
Context `{!StateCodec State} (cfg : DispatchGuardConfig).
Implicit Types (key path agent : ustr) (d : file).
Local Abbreviation W := (window_ms cfg).

(** During a cooldown nothing gets through and nothing is forgotten: every
    call of the bucket is refused, says how many seconds are left, and leaves
    the file as it is. *)
Theorem cooldown_refuses path agent now d b until :
  state_in ∅ d !! bucket_key path agent = Some b → tripped_until b = Some until → now < until →
  ∃ why, check_and_record cfg no_faults path agent now d
         = (Trip why (Z.max ((until - now) ÷ 1000) 0), d).
Proof.
  intros Hb Hu Hlt. unfold check_and_record, with_file_lock, locked_check. simpl.
  fold (state_in (St := State) ∅ d). rewrite prune_buckets_lookup, Hb.
  unfold keep_bucket. rewrite Hu, (proj2 (Z.ltb_lt _ _)) by done. simpl. rewrite Hu.
  rewrite (proj2 (Z.ltb_lt _ _)) by done. simpl. eauto.
Qed.

(** What an operation leaves in the file. *)
Lemma guard_fails_open_aux F path agent now d :
  let d' := (check_and_record cfg F path agent now d).2 in
  d' = d ∨ ∃ b, state_in ∅ d' = <[bucket_key path agent := b]> (prune now W (load_state ∅ F d)).
Proof.
  unfold check_and_record, with_file_lock. destruct (lock_fails F); [by left|].
  unfold locked_check. set (st := prune _ _ _).
  assert (∀ b, state_in ∅ (try_save F (<[bucket_key path agent := b]> st) d)
               = <[bucket_key path agent := b]> st
               ∨ try_save F (<[bucket_key path agent := b]> st) d = d) as Hs
    by (intros; apply save_atomic).
  destruct (tripped_until _) as [u|]; [destruct (now <? u); [by left|]|];
    destruct (_ <=? as_u32 _); simpl;
    (match goal with |- context [try_save F (<[_ := ?b]> st) d] =>
       destruct (Hs b) as [E|E]; [right; by exists b|by left] end).
Qed.

(** A broken counter file never wedges a dispatch: if the lock cannot be
    taken the call is allowed and the file untouched; if the file cannot be
    read the bucket starts afresh; and whatever write fails, the file is
    either the old or the new state, never a mixture. *)
Theorem guard_fails_open F path agent now d :
  (lock_fails F = true → check_and_record cfg F path agent now d = (Allow, d))
  ∧ (lock_fails F = false → read_fails F = true → 0 < limit_for_kind cfg path →
     (check_and_record cfg F path agent now d).1 = Allow)
  ∧ (let d' := (check_and_record cfg F path agent now d).2 in
     d' = d ∨ ∃ b, state_in ∅ d' = <[bucket_key path agent := b]>
                     (prune now W (load_state ∅ F d))).
Proof.
  split_and!.
  - intros HF. unfold check_and_record, with_file_lock. by rewrite HF.
  - intros HF Hr Hl. unfold check_and_record, with_file_lock, locked_check, load_state. rewrite HF, Hr.
    assert (prune now W ∅ = ∅) as -> by (unfold prune; apply map_filter_empty).
    rewrite lookup_empty. simpl. unfold as_u32. rewrite Z.mod_0_l by done.
    by rewrite (proj2 (Z.leb_gt _ _)) by done.
  - apply guard_fails_open_aux.
Qed.

(** A call concerns its own bucket: the entry another bucket had is kept, or
    dropped when it no longer enforces anything (no live trip and no event in
    the window). *)
Theorem buckets_isolated F path agent now d key b :
  key ≠ bucket_key path agent → read_fails F = false → state_in ∅ d !! key = Some b →
  let d' := (check_and_record cfg F path agent now d).2 in
  state_in ∅ d' !! key = Some b
  ∨ (state_in ∅ d' !! key = None ∧ keep_bucket now W b = false).
Proof.
  intros Hne Hr Hb d'.
  destruct (guard_fails_open_aux F path agent now d) as [E|[b' E]]; fold d' in E.
  - left. by rewrite E.
  - rewrite E, lookup_insert_ne by done.
    assert (load_state ∅ F d = state_in ∅ d) as -> by (unfold state_in, load_state; by rewrite Hr).
    rewrite prune_buckets_lookup, Hb. destruct (keep_bucket now W b); auto.
Qed.
End rate_failures.

(** Bucket names cannot collide while path kinds contain no bar. *)
Lemma bucket_key_inj p1 a1 p2 a2 :
  (124%N ∉ p1) → (124%N ∉ p2) → bucket_key p1 a1 = bucket_key p2 a2 → p1 = p2 ∧ a1 = a2.
Proof.
  unfold bucket_key. change (u "|") with [124%N]. revert p2.
  induction p1 as [|c p1 IH]; intros [|c2 p2] H1 H2 E; simpl in E; simplify_eq; auto.
  - destruct H2. by constructor.
  - destruct H1. by constructor.
  - destruct (IH p2) as [-> ->]; [| |done|done]; [intros ?; apply H1|intros ?; apply H2]; by constructor.
Qed.

(** ** Concrete files *)

#[export] Instance Bucket_countable : Countable Bucket.
Proof.
  refine (inj_countable' (λ b, (events b, tripped_until b))
    (λ p, {| events := p.1; tripped_until := p.2 |}) _).
  by intros [].
Defined.

#[local] Instance demo_codec : StateCodec State := countable_codec State.

Lemma bucket_codec_writable : writable (St := State).
Proof. intros s. apply countable_codec_writable. Qed.

Definition tight : DispatchGuardConfig := {|
  window_secs := 60; max_in_window := 1; role_team_max_in_window := 60;
  cooldown_secs := 60; max_hop_depth := 5 |}.

(** Calls of one bucket at given times, all files working. *)
Fixpoint calls (cfg : DispatchGuardConfig) (ts : list Z) (d : file) : list bool * file :=
  match ts with
  | [] => ([], d)
  | t :: r =>
      let '(dec, d1) := check_and_record cfg no_faults (u "bus") (u "a") t d in
      let '(ds, d2) := calls cfg r d1 in
      (negb (is_tripped dec) :: ds, d2)
  end.

Definition bus_a : ustr := bucket_key (u "bus") (u "a").
Definition after_first : file := (calls tight [1000] None).2.
Definition after_second : file := (calls tight [1000; 2000] None).2.

(** A call reads 0 and waits a second for the lock, which a call that read
    1000 gets first: the first call then finds the budget used up and trips
    the breaker until 60000. *)
Definition after_waiting : file :=
  (check_and_record tight no_faults (u "bus") (u "a") 0 after_first).2.

Lemma dispatch_rate_bounded_witness :
  Z.of_nat (length (in_window (window_ms tight - 1000) 1500 [1000])) ≤ 1
  ∧ state_in ∅ after_waiting !! bus_a = Some {| events := [1000]; tripped_until := Some 60000 |}.
Proof.
  split; [|vm_compute; reflexivity].
  apply (dispatch_rate_bounded tight 1000 1 bus_a 1000 after_waiting [1000] 1500);
    [apply bucket_codec_writable|by_eval|by_eval|split; by_eval|].
  refine (history_call tight 1000 1 bus_a 1000 after_first [1000] 0 1000 (u "bus") (u "a") _ after_waiting
    _ _ _ _ _ (surjective_pairing _) _); [|lia|lia|lia|by_eval|by intros _].
  apply (history_call tight 1000 1 bus_a 0 None [] 1000 1000 (u "bus") (u "a") Allow after_first);
    [constructor|lia|lia|lia|by_eval|by_eval|by intros _].
Defined.

(** The clock is read before the lock is held, so two dispatches of a bucket
    with a budget of one per 60 s can be 59 s apart: one call reads 0 and waits,
    one reads 1000 and is let through, the first then trips the breaker until
    60000, counted from its old reading, and the trip forgets the window, so
    the call at 60000 is let through. *)
Theorem stale_reading_exceeds :
  map negb (map is_tripped
    [(check_and_record tight no_faults (u "bus") (u "a") 1000 None).1;
     (check_and_record tight no_faults (u "bus") (u "a") 0 after_first).1;
     (check_and_record tight no_faults (u "bus") (u "a") 60000 after_waiting).1]) = [true; false; true].
Proof. vm_compute. reflexivity. Qed.

Definition tripped_bucket : Bucket := default Bucket_default (state_in ∅ after_second !! bus_a).

Lemma cooldown_refuses_witness :
  ∃ why, check_and_record tight no_faults (u "bus") (u "a") 3000 after_second
         = (Trip why (Z.max ((62000 - 3000) ÷ 1000) 0), after_second).
Proof.
  apply (cooldown_refuses tight (u "bus") (u "a") 3000 after_second tripped_bucket 62000); by_eval.
Defined.

Definition lock_fault : faults :=
  {| lock_fails := true; read_fails := false; write_fails := false; rename_fails := false |}.

Lemma guard_fails_open_witness :
  check_and_record tight lock_fault (u "bus") (u "a") 3000 after_second = (Allow, after_second).
Proof.
  exact (proj1 (guard_fails_open tight lock_fault (u "bus") (u "a") 3000 after_second) eq_refl).
Defined.

Lemma buckets_isolated_witness :
  let d' := (check_and_record tight no_faults (u "bus") (u "b") 3000 after_second).2 in
  state_in ∅ d' !! bus_a = Some tripped_bucket
  ∨ (state_in ∅ d' !! bus_a = None ∧ keep_bucket 3000 (window_ms tight) tripped_bucket = false).
Proof.
  apply (buckets_isolated tight no_faults (u "bus") (u "b") 3000 after_second bus_a tripped_bucket);
    by_eval.
Defined.

(** The breaker trips on dispatch number [limit + 1], not [limit]: with a
    limit of 2, two dispatches in a window are allowed and the third trips. *)
Theorem trips_after_the_limit :
  let cfg := {| window_secs := 60; max_in_window := 2; role_team_max_in_window := 60;
                cooldown_secs := 60; max_hop_depth := 5 |} in
  (calls cfg [1000; 2000; 3000] None).1 = [true; true; false].
Proof. vm_compute. reflexivity. Qed.

(** A cooldown shorter than the window breaks the budget: the bucket forgets
    its window when the cooldown ends, so with a budget of one dispatch per
    60 s and a cooldown of 1 s, five calls in two seconds get three dispatches
    through. *)
Theorem short_cooldown_exceeds :
  let cfg := {| window_secs := 60; max_in_window := 1; role_team_max_in_window := 60;
                cooldown_secs := 1; max_hop_depth := 5 |} in
  (calls cfg [0; 1; 1001; 1002; 2002] None).1 = [true; false; true; false; true].
Proof. vm_compute. reflexivity. Qed.

(** A window too large for the milliseconds disables the guard: at
    [2^63 / 1000] seconds and more the window becomes negative, no event is
    ever recent, and every dispatch is allowed. *)
Theorem huge_window_disables (cfg : DispatchGuardConfig) (F : faults) (path agent : ustr)
    (now : Z) (d : file) (b : Bucket) :
  9223372036854776 ≤ window_secs cfg ≤ u64_max →
  0 < limit_for_kind cfg path →
  state_in ∅ d = {[ bucket_key path agent := b ]} → tripped_until b = None →
  Forall (λ t, t ≤ now) (events b) → read_fails F = false →
  (check_and_record cfg F path agent now d).1 = Allow.
Proof.
  intros Hw Hl Hd Hb Hev Hr.
  assert (window_ms cfg < 0) as HW.
  { unfold window_ms, to_ms, u64_saturating_mul, as_i64. unfold u64_max in *.
    destruct (Z.min_spec (2 ^ 64 - 1) (window_secs cfg * 1000)) as [[_ ->]|[? ->]].
    - by_eval.
    - rewrite Z.mod_small by lia. destruct (_ <? _) eqn:E; reflect_bools; lia. }
  unfold check_and_record, with_file_lock. destruct (lock_fails F); [done|]. unfold locked_check.
  assert (load_state ∅ F d = {[ bucket_key path agent := b ]}) as ->
    by (rewrite <- Hd; unfold state_in, load_state; by rewrite Hr).
  rewrite prune_buckets_lookup, lookup_singleton_eq.
  assert (existsb (λ t, now - t <? window_ms cfg) (events b) = false) as He.
  { apply not_true_iff_false. rewrite existsb_exists. intros (t & Ht & E). reflect_bools.
    rewrite List.Forall_forall in Hev. specialize (Hev t Ht). simpl in Hev. lia. }
  unfold keep_bucket. rewrite Hb, He. simpl. unfold as_u32. rewrite Z.mod_0_l by done.
  by rewrite (proj2 (Z.leb_gt _ _)) by done.
Qed.

Lemma huge_window_disables_witness :
  (check_and_record {| window_secs := 9223372036854776; max_in_window := 1; role_team_max_in_window := 1;
                       cooldown_secs := 60; max_hop_depth := 5 |}
     no_faults (u "bus") (u "a") 1001 after_first).1 = Allow.
Proof.
  apply (huge_window_disables {| window_secs := 9223372036854776; max_in_window := 1;
      role_team_max_in_window := 1; cooldown_secs := 60; max_hop_depth := 5 |}
    no_faults (u "bus") (u "a") 1001 after_first {| events := [1000]; tripped_until := None |});
    [split; by_eval|by_eval|vm_compute; reflexivity|done| |done].
  repeat constructor. by_eval.
Defined.
