(* ===== verification/ConcurrencyGate.v ===== *)
(** * The in-flight concurrency gate (crates/duduclaw-core/src/concurrency_gate.rs)

    Leases with a time to live in concurrency_leases.json.  The plain
    operations fail open, the checked ones propagate every failure.  [uuid] is
    the fresh identifier an admission draws; times are epoch milliseconds. *)

From stdpp Require Import countable.
From S2P Require Import Prelude StateFile.

(** ** Configuration *)

Record ConcurrencyGateConfig := {
  personal_max_concurrent : Z;
  concurrency_lease_ttl_secs : Z;
}.

Definition ConcurrencyGateConfig_default : ConcurrencyGateConfig :=
  {| personal_max_concurrent := 2; concurrency_lease_ttl_secs := 1800 |}.

(** [from_config_only], as [DispatchGuardConfig::from_home]. *)
Definition from_config_only (section_of : ustr → option (option ConcurrencyGateConfig))
    (content : option ustr) : ConcurrencyGateConfig :=
  match content with
  | None => ConcurrencyGateConfig_default
  | Some text =>
      match section_of text with
      | None => ConcurrencyGateConfig_default
      | Some section => default ConcurrencyGateConfig_default section
      end
  end.

(** [str::parse::<u32>]: an optional plus sign and decimal digits. *)
Definition digit (c : N) : option Z :=
  if ((48 <=? c) && (c <=? 57))%N then Some (Z.of_N c - 48) else None.

Fixpoint parse_digits (acc : Z) (s : ustr) : option Z :=
  match s with
  | [] => Some acc
  | c :: r => d ← digit c; parse_digits (acc * 10 + d) r
  end.

Definition parse_u32 (s : ustr) : option Z :=
  let body := match s with 43%N :: r => r | _ => s end in
  if is_empty body then None
  else
    v ← parse_digits 0 body;
    if v <=? u32_max then Some v else None.

(** [from_home]: the environment variable overrides the file. *)
Definition from_home (section_of : ustr → option (option ConcurrencyGateConfig))
    (content : option ustr) (env : option ustr) : ConcurrencyGateConfig :=
  let cfg := from_config_only section_of content in
  match env ≫= (λ v, parse_u32 (trim v)) with
  | Some v =>
      {| personal_max_concurrent := v;
         concurrency_lease_ttl_secs := concurrency_lease_ttl_secs cfg |}
  | None => cfg
  end.

Inductive EditionProfile := Personal | Enterprise.

Definition is_personal (e : EditionProfile) : bool :=
  match e with Personal => true | Enterprise => false end.

Definition effective_limit (edition : EditionProfile) (cfg : ConcurrencyGateConfig) : option Z :=
  if is_personal edition then
    if 0 <? personal_max_concurrent cfg then Some (personal_max_concurrent cfg) else None
  else None.

(** ** Leases *)

Record Lease := { lease_id : option ustr; lease_class : ustr }.

Definition unguarded (class : ustr) : Lease := {| lease_id := None; lease_class := class |}.
Definition is_guarded (l : Lease) : bool := match lease_id l with Some _ => true | None => false end.

Inductive AcquireOutcome :=
| AdmittedLease (l : Lease)
| AtCapacity (active limit : Z).

Definition is_at_capacity (o : AcquireOutcome) : bool :=
  match o with AtCapacity _ _ => true | AdmittedLease _ => false end.

Record LeaseRec := { rec_class : ustr; expires_ms : Z }.
#[export] Instance LeaseRec_eq_dec : EqDecision LeaseRec.
Proof. solve_decision. Defined.
#[export] Instance LeaseRec_countable : Countable LeaseRec.
Proof.
  refine (inj_countable' (λ r, (rec_class r, expires_ms r))
    (λ p, {| rec_class := p.1; expires_ms := p.2 |}) _).
  by intros [].
Defined.

Abbreviation State := (gmap ustr LeaseRec).

Definition prune_expired (now_ms : Z) (state : State) : State :=
  base.filter (λ p : ustr * LeaseRec, (now_ms <? expires_ms p.2) = true) state.

Definition live_in (class : ustr) (now_ms : Z) (r : LeaseRec) : bool :=
  ustr_eqb (rec_class r) class && (now_ms <? expires_ms r).

Definition count_class (state : State) (class : ustr) (now_ms : Z) : Z :=
  as_u32 (Z.of_nat (length (retain (live_in class now_ms) (map snd (map_to_list state))))).

Definition to_ms (s : Z) : Z := as_i64 (u64_saturating_mul s 1000).
Definition i64_add (a b : Z) : Z := as_i64 (a + b).

(** What the checked operations report. *)
Inductive io_error := LockError | ReadError | InvalidInput (m : ustr) | InvalidData | SaveError.

(** [i64::try_from(ttl.checked_mul(1000)?)]: the product must be a u64 and an
    i64. *)
Definition checked_ttl_ms (ttl_secs : Z) : result Z io_error :=
  if (ttl_secs * 1000 <=? u64_max) && (ttl_secs * 1000 <=? i64_max) then Ok (ttl_secs * 1000)
  else Err (InvalidInput (u "lease TTL overflow")).

Section gate.
Context `{!StateCodec State}.
Implicit Types (F : faults) (class uuid : ustr) (d : file) (l : Lease).

(** ** The plain operations

    [now_ms] is read before the lock is asked for, so by the time the
    operation holds it the clock may show more. *)

Definition try_acquire F class (limit : option Z) (ttl_secs now_ms : Z) uuid d
    : AcquireOutcome * file :=
  match limit with
  | None => (AdmittedLease (unguarded class), d)
  | Some cap =>
      if cap =? 0 then (AdmittedLease (unguarded class), d)
      else
        let ttl_ms := to_ms ttl_secs in
        let '(r, d') :=
          with_file_lock F
            (λ d,
              let state := prune_expired now_ms (load_state ∅ F d) in
              let active := count_class state class now_ms in
              if cap <=? active then (AtCapacity active cap, d)
              else
                let id := class ++ u "-" ++ uuid in
                let rec := {| rec_class := class; expires_ms := i64_add now_ms ttl_ms |} in
                (AdmittedLease {| lease_id := Some id; lease_class := class |},
                 try_save F (<[id := rec]> state) d)) d in
        (default (AdmittedLease (unguarded class)) r, d')
  end.

Definition release F l (now_ms : Z) d : file :=
  match lease_id l with
  | None => d
  | Some id =>
      (with_file_lock F
        (λ d, (tt, try_save F (delete id (prune_expired now_ms (load_state ∅ F d))) d)) d).2
  end.

Definition release_class F class (now_ms : Z) d : Z * file :=
  let '(r, d') :=
    with_file_lock F
      (λ d,
        let state := prune_expired now_ms (load_state ∅ F d) in
        let kept := base.filter (λ p : ustr * LeaseRec, rec_class p.2 ≠ class) state in
        let dropped := Z.of_nat (size state) - Z.of_nat (size kept) in
        (dropped, if 0 <? dropped then try_save F kept d else d)) d in
  (default 0 r, d').

Definition renew F l (ttl_secs now_ms : Z) d : file :=
  match lease_id l with
  | None => d
  | Some id =>
      let rec := {| rec_class := lease_class l; expires_ms := i64_add now_ms (to_ms ttl_secs) |} in
      (with_file_lock F
        (λ d, (tt, try_save F (<[id := rec]> (prune_expired now_ms (load_state ∅ F d))) d)) d).2
  end.

Definition active_count F class (now_ms : Z) d : Z * file :=
  let '(r, d') :=
    with_file_lock F
      (λ d,
        let state := prune_expired now_ms (load_state ∅ F d) in
        (count_class state class now_ms, try_save F state d)) d in
  (default 0 r, d').

(** ** The checked operations

    [now_ms] is read while the lock is held. *)

(** [checked_state_lock] gives up after half a second of contention. *)
Definition checked_lock {A : Type} F (f : file → result A io_error * file) d : result A io_error * file :=
  if lock_fails F then (Err LockError, d) else f d.

(** Reads and parses the file; [missing] answers for an absent one. *)
Definition checked_read {A : Type} F d (missing : result A io_error * file)
    (k : State → result A io_error * file) : result A io_error * file :=
  if read_fails F then (Err ReadError, d)
  else
    match d with
    | None => missing
    | Some bytes =>
        match from_slice bytes with
        | None => (Err InvalidData, d)
        | Some state => k state
        end
    end.

(** [save_state(..)?]. *)
Definition checked_save {A : Type} F (state : State) d (a : A) : result A io_error * file :=
  let '(ok, d') := save_state F state d in
  if ok : bool then (Ok a, d') else (Err SaveError, d').

Definition renew_checked F l (ttl_secs now_ms : Z) d : result bool io_error * file :=
  match lease_id l with
  | None => (Ok false, d)
  | Some id =>
      match checked_ttl_ms ttl_secs with
      | Err e => (Err e, d)
      | Ok ttl_ms =>
          if ttl_ms =? 0 then (Ok false, d)
          else
            checked_lock F
              (λ d,
                checked_read F d (Ok false, d) (λ state,
                  match state !! id with
                  | None => (Ok false, d)
                  | Some rec =>
                      if negb (ustr_eqb (rec_class rec) (lease_class l)) || (expires_ms rec <=? now_ms)
                      then (Ok false, d)
                      else if now_ms + ttl_ms <=? i64_max then
                        checked_save F
                          (<[id := {| rec_class := rec_class rec; expires_ms := now_ms + ttl_ms |}]> state)
                          d true
                      else (Err (InvalidInput (u "lease expiry overflow")), d)
                  end)) d
      end
  end.

(** [c.is_ascii_alphanumeric() || matches!(c, b'-' | b'_')]. *)
Definition class_byte (c : N) : bool :=
  (((48 <=? c) && (c <=? 57)) || ((65 <=? c) && (c <=? 90)) || ((97 <=? c) && (c <=? 122))
   || (c =? 45) || (c =? 95))%N.

Definition valid_class class : bool :=
  let bytes := utf8_encode class in
  negb (is_empty bytes) && negb (128 <? Z.of_nat (length bytes)) && forallb class_byte bytes.

Definition try_acquire_checked F class (limit : option Z) (ttl_secs now_ms : Z) uuid d
    : result AcquireOutcome io_error * file :=
  match limit with
  | None => (Err (InvalidInput (u "checked admission requires a positive finite cap")), d)
  | Some cap =>
      if negb (0 <? cap) then
        (Err (InvalidInput (u "checked admission requires a positive finite cap")), d)
      else if negb (valid_class class) then
        (Err (InvalidInput (u "invalid checked admission class")), d)
      else
        match checked_ttl_ms ttl_secs with
        | Err e => (Err e, d)
        | Ok ttl_ms =>
            if ttl_ms =? 0 then
              (Err (InvalidInput (u "checked admission requires a positive TTL")), d)
            else
              checked_lock F
                (λ d,
                  let k state :=
                    let active := count_class state class now_ms in
                    if cap <=? active then (Ok (AtCapacity active cap), d)
                    else if now_ms + ttl_ms <=? i64_max then
                      let id := class ++ u "-" ++ uuid in
                      let rec := {| rec_class := class; expires_ms := now_ms + ttl_ms |} in
                      checked_save F (<[id := rec]> (prune_expired now_ms state)) d
                        (AdmittedLease {| lease_id := Some id; lease_class := class |})
                    else (Err (InvalidInput (u "lease expiry overflow")), d) in
                  checked_read F d (k ∅) k) d
        end
  end.

Definition release_checked F l d : result bool io_error * file :=
  match lease_id l with
  | None => (Ok false, d)
  | Some id =>
      checked_lock F
        (λ d,
          checked_read F d (Ok false, d) (λ state,
            if match state !! id with
               | Some rec => ustr_eqb (rec_class rec) (lease_class l)
               | None => false
               end
            then checked_save F (delete id state) d true
            else (Ok false, d))) d
  end.
End gate.

(** ** Counting *)

Definition live_ids (st : State) (class : ustr) (now : Z) : gset ustr :=
  dom (base.filter (λ p : ustr * LeaseRec, live_in class now p.2 = true) st).

Lemma elem_of_live_ids st class now k :
  k ∈ live_ids st class now ↔ ∃ r, st !! k = Some r ∧ live_in class now r = true.
Proof.
  unfold live_ids. rewrite elem_of_dom. split.
  - intros [r Hr]. apply map_lookup_filter_Some in Hr as [? ?]. eauto.
  - intros (r & Hr & Hl). exists r. by apply map_lookup_filter_Some.
Qed.

Lemma retain_filter {A} (f : A → bool) (l : list A) : retain f l = base.filter (λ x, f x = true) l.
Proof.
  induction l as [|x l IH]; [done|]. rewrite filter_cons. simpl. rewrite IH.
  destruct (f x) eqn:E; [by rewrite decide_True|by rewrite decide_False].
Qed.

Lemma retain_map {A B} (f : B → bool) (g : A → B) (l : list A) :
  length (retain f (map g l)) = length (retain (λ x, f (g x)) l).
Proof. induction l as [|x l IH]; simpl; [done|]. destruct (f (g x)); simpl; lia. Qed.

(** [count_class] counts the live leases of the class, modulo 2^32. *)
Lemma count_class_size st class now :
  count_class st class now = as_u32 (Z.of_nat (size (live_ids st class now))).
Proof.
  unfold count_class, live_ids. f_equal. f_equal.
  rewrite retain_map, retain_filter, size_dom, <- length_map_to_list.
  rewrite map_filter_alt. symmetry. apply Permutation_length, map_to_list_to_map.
  apply NoDup_fmap_fst.
  - intros k r1 r2 [_ H1]%list_elem_of_filter [_ H2]%list_elem_of_filter.
    apply elem_of_map_to_list in H1, H2. congruence.
  - apply list.NoDup_filter, NoDup_map_to_list.
Qed.

Section counting.
Implicit Types (st : State) (class k : ustr).

Lemma live_ids_mono st st' class now now' :
  st' ⊆ st → now ≤ now' → live_ids st' class now' ⊆ live_ids st class now.
Proof.
  intros Hsub Hle k. rewrite !elem_of_live_ids. intros (r & Hr & Hl). exists r.
  split; [by eapply lookup_weaken|]. unfold live_in in *. apply andb_true_iff in Hl as [-> Hn].
  simpl. reflect_bools. apply Z.ltb_lt. lia.
Qed.

Lemma live_ids_size_mono st st' class now now' :
  st' ⊆ st → now ≤ now' →
  Z.of_nat (size (live_ids st' class now')) ≤ Z.of_nat (size (live_ids st class now)).
Proof. intros. apply inj_le, subseteq_size, live_ids_mono; done. Qed.

Lemma prune_subseteq now st : prune_expired now st ⊆ st.
Proof. apply map_filter_subseteq. Qed.

Lemma live_ids_prune now st class : live_ids (prune_expired now st) class now = live_ids st class now.
Proof.
  apply set_eq. intros k. rewrite !elem_of_live_ids. unfold prune_expired.
  setoid_rewrite map_lookup_filter_Some. split; [naive_solver|].
  intros (r & Hr & Hl). exists r. split_and!; [done| |done]. simpl.
  unfold live_in in Hl. by apply andb_true_iff in Hl as [_ ?].
Qed.

(** A new record adds at most one live lease; a record that replaces one of
    the class that was live adds none. *)
Lemma live_ids_insert st class now k r :
  live_ids (<[k := r]> st) class now ⊆ {[ k ]} ∪ live_ids st class now.
Proof.
  intros x. rewrite elem_of_union, elem_of_singleton, !elem_of_live_ids.
  intros (r' & Hr & Hl). destruct (decide (x = k)) as [->|Hne]; [by left|]. right.
  rewrite lookup_insert_ne in Hr by done. eauto.
Qed.

Lemma live_ids_insert_size st class now k r :
  Z.of_nat (size (live_ids (<[k := r]> st) class now)) ≤ Z.of_nat (size (live_ids st class now)) + 1.
Proof.
  pose proof (subseteq_size _ _ (live_ids_insert st class now k r)) as Hs.
  pose proof (size_union_alt {[ k ]} (live_ids st class now)) as Hu.
  pose proof (subseteq_size (live_ids st class now ∖ {[ k ]}) (live_ids st class now)
    (subseteq_difference_l _ _ _ (reflexivity _))) as Hd.
  rewrite size_singleton in Hu. lia.
Qed.

Lemma live_ids_insert_other st class now k r :
  live_in class now r = false → live_ids (<[k := r]> st) class now ⊆ live_ids st class now.
Proof.
  intros Hr x. rewrite !elem_of_live_ids. intros (r' & Hx & Hl).
  destruct (decide (x = k)) as [->|Hne].
  - rewrite lookup_insert_eq in Hx. congruence.
  - rewrite lookup_insert_ne in Hx by done. eauto.
Qed.

Lemma live_ids_update st class now k r r0 :
  st !! k = Some r0 → rec_class r = rec_class r0 → now < expires_ms r0 →
  live_ids (<[k := r]> st) class now ⊆ live_ids st class now.
Proof.
  intros H0 Hc Hn x. rewrite !elem_of_live_ids. intros (r' & Hx & Hl).
  destruct (decide (x = k)) as [->|Hne].
  - rewrite lookup_insert_eq in Hx. simplify_eq. exists r0. split; [done|].
    unfold live_in in *. rewrite <- Hc. apply andb_true_iff in Hl as [-> _]. simpl. by apply Z.ltb_lt.
  - rewrite lookup_insert_ne in Hx by done. eauto.
Qed.
End counting.

(** ** The cap *)

Section cap.
Context `{!StateCodec State}.
Implicit Types (F : faults) (class uuid : ustr) (d : file) (l : Lease).

Lemma load_subseteq F d : load_state ∅ F d ⊆ state_in (∅ : State) d.
Proof.
  unfold load_state, state_in. destruct (read_fails F); [apply map_empty_subseteq|done].
Qed.

(** After [try_save], the file holds the new state or what it held. *)
Definition slots (class : ustr) (now : Z) d : Z :=
  Z.of_nat (size (live_ids (state_in ∅ d) class now)).

Lemma slots_try_save class now F st d :
  slots class now (try_save F st d) = Z.of_nat (size (live_ids st class now))
  ∨ slots class now (try_save F st d) = slots class now d.
Proof. unfold slots. destruct (save_atomic ∅ F st d) as [->| ->]; auto. Qed.

Lemma slots_checked_save {A : Type} class now F st d (a : A) :
  slots class now (checked_save F st d a).2 = Z.of_nat (size (live_ids st class now))
  ∨ slots class now (checked_save F st d a).2 = slots class now d.
Proof.
  unfold checked_save. pose proof (slots_try_save class now F st d) as Hs. unfold try_save in Hs.
  by destruct (save_state F st d) as [[] d'].
Qed.

Lemma slots_later class now now' d : now ≤ now' → slots class now' d ≤ slots class now d.
Proof. intros. by apply live_ids_size_mono. Qed.

(** The file's records can be counted in 32 bits. *)
Definition countable_records d : Prop := Z.of_nat (size (state_in (∅ : State) d)) < 2 ^ 32.

Lemma live_ids_records st class now : (size (live_ids st class now) ≤ size st)%nat.
Proof. unfold live_ids. rewrite <- (size_dom st). apply subseteq_size, dom_filter_subseteq. Qed.

(** The times are [r] at the reading and [now] under the lock. *)
Lemma acquire_slots N class r now F c limit ttl uuid d :
  r ≤ now → countable_records d → slots class now d ≤ N →
  (c = class → match limit with Some cap => cap ≤ N | None => True end) →
  slots class now (try_acquire F c limit ttl r uuid d).2 ≤ N.
Proof.
  intros Hr HN Hd Hlim. unfold try_acquire. destruct limit as [cap|]; [|done].
  destruct (cap =? 0); [done|]. unfold with_file_lock. destruct (lock_fails F); [done|].
  set (st := prune_expired r (load_state ∅ F d)).
  assert (st ⊆ state_in ∅ d) as Hsub
    by (transitivity (load_state (∅ : State) F d); [apply prune_subseteq|apply load_subseteq]).
  pose proof (live_ids_size_mono _ _ class now now Hsub ltac:(lia)) as Hst. fold (slots class now d) in Hst.
  destruct (cap <=? count_class st c r) eqn:E; [done|]. simpl.
  set (rec := {| rec_class := c; expires_ms := _ |}). set (id := c ++ _).
  destruct (slots_try_save class now F (<[id := rec]> st) d) as [->| ->]; [|done].
  destruct (decide (c = class)) as [->|Hne].
  - specialize (Hlim eq_refl). reflect_bools. rewrite count_class_size in E. unfold as_u32 in E.
    pose proof (live_ids_records st class r). pose proof (map_subseteq_size _ _ Hsub). unfold countable_records in HN.
    rewrite Z.mod_small in E by lia.
    pose proof (live_ids_size_mono st st class r now (reflexivity _) Hr).
    pose proof (live_ids_insert_size st class now id rec). lia.
  - pose proof (subseteq_size _ _ (live_ids_insert_other st class now id rec
      (andb_false_intro1 _ _ (bool_decide_eq_false_2 _ Hne)))). lia.
Qed.

Lemma smaller_slots class now F st d N :
  slots class now d ≤ N → st ⊆ state_in ∅ d → slots class now (try_save F st d) ≤ N.
Proof.
  intros Hd Hsub. destruct (slots_try_save class now F st d) as [->| ->]; [|done].
  pose proof (live_ids_size_mono _ _ class now now Hsub ltac:(lia)). unfold slots in Hd. lia.
Qed.

Lemma pruned_subseteq F now d : prune_expired now (load_state ∅ F d) ⊆ state_in ∅ d.
Proof. transitivity (load_state (∅ : State) F d); [apply prune_subseteq|apply load_subseteq]. Qed.

(** The operations of the gate other than the unchecked [renew]. *)
Inductive op :=
| OAcquire (c : ustr) (limit : option Z) (ttl : Z) (uuid : ustr)
| ORelease (l : Lease)
| OReleaseClass (c : ustr)
| OCount (c : ustr)
| ORenewChecked (l : Lease) (ttl : Z)
| OAcquireChecked (c : ustr) (limit : option Z) (ttl : Z) (uuid : ustr)
| OReleaseChecked (l : Lease).

(** The clock shows [r] when the operation begins and [t] when it holds the
    lock: the plain operations go by [r], the checked ones by [t]. *)
Definition run_op F (r t : Z) (o : op) d : file :=
  match o with
  | OAcquire c limit ttl uuid => (try_acquire F c limit ttl r uuid d).2
  | ORelease l => release F l r d
  | OReleaseClass c => (release_class F c r d).2
  | OCount c => (active_count F c r d).2
  | ORenewChecked l ttl => (renew_checked F l ttl t d).2
  | OAcquireChecked c limit ttl uuid => (try_acquire_checked F c limit ttl t uuid d).2
  | OReleaseChecked l => (release_checked F l d).2
  end.

(** The limit a class is acquired under. *)
Definition within (N : Z) class (o : op) : Prop :=
  match o with
  | OAcquire c limit _ _ | OAcquireChecked c limit _ _ =>
      c = class → match limit with Some cap => cap ≤ N | None => True end
  | _ => True
  end.

Lemma acquire_checked_slots N class now F c limit ttl uuid d :
  0 ≤ N < 2 ^ 32 → slots class now d ≤ N →
  (c = class → match limit with Some cap => cap ≤ N | None => True end) →
  slots class now (try_acquire_checked F c limit ttl now uuid d).2 ≤ N.
Proof.
  intros HN Hd Hlim. unfold try_acquire_checked. destruct limit as [cap|]; [|done].
  destruct (negb (0 <? cap)); [done|]. destruct (negb (valid_class c)); [done|].
  destruct (checked_ttl_ms ttl) as [ttl_ms|e]; [|done]. destruct (ttl_ms =? 0); [done|].
  unfold checked_lock. destruct (lock_fails F); [done|]. cbv zeta.
  set (k := λ state : State, if cap <=? count_class state c now then _ else _).
  assert (∀ st, st ⊆ state_in ∅ d → slots class now (k st).2 ≤ N) as Hk.
  { intros st Hsub. unfold k. destruct (cap <=? _) eqn:E; [done|]. destruct (_ <=? i64_max); [|done].
    set (rec := {| rec_class := c; expires_ms := _ |}). set (id := c ++ _).
    destruct (slots_checked_save class now F (<[id := rec]> (prune_expired now st)) d
      (AdmittedLease {| lease_id := Some id; lease_class := c |})) as [->| ->]; [|done].
    pose proof (live_ids_size_mono _ _ class now now Hsub ltac:(lia)) as Hst.
    fold (slots class now d) in Hst. rewrite <- (live_ids_prune now st class) in Hst.
    destruct (decide (c = class)) as [->|Hne].
    - specialize (Hlim eq_refl). reflect_bools. rewrite count_class_size, <- live_ids_prune in E.
      unfold as_u32 in E. rewrite Z.mod_small in E by lia.
      pose proof (live_ids_insert_size (prune_expired now st) class now id rec). lia.
    - pose proof (subseteq_size _ _ (live_ids_insert_other (prune_expired now st) class now id rec
        (andb_false_intro1 _ _ (bool_decide_eq_false_2 _ Hne)))). lia. }
  unfold checked_read. destruct (read_fails F); [done|]. destruct d as [bytes|].
  - destruct (from_slice bytes) as [st|] eqn:E; [|done]. apply Hk. unfold state_in, load_state. simpl.
    by rewrite E.
  - apply Hk, map_empty_subseteq.
Qed.

Lemma checked_read_slots {A : Type} class now F d (missing : result A io_error * file) k N :
  slots class now d ≤ N → slots class now missing.2 ≤ N →
  (∀ st, state_in ∅ d = st → slots class now (k st).2 ≤ N) →
  slots class now (checked_read F d missing k).2 ≤ N.
Proof.
  intros Hd Hm Hk. unfold checked_read. destruct (read_fails F); [done|].
  destruct d as [bytes|]; [|done]. destruct (from_slice bytes) as [st|] eqn:E; [|done].
  apply Hk. unfold state_in, load_state. simpl. by rewrite E.
Qed.

Lemma renew_checked_slots N class now F l ttl d :
  slots class now d ≤ N → slots class now (renew_checked F l ttl now d).2 ≤ N.
Proof.
  intros Hd. unfold renew_checked. destruct (lease_id l) as [id|]; [|done].
  destruct (checked_ttl_ms ttl) as [ttl_ms|e]; [|done]. destruct (ttl_ms =? 0); [done|].
  unfold checked_lock. destruct (lock_fails F); [done|].
  apply checked_read_slots; [done|done|]. intros st Hst.
  destruct (st !! id) as [rec|] eqn:Er; [|done].
  destruct (negb _ || _) eqn:Eb; [done|]. destruct (_ <=? i64_max); [|done].
  apply orb_false_iff in Eb as [_ Hexp]. reflect_bools.
  set (rec' := {| rec_class := _; expires_ms := _ |}).
  destruct (slots_checked_save class now F (<[id := rec']> st) d true) as [->| ->]; [|done].
  pose proof (subseteq_size _ _ (live_ids_update st class now id rec' rec Er eq_refl Hexp)).
  unfold slots in Hd. rewrite Hst in Hd. lia.
Qed.

Lemma release_checked_slots N class now F l d :
  slots class now d ≤ N → slots class now (release_checked F l d).2 ≤ N.
Proof.
  intros Hd. unfold release_checked. destruct (lease_id l) as [id|]; [|done].
  unfold checked_lock. destruct (lock_fails F); [done|].
  apply checked_read_slots; [done|done|]. intros st Hst.
  destruct (match st !! id with Some _ => _ | None => _ end); [|done].
  destruct (slots_checked_save class now F (delete id st) d true) as [->| ->]; [|done].
  unfold slots in Hd. rewrite Hst in Hd.
  pose proof (live_ids_size_mono st (delete id st) class now now (delete_subseteq _ _) ltac:(lia)). lia.
Qed.

Lemma run_op_slots N class r now F o d :
  0 ≤ N < 2 ^ 32 → r ≤ now → countable_records d → slots class now d ≤ N → within N class o →
  slots class now (run_op F r now o d) ≤ N.
Proof.
  intros HN Hr Hc Hd Hw. destruct o; simpl in *.
  - by apply acquire_slots.
  - unfold release, with_file_lock. destruct (lease_id l); [|done]. destruct (lock_fails F); [done|].
    apply smaller_slots; [done|].
    transitivity (prune_expired r (load_state ∅ F d)); [apply delete_subseteq|apply pruned_subseteq].
  - unfold release_class, with_file_lock. destruct (lock_fails F); [done|]. simpl.
    destruct (0 <? _); [|done]. apply smaller_slots; [done|].
    transitivity (prune_expired r (load_state ∅ F d)); [apply map_filter_subseteq|apply pruned_subseteq].
  - unfold active_count, with_file_lock. destruct (lock_fails F); [done|]. simpl.
    apply smaller_slots; [done|apply pruned_subseteq].
  - by apply renew_checked_slots.
  - by apply acquire_checked_slots.
  - by apply release_checked_slots.
Qed.

(** A history of the file: operations of all processes in the order in which
    they hold the lock, with whatever faults, under a clock that does not go
    back.  An operation that begins at [r] may wait for the lock for as long as
    it likes, while others that began later get it first. *)
Inductive history (N : Z) class : Z → file → Prop :=
| history_new t : history N class t None
| history_op now d r t F o :
    history N class now d → now ≤ t → r ≤ t → countable_records d → within N class o →
    history N class t (run_op F r t o d).

(** C10 The cap holds: whatever the processes acquire, release, count and
    renew (with [renew_checked]), in whatever order they get the lock, however
    long before that the plain operations read the clock, and whatever fails,
    the file never records more live leases of a class than the largest cap
    [N] the class is acquired under.  The clock they share does not go back,
    and the file holds fewer than 2^32 records, expired ones included (they are
    counted in a u32).  Left out is the unchecked [renew], which restores an
    expired lease whatever the cap. *)
Theorem cap_respected N class now d :
  0 ≤ N < 2 ^ 32 → history N class now d → slots class now d ≤ N.
Proof.
  intros HN Hh. induction Hh as [t|now d r t F o Hh IH Hle Hr Hc Hw].
  - unfold slots, state_in, load_state, live_ids. simpl. rewrite map_filter_empty, dom_empty_L, size_empty. lia.
  - apply run_op_slots; [done..| |done]. pose proof (slots_later class now t d Hle). lia.
Qed.
End cap.

(** ** Admission, failures and renewal *)

Section behaviour.
Context `{!StateCodec State}.
Implicit Types (F : faults) (class uuid : ustr) (d : file) (l : Lease).

Lemma slots_pruned class now d :
  count_class (prune_expired now (state_in ∅ d)) class now = as_u32 (slots class now d).
Proof. by rewrite count_class_size, live_ids_prune. Qed.

(** Admission by the plain gate, with working files: an unlimited class is
    admitted without touching the file; a limited one is admitted exactly
    when its live leases (expired ones do not count, so a crashed holder's
    slot comes back) are fewer than the cap, and then holds a recorded lease
    until its time to live is over; otherwise the file is left alone. *)
Theorem try_acquire_exact class limit ttl now uuid d :
  writable (St := State) → slots class now d < 2 ^ 32 → 0 ≤ now → 0 ≤ ttl → now + ttl * 1000 < 2 ^ 63 →
  match limit with
  | None | Some 0 => try_acquire no_faults class limit ttl now uuid d = (AdmittedLease (unguarded class), d)
  | Some cap =>
      if cap <=? slots class now d then
        try_acquire no_faults class limit ttl now uuid d = (AtCapacity (slots class now d) cap, d)
      else
        ∃ d', try_acquire no_faults class limit ttl now uuid d
              = (AdmittedLease {| lease_id := Some (class ++ u "-" ++ uuid); lease_class := class |}, d')
              ∧ state_in ∅ d' !! (class ++ u "-" ++ uuid)
                = Some {| rec_class := class; expires_ms := now + ttl * 1000 |}
  end.
Proof.
  intros Hw Hs H0 Httl Hmax. destruct limit as [cap|]; [|done].
  destruct (decide (cap = 0)) as [->|Hne]; [done|].
  assert (try_acquire no_faults class (Some cap) ttl now uuid d
    = if cap <=? slots class now d then (AtCapacity (slots class now d) cap, d)
      else (AdmittedLease {| lease_id := Some (class ++ u "-" ++ uuid); lease_class := class |},
            try_save no_faults
              (<[class ++ u "-" ++ uuid := {| rec_class := class; expires_ms := now + ttl * 1000 |}]>
                 (prune_expired now (state_in ∅ d))) d)) as E.
  { unfold try_acquire. rewrite (proj2 (Z.eqb_neq cap 0)) by done.
    unfold with_file_lock. simpl. fold (state_in (∅ : State) d). rewrite slots_pruned.
    unfold as_u32. rewrite Z.mod_small by (split; [unfold slots; lia|done]).
    assert (i64_add now (to_ms ttl) = now + ttl * 1000) as ->.
    { unfold i64_add, to_ms, u64_saturating_mul, as_i64, u64_max.
      rewrite Z.min_r by lia. rewrite (Z.mod_small (ttl * 1000)) by lia.
      rewrite (proj2 (Z.ltb_lt (ttl * 1000) _)) by lia. rewrite Z.mod_small by lia.
      by rewrite (proj2 (Z.ltb_lt _ _)) by lia. }
    by destruct (cap <=? slots class now d). }
  destruct cap; [done| |]; (rewrite E; destruct (_ <=? slots class now d); [done|]);
    eexists; (split; [done|]); rewrite try_save_ok by done; apply lookup_insert_eq.
Qed.

(** The plain gate never wedges the caller and the checked gate never admits
    on faith: when the lock, the read or any write fails, or the file is
    corrupt, [try_acquire] still answers, with an unguarded lease if the lock
    was the problem; [try_acquire_checked] reports an error or refuses, and an
    admission it does report is on disk. *)
Theorem checked_fails_closed F class limit ttl now uuid d :
  0 ≤ ttl →
  (lock_fails F = true → limit ≠ None →
     try_acquire F class limit ttl now uuid d = (AdmittedLease (unguarded class), d))
  ∧ (∀ l d', try_acquire_checked F class limit ttl now uuid d = (Ok (AdmittedLease l), d') →
     lock_fails F = false ∧ read_fails F = false ∧ write_fails F = false ∧ rename_fails F = false
     ∧ (∀ bytes, d = Some bytes → is_Some (from_slice (St := State) bytes))
     ∧ ∃ id rec, lease_id l = Some id ∧ lease_class l = class ∧ state_in ∅ d' !! id = Some rec
                 ∧ rec_class rec = class ∧ now < expires_ms rec).
Proof.
  intros Httl. split.
  { intros HF Hl. unfold try_acquire, with_file_lock. rewrite HF.
    destruct limit as [cap|]; [|done]. by destruct (cap =? 0). }
  intros l d'. unfold try_acquire_checked. destruct limit as [cap|]; [|done].
  destruct (negb (0 <? cap)); [done|]. destruct (negb (valid_class class)); [done|].
  destruct (checked_ttl_ms ttl) as [ttl_ms|e] eqn:Et; [|done].
  destruct (ttl_ms =? 0) eqn:E0; [done|]. unfold checked_lock. destruct (lock_fails F); [done|]. cbv zeta.
  set (k := λ state : State, if cap <=? count_class state class now then _ else _).
  assert (∀ st, k st = (Ok (AdmittedLease l), d') →
    write_fails F = false ∧ rename_fails F = false
    ∧ ∃ id rec, lease_id l = Some id ∧ lease_class l = class ∧ state_in ∅ d' !! id = Some rec
                ∧ rec_class rec = class ∧ expires_ms rec = now + ttl_ms) as Hk.
  { intros st. unfold k. destruct (cap <=? _); [done|]. destruct (_ <=? i64_max); [|done].
    unfold checked_save.
    set (st' := <[class ++ u "-" ++ uuid := _]> _).
    pose proof (load_save ∅ F st' d) as Hls. destruct (save_state F st' d) as [[] d1] eqn:Es; [|done].
    intros E. injection E as <- <-. simpl in Hls. rewrite (Hls eq_refl).
    unfold save_state in Es. destruct (to_vec st'); [|done].
    destruct (write_fails F), (rename_fails F); try done. split_and!; [done|done|].
    do 2 eexists. split_and!; [done|done|apply lookup_insert_eq|done|done]. }
  assert (0 < ttl_ms) as Hpos.
  { unfold checked_ttl_ms in Et. reflect_bools. destruct (_ && _) eqn:Eb; [|done].
    injection Et as <-. lia. }
  unfold checked_read. destruct (read_fails F); [done|].
  destruct d as [bytes|]; [destruct (from_slice bytes) as [st|] eqn:Ef; [|done]|];
    intros E; destruct (Hk _ E) as (-> & -> & id & rec & ? & ? & ? & ? & He);
    (split_and!; [done..| |exists id, rec; split_and!; (done || lia)]); intros b Hb; by simplify_eq.
Qed.

(** A checked renewal never restores what was lost: it succeeds only on a
    lease that is recorded, of the right class and not expired, and then
    extends exactly that record; in every other case, and on every failure,
    the file is as it was. *)
Theorem renew_checked_never_restores F l ttl now d :
  let '(r, d') := renew_checked F l ttl now d in
  (r = Ok true →
     ∃ id rec st, lease_id l = Some id ∧ state_in ∅ d = st ∧ st !! id = Some rec
       ∧ rec_class rec = lease_class l ∧ now < expires_ms rec
       ∧ state_in ∅ d' = <[id := {| rec_class := rec_class rec; expires_ms := now + ttl * 1000 |}]> st)
  ∧ (r ≠ Ok true → d' = d).
Proof.
  unfold renew_checked. destruct (lease_id l) as [id|]; [|done].
  destruct (checked_ttl_ms ttl) as [ttl_ms|e] eqn:Et; [|done].
  assert (ttl_ms = ttl * 1000) as ->
    by (unfold checked_ttl_ms in Et; destruct (_ && _); [by injection Et|done]).
  destruct (_ =? 0); [done|]. unfold checked_lock. destruct (lock_fails F); [done|].
  unfold checked_read. destruct (read_fails F); [done|]. destruct d as [bytes|]; [|done].
  destruct (from_slice bytes) as [st|] eqn:Ef; [|done].
  destruct (st !! id) as [rec|] eqn:Er; [|done].
  destruct (negb _ || _) eqn:Eb; [done|]. destruct (_ <=? i64_max); [|done].
  apply orb_false_iff in Eb as [Hc Hexp]. reflect_bools.
  unfold checked_save. set (st' := <[id := _]> st).
  pose proof (load_save ∅ F st' (Some bytes)) as Hls.
  destruct (save_state F st' (Some bytes)) as [[] d1] eqn:Es.
  - split; [|done]. intros _. exists id, rec, st. split_and!; [done| |done|done|done|by apply Hls].
    unfold state_in, load_state. simpl. by rewrite Ef.
  - split; [done|]. intros _. unfold save_state in Es. destruct (to_vec st'); [|by simplify_eq].
    destruct (write_fails F), (rename_fails F); by simplify_eq.
Qed.

(** Releasing frees the slot: with working files a released lease is gone,
    every other unexpired record stays, and releasing an unguarded lease does
    nothing. *)
Theorem release_frees l now d :
  writable (St := State) →
  match lease_id l with
  | None => ∀ F, release F l now d = d
  | Some id =>
      state_in ∅ (release no_faults l now d) !! id = None
      ∧ ∀ k rec, k ≠ id → state_in ∅ d !! k = Some rec → now < expires_ms rec →
          state_in ∅ (release no_faults l now d) !! k = Some rec
  end.
Proof.
  intros Hw. unfold release. destruct (lease_id l) as [id|]; [|done].
  unfold with_file_lock. simpl. rewrite try_save_ok by done. split; [apply lookup_delete_eq|].
  intros k rec Hne Hk He. rewrite lookup_delete_ne by done.
  apply map_lookup_filter_Some. split; [exact Hk|]. simpl. by apply Z.ltb_lt.
Qed.
End behaviour.

(** ** Witnesses *)

#[local] Instance demo_codec : StateCodec State := countable_codec State.

Lemma lease_codec_writable : writable (St := State).
Proof. intros s. apply countable_codec_writable. Qed.

Definition one_lease : file := (try_acquire no_faults (u "goal") (Some 1) 30 1000 (u "a") None).2.
Definition lease_a : Lease := {| lease_id := Some (u "goal-a"); lease_class := u "goal" |}.

(** A first lease is taken at 1000; a second process reads the clock at 900,
    waits for the lock until 2000 and is turned away. *)
Definition late_lease : file := (try_acquire no_faults (u "goal") (Some 1) 30 900 (u "b") one_lease).2.

Lemma cap_respected_witness :
  slots (u "goal") 2000 late_lease ≤ 1
  ∧ (try_acquire no_faults (u "goal") (Some 1) 30 900 (u "b") one_lease).1 = AtCapacity 1 1.
Proof.
  split; [|vm_compute; reflexivity]. apply (cap_respected 1); [lia|].
  apply (history_op 1 (u "goal") 1000 one_lease 900 2000 no_faults (OAcquire (u "goal") (Some 1) 30 (u "b")));
    [|lia|lia|vm_compute; reflexivity|simpl; lia].
  apply (history_op 1 (u "goal") 1000 None 1000 1000 no_faults (OAcquire (u "goal") (Some 1) 30 (u "a")));
    [constructor|lia|lia|vm_compute; reflexivity|simpl; lia].
Defined.

Lemma try_acquire_exact_witness :
  try_acquire no_faults (u "goal") (Some 1) 30 2000 (u "b") one_lease = (AtCapacity 1 1, one_lease).
Proof.
  exact (try_acquire_exact (u "goal") (Some 1) 30 2000 (u "b") one_lease lease_codec_writable
    eq_refl ltac:(lia) ltac:(lia) ltac:(lia)).
Defined.

Lemma release_frees_witness :
  state_in (∅ : State) (release no_faults lease_a 2000 one_lease) !! u "goal-a" = None.
Proof. exact (proj1 (release_frees lease_a 2000 one_lease lease_codec_writable)). Defined.

(** The unchecked [renew] can overbook: a lease that expired is re-inserted
    whatever the cap, so a stalled holder and its replacement both count, two
    live leases under a cap of one. *)
Theorem renew_overbooks :
  let d1 := (try_acquire no_faults (u "goal") (Some 1) 30 1000 (u "a") None).2 in
  let r2 := try_acquire no_faults (u "goal") (Some 1) 30 31001 (u "b") d1 in
  let d3 := renew no_faults lease_a 30 31002 r2.2 in
  is_at_capacity r2.1 = false ∧ slots (u "goal") 31003 d3 = 2.
Proof. split; vm_compute; reflexivity. Qed.

(** A time to live too large for the milliseconds makes every lease of the
    plain gate expire at birth: it is admitted and recorded, but never
    counts. *)
Theorem huge_ttl_never_counts (class uuid : ustr) (cap ttl now : Z) :
  9223372036854776 ≤ ttl ≤ u64_max → 0 < cap → 0 ≤ now < 2 ^ 62 →
  slots class now (try_acquire no_faults class (Some cap) ttl now uuid None).2 = 0.
Proof.
  intros Ht Hc Hn.
  assert (i64_add now (to_ms ttl) < now) as Hexp.
  { unfold i64_add, to_ms, u64_saturating_mul. unfold u64_max in *.
    assert (-2 ^ 63 ≤ as_i64 (Z.min (2 ^ 64 - 1) (ttl * 1000)) < 0) as Hneg.
    { unfold as_i64. destruct (Z.min_spec (2 ^ 64 - 1) (ttl * 1000)) as [[_ ->]|[? ->]]; [split; by_eval|].
      rewrite Z.mod_small by lia. destruct (_ <? _) eqn:E; reflect_bools; lia. }
    set (x := as_i64 (Z.min _ _)) in *. unfold as_i64.
    destruct (decide (0 ≤ now + x)).
    - rewrite Z.mod_small by lia. destruct (_ <? _) eqn:E; reflect_bools; lia.
    - replace (now + x) with (now + x + 2 ^ 64 + (-1) * 2 ^ 64) by lia.
      rewrite Z_mod_plus_full, Z.mod_small by lia. destruct (_ <? _) eqn:E; reflect_bools; lia. }
  unfold try_acquire. set (id := class ++ _).
  rewrite (proj2 (Z.eqb_neq cap 0)) by lia. unfold with_file_lock. simpl.
  change (load_state ∅ no_faults None) with (∅ : State).
  assert (prune_expired now ∅ = ∅) as -> by apply map_filter_empty.
  rewrite count_class_size. unfold live_ids at 1.
  rewrite map_filter_empty, dom_empty_L, size_empty. unfold as_u32. rewrite Z.mod_0_l by done.
  rewrite (proj2 (Z.leb_gt _ _)) by done. simpl.
  unfold slots. rewrite try_save_ok by apply lease_codec_writable.
  set (rec := {| rec_class := class; expires_ms := _ |}).
  assert (live_in class now rec = false) as Hl
    by (apply andb_false_intro2, Z.ltb_ge; unfold rec; cbn [expires_ms]; lia).
  pose proof (subseteq_size _ _
    (live_ids_insert_other ∅ class now id rec Hl)) as Hs.
  unfold live_ids at 2 in Hs. rewrite map_filter_empty, dom_empty_L, size_empty in Hs. lia.
Qed.

Lemma huge_ttl_never_counts_witness :
  slots (u "goal") 1000
    (try_acquire no_faults (u "goal") (Some 1) 9223372036854776 1000 (u "a") None).2 = 0.
Proof.
  apply huge_ttl_never_counts; [split; by_eval|lia|split; by_eval].
Defined.

Definition checked_a : result AcquireOutcome io_error * file :=
  try_acquire_checked no_faults (u "goal") (Some 1) 30 1000 (u "a") None.

Lemma checked_fails_closed_witness :
  checked_a.1 = Ok (AdmittedLease lease_a)
  ∧ ∃ id rec, lease_id lease_a = Some id ∧ state_in (∅ : State) checked_a.2 !! id = Some rec.
Proof.
  assert (checked_a = (Ok (AdmittedLease lease_a), checked_a.2)) as E by (vm_compute; reflexivity).
  split; [exact (f_equal fst E)|].
  destruct (proj2 (checked_fails_closed no_faults (u "goal") (Some 1) 30 1000 (u "a") None ltac:(lia))
    lease_a checked_a.2 E) as (_ & _ & _ & _ & _ & id & rec & Hid & _ & Hrec & _ & _).
  exists id, rec. split; [exact Hid|exact Hrec].
Defined.
