(* ===== verification/Takeover.v ===== *)
(** * Human takeover of a conversation (crates/duduclaw-core/src/takeover_state.rs)

    Which conversations a person holds and until when, in takeover_state.json.
    [chrono]'s UTC times are the interface [UtcTime]. *)

From stdpp Require Import countable sorting.
From S2P Require Import Prelude StateFile.

(** [chrono::DateTime<Utc>]: a time has a position on the nanosecond line;
    comparison, adding minutes and the whole minutes of a difference are those
    of the positions. *)
Class UtcTime := {
  utc : Type;
  #[global] utc_eq_dec :: EqDecision utc;
  ns : utc → Z;
  utc_lt : utc → utc → bool;
  plus_minutes : utc → Z → utc;
  num_minutes_between : utc → utc → Z;
  utc_lt_ns a b : utc_lt a b = (ns a <? ns b);
  plus_minutes_ns t m : ns (plus_minutes t m) = ns t + m * 60000000000;
  num_minutes_ns a b : num_minutes_between a b = (ns a - ns b) ÷ 60000000000;
}.

Definition DEFAULT_DURATION_MINUTES : Z := 60.
Definition HARD_MAX_DURATION_MINUTES : Z := 12 * 60.
Definition MAX_EXTENSION_MINUTES : Z := 8 * 60.

(** [i64::clamp] ([lo <= hi]). *)
Definition clamp (lo hi v : Z) : Z := if v <? lo then lo else if hi <? v then hi else v.

Record TakeoverConfig := {
  enabled : bool;
  duration_minutes : Z;
  max_duration_minutes : Z;
}.

Definition TakeoverConfig_default : TakeoverConfig :=
  {| enabled := false; duration_minutes := DEFAULT_DURATION_MINUTES;
     max_duration_minutes := HARD_MAX_DURATION_MINUTES |}.

Definition clamped (c : TakeoverConfig) : TakeoverConfig :=
  let m := clamp 1 HARD_MAX_DURATION_MINUTES (max_duration_minutes c) in
  {| enabled := enabled c; duration_minutes := clamp 1 m (duration_minutes c);
     max_duration_minutes := m |}.

(** [TakeoverConfig::from_home], with the section reader as a parameter. *)
Definition from_home (section_of : ustr → option (option (option TakeoverConfig)))
    (content : option ustr) : TakeoverConfig :=
  match content ≫= section_of with
  | None => TakeoverConfig_default
  | Some None => TakeoverConfig_default
  | Some (Some section) => clamped (default TakeoverConfig_default section)
  end.

(** ** Conversation keys *)

(** [splitn(3, ':')]. *)
Fixpoint splitn (n : nat) (sep : N) (s : ustr) : list ustr :=
  match n with
  | O => []
  | S O => [s]
  | S n' =>
      (fix cut (acc rest : ustr) : list ustr :=
         match rest with
         | [] => [rev acc]
         | c :: r => if (c =? sep)%N then rev acc :: splitn n' sep r else cut (c :: acc) r
         end) [] s
  end.

Definition conversation_target (conversation : ustr) : option (ustr * ustr) :=
  match splitn 3 58 (trim conversation) with
  | p0 :: p1 :: rest =>
      let channel := trim p0 in
      if is_empty channel then None
      else
        let chat_id :=
          trim (match rest with
                | [p2] => if ustr_eqb p1 (u "thread") then p2 else p1
                | _ => p1
                end) in
        if is_empty chat_id then None else Some (channel, chat_id)
  | _ => None
  end.

(** ** Records *)

Section records.
Context `{UtcTime}.

Record TakeoverRecord := {
  conversation : ustr;
  channel : ustr;
  chat_id : ustr;
  agent_id : ustr;
  holder_user_id : ustr;
  holder_display : ustr;
  started_at : utc;
  until : utc;
  claimed_task_ids : list ustr;
}.

#[export] Instance TakeoverRecord_eq_dec : EqDecision TakeoverRecord.
Proof. solve_decision. Defined.

Definition is_active_at (r : TakeoverRecord) (now : utc) : bool := utc_lt now (until r).
Definition minutes_left (r : TakeoverRecord) (now : utc) : Z :=
  Z.max (num_minutes_between (until r) now) 0.

Inductive BeginOutcome :=
| Started (r : TakeoverRecord)
| Refreshed (r : TakeoverRecord).

Definition outcome_record (o : BeginOutcome) : TakeoverRecord :=
  match o with Started r | Refreshed r => r end.
Definition is_started (o : BeginOutcome) : bool :=
  match o with Started _ => true | Refreshed _ => false end.

Record BeginRequest := {
  req_conversation : ustr;
  req_agent_id : ustr;
  req_holder_user_id : ustr;
  req_holder_display : ustr;
}.

Abbreviation State := (gmap ustr TakeoverRecord).

(** [prune]: what is left, and the expired records. *)
Definition prune (now : utc) (state : State) : list TakeoverRecord * State :=
  (retain (λ r, negb (is_active_at r now)) (map snd (map_to_list state)),
   base.filter (λ p : ustr * TakeoverRecord, is_active_at p.2 now = true) state).

Inductive io_error := LockError | SaveError | InvalidInput (m : ustr).

Section storage.
Context `{!StateCodec State}.
Implicit Types (F : faults) (d : file) (conv : ustr) (now : utc).

(** [with_state]: saves only a changed state; a failing closure or save is an
    error. *)
Definition with_state {A : Type} F (f : State → A * State) d : result A io_error * file :=
  let '(r, d') :=
    with_file_lock F
      (λ d,
        let before := load_state ∅ F d in
        let '(out, after) := f before in
        if bool_decide (after = before) then (Ok out, d)
        else
          let '(ok, d') := save_state F after d in
          if ok : bool then (Ok out, d') else (Err SaveError, d')) d in
  (match r with Some x => x | None => Err LockError end, d').

(** ** Reads *)

Definition active_at F conv now d : option TakeoverRecord :=
  match load_state (∅ : State) F d !! conv with
  | Some r => if is_active_at r now then Some r else None
  | None => None
  end.

Definition is_conversation_paused F conv now d : bool :=
  match active_at F conv now d with Some _ => true | None => false end.

(** Whether a held conversation addresses the target. *)
Definition covers now (chan chat : ustr) (r : TakeoverRecord) : bool :=
  is_active_at r now && ustr_eqb (channel r) (trim chan)
  && (ustr_eqb (chat_id r) (trim chat) || ustr_eqb (conversation r) (trim chat)).

Definition is_target_paused F (chan chat : ustr) now d : bool :=
  if is_empty (trim chan) || is_empty (trim chat) then false
  else existsb (covers now chan chat) (map snd (map_to_list (load_state (∅ : State) F d))).

(** [Iterator::max_by_key]: the last of the greatest. *)
Definition max_by_until (rs : list TakeoverRecord) : option TakeoverRecord :=
  foldl
    (λ best r,
      match best with
      | None => Some r
      | Some b => if utc_lt (until r) (until b) then Some b else Some r
      end) None rs.

Definition target_record F (chan chat : ustr) now d : option TakeoverRecord :=
  if is_empty (trim chan) || is_empty (trim chat) then None
  else
    max_by_until (retain (covers now chan chat)
                    (map snd (map_to_list (load_state (∅ : State) F d)))).

Definition by_conversation (a b : TakeoverRecord) : Prop :=
  ustr_leb (conversation a) (conversation b) = true.
#[export] Instance by_conversation_dec : RelDecision by_conversation.
Proof. intros a b. unfold by_conversation. apply _. Defined.

Definition list_active F now d : list TakeoverRecord :=
  merge_sort by_conversation
    (retain (λ r, is_active_at r now) (map snd (map_to_list (load_state (∅ : State) F d)))).

(** ** Writes *)

Definition with_hold (new_until : utc) (user display : ustr) (r : TakeoverRecord) : TakeoverRecord :=
  {| conversation := conversation r; channel := channel r; chat_id := chat_id r;
     agent_id := agent_id r; holder_user_id := user; holder_display := display;
     started_at := started_at r; until := new_until; claimed_task_ids := claimed_task_ids r |}.

Definition begin F (req : BeginRequest) (cfg : TakeoverConfig) now d
    : result BeginOutcome io_error * file :=
  match conversation_target (req_conversation req) with
  | None =>
      (Err (InvalidInput (u "takeover: conversation '" ++ req_conversation req
                          ++ u "' has no addressable target")), d)
  | Some (chan, chat) =>
      let cfg := clamped cfg in
      with_state F
        (λ state,
          let state := (prune now state).2 in
          let deadline := plus_minutes now (duration_minutes cfg) in
          match state !! req_conversation req with
          | Some existing =>
              let r := with_hold deadline (req_holder_user_id req) (req_holder_display req) existing in
              (Refreshed r, <[req_conversation req := r]> state)
          | None =>
              let r := {| conversation := req_conversation req; channel := chan; chat_id := chat;
                          agent_id := req_agent_id req; holder_user_id := req_holder_user_id req;
                          holder_display := req_holder_display req; started_at := now;
                          until := deadline; claimed_task_ids := [] |} in
              (Started r, <[req_conversation req := r]> state)
          end) d
  end.

Definition add_claims (ids : list ustr) (r : TakeoverRecord) : TakeoverRecord :=
  {| conversation := conversation r; channel := channel r; chat_id := chat_id r;
     agent_id := agent_id r; holder_user_id := holder_user_id r;
     holder_display := holder_display r; started_at := started_at r; until := until r;
     claimed_task_ids :=
       foldl (λ acc id, if bool_decide (id ∈ acc) then acc else acc ++ [id])
         (claimed_task_ids r) ids |}.

Definition record_claimed_tasks F conv (task_ids : list ustr) d : result unit io_error * file :=
  if is_empty task_ids then (Ok tt, d)
  else
    with_state F
      (λ state,
        match state !! conv with
        | Some r => (tt, <[conv := add_claims task_ids r]> state)
        | None => (tt, state)
        end) d.

(** [proposed.min(ceiling)]: the first of equals. *)
Definition utc_min (a b : utc) : utc := if utc_lt b a then b else a.

Definition extend F conv (minutes : Z) (cfg : TakeoverConfig) now d
    : result (option TakeoverRecord) io_error * file :=
  let cfg := clamped cfg in
  let minutes := clamp 1 MAX_EXTENSION_MINUTES minutes in
  with_state F
    (λ state,
      let state := (prune now state).2 in
      match state !! conv with
      | None => (None, state)
      | Some r =>
          let ceiling := plus_minutes now (max_duration_minutes cfg) in
          let proposed := plus_minutes (until r) minutes in
          let r' := with_hold (utc_min proposed ceiling) (holder_user_id r) (holder_display r) r in
          (Some r', <[conv := r']> state)
      end) d.

Definition end_takeover F conv now d : result (option TakeoverRecord) io_error * file :=
  with_state F
    (λ state,
      let state := (prune now state).2 in
      (state !! conv, delete conv state)) d.

Definition sweep_expired F now d : list TakeoverRecord * file :=
  match d with
  | None => ([], d)
  | Some _ =>
      let '(r, d') := with_state F (prune now) d in
      (match r with Ok out => out | Err _ => [] end, d')
  end.
End storage.
End records.

(** ** Lemmas *)

Section lemmas.
Context `{UtcTime}.
Local Abbreviation State := (gmap ustr TakeoverRecord).
Context `{!StateCodec State}.
Implicit Types (F : faults) (d : file) (conv : ustr) (now t : utc) (st : State).

Lemma clamp_bounds lo hi v : lo ≤ hi → lo ≤ clamp lo hi v ≤ hi.
Proof. intros. unfold clamp. destruct (v <? lo) eqn:E1, (hi <? v) eqn:E2; reflect_bools; lia. Qed.

Lemma clamped_bounds cfg :
  1 ≤ duration_minutes (clamped cfg) ≤ max_duration_minutes (clamped cfg)
  ∧ max_duration_minutes (clamped cfg) ≤ HARD_MAX_DURATION_MINUTES.
Proof.
  simpl. pose proof (clamp_bounds 1 HARD_MAX_DURATION_MINUTES (max_duration_minutes cfg) ltac:(by_eval)).
  pose proof (clamp_bounds 1 (clamp 1 HARD_MAX_DURATION_MINUTES (max_duration_minutes cfg))
    (duration_minutes cfg) ltac:(lia)). lia.
Qed.

Lemma is_active_ns r now : is_active_at r now = true ↔ ns now < ns (until r).
Proof. unfold is_active_at. rewrite utc_lt_ns. apply Z.ltb_lt. Qed.

Lemma prune_held_lookup now st conv r :
  (prune now st).2 !! conv = Some r ↔ st !! conv = Some r ∧ is_active_at r now = true.
Proof. unfold prune. simpl. by rewrite map_lookup_filter_Some. Qed.

(** [with_state], by outcome. *)
Lemma with_state_ok {A : Type} F (f : State → A * State) d out d' :
  with_state F f d = (Ok out, d') →
  lock_fails F = false ∧ out = (f (load_state ∅ F d)).1
  ∧ ((d' = d ∧ (f (load_state ∅ F d)).2 = load_state ∅ F d)
     ∨ state_in ∅ d' = (f (load_state ∅ F d)).2).
Proof.
  unfold with_state, with_file_lock. destruct (lock_fails F); [done|].
  destruct (f (load_state ∅ F d)) as [o after]. simpl.
  destruct (bool_decide _) eqn:E; reflect_bools; [intros; simplify_eq; auto|].
  pose proof (load_save ∅ F after d) as Hs.
  destruct (save_state F after d) as [[] d1]; [|done].
  intros. simplify_eq. simpl in Hs. auto.
Qed.

Lemma with_state_err {A : Type} F (f : State → A * State) d e d' :
  with_state F f d = (Err e, d') → d' = d.
Proof.
  unfold with_state, with_file_lock. destruct (lock_fails F); [intros; by simplify_eq|].
  destruct (f (load_state ∅ F d)) as [o after]. simpl.
  destruct (bool_decide _); [done|]. unfold save_state.
  destruct (to_vec after); [|intros; by simplify_eq].
  destruct (write_fails F), (rename_fails F); intros; by simplify_eq.
Qed.

Lemma with_state_healthy {A : Type} (f : State → A * State) d :
  writable (St := State) →
  ∃ d', with_state no_faults f d = (Ok (f (state_in ∅ d)).1, d')
        ∧ state_in ∅ d' = (f (state_in ∅ d)).2.
Proof.
  intros Hw. unfold with_state, with_file_lock. simpl. fold (state_in (∅ : State) d).
  destruct (f (state_in ∅ d)) as [o after]. simpl.
  destruct (bool_decide _) eqn:E; reflect_bools; [by exists d|].
  pose proof (load_save ∅ no_faults after d) as Hs.
  assert ((save_state no_faults after d).1 = true) as Hok
    by (unfold save_state; by destruct (Hw after) as [b ->]).
  destruct (save_state no_faults after d) as [[] d1]; [|done]. exists d1. auto.
Qed.

(** ** Holding a conversation *)

(** The state a [begin] leaves. *)
Definition begun (req : BeginRequest) (cfg : TakeoverConfig) now st (r : TakeoverRecord) : Prop :=
  conversation_target (req_conversation req) <> None
  ∧ until r = plus_minutes now (duration_minutes (clamped cfg))
  ∧ holder_user_id r = req_holder_user_id req
  ∧ st !! req_conversation req = Some r.

(** A takeover that is announced is real: whatever fails, [begin] either
    reports an error and leaves the file as it was, or the conversation is
    held from now on, by the requester, for the configured duration brought
    into 1 minute to 12 hours; and it is announced as new only if the file it
    could read had nobody holding it. *)
Theorem announced_means_held F req cfg now d :
  match begin F req cfg now d with
  | (Err _, d') => d' = d
  | (Ok o, d') =>
      begun req cfg now (state_in ∅ d') (outcome_record o)
      ∧ active_at no_faults (req_conversation req) now d' = Some (outcome_record o)
      ∧ (is_started o = true ↔ active_at F (req_conversation req) now d = None)
  end.
Proof.
  unfold begin.
  destruct (conversation_target (req_conversation req)) as [[chan chat]|] eqn:Et; [|done].
  set (f := λ state : State, _). destruct (with_state F f d) as [[o|e] d'] eqn:E.
  2: by apply with_state_err in E.
  apply with_state_ok in E as (_ & Ho & Hd).
  set (st := load_state ∅ F d) in *. set (conv := req_conversation req) in *.
  set (deadline := plus_minutes now (duration_minutes (clamped cfg))) in *.
  assert (∃ r, outcome_record o = r ∧ (f st).2 = <[conv := r]> (prune now st).2
          ∧ until r = deadline ∧ holder_user_id r = req_holder_user_id req
          ∧ (is_started o = true ↔ (prune now st).2 !! conv = None)) as (r & Hr & Hf & Hu & Hh & Hst).
  { subst o. unfold f. cbv zeta. fold conv deadline.
    destruct ((prune now st).2 !! conv) as [r0|]; eexists; split_and!; try done. }
  assert (state_in ∅ d' !! conv = Some r) as Hl.
  { destruct Hd as [[-> Heq]|Heq].
    - rewrite Hf in Heq. assert (st !! conv = Some r) as Hs by (rewrite <- Heq; apply lookup_insert_eq).
      unfold st, load_state, state_in in *. destruct (read_fails F); [done|]. exact Hs.
    - rewrite Heq, Hf. apply lookup_insert_eq. }
  pose proof (clamped_bounds cfg) as [Hb _].
  rewrite Hr. split_and!.
  - unfold begun. fold conv. split_and!; [congruence|done|done|done].
  - unfold active_at. fold (state_in (∅ : State) d'). rewrite Hl.
    rewrite (proj2 (is_active_ns r now)); [done|]. rewrite Hu. unfold deadline.
    rewrite plus_minutes_ns. lia.
  - rewrite Hst. unfold active_at. fold st conv. split.
    + intros Hn. destruct (st !! conv) as [r0|] eqn:Es; [|done].
      destruct (is_active_at r0 now) eqn:Ea; [|done].
      rewrite (proj2 (prune_held_lookup now st conv r0)) in Hn by done. done.
    + intros Hn. destruct ((prune now st).2 !! conv) as [r0|] eqn:Ep; [|done].
      apply prune_held_lookup in Ep as [Es Ea]. rewrite Es, Ea in Hn. done.
Qed.

(** A takeover is about one conversation: with working files, beginning,
    extending or ending one leaves every other conversation exactly as held
    or free as it was, now and later. *)
Theorem other_conversations_untouched req cfg minutes now t conv other d :
  writable (St := State) → ns now ≤ ns t → other ≠ conv → req_conversation req = conv →
  active_at no_faults other t (begin no_faults req cfg now d).2 = active_at no_faults other t d
  ∧ active_at no_faults other t (extend no_faults conv minutes cfg now d).2 = active_at no_faults other t d
  ∧ active_at no_faults other t (end_takeover no_faults conv now d).2 = active_at no_faults other t d.
Proof.
  intros Hw Ht Hne Hreq.
  assert (∀ A (f : State → A * State),
    (∀ st, (f st).2 !! other = (prune now st).2 !! other) →
    active_at no_faults other t (with_state no_faults f d).2 = active_at no_faults other t d) as Hf.
  { intros A f Hl. destruct (with_state_healthy f d Hw) as (d' & -> & Hd). unfold active_at.
    cbn [snd]. change (load_state ∅ no_faults d') with (state_in (∅ : State) d').
    change (load_state ∅ no_faults d) with (state_in (∅ : State) d). rewrite Hd, Hl.
    destruct (state_in ∅ d !! other) as [r|] eqn:Es.
    - destruct (is_active_at r now) eqn:Ea.
      + by rewrite (proj2 (prune_held_lookup now _ other r)).
      + assert (is_active_at r t = false) as Eat.
        { apply not_true_iff_false. rewrite is_active_ns. apply not_true_iff_false in Ea.
          rewrite is_active_ns in Ea. lia. }
        destruct ((prune now (state_in ∅ d)).2 !! other) as [r2|] eqn:Ep.
        * apply prune_held_lookup in Ep as [E2 E3]. congruence.
        * by rewrite Eat.
    - destruct ((prune now (state_in ∅ d)).2 !! other) as [r2|] eqn:Ep; [|done].
      apply prune_held_lookup in Ep as [E2 _]. congruence. }
  split_and!.
  - unfold begin. destruct (conversation_target _) as [[chan chat]|]; [|done].
    apply Hf. intros st. rewrite Hreq. cbv zeta.
    destruct ((prune now st).2 !! conv); cbn [snd]; by rewrite lookup_insert_ne.
  - apply Hf. intros st. cbv zeta. destruct ((prune now st).2 !! conv); cbn [snd]; [|done].
    by rewrite lookup_insert_ne.
  - apply Hf. intros st. cbv zeta. cbn [snd]. by rewrite lookup_delete_ne.
Qed.

(** Extending: nothing happens to a conversation nobody holds; a held one is
    pushed out by the minutes asked (1 minute to 8 hours), but never beyond
    the ceiling counted from now. *)
Theorem extend_exact conv minutes cfg now d :
  writable (St := State) →
  let '(r, d') := extend no_faults conv minutes cfg now d in
  match active_at no_faults conv now d with
  | None => r = Ok None ∧ active_at no_faults conv now d' = None
  | Some rec =>
      ∃ rec', r = Ok (Some rec') ∧ state_in ∅ d' !! conv = Some rec'
      ∧ ns (until rec')
        = Z.min (ns (until rec) + clamp 1 MAX_EXTENSION_MINUTES minutes * 60000000000)
                (ns now + max_duration_minutes (clamped cfg) * 60000000000)
      ∧ holder_user_id rec' = holder_user_id rec
  end.
Proof.
  intros Hw. unfold extend. set (f := λ state : State, _).
  destruct (with_state_healthy f d Hw) as (d' & -> & Hd). unfold active_at.
  fold (state_in (∅ : State) d) (state_in (∅ : State) d'). unfold f in *. cbv zeta in *.
  destruct (state_in ∅ d !! conv) as [rec|] eqn:Es.
  - destruct (is_active_at rec now) eqn:Ea.
    + assert ((prune now (state_in ∅ d)).2 !! conv = Some rec) as Ep by by apply prune_held_lookup.
      rewrite Ep in *. simpl in Hd |- *. eexists. split_and!; [done|rewrite Hd; apply lookup_insert_eq| |done].
      simpl. unfold utc_min. rewrite utc_lt_ns. rewrite !plus_minutes_ns.
      destruct (_ <? _) eqn:E; reflect_bools; rewrite plus_minutes_ns; simpl; lia.
    + destruct ((prune now (state_in ∅ d)).2 !! conv) as [r2|] eqn:Ep.
      { apply prune_held_lookup in Ep as [E1 E2]. congruence. }
      simpl in Hd |- *. split; [done|]. rewrite Hd.
      change (base.filter _ (state_in ∅ d)) with (prune now (state_in ∅ d)).2. by rewrite Ep.
  - destruct ((prune now (state_in ∅ d)).2 !! conv) as [r2|] eqn:Ep.
    { apply prune_held_lookup in Ep as [E1 _]. congruence. }
    simpl in Hd |- *. split; [done|]. rewrite Hd.
    change (base.filter _ (state_in ∅ d)) with (prune now (state_in ∅ d)).2. by rewrite Ep.
Qed.

(** ** The sweep *)

Lemma elem_of_values r st : r ∈ map snd (map_to_list st) ↔ ∃ conv, st !! conv = Some r.
Proof.
  rewrite list_elem_of_fmap. split.
  - intros ([k v] & -> & Hk). exists k. by apply elem_of_map_to_list.
  - intros [k Hk]. exists (k, r). split; [done|]. by apply elem_of_map_to_list.
Qed.

Lemma elem_of_expired now r st :
  r ∈ (prune now st).1 ↔ ∃ conv, st !! conv = Some r ∧ is_active_at r now = false.
Proof.
  simpl. rewrite elem_of_retain, elem_of_values, negb_true_iff. naive_solver.
Qed.

Lemma sweep_healthy now d :
  writable (St := State) →
  (sweep_expired no_faults now d).1 = (prune now (state_in ∅ d)).1
  ∧ state_in ∅ (sweep_expired no_faults now d).2 = (prune now (state_in ∅ d)).2.
Proof.
  intros Hw. unfold sweep_expired. destruct d as [b|].
  - by destruct (with_state_healthy (prune now) (Some b) Hw) as (d' & -> & Hd).
  - done.
Qed.

Lemma sweep_subset F now d r :
  r ∈ (sweep_expired F now d).1 → ∃ conv, state_in ∅ d !! conv = Some r ∧ is_active_at r now = false.
Proof.
  unfold sweep_expired. destruct d as [b|]; [|intros Hr; by apply elem_of_nil in Hr].
  destruct (with_state F (prune now) (Some b)) as [[out|e] d'] eqn:E.
  2: { intros Hr. by apply elem_of_nil in Hr. }
  apply with_state_ok in E as (_ & -> & _). cbn [fst]. rewrite elem_of_expired.
  unfold load_state at 1. destruct (read_fails F); [|done].
  intros (conv & Hc & _). by rewrite lookup_empty in Hc.
Qed.

(** The sweep hands back each closed window exactly once: it returns
    precisely the expired records, keeps precisely the running ones, and no
    later sweep at that time, whatever fails, returns anything. *)
Theorem sweep_exact now d :
  writable (St := State) →
  let '(out, d') := sweep_expired no_faults now d in
  (∀ r, r ∈ out ↔ ∃ conv, state_in ∅ d !! conv = Some r ∧ is_active_at r now = false)
  ∧ (∀ conv, state_in ∅ d' !! conv = active_at no_faults conv now d)
  ∧ ∀ F r, r ∉ (sweep_expired F now d').1.
Proof.
  intros Hw. destruct (sweep_healthy now d Hw) as [H1 H2].
  destruct (sweep_expired no_faults now d) as [out d']. cbn [fst snd] in H1, H2. subst out.
  split_and!; [intros r; apply elem_of_expired| |].
  - intros conv. rewrite H2. unfold active_at.
    change (load_state ∅ no_faults d) with (state_in (∅ : State) d).
    apply option_eq. intros r. rewrite prune_held_lookup.
    destruct (state_in ∅ d !! conv) as [r0|]; [|naive_solver].
    destruct (is_active_at r0 now) eqn:Ea; naive_solver congruence.
  - intros F r Hr. apply sweep_subset in Hr as (conv & Hc & Ha). rewrite H2 in Hc.
    apply prune_held_lookup in Hc as [_ Hc]. congruence.
Qed.

(** ** What a failure or another writer costs *)

(** Each record sits under its own conversation. *)
Definition keyed st : Prop := ∀ k r, st !! k = Some r → conversation r = k.

Lemma begin_keyed req cfg now d :
  writable (St := State) → keyed (state_in ∅ d) →
  keyed (state_in ∅ (begin no_faults req cfg now d).2)
  ∧ (conversation_target (req_conversation req) ≠ None →
     ∀ k, k ≠ req_conversation req →
       state_in ∅ (begin no_faults req cfg now d).2 !! k = (prune now (state_in ∅ d)).2 !! k).
Proof.
  intros Hw Hk. unfold begin. destruct (conversation_target _) as [[chan chat]|]; [|done].
  set (f := λ state : State, _). destruct (with_state_healthy f d Hw) as (d' & -> & Hd).
  cbn [snd]. rewrite Hd. unfold f. cbv zeta.
  assert (keyed (prune now (state_in ∅ d)).2) as Hp.
  { intros k r Hr. apply prune_held_lookup in Hr as [Hr _]. by apply Hk. }
  split.
  - intros k r. destruct ((prune now (state_in ∅ d)).2 !! req_conversation req) as [r0|] eqn:E0;
      cbn [snd]; (destruct (decide (k = req_conversation req)) as [->|Hne];
      [rewrite lookup_insert_eq|rewrite lookup_insert_ne by done; apply Hp]); intros; simplify_eq; simpl; auto.
  - intros _ k Hne. destruct ((prune now (state_in ∅ d)).2 !! req_conversation req); cbn [snd];
      by rewrite lookup_insert_ne.
Qed.

(** A window that closed is lost to the sweep when somebody starts another
    takeover first: [begin] prunes it (as [extend] and [end] do), so no later
    sweep returns it and nobody tells that conversation the AI is back. *)
Theorem begin_swallows_expiry req cfg now t F d conv r :
  writable (St := State) → keyed (state_in ∅ d) →
  conversation_target (req_conversation req) <> None →
  conv ≠ req_conversation req →
  state_in ∅ d !! conv = Some r → is_active_at r now = false →
  r ∈ (sweep_expired no_faults now d).1
  ∧ r ∉ (sweep_expired F t (begin no_faults req cfg now d).2).1.
Proof.
  intros Hw Hkey Ht Hne Hl Ha. destruct (begin_keyed req cfg now d Hw Hkey) as [Hk' Hother].
  split; [rewrite (proj1 (sweep_healthy now d Hw)), elem_of_expired; eauto|].
  intros Hr. apply sweep_subset in Hr as (k & H1 & _). pose proof (Hk' _ _ H1) as <-.
  rewrite (Hkey _ _ Hl) in *. rewrite Hother in H1 by done.
  apply prune_held_lookup in H1 as [_ H1]. congruence.
Qed.

(** A file that cannot be read for a moment. *)
Definition unreadable : faults :=
  {| lock_fails := false; read_fails := true; write_fails := false; rename_fails := false |}.

(** One failed read during a write costs every takeover: a [begin] that
    meets it starts from the empty state and saves that, so every other held
    conversation is answered by the AI again; an [end] that meets it reports
    that nothing was held, and the conversation stays paused. *)
Theorem unreadable_file_unpauses req cfg now t d other r :
  writable (St := State) →
  conversation_target (req_conversation req) <> None →
  other ≠ req_conversation req →
  active_at no_faults other t d = Some r →
  active_at no_faults other t (begin unreadable req cfg now d).2 = None
  ∧ end_takeover unreadable other now d = (Ok None, d).
Proof.
  intros Hw Ht Hne Ha. split.
  - unfold begin. destruct (conversation_target _) as [[chan chat]|]; [|done].
    set (f := λ state : State, _).
    assert ((f ∅).2 ≠ ∅ ∧ (f ∅).2 !! other = None) as [Hf1 Hf2].
    { unfold f. cbv zeta. unfold prune. cbn [snd]. rewrite map_filter_empty, lookup_empty. cbn [snd].
      split; [apply insert_non_empty|]. by rewrite lookup_insert_ne. }
    unfold with_state, with_file_lock. cbn [lock_fails unreadable].
    change (load_state ∅ unreadable d) with (∅ : State).
    destruct (f ∅) as [o after]. cbn [snd] in *. cbv zeta. rewrite bool_decide_false by done.
    unfold save_state. destruct (Hw after) as [b Hb]. rewrite Hb. cbn [write_fails rename_fails unreadable snd].
    unfold active_at, load_state. cbn [read_fails no_faults]. rewrite (codec_roundtrip _ _ Hb).
    change (default ∅ (Some after)) with after. by rewrite Hf2.
  - unfold end_takeover, with_state, with_file_lock. cbn [lock_fails unreadable].
    change (load_state ∅ unreadable d) with (∅ : State). unfold prune. cbn [snd].
    rewrite map_filter_empty, lookup_empty, delete_empty, bool_decide_true; done.
Qed.
End lemmas.

(** ** Concrete instances *)

(** Time as a number of nanoseconds. *)
#[local] Instance utc_ns : UtcTime.
Proof.
  refine {| utc := Z; ns := id; utc_lt := Z.ltb; plus_minutes t m := t + m * 60000000000;
            num_minutes_between a b := (a - b) ÷ 60000000000 |}; reflexivity.
Defined.

Definition record_fields (r : TakeoverRecord) :=
  (conversation r, channel r, chat_id r, agent_id r, holder_user_id r,
   (holder_display r, started_at r : Z, until r : Z, claimed_task_ids r)).
Definition record_of_fields f : TakeoverRecord :=
  let '(a, b, c, e, g, (h, i, j, k)) := f in
  {| conversation := a; channel := b; chat_id := c; agent_id := e; holder_user_id := g;
     holder_display := h; started_at := (i : Z); until := (j : Z); claimed_task_ids := k |}.

#[local] Instance TakeoverRecord_countable : Countable TakeoverRecord.
Proof. refine (inj_countable' record_fields record_of_fields _). by intros []. Defined.

#[local] Instance takeover_codec : StateCodec (gmap ustr TakeoverRecord) :=
  countable_codec (gmap ustr TakeoverRecord).

Lemma takeover_codec_writable : writable (St := gmap ustr TakeoverRecord).
Proof. intros st. apply countable_codec_writable. Qed.

Definition minute (n : Z) : utc := (n * 60000000000 : Z).
Definition chat_request : BeginRequest :=
  {| req_conversation := u "telegram:7"; req_agent_id := u "bot";
     req_holder_user_id := u "555"; req_holder_display := u "Wang" |}.
Definition other_request : BeginRequest :=
  {| req_conversation := u "line:8"; req_agent_id := u "bot";
     req_holder_user_id := u "9"; req_holder_display := u "Chen" |}.
Definition one_held : file :=
  (begin no_faults other_request TakeoverConfig_default (minute 0) None).2.

Definition other_record : TakeoverRecord :=
  {| conversation := u "line:8"; channel := u "line"; chat_id := u "8"; agent_id := u "bot";
     holder_user_id := u "9"; holder_display := u "Chen"; started_at := minute 0;
     until := minute 60; claimed_task_ids := [] |}.

Lemma other_conversations_untouched_witness :
  active_at no_faults (u "line:8") (minute 30)
    (begin no_faults chat_request TakeoverConfig_default (minute 20) one_held).2
  = active_at no_faults (u "line:8") (minute 30) one_held.
Proof.
  refine (proj1 (other_conversations_untouched chat_request TakeoverConfig_default 5
    (minute 20) (minute 30) (u "telegram:7") (u "line:8") one_held
    takeover_codec_writable _ _ eq_refl)).
  - unfold minute. simpl. lia.
  - by_eval.
Defined.

Lemma extend_exact_witness :
  ∃ r, (extend no_faults (u "line:8") 500 TakeoverConfig_default (minute 30) one_held).1 = Ok (Some r)
       ∧ until r = minute 540.
Proof.
  pose proof (extend_exact (u "line:8") 500 TakeoverConfig_default (minute 30) one_held
    takeover_codec_writable) as H.
  destruct (extend no_faults (u "line:8") 500 TakeoverConfig_default (minute 30) one_held) as [r d'].
  assert (active_at no_faults (u "line:8") (minute 30) one_held = Some other_record) as Ha by by_eval.
  rewrite Ha in H. destruct H as (rec & -> & _ & Hu & _).
  exists rec. split; [done|]. refine (eq_trans Hu _). by_eval.
Defined.

Lemma sweep_exact_witness :
  (sweep_expired no_faults (minute 70) (sweep_expired no_faults (minute 70) one_held).2).1 = [].
Proof.
  pose proof (sweep_exact (minute 70) one_held takeover_codec_writable) as H.
  destruct (sweep_expired no_faults (minute 70) one_held) as [out d'] eqn:E.
  destruct H as (_ & _ & H). cbn [snd].
  destruct (sweep_expired no_faults (minute 70) d').1 as [|r l] eqn:E2; [done|].
  destruct (H no_faults r). rewrite E2. apply list_elem_of_here.
Defined.

Lemma keyed_one_held : keyed (state_in ∅ one_held).
Proof.
  apply (begin_keyed other_request TakeoverConfig_default (minute 0) None takeover_codec_writable).
  intros k r Hr. change (state_in ∅ None) with (∅ : gmap ustr TakeoverRecord) in Hr.
  by rewrite lookup_empty in Hr.
Qed.

Lemma begin_swallows_expiry_witness :
  other_record
    ∉ (sweep_expired no_faults (minute 80)
         (begin no_faults chat_request TakeoverConfig_default (minute 70) one_held).2).1.
Proof.
  refine (proj2 (begin_swallows_expiry chat_request TakeoverConfig_default (minute 70) (minute 80)
    no_faults one_held (u "line:8") other_record takeover_codec_writable keyed_one_held _ _ _ _)).
  - by_eval.
  - by_eval.
  - by_eval.
  - by_eval.
Defined.

Lemma unreadable_file_unpauses_witness :
  active_at no_faults (u "line:8") (minute 30)
    (begin unreadable chat_request TakeoverConfig_default (minute 20) one_held).2 = None.
Proof.
  refine (proj1 (unreadable_file_unpauses chat_request TakeoverConfig_default (minute 20) (minute 30)
    one_held (u "line:8") other_record takeover_codec_writable _ _ _)).
  - by_eval.
  - by_eval.
  - by_eval.
Defined.
