(* ===== verification/Bytes.v ===== *)
(** * Byte strings

    Code that works with byte offsets of a [&str] ([find], slicing, [len]) is
    modelled on its UTF-8 bytes.  A pattern occurs in a string exactly where
    its bytes occur, so [str::find], [contains] and [starts_with] are the list
    operations of the prelude; slicing panics off a character boundary. *)

From S2P Require Import Prelude.

Abbreviation bytes := (list N).

(** An ASCII (or any) literal of the source, as bytes. *)
Definition b (s : string) : bytes := bytes_of_string s.

(** [str::find]. *)
Fixpoint find (s p : bytes) : option nat :=
  if starts_with s p then Some O
  else match s with [] => None | _ :: s' => S <$> find s' p end.

Definition strip_prefix (s p : bytes) : option bytes :=
  if starts_with s p then Some (drop (length p) s) else None.

Definition ends_with (s p : bytes) : bool := starts_with (rev s) (rev p).

Definition strip_suffix (s p : bytes) : option bytes :=
  if ends_with s p then Some (take (length s - length p) s) else None.

(** [str::split_once] with a character. *)
Fixpoint split_once (s : bytes) (c : N) : option (bytes * bytes) :=
  match s with
  | [] => None
  | x :: r =>
      if (x =? c)%N then Some ([], r)
      else (λ p : bytes * bytes, (x :: p.1, p.2)) <$> split_once r c
  end.

(** [str::is_char_boundary]: an end, or a byte that starts a character. *)
Definition is_char_boundary (s : bytes) (i : nat) : bool :=
  (i =? 0)%nat ||
  match s !! i with
  | Some x => negb ((128 <=? x) && (x <? 192))%N
  | None => (i =? length s)%nat
  end.

(** [&s[i..j]]: [None] is a panic. *)
Definition slice (s : bytes) (i j : nat) : option bytes :=
  if (i <=? j)%nat && (j <=? length s)%nat && is_char_boundary s i && is_char_boundary s j
  then Some (take (j - i) (drop i s))
  else None.

(** [split] of a byte. *)
Fixpoint split_at_byte (c : N) (s : bytes) : list bytes :=
  match s with
  | [] => [[]]
  | x :: r =>
      if (x =? c)%N then [] :: split_at_byte c r
      else match split_at_byte c r with t :: ts => (x :: t) :: ts | [] => [[x]] end
  end.

(** [str::rfind] with a string. *)
Fixpoint rfind (s p : bytes) : option nat :=
  match s with
  | [] => if is_empty p then Some 0%nat else None
  | _ :: r => match rfind r p with Some i => Some (S i) | None => if starts_with s p then Some 0%nat else None end
  end.

(** [join] with a separator. *)
Fixpoint join_with (sep : bytes) (l : list bytes) : bytes :=
  match l with
  | [] => []
  | [x] => x
  | x :: r => x ++ sep ++ join_with sep r
  end.

(** Lower-case hexadecimal. *)
Definition hex_digit (d : N) : N := (if d <? 10 then 48 + d else 87 + d)%N.
Definition hex_lower (bs : bytes) : bytes :=
  concat (map (λ x, [hex_digit (x / 16); hex_digit (x mod 16)]%N) bs).

(** ** Lemmas *)

Lemma starts_with_spec s p : starts_with s p = true ↔ ∃ r, s = p ++ r.
Proof.
  revert s. induction p as [|c p IH]; intros s.
  - split; [intros _; by exists s|by destruct s].
  - destruct s as [|d s]; [split; [done|by intros [r Hr]]|]. simpl.
    rewrite andb_true_iff, N.eqb_eq, IH. split.
    + intros [-> [r ->]]. by exists r.
    + intros [r Hr]. simplify_eq. eauto.
Qed.

Lemma starts_with_app p r : starts_with (p ++ r) p = true.
Proof. apply starts_with_spec. eauto. Qed.

Lemma find_unfold s p :
  find s p = if starts_with s p then Some O else match s with [] => None | _ :: s' => S <$> find s' p end.
Proof. by destruct s. Qed.

Lemma contains_unfold s p :
  contains s p = starts_with s p || match s with [] => false | _ :: s' => contains s' p end.
Proof. by destruct s. Qed.

Lemma find_none s p : find s p = None ↔ contains s p = false.
Proof.
  induction s as [|x s IH]; rewrite find_unfold, contains_unfold; destruct (starts_with _ p); simpl;
    [done..|]. rewrite fmap_None. done.
Qed.

Lemma find_bound s p i : find s p = Some i → (i + length p ≤ length s)%nat.
Proof.
  revert i. induction s as [|x s IH]; intros i; rewrite find_unfold;
    destruct (starts_with _ p) eqn:E; intros Hi; simplify_eq.
  1,2: apply starts_with_spec in E as [r ->]; rewrite length_app; lia.
  apply fmap_Some in Hi as (j & Hj & ->). apply IH in Hj. simpl. lia.
Qed.

Lemma starts_with_extend s r p : starts_with s p = true → starts_with (s ++ r) p = true.
Proof. rewrite !starts_with_spec. intros [q ->]. exists (q ++ r). by rewrite app_assoc. Qed.

Lemma contains_app_l s r p : contains (s ++ r) p = false → contains s p = false.
Proof.
  induction s as [|x s IH]; intros H; rewrite contains_unfold in H |- *.
  - apply orb_false_iff in H as [H _]. rewrite orb_false_r. apply not_true_iff_false.
    intros E. apply (starts_with_extend _ r) in E. simpl in *. congruence.
  - simpl in H. apply orb_false_iff in H as [H1 H2]. rewrite (IH H2), orb_false_r.
    apply not_true_iff_false. intros E. apply (starts_with_extend _ r) in E.
    simpl in *. congruence.
Qed.

Lemma contains_app_r s r p : contains (s ++ r) p = false → contains r p = false.
Proof.
  induction s as [|x s IH]; [done|]. intros H. rewrite contains_unfold in H.
  apply orb_false_iff in H as [_ H]. auto.
Qed.

Lemma contains_slice s i j p x : contains s p = false → slice s i j = Some x → contains x p = false.
Proof.
  intros Hs Hx. unfold slice in Hx. destruct (_ && _); [|done]. simplify_eq.
  apply (contains_app_l _ (drop (j - i) (drop i s))). rewrite take_drop.
  apply (contains_app_r (take i s)). by rewrite take_drop.
Qed.

(** A pattern whose first character occurs in it only once cannot straddle the
    start of another occurrence. *)
Lemma starts_with_straddle l c r p :
  starts_with (l ++ c :: r) p = true → c ∉ tl p → l ≠ [] → starts_with l p = true.
Proof.
  revert l. intros [|x l] H Hc Hn; [done|]. destruct p as [|d p]; [done|]. simpl in *.
  apply andb_true_iff in H as [H1 H2]. rewrite H1. simpl. clear Hn H1 d.
  revert p Hc H2. induction l as [|y l IH]; intros [|e p] Hc H2; simpl in *; try done.
  - apply andb_true_iff in H2 as [H2%N.eqb_eq _]. destruct Hc. subst. left.
  - apply andb_true_iff in H2 as [-> H2]. simpl. apply IH; [|done]. intros Hin. apply Hc. by right.
Qed.

Lemma find_after l c p r :
  contains l (c :: p) = false → c ∉ p → find (l ++ (c :: p) ++ r) (c :: p) = Some (length l).
Proof.
  intros Hl Hc. induction l as [|x l IH]; rewrite find_unfold.
  - pose proof (starts_with_app (c :: p) r) as E. cbn [app length] in *. by rewrite E.
  - rewrite contains_unfold in Hl. apply orb_false_iff in Hl as [H1 H2].
    destruct (starts_with ((x :: l) ++ (c :: p) ++ r) (c :: p)) eqn:E.
    + apply (starts_with_straddle (x :: l) c (p ++ r) (c :: p)) in E; [congruence|done|done].
    + cbn [app]. cbn [app] in IH. by rewrite IH.
Qed.

Lemma find_char l c r : c ∉ l → find (l ++ c :: r) [c] = Some (length l).
Proof.
  intros Hc. apply (find_after l c [] r); [|set_solver].
  induction l as [|x l IH]; [done|]. simpl.
  destruct (N.eqb_spec c x) as [->|Hne]; [set_solver|]. simpl. apply IH. set_solver.
Qed.

Lemma split_once_app l c r : c ∉ l → split_once (l ++ c :: r) c = Some (l, r).
Proof.
  induction l as [|x l IH]; intros Hc; simpl; [by rewrite N.eqb_refl|].
  destruct (N.eqb_spec x c) as [->|Hne]; [set_solver|]. rewrite IH by set_solver. done.
Qed.

Lemma split_once_spec s c l r : split_once s c = Some (l, r) → s = l ++ c :: r ∧ c ∉ l.
Proof.
  revert l. induction s as [|x s IH]; intros l; simpl; [done|].
  destruct (N.eqb_spec x c) as [->|Hne]; [intros; simplify_eq; set_solver|].
  intros ([l' r'] & E & H)%fmap_Some. simplify_eq/=. apply IH in E as [-> Hc]. set_solver.
Qed.

Lemma strip_prefix_app p r : strip_prefix (p ++ r) p = Some r.
Proof. unfold strip_prefix. by rewrite starts_with_app, drop_app_length. Qed.

Lemma strip_prefix_spec s p r : strip_prefix s p = Some r → s = p ++ r.
Proof.
  unfold strip_prefix. destruct (starts_with s p) eqn:E; [|done].
  apply starts_with_spec in E as [q ->]. rewrite drop_app_length. by intros; simplify_eq.
Qed.

Lemma strip_suffix_app s p : strip_suffix (s ++ p) p = Some s.
Proof.
  unfold strip_suffix, ends_with. rewrite rev_app_distr, starts_with_app, length_app.
  rewrite Nat.add_sub. by rewrite take_app_length.
Qed.

Lemma strip_suffix_spec s p r : strip_suffix s p = Some r → s = r ++ p.
Proof.
  unfold strip_suffix, ends_with. destruct (starts_with (rev s) (rev p)) eqn:E; [|done].
  apply starts_with_spec in E as [q Hq].
  assert (s = rev q ++ p) as -> by (rewrite <- (rev_involutive s), Hq, rev_app_distr, rev_involutive; done).
  rewrite length_app, Nat.add_sub, take_app_length. by intros; simplify_eq.
Qed.

(** What [find] finds: the leftmost occurrence, if there is one. *)
Lemma find_first s p i :
  find s p = Some i →
  ∃ a r, s = a ++ p ++ r ∧ length a = i ∧ ∀ a' r', s = a' ++ p ++ r' → (i ≤ length a')%nat.
Proof.
  revert i. induction s as [|x s IH]; intros i; rewrite find_unfold; destruct (starts_with _ p) eqn:Es.
  1,3: intros [= <-]; apply starts_with_spec in Es as [r Hr]; exists [], r; cbn; split_and!; [done|done|lia].
  - done.
  - intros (j & Hj & ->)%fmap_Some. destruct (IH j Hj) as (a & r & -> & Hl & Hmin). exists (x :: a), r. cbn.
    split_and!; [done|lia|]. intros [|y a'] r' He.
    + cbn in He. exfalso. rewrite <- not_true_iff_false in Es. apply Es, starts_with_spec. by exists r'.
    + cbn in He. injection He as <- He. apply Hmin in He. cbn. lia.
Qed.

Lemma find_occurs s a p r : s = a ++ p ++ r → ∃ i, find s p = Some i.
Proof.
  intros ->. destruct (find (a ++ p ++ r) p) as [i|] eqn:E; [by exists i|]. exfalso.
  apply find_none, contains_app_r in E. rewrite contains_unfold, starts_with_app in E. done.
Qed.
