(* ===== verification/Utf8.v ===== *)
(** * UTF-8 validation and lossy decoding ([str::from_utf8],
    [String::from_utf8_lossy])

    The decoder reads one character or one maximal invalid prefix of a
    character at a time; the lossy conversion writes U+FFFD for each of the
    latter. *)

From S2P Require Import Prelude.
From S2P Require Import Bytes.

Definition between (lo hi x : N) : bool := ((lo <=? x) && (x <=? hi))%N.
Definition cont (x : N) : bool := between 128 191 x.

(** The legal second bytes after a first byte of a three- or four-byte
    character. *)
Definition second_ok (x y : N) : bool :=
  (if x =? 224 then between 160 191 y
   else if x =? 237 then between 128 159 y
   else if x =? 240 then between 144 191 y
   else if x =? 244 then between 128 143 y
   else cont y)%N.

(** Whether the string starts with a character, and the length of that
    character (or of the invalid part). *)
Definition utf8_next (s : bytes) : bool * nat :=
  match s with
  | [] => (true, O)
  | x :: r =>
      if (x <? 128)%N then (true, 1%nat)
      else if between 194 223 x then
        match r with y :: _ => if cont y then (true, 2%nat) else (false, 1%nat) | [] => (false, 1%nat) end
      else if between 224 239 x then
        match r with
        | y :: r' =>
            if second_ok x y then
              match r' with z :: _ => if cont z then (true, 3%nat) else (false, 2%nat) | [] => (false, 2%nat) end
            else (false, 1%nat)
        | [] => (false, 1%nat)
        end
      else if between 240 244 x then
        match r with
        | y :: r' =>
            if second_ok x y then
              match r' with
              | z :: r'' =>
                  if cont z then
                    match r'' with
                    | w :: _ => if cont w then (true, 4%nat) else (false, 3%nat)
                    | [] => (false, 3%nat)
                    end
                  else (false, 2%nat)
              | [] => (false, 2%nat)
              end
            else (false, 1%nat)
        | [] => (false, 1%nat)
        end
      else (false, 1%nat)
  end.

Definition REPLACEMENT : bytes := [239; 191; 189]%N.

Fixpoint lossy_loop (fuel : nat) (s : bytes) : bytes :=
  match fuel, s with
  | O, _ | _, [] => []
  | S fuel', _ =>
      let '(ok, n) := utf8_next s in
      (if ok : bool then take n s else REPLACEMENT) ++ lossy_loop fuel' (drop n s)
  end.

Definition from_utf8_lossy (s : bytes) : bytes := lossy_loop (length s) s.

Fixpoint valid_loop (fuel : nat) (s : bytes) : bool :=
  match fuel, s with
  | O, _ | _, [] => true
  | S fuel', _ => let '(ok, n) := utf8_next s in ok && valid_loop fuel' (drop n s)
  end.

(** [String::from_utf8] succeeds. *)
Definition valid_utf8 (s : bytes) : bool := valid_loop (length s) s.

(** ** Lemmas *)

Lemma utf8_next_pos x r : (1 ≤ (utf8_next (x :: r)).2 ≤ S (length r))%nat.
Proof.
  unfold utf8_next.
  repeat match goal with
  | |- context [if ?t then _ else _] => destruct t
  | |- context [match ?l with [] => _ | _ :: _ => _ end] => is_var l; destruct l
  end; simpl; lia.
Qed.

Lemma lossy_valid_loop fuel s :
  (length s ≤ fuel)%nat → valid_loop fuel s = true → lossy_loop fuel s = s.
Proof.
  revert s. induction fuel as [|fuel IH]; intros [|x r] Hl Hv; simpl in Hl; try done; try lia.
  cbn [valid_loop lossy_loop] in *. pose proof (utf8_next_pos x r) as Hn.
  destruct (utf8_next (x :: r)) as [ok n]. cbn [snd] in Hn. apply andb_true_iff in Hv as [-> Hv].
  rewrite IH; [apply take_drop|rewrite length_drop; simpl; lia|done].
Qed.

(** A valid string is its own lossy decoding. *)
Lemma lossy_valid s : valid_utf8 s = true → from_utf8_lossy s = s.
Proof. by apply lossy_valid_loop. Qed.

Example lossy_truncated :
  from_utf8_lossy ([228; 189]%N ++ b "a") = REPLACEMENT ++ b "a" ∧ valid_utf8 (b "位元組") = true.
Proof. by vm_compute. Qed.

(** Validity of a concatenation. *)
Lemma utf8_next_app s r n :
  s ≠ [] → utf8_next s = (true, n) → utf8_next (s ++ r) = (true, n).
Proof.
  destruct s as [|x s]; [done|]. intros _. unfold utf8_next. cbn [app].
  repeat match goal with
  | |- context [if ?t then _ else _] => destruct t
  | |- context [match ?l ++ _ with [] => _ | _ :: _ => _ end] => is_var l; destruct l; cbn [app]
  end; done.
Qed.

Lemma valid_loop_fuel fuel fuel' s :
  (length s ≤ fuel)%nat → (length s ≤ fuel')%nat → valid_loop fuel s = valid_loop fuel' s.
Proof.
  revert fuel' s. induction fuel as [|fuel IH]; intros fuel' [|x s] H1 H2; simpl in H1, H2;
    [by destruct fuel'|lia|by destruct fuel'|]. destruct fuel' as [|fuel']; [lia|]. cbn [valid_loop].
  pose proof (utf8_next_pos x s) as Hn. destruct (utf8_next (x :: s)) as [[] n]; [|done]. cbn [snd andb] in *.
  apply IH; rewrite length_drop; simpl; lia.
Qed.

Lemma valid_utf8_app s r : valid_utf8 s = true → valid_utf8 r = true → valid_utf8 (s ++ r) = true.
Proof.
  intros Hs Hr. unfold valid_utf8 in Hs |- *. remember (length s) as fuel eqn:Hf.
  assert (length s ≤ fuel)%nat as Hle by lia. clear Hf. revert s Hle Hs.
  induction fuel as [|fuel IH]; intros [|x s] Hle Hs; simpl in Hle; try done; try lia.
  cbn [valid_loop] in Hs. pose proof (utf8_next_pos x s) as Hn.
  destruct (utf8_next (x :: s)) as [[] n] eqn:E; [|done]. cbn [snd andb] in *.
  change (length ((x :: s) ++ r)) with (S (length (s ++ r))). cbn [valid_loop].
  change ((x :: s) ++ r) with (x :: s ++ r) at 1.
  rewrite (utf8_next_app (x :: s) r n) by done. cbn [andb].
  assert (drop n ((x :: s) ++ r) = drop n (x :: s) ++ r) as Hd by (rewrite drop_app_le; [done|simpl; lia]).
  rewrite (valid_loop_fuel _ (length (drop n (x :: s) ++ r)));
    [rewrite Hd; apply IH; [rewrite length_drop; simpl; lia|done]| |rewrite <- Hd; done].
  rewrite length_drop. simpl. rewrite length_app. lia.
Qed.
