(* ===== verification/Chars.v ===== *)
(** * Texts and their bytes

    The UTF-8 encoding of a sequence of scalar values: it decodes back, it
    synchronizes (an encoded text occurs in another only at the boundaries of
    characters), and it is valid. *)

From S2P Require Import Prelude.
From S2P Require Import Bytes.
From S2P Require Import Utf8.

(** A Unicode scalar value. *)
Definition is_scalar (c : N) : bool := ((c <? 55296) || ((57344 <=? c) && (c <? 1114112)))%N.
Definition is_text (s : ustr) : Prop := forallb is_scalar s = true.

(** [char::len_utf8]. *)
Definition len_utf8 (c : N) : nat := length (utf8_char c).

(** [char::is_control]: the category Cc. *)
Definition is_control (c : N) : bool := ((c <? 32) || ((127 <=? c) && (c <? 160)))%N.

(** [str::trim] of bytes. *)
Definition trim_bytes (s : bytes) : bytes := utf8_encode (trim (utf8_decode s)).

Definition is_cont (x : N) : bool := ((128 <=? x) && (x <? 192))%N.

Lemma split_64 (c : N) : (c = 64 * (c / 64) + c mod 64 ∧ c mod 64 < 64)%N.
Proof. split; [apply N.div_mod; lia|by apply N.mod_lt]. Qed.

Lemma div_4096 (c : N) : (c / 4096 = c / 64 / 64)%N.
Proof. by rewrite N.Div0.div_div. Qed.
Lemma div_262144 (c : N) : (c / 262144 = c / 64 / 64 / 64)%N.
Proof. by rewrite !N.Div0.div_div. Qed.

(** A first byte that is no continuation, and continuations after it. *)
Lemma utf8_char_shape c : ∃ h t, utf8_char c = h :: t ∧ is_cont h = false ∧ forallb is_cont t = true.
Proof.
  unfold utf8_char.
  assert (∀ x, is_cont (128 + x mod 64) = true)%N as Hc.
  { intros x. destruct (split_64 x) as [_ Hx]. revert Hx. generalize (x mod 64)%N. intros m Hm. unfold is_cont.
    apply andb_true_iff; split; [apply N.leb_le|apply N.ltb_lt]; lia. }
  assert (∀ k x, (192 <= k)%N → is_cont (k + x) = false)%N as Hl.
  { intros k x Hk. unfold is_cont. rewrite (proj2 (N.ltb_ge _ _)) by lia. by rewrite andb_false_r. }
  destruct (N.ltb_spec c 128) as [H1|H1].
  { eexists _, _. split; [done|]. split; [|done]. unfold is_cont. by rewrite (proj2 (N.leb_gt _ _)) by lia. }
  destruct (N.ltb_spec c 2048); [|destruct (N.ltb_spec c 65536)]; eexists _, _; (split; [done|]); cbn [forallb]; rewrite !Hc;
    (split; [|done]); apply Hl; lia.
Qed.

Lemma utf8_decode_char c r : utf8_decode (utf8_char c ++ r) = c :: utf8_decode r.
Proof.
  unfold utf8_char. destruct (split_64 c) as [E0 L0]. destruct (split_64 (c / 64)) as [E1 L1].
  destruct (split_64 (c / 64 / 64)) as [E2 L2]. rewrite div_262144, div_4096.
  revert E0 E1 E2 L0 L1 L2.
  generalize (c / 64 / 64 / 64)%N ((c / 64 / 64) mod 64)%N. intros q3 m2.
  generalize (c / 64 / 64)%N ((c / 64) mod 64)%N. intros q2 m1.
  generalize (c / 64)%N (c mod 64)%N. intros q1 m0 E0 E1 E2 L0 L1 L2.
  destruct (N.ltb_spec c 128) as [H1|H1].
  { cbn [utf8_decode app]. by rewrite (proj2 (N.ltb_lt c 128)). }
  destruct (N.ltb_spec c 2048) as [H2|H2]; [|destruct (N.ltb_spec c 65536) as [H3|H3]]; cbn [utf8_decode app];
    rewrite (proj2 (N.ltb_ge _ 128)) by lia.
  - rewrite (proj2 (N.ltb_lt _ 224)) by lia. f_equal. lia.
  - rewrite (proj2 (N.ltb_ge _ 224)), (proj2 (N.ltb_lt _ 240)) by lia. f_equal. lia.
  - rewrite (proj2 (N.ltb_ge _ 224)), (proj2 (N.ltb_ge _ 240)) by lia. f_equal. lia.
Qed.

Lemma utf8_encode_cons c s : utf8_encode (c :: s) = utf8_char c ++ utf8_encode s.
Proof. done. Qed.
Lemma utf8_encode_app s t : utf8_encode (s ++ t) = utf8_encode s ++ utf8_encode t.
Proof. unfold utf8_encode. by rewrite map_app, concat_app. Qed.

(** Bytes decode back. *)
Lemma utf8_decode_encode s : utf8_decode (utf8_encode s) = s.
Proof. induction s as [|c s IH]; [done|]. by rewrite utf8_encode_cons, utf8_decode_char, IH. Qed.

Lemma utf8_char_app_inj c d r r' : utf8_char c ++ r = utf8_char d ++ r' → c = d ∧ r = r'.
Proof.
  intros He. assert (c = d) as <-.
  { apply (f_equal utf8_decode) in He. rewrite !utf8_decode_char in He. congruence. }
  split; [done|]. by apply app_inv_head in He.
Qed.

(** A text's bytes that start with another's are those of a longer text. *)
Lemma utf8_encode_prefix n s r : utf8_encode s = utf8_encode n ++ r → ∃ s', s = n ++ s' ∧ r = utf8_encode s'.
Proof.
  revert s. induction n as [|c n IH]; intros s He; [by exists s|].
  rewrite utf8_encode_cons, <- app_assoc in He. destruct s as [|d s].
  - destruct (utf8_char_shape c) as (h & t & Hc & _). rewrite Hc in He. done.
  - rewrite utf8_encode_cons in He. apply utf8_char_app_inj in He as [-> He].
    apply IH in He as (s' & -> & ->). by exists s'.
Qed.

(** Self-synchronization. *)
Lemma utf8_encode_sync s p n r :
  n ≠ [] → utf8_encode s = p ++ utf8_encode n ++ r → ∃ s1 s2, s = s1 ++ n ++ s2 ∧ p = utf8_encode s1 ∧ r = utf8_encode s2.
Proof.
  intros Hn. revert p. induction s as [|c s IH]; intros p He.
  { destruct n as [|d n]; [done|]. rewrite utf8_encode_cons in He. destruct (utf8_char_shape d) as (h & t & Hd & _).
    rewrite Hd in He. by destruct p. }
  destruct p as [|x p].
  { apply utf8_encode_prefix in He as (s' & Hs & ->). by exists [], s'. }
  rewrite utf8_encode_cons in He. destruct (utf8_char_shape c) as (h & t & Hc & Hh & Ht). rewrite Hc in He.
  cbn in He. injection He as <- He.
  assert (∃ p', p = t ++ p') as [p' ->].
  { clear IH Hc. revert p He. induction t as [|y t IHt]; intros p He; [by exists p|].
    cbn in Ht. apply andb_true_iff in Ht as [Hy Ht]. destruct p as [|z p].
    - exfalso. destruct n as [|d n]; [done|]. destruct (utf8_char_shape d) as (h' & t' & Hd & Hh' & _).
      rewrite utf8_encode_cons, Hd in He. cbn in He. injection He as -> _. congruence.
    - cbn in He. injection He as -> He. destruct (IHt Ht p He) as [p' ->]. by exists p'. }
  rewrite <- app_assoc in He. apply app_inv_head in He.
  apply IH in He as (s1 & s2 & -> & -> & ->). exists (c :: s1), s2. by rewrite utf8_encode_cons, Hc.
Qed.

(** Where texts meet is a character boundary. *)
Lemma boundary_encode s t : is_char_boundary (utf8_encode s ++ utf8_encode t) (length (utf8_encode s)) = true.
Proof.
  unfold is_char_boundary. apply orb_true_iff. right. rewrite lookup_app_r, Nat.sub_diag by done.
  destruct t as [|c t].
  - cbn. rewrite app_nil_r. apply Nat.eqb_refl.
  - rewrite utf8_encode_cons. destruct (utf8_char_shape c) as (h & t' & -> & Hh & _). cbn. unfold is_cont in Hh. by rewrite Hh.
Qed.

Lemma boundary_end s : is_char_boundary s (length s) = true.
Proof.
  unfold is_char_boundary. apply orb_true_iff. right. rewrite lookup_ge_None_2 by done. apply Nat.eqb_refl.
Qed.

Lemma slice_encode s t r :
  slice (utf8_encode (s ++ t ++ r)) (length (utf8_encode s)) (length (utf8_encode (s ++ t))) = Some (utf8_encode t).
Proof.
  unfold slice. rewrite (app_assoc s t r), (utf8_encode_app (s ++ t) r).
  assert (is_char_boundary (utf8_encode (s ++ t) ++ utf8_encode r) (length (utf8_encode s)) = true) as ->.
  { rewrite utf8_encode_app, <- app_assoc, <- utf8_encode_app. apply boundary_encode. }
  rewrite boundary_encode, utf8_encode_app, !length_app.
  rewrite (proj2 (Nat.leb_le _ _)) by lia. rewrite (proj2 (Nat.leb_le _ _)) by lia. cbn [andb]. f_equal.
  rewrite <- app_assoc, drop_app_length. replace (_ - _)%nat with (length (utf8_encode t)) by lia. apply take_app_length.
Qed.

(** The decoder reads an encoded scalar value. *)
Lemma utf8_next_char c r : is_scalar c = true → utf8_next (utf8_char c ++ r) = (true, len_utf8 c).
Proof.
  intros Hs. unfold len_utf8, utf8_char. destruct (split_64 c) as [E0 L0]. destruct (split_64 (c / 64)) as [E1 L1].
  destruct (split_64 (c / 64 / 64)) as [E2 L2]. rewrite div_262144, div_4096.
  revert E0 E1 E2 L0 L1 L2.
  generalize (c / 64 / 64 / 64)%N ((c / 64 / 64) mod 64)%N. intros q3 m2.
  generalize (c / 64 / 64)%N ((c / 64) mod 64)%N. intros q2 m1.
  generalize (c / 64)%N (c mod 64)%N. intros q1 m0 E0 E1 E2 L0 L1 L2.
  assert (∀ m, (m < 64)%N → cont (128 + m) = true) as Hc.
  { intros m Hm. unfold cont, between. apply andb_true_iff; split; apply N.leb_le; lia. }
  assert (∀ lo hi x, (lo <= x <= hi)%N → between lo hi x = true) as Hin.
  { intros lo hi x Hx. unfold between. apply andb_true_iff; split; apply N.leb_le; lia. }
  assert (∀ lo hi x, (hi < x)%N → between lo hi x = false) as Hout.
  { intros lo hi x Hx. unfold between. apply andb_false_iff; right; apply N.leb_gt; lia. }
  unfold is_scalar in Hs. apply orb_true_iff in Hs. rewrite andb_true_iff, N.leb_le, !N.ltb_lt in Hs.
  destruct (N.ltb_spec c 128) as [H1|H1].
  { cbn [utf8_next app]. by rewrite (proj2 (N.ltb_lt c 128)). }
  destruct (N.ltb_spec c 2048) as [H2|H2]; [|destruct (N.ltb_spec c 65536) as [H3|H3]]; cbn [utf8_next app length];
    rewrite (proj2 (N.ltb_ge _ 128)) by lia.
  - rewrite (Hin 194 223)%N, Hc by lia. done.
  - rewrite (Hout 194 223)%N, (Hin 224 239)%N by lia.
    assert (second_ok (224 + q2) (128 + m1) = true)%N as ->; [|by rewrite Hc].
    unfold second_ok. destruct (N.eqb_spec (224 + q2) 224); [apply Hin; lia|].
    destruct (N.eqb_spec (224 + q2) 237); [apply Hin; lia|].
    rewrite (proj2 (N.eqb_neq _ 240)), (proj2 (N.eqb_neq _ 244)) by lia. by apply Hc.
  - rewrite (Hout 194 223)%N, (Hout 224 239)%N, (Hin 240 244)%N by lia.
    assert (second_ok (240 + q3) (128 + m2) = true)%N as ->; [|by rewrite !Hc].
    unfold second_ok. rewrite (proj2 (N.eqb_neq _ 224)), (proj2 (N.eqb_neq _ 237)) by lia.
    destruct (N.eqb_spec (240 + q3) 240); [apply Hin; lia|].
    destruct (N.eqb_spec (240 + q3) 244); [apply Hin; lia|]. by apply Hc.
Qed.

Lemma len_utf8_pos c : (0 < len_utf8 c)%nat.
Proof. unfold len_utf8. destruct (utf8_char_shape c) as (h & t & -> & _). cbn. lia. Qed.

(** The bytes of a text are valid. *)
Lemma valid_encode s : is_text s → valid_utf8 (utf8_encode s) = true.
Proof.
  unfold is_text. induction s as [|c s IH]; [done|]. cbn [forallb]. intros [Hc Hs]%andb_true_iff.
  rewrite utf8_encode_cons. apply valid_utf8_app; [|by apply IH].
  unfold valid_utf8. pose proof (utf8_next_char c [] Hc) as Hn. rewrite app_nil_r in Hn.
  destruct (utf8_char_shape c) as (h & t & Hch & _). rewrite Hch in *. cbn [length valid_loop]. rewrite Hn. cbn [andb].
  unfold len_utf8. rewrite Hch, drop_ge by done. by destruct (length t).
Qed.

(** The bytes of a Rust string. *)
Definition is_str (bs : bytes) : Prop := ∃ t, is_text t ∧ bs = utf8_encode t.

Lemma utf8_char_ascii c : (c < 128)%N → utf8_char c = [c].
Proof. intros Hc. unfold utf8_char. by rewrite (proj2 (N.ltb_lt c 128)). Qed.

(** A string splits at an ASCII byte into strings. *)
Lemma encode_split_ascii t p c r :
  (c < 128)%N → utf8_encode t = p ++ c :: r → ∃ t1 t2, t = t1 ++ c :: t2 ∧ p = utf8_encode t1 ∧ r = utf8_encode t2.
Proof.
  intros Hc He. apply (utf8_encode_sync t p [c] r); [done|].
  rewrite utf8_encode_cons, utf8_char_ascii by done. cbn. by rewrite He.
Qed.

Lemma is_str_split s p c r : (c < 128)%N → is_str s → s = p ++ c :: r → is_str p ∧ is_str r.
Proof.
  intros Hc (t & Ht & ->) He. destruct (encode_split_ascii t p c r Hc He) as (t1 & t2 & -> & -> & ->).
  unfold is_text in Ht. rewrite forallb_app in Ht. apply andb_true_iff in Ht as [H1 H2].
  cbn in H2. apply andb_true_iff in H2 as [_ H2]. split; [by exists t1|by exists t2].
Qed.

(** An ASCII byte of a string is a character of it. *)
Lemma ascii_byte_char s c : (c < 128)%N → is_str s → c ∈ s → c ∈ utf8_decode s.
Proof.
  intros Hc (t & _ & ->) (p & r & He)%list_elem_of_split. rewrite utf8_decode_encode.
  destruct (encode_split_ascii t p c r Hc He) as (t1 & t2 & -> & _). apply elem_of_app. right. by left.
Qed.

Lemma is_str_valid s : is_str s → valid_utf8 s = true.
Proof. intros (t & Ht & ->). by apply valid_encode. Qed.
