(* ===== verification/TextUtils.v ===== *)
(** * Cutting texts (crates/duduclaw-core/src/text_utils.rs) *)

From S2P Require Import Prelude.
From S2P Require Import Bytes.
From S2P Require Import Utf8.
From S2P Require Import Chars.

(** The walk back to a boundary. *)
Fixpoint boundary_at_most (s : bytes) (end_ : nat) : nat :=
  match end_ with
  | O => O
  | S e => if is_char_boundary s end_ then end_ else boundary_at_most s e
  end.
Definition truncate_bytes (s : bytes) (max_bytes : nat) : bytes :=
  if (length s <=? max_bytes)%nat then s else take (boundary_at_most s max_bytes) s.

Lemma boundary_at_most_spec s e :
  (boundary_at_most s e ≤ e)%nat ∧ is_char_boundary s (boundary_at_most s e) = true.
Proof.
  induction e as [|e (IH1 & IH2)]; cbn [boundary_at_most]; [by split|].
  destruct (is_char_boundary s (S e)) eqn:E; [by split|]. split; [lia|done].
Qed.

(** A prefix within the budget. *)
Lemma truncate_bytes_prefix s n : ∃ r, s = truncate_bytes s n ++ r ∧ (length (truncate_bytes s n) ≤ n)%nat.
Proof.
  unfold truncate_bytes. destruct (Nat.leb_spec (length s) n) as [Hle|Hgt].
  - exists []. by rewrite app_nil_r.
  - destruct (boundary_at_most_spec s n) as [H1 _]. exists (drop (boundary_at_most s n) s).
    rewrite take_drop, length_take. split; [done|lia].
Qed.

Lemma truncate_bytes_id s n : (length s ≤ n)%nat → truncate_bytes s n = s.
Proof. intros Hle. unfold truncate_bytes. by rewrite (proj2 (Nat.leb_le _ _) Hle). Qed.
