(* ===== verification/RedactToken.v ===== *)
(** * Redaction tokens (crates/duduclaw-redaction/src/token.rs, and the token
    scan of pipeline.rs)

    [<REDACT:CATEGORY:hash>] tokens: construction, parsing, the left-to-right
    rewriting of the tokens of a text.  HMAC-SHA256 is the interface [Hmac]. *)

From S2P Require Import Prelude.
From S2P Require Import Bytes.

Definition TOKEN_PREFIX : bytes := b "<REDACT:".
Definition TOKEN_SUFFIX : bytes := b ">".
Definition TOKEN_HASH_LEN : nat := 32.
Definition CATEGORY_MAX_LEN : nat := 32.

Inductive RedactionError :=
| Vault (reason : bytes)
| RuleCompile (rule_id reason : bytes)
| Crypto (reason : bytes)
| InvalidToken (s : bytes)
| Config (reason : bytes)
| Sqlite
| Json.

(** A token is its wire form. *)
Record Token := { as_str : bytes }.

#[export] Instance Token_eq_dec : EqDecision Token.
Proof. solve_decision. Defined.

Definition category_byte (x : N) : bool :=
  (((65 <=? x) && (x <=? 90)) || ((48 <=? x) && (x <=? 57)) || (x =? 95))%N.
Definition hash_byte (x : N) : bool :=
  (((48 <=? x) && (x <=? 57)) || ((97 <=? x) && (x <=? 102)))%N.

Definition validate_category (category : bytes) : result unit RedactionError :=
  if is_empty category || (CATEGORY_MAX_LEN <? length category)%nat then
    Err (InvalidToken (b "category length out of range: " ++ show_nat (length category)))
  else if negb (forallb category_byte category) then
    Err (InvalidToken (b "category contains invalid characters: " ++ category))
  else Ok tt.

Definition validate_hash (hash : bytes) : result unit RedactionError :=
  if negb (length hash =? TOKEN_HASH_LEN)%nat then
    Err (InvalidToken (b "hash length must be " ++ show_nat TOKEN_HASH_LEN ++ b ", got "
                         ++ show_nat (length hash)))
  else if negb (forallb hash_byte hash) then
    Err (InvalidToken (b "hash must be lowercase hex: " ++ hash))
  else Ok tt.

(** The wire form of a category and a hash. *)
Definition wire (category hash : bytes) : bytes :=
  TOKEN_PREFIX ++ category ++ b ":" ++ hash ++ TOKEN_SUFFIX.

(** [Token::new]. *)
Definition Token_new (category hash : bytes) : result Token RedactionError :=
  match validate_category category with
  | Err e => Err e
  | Ok _ =>
      match validate_hash hash with
      | Err e => Err e
      | Ok _ => Ok {| as_str := wire category hash |}
      end
  end.

(** [Token::parse]. *)
Definition parse (s : bytes) : option Token :=
  body ← strip_prefix s TOKEN_PREFIX;
  body ← strip_suffix body TOKEN_SUFFIX;
  '(category, hash) ← split_once body 58;
  match validate_category category, validate_hash hash with
  | Ok _, Ok _ => Some {| as_str := s |}
  | _, _ => None
  end.

(** The text between prefix and suffix ([&self.0[..]] on fixed offsets). *)
Definition body_of (t : Token) : bytes :=
  take (length (as_str t) - length TOKEN_SUFFIX - length TOKEN_PREFIX)
    (drop (length TOKEN_PREFIX) (as_str t)).

Definition category (t : Token) : bytes :=
  match split_once (body_of t) 58 with Some (c, _) => c | None => [] end.
Definition hash (t : Token) : bytes :=
  match split_once (body_of t) 58 with Some (_, h) => h | None => [] end.

(** [Token::from_str]. *)
Definition from_str (s : bytes) : result Token RedactionError :=
  match parse s with Some t => Ok t | None => Err (InvalidToken s) end.

(** ** Hashes *)

(** HMAC-SHA256: 32 bytes for every key and message. *)
Class Hmac := {
  hmac_sha256 : bytes → bytes → bytes;
  hmac_length k m : length (hmac_sha256 k m) = 32%nat;
  hmac_bytes k m : Forall (λ x, (x < 256)%N) (hmac_sha256 k m);
}.

Definition SESSION_HASH_BYTES : nat := (TOKEN_HASH_LEN / 2)%nat.

Section hashes.
Context `{Hmac}.

Definition session_hash (salt original : bytes) : bytes :=
  hex_lower (take SESSION_HASH_BYTES (hmac_sha256 salt original)).
Definition derive_session_salt (agent_key session_id : bytes) : bytes :=
  hmac_sha256 agent_key (b "session:" ++ session_id).
Definition derive_stable_salt (agent_key : bytes) : bytes := hmac_sha256 agent_key (b "stable").
End hashes.

(** ** Rewriting the tokens of a text *)

Inductive TokenAction :=
| Keep
| Replace (s : bytes).

(** The loop of [rewrite_tokens]; [decide] threads the state its closure
    captures.  Every turn consumes at least one byte. *)
Fixpoint rewrite_loop {St} (decide : Token → St → TokenAction * St) (fuel : nat)
    (out rest : bytes) (st : St) : bytes * St :=
  match fuel with
  | O => (out ++ rest, st)
  | S fuel' =>
      match find rest TOKEN_PREFIX with
      | None => (out ++ rest, st)
      | Some start =>
          let out := out ++ take start rest in
          let from := drop start rest in
          match find from TOKEN_SUFFIX with
          | None => (out ++ from, st)
          | Some end_rel =>
              let len := (end_rel + length TOKEN_SUFFIX)%nat in
              let candidate := take len from in
              let '(piece, st') :=
                match parse candidate with
                | Some tok =>
                    match decide tok st with
                    | (Replace plain, st') => (plain, st')
                    | (Keep, st') => (candidate, st')
                    end
                | None => (candidate, st)
                end in
              rewrite_loop decide fuel' (out ++ piece) (drop len from) st'
          end
      end
  end.

Definition rewrite_tokens {St} (decide : Token → St → TokenAction * St) (text : bytes) (st : St)
    : bytes * St := rewrite_loop decide (S (length text)) [] text st.

(** [token_spans]. *)
Fixpoint spans_loop (fuel offset : nat) (rest : bytes) : list (nat * nat) :=
  match fuel with
  | O => []
  | S fuel' =>
      match find rest TOKEN_PREFIX with
      | None => []
      | Some start =>
          let from := drop start rest in
          match find from TOKEN_SUFFIX with
          | None => []
          | Some end_rel =>
              let len := (end_rel + length TOKEN_SUFFIX)%nat in
              match parse (take len from) with
              | Some _ => [(offset + start, offset + start + len)]%nat
              | None => []
              end ++ spans_loop fuel' (offset + start + len) (drop len from)
          end
      end
  end.

Definition token_spans (text : bytes) : list (nat * nat) := spans_loop (S (length text)) 0 text.

Definition overlaps_any (start end_ : nat) (spans : list (nat * nat)) : bool :=
  existsb (λ p : nat * nat, (start <? p.2)%nat && (p.1 <? end_)%nat) spans.

(** [mask_tokens_for_display] and its placeholder. *)
Definition display_placeholder (category : bytes) : bytes :=
  b "〔已遮蔽·" ++ category ++ b "〕".
Definition mask_tokens_for_display (text : bytes) : bytes :=
  if negb (contains text TOKEN_PREFIX) then text
  else (rewrite_tokens (λ tok (st : unit), (Replace (display_placeholder (category tok)), st)) text tt).1.

(** ** Tokens round-trip *)

Lemma validate_category_ok c :
  validate_category c = Ok tt ↔ c ≠ [] ∧ (length c ≤ CATEGORY_MAX_LEN)%nat ∧ forallb category_byte c = true.
Proof.
  unfold validate_category. destruct c as [|x c]; [naive_solver|]. simpl is_empty. rewrite orb_false_l.
  destruct (_ <? _)%nat eqn:E; reflect_bools; [split; [done|intros (_ & ? & _); lia]|].
  destruct (forallb category_byte (x :: c)); naive_solver.
Qed.

Lemma validate_hash_ok h :
  validate_hash h = Ok tt ↔ length h = TOKEN_HASH_LEN ∧ forallb hash_byte h = true.
Proof.
  unfold validate_hash. destruct (Nat.eqb_spec (length h) TOKEN_HASH_LEN) as [->|Hn]; simpl; [|naive_solver].
  destruct (forallb hash_byte h); naive_solver.
Qed.

Lemma forallb_not_in (f : N → bool) (l : bytes) (x : N) : forallb f l = true → f x = false → x ∉ l.
Proof.
  intros H Hx Hin. rewrite forallb_forall in H. apply list_elem_of_In, H in Hin. congruence.
Qed.

(** What parses is a wire form, and the other way round. *)
Definition well_formed (c h : bytes) : Prop := validate_category c = Ok tt ∧ validate_hash h = Ok tt.

Lemma category_no x c h : well_formed c h → x ∈ [58; 60; 62]%N → x ∉ c.
Proof.
  intros [Hc%validate_category_ok _] Hx. eapply forallb_not_in; [apply Hc|].
  by repeat (apply elem_of_cons in Hx as [->|Hx]; [done|]); apply elem_of_nil in Hx.
Qed.

Lemma hash_no x c h : well_formed c h → x ∈ [58; 60; 62]%N → x ∉ h.
Proof.
  intros [_ Hh%validate_hash_ok] Hx. eapply forallb_not_in; [apply Hh|].
  by repeat (apply elem_of_cons in Hx as [->|Hx]; [done|]); apply elem_of_nil in Hx.
Qed.

Lemma wire_split c h : well_formed c h → split_once (c ++ b ":" ++ h) 58 = Some (c, h).
Proof. intros H. apply split_once_app. eapply category_no; [done|]. set_solver. Qed.

Lemma wire_body c h : strip_suffix (c ++ b ":" ++ h ++ TOKEN_SUFFIX) TOKEN_SUFFIX = Some (c ++ b ":" ++ h).
Proof. rewrite !app_assoc, strip_suffix_app, <- !app_assoc. done. Qed.

Lemma parse_wire c h : well_formed c h → parse (wire c h) = Some {| as_str := wire c h |}.
Proof.
  intros H. unfold parse, wire. rewrite strip_prefix_app. cbn [mbind option_bind].
  rewrite wire_body. cbn [mbind option_bind]. rewrite (wire_split _ _ H). cbn [mbind option_bind].
  by destruct H as [-> ->].
Qed.

Lemma parse_spec s t :
  parse s = Some t ↔ ∃ c h, well_formed c h ∧ s = wire c h ∧ t = {| as_str := s |}.
Proof.
  split.
  - unfold parse. intros (body & Hp & H)%bind_Some. apply bind_Some in H as (body2 & Hs & H).
    apply bind_Some in H as ([c h] & Hsp & H).
    destruct (validate_category c) as [[]|] eqn:Ec; [|done].
    destruct (validate_hash h) as [[]|] eqn:Eh; [|done]. simplify_eq.
    exists c, h. split_and!; [done| |done].
    apply strip_prefix_spec in Hp as ->. apply strip_suffix_spec in Hs as ->.
    apply split_once_spec in Hsp as [-> _]. unfold wire. by rewrite <- app_assoc.
  - intros (c & h & H & -> & ->). by apply parse_wire.
Qed.

Lemma body_of_wire c h : body_of {| as_str := wire c h |} = c ++ b ":" ++ h.
Proof.
  unfold body_of, wire. cbn [as_str]. rewrite drop_app_length, length_app.
  replace (length TOKEN_PREFIX + _ - _ - length TOKEN_PREFIX)%nat
    with (length (c ++ b ":" ++ h)) by (rewrite !length_app; simpl; lia).
  rewrite !app_assoc. rewrite <- (app_assoc c). apply take_app_length.
Qed.

(** Tokens round-trip: what [Token::new] builds parses back to itself, with
    the category and the hash it was built from; and a string parses exactly
    when it is the wire form of a pair [Token::new] accepts. *)
Theorem token_roundtrip c h s t :
  (Token_new c h = Ok t → parse (as_str t) = Some t ∧ category t = c ∧ hash t = h)
  ∧ (parse s = Some t ↔ ∃ c' h', Token_new c' h' = Ok t ∧ as_str t = s).
Proof.
  assert (∀ c h t, Token_new c h = Ok t ↔ well_formed c h ∧ t = {| as_str := wire c h |}) as Hnew.
  { intros c' h' t'. unfold Token_new, well_formed.
    destruct (validate_category c') as [[]|], (validate_hash h') as [[]|]; naive_solver. }
  split.
  - intros [H ->]%Hnew. cbn [as_str]. unfold category, hash.
    rewrite body_of_wire, (wire_split _ _ H), parse_wire; done.
  - rewrite parse_spec. setoid_rewrite Hnew. split.
    + intros (c' & h' & H & -> & ->). by exists c', h'.
    + intros (c' & h' & [H ->] & <-). by exists c', h'.
Qed.

(** ** Rewriting a text piece by piece *)

Definition literal (l : bytes) : Prop := contains l TOKEN_PREFIX = false.

(** A byte that is not in a literal. *)
Ltac not_in_literal := apply (bool_decide_eq_true_1 _); vm_compute; reflexivity.

Lemma find_token l c h r :
  literal l → find (l ++ wire c h ++ r) TOKEN_PREFIX = Some (length l).
Proof.
  intros Hl. unfold wire. rewrite <- (app_assoc TOKEN_PREFIX).
  apply (find_after l 60 (b "REDACT:")); [done|]. not_in_literal.
Qed.

Lemma find_suffix c h r :
  well_formed c h →
  find (wire c h ++ r) TOKEN_SUFFIX = Some (length (wire c h) - 1)%nat.
Proof.
  intros H.
  assert (wire c h ++ r = (TOKEN_PREFIX ++ c ++ b ":" ++ h) ++ 62%N :: r) as ->
    by (unfold wire; rewrite <- !app_assoc; done).
  rewrite find_char.
  - f_equal. unfold wire. rewrite !length_app. simpl. lia.
  - rewrite !not_elem_of_app. split_and!;
      [not_in_literal|eapply category_no; [done|set_solver]|not_in_literal|eapply hash_no; [done|set_solver]].
Qed.

Lemma wire_length_pos c h : (0 < length (wire c h))%nat.
Proof. unfold wire. rewrite length_app. simpl. lia. Qed.

Section rewriting.
Context {St : Type} (decide : Token → St → TokenAction * St).

(** What one token becomes. *)
Definition piece_of (t : Token) (st : St) : bytes * St :=
  match decide t st with
  | (Replace plain, st') => (plain, st')
  | (Keep, st') => (as_str t, st')
  end.

Lemma rewrite_literal fuel out l st :
  literal l → rewrite_loop decide fuel out l st = (out ++ l, st).
Proof.
  intros Hl. destruct fuel; [done|]. simpl. by rewrite (proj2 (find_none _ _) Hl).
Qed.

Lemma rewrite_token fuel out l c h r st :
  literal l → well_formed c h →
  rewrite_loop decide (S fuel) out (l ++ wire c h ++ r) st
  = rewrite_loop decide fuel (out ++ l ++ (piece_of {| as_str := wire c h |} st).1) r
      (piece_of {| as_str := wire c h |} st).2.
Proof.
  intros Hl H. cbn [rewrite_loop]. rewrite find_token by done. cbv zeta.
  rewrite take_app_length, drop_app_length, find_suffix by done.
  replace (length (wire c h) - 1 + length TOKEN_SUFFIX)%nat with (length (wire c h))
    by (pose proof (wire_length_pos c h); simpl; lia).
  rewrite take_app_length, drop_app_length, (parse_wire _ _ H). unfold piece_of.
  destruct (decide _ st) as [[|plain] st'] eqn:E; cbn [fst snd]; by rewrite <- app_assoc.
Qed.
End rewriting.

(** A stand-in for HMAC-SHA256 that keeps the first bytes of the message. *)
Definition demo_hmac : Hmac.
Proof.
  refine {| hmac_sha256 _ m := take 32 (map (λ x, x mod 256)%N m ++ replicate 32 0%N) |}.
  - intros _ m. rewrite length_take, length_app, length_map, length_replicate. lia.
  - intros _ m. apply Forall_take, Forall_app. split.
    + apply List.Forall_forall. intros x (y & <- & _)%in_map_iff. by apply N.mod_lt.
    + by apply Forall_replicate.
Defined.
