(* ===== verification/Vault.v ===== *)
(** * The redaction vault (crates/duduclaw-redaction/src/vault/store.rs, with
    [RestoreScope] of rules/mod.rs and [Caller] of source.rs)

    The encrypted table of token mappings: one row per (token, agent,
    session).  SQLite's choice of one row among several, the cipher of the
    per-agent key and [serde_json] on the stored scope are the interface
    [VaultPlatform]. *)

From S2P Require Import Prelude.
From S2P Require Import Bytes.
From S2P Require Import Utf8.
From S2P Require Import RedactToken.

(** ** Who may see a value *)

Record Caller := { caller_agent : bytes; scopes : list bytes; is_owner : bool }.

Definition owner (agent_id : bytes) : Caller :=
  {| caller_agent := agent_id; scopes := []; is_owner := true |}.
Definition agent (agent_id : bytes) (ss : list bytes) : Caller :=
  {| caller_agent := agent_id; scopes := ss; is_owner := false |}.
Definition has_scope (c : Caller) (scope : bytes) : bool := existsb (ustr_eqb scope) (scopes c).

Inductive RestoreScope :=
| Owner
| AnyScope (scope : bytes)
| AllScopes (ss : list bytes).

#[export] Instance RestoreScope_eq_dec : EqDecision RestoreScope.
Proof. solve_decision. Defined.

(** [RestoreScope::allows]. *)
Definition allows (s : RestoreScope) (c : Caller) : bool :=
  if has_scope c (b "RedactionAdmin") then true
  else
    match s with
    | Owner => is_owner c
    | AnyScope scope => has_scope c scope
    | AllScopes ss => forallb (has_scope c) ss
    end.

Fixpoint join_comma (l : list bytes) : bytes :=
  match l with
  | [] => []
  | [x] => x
  | x :: r => x ++ b "," ++ join_comma r
  end.

(** [RestoreScope::wire]. *)
Definition scope_wire (s : RestoreScope) : bytes :=
  match s with
  | Owner => b "owner"
  | AnyScope scope => b "any:" ++ scope
  | AllScopes ss => b "all:" ++ join_comma ss
  end.

(** ** The table *)

(** A row: its key is (token, agent, session), the session [""] standing for
    none. *)
Abbreviation row_key := (bytes * bytes * bytes)%type.

Record Row := {
  original_enc : bytes;
  row_category : bytes;
  row_rule_id : bytes;
  row_scope : bytes;
  cross_session : bool;
  created_at : Z;
  expires_at : Z;
  reveal_count : Z;
  last_reveal_at : option Z;
  expired_marker : bool;
}.

Abbreviation vault := (gmap row_key Row).

Class VaultPlatform := {
  encrypt : bytes → N → bytes → option bytes;
  decrypt : bytes → bytes → option bytes;
  decrypt_encrypt a n p c : encrypt a n p = Some c → decrypt a c = Some p;
  scope_to_json : RestoreScope → bytes;
  scope_of_json : bytes → option RestoreScope;
  scope_roundtrip s : scope_of_json (scope_to_json s) = Some s;
  first_row : list (row_key * Row) → option (row_key * Row);
  first_row_none l : first_row l = None ↔ l = [];
  first_row_in l x : first_row l = Some x → x ∈ l;
}.

(** What fails around one operation: loading the agent's key, the database. *)
Record vault_faults := { key_fails : bool; db_fails : bool }.
Definition vault_ok : vault_faults := {| key_fails := false; db_fails := false |}.

Record VaultEntry := {
  entry_token : bytes;
  original : option bytes;
  entry_category : bytes;
  entry_rule_id : bytes;
  entry_agent : bytes;
  entry_session : option bytes;
  entry_scope : RestoreScope;
  entry_cross : bool;
  entry_created : Z;
  entry_expires : Z;
  entry_reveals : Z;
  entry_last_reveal : option Z;
  entry_expired : bool;
}.

Definition session_key (session_id : option bytes) : bytes := default [] session_id.

Section store.
Context `{VaultPlatform}.
Implicit Types (F : vault_faults) (now : Z) (V : vault) (token agent_id : bytes) (session_id : option bytes).

(** [insert_mapping]; [nonce] is what the cipher draws. *)
Definition insert_mapping F now (nonce : N) token (text : bytes) agent_id session_id
    (category rule_id : bytes) (restore_scope : RestoreScope) (cross : bool) (ttl_hours : Z) V
    : result unit RedactionError * vault :=
  if key_fails F then (Err (Crypto (b "key")), V)
  else
    match encrypt agent_id nonce text with
    | None => (Err (Crypto (b "encrypt failed")), V)
    | Some encrypted =>
        if db_fails F then (Err Sqlite, V)
        else
          (Ok tt,
           <[(token, agent_id, session_key session_id) :=
               {| original_enc := encrypted; row_category := category; row_rule_id := rule_id;
                  row_scope := scope_to_json restore_scope; cross_session := cross;
                  created_at := now; expires_at := as_i64 (now + as_i64 (ttl_hours * 3600));
                  reveal_count := 0; last_reveal_at := None; expired_marker := false |}]> V)
    end.

(** The WHERE clause of the lookup and of the reveal counter. *)
Definition row_matches token agent_id session_id (p : row_key * Row) : bool :=
  let '(t, a, s) := p.1 in
  ustr_eqb t token && ustr_eqb a agent_id
  && (ustr_eqb s (session_key session_id) || cross_session p.2).

Definition is_expired now (r : Row) : bool := expired_marker r || (expires_at r <=? now).

(** [lookup_mapping]. *)
Definition lookup_mapping F now token agent_id session_id V
    : result (option VaultEntry) RedactionError :=
  if db_fails F then Err Sqlite
  else
    match first_row (retain (row_matches token agent_id session_id) (map_to_list V)) with
    | None => Ok None
    | Some ((t, a, s), row) =>
        match scope_of_json (row_scope row) with
        | None => Err Json
        | Some restore_scope =>
            let answer original :=
              Ok (Some {| entry_token := t; original := original; entry_category := row_category row;
                          entry_rule_id := row_rule_id row; entry_agent := a;
                          entry_session := if is_empty s then None else Some s;
                          entry_scope := restore_scope; entry_cross := cross_session row;
                          entry_created := created_at row; entry_expires := expires_at row;
                          entry_reveals := reveal_count row;
                          entry_last_reveal := last_reveal_at row;
                          entry_expired := is_expired now row |}) in
            if is_expired now row then answer None
            else if key_fails F then Err (Crypto (b "key"))
            else
              match decrypt agent_id (original_enc row) with
              | None => Err (Crypto (b "decrypt failed"))
              | Some plain =>
                  if valid_utf8 plain then answer (Some plain) else Err (Crypto (b "invalid utf-8"))
              end
        end
    end.

Definition with_reveal now (r : Row) : Row :=
  {| original_enc := original_enc r; row_category := row_category r; row_rule_id := row_rule_id r;
     row_scope := row_scope r; cross_session := cross_session r; created_at := created_at r;
     expires_at := expires_at r; reveal_count := reveal_count r + 1; last_reveal_at := Some now;
     expired_marker := expired_marker r |}.

Definition with_marker (r : Row) : Row :=
  {| original_enc := original_enc r; row_category := row_category r; row_rule_id := row_rule_id r;
     row_scope := row_scope r; cross_session := cross_session r; created_at := created_at r;
     expires_at := expires_at r; reveal_count := reveal_count r; last_reveal_at := last_reveal_at r;
     expired_marker := true |}.

(** [record_reveal]. *)
Definition record_reveal F now token agent_id session_id V : result unit RedactionError * vault :=
  if db_fails F then (Err Sqlite, V)
  else
    (Ok tt,
     map_imap (λ k r, Some (if row_matches token agent_id session_id (k, r) then with_reveal now r else r)) V).

(** [mark_expired]. *)
Definition to_mark now (r : Row) : bool := negb (expired_marker r) && (expires_at r <=? now).
Definition mark_expired F now V : result Z RedactionError * vault :=
  if db_fails F then (Err Sqlite, V)
  else
    (Ok (Z.of_nat (length (retain (λ p : row_key * Row, to_mark now p.2) (map_to_list V)))),
     (λ r, if to_mark now r then with_marker r else r) <$> V).

(** [purge_expired]. *)
Definition to_purge (cutoff : Z) (r : Row) : bool := expired_marker r && (expires_at r <=? cutoff).
Definition purge_expired F now (after_days : Z) V : result Z RedactionError * vault :=
  let cutoff := now - after_days * 86400 in
  if db_fails F then (Err Sqlite, V)
  else
    (Ok (Z.of_nat (length (retain (λ p : row_key * Row, to_purge cutoff p.2) (map_to_list V)))),
     base.filter (λ p : row_key * Row, to_purge cutoff p.2 = false) V).

(** [stats]: totals; the categories come back in SQLite's grouping order. *)
Record VaultStats := { total : Z; active : Z; expired : Z; by_category : gmap bytes Z }.

Definition stats F now V : result VaultStats RedactionError :=
  if db_fails F then Err Sqlite
  else
    let rows := map snd (map_to_list V) in
    let total := Z.of_nat (length rows) in
    let expired := Z.of_nat (length (retain (is_expired now) rows)) in
    Ok {| total := total; active := total - expired; expired := expired;
          by_category :=
            foldr (λ r m, <[row_category r := default 0 (m !! row_category r) + 1]> m) ∅ rows |}.
End store.

(** ** What a lookup may answer *)

Section lemmas.
Context `{VaultPlatform}.
Implicit Types (F : vault_faults) (now : Z) (V : vault) (token agent_id : bytes) (session_id : option bytes).

Lemma row_matches_spec token agent_id session_id t a s r :
  row_matches token agent_id session_id ((t, a, s), r) = true
  ↔ t = token ∧ a = agent_id ∧ (s = session_key session_id ∨ cross_session r = true).
Proof.
  unfold row_matches. simpl. rewrite !andb_true_iff, orb_true_iff. unfold ustr_eqb.
  rewrite !bool_decide_eq_true. naive_solver.
Qed.

Lemma elem_of_candidates V token agent_id session_id k r :
  (k, r) ∈ retain (row_matches token agent_id session_id) (map_to_list V)
  ↔ V !! k = Some r ∧ row_matches token agent_id session_id (k, r) = true.
Proof. by rewrite elem_of_retain, elem_of_map_to_list. Qed.

(** A plaintext comes from a matching row that has not expired. *)
Lemma lookup_reveals F now token agent_id session_id V e p :
  lookup_mapping F now token agent_id session_id V = Ok (Some e) → original e = Some p →
  ∃ s row, V !! (token, agent_id, s) = Some row
    ∧ (s = session_key session_id ∨ cross_session row = true)
    ∧ is_expired now row = false ∧ decrypt agent_id (original_enc row) = Some p
    ∧ scope_of_json (row_scope row) = Some (entry_scope e).
Proof.
  unfold lookup_mapping. destruct (db_fails F); [done|].
  destruct (first_row _) as [[[[t a] s] row]|] eqn:E; [|done].
  apply first_row_in, elem_of_candidates in E as [Hl (-> & -> & Hs)%row_matches_spec].
  destruct (scope_of_json _) as [sc|] eqn:Esc; [|done].
  destruct (is_expired now row) eqn:Ex; [intros; simplify_eq|].
  destruct (key_fails F); [done|]. destruct (decrypt _ _) as [plain|] eqn:Ed; [|done].
  destruct (valid_utf8 plain); [|done]. intros. simplify_eq/=. naive_solver.
Qed.

(** With one candidate the answer is that candidate's. *)
Lemma lookup_unique now token agent_id session_id V s row sc p :
  V !! (token, agent_id, s) = Some row →
  (s = session_key session_id ∨ cross_session row = true) →
  (∀ s' row', V !! (token, agent_id, s') = Some row' →
     s' = session_key session_id ∨ cross_session row' = true → s' = s) →
  scope_of_json (row_scope row) = Some sc →
  decrypt agent_id (original_enc row) = Some p → valid_utf8 p = true →
  ∃ e, lookup_mapping vault_ok now token agent_id session_id V = Ok (Some e)
    ∧ entry_scope e = sc ∧ entry_expires e = expires_at row ∧ entry_token e = token
    ∧ entry_agent e = agent_id
    ∧ original e = if is_expired now row then None else Some p.
Proof.
  intros Hl Hs Hu Hsc Hd Hv. unfold lookup_mapping. simpl.
  set (cs := retain _ _). assert (first_row cs = Some ((token, agent_id, s), row)) as ->.
  { destruct (first_row cs) as [[[[t a] s'] row']|] eqn:E.
    - apply first_row_in, elem_of_candidates in E as [Hl' (-> & -> & Hs')%row_matches_spec].
      assert (s' = s) as -> by eauto. congruence.
    - apply first_row_none in E.
      assert (((token, agent_id, s), row) ∈ cs) as Hin
        by (apply elem_of_candidates; split; [done|by apply row_matches_spec]).
      rewrite E in Hin. by apply elem_of_nil in Hin. }
  rewrite Hsc. destruct (is_expired now row) eqn:Ex; [eexists; split_and!; done|].
  rewrite Hd, Hv. eexists. split_and!; done.
Qed.

Lemma insert_mapping_ok F now nonce token text agent_id session_id cat rule sc cross ttl V V' :
  insert_mapping F now nonce token text agent_id session_id cat rule sc cross ttl V = (Ok tt, V') →
  ∃ c, encrypt agent_id nonce text = Some c
    ∧ V' = <[(token, agent_id, session_key session_id) :=
               {| original_enc := c; row_category := cat; row_rule_id := rule;
                  row_scope := scope_to_json sc; cross_session := cross;
                  created_at := now; expires_at := as_i64 (now + as_i64 (ttl * 3600));
                  reveal_count := 0; last_reveal_at := None; expired_marker := false |}]> V.
Proof.
  unfold insert_mapping. destruct (key_fails F); [done|].
  destruct (encrypt agent_id nonce text) as [c|]; [|done]. destruct (db_fails F); [done|].
  intros. simplify_eq. eauto.
Qed.

Lemma insert_mapping_err F now nonce token text agent_id session_id cat rule sc cross ttl V e V' :
  insert_mapping F now nonce token text agent_id session_id cat rule sc cross ttl V = (Err e, V') →
  V' = V.
Proof.
  unfold insert_mapping. destruct (key_fails F); [intros; by simplify_eq|].
  destruct (encrypt agent_id nonce text); [|intros; by simplify_eq].
  destruct (db_fails F); intros; by simplify_eq.
Qed.

(** ** Every plaintext a lookup returns was stored for it *)

Record insertion := {
  ins_time : Z; ins_nonce : N; ins_token : bytes; ins_text : bytes; ins_agent : bytes;
  ins_session : option bytes; ins_category : bytes; ins_rule : bytes; ins_scope : RestoreScope;
  ins_cross : bool; ins_ttl : Z;
}.

Inductive vault_op :=
| OpInsert (i : insertion)
| OpReveal (now : Z) (token agent_id : bytes) (session_id : option bytes)
| OpMark (now : Z)
| OpPurge (now days : Z).

Definition run_insertion F (i : insertion) V : result unit RedactionError * vault :=
  insert_mapping F (ins_time i) (ins_nonce i) (ins_token i) (ins_text i) (ins_agent i) (ins_session i)
    (ins_category i) (ins_rule i) (ins_scope i) (ins_cross i) (ins_ttl i) V.

Definition run_vault_op F (o : vault_op) V : vault :=
  match o with
  | OpInsert i => (run_insertion F i V).2
  | OpReveal now t a s => (record_reveal F now t a s V).2
  | OpMark now => (mark_expired F now V).2
  | OpPurge now days => (purge_expired F now days V).2
  end.

(** The vaults operations lead to, with what was asked to be stored. *)
Inductive vault_history : list insertion → vault → Prop :=
| vault_empty : vault_history [] ∅
| vault_step log V F o :
    vault_history log V →
    vault_history (match o with OpInsert i => i :: log | _ => log end) (run_vault_op F o V).

(** The row an insertion left, whatever was done to its counters since. *)
Definition row_of (i : insertion) (k : row_key) (r : Row) : Prop :=
  k = (ins_token i, ins_agent i, session_key (ins_session i))
  ∧ encrypt (ins_agent i) (ins_nonce i) (ins_text i) = Some (original_enc r)
  ∧ cross_session r = ins_cross i ∧ row_scope r = scope_to_json (ins_scope i)
  ∧ expires_at r = as_i64 (ins_time i + as_i64 (ins_ttl i * 3600)).

Lemma history_rows log V k r :
  vault_history log V → V !! k = Some r → ∃ i, i ∈ log ∧ row_of i k r.
Proof.
  intros Hh. revert k r. induction Hh as [|log V F o Hh IH]; intros k r Hl; [done|].
  assert (∀ r0, V !! k = Some r0 → (∀ i, row_of i k r0 → row_of i k r) → ∃ i, i ∈ log ∧ row_of i k r) as Hkeep.
  { intros r0 H0 Hi. destruct (IH k r0 H0) as (i & ? & ?). eauto. }
  destruct o as [i|now t a s|now|now days]; simpl in Hl.
  - unfold run_insertion in Hl.
    destruct (insert_mapping _ _ _ _ _ _ _ _ _ _ _ _ V) as [[[]|e] V'] eqn:E; simpl in Hl.
    + apply insert_mapping_ok in E as (c & Hc & ->).
      apply lookup_insert_Some in Hl as [[<- <-]|[_ Hl]].
      * exists i. split; [left|]. by repeat split.
      * destruct (IH k r Hl) as (j & ? & ?). exists j. split; [by right|done].
    + apply insert_mapping_err in E as ->. destruct (IH k r Hl) as (j & ? & ?). exists j. split; [by right|done].
  - unfold record_reveal in Hl. destruct (db_fails F); [by apply (Hkeep r)|].
    simpl in Hl. rewrite map_lookup_imap in Hl. apply bind_Some in Hl as (r0 & H0 & Hr). simplify_eq.
    apply (Hkeep r0 H0). destruct (row_matches _ _ _ _); done.
  - unfold mark_expired in Hl. destruct (db_fails F); [by apply (Hkeep r)|].
    simpl in Hl. rewrite lookup_fmap in Hl. apply fmap_Some in Hl as (r0 & H0 & ->).
    apply (Hkeep r0 H0). by destruct (to_mark now r0).
  - unfold purge_expired in Hl. destruct (db_fails F); [by apply (Hkeep r)|].
    simpl in Hl. apply map_lookup_filter_Some in Hl as [H0 _]. by apply (Hkeep r).
Qed.

(** C26: Nothing is revealed that was not stored for the asker: after any
    insertions, reveals, expiries and purges, with any faults, a lookup that
    returns a plaintext returns one that was inserted under that very token
    for that agent, in that session (or as a cross-session value), whose time
    to live is not over, with the scope it was stored with. *)
Theorem reveal_justified log V F now token agent_id session_id e p :
  vault_history log V →
  lookup_mapping F now token agent_id session_id V = Ok (Some e) → original e = Some p →
  ∃ i, i ∈ log ∧ ins_token i = token ∧ ins_agent i = agent_id ∧ ins_text i = p
    ∧ (session_key (ins_session i) = session_key session_id ∨ ins_cross i = true)
    ∧ now < as_i64 (ins_time i + as_i64 (ins_ttl i * 3600))
    ∧ entry_scope e = ins_scope i.
Proof.
  intros Hh Hl Hp. destruct (lookup_reveals _ _ _ _ _ _ _ _ Hl Hp) as (s & row & Hv & Hs & Hx & Hd & Hsc).
  destruct (history_rows _ _ _ _ Hh Hv) as (i & Hi & Hk & He & Hc & Hj & Hex). simplify_eq.
  exists i. unfold is_expired in Hx. rewrite Hex in Hx. reflect_bools.
  apply decrypt_encrypt in He. rewrite He in Hd. rewrite Hj, scope_roundtrip in Hsc. simplify_eq.
  split_and!; try done. rewrite <- Hc. tauto.
Qed.
End lemmas.

(** ** A concrete platform: the null cipher and the first row *)

Definition demo_scope_to_json (s : RestoreScope) : bytes :=
  match s with
  | Owner => [0%N]
  | AnyScope scope => 1%N :: scope
  | AllScopes ss => [2%N; Npos (encode ss)]
  end.
Definition demo_scope_of_json (j : bytes) : option RestoreScope :=
  match j with
  | [0%N] => Some Owner
  | 1%N :: scope => Some (AnyScope scope)
  | [2%N; Npos ss] => AllScopes <$> decode ss
  | _ => None
  end.
Lemma demo_scope_roundtrip s : demo_scope_of_json (demo_scope_to_json s) = Some s.
Proof. destruct s as [|scope|ss]; simpl; [done|done|]. by rewrite decode_encode. Qed.

Definition demo_platform : VaultPlatform.
Proof.
  refine {| encrypt _ _ p := Some p; decrypt _ c := Some c; scope_to_json := demo_scope_to_json;
            scope_of_json := demo_scope_of_json; scope_roundtrip := demo_scope_roundtrip;
            first_row := head |}.
  - intros. congruence.
  - intros []; naive_solver.
  - intros [|y l] x; simpl; intros; simplify_eq. left.
Defined.

Definition demo_insertion : insertion := {|
  ins_time := 1000; ins_nonce := 0%N; ins_token := b "<REDACT:EMAIL:00>"; ins_text := b "a@b.c";
  ins_agent := b "ann"; ins_session := None; ins_category := b "EMAIL"; ins_rule := b "r";
  ins_scope := Owner; ins_cross := false; ins_ttl := 24
|}.
Definition demo_vault : vault := (run_insertion (H := demo_platform) vault_ok demo_insertion ∅).2.

Lemma reveal_justified_witness :
  let L := lookup_mapping (H := demo_platform) vault_ok 2000 (b "<REDACT:EMAIL:00>") (b "ann") None demo_vault in
  ∃ e, L = Ok (Some e) ∧ original e = Some (b "a@b.c")
    ∧ ∃ i, i ∈ [demo_insertion] ∧ ins_agent i = b "ann" ∧ ins_text i = b "a@b.c".
Proof.
  eexists. split; [vm_compute; reflexivity|]. split; [reflexivity|].
  destruct (reveal_justified (H := demo_platform) [demo_insertion] demo_vault vault_ok 2000
    (b "<REDACT:EMAIL:00>") (b "ann") None
    {| entry_token := b "<REDACT:EMAIL:00>"; original := Some (b "a@b.c"); entry_category := b "EMAIL";
       entry_rule_id := b "r"; entry_agent := b "ann"; entry_session := None; entry_scope := Owner;
       entry_cross := false; entry_created := 1000; entry_expires := 87400; entry_reveals := 0;
       entry_last_reveal := None; entry_expired := false |} (b "a@b.c"))
    as (i & Hi & _ & Ha & Ht & _).
  - exact (vault_step [] ∅ vault_ok (OpInsert demo_insertion) vault_empty).
  - vm_compute. reflexivity.
  - reflexivity.
  - exists i. by split_and!.
Defined.
