(* ===== verification/RedactEngine.v ===== *)
(** * The redaction rule engine (crates/duduclaw-redaction/src/engine.rs, with
    the trait [Rule] of rules/mod.rs)

    Which spans of a text become tokens: all rules' matches, resolved to a
    left-to-right list without overlaps.  A rule is a record with its matcher
    as a function, which has no result when it panics; the files of the rule kinds give the matchers, and
    [RuleSet] compiles specifications to rules. *)

From stdpp Require Import sorting.
From S2P Require Import Prelude.
From S2P Require Import Bytes.
From S2P Require Import RedactToken.
From S2P Require Import Vault.

Record Match := { start : nat; end_ : nat; matched : bytes }.

Record Rule := {
  rule_id : bytes;
  rule_category : bytes;
  restore_scope : RestoreScope;
  priority : Z;
  cross_session_stable : bool;
  apply_to_system_prompt : bool;
  engine_kind : bytes;
  model_revision : option bytes;
  match_text : bytes → option (list Match);
}.

Record MatchedSpan := { rule : Rule; span : Match }.

Inductive Source :=
| UserChannelInput (channel_id : bytes)
| ToolResult (tool_name : bytes)
| SystemPrompt (component : bytes)
| SubAgentReply (agent_id : bytes)
| CronContext.

(** [slice::sort_by] and [sort_by_key], which are stable. *)
Fixpoint insert_before {A} (le : A → A → bool) (x : A) (l : list A) : list A :=
  match l with
  | [] => [x]
  | y :: r => if le x y then x :: l else y :: insert_before le x r
  end.
Definition stable_sort {A} (le : A → A → bool) (l : list A) : list A :=
  foldr (insert_before le) [] l.

(** The comparison of [resolve_overlaps]: not greater. *)
Definition span_le (x y : MatchedSpan) : bool :=
  if priority (rule y) <? priority (rule x) then true
  else if priority (rule x) <? priority (rule y) then false
  else if (start (span x) <? start (span y))%nat then true
  else if (start (span y) <? start (span x))%nat then false
  else ustr_leb (rule_id (rule x)) (rule_id (rule y)).

Definition overlaps (x y : Match) : bool := (start x <? end_ y)%nat && (start y <? end_ x)%nat.

(** The greedy walk. *)
Definition keep_step (kept : list MatchedSpan) (candidate : MatchedSpan) : list MatchedSpan :=
  if existsb (λ existing, overlaps (span candidate) (span existing)) kept then kept
  else kept ++ [candidate].

Definition start_le (x y : MatchedSpan) : bool := (start (span x) <=? start (span y))%nat.

Definition resolve_overlaps (spans : list MatchedSpan) : list MatchedSpan :=
  stable_sort start_le (foldl keep_step [] (stable_sort span_le spans)).

(** [all_text_matches] and [apply]: a panic of one matcher is theirs. *)
Definition rule_matches (text : bytes) (source : Source) (r : Rule) : option (list MatchedSpan) :=
  let only_system_prompt_rules := match source with SystemPrompt _ => true | _ => false end in
  if only_system_prompt_rules && negb (apply_to_system_prompt r) then Some []
  else map (λ m, {| rule := r; span := m |}) <$> match_text r text.

Definition all_text_matches (rules : list Rule) (text : bytes) (source : Source)
    : option (list MatchedSpan) :=
  @concat _ <$> mapM (rule_matches text source) rules.

Definition apply (rules : list Rule) (text : bytes) (source : Source) : option (list MatchedSpan) :=
  resolve_overlaps <$> all_text_matches rules text source.

(** The matchers of a rule set all answer, and what they report. *)
Definition reported (rules : list Rule) (text : bytes) (source : Source) (m : MatchedSpan) : Prop :=
  ∃ all, all_text_matches rules text source = Some all ∧ m ∈ all.

Lemma all_text_matches_answers rules text source :
  (∀ r, r ∈ rules → is_Some (match_text r text)) → is_Some (all_text_matches rules text source).
Proof.
  intros Hr. unfold all_text_matches. apply fmap_is_Some, mapM_is_Some.
  apply list.Forall_forall. intros r Hin. change (is_Some (rule_matches text source r)).
  unfold rule_matches. cbv zeta.
  match goal with |- context [if ?c then _ else _] => destruct c end; [by eexists|].
  by apply fmap_is_Some, Hr.
Qed.

Lemma reported_by rules text source m :
  reported rules text source m →
  ∃ ms, rule m ∈ rules ∧ match_text (rule m) text = Some ms ∧ span m ∈ ms.
Proof.
  intros (all & Hall & Hm). unfold all_text_matches in Hall.
  apply fmap_Some in Hall as (parts & Hparts & ->). apply mapM_Some in Hparts.
  apply list_elem_of_In, in_concat in Hm as (l & Hl & Hm%list_elem_of_In).
  apply list_elem_of_In, list_elem_of_lookup in Hl as [i Hi].
  destruct (Forall2_lookup_r _ _ _ _ _ Hparts Hi) as (r & Hr & Hrl). apply list_elem_of_lookup_2 in Hr.
  unfold rule_matches in Hrl. cbv zeta in Hrl.
  match type of Hrl with context [if ?c then _ else _] => destruct c end; [injection Hrl as <-; by apply elem_of_nil in Hm|].
  apply fmap_Some in Hrl as (ms & Hms & ->). apply list_elem_of_fmap in Hm as (x & -> & Hx). by exists ms.
Qed.

(** ** Sorting *)

Section sorting.
Context {A : Type} (le : A → A → bool).

Lemma insert_before_Permutation x l : insert_before le x l ≡ₚ x :: l.
Proof. induction l as [|y l IH]; simpl; [done|]. destruct (le x y); [done|]. rewrite IH. constructor. Qed.

Lemma stable_sort_Permutation l : stable_sort le l ≡ₚ l.
Proof. induction l as [|x l IH]; simpl; [done|]. by rewrite insert_before_Permutation, IH. Qed.

Context (le_total : ∀ x y, le x y = true ∨ le y x = true).
Context (le_trans : ∀ x y z, le x y = true → le y z = true → le x z = true).

Lemma insert_before_sorted x l :
  StronglySorted (λ x y, le x y = true) l → StronglySorted (λ x y, le x y = true) (insert_before le x l).
Proof.
  induction 1 as [|y l Hl IH Hy]; simpl; [repeat constructor|].
  destruct (le x y) eqn:E; constructor; [by constructor| |done|].
  - constructor; [done|]. eapply List.Forall_impl; [|exact Hy]. intros z Hz. by eapply le_trans.
  - rewrite insert_before_Permutation. constructor; [|done].
    destruct (le_total x y); congruence.
Qed.

Lemma stable_sort_sorted l : StronglySorted (λ x y, le x y = true) (stable_sort le l).
Proof. induction l; simpl; [constructor|]. by apply insert_before_sorted. Qed.
End sorting.

Lemma span_le_total x y : span_le x y = true ∨ span_le y x = true.
Proof.
  unfold span_le. destruct (Z.ltb_spec (priority (rule y)) (priority (rule x))),
    (Z.ltb_spec (priority (rule x)) (priority (rule y))); auto; try lia.
  destruct (Nat.ltb_spec (start (span x)) (start (span y))),
    (Nat.ltb_spec (start (span y)) (start (span x))); auto; try lia. apply ustr_leb_total.
Qed.

Lemma span_le_trans x y z : span_le x y = true → span_le y z = true → span_le x z = true.
Proof.
  unfold span_le.
  repeat match goal with
  | |- context [(?p <? ?q)] => destruct (Z.ltb_spec p q)
  | |- context [(?p <? ?q)%nat] => destruct (Nat.ltb_spec p q)
  end; try done; try lia. apply ustr_leb_trans.
Qed.

Lemma start_le_total x y : start_le x y = true ∨ start_le y x = true.
Proof. unfold start_le. rewrite !Nat.leb_le. lia. Qed.
Lemma start_le_trans x y z : start_le x y = true → start_le y z = true → start_le x z = true.
Proof. unfold start_le. rewrite !Nat.leb_le. lia. Qed.

(** ** The greedy walk *)

Definition apart (x y : MatchedSpan) : Prop := overlaps (span x) (span y) = false.

Lemma overlaps_sym x y : overlaps x y = overlaps y x.
Proof. unfold overlaps. apply andb_comm. Qed.

Lemma apart_sym x y : apart x y → apart y x.
Proof. unfold apart. by rewrite overlaps_sym. Qed.

(** The walk keeps its earlier choices, keeps them apart, and drops only what
    overlaps an earlier choice that ranks at least as high. *)
Lemma keep_walk spans kept :
  StronglySorted apart kept →
  (∀ x y, x ∈ kept → y ∈ spans → span_le x y = true) →
  StronglySorted (λ x y, span_le x y = true) spans →
  let out := foldl keep_step kept spans in
  StronglySorted apart out ∧ (∀ x, x ∈ kept → x ∈ out) ∧ (∀ x, x ∈ out → x ∈ kept ∨ x ∈ spans)
  ∧ ∀ y, y ∈ spans → y ∈ out ∨ ∃ x, x ∈ out ∧ overlaps (span y) (span x) = true ∧ span_le x y = true.
Proof.
  revert kept. induction spans as [|c spans IH]; intros kept Hk Hle Hs; simpl.
  - split_and!; [done|done|by left|]. intros y Hy. by apply elem_of_nil in Hy.
  - inversion Hs as [|? ? Hs' Hc]; subst. rewrite List.Forall_forall in Hc.
    destruct (existsb (λ existing, overlaps (span c) (span existing)) kept) eqn:E.
    + assert (keep_step kept c = kept) as -> by (unfold keep_step; by rewrite E).
      destruct (IH kept) as (H1 & H2 & H3 & H4); [done| |done|].
      { intros x y Hx Hy. apply Hle; [done|by right]. }
      split_and!; [done|done|intros x [?|?]%H3; [by left|right; by right]|].
      intros y [->|Hy]%elem_of_cons; [|by apply H4]. right.
      apply existsb_exists in E as (x & Hx%list_elem_of_In & Ho).
      exists x. split_and!; [by apply H2|done|]. apply Hle; [done|left].
    + assert (keep_step kept c = kept ++ [c]) as -> by (unfold keep_step; by rewrite E).
      destruct (IH (kept ++ [c])) as (H1 & H2 & H3 & H4).
      * apply StronglySorted_snoc; [done|]. apply List.Forall_forall. intros x Hx.
        apply apart_sym. unfold apart. apply not_true_iff_false. intros Ho.
        apply not_true_iff_false in E. apply E, existsb_exists. by exists x.
      * intros x y [Hx| ->%list_elem_of_singleton]%elem_of_app Hy; [apply Hle; [done|by right]|].
        apply Hc. by apply list_elem_of_In.
      * done.
      * split_and!; [done| | |].
        -- intros x Hx. apply H2, elem_of_app. by left.
        -- intros x [[?| ->%list_elem_of_singleton]%elem_of_app|?]%H3;
             [by left|right; left|right; by right].
        -- intros y [->|Hy]%elem_of_cons; [|by apply H4]. left. apply H2, elem_of_app. right.
           by apply list_elem_of_singleton.
Qed.

Lemma StronglySorted_Permutation {A} (R : relation A) l l' :
  (∀ x y, R x y → R y x) → l ≡ₚ l' → StronglySorted R l → StronglySorted R l'.
Proof.
  intros Hsym. induction 1 as [|x l l' Hp IH|x y l|l1 l2 l3 _ IH1 _ IH2]; intros Hs; auto.
  - inversion Hs; subst. constructor; [auto|]. by rewrite <- Hp.
  - inversion Hs as [|? ? Hs' Hx]; subst. inversion Hs' as [|? ? Hs'' Hy]; subst.
    inversion Hx; subst. constructor; [by constructor|]. constructor; [auto|done].
Qed.

Lemma StronglySorted_and {A} (R1 R2 R3 : relation A) (P : A → Prop) l :
  (∀ x y, P x → P y → R1 x y → R2 x y → R3 x y) → Forall P l →
  StronglySorted R1 l → StronglySorted R2 l → StronglySorted R3 l.
Proof.
  intros HR HP. induction HP as [|x l Hx HP IH]; [constructor|].
  intros H1 H2. inversion H1 as [|? ? H1' F1]; inversion H2 as [|? ? H2' F2]; subst.
  constructor; [auto|]. rewrite List.Forall_forall in *. auto.
Qed.

Definition nonempty_span (x : MatchedSpan) : Prop := (start (span x) < end_ (span x))%nat.
Definition before (x y : MatchedSpan) : Prop := (end_ (span x) ≤ start (span y))%nat.

(** What resolution keeps. *)
Lemma overlaps_resolved spans :
  Forall nonempty_span spans →
  let out := resolve_overlaps spans in
  StronglySorted before out ∧ (∀ x, x ∈ out → x ∈ spans)
  ∧ ∀ y, y ∈ spans → y ∈ out ∨
      ∃ x, x ∈ out ∧ overlaps (span y) (span x) = true ∧ span_le x y = true.
Proof.
  intros Hne. unfold resolve_overlaps.
  pose proof (stable_sort_Permutation span_le spans) as Hp.
  destruct (keep_walk (stable_sort span_le spans) []) as (H1 & _ & H3 & H4);
    [constructor|intros x y Hx; by apply elem_of_nil in Hx
    |apply stable_sort_sorted; [apply span_le_total|apply span_le_trans]|].
  set (kept := foldl _ _ _) in *. pose proof (stable_sort_Permutation start_le kept) as Hk.
  assert (∀ x, x ∈ stable_sort start_le kept → x ∈ spans) as Hsub.
  { intros x. rewrite Hk. intros [Hx|Hx]%H3; [by apply elem_of_nil in Hx|]. by rewrite Hp in Hx. }
  cbv zeta. split_and!; [|done|].
  - eapply (StronglySorted_and (λ x y, start_le x y = true) apart before nonempty_span);
      [|apply List.Forall_forall|apply stable_sort_sorted; [apply start_le_total|apply start_le_trans]|].
    + unfold start_le, apart, overlaps, before, nonempty_span.
      intros x y Hx Hy Hs%Nat.leb_le [Ho|Ho]%andb_false_iff; apply Nat.ltb_ge in Ho; lia.
    + intros x Hx%list_elem_of_In%Hsub. rewrite List.Forall_forall in Hne. by apply Hne, list_elem_of_In.
    + eapply StronglySorted_Permutation; [apply apart_sym|symmetry; exact Hk|exact H1].
  - intros y Hy. rewrite <- Hp in Hy. destruct (H4 y Hy) as [Ho|(x & Hx & ? & ?)].
    + left. by rewrite Hk.
    + right. exists x. by rewrite Hk.
Qed.

(** Overlap resolution: from spans that are not empty it returns some of
    them, left to right and without overlap, and leaves one out only for one
    it kept that overlaps it and ranks at least as high (priority, then
    start, then rule id). *)
Theorem resolve_exact spans :
  Forall nonempty_span spans →
  let out := resolve_overlaps spans in
  StronglySorted before out ∧ (∀ x, x ∈ out → x ∈ spans)
  ∧ ∀ y, y ∈ spans → y ∈ out ∨
      ∃ x, x ∈ out ∧ overlaps (span y) (span x) = true ∧ span_le x y = true.
Proof. apply overlaps_resolved. Qed.

(** A match of a rule that carries only what resolution looks at. *)
Definition demo_rule (id : bytes) (prio : Z) : Rule := {|
  rule_id := id; rule_category := b "PII"; restore_scope := Owner; priority := prio;
  cross_session_stable := false; apply_to_system_prompt := false; engine_kind := b "rule";
  model_revision := None; match_text := λ _, Some []
|}.
Definition demo_span (id : bytes) (prio : Z) (i j : nat) : MatchedSpan :=
  {| rule := demo_rule id prio; span := {| start := i; end_ := j; matched := [] |} |}.

Lemma resolve_exact_witness :
  Forall nonempty_span [demo_span (b "a") 50 0 6; demo_span (b "b") 100 4 9; demo_span (b "c") 50 9 12]
  ∧ StronglySorted before
      (resolve_overlaps [demo_span (b "a") 50 0 6; demo_span (b "b") 100 4 9; demo_span (b "c") 50 9 12]).
Proof.
  assert (Forall nonempty_span
    [demo_span (b "a") 50 0 6; demo_span (b "b") 100 4 9; demo_span (b "c") 50 9 12]) as H
    by (repeat constructor; unfold nonempty_span; simpl; lia).
  split; [exact H|]. exact (proj1 (resolve_exact _ H)).
Defined.
