(* ===== verification/Redaction.v ===== *)
(** * The redaction pipeline (crates/duduclaw-redaction/src/pipeline.rs, with
    [SourceSetting] of config.rs)

    [redact] replaces the matched spans of a text by tokens whose originals go
    to the vault; [restore] puts back what the caller may see.  Clock
    readings, cipher nonces and faults of the successive vault accesses are
    the functions of [environment].  [None] is a panic. *)

From S2P Require Import Prelude.
From S2P Require Import Bytes.
From S2P Require Import Utf8.
From S2P Require Import Chars.
From S2P Require Import RedactToken.
From S2P Require Import Vault.
From S2P Require Import RedactEngine.

(** ** Which sources are redacted *)

Inductive SourceMode := On | Off | Selective | Inherit.

Record SourceSetting := {
  mode : SourceMode;
  only_categories : list bytes;
  exclude_categories : list bytes;
}.

Definition mode_only (m : SourceMode) : SourceSetting :=
  {| mode := m; only_categories := []; exclude_categories := [] |}.

Definition allows_category (s : SourceSetting) (category : bytes) : bool :=
  if existsb (λ c, ustr_eqb c category) (exclude_categories s) then false
  else if negb (is_empty (only_categories s)) then
    existsb (λ c, ustr_eqb c category) (only_categories s)
  else true.

Record SourcePolicy := {
  user_input : SourceSetting;
  tool_results : SourceSetting;
  system_prompt : SourceSetting;
  sub_agent : SourceSetting;
  cron_context : SourceSetting;
}.

Definition SourcePolicy_default : SourcePolicy := {|
  user_input := mode_only Off; tool_results := mode_only On; system_prompt := mode_only Selective;
  sub_agent := mode_only Inherit; cron_context := mode_only On
|}.

Definition source_meta (s : Source) : bytes * option bytes :=
  match s with
  | UserChannelInput channel_id => (b "user_channel_input", Some channel_id)
  | ToolResult tool_name => (b "tool_result", Some tool_name)
  | SystemPrompt component => (b "system_prompt", Some component)
  | SubAgentReply agent_id => (b "sub_agent_reply", Some agent_id)
  | CronContext => (b "cron_context", None)
  end.

Inductive RestoreTarget :=
| UserChannel
| SubAgent (agent_id : bytes)
| AuditLog.

Inductive AuditEvent :=
| Redact (agent_id : bytes) (session_id : option bytes) (source_category : bytes)
    (source_detail : option bytes) (rule_id category token : bytes) (path : option bytes)
    (engine : bytes) (model_revision : option bytes)
| RestoreOk (agent_id caller target token : bytes)
| RestoreDenied (agent_id caller target token required_scope : bytes)
| RestoreMiss (agent_id caller target token : bytes).

Definition caller_label (c : Caller) : bytes :=
  if is_owner c then b "owner:" ++ caller_agent c
  else if is_empty (scopes c) then b "agent:" ++ caller_agent c
  else b "agent:" ++ caller_agent c ++ b "(" ++ join_comma (scopes c) ++ b ")".

Definition target_label (t : RestoreTarget) : bytes :=
  match t with
  | UserChannel => b "user_channel"
  | SubAgent agent_id => b "sub_agent:" ++ agent_id
  | AuditLog => b "audit_log"
  end.

(** ** The pipeline *)

Record RedactionPipeline := {
  rules : list Rule;
  agent_id : bytes;
  session_id : option bytes;
  session_salt : bytes;
  stable_salt : bytes;
  source_policy : SourcePolicy;
  vault_ttl_hours : Z;
}.

Record environment := {
  faults_at : nat → vault_faults;
  clock_at : nat → Z;
  nonce_at : nat → N;
  date_of : Z → bytes;
}.

Record RedactionOutput := { redacted_text : bytes; tokens_written : list Token }.

Section pipeline.
Context `{VaultPlatform} `{Hmac} (E : environment).
Implicit Types (P : RedactionPipeline) (V : vault) (A : list AuditEvent) (text : bytes) (i : nat).

Definition Pipeline_new (engine : list Rule) (agent : bytes) (session : option bytes)
    (agent_key : bytes) (policy : SourcePolicy) (ttl : Z) : RedactionPipeline :=
  {| rules := engine; agent_id := agent; session_id := session;
     session_salt := derive_session_salt agent_key (default (b "default") session);
     stable_salt := derive_stable_salt agent_key; source_policy := policy; vault_ttl_hours := ttl |}.

Definition setting_for P (source : Source) : SourceSetting :=
  match source with
  | UserChannelInput _ => user_input (source_policy P)
  | ToolResult _ => tool_results (source_policy P)
  | SystemPrompt _ => system_prompt (source_policy P)
  | SubAgentReply _ => sub_agent (source_policy P)
  | CronContext => cron_context (source_policy P)
  end.

Definition salt_of P (r : Rule) : bytes :=
  if cross_session_stable r then stable_salt P else session_salt P.
Definition vault_session P (r : Rule) : option bytes :=
  if cross_session_stable r then None else session_id P.

(** [mint_token]: the [i]-th vault access. *)
Definition mint_token P i (text : bytes) (r : Rule) (source : Source) (path : option bytes) V A
    : result Token RedactionError * vault * list AuditEvent :=
  match Token_new (rule_category r) (session_hash (salt_of P r) text) with
  | Err e => (Err e, V, A)
  | Ok tok =>
      match insert_mapping (faults_at E i) (clock_at E i) (nonce_at E i) (as_str tok) text
              (agent_id P) (vault_session P r) (rule_category r) (rule_id r) (restore_scope r)
              (cross_session_stable r) (vault_ttl_hours P) V with
      | (Err e, V') => (Err e, V', A)
      | (Ok _, V') =>
          let '(source_category, source_detail) := source_meta source in
          (Ok tok, V',
           A ++ [Redact (agent_id P) (session_id P) source_category source_detail (rule_id r)
                   (rule_category r) (as_str tok) path (engine_kind r) (model_revision r)])
      end
  end.

(** Whether the source is redacted at all. *)
Definition mode_active (m : SourceMode) (source : Source) : bool :=
  match m with
  | Off | Inherit => false
  | On => true
  | Selective => match source with SystemPrompt _ => true | _ => false end
  end.

Definition matches_for P text (source : Source) : option (list MatchedSpan) :=
  let setting := setting_for P source in
  let protected := token_spans text in
  found ← apply (rules P) text source;
  Some (retain (λ m, negb (overlaps_any (start (span m)) (end_ (span m)) protected))
          (retain (λ m, allows_category setting (rule_category (rule m))) found)).

(** The rewriting loop: [out] is written, [cursor] is where reading goes on. *)
Fixpoint redact_loop P text (source : Source) (ms : list MatchedSpan) i (out : bytes) (cursor : nat)
    (toks : list Token) V A
    : option (result RedactionOutput RedactionError * vault * list AuditEvent) :=
  match ms with
  | [] =>
      rest ← slice text cursor (length text);
      Some (Ok {| redacted_text := out ++ rest; tokens_written := toks |}, V, A)
  | m :: ms' =>
      lead ← slice text cursor (start (span m));
      match mint_token P i (matched (span m)) (rule m) source None V A with
      | (Err e, V', A') => Some (Err e, V', A')
      | (Ok tok, V', A') =>
          redact_loop P text source ms' (S i) (out ++ lead ++ as_str tok) (end_ (span m))
            (toks ++ [tok]) V' A'
      end
  end.

(** [RedactionPipeline::redact]. *)
Definition redact P text (source : Source) V A
    : option (result RedactionOutput RedactionError * vault * list AuditEvent) :=
  let unchanged := Some (Ok {| redacted_text := text; tokens_written := [] |}, V, A) in
  if negb (mode_active (mode (setting_for P source)) source) then unchanged
  else
    ms ← matches_for P text source;
    match ms with
    | [] => unchanged
    | _ => redact_loop P text source ms 0 [] 0 [] V A
    end.

(** ** Restoring *)

(** What the closure of [restore] captures. *)
Record restore_state := {
  result_error : option RedactionError;
  r_vault : vault;
  r_audit : list AuditEvent;
  r_access : nat;
}.

Definition expired_placeholder (expires_at : Z) : bytes :=
  b "[已過期 PII · " ++ date_of E expires_at ++ b "]".

Definition restore_decide P (caller : Caller) (target_str : bytes) (tok : Token) (s : restore_state)
    : TokenAction * restore_state :=
  match result_error s with
  | Some _ => (Keep, s)
  | None =>
      let i := r_access s in
      let go error V A := {| result_error := error; r_vault := V; r_audit := r_audit s ++ A; r_access := S i |} in
      let who := caller_label caller in
      match lookup_mapping (faults_at E i) (clock_at E i) (as_str tok) (agent_id P) (session_id P) (r_vault s) with
      | Err e => (Keep, go (Some e) (r_vault s) [])
      | Ok None => (Keep, go None (r_vault s) [RestoreMiss (agent_id P) who target_str (as_str tok)])
      | Ok (Some entry) =>
          if negb (allows (entry_scope entry) caller) then
            (Keep, go None (r_vault s)
                     [RestoreDenied (agent_id P) who target_str (as_str tok) (scope_wire (entry_scope entry))])
          else
            match original entry with
            | Some plain =>
                (Replace plain,
                 go None
                   (record_reveal (faults_at E i) (clock_at E i) (as_str tok) (entry_agent entry)
                      (entry_session entry) (r_vault s)).2
                   [RestoreOk (agent_id P) who target_str (as_str tok)])
            | None =>
                (Replace (expired_placeholder (entry_expires entry)),
                 go None (r_vault s)
                   [RestoreMiss (agent_id P) who (target_str ++ b "#expired") (as_str tok)])
            end
      end
  end.

(** [RedactionPipeline::restore]. *)
Definition restore P text (caller : Caller) (target : RestoreTarget) V A
    : result bytes RedactionError * vault * list AuditEvent :=
  match target with
  | AuditLog => (Ok text, V, A)
  | _ =>
      let '(rewritten, s) :=
        rewrite_tokens (restore_decide P caller (target_label target)) text
          {| result_error := None; r_vault := V; r_audit := A; r_access := 0 |} in
      (match result_error s with Some e => Err e | None => Ok rewritten end, r_vault s, r_audit s)
  end.
End pipeline.

(** ** What the vault holds for a pipeline *)

Section vault_lemmas.
Context `{VaultPlatform} (E' : environment) (ag : bytes) (sess : option bytes) (caller : Caller).
Implicit Types (V : vault) (tk p : bytes).

(** A row the restoring side can use: it yields [p] to the caller at every
    clock reading. *)
Definition good_row p (r : Row) : Prop :=
  (∀ i, is_expired (clock_at E' i) r = false) ∧ decrypt ag (original_enc r) = Some p
  ∧ ∃ sc, scope_of_json (row_scope r) = Some sc ∧ allows sc caller = true.

(** Every row of a token yields [p]; some row of it is visible. *)
Definition agrees V tk p : Prop := ∀ s r, V !! (tk, ag, s) = Some r → good_row p r.
Definition present V tk : Prop :=
  ∃ s r, V !! (tk, ag, s) = Some r ∧ (s = session_key sess ∨ cross_session r = true).

Lemma lookup_agreed i V tk p :
  faults_at E' i = vault_ok → agrees V tk p → present V tk → valid_utf8 p = true →
  ∃ e, lookup_mapping (faults_at E' i) (clock_at E' i) tk ag sess V = Ok (Some e)
    ∧ allows (entry_scope e) caller = true ∧ original e = Some p.
Proof.
  intros -> Ha (s & r & Hl & Hs) Hv. unfold lookup_mapping. simpl.
  destruct (first_row _) as [[[[t a] s'] r']|] eqn:Ef.
  - apply first_row_in, elem_of_candidates in Ef as [Hl' (-> & -> & _)%row_matches_spec].
    destruct (Ha _ _ Hl') as (Hx & Hd & sc & Hsc & Hal). rewrite Hsc, Hx, Hd, Hv.
    eexists. by split_and!.
  - apply first_row_none in Ef.
    assert (((tk, ag, s), r) ∈ retain (row_matches tk ag sess) (map_to_list V)) as Hin
      by (apply elem_of_candidates; split; [done|by apply row_matches_spec]).
    rewrite Ef in Hin. by apply elem_of_nil in Hin.
Qed.

Lemma reveal_keeps F now t a s V tk p :
  (agrees V tk p → agrees (record_reveal F now t a s V).2 tk p)
  ∧ (present V tk → present (record_reveal F now t a s V).2 tk).
Proof.
  unfold record_reveal. destruct (db_fails F); [done|]. simpl. split.
  - intros Ha s' r'. rewrite map_lookup_imap. intros (r & Hl & Hr)%bind_Some. simplify_eq.
    specialize (Ha _ _ Hl). by destruct (row_matches _ _ _ _).
  - intros (s' & r & Hl & Hs). exists s'. rewrite map_lookup_imap, Hl. simpl.
    eexists. split; [done|]. by destruct (row_matches _ _ _ _).
Qed.
End vault_lemmas.

(** ** Redaction, step by step *)

Section redact_lemmas.
Context `{VaultPlatform} `{Hmac} (E E' : environment) (P : RedactionPipeline) (caller : Caller).
Implicit Types (V : vault) (A : list AuditEvent) (text : bytes) (m : MatchedSpan) (ms : list MatchedSpan).

Definition hash_of m : bytes := session_hash (salt_of P (rule m)) (matched (span m)).
Definition token_of m : bytes := wire (rule_category (rule m)) (hash_of m).

(** The text a redaction of the spans writes from [cursor] on. *)
Fixpoint redacted_from text ms (cursor : nat) : bytes :=
  match ms with
  | [] => drop cursor text
  | m :: ms' =>
      take (start (span m) - cursor) (drop cursor text) ++ token_of m
        ++ redacted_from text ms' (end_ (span m))
  end.

Lemma mint_token_ok i m source path V A tok V' A' :
  (∀ j k, clock_at E' j < as_i64 (clock_at E k + as_i64 (vault_ttl_hours P * 3600))) →
  allows (restore_scope (rule m)) caller = true →
  mint_token E P i (matched (span m)) (rule m) source path V A = (Ok tok, V', A') →
  well_formed (rule_category (rule m)) (hash_of m) ∧ as_str tok = token_of m
  ∧ present (agent_id P) (session_id P) V' (token_of m)
  ∧ (∀ tk, present (agent_id P) (session_id P) V tk → present (agent_id P) (session_id P) V' tk)
  ∧ (∀ tk p, agrees E' (agent_id P) caller V tk p → (tk = token_of m → p = matched (span m)) →
       agrees E' (agent_id P) caller V' tk p).
Proof.
  intros Hclock Hal. unfold mint_token. unfold Token_new. fold (hash_of m).
  destruct (validate_category _) as [[]|] eqn:Ec; [|done].
  destruct (validate_hash _) as [[]|] eqn:Eh; [|done]. cbn [as_str].
  destruct (insert_mapping _ _ _ _ _ _ _ _ _ _ _ _ V) as [[[]|e] V1] eqn:Ei; [|done].
  destruct (source_meta source) as [sc sd]. intros. simplify_eq/=.
  apply insert_mapping_ok in Ei as (c & Hc & ->).
  assert (session_key (vault_session P (rule m)) = session_key (session_id P)
          ∨ cross_session_stable (rule m) = true) as Hs
    by (unfold vault_session; destruct (cross_session_stable (rule m)); auto).
  split_and!; [done|done| | |].
  - eexists _, _. by rewrite lookup_insert_eq.
  - intros tk (s & r & Hl & Hm).
    destruct (decide ((tk, agent_id P, s) = (token_of m, agent_id P, session_key (vault_session P (rule m))))) as [Hk|Hne].
    + simplify_eq. eexists _, _. by rewrite lookup_insert_eq.
    + exists s, r. by rewrite lookup_insert_ne.
  - intros tk p Ha Heq s r [[? <-]|[_ Hl]]%lookup_insert_Some; [|by apply (Ha s)].
    simplify_eq. rewrite Heq by done. split_and!.
    + intros j. unfold is_expired. simpl. apply Z.leb_gt. apply Hclock.
    + by eapply decrypt_encrypt.
    + exists (restore_scope (rule m)). simpl. by rewrite scope_roundtrip.
Qed.

(** Spans as rules report them: inside the text, with their own text. *)
Definition span_ok text m : Prop :=
  nonempty_span m ∧ slice text (start (span m)) (end_ (span m)) = Some (matched (span m)).

Lemma slice_some text i j x :
  slice text i j = Some x →
  (i ≤ j ≤ length text)%nat ∧ is_char_boundary text i = true ∧ is_char_boundary text j = true
  ∧ x = take (j - i) (drop i text).
Proof.
  unfold slice. destruct (_ && _) eqn:Hb; [|done]. reflect_bools. intros. simplify_eq.
  split_and!; done || lia.
Qed.

Lemma slice_ok text i j :
  (i ≤ j ≤ length text)%nat → is_char_boundary text i = true → is_char_boundary text j = true →
  slice text i j = Some (take (j - i) (drop i text)).
Proof.
  intros [H1 H2] Hi Hj. unfold slice. rewrite Hi, Hj.
  by rewrite (proj2 (Nat.leb_le i j)), (proj2 (Nat.leb_le j (length text))).
Qed.

(** The loop writes [redacted_from], and afterwards every token of the spans
    is present and yields its original. *)
Lemma redact_loop_spec text source ms i out cursor toks V A r V' A' :
  (∀ j k, clock_at E' j < as_i64 (clock_at E k + as_i64 (vault_ttl_hours P * 3600))) →
  Forall (span_ok text) ms → Forall (λ m, allows (restore_scope (rule m)) caller = true) ms →
  (∀ m m', m ∈ ms → m' ∈ ms → token_of m = token_of m' → matched (span m) = matched (span m')) →
  (∀ m, m ∈ ms → agrees E' (agent_id P) caller V (token_of m) (matched (span m))) →
  redact_loop E P text source ms i out cursor toks V A = Some (Ok r, V', A') →
  redacted_text r = out ++ redacted_from text ms cursor
  ∧ Forall (λ m, well_formed (rule_category (rule m)) (hash_of m)) ms
  ∧ (∀ tk, present (agent_id P) (session_id P) V tk → present (agent_id P) (session_id P) V' tk)
  ∧ (∀ tk p, agrees E' (agent_id P) caller V tk p →
       (∀ m, m ∈ ms → tk = token_of m → p = matched (span m)) →
       agrees E' (agent_id P) caller V' tk p)
  ∧ ∀ m, m ∈ ms → present (agent_id P) (session_id P) V' (token_of m).
Proof.
  intros Hclock. revert i out cursor toks V A.
  induction ms as [|m ms IH]; intros i out cursor toks V A Hok Hal Hinj Hag; cbn [redact_loop redacted_from].
  - intros (rest & Hr & E0)%bind_Some. simplify_eq/=. apply slice_some in Hr as (Hb & _ & _ & ->).
    split_and!; [|done|done|auto|intros m Hm; by apply elem_of_nil in Hm].
    f_equal. apply take_ge. rewrite length_drop. lia.
  - intros (lead & Hr & E0)%bind_Some. apply slice_some in Hr as (Hb & _ & _ & ->).
    inversion Hok as [|? ? Hm Hok']; inversion Hal as [|? ? Ham Hal']; subst.
    destruct (mint_token _ _ _ _ _ _ _ _ _) as [[[tok|e] V1] A1] eqn:Em; [|done].
    apply mint_token_ok in Em as (Hwf & Htok & Hp1 & Hpk & Hagk); [|done|done].
    apply IH in E0 as (H1 & H2 & H3 & H4 & H5); [|done|done| |].
    + split_and!.
      * rewrite H1, Htok. by rewrite <- !app_assoc.
      * by constructor.
      * auto.
      * intros tk p Ha Hp. apply H4; [apply Hagk; [done|]|]; intros; apply Hp; try done; [left|by right].
      * intros m' [->|Hm']%elem_of_cons; auto.
    + intros m1 m2 H1 H2. apply Hinj; by right.
    + intros m' Hm'. apply Hagk; [apply Hag; by right|]. intros Ht. apply Hinj; [by right|left|done].
Qed.

(** A present token of a good row is replaced by its original. *)
Lemma restore_decide_ok tk p target (st : restore_state) :
  (∀ i, faults_at E' i = vault_ok) → result_error st = None → valid_utf8 p = true →
  agrees E' (agent_id P) caller (r_vault st) tk p →
  present (agent_id P) (session_id P) (r_vault st) tk →
  ∃ st1, restore_decide E' P caller target {| as_str := tk |} st = (Replace p, st1)
    ∧ result_error st1 = None
    ∧ ∃ a s F now, r_vault st1 = (record_reveal F now tk a s (r_vault st)).2.
Proof.
  intros HF He Hv Ha Hp.
  destruct (lookup_agreed E' (agent_id P) (session_id P) caller (r_access st) (r_vault st) tk p
    (HF _) Ha Hp Hv) as (e & Hl & Hal & Ho).
  unfold restore_decide. rewrite He. cbn [as_str]. rewrite Hl, Hal, Ho.
  eexists. split_and!; [done|done|by eexists _, _, _, _].
Qed.

(** Restoring the rest of a redacted text. *)
Lemma restore_loop_spec text ms fuel out cursor target (st : restore_state) :
  (∀ i, faults_at E' i = vault_ok) → literal text → result_error st = None →
  Forall (span_ok text) ms → StronglySorted before ms →
  (∀ m, m ∈ ms → (cursor ≤ start (span m))%nat) → (cursor ≤ length text)%nat →
  is_char_boundary text cursor = true →
  Forall (λ m, well_formed (rule_category (rule m)) (hash_of m)) ms →
  Forall (λ m, valid_utf8 (matched (span m)) = true) ms →
  (∀ m, m ∈ ms → agrees E' (agent_id P) caller (r_vault st) (token_of m) (matched (span m))
                 ∧ present (agent_id P) (session_id P) (r_vault st) (token_of m)) →
  (length ms ≤ fuel)%nat →
  ∃ st', rewrite_loop (restore_decide E' P caller target) fuel out (redacted_from text ms cursor) st
         = (out ++ drop cursor text, st') ∧ result_error st' = None.
Proof.
  intros HF Hlit. revert fuel out cursor st.
  induction ms as [|m ms IH]; intros fuel out cursor st He Hok Hs Hc Hlen Hb Hwf Hv Hag Hf; cbn [redacted_from].
  - exists st. split; [|done]. apply rewrite_literal.
    apply (contains_slice text cursor (length text)); [done|].
    rewrite slice_ok by (try apply boundary_end; done || lia).
    f_equal. apply take_ge. rewrite length_drop. lia.
  - destruct fuel as [|fuel]; [simpl in Hf; lia|].
    inversion Hok as [|? ? [Hne Hsl] Hok']; inversion Hs as [|? ? Hs' Hbef]; subst.
    inversion Hwf as [|? ? Hw Hwf']; inversion Hv as [|? ? Hvm Hv']; subst.
    pose proof (slice_some _ _ _ _ Hsl) as (Hr & Hbs & Hbe & Hm).
    assert (cursor ≤ start (span m))%nat as Hcm by (apply Hc; left).
    change (token_of m) with (wire (rule_category (rule m)) (hash_of m)).
    rewrite rewrite_token; [|by apply (contains_slice text cursor (start (span m))); [|apply slice_ok; done || lia]|done].
    destruct (Hag m) as [Ha Hp]; [left|].
    destruct (restore_decide_ok (token_of m) (matched (span m)) target st) as (st1 & Hd & He1 & a & s & F & now & HV);
      try done.
    unfold piece_of. fold (token_of m). rewrite Hd. cbn [fst snd].
    edestruct (IH fuel (out ++ take (start (span m) - cursor) (drop cursor text) ++ matched (span m))
      (end_ (span m)) st1) as (st' & E1 & E2); try done.
    + intros m' Hm'. rewrite List.Forall_forall in Hbef. apply Hbef. by apply list_elem_of_In.
    + lia.
    + intros m' Hm'. destruct (Hag m') as [Ha' Hp']; [by right|]. rewrite HV.
      pose proof (reveal_keeps E' (agent_id P) (session_id P) caller F now (token_of m) a s (r_vault st)
        (token_of m') (matched (span m'))) as [K1 K2]. auto.
    + simpl in Hf. lia.
    + exists st'. split; [|done]. rewrite E1. f_equal. rewrite <- !app_assoc. f_equal.
      rewrite Hm. rewrite <- (take_drop (start (span m) - cursor) (drop cursor text)) at 2. f_equal.
      rewrite drop_drop. replace (cursor + (start (span m) - cursor))%nat with (start (span m)) by lia.
      rewrite <- (take_drop (end_ (span m) - start (span m)) (drop (start (span m)) text)) at 2. f_equal.
      rewrite drop_drop. f_equal. unfold nonempty_span in Hne. lia.
Qed.

Lemma redacted_length text ms cursor : (length ms ≤ length (redacted_from text ms cursor))%nat.
Proof.
  revert cursor. induction ms as [|m ms IH]; intros cursor; cbn [redacted_from length]; [lia|].
  rewrite !length_app. pose proof (wire_length_pos (rule_category (rule m)) (hash_of m)) as Hw.
  specialize (IH (end_ (span m))). unfold token_of. lia.
Qed.

(** Slicing never fails on what overlap resolution returns. *)
Lemma redact_loop_total text source ms i out cursor toks V A :
  Forall (span_ok text) ms → StronglySorted before ms →
  (∀ m, m ∈ ms → (cursor ≤ start (span m))%nat) → (cursor ≤ length text)%nat →
  is_char_boundary text cursor = true →
  ∃ res, redact_loop E P text source ms i out cursor toks V A = Some res.
Proof.
  revert i out cursor toks V A. induction ms as [|m ms IH]; intros i out cursor toks V A Hok Hs Hc Hl Hb.
  - cbn [redact_loop]. rewrite slice_ok by (try apply boundary_end; done || lia). by eexists.
  - inversion Hok as [|? ? [Hne Hsl] Hok']; inversion Hs as [|? ? Hs' Hbef]; subst.
    apply slice_some in Hsl as (Hr & Hbs & Hbe & _). cbn [redact_loop].
    assert (cursor ≤ start (span m))%nat as Hcm by (apply Hc; left).
    rewrite slice_ok by (done || lia). cbn [mbind option_bind].
    destruct (mint_token _ _ _ _ _ _ _ _ _) as [[[tok|e] V1] A1]; [|by eexists].
    apply IH; try done; [|lia].
    intros m' Hm'. rewrite List.Forall_forall in Hbef. by apply Hbef, list_elem_of_In.
Qed.

(** Rules that answer, and report what the text holds. *)
Definition sound_matches text (source : Source) : Prop :=
  is_Some (all_text_matches (rules P) text source)
  ∧ ∀ m, reported (rules P) text source m → span_ok text m ∧ valid_utf8 (matched (span m)) = true.

Lemma matches_for_spec text source :
  sound_matches text source →
  ∃ ms, matches_for P text source = Some ms ∧ StronglySorted before ms
  ∧ ∀ m, m ∈ ms → reported (rules P) text source m.
Proof.
  intros [[all Hall] Hs]. destruct (overlaps_resolved all) as (H1 & H2 & _).
  - apply List.Forall_forall. intros m Hm%list_elem_of_In. destruct (Hs m) as [[? _] _]; [|done]. by exists all.
  - unfold matches_for, apply. rewrite Hall. cbn [mbind option_bind fmap option_fmap option_map].
    eexists. split; [done|]. split; [by apply StronglySorted_retain, StronglySorted_retain|].
    intros m Hm. apply elem_of_retain in Hm as [[Hm _]%elem_of_retain _]. exists all. auto.
Qed.

(** What is reported is among the matches unless its category is not
    allowed, it touches a token, or a stronger match stands in its way. *)
Lemma matches_for_inv text source ms :
  matches_for P text source = Some ms →
  ∀ m, m ∈ ms → overlaps_any (start (span m)) (end_ (span m)) (token_spans text) = false.
Proof.
  unfold matches_for. intros Hms. apply bind_Some in Hms as (found & _ & [= <-]). intros m Hm.
  apply elem_of_retain in Hm as [_ Ho]. by apply negb_true_iff.
Qed.

(** What [restore] does to a text without tokens, and to a redacted one. *)
Lemma restore_literal text target V A :
  literal text → ∃ V'' A'', restore E' P text caller target V A = (Ok text, V'', A'').
Proof.
  intros Hl. unfold restore, rewrite_tokens.
  destruct target; rewrite ?rewrite_literal by done; by eexists _, _.
Qed.

Lemma restore_redacted text ms target V A :
  literal text → Forall (span_ok text) ms → StronglySorted before ms →
  (∀ i, faults_at E' i = vault_ok) → target ≠ AuditLog →
  Forall (λ m, well_formed (rule_category (rule m)) (hash_of m)) ms →
  Forall (λ m, valid_utf8 (matched (span m)) = true) ms →
  (∀ m, m ∈ ms → agrees E' (agent_id P) caller V (token_of m) (matched (span m))
                 ∧ present (agent_id P) (session_id P) V (token_of m)) →
  ∃ V'' A'', restore E' P (redacted_from text ms 0) caller target V A = (Ok text, V'', A'').
Proof.
  intros Hlit Hok Hb HF Ht Hwf Hv Hag. unfold restore, rewrite_tokens.
  destruct (restore_loop_spec text ms (S (length (redacted_from text ms 0))) [] 0 (target_label target)
    {| result_error := None; r_vault := V; r_audit := A; r_access := 0 |}) as (st & Hl & He); try done.
  - intros. lia.
  - lia.
  - pose proof (redacted_length text ms 0). lia.
  - destruct target; [..|done]; rewrite Hl, He; by eexists _, _.
Qed.

(** Redaction never panics when its rules answer with non-empty spans of the
    text on character boundaries, whatever the vault's faults. *)
Theorem redact_total text source V A :
  sound_matches text source → ∃ res, redact E P text source V A = Some res.
Proof.
  intros Hs. destruct (matches_for_spec text source Hs) as (ms & Em & Hb & Hin).
  unfold redact. destruct (negb _); [by eexists|]. rewrite Em. cbn [mbind option_bind].
  destruct ms as [|m ms]; [by eexists|].
  apply redact_loop_total; [|done|lia|lia|].
  - apply List.Forall_forall. intros x Hx%list_elem_of_In. by apply Hs, Hin.
  - done.
Qed.

(** C17 Redaction and restoring round-trip: when the rules answer with what
    the text holds, the characters [<REDACT:] stand nowhere in the text, no two
    different matches share a token, and the vault holds nothing else under
    these tokens, then what a successful redaction wrote is restored to exactly
    the original text, for any caller the rules allow and any target but the
    audit log, before the rows expire and while no vault access fails. *)
Theorem redact_restore_roundtrip text source V A out V' A' target :
  literal text → sound_matches text source →
  (∀ m, reported (rules P) text source m →
     allows (restore_scope (rule m)) caller = true
     ∧ agrees E' (agent_id P) caller V (token_of m) (matched (span m))
     ∧ ∀ m', reported (rules P) text source m' →
         token_of m = token_of m' → matched (span m) = matched (span m')) →
  (∀ j k, clock_at E' j < as_i64 (clock_at E k + as_i64 (vault_ttl_hours P * 3600))) →
  (∀ j, faults_at E' j = vault_ok) → target ≠ AuditLog →
  redact E P text source V A = Some (Ok out, V', A') →
  ∃ V'' A'', restore E' P (redacted_text out) caller target V' A' = (Ok text, V'', A'').
Proof.
  intros Hlit Hs Hall Hclock HF Ht Hr. destruct (matches_for_spec text source Hs) as (ms & Ems & Hb & Hin).
  unfold redact in Hr. destruct (negb _); [simplify_eq/=; by apply restore_literal|].
  rewrite Ems in Hr. cbn [mbind option_bind] in Hr.
  destruct ms as [|m0 ms0] eqn:Em; [simplify_eq/=; by apply restore_literal|]. rewrite <- Em in *.
  assert (Forall (span_ok text) ms) as Hok
    by (apply List.Forall_forall; intros x Hx%list_elem_of_In; by apply Hs, Hin).
  apply redact_loop_spec in Hr as (Ho & Hwf & _ & Hkeep & Hpres); [|done|done| | |].
  - rewrite Ho. apply restore_redacted; try done.
    + apply List.Forall_forall. intros x Hx%list_elem_of_In. by apply Hs, Hin.
    + intros m Hm. split; [|by apply Hpres]. apply Hkeep; [by apply Hall, Hin|].
      intros m' Hm' Heq. symmetry. by apply (Hall m'); [apply Hin|apply Hin|].
  - apply List.Forall_forall. intros x Hx%list_elem_of_In. by apply Hall, Hin.
  - intros m m' Hm Hm' Heq. by apply (Hall m); [apply Hin|apply Hin|].
  - intros m Hm. by apply Hall, Hin.
Qed.
End redact_lemmas.

(** ** Concrete runs *)

(** Matches of a fixed word: its first occurrence. *)
Definition match_word (word : bytes) (text : bytes) : option (list Match) :=
  Some
    match find text word with
    | Some i => [{| start := i; end_ := (i + length word)%nat; matched := word |}]
    | None => []
    end.

Definition demo_word_rule (id category : bytes) (prio : Z) (m : bytes → option (list Match)) : Rule := {|
  rule_id := id; rule_category := category; restore_scope := Owner; priority := prio;
  cross_session_stable := false; apply_to_system_prompt := false; engine_kind := b "regex";
  model_revision := None; match_text := m
|}.

Definition demo_env (now : Z) : environment := {|
  faults_at := λ _, vault_ok; clock_at := λ _, now; nonce_at := λ _, 0%N; date_of := λ _, b "1970-01-01"
|}.

Definition demo_pipeline (rs : list Rule) : RedactionPipeline :=
  Pipeline_new (H0 := demo_hmac) rs (b "ann") (Some (b "s1")) (b "key") SourcePolicy_default 24.
Definition mail_pipeline : RedactionPipeline :=
  demo_pipeline [demo_word_rule (b "email") (b "EMAIL") 50 (match_word (b "a@b.c"))].

Definition demo_redact (P : RedactionPipeline) (text : bytes) :=
  redact (H := demo_platform) (H0 := demo_hmac) (demo_env 1000) P text (ToolResult (b "t")) ∅ [].
Definition demo_restore (P : RedactionPipeline) (text : bytes) (V : vault) :=
  restore (H := demo_platform) (demo_env 2000) P text (owner (b "ann")) UserChannel V [].

Definition mail_match : MatchedSpan :=
  {| rule := demo_word_rule (b "email") (b "EMAIL") 50 (match_word (b "a@b.c"));
     span := {| start := 3; end_ := 8; matched := b "a@b.c" |} |}.

Lemma mail_matches :
  all_text_matches (rules mail_pipeline) (b "to a@b.c now") (ToolResult (b "t")) = Some [mail_match].
Proof. reflexivity. Qed.

Lemma mail_reported m :
  reported (rules mail_pipeline) (b "to a@b.c now") (ToolResult (b "t")) m → m = mail_match.
Proof. intros (all & Hall & Hm). rewrite mail_matches in Hall. injection Hall as <-. by apply list_elem_of_singleton in Hm. Qed.

Lemma redact_total_witness :
  sound_matches mail_pipeline (b "to a@b.c now") (ToolResult (b "t"))
  ∧ ∃ res, demo_redact mail_pipeline (b "to a@b.c now") = Some res.
Proof.
  assert (sound_matches mail_pipeline (b "to a@b.c now") (ToolResult (b "t"))) as Hs.
  { split; [rewrite mail_matches; by eexists|]. intros m ->%mail_reported.
    split; [split; [unfold nonempty_span; vm_compute; lia|]|]; vm_compute; reflexivity. }
  split; [exact Hs|].
  exact (redact_total (H := demo_platform) (H0 := demo_hmac) (demo_env 1000) mail_pipeline
    (b "to a@b.c now") (ToolResult (b "t")) ∅ [] Hs).
Defined.

Lemma redact_restore_roundtrip_witness :
  ∃ out V' A', demo_redact mail_pipeline (b "to a@b.c now") = Some (Ok out, V', A')
    ∧ contains (redacted_text out) (b "a@b.c") = false
    ∧ ∃ V'' A'', restore (H := demo_platform) (demo_env 2000) mail_pipeline (redacted_text out)
        (owner (b "ann")) UserChannel V' A' = (Ok (b "to a@b.c now"), V'', A'').
Proof.
  assert (match demo_redact mail_pipeline (b "to a@b.c now") with
          | Some (Ok out, _, _) => negb (contains (redacted_text out) (b "a@b.c"))
          | _ => false
          end = true) as Hc by (vm_compute; reflexivity).
  destruct (demo_redact mail_pipeline (b "to a@b.c now")) as [[[[out|] V'] A']|] eqn:Hr;
    [|discriminate..].
  exists out, V', A'. split; [reflexivity|]. split; [by apply negb_true_iff|].
  eapply (redact_restore_roundtrip (H := demo_platform) (H0 := demo_hmac) (demo_env 1000) (demo_env 2000)
    mail_pipeline (owner (b "ann")) (b "to a@b.c now") (ToolResult (b "t")) ∅ []).
  - vm_compute. reflexivity.
  - split; [rewrite mail_matches; by eexists|]. intros m ->%mail_reported.
    split; [split; [unfold nonempty_span; vm_compute; lia|]|]; vm_compute; reflexivity.
  - intros m ->%mail_reported.
    split; [vm_compute; reflexivity|]. split; [intros s r Hl; by rewrite lookup_empty in Hl|].
    by intros m' ->%mail_reported.
  - intros j k. vm_compute. reflexivity.
  - intros j. reflexivity.
  - discriminate.
  - exact Hr.
Defined.

(** An unclosed marker hides the next token: after a text that already
    holds [<REDACT:] is redacted, restoring takes everything from the marker
    to the token's end for one candidate, which does not parse, and the owner
    gets the token back instead of the value. *)
Lemma open_marker_blocks_restore :
  match demo_redact mail_pipeline (b "<REDACT: to a@b.c") with
  | Some (Ok out, V', _) =>
      redacted_text out ≠ b "<REDACT: to a@b.c"
      ∧ (demo_restore mail_pipeline (redacted_text out) V').1.1 = Ok (redacted_text out)
  | _ => False
  end.
Proof. vm_compute. split; [discriminate|reflexivity]. Qed.

(** What the pattern [\d*] matches in ["ab12"]. *)
Definition digits_star : list Match :=
  [{| start := 0; end_ := 0; matched := [] |}; {| start := 1; end_ := 1; matched := [] |};
   {| start := 2; end_ := 4; matched := b "12" |}; {| start := 4; end_ := 4; matched := [] |}].

(** An empty match makes redaction panic: with a pattern that matches the
    empty string beside one of higher priority that starts at the same place,
    overlap resolution keeps both and the text is sliced backwards. *)
Lemma empty_match_panics :
  demo_redact
    (demo_pipeline [demo_word_rule (b "w") (b "WORD") 90 (match_word (b "ab"));
                    demo_word_rule (b "d") (b "NUM") 50 (λ _, Some digits_star)]) (b "ab12") = None.
Proof. vm_compute. reflexivity. Qed.
