(* ===== verification/RuleSpecs.v ===== *)
(** * Rule specifications ([RuleSpec] and [RuleKind] of
    crates/duduclaw-redaction/src/rules/mod.rs)

    What an operator writes; the files of the rule kinds compile it. *)

From S2P Require Import Prelude.
From S2P Require Import Bytes.
From S2P Require Import Vault.

(** The payload of [RuleKind::JsonPath]. *)
Record JsonPathKind := {
  raw_paths : list bytes;
  kind_match_tool : option bytes;
  kind_match_args : gmap bytes bytes;
  kind_match_result : gmap bytes bytes;
  kind_exclude_keys : list bytes;
}.

Inductive RuleKind :=
| KindRegex (pattern : bytes)
| KindIdentity (source : bytes)
| KindKeyword (values : list bytes) (case_sensitive : bool)
| KindJsonPath (k : JsonPathKind)
| KindDbField (source connector : option bytes) (fields : list bytes)
| KindNer (labels : list bytes) (min_chars max_chars : option nat).

Record RuleSpec := {
  spec_id : bytes;
  spec_category : bytes;
  spec_scope : RestoreScope;
  spec_priority : Z;
  spec_stable : bool;
  spec_system_prompt : bool;
  enabled : bool;
  kind : RuleKind;
}.

(** The [Debug] text of a kind and of a list of strings, which only appear in
    messages. *)
Class RuleDebug := { debug_kind : RuleKind → bytes; debug_strings : list bytes → bytes }.

