(* ===== verification/Keyword.v ===== *)
(** * Keyword rules (crates/duduclaw-redaction/src/rules/keyword.rs)

    A list of terms, found in the text byte by byte: terms with ASCII
    alphanumeric ends as whole words, others as substrings; case is folded
    without moving a byte.  [None] is a panic of a slice (or a round too many
    of the scanning loop). *)

From S2P Require Import Prelude.
From S2P Require Import Bytes.
From S2P Require Import Utf8.
From S2P Require Import Chars.
From S2P Require Import RedactToken.
From S2P Require Import Vault.
From S2P Require Import RedactEngine.
From S2P Require Import Redaction.
From S2P Require Import RuleSpecs.

(** [char::to_lowercase], by the tables of Unicode. *)
Class CharLower := { char_lower : N → list N }.

Record KeywordRule := {
  kw_spec : RuleSpec;
  needles : list bytes;
  kw_case_sensitive : bool;
}.

Definition is_ascii_alphanumeric (c : N) : bool :=
  (((48 <=? c) && (c <=? 57)) || ((65 <=? c) && (c <=? 90)) || ((97 <=? c) && (c <=? 122)))%N.

Definition use_word_boundary (needle : bytes) : bool :=
  match head (utf8_decode needle), list.last (utf8_decode needle) with
  | Some a, Some z => is_ascii_alphanumeric a && is_ascii_alphanumeric z
  | _, _ => false
  end.

Definition word_byte (x : N) : bool := is_ascii_alphanumeric x || (x =? 95)%N.
Definition is_word_byte (bs : bytes) (idx : nat) : bool :=
  match bs !! idx with Some x => word_byte x | None => false end.
(** [is_word_byte(bytes, start.wrapping_sub(1))]: no byte has index [usize::MAX]. *)
Definition word_before (bs : bytes) (start : nat) : bool :=
  match start with O => false | S i => is_word_byte bs i end.

Section folding.
Context `{CharLower}.

Definition fold_char (c : N) : N :=
  match char_lower c with
  | [l] => if (len_utf8 l =? len_utf8 c)%nat then l else c
  | _ => c
  end.
Definition lowercase_preserving_byte_offsets (text : bytes) : bytes :=
  utf8_encode (map fold_char (utf8_decode text)).

(** The loop over the occurrences of one needle. *)
Fixpoint needle_loop (fuel : nat) (hay text needle : bytes) (boundary : bool) (from : nat) : option (list Match) :=
  match fuel with
  | O => None
  | S fuel' =>
      rest ← slice hay from (length hay);
      match find rest needle with
      | None => Some []
      | Some rel =>
          let start := (from + rel)%nat in
          let end_ := (start + length needle)%nat in
          let next := Nat.max end_ (start + 1) in
          if (if boundary then negb (word_before hay start) && negb (is_word_byte hay end_) else true) then
            original ← slice text start end_;
            ms ← needle_loop fuel' hay text needle boundary next;
            Some ({| RedactEngine.start := start; RedactEngine.end_ := end_; matched := original |} :: ms)
          else needle_loop fuel' hay text needle boundary next
      end
  end.

(** The loop over the needles. *)
Fixpoint needles_loop (hay text : bytes) (needles : list bytes) : option (list Match) :=
  match needles with
  | [] => Some []
  | needle :: r =>
      ms ← needle_loop (S (length hay)) hay text needle (use_word_boundary needle) 0;
      rest ← needles_loop hay text r;
      Some (ms ++ rest)
  end.

Definition match_needles (text : bytes) (needles : list bytes) (case_sensitive : bool) : option (list Match) :=
  needles_loop (if case_sensitive then text else lowercase_preserving_byte_offsets text) text needles.

Definition KeywordRule_compile `{RuleDebug} (s : RuleSpec) : result KeywordRule RedactionError :=
  match kind s with
  | KindKeyword values case_sensitive =>
      let cleaned := retain (λ v, negb (is_empty v)) (map trim_bytes values) in
      if is_empty cleaned then Err (RuleCompile (spec_id s) (b "keyword rule has no non-empty values"))
      else
        Ok {| kw_spec := s;
              needles := if case_sensitive then cleaned else map lowercase_preserving_byte_offsets cleaned;
              kw_case_sensitive := case_sensitive |}
  | other => Err (RuleCompile (spec_id s) (b "expected Keyword kind, got " ++ debug_kind other))
  end.

(** [impl Rule for KeywordRule]. *)
Definition keyword_rule (r : KeywordRule) : Rule := {|
  rule_id := spec_id (kw_spec r);
  rule_category := spec_category (kw_spec r);
  restore_scope := spec_scope (kw_spec r);
  priority := spec_priority (kw_spec r);
  cross_session_stable := spec_stable (kw_spec r);
  apply_to_system_prompt := spec_system_prompt (kw_spec r);
  engine_kind := b "rule";
  model_revision := None;
  match_text := λ text, match_needles text (needles r) (kw_case_sensitive r)
|}.
End folding.

(** ** One needle *)

Section scan.
Context `{CharLower}.

(** Two occurrences of the needle can overlap. *)
Definition bordered (w : bytes) : bool := existsb (λ k, starts_with w (drop k w)) (seq 1 (length w - 1)).

Definition qualifies (hay : bytes) (boundary : bool) (start end_ : nat) : bool :=
  if boundary then negb (word_before hay start) && negb (is_word_byte hay end_) else true.

(** A match stands for its needle: it is a piece of the text on character
    boundaries, and at its place the scanned text holds the needle. *)
Definition found_at (T : ustr) (f : N → N) (N : ustr) (m : Match) : Prop :=
  ∃ A B C, T = A ++ B ++ C ∧ map f B = N ∧ RedactEngine.start m = length (utf8_encode A)
    ∧ RedactEngine.end_ m = length (utf8_encode (A ++ B)) ∧ matched m = utf8_encode B.

Context (f : N → N) (f_len : ∀ c, len_utf8 (f c) = len_utf8 c).

Lemma map_len s : length (utf8_encode (map f s)) = length (utf8_encode s).
Proof.
  induction s as [|c s IH]; [done|]. cbn [map]. rewrite !utf8_encode_cons, !length_app, IH.
  specialize (f_len c). unfold len_utf8 in f_len. lia.
Qed.

Lemma map_app_split (T : ustr) l r : map f T = l ++ r → ∃ L R, T = L ++ R ∧ map f L = l ∧ map f R = r.
Proof.
  revert l. induction T as [|c T IH]; intros l He.
  - cbn in He. destruct l, r; try done. by exists [], [].
  - destruct l as [|x l]; cbn in He; [by exists [], (c :: T)|]. injection He as <- He.
    destruct (IH l He) as (L & R & -> & <- & <-). by exists (c :: L), R.
Qed.

Lemma encode_pos (n : ustr) : n ≠ [] → (0 < length (utf8_encode n))%nat.
Proof.
  destruct n as [|c n]; [done|]. intros _. rewrite utf8_encode_cons, length_app. pose proof (len_utf8_pos c).
  unfold len_utf8 in *. lia.
Qed.

Lemma is_word_byte_app (a : bytes) (x : N) (r : bytes) : is_word_byte (a ++ x :: r) (length a) = word_byte x.
Proof. unfold is_word_byte. rewrite lookup_app_r, Nat.sub_diag by done. done. Qed.

(** Inside an occurrence of a needle of word bytes, a word byte comes before
    every place but the first. *)
Lemma word_before_inside (a w r : bytes) i :
  forallb word_byte w = true → (length a < i ≤ length a + length w)%nat → word_before (a ++ w ++ r) i = true.
Proof.
  intros Hw Hi. destruct i as [|i]; [lia|]. cbn. unfold is_word_byte.
  rewrite lookup_app_r, lookup_app_l by lia. destruct (lookup_lt_is_Some_2 w (i - length a)) as [x Hx]; [lia|].
  rewrite Hx. rewrite forallb_forall in Hw. apply Hw, list_elem_of_In. by eapply list_elem_of_lookup_2.
Qed.

Lemma overlap_bordered (a a' w r r' : bytes) :
  a ++ w ++ r = a' ++ w ++ r' → (length a < length a' < length a + length w)%nat → bordered w = true.
Proof.
  intros He Hl. unfold bordered. apply existsb_exists. exists (length a' - length a)%nat. split; [apply in_seq; lia|].
  apply (f_equal (drop (length a'))) in He. rewrite drop_app_length in He.
  rewrite drop_app_ge, drop_app_le in He by lia. apply starts_with_spec.
  exists (drop (length (drop (length a' - length a) w)) w).
  apply (f_equal (take (length (drop (length a' - length a) w)))) in He. rewrite take_app_length in He.
  rewrite take_app_le in He by (rewrite length_drop; lia).
  etrans; [symmetry; apply take_drop|]. f_equal. by symmetry.
Qed.

Lemma needle_loop_spec (T n : ustr) (boundary : bool) :
  n ≠ [] → let w := utf8_encode n in let hay := utf8_encode (map f T) in let text := utf8_encode T in
  ∀ fuel p q, map f T = p ++ q → (length (utf8_encode q) < fuel)%nat →
  ∃ ms, needle_loop fuel hay text w boundary (length (utf8_encode p)) = Some ms
    ∧ Forall (found_at T f n) ms
    ∧ ∀ s1 s2, map f T = s1 ++ n ++ s2 → (length (utf8_encode p) ≤ length (utf8_encode s1))%nat →
        qualifies hay boundary (length (utf8_encode s1)) (length (utf8_encode s1) + length w) = true →
        (boundary = true → forallb word_byte w = true ∨ bordered w = false) →
        ∃ m, m ∈ ms ∧ (RedactEngine.start m ≤ length (utf8_encode s1) < RedactEngine.end_ m)%nat
          ∧ (boundary = true → RedactEngine.start m = length (utf8_encode s1)).
Proof.
  intros Hne w hay text. assert (0 < length w)%nat as Hw by (by apply encode_pos).
  induction fuel as [|fuel IH]; intros p q Hs Hf; [lia|]. cbn [needle_loop].
  assert (hay = utf8_encode p ++ utf8_encode q) as Hh by (unfold hay; by rewrite Hs, utf8_encode_app).
  assert (slice hay (length (utf8_encode p)) (length hay) = Some (utf8_encode q)) as ->.
  { unfold hay. rewrite Hs. pose proof (slice_encode p q []) as Hsl. by rewrite app_nil_r in Hsl. }
  cbn [mbind option_bind].
  destruct (find (utf8_encode q) w) as [rel|] eqn:Ef.
  2:{ exists []. split; [done|]. split; [constructor|]. intros s1 s2 He Hle _ _. exfalso.
      assert (utf8_encode q = drop (length (utf8_encode p)) (utf8_encode s1) ++ w ++ utf8_encode s2) as Hq.
      { assert (hay = utf8_encode s1 ++ w ++ utf8_encode s2) as Hh' by (unfold hay; by rewrite He, !utf8_encode_app).
        rewrite <- (drop_app_length (utf8_encode p) (utf8_encode q)), <- Hh, Hh'. by rewrite drop_app_le. }
      apply find_occurs in Hq as [i Hi]. congruence. }
  destruct (find_first _ _ _ Ef) as (a & r & Hq & Hrel & Hmin). cbv zeta.
  destruct (utf8_encode_sync q a n r Hne Hq) as (q1 & q2 & Eq & Ha & Hr). subst rel a r.
  assert (length (utf8_encode p) + length (utf8_encode q1) = length (utf8_encode (p ++ q1)))%nat as Hst
    by (rewrite utf8_encode_app; symmetry; apply length_app).
  assert (length (utf8_encode (p ++ q1)) + length w = length (utf8_encode ((p ++ q1) ++ n)))%nat as Hen
    by (rewrite (utf8_encode_app (p ++ q1)); symmetry; apply length_app).
  rewrite Hst, Hen.
  replace (Nat.max (length (utf8_encode ((p ++ q1) ++ n))) (length (utf8_encode (p ++ q1)) + 1))
    with (length (utf8_encode ((p ++ q1) ++ n))) by lia.
  assert (map f T = ((p ++ q1) ++ n) ++ q2) as HT by (by rewrite Hs, Eq, <- !app_assoc).
  destruct (IH ((p ++ q1) ++ n) q2 HT) as (ms & Hms & Hsound & Hcomp).
  { rewrite Eq, !utf8_encode_app, !length_app in Hf. pose proof (encode_pos n Hne). lia. }
  rewrite Hms.
  assert (∃ orig, slice text (length (utf8_encode (p ++ q1))) (length (utf8_encode ((p ++ q1) ++ n))) = Some orig
    ∧ ∀ st en, st = length (utf8_encode (p ++ q1)) → en = length (utf8_encode ((p ++ q1) ++ n)) →
        found_at T f n {| RedactEngine.start := st; RedactEngine.end_ := en; matched := orig |}) as (orig & Ho & Hfound).
  { rewrite <- app_assoc in HT. destruct (map_app_split T _ _ HT) as (A & R & -> & HA & HR).
    destruct (map_app_split R _ _ HR) as (B & C & -> & HB & HC).
    exists (utf8_encode B).
    assert (length (utf8_encode (p ++ q1)) = length (utf8_encode A)) as L1 by (rewrite <- HA; apply map_len).
    assert (length (utf8_encode ((p ++ q1) ++ n)) = length (utf8_encode (A ++ B))) as L2
      by (rewrite <- HA, <- HB, <- map_app; apply map_len).
    rewrite L1, L2. split; [apply slice_encode|]. intros st en -> ->. by exists A, B, C. }
  fold (qualifies hay boundary (length (utf8_encode (p ++ q1))) (length (utf8_encode ((p ++ q1) ++ n)))).
  set (mm := {| RedactEngine.start := length (utf8_encode (p ++ q1)); RedactEngine.end_ := length (utf8_encode ((p ++ q1) ++ n));
                matched := orig |}) in *.
  exists (if qualifies hay boundary (length (utf8_encode (p ++ q1))) (length (utf8_encode ((p ++ q1) ++ n))) then mm :: ms else ms).
  split_and!.
  - destruct (qualifies _ _ _ _); [by rewrite Ho|done].
  - destruct (qualifies _ _ _ _); [constructor; [by apply Hfound|done]|done].
  - intros s1 s2 He Hle Hqual Hcond.
    assert (length (utf8_encode (p ++ q1)) ≤ length (utf8_encode s1))%nat as Hfirst.
    { assert (utf8_encode q = drop (length (utf8_encode p)) (utf8_encode s1) ++ w ++ utf8_encode s2) as Hq'.
      { assert (hay = utf8_encode s1 ++ w ++ utf8_encode s2) as Hh' by (unfold hay; by rewrite He, !utf8_encode_app).
        rewrite <- (drop_app_length (utf8_encode p) (utf8_encode q)), <- Hh, Hh'. by rewrite drop_app_le. }
      apply Hmin in Hq'. rewrite length_drop in Hq'. lia. }
    destruct (Nat.le_gt_cases (length (utf8_encode ((p ++ q1) ++ n))) (length (utf8_encode s1))) as [Hfar|Hnear].
    { destruct (Hcomp s1 s2 He Hfar Hqual Hcond) as (m & Hm & Hrest). exists m. split; [|done].
      destruct (qualifies hay boundary (length (utf8_encode (p ++ q1))) _); [by right|done]. }
    destruct boundary eqn:Eb.
    + assert (length (utf8_encode (p ++ q1)) = length (utf8_encode s1)) as Hsame.
      { destruct (Nat.eq_dec (length (utf8_encode (p ++ q1))) (length (utf8_encode s1))) as [|Hneq]; [done|]. exfalso.
        assert (hay = utf8_encode (p ++ q1) ++ w ++ utf8_encode q2) as H1 by (unfold hay; by rewrite HT, !(utf8_encode_app _ _), <- !app_assoc).
        assert (hay = utf8_encode s1 ++ w ++ utf8_encode s2) as H2 by (unfold hay; by rewrite He, !utf8_encode_app).
        destruct (Hcond eq_refl) as [Hword|Hnb].
        - unfold qualifies in Hqual. apply andb_true_iff in Hqual as [Hqual _]. rewrite H1 in Hqual.
          rewrite word_before_inside in Hqual by (done || lia). done.
        - rewrite (overlap_bordered (utf8_encode (p ++ q1)) (utf8_encode s1) w (utf8_encode q2) (utf8_encode s2)) in Hnb;
            [done|congruence|lia]. }
      rewrite <- Hsame, Hen in Hqual. rewrite Hqual. exists mm. split; [by left|]. cbn. split; [lia|done].
    + cbn [qualifies]. exists mm. split; [by left|]. cbn. split; [lia|done].
Qed.
End scan.

(** ** A rule's needles *)

Section rules.
Context `{CharLower}.

Lemma fold_char_len c : len_utf8 (fold_char c) = len_utf8 c.
Proof.
  unfold fold_char. destruct (char_lower c) as [|l [|]]; [done| |done].
  by destruct (Nat.eqb_spec (len_utf8 l) (len_utf8 c)).
Qed.

(** The folding a rule uses. *)
Definition fold_of (case_sensitive : bool) : N → N := if case_sensitive then id else fold_char.

Lemma fold_of_len cs c : len_utf8 (fold_of cs c) = len_utf8 c.
Proof. destruct cs; [done|apply fold_char_len]. Qed.

Lemma fold_bytes (cs : bool) s :
  (if cs then utf8_encode s else lowercase_preserving_byte_offsets (utf8_encode s)) = utf8_encode (map (fold_of cs) s).
Proof.
  destruct cs; cbn; [by rewrite map_id|]. unfold lowercase_preserving_byte_offsets. by rewrite utf8_decode_encode.
Qed.

(** What a needle's occurrence must satisfy to be found for sure: it stands
    as the word boundaries ask, and a needle bound to words either has only
    word bytes or cannot overlap itself. *)
Definition findable (hay w : bytes) (start : nat) : Prop :=
  qualifies hay (use_word_boundary w) start (start + length w) = true
  ∧ (use_word_boundary w = true → forallb word_byte w = true ∨ bordered w = false).

Lemma match_needles_spec (cs : bool) (T : ustr) (Ns : list ustr) :
  Forall (λ n : ustr, n ≠ []) Ns →
  ∃ ms, match_needles (utf8_encode T) (map utf8_encode Ns) cs = Some ms
    ∧ (∀ m, m ∈ ms → ∃ n, n ∈ Ns ∧ found_at T (fold_of cs) n m)
    ∧ ∀ n s1 s2, n ∈ Ns → map (fold_of cs) T = s1 ++ n ++ s2 →
        findable (utf8_encode (map (fold_of cs) T)) (utf8_encode n) (length (utf8_encode s1)) →
        ∃ m, m ∈ ms ∧ (RedactEngine.start m ≤ length (utf8_encode s1) < RedactEngine.end_ m)%nat
          ∧ (use_word_boundary (utf8_encode n) = true → RedactEngine.start m = length (utf8_encode s1)).
Proof.
  intros Hne. unfold match_needles.
  assert ((if cs then utf8_encode T else lowercase_preserving_byte_offsets (utf8_encode T))
          = utf8_encode (map (fold_of cs) T)) as -> by apply fold_bytes.
  induction Ns as [|n Ns IH]; cbn [map needles_loop].
  { exists []. split_and!; [done|by intros m ?%elem_of_nil|by intros n s1 s2 ?%elem_of_nil]. }
  inversion Hne as [|? ? Hn Hne']; subst. destruct (IH Hne') as (rest & Hr & Hs & Hc).
  destruct (needle_loop_spec (fold_of cs) (fold_of_len cs) T n (use_word_boundary (utf8_encode n)) Hn
    (S (length (utf8_encode (map (fold_of cs) T)))) [] (map (fold_of cs) T) eq_refl) as (ms & Hm & Hms & Hmc);
    [lia|]. cbn [utf8_encode concat map length] in Hm. rewrite Hm, Hr. cbn [mbind option_bind].
  exists (ms ++ rest). split; [done|]. split.
  - intros m [Hin|Hin]%elem_of_app.
    + exists n. split; [by left|]. rewrite List.Forall_forall in Hms. by apply Hms, list_elem_of_In.
    + destruct (Hs m Hin) as (n' & Hn' & Hf). exists n'. split; [by right|done].
  - intros n' s1 s2 Hin He [Hq Hb]. apply elem_of_cons in Hin as [->|Hin].
    + destruct (Hmc s1 s2 He ltac:(cbn; lia) Hq Hb) as (m & Hm' & Hrest). exists m. split; [apply elem_of_app; by left|done].
    + destruct (Hc n' s1 s2 Hin He (conj Hq Hb)) as (m & Hm' & Hrest). exists m. split; [apply elem_of_app; by right|done].
Qed.

(** The needles of a compiled rule. *)
Definition needles_of (values : list ustr) (cs : bool) : list ustr :=
  map (map (fold_of cs)) (retain (λ v, negb (is_empty v)) (map trim values)).

Lemma utf8_encode_empty s : is_empty (utf8_encode s) = is_empty s.
Proof.
  destruct s as [|c s]; [done|]. rewrite utf8_encode_cons. by destruct (utf8_char_shape c) as (h & t & -> & _).
Qed.

Lemma cleaned_texts values :
  retain (λ v, negb (is_empty v)) (map trim_bytes (map utf8_encode values))
  = map utf8_encode (retain (λ v, negb (is_empty v)) (map trim values)).
Proof.
  induction values as [|v values IH]; [done|]. cbn [map retain filter].
  assert (trim_bytes (utf8_encode v) = utf8_encode (trim v)) as -> by (unfold trim_bytes; by rewrite utf8_decode_encode).
  rewrite utf8_encode_empty. destruct (negb (is_empty (trim v))); cbn [map]; by rewrite IH.
Qed.

Lemma compiled_needles `{RuleDebug} s values cs r :
  kind s = KindKeyword (map utf8_encode values) cs → KeywordRule_compile s = Ok r →
  needles r = map utf8_encode (needles_of values cs) ∧ kw_case_sensitive r = cs ∧ kw_spec r = s
  ∧ Forall (λ n : ustr, n ≠ []) (needles_of values cs) ∧ needles_of values cs ≠ [].
Proof.
  intros Hk Hc. unfold KeywordRule_compile in Hc. rewrite Hk, cleaned_texts in Hc.
  set (vs := retain _ (map trim values)) in *. unfold needles_of. fold vs.
  assert (Forall (λ n : ustr, n ≠ []) vs) as Hne.
  { apply List.Forall_forall. intros v Hv%list_elem_of_In. subst vs. apply elem_of_retain in Hv as [_ Hv]. by destruct v. }
  clearbody vs. destruct (is_empty (map utf8_encode vs)) eqn:Ee; [done|].
  injection Hc as <-. cbn [needles kw_case_sensitive kw_spec]. split_and!; [|done|done| |by destruct vs].
  - destruct cs; rewrite !map_map; apply map_ext; intros x; [cbn [fold_of]; by rewrite map_id|apply (fold_bytes false)].
  - apply Forall_map. eapply List.Forall_impl; [|exact Hne]. intros x Hx. by destruct x.
Qed.

(** Keywords are found: the matcher of a compiled rule never panics, and
    in any text, wherever a piece equals a keyword up to the rule's folding of
    case, the piece is matched (a keyword bound to whole words from its first
    byte on), if it stands between word boundaries where the rule asks for
    them and the keyword cannot overlap itself, or has only word bytes. *)
Theorem keywords_found `{RuleDebug} s values cs r (T : ustr) :
  kind s = KindKeyword (map utf8_encode values) cs → KeywordRule_compile s = Ok r →
  ∃ ms, match_needles (utf8_encode T) (needles r) (kw_case_sensitive r) = Some ms
    ∧ ∀ v A B C, v ∈ values → trim v ≠ [] → T = A ++ B ++ C → map (fold_of cs) B = map (fold_of cs) (trim v) →
        findable (utf8_encode (map (fold_of cs) T)) (utf8_encode (map (fold_of cs) B)) (length (utf8_encode A)) →
        ∃ m, m ∈ ms ∧ (RedactEngine.start m ≤ length (utf8_encode A) < RedactEngine.end_ m)%nat
          ∧ (use_word_boundary (utf8_encode (map (fold_of cs) B)) = true → RedactEngine.start m = length (utf8_encode A)).
Proof.
  intros Hk Hc. destruct (compiled_needles s values cs r Hk Hc) as (-> & -> & _ & Hne & _).
  destruct (match_needles_spec cs T (needles_of values cs) Hne) as (ms & Hm & _ & Hcomp).
  exists ms. split; [done|]. intros v A B C Hv Hvn -> HB Hf.
  rewrite <- (map_len (fold_of cs) (fold_of_len cs) A) in Hf |- *.
  apply (Hcomp _ _ (map (fold_of cs) C)); [|by rewrite !map_app|done].
  rewrite HB. unfold needles_of. apply list_elem_of_fmap. exists (trim v). split; [done|].
  apply elem_of_retain. split; [by apply list_elem_of_fmap_2|]. by destruct (trim v).
Qed.

(** The matches of keyword rules are sound, in the sense the pipeline asks. *)
Definition keyword_rule_of `{RuleDebug} (rl : Rule) : Prop :=
  ∃ s values cs r, kind s = KindKeyword (map utf8_encode values) cs ∧ KeywordRule_compile s = Ok r ∧ rl = keyword_rule r.

Lemma forallb_app_true (g : N → bool) a c : forallb g (a ++ c) = true → forallb g a = true ∧ forallb g c = true.
Proof. by rewrite forallb_app, andb_true_iff. Qed.

(** What is found is a piece of the text. *)
Lemma found_at_sound f (T n : ustr) m :
  is_text T → n ≠ [] → found_at T f n m →
  (RedactEngine.start m < RedactEngine.end_ m)%nat
  ∧ slice (utf8_encode T) (RedactEngine.start m) (RedactEngine.end_ m) = Some (matched m)
  ∧ valid_utf8 (matched m) = true.
Proof.
  intros HT Hn (A & B & C & -> & HB & Hst & Hen & Hmt).
  assert (B ≠ []) as HBn by (intros ->; by subst n). pose proof (encode_pos B HBn) as Hpos.
  unfold is_text in HT. apply forallb_app_true in HT as [_ [HTB _]%forallb_app_true].
  rewrite Hst, Hen, Hmt. split_and!.
  - rewrite utf8_encode_app, length_app. lia.
  - apply slice_encode.
  - by apply valid_encode.
Qed.

Lemma keyword_matches_sound `{RuleDebug} P (T : ustr) source :
  Forall keyword_rule_of (rules P) → is_text T → sound_matches P (utf8_encode T) source.
Proof.
  rewrite list.Forall_forall. intros Hr HT. split.
  - apply all_text_matches_answers. intros rl (s & values & cs & r & Hk & Hc & ->)%Hr. cbn [match_text keyword_rule].
    destruct (compiled_needles s values cs r Hk Hc) as (En & Ec & _ & Hne & _). rewrite En, Ec.
    destruct (match_needles_spec cs T (needles_of values cs) Hne) as (ms & Hms & _). by exists ms.
  - intros m (ms & Hrl & Hms & Hm)%reported_by.
    destruct (Hr _ Hrl) as (s & values & cs & r & Hk & Hc & Erl). rewrite Erl in Hms. cbn [match_text keyword_rule] in Hms.
    destruct (compiled_needles s values cs r Hk Hc) as (En & Ec & _ & Hne & _). rewrite En, Ec in Hms.
    destruct (match_needles_spec cs T (needles_of values cs) Hne) as (ms' & Hms' & Hs & _). rewrite Hms in Hms'.
    injection Hms' as <-. destruct (Hs _ Hm) as (n & Hn & Hf). rewrite List.Forall_forall in Hne.
    apply list_elem_of_In, Hne in Hn. destruct (found_at_sound _ T n _ HT Hn Hf) as (H1 & H2 & H3). done.
Qed.

(** Keyword rules never make redaction panic: a pipeline of compiled
    keyword rules redacts every text to an answer or an error, whatever its
    keywords, whatever the text, and whatever faults the vault has. *)
Theorem keyword_redaction_total `{RuleDebug} `{VaultPlatform} `{Hmac} E P (T : ustr) source V A :
  Forall keyword_rule_of (rules P) → is_text T → ∃ res, redact E P (utf8_encode T) source V A = Some res.
Proof. intros Hr HT. by apply redact_total, keyword_matches_sound. Qed.
End rules.

(** ** Concrete runs *)

(** ASCII, and the one character whose lower case is two characters. *)
Definition demo_lower : CharLower := {|
  char_lower c := if (c =? 304)%N then [105; 775]%N else [ascii_lower c]
|}.
Definition plain_debug : RuleDebug := {| debug_kind := λ _, b "RuleKind"; debug_strings := λ _, b "[..]" |}.

Definition keyword_spec (values : list ustr) (cs : bool) : RuleSpec := {|
  spec_id := b "kw"; spec_category := b "CUSTOMER"; spec_scope := Owner; spec_priority := 60; spec_stable := false;
  spec_system_prompt := false; enabled := true; kind := KindKeyword (map utf8_encode values) cs
|}.
Definition demo_keyword_rule (values : list ustr) (cs : bool) : KeywordRule := {|
  kw_spec := keyword_spec values cs;
  needles := map utf8_encode (needles_of (H := demo_lower) values cs);
  kw_case_sensitive := cs
|}.
Definition demo_values : list ustr := [u " Amazon "; u "台積電"].

Lemma demo_keyword_compiled :
  KeywordRule_compile (H := demo_lower) (H0 := plain_debug) (keyword_spec demo_values false)
  = Ok (demo_keyword_rule demo_values false).
Proof. vm_compute. reflexivity. Qed.

Definition demo_keyword_text : ustr := u "at amazon, 在台積電; Amazonian".

Example demo_keyword_matches :
  option_map (map matched)
    (match_needles (H := demo_lower) (utf8_encode demo_keyword_text) (needles (demo_keyword_rule demo_values false)) false)
  = Some [b "amazon"; b "台積電"].
Proof. vm_compute. reflexivity. Qed.

Lemma keywords_found_witness :
  ∃ ms, match_needles (H := demo_lower) (utf8_encode demo_keyword_text) (needles (demo_keyword_rule demo_values false)) false
          = Some ms
    ∧ ∃ m, m ∈ ms ∧ RedactEngine.start m = 3%nat.
Proof.
  destruct (keywords_found (H := demo_lower) (H0 := plain_debug) (keyword_spec demo_values false) demo_values false
    (demo_keyword_rule demo_values false) demo_keyword_text eq_refl demo_keyword_compiled) as (ms & Hm & Hf).
  exists ms. split; [exact Hm|].
  destruct (Hf (u " Amazon ") (u "at ") (u "amazon") (u ", 在台積電; Amazonian")) as (m & Hin & _ & Hs).
  - by left.
  - vm_compute. discriminate.
  - vm_compute. reflexivity.
  - vm_compute. reflexivity.
  - split; [vm_compute; reflexivity|]. intros _. left. vm_compute. reflexivity.
  - exists m. split; [exact Hin|]. exact (Hs eq_refl).
Defined.

Definition keyword_pipeline : RedactionPipeline :=
  demo_pipeline [keyword_rule (H := demo_lower) (demo_keyword_rule demo_values false)].

Lemma keyword_redaction_total_witness :
  ∃ res, redact (H := demo_platform) (H0 := demo_hmac) (demo_env 1000) keyword_pipeline
           (utf8_encode demo_keyword_text) (ToolResult (b "t")) ∅ [] = Some res.
Proof.
  apply (keyword_redaction_total (H := demo_lower) (H0 := plain_debug) (H1 := demo_platform) (H2 := demo_hmac)).
  - constructor; [|constructor]. exists (keyword_spec demo_values false), demo_values, false, (demo_keyword_rule demo_values false).
    split_and!; [reflexivity|exact demo_keyword_compiled|reflexivity].
  - vm_compute. reflexivity.
Defined.

(** After an occurrence that does not stand at word boundaries the scan goes
    on behind it, and misses a whole-word occurrence that overlaps it. *)
Lemma overlapped_keyword_missed :
  let r := demo_keyword_rule [u "NY-NY"] true in
  KeywordRule_compile (H := demo_lower) (H0 := plain_debug) (keyword_spec [u "NY-NY"] true) = Ok r
  ∧ match_needles (H := demo_lower) (b "SNY-NY-NY") (needles r) true = Some []
  ∧ qualifies (b "SNY-NY-NY") true 4 9 = true ∧ slice (b "SNY-NY-NY") 4 9 = Some (b "NY-NY").
Proof. vm_compute. split_and!; reflexivity. Qed.
