(* ===== verification/Identity.v ===== *)
(** * Identity rules (crates/duduclaw-redaction/src/rules/identity.rs)

    The display names of the known people as keywords.  The rule keeps a
    snapshot of the names and scans the people directory again when the
    directory's modification time has changed or the snapshot is too old.
    What the clock, the directory and the identity provider answer at the
    successive readings are arguments; times are milliseconds. *)

From S2P Require Import Prelude.
From S2P Require Import Bytes.
From S2P Require Import Utf8.
From S2P Require Import Chars.
From S2P Require Import RedactToken.
From S2P Require Import Vault.
From S2P Require Import RedactEngine.
From S2P Require Import Redaction.
From S2P Require Import RuleSpecs.
From S2P Require Import Keyword.

Definition SOURCE_WIKI : bytes := b "wiki".
Definition DEFAULT_REFRESH_INTERVAL : Z := 60 * 1000.

(** [str::to_lowercase]. *)
Class StrLower := { str_lower : ustr → ustr }.

Record Snapshot := {
  scanned_at : Z;
  dir_mtime : option Z;
  names : list bytes;
}.

Record IdentityRule := {
  id_spec : RuleSpec;
  refresh_interval : Z;
  snapshot : Snapshot;
}.

(** [Vec::dedup]. *)
Fixpoint dedup_adjacent (l : list bytes) : list bytes :=
  match l with
  | x :: ((y :: _) as r) => if ustr_eqb x y then dedup_adjacent r else x :: dedup_adjacent r
  | _ => l
  end.

(** The display names the provider lists, as needles. *)
Definition name_needle `{StrLower} (display_name : ustr) : option bytes :=
  let name := str_lower (trim display_name) in
  if is_empty name then None else Some (utf8_encode name).
Definition scan_needles `{StrLower} (people : list ustr) : list bytes :=
  dedup_adjacent (stable_sort ustr_leb (omap name_needle people)).

(** [Instant::elapsed] saturates. *)
Definition is_stale (snap : Snapshot) (current_mtime : option Z) (now interval : Z) : bool :=
  negb (bool_decide (current_mtime = dir_mtime snap)) || (interval <=? Z.max 0 (now - scanned_at snap)).

(** What compiling reads. *)
Record compile_reads := { is_dir : bool; listed : list ustr; mtime_after : option Z; at_ : Z; shown_path : bytes }.

Section identity.
Context `{StrLower} `{CharLower} `{RuleDebug}.

Definition IdentityRule_compile (s : RuleSpec) (interval : Z) (R : compile_reads) : result IdentityRule RedactionError :=
  match kind s with
  | KindIdentity source =>
      let source := trim_bytes source in
      if negb (is_empty source) && negb (ustr_eqb source SOURCE_WIKI) then
        Err (RuleCompile (spec_id s)
               (b "unknown identity source '" ++ source ++ b "' — only " ++ dquote ++ b "wiki" ++ dquote
                ++ b " is supported in this build"))
      else if negb (is_dir R) then
        Err (RuleCompile (spec_id s)
               (b "identity people directory not found: " ++ shown_path R
                ++ b " (expected <home>/shared/wiki/identity/people)"))
      else
        Ok {| id_spec := s; refresh_interval := interval;
              snapshot := {| scanned_at := at_ R; dir_mtime := mtime_after R; names := scan_needles (listed R) |} |}
  | other => Err (RuleCompile (spec_id s) (b "expected Identity kind, got " ++ debug_kind other))
  end.

(** What one call reads: under the read lock, again under the write lock, and
    after the scan. *)
Record match_reads := {
  mtime_1 : option Z; now_1 : Z;
  mtime_2 : option Z; now_2 : Z;
  people_2 : list ustr; now_3 : Z;
}.

(** [refresh_if_stale], run by one thread; [other] is what another thread
    leaves between the two locks. *)
Definition refresh_if_stale (interval : Z) (R : match_reads) (other : Snapshot → Snapshot) (snap : Snapshot) : Snapshot :=
  if negb (is_stale snap (mtime_1 R) (now_1 R) interval) then snap
  else
    let snap := other snap in
    if negb (is_stale snap (mtime_2 R) (now_2 R) interval) then snap
    else {| scanned_at := now_3 R; dir_mtime := mtime_2 R; names := scan_needles (people_2 R) |}.

(** [match_text] of the rule. *)
Definition identity_match (r : IdentityRule) (R : match_reads) (other : Snapshot → Snapshot) (text : bytes)
    : option (list Match) * IdentityRule :=
  let snap := refresh_if_stale (refresh_interval r) R other (snapshot r) in
  (if is_empty (names snap) then Some [] else match_needles text (names snap) false,
   {| id_spec := id_spec r; refresh_interval := refresh_interval r; snapshot := snap |}).

(** ** The needles of a scan *)

Lemma elem_of_dedup_adjacent x l : x ∈ dedup_adjacent l ↔ x ∈ l.
Proof.
  induction l as [|y l IH]; [done|]. destruct l as [|z l]; [done|]. cbn [dedup_adjacent].
  destruct (ustr_eqb y z) eqn:E.
  - apply bool_decide_eq_true in E as ->. rewrite IH, !elem_of_cons. tauto.
  - rewrite elem_of_cons, IH, !elem_of_cons. tauto.
Qed.

Lemma elem_of_scan_needles w people :
  w ∈ scan_needles people ↔ ∃ p, p ∈ people ∧ str_lower (trim p) ≠ [] ∧ w = utf8_encode (str_lower (trim p)).
Proof.
  unfold scan_needles. rewrite elem_of_dedup_adjacent, (stable_sort_Permutation ustr_leb), list_elem_of_omap.
  unfold name_needle. split.
  - intros (p & Hp & Hw). exists p. destruct (str_lower (trim p)); cbn in Hw; by simplify_eq.
  - intros (p & Hp & Hne & ->). exists p. split; [done|]. by destruct (str_lower (trim p)).
Qed.

(** The names as texts. *)
Lemma scan_needles_texts people :
  ∃ Ns, scan_needles people = map utf8_encode Ns ∧ Forall (λ n : ustr, n ≠ []) Ns.
Proof.
  assert (∀ l, (∀ w, w ∈ l → ∃ n : ustr, n ≠ [] ∧ w = utf8_encode n) →
    ∃ Ns, l = map utf8_encode Ns ∧ Forall (λ n : ustr, n ≠ []) Ns) as Hl.
  { induction l as [|w l IH]; intros Hw; [exists []; split; [done|constructor]|].
    destruct (Hw w) as (n & Hn & ->); [by left|]. destruct IH as (Ns & -> & HNs); [intros; apply Hw; by right|].
    exists (n :: Ns). split; [done|by constructor]. }
  apply Hl. intros w (p & _ & Hne & ->)%elem_of_scan_needles. by eexists.
Qed.

(** A snapshot scanned by this program. *)
Definition scanned (snap : Snapshot) : Prop := ∃ people, names snap = scan_needles people.

(** The names of known people are found: after a call, the snapshot is not
    stale by the readings the call made last (it is another thread's fresh
    one or a scan of this call); the call does not panic; and wherever a
    piece of the text equals, up to the case of single characters, a listed
    name whose lower-case form is that of its characters one by one, and
    stands as keywords must, it is matched. *)
Theorem people_found (r : IdentityRule) (R : match_reads) other (T : ustr) ms r' :
  scanned (snapshot r) → (∀ s, scanned s → scanned (other s)) →
  identity_match r R other (utf8_encode T) = (ms, r') →
  ∃ found, ms = Some found
    ∧ scanned (snapshot r')
    ∧ (is_stale (snapshot r') (mtime_1 R) (now_1 R) (refresh_interval r) = false
       ∨ is_stale (snapshot r') (mtime_2 R) (now_2 R) (refresh_interval r) = false
       ∨ (dir_mtime (snapshot r') = mtime_2 R ∧ scanned_at (snapshot r') = now_3 R
          ∧ names (snapshot r') = scan_needles (people_2 R)))
    ∧ ∀ people p A B C, names (snapshot r') = scan_needles people → p ∈ people → trim p ≠ [] →
        str_lower (trim p) = map fold_char (trim p) →
        T = A ++ B ++ C → map fold_char B = map fold_char (trim p) →
        findable (utf8_encode (map fold_char T)) (utf8_encode (map fold_char B)) (length (utf8_encode A)) →
        ∃ m, m ∈ found ∧ (RedactEngine.start m ≤ length (utf8_encode A) < RedactEngine.end_ m)%nat.
Proof.
  intros Hsc Hother. unfold identity_match.
  set (snap := refresh_if_stale (refresh_interval r) R other (snapshot r)). intros [= <- <-]. cbn [snapshot].
  assert (scanned snap ∧ (is_stale snap (mtime_1 R) (now_1 R) (refresh_interval r) = false
    ∨ is_stale snap (mtime_2 R) (now_2 R) (refresh_interval r) = false
    ∨ (dir_mtime snap = mtime_2 R ∧ scanned_at snap = now_3 R ∧ names snap = scan_needles (people_2 R)))) as [Hs Hfresh].
  { subst snap. unfold refresh_if_stale. cbv zeta.
    destruct (is_stale (snapshot r) _ _ _) eqn:E1; cbn [negb]; [|by auto].
    destruct (is_stale (other (snapshot r)) _ _ _) eqn:E2; cbn [negb]; [|by auto].
    split; [by eexists|]. by right; right. }
  clearbody snap. destruct Hs as [people0 Hn0]. destruct (scan_needles_texts people0) as (Ns & HNs & Hne).
  destruct (match_needles_spec false T Ns Hne) as (found & Hf & _ & Hcomp). rewrite <- HNs, <- Hn0 in Hf.
  assert ((if is_empty (names snap) then Some [] else match_needles (utf8_encode T) (names snap) false) = Some found) as ->.
  { destruct (names snap) eqn:En; [|done]. cbn. unfold match_needles in Hf. cbn in Hf. congruence. }
  exists found. split_and!; [done|by exists people0|done|].
  intros people p A B C Hpn Hp Hpt Hlow -> HB Hfind.
  assert (utf8_encode (map fold_char (trim p)) ∈ map utf8_encode Ns) as Hin.
  { rewrite <- HNs, <- Hn0, Hpn. apply elem_of_scan_needles. exists p. rewrite Hlow.
    split_and!; [done|by destruct (trim p)|done]. }
  apply list_elem_of_fmap in Hin as (n & Hn & HnN). apply (f_equal utf8_decode) in Hn. rewrite !utf8_decode_encode in Hn. subst n.
  rewrite <- (map_len fold_char fold_char_len A) in Hfind |- *.
  destruct (Hcomp (map fold_char B) (map fold_char A) (map fold_char C)) as (m & Hm & Hrange & _); [by rewrite HB| |done|].
  - by rewrite !map_app.
  - by exists m.
Qed.
End identity.

(** ** Concrete runs *)

(** [to_lowercase] of the same alphabet as [demo_lower]. *)
Definition demo_str_lower : StrLower := {| str_lower s := concat (map (char_lower (CharLower := demo_lower)) s) |}.

Definition identity_spec : RuleSpec := {|
  spec_id := b "people"; spec_category := b "PERSON"; spec_scope := Owner; spec_priority := 70; spec_stable := false;
  spec_system_prompt := false; enabled := true; kind := KindIdentity []
|}.
Definition demo_identity (people : list ustr) : IdentityRule := {|
  id_spec := identity_spec; refresh_interval := DEFAULT_REFRESH_INTERVAL;
  snapshot := {| scanned_at := 0; dir_mtime := Some 7; names := scan_needles (H := demo_str_lower) people |}
|}.
Definition quiet_reads (now : Z) : match_reads :=
  {| mtime_1 := Some 7; now_1 := now; mtime_2 := Some 7; now_2 := now; people_2 := []; now_3 := now |}.
Definition demo_people : list ustr := [u "Ann Lee"; u "王小明"].

Lemma people_found_witness :
  ∃ found, (identity_match (H := demo_str_lower) (H0 := demo_lower) (demo_identity demo_people) (quiet_reads 1000) id
              (utf8_encode (u "to ANN LEE!"))).1 = Some found
    ∧ ∃ m, m ∈ found ∧ (RedactEngine.start m ≤ 3)%nat.
Proof.
  destruct (identity_match (H := demo_str_lower) (H0 := demo_lower) (demo_identity demo_people) (quiet_reads 1000) id
              (utf8_encode (u "to ANN LEE!"))) as [ms r'] eqn:E.
  assert (names (snapshot r') = scan_needles (H := demo_str_lower) demo_people) as Hn
    by (apply (f_equal snd) in E; cbn [snd] in E; subst r'; vm_compute; reflexivity).
  destruct (people_found (H := demo_str_lower) (H0 := demo_lower) (demo_identity demo_people) (quiet_reads 1000) id
    (u "to ANN LEE!") ms r') as (found & -> & _ & _ & Hf).
  - exists demo_people. reflexivity.
  - intros s Hs. exact Hs.
  - exact E.
  - exists found. split; [reflexivity|].
    destruct (Hf demo_people (u "Ann Lee") (u "to ") (u "ANN LEE") (u "!")) as (m & Hm & Hr & _).
    + exact Hn.
    + by left.
    + vm_compute. discriminate.
    + vm_compute. reflexivity.
    + vm_compute. reflexivity.
    + vm_compute. reflexivity.
    + split; [vm_compute; reflexivity|]. intros _. right. vm_compute. reflexivity.
    + exists m. split; [exact Hm|]. vm_compute in Hr |- *. exact Hr.
Defined.

(** A person whose name has a character that lower case makes longer is never
    found, not even spelled as listed: the names are folded with
    [to_lowercase], the text with the folding that keeps such characters. *)
Lemma dotted_name_never_found :
  let person := [304; 112; 101; 107]%N in
  (identity_match (H := demo_str_lower) (H0 := demo_lower) (demo_identity [person]) (quiet_reads 1000) id
     (utf8_encode person)).1 = Some [].
Proof. vm_compute. reflexivity. Qed.

(** A keyword rule finds the same name. *)
Example dotted_keyword_found :
  let r := demo_keyword_rule [[304; 112; 101; 107]%N] false in
  option_map length (match_needles (H := demo_lower) (utf8_encode [304; 112; 101; 107]%N) (needles r) false) = Some 1%nat.
Proof. vm_compute. reflexivity. Qed.
