(* ===== verification/JsonValue.v ===== *)
(** * JSON values (serde_json::Value)

    The tree the redaction crate walks.  A number is its literal text, which
    only interfaces inspect; an object is the list of its entries in iteration
    order. *)

From S2P Require Import Prelude.
From S2P Require Import Bytes.

Inductive Value :=
| VNull
| VBool (x : bool)
| VNumber (n : bytes)
| VString (s : bytes)
| VArray (items : list Value)
| VObject (entries : list (bytes * Value)).

(** Induction through the lists. *)
Section value_ind.
Context (P : Value → Prop).
Context (Hnull : P VNull) (Hbool : ∀ x, P (VBool x)) (Hnum : ∀ n, P (VNumber n)) (Hstr : ∀ s, P (VString s)).
Context (Harr : ∀ items, Forall P items → P (VArray items)).
Context (Hobj : ∀ entries, Forall (λ e : bytes * Value, P e.2) entries → P (VObject entries)).

Fixpoint value_ind v : P v :=
  match v with
  | VNull => Hnull
  | VBool x => Hbool x
  | VNumber n => Hnum n
  | VString s => Hstr s
  | VArray items =>
      Harr items
        ((fix go l : Forall P l :=
            match l with
            | [] => List.Forall_nil _
            | x :: r => List.Forall_cons _ x r (value_ind x) (go r)
            end) items)
  | VObject entries =>
      Hobj entries
        ((fix go l : Forall (λ e : bytes * Value, P e.2) l :=
            match l with
            | [] => List.Forall_nil _
            | x :: r => List.Forall_cons _ x r (value_ind x.2) (go r)
            end) entries)
  end.
End value_ind.

(** A loop over a list in place, with a state. *)
Section map_state.
Context {A St : Type} (g : A → St → A * St).

Fixpoint map_state (l : list A) (st : St) : list A * St :=
  match l with
  | [] => ([], st)
  | x :: r =>
      let '(x', st1) := g x st in
      let '(r', st2) := map_state r st1 in
      (x' :: r', st2)
  end.
End map_state.

(** [Value::get] by key, [as_str], [as_array]. *)
Fixpoint entry (entries : list (bytes * Value)) (k : bytes) : option Value :=
  match entries with
  | [] => None
  | e :: r => if ustr_eqb e.1 k then Some e.2 else entry r k
  end.
Definition get (v : Value) (k : bytes) : option Value :=
  match v with VObject entries => entry entries k | _ => None end.
Definition value_as_str (v : Value) : option bytes := match v with VString s => Some s | _ => None end.
Definition as_array (v : Value) : option (list Value) := match v with VArray items => Some items | _ => None end.

(** A string field, and [unwrap_or_default] of it. *)
Definition str_field (v : Value) (k : bytes) : option bytes := get v k ≫= value_as_str.
Definition str_or_empty (v : Value) (k : bytes) : bytes := default [] (str_field v k).
