(* ===== verification/Egress.v ===== *)
(** * Tool egress (crates/duduclaw-redaction/src/egress.rs, with
    [ToolEgressRule] of config.rs)

    What happens to a tool call whose arguments hold tokens.  The rule table
    is a [HashMap]; the order it is walked in is an argument. *)

From S2P Require Import Prelude.
From S2P Require Import Bytes.
From S2P Require Import RedactToken.
From S2P Require Import Vault.
From S2P Require Import Redaction.
From S2P Require Import JsonValue.

Inductive RestoreArgsMode := RestoreArgs | PassthroughArgs | DenyArgs.
Record ToolEgressRule := { restore_args : RestoreArgsMode; audit_reveal : bool }.

Inductive EgressDecision :=
| Allow (args : Value) (tokens_restored : nat)
| Passthrough (args : Value)
| Deny (reason : bytes) (tokens_seen : nat).

Inductive EgressEvent :=
| EgressDeny (agent_id tool reason : bytes) (tokens_seen : nat)
| EgressAllow (agent_id tool : bytes) (tokens_restored : nat)
| EgressRestoreDenied (agent_id caller target token required_scope : bytes).

(** ** The rule table *)

Abbreviation rule_table := (gmap bytes ToolEgressRule).

(** [EgressEvaluator::new]: the legacy key [odoo.*] is an alias of [odoo_*]. *)
Definition Egress_new (rules : rule_table) : rule_table :=
  match rules !! b "odoo.*" with
  | Some legacy => if bool_decide (is_Some (rules !! b "odoo_*")) then rules else <[b "odoo_*" := legacy]> rules
  | None => rules
  end.

Definition best_step (tool_name : bytes) (best : option (bytes * ToolEgressRule))
    (p : bytes * ToolEgressRule) : option (bytes * ToolEgressRule) :=
  match strip_suffix p.1 (b "*") with
  | Some prefix =>
      if starts_with tool_name prefix then
        match best with
        | Some (cur, _) => if (length prefix <=? length cur)%nat then best else Some (prefix, p.2)
        | None => Some (prefix, p.2)
        end
      else best
  | None => best
  end.

(** [find_rule]; [walk] is the order the map is iterated in. *)
Definition find_rule (walk : list (bytes * ToolEgressRule)) (rules : rule_table) (tool_name : bytes)
    : option ToolEgressRule :=
  match rules !! tool_name with
  | Some r => Some r
  | None => snd <$> foldl (best_step tool_name) None walk
  end.

(** ** Tokens in arguments *)

(** [extract_tokens_from_str]. *)
Fixpoint extract_loop (fuel : nat) (rest : bytes) : list Token :=
  match fuel with
  | O => []
  | S fuel' =>
      match find rest TOKEN_PREFIX with
      | None => []
      | Some start =>
          let from := drop start rest in
          match find from TOKEN_SUFFIX with
          | None => []
          | Some end_rel =>
              let len := (end_rel + length TOKEN_SUFFIX)%nat in
              match parse (take len from) with
              | Some tok => [tok]
              | None => []
              end ++ extract_loop fuel' (drop len from)
          end
      end
  end.
Definition extract_tokens_from_str (s : bytes) : list Token := extract_loop (S (length s)) s.

(** [collect_tokens]: strings in values, not in object keys. *)
Fixpoint collect_tokens (v : Value) : list Token :=
  match v with
  | VString s => extract_tokens_from_str s
  | VArray items => concat (map collect_tokens items)
  | VObject entries => concat (map (λ e, collect_tokens e.2) entries)
  | _ => []
  end.

Section substitution.
Context {St : Type} (replace_fn : Token → St → option bytes * St).

(** [replace_in_str]. *)
Fixpoint replace_loop (fuel : nat) (out rest : bytes) (st : St) : bytes * St :=
  match fuel with
  | O => (out ++ rest, st)
  | S fuel' =>
      match find rest TOKEN_PREFIX with
      | None => (out ++ rest, st)
      | Some start =>
          let out := out ++ take start rest in
          let from := drop start rest in
          match find from TOKEN_SUFFIX with
          | None => (out ++ from, st)
          | Some end_rel =>
              let len := (end_rel + length TOKEN_SUFFIX)%nat in
              let candidate := take len from in
              match parse candidate with
              | Some tok =>
                  let '(piece, st') := replace_fn tok st in
                  replace_loop fuel' (out ++ default candidate piece) (drop len from) st'
              | None => replace_loop fuel' (out ++ candidate) (drop len from) st
              end
          end
      end
  end.
Definition replace_in_str (s : bytes) (st : St) : bytes * St := replace_loop (S (length s)) [] s st.

(** [substitute_tokens]. *)
Fixpoint substitute_tokens (v : Value) (st : St) : Value * St :=
  match v with
  | VString s => let '(s', st') := replace_in_str s st in (VString s', st')
  | VArray items => let '(items', st') := map_state substitute_tokens items st in (VArray items', st')
  | VObject entries =>
      let '(entries', st') :=
        map_state (λ e st, let '(x, st') := substitute_tokens e.2 st in ((e.1, x), st')) entries st in
      (VObject entries', st')
  | _ => (v, st)
  end.
End substitution.

(** ** The decision *)

(** What the closure of [decide] captures; [accesses] counts vault lookups. *)
Record egress_state := {
  count : nat;
  hallucinated : bool;
  scope_denied : bool;
  audit : list EgressEvent;
  accesses : nat;
}.

Section decision.
Context `{VaultPlatform} (E : environment).
Implicit Types (V : vault) (tool_name agent_id : bytes) (session_id : option bytes) (caller : Caller).

Definition egress_lookup V agent_id session_id (i : nat) (tok : Token) :=
  lookup_mapping (faults_at E i) (clock_at E i) (as_str tok) agent_id session_id V.

Definition egress_replace tool_name agent_id session_id caller V (tok : Token) (s : egress_state)
    : option bytes * egress_state :=
  let i := accesses s in
  let halluc :=
    (None, {| count := count s; hallucinated := true; scope_denied := scope_denied s;
              audit := audit s; accesses := S i |}) in
  match egress_lookup V agent_id session_id i tok with
  | Ok (Some entry) =>
      if negb (allows (entry_scope entry) caller) then
        (None, {| count := count s; hallucinated := hallucinated s; scope_denied := true;
                  audit := audit s ++ [EgressRestoreDenied agent_id (caller_label caller)
                                         (b "tool:" ++ tool_name) (as_str tok)
                                         (scope_wire (entry_scope entry))];
                  accesses := S i |})
      else
        match original entry with
        | Some plain =>
            (Some plain, {| count := S (count s); hallucinated := hallucinated s;
                            scope_denied := scope_denied s; audit := audit s; accesses := S i |})
        | None => halluc
        end
  | _ => halluc
  end.

Definition deny_unlisted tool_name : bytes := b "tool '" ++ tool_name ++ b "' is not on the egress whitelist".
Definition deny_rule tool_name : bytes := b "tool '" ++ tool_name ++ b "' egress is 'deny'".
Definition deny_scope tool_name : bytes :=
  b "tool '" ++ tool_name ++ b "' refused: caller lacks restore scope for one or more tokens".
Definition deny_hallucinated tool_name : bytes :=
  b "tool '" ++ tool_name ++ b "' refused: args contain hallucinated or expired tokens".

(** [EgressEvaluator::decide]: the decision and the audit events it emits. *)
Definition decide_egress walk rules tool_name (args : Value) agent_id session_id caller V
    : EgressDecision * list EgressEvent :=
  let tokens := collect_tokens args in
  if is_empty tokens then (Passthrough args, [])
  else
    match find_rule walk rules tool_name with
    | None =>
        (Deny (deny_unlisted tool_name) (length tokens),
         [EgressDeny agent_id tool_name (b "tool not in egress whitelist") (length tokens)])
    | Some rule =>
        match restore_args rule with
        | DenyArgs =>
            (Deny (deny_rule tool_name) (length tokens),
             [EgressDeny agent_id tool_name (b "tool egress rule is 'deny'") (length tokens)])
        | PassthroughArgs => (Passthrough args, [])
        | RestoreArgs =>
            let '(restored, s) :=
              substitute_tokens (egress_replace tool_name agent_id session_id caller V) args
                {| count := 0; hallucinated := false; scope_denied := false; audit := []; accesses := 0 |} in
            if scope_denied s then (Deny (deny_scope tool_name) (length tokens), audit s)
            else if hallucinated s then
              (Deny (deny_hallucinated tool_name) (length tokens),
               audit s ++ [EgressDeny agent_id tool_name
                             (b "args contain hallucinated or expired tokens") (length tokens)])
            else
              (Allow restored (count s),
               audit s ++ if audit_reveal rule then [EgressAllow agent_id tool_name (count s)] else [])
        end
    end.
End decision.

(** ** Which rule applies *)

Definition star_matches (tool_name : bytes) (entries : list (bytes * ToolEgressRule)) (prefix : bytes)
    (r : ToolEgressRule) : Prop :=
  (prefix ++ b "*", r) ∈ entries ∧ starts_with tool_name prefix = true.

Definition best_of tool_name entries (best : option (bytes * ToolEgressRule)) : Prop :=
  match best with
  | None => ∀ prefix r, ¬ star_matches tool_name entries prefix r
  | Some (p, r) =>
      star_matches tool_name entries p r
      ∧ ∀ prefix r', star_matches tool_name entries prefix r' → (length prefix ≤ length p)%nat
  end.

Lemma best_step_spec tool_name entries best e :
  best_of tool_name entries best → best_of tool_name (entries ++ [e]) (best_step tool_name best e).
Proof.
  destruct e as [key r]. intros Hb.
  assert (∀ prefix r', star_matches tool_name (entries ++ [(key, r)]) prefix r' ↔
    star_matches tool_name entries prefix r'
    ∨ (strip_suffix key (b "*") = Some prefix ∧ starts_with tool_name prefix = true ∧ r' = r)) as Hsm.
  { intros prefix r'. unfold star_matches. rewrite elem_of_app, list_elem_of_singleton. split.
    - intros [[Hin|Heq] Hs]; [by left|right]. simplify_eq. by rewrite strip_suffix_app.
    - intros [[? ?]|(Hk & ? & ->)]; [by split; [left|]|]. apply strip_suffix_spec in Hk as ->.
      split; [by right|done]. }
  unfold best_step. cbn [fst snd]. destruct (strip_suffix key (b "*")) as [prefix|] eqn:Ek.
  - destruct (starts_with tool_name prefix) eqn:Es.
    + destruct best as [[cur rc]|]; [destruct (Nat.leb_spec (length prefix) (length cur))|]; cbn [best_of] in *.
      * destruct Hb as [Hm Hmax]. split; [apply Hsm; by left|].
        intros p' r' [Hp|(? & _)]%Hsm; [by eapply Hmax|]. by simplify_eq.
      * destruct Hb as [Hm Hmax]. split; [apply Hsm; by right|].
        intros p' r' [Hp|(? & _)]%Hsm; [apply Hmax in Hp; lia|]. by simplify_eq.
      * split; [apply Hsm; by right|]. intros p' r' [Hp|(? & _)]%Hsm; [by apply Hb in Hp|]. by simplify_eq.
    + destruct best as [[cur rc]|]; cbn [best_of] in *.
      * destruct Hb as [Hm Hmax]. split; [apply Hsm; by left|].
        intros p' r' [Hp|(? & ? & _)]%Hsm; [by eapply Hmax|]. congruence.
      * intros p' r' [Hp|(? & ? & _)]%Hsm; [by eapply Hb|]. congruence.
  - destruct best as [[cur rc]|]; cbn [best_of] in *.
    + destruct Hb as [Hm Hmax]. split; [apply Hsm; by left|].
      intros p' r' [Hp|(? & _)]%Hsm; [by eapply Hmax|done].
    + intros p' r' [Hp|(? & _)]%Hsm; [by eapply Hb|done].
Qed.

Lemma best_fold tool_name entries : best_of tool_name entries (foldl (best_step tool_name) None entries).
Proof.
  induction entries as [|e entries IH] using rev_ind.
  - intros prefix r [Hin _]. by apply elem_of_nil in Hin.
  - rewrite foldl_app. by apply best_step_spec.
Qed.

(** Which rule governs a tool does not depend on the order the table is
    walked in: it is the rule under the tool's own name, and without one the
    rule of the longest [prefix*] the name starts with. *)
Theorem find_rule_exact walk rules tool_name r :
  walk ≡ₚ map_to_list rules →
  find_rule walk rules tool_name = Some r ↔
  rules !! tool_name = Some r
  ∨ rules !! tool_name = None ∧
    ∃ prefix, rules !! (prefix ++ b "*") = Some r ∧ starts_with tool_name prefix = true
      ∧ ∀ prefix' r', rules !! (prefix' ++ b "*") = Some r' → starts_with tool_name prefix' = true →
          (length prefix' ≤ length prefix)%nat.
Proof.
  intros Hw. unfold find_rule.
  assert (∀ p r, star_matches tool_name walk p r ↔
    rules !! (p ++ b "*") = Some r ∧ starts_with tool_name p = true) as Hsm
    by (intros p r'; unfold star_matches; by rewrite Hw, elem_of_map_to_list).
  destruct (rules !! tool_name) as [r0|] eqn:Ed; [naive_solver|].
  pose proof (best_fold tool_name walk) as Hb.
  destruct (foldl (best_step tool_name) None walk) as [[p r1]|]; cbn [fmap option_fmap option_map snd best_of] in *.
  - destruct Hb as [[Hl Hs]%Hsm Hmax]. split.
    + intros. simplify_eq. right. split; [done|]. exists p. split_and!; [done|done|].
      intros p' r' Hl' Hs'. eapply Hmax. by apply Hsm.
    + intros [?|(_ & q & Hlq & Hsq & Hmq)]; [done|].
      assert (length p = length q) as Hlen
        by (apply Nat.le_antisymm; [by eapply Hmq|eapply Hmax; by apply Hsm]).
      apply starts_with_spec in Hs as [t1 Ht1], Hsq as [t2 Ht2].
      assert (p = q) as -> by (rewrite Ht1 in Ht2; by apply app_inj_1 in Ht2 as [? _]). congruence.
  - split; [done|]. intros [?|(_ & q & Hlq & Hsq & _)]; [done|].
    exfalso. eapply Hb. by apply Hsm.
Qed.

(** ** What substitution does *)

(** Asking [f] for each token in turn. *)
Fixpoint answers {St} (f : Token → St → option bytes * St) (toks : list Token) (st : St)
    : list (option bytes) * St :=
  match toks with
  | [] => ([], st)
  | t :: toks' =>
      let '(o, st1) := f t st in
      let '(os, st2) := answers f toks' st1 in
      (o :: os, st2)
  end.

(** The specification: a string is cut, from the left, into plain text and
    tokens.  A block is a marker up to the next [>]; one that parses is a token,
    any other belongs to the text, and so does what no block is left in. *)
Inductive piece := Text (t : bytes) | Hole (t : Token).

Definition first_block (s before block after : bytes) : Prop :=
  s = before ++ block ++ after
  ∧ (∃ m, block = TOKEN_PREFIX ++ m ++ TOKEN_SUFFIX ∧ ∀ x y, m ≠ x ++ TOKEN_SUFFIX ++ y)
  ∧ ∀ x y, s = x ++ TOKEN_PREFIX ++ y → (length before ≤ length x)%nat.

Inductive cut : bytes → list piece → Prop :=
| cut_end s :
    (∀ a m r, s ≠ a ++ TOKEN_PREFIX ++ m ++ TOKEN_SUFFIX ++ r) → cut s [Text s]
| cut_token s a c r t ps :
    first_block s a c r → parse c = Some t → cut r ps → cut s (Text a :: Hole t :: ps)
| cut_other s a c r ps :
    first_block s a c r → parse c = None → cut r ps → cut s (Text (a ++ c) :: ps).

Definition piece_value (value : Token → bytes) (p : piece) : bytes :=
  match p with Text t => t | Hole t => value t end.
Definition holes (ps : list piece) : list Token :=
  omap (λ p, match p with Hole t => Some t | Text _ => None end) ps.

(** [v'] is [v] with every token of every string replaced by its value; keys
    and everything else stay. *)
Inductive restored (value : Token → bytes) : Value → Value → Prop :=
| restored_string s ps :
    cut s ps → restored value (VString s) (VString (concat (map (piece_value value) ps)))
| restored_array items items' :
    Forall2 (restored value) items items' → restored value (VArray items) (VArray items')
| restored_object entries entries' :
    map fst entries = map fst entries' →
    Forall2 (restored value) (map snd entries) (map snd entries') →
    restored value (VObject entries) (VObject entries')
| restored_other v :
    match v with VString _ | VArray _ | VObject _ => False | _ => True end → restored value v v.

(** The tokens of a value. *)
Inductive token_in (t : Token) : Value → Prop :=
| in_string s ps : cut s ps → t ∈ holes ps → token_in t (VString s)
| in_array items x : x ∈ items → token_in t x → token_in t (VArray items)
| in_object entries e : e ∈ entries → token_in t e.2 → token_in t (VObject entries).

(** The cut of a string is unique, and the pieces are the string. *)
Lemma first_block_unique s a c r a' c' r' :
  first_block s a c r → first_block s a' c' r' → a = a' ∧ c = c' ∧ r = r'.
Proof.
  intros (E1 & (m & -> & Hm) & Hl) (E2 & (m' & -> & Hm') & Hl').
  assert (length a = length a') as Hlen.
  { apply Nat.le_antisymm; [eapply Hl|eapply Hl']; [rewrite E2|rewrite E1]; by rewrite <- app_assoc. }
  rewrite E1 in E2. apply app_inj_1 in E2 as [-> E2]; [|done]. split; [done|].
  rewrite <- !app_assoc in E2. apply app_inv_head in E2.
  destruct (app_eq_inv _ _ _ _ E2) as [(k & -> & Hk)|(k & -> & Hk)].
  - destruct k as [|x k]; [rewrite app_nil_r in *; cbn in Hk; by injection Hk as ->|].
    exfalso. cbn in Hk. injection Hk as <- Hk. by apply (Hm m' k).
  - destruct k as [|x k]; [rewrite app_nil_r in *; cbn in Hk; by injection Hk as ->|].
    exfalso. cbn in Hk. injection Hk as <- Hk. by apply (Hm' m k).
Qed.

Lemma first_block_closed s a c r :
  first_block s a c r → ∃ a' m r', s = a' ++ TOKEN_PREFIX ++ m ++ TOKEN_SUFFIX ++ r'.
Proof. intros (-> & (m & -> & _) & _). exists a, m, r. by rewrite <- !app_assoc. Qed.

Lemma cut_unique s ps : cut s ps → ∀ ps', cut s ps' → ps = ps'.
Proof.
  induction 1 as [s Hn|s a c r t ps Hb Hp _ IH|s a c r ps Hb Hp _ IH]; intros ps' Hc';
    inversion Hc' as [? Hn'|? a' c' r' t' qs Hb' Hp' Hq|? a' c' r' qs Hb' Hp' Hq]; subst.
  all: try (by destruct (first_block_closed _ _ _ _ Hb) as (? & ? & ? & Hs); destruct (Hn' _ _ _ Hs)).
  all: try (by destruct (first_block_closed _ _ _ _ Hb') as (? & ? & ? & Hs); destruct (Hn _ _ _ Hs)).
  - done.
  - destruct (first_block_unique _ _ _ _ _ _ _ Hb Hb') as (<- & <- & <-). rewrite Hp in Hp'. injection Hp' as <-.
    by rewrite (IH qs Hq).
  - destruct (first_block_unique _ _ _ _ _ _ _ Hb Hb') as (<- & <- & <-). congruence.
  - destruct (first_block_unique _ _ _ _ _ _ _ Hb Hb') as (<- & <- & <-). congruence.
  - destruct (first_block_unique _ _ _ _ _ _ _ Hb Hb') as (<- & <- & <-). by rewrite (IH qs Hq).
Qed.

Lemma cut_concat s ps : cut s ps → concat (map (piece_value as_str) ps) = s.
Proof.
  induction 1 as [s|s a c r t ps (-> & _) Hp _ IH|s a c r ps (-> & _) _ _ IH]; cbn [map concat piece_value].
  - apply app_nil_r.
  - rewrite IH. apply parse_spec in Hp as (? & ? & _ & _ & ->). done.
  - by rewrite IH, app_assoc.
Qed.

(** What the two searches of the loop find. *)
Lemma prefix_no_suffix j : TOKEN_PREFIX !! j ≠ Some 62%N.
Proof. do 8 (destruct j as [|j]; [done|]). done. Qed.

Lemma searched_block s i j :
  find s TOKEN_PREFIX = Some i → find (drop i s) TOKEN_SUFFIX = Some j →
  first_block s (take i s) (take (j + length TOKEN_SUFFIX) (drop i s))
    (drop (j + length TOKEN_SUFFIX) (drop i s)).
Proof.
  intros Hi Hj. apply find_first in Hi as (a & q & -> & <- & Hmin). rewrite take_app_length, drop_app_length in *.
  apply find_first in Hj as (x & y & E & <- & Hmin').
  assert (∃ m, x = TOKEN_PREFIX ++ m ∧ q = m ++ TOKEN_SUFFIX ++ y) as (m & -> & ->).
  { destruct (app_eq_inv _ _ _ _ E) as [(k & Hp & Hk)|(k & -> & ->)]; [|by exists k].
    destruct k as [|z k]; [exists []; rewrite app_nil_r in *; by split|].
    exfalso. cbn in Hk. injection Hk as <- Hk. apply (prefix_no_suffix (length x)). rewrite Hp.
    by rewrite lookup_app_r, Nat.sub_diag. }
  assert (TOKEN_PREFIX ++ m ++ TOKEN_SUFFIX ++ y = ((TOKEN_PREFIX ++ m) ++ TOKEN_SUFFIX) ++ y) as Er
    by by rewrite <- !app_assoc.
  rewrite Er, <- length_app, take_app_length, drop_app_length. split_and!.
  - by rewrite <- !app_assoc.
  - exists m. split; [by rewrite <- app_assoc|]. intros x' y' ->.
    specialize (Hmin' (TOKEN_PREFIX ++ x') (y' ++ TOKEN_SUFFIX ++ y)). rewrite <- !app_assoc in Hmin'.
    specialize (Hmin' eq_refl). rewrite !length_app in Hmin'. cbn in Hmin'. lia.
  - intros x' y' Hs. rewrite <- Er in Hs. eapply Hmin, Hs.
Qed.

Lemma nothing_closed s :
  match find s TOKEN_PREFIX with
  | Some i => find (drop i s) TOKEN_SUFFIX = None
  | None => True
  end → ∀ a m r, s ≠ a ++ TOKEN_PREFIX ++ m ++ TOKEN_SUFFIX ++ r.
Proof.
  intros Hn a m r Hs. destruct (find_occurs s a TOKEN_PREFIX _ Hs) as [i Hi]. rewrite Hi in Hn.
  apply find_first in Hi as (b' & q & Hb & <- & Hmin). specialize (Hmin _ _ Hs).
  rewrite Hb, drop_app_length in Hn. rewrite Hb in Hs.
  assert (∃ k, TOKEN_PREFIX ++ q = k ++ TOKEN_SUFFIX ++ r) as (k & Hk).
  { destruct (app_eq_inv _ _ _ _ Hs) as [(k & -> & Hk)|(k & -> & Hk)].
    - rewrite length_app in Hmin. assert (k = []) as -> by (destruct k; [done|cbn in Hmin; lia]).
      rewrite app_nil_l in Hk. exists (TOKEN_PREFIX ++ m). by rewrite <- Hk, <- app_assoc.
    - exists (k ++ TOKEN_PREFIX ++ m). by rewrite Hk, <- !app_assoc. }
  destruct (find_occurs _ _ _ _ Hk) as [l Hl]. congruence.
Qed.

Section substitution_lemmas.
Context {St : Type} (f : Token → St → option bytes * St).

Lemma answers_app l1 l2 st :
  answers f (l1 ++ l2) st =
    ((answers f l1 st).1 ++ (answers f l2 (answers f l1 st).2).1, (answers f l2 (answers f l1 st).2).2).
Proof.
  revert st. induction l1 as [|t l1 IH]; intros st; simpl; [by destruct (answers f l2 st)|].
  destruct (f t st) as [o st1]. rewrite IH. by destruct (answers f l1 st1).
Qed.

Lemma answers_length toks st : length (answers f toks st).1 = length toks.
Proof.
  revert st. induction toks as [|t toks IH]; intros st; cbn [answers]; [done|]. destruct (f t st) as [o st1].
  specialize (IH st1). destruct (answers f toks st1). cbn in *. by rewrite IH.
Qed.

(** Every token was answered, with its value. *)
Definition all_given (value : Token → bytes) (toks : list Token) (st : St) : Prop :=
  (answers f toks st).1 = map (λ t, Some (value t)) toks.

Lemma all_given_app value l1 l2 st :
  all_given value (l1 ++ l2) st ↔ all_given value l1 st ∧ all_given value l2 (answers f l1 st).2.
Proof.
  unfold all_given. rewrite answers_app, map_app. cbn [fst]. split.
  - intros E. apply app_inj_1 in E; [done|]. by rewrite answers_length, length_map.
  - by intros [-> ->].
Qed.

(** The string loop: what it asks for are the tokens of the cut, in order,
    and what it writes are the pieces. *)
Lemma replace_loop_cut fuel : ∀ rest, (length rest < fuel)%nat →
  ∃ ps, cut rest ps ∧ extract_loop fuel rest = holes ps
    ∧ ∀ out st, (replace_loop f fuel out rest st).2 = (answers f (holes ps) st).2
        ∧ ∀ value, all_given value (holes ps) st →
            (replace_loop f fuel out rest st).1 = out ++ concat (map (piece_value value) ps).
Proof.
  induction fuel as [|fuel IH]; intros rest Hlen; [lia|]. cbn [replace_loop extract_loop].
  destruct (find rest TOKEN_PREFIX) as [i|] eqn:Ei.
  2:{ exists [Text rest]. split; [apply cut_end, nothing_closed; by rewrite Ei|]. split; [done|].
      intros out st. split; [done|]. intros value _. cbn. by rewrite app_nil_r. }
  destruct (find (drop i rest) TOKEN_SUFFIX) as [j|] eqn:Ej.
  2:{ exists [Text rest]. split; [apply cut_end, nothing_closed; by rewrite Ei|]. split; [done|].
      intros out st. split; [done|]. intros value _. cbn. by rewrite app_nil_r, <- app_assoc, take_drop. }
  cbv zeta. pose proof (searched_block _ _ _ Ei Ej) as Hb.
  set (a := take i rest) in *. set (from := drop i rest) in *. set (len := (j + length TOKEN_SUFFIX)%nat) in *.
  destruct (IH (drop len from)) as (ps & Hcut & Hex & Hrep).
  { subst from len. rewrite !length_drop. apply find_bound in Ei, Ej. rewrite length_drop in Ej. cbn in *. lia. }
  destruct (parse (take len from)) as [tok|] eqn:Ep.
  - exists (Text a :: Hole tok :: ps). split; [by eapply cut_token|]. split; [cbn; by rewrite Hex|].
    intros out st. cbn [answers]. unfold all_given. cbn [holes omap list_omap answers map]. fold (holes ps).
    destruct (f tok st) as [o st1]. destruct (Hrep ((out ++ a) ++ default (take len from) o) st1) as [H2 H1].
    unfold all_given in H1. destruct (answers f (holes ps) st1) as [os st2]. cbn [fst snd] in *. split; [done|].
    intros value [= -> Hos]. rewrite (H1 value Hos). cbn [default map concat piece_value]. by rewrite <- !app_assoc.
  - exists (Text (a ++ take len from) :: ps). split; [by eapply cut_other|]. split; [done|].
    intros out st. destruct (Hrep ((out ++ a) ++ take len from) st) as [H2 H1]. split; [done|].
    intros value Hg. rewrite (H1 value Hg). cbn [map concat piece_value]. by rewrite <- !app_assoc.
Qed.

Lemma extract_cut s : ∃ ps, cut s ps ∧ extract_tokens_from_str s = holes ps.
Proof. destruct (replace_loop_cut (S (length s)) s ltac:(lia)) as (ps & ? & ? & _). by exists ps. Qed.

(** Values: the tokens are asked for in the order they are collected, and
    what comes out is the restored value. *)
Definition substitutes (v : Value) : Prop :=
  ∀ st, (substitute_tokens f v st).2 = (answers f (collect_tokens v) st).2
    ∧ ∀ value, all_given value (collect_tokens v) st → restored value v (substitute_tokens f v st).1.

Lemma substitute_items items :
  Forall substitutes items → ∀ st,
  (map_state (substitute_tokens f) items st).2 = (answers f (concat (map collect_tokens items)) st).2
  ∧ ∀ value, all_given value (concat (map collect_tokens items)) st →
      Forall2 (restored value) items (map_state (substitute_tokens f) items st).1.
Proof.
  induction 1 as [|x items Hx _ IH]; intros st; [split; [done|constructor]|]. cbn [map_state map concat].
  rewrite answers_app. setoid_rewrite all_given_app. destruct (Hx st) as [E Hr]. destruct (substitute_tokens f x st) as [x' st1].
  cbn [fst snd] in E, Hr. subst st1. destruct (IH (answers f (collect_tokens x) st).2) as [E' Hr'].
  destruct (map_state _ items _) as [items' st2]. cbn [fst snd] in *. split; [done|].
  intros value [Hg1 Hg2]. constructor; auto.
Qed.

Lemma map_state_entries entries st :
  map_state (λ (e : bytes * Value) st, let '(x, st') := substitute_tokens f e.2 st in ((e.1, x), st')) entries st
  = (zip (map fst entries) (map_state (substitute_tokens f) (map snd entries) st).1,
     (map_state (substitute_tokens f) (map snd entries) st).2).
Proof.
  revert st. induction entries as [|[k x] entries IH]; intros st; [done|]. cbn [map_state map fst snd].
  destruct (substitute_tokens f x st) as [x' st1]. rewrite IH.
  by destruct (map_state (substitute_tokens f) (map snd entries) st1).
Qed.

Lemma substitute_restores v : substitutes v.
Proof.
  induction v as [|x|n|s|items IH|entries IH] using value_ind; intros st;
    try (split; [done|]; intros; by constructor).
  - cbn [substitute_tokens collect_tokens]. unfold replace_in_str, extract_tokens_from_str.
    destruct (replace_loop_cut (S (length s)) s ltac:(lia)) as (ps & Hcut & -> & Hrep).
    destruct (Hrep [] st) as [H2 H1]. destruct (replace_loop f _ _ _ st) as [s' st']. cbn [fst snd] in *.
    split; [done|]. intros value Hg. rewrite (H1 value Hg). by constructor.
  - cbn [substitute_tokens collect_tokens]. destruct (substitute_items items IH st) as [H2 H1].
    destruct (map_state _ items st) as [items' st']. split; [done|]. intros value Hg. constructor. by apply H1.
  - cbn [substitute_tokens collect_tokens]. rewrite map_state_entries, <- (map_map snd collect_tokens).
    destruct (substitute_items (map snd entries)) with st as [H2 H1].
    { apply List.Forall_forall. intros x (e & <- & He)%in_map_iff. rewrite List.Forall_forall in IH. by apply IH. }
    destruct (map_state _ (map snd entries) st) as [items' st']. cbn [fst snd] in *. split; [done|].
    intros value Hg. specialize (H1 value Hg). pose proof (Forall2_length H1) as Hl. rewrite !length_map in Hl.
    constructor.
    + rewrite fst_zip; [done|rewrite length_map; lia].
    + rewrite snd_zip; [done|rewrite length_map; lia].
Qed.
End substitution_lemmas.

(** Collecting finds the tokens of the value. *)
Lemma collect_tokens_exact t v : t ∈ collect_tokens v ↔ token_in t v.
Proof.
  induction v as [|x|n|s|items IH|entries IH] using value_ind; cbn [collect_tokens];
    try (split; [by intros ?%elem_of_nil|by inversion 1]).
  - destruct (extract_cut (St := unit) (λ _ st, (None, st)) s) as (ps & Hc & ->). split; [by apply in_string|].
    inversion 1 as [? ps' Hc' Hin| |]; subst. by rewrite (cut_unique _ _ Hc _ Hc').
  - rewrite <- flat_map_concat_map, elem_of_flat_map. rewrite List.Forall_forall in IH. split.
    + intros (x & Hx & Ht). apply in_array with x; [done|]. by apply IH; [apply list_elem_of_In|].
    + inversion 1 as [|? x Hx Ht|]; subst. exists x. split; [done|]. by apply IH; [apply list_elem_of_In|].
  - rewrite <- flat_map_concat_map, elem_of_flat_map. rewrite List.Forall_forall in IH. split.
    + intros (e & He & Ht). apply in_object with e; [done|]. by apply IH; [apply list_elem_of_In|].
    + inversion 1 as [| |? e He Ht]; subst. exists e. split; [done|]. by apply IH; [apply list_elem_of_In|].
Qed.

(** ** The decision, token by token *)

Section exact.
Context `{VaultPlatform} (E : environment).
Implicit Types (V : vault) (tool_name agent_id : bytes) (session_id : option bytes) (caller : Caller).

(** What one lookup says about a token. *)
Inductive verdict := Revealed (plain : bytes) | Refused | Unknown.

Definition judge caller (r : result (option VaultEntry) RedactionError) : verdict :=
  match r with
  | Ok (Some entry) =>
      if negb (allows (entry_scope entry) caller) then Refused
      else match original entry with Some plain => Revealed plain | None => Unknown end
  | _ => Unknown
  end.

Definition plain_of (x : verdict) : option bytes := match x with Revealed p => Some p | _ => None end.
Definition is_refused (x : verdict) : bool := match x with Refused => true | _ => false end.
Definition is_unknown (x : verdict) : bool := match x with Unknown => true | _ => false end.
Definition is_revealed (x : verdict) : bool := match x with Revealed _ => true | _ => false end.

(** The verdicts on the tokens of a call, the [k]-th token at access [i + k]. *)
Fixpoint verdicts V agent_id session_id caller i (toks : list Token) : list verdict :=
  match toks with
  | [] => []
  | t :: toks' =>
      judge caller (egress_lookup E V agent_id session_id i t)
        :: verdicts V agent_id session_id caller (S i) toks'
  end.

Lemma egress_replace_verdict tool_name agent_id session_id caller V t s :
  let j := judge caller (egress_lookup E V agent_id session_id (accesses s) t) in
  let r := egress_replace E tool_name agent_id session_id caller V t s in
  r.1 = plain_of j ∧ count r.2 = (count s + (if is_revealed j then 1 else 0))%nat
  ∧ hallucinated r.2 = hallucinated s || is_unknown j
  ∧ scope_denied r.2 = scope_denied s || is_refused j ∧ accesses r.2 = S (accesses s).
Proof.
  unfold egress_replace, judge.
  destruct (egress_lookup _ _ _ _ _ _) as [[entry|]|e];
    [destruct (allows _ _); [destruct (original entry)|]|..]; cbn;
    rewrite ?orb_true_r, ?orb_false_r; split_and!; done || lia.
Qed.

Lemma answers_verdicts tool_name agent_id session_id caller V toks s :
  let js := verdicts V agent_id session_id caller (accesses s) toks in
  let r := answers (egress_replace E tool_name agent_id session_id caller V) toks s in
  r.1 = map plain_of js
  ∧ count r.2 = (count s + length (retain is_revealed js))%nat
  ∧ hallucinated r.2 = hallucinated s || existsb is_unknown js
  ∧ scope_denied r.2 = scope_denied s || existsb is_refused js.
Proof.
  cbv zeta. revert s. induction toks as [|t toks IH]; intros s; cbn [answers verdicts].
  - cbn. rewrite !orb_false_r. split_and!; done || lia.
  - destruct (egress_replace_verdict tool_name agent_id session_id caller V t s) as (H1 & H2 & H3 & H4 & H5).
    destruct (egress_replace _ _ _ _ _ _ t s) as [o s1]. cbn [fst snd] in *. subst o.
    specialize (IH s1). rewrite H2, H3, H4, H5 in IH.
    destruct (answers _ toks s1) as [os s2]. cbn [fst snd] in *. destruct IH as (-> & -> & -> & ->).
    cbn [map existsb retain]. rewrite !orb_assoc.
    split_and!; [done| |done|done]. destruct (is_revealed _); cbn [length]; lia.
Qed.

(** The plaintext that the vault's row of a token holds. *)
Definition value_in V agent_id session_id (t : Token) : bytes :=
  default [] ('(_, row) ← first_row (retain (row_matches (as_str t) agent_id session_id) (map_to_list V));
              decrypt agent_id (original_enc row)).

Lemma revealed_value caller V agent_id session_id i t p :
  judge caller (egress_lookup E V agent_id session_id i t) = Revealed p → p = value_in V agent_id session_id t.
Proof.
  unfold judge, egress_lookup, lookup_mapping, value_in. intros Hj. destruct (db_fails _); [done|].
  destruct (first_row _) as [[[[x a] s] row]|]; [|done]. cbn [mbind option_bind].
  destruct (scope_of_json _); [|done]. destruct (is_expired _ _); [by destruct (negb _) in Hj|].
  destruct (key_fails _); [done|]. destruct (decrypt _ _) as [plain|]; [|done].
  match type of Hj with context [if ?c then Ok _ else Err _] => destruct c; [|done] end.
  cbn [entry_scope original] in Hj. destruct (negb _); [done|]. by injection Hj.
Qed.

Lemma revealed_all caller V agent_id session_id toks : ∀ i,
  let js := verdicts V agent_id session_id caller i toks in
  existsb is_refused js = false → existsb is_unknown js = false →
  map plain_of js = map (λ t, Some (value_in V agent_id session_id t)) toks.
Proof.
  induction toks as [|t toks IH]; intros i; [done|]. cbn [verdicts existsb map].
  intros [H1 H2]%orb_false_iff [H3 H4]%orb_false_iff. f_equal; [|by eapply IH].
  destruct (judge _ _) as [p| |] eqn:Ej; [|done..]. cbn. f_equal. by eapply revealed_value.
Qed.

(** The decision as a specification: no token is restored unless all are. *)
Definition egress_spec walk rules tool_name (args : Value) agent_id session_id caller V
    (d : EgressDecision) : Prop :=
  let tokens := collect_tokens args in
  let n := length tokens in
  let js := verdicts V agent_id session_id caller 0 tokens in
  if is_empty tokens then d = Passthrough args
  else
    match find_rule walk rules tool_name with
    | None => d = Deny (deny_unlisted tool_name) n
    | Some rule =>
        match restore_args rule with
        | DenyArgs => d = Deny (deny_rule tool_name) n
        | PassthroughArgs => d = Passthrough args
        | RestoreArgs =>
            if existsb is_refused js then d = Deny (deny_scope tool_name) n
            else if existsb is_unknown js then d = Deny (deny_hallucinated tool_name) n
            else ∃ args', d = Allow args' n ∧ restored (value_in V agent_id session_id) args args'
        end
    end.

Lemma retain_revealed js :
  existsb is_refused js = false → existsb is_unknown js = false →
  length (retain is_revealed js) = length js.
Proof.
  induction js as [|j js IH]; [done|]. cbn [existsb retain length].
  intros [H1 H2]%orb_false_iff [H3 H4]%orb_false_iff. destruct j; [|done..]. cbn. f_equal. auto.
Qed.

Lemma verdicts_length V agent_id session_id caller i toks :
  length (verdicts V agent_id session_id caller i toks) = length toks.
Proof. revert i. induction toks as [|t toks IH]; intros i; simpl; [done|]. by rewrite IH. Qed.

(** C32 Egress restores all tokens or none: the decision on a tool call is the
    specified one, which looks the tokens of the arguments up in order and
    allows the call only when a rule restores for the tool and every token was
    found, unexpired and allowed to the caller; the arguments it passes on are
    then the given ones with every token, in every string, replaced by the
    plaintext its own vault row holds, and nothing else changed; one refused or
    unknown token denies the call.  The tokens are those the specification's
    cut of the strings finds, wherever they stand in the value. *)
Theorem decide_egress_refines walk rules tool_name args agent_id session_id caller V :
  egress_spec walk rules tool_name args agent_id session_id caller V
    (decide_egress E walk rules tool_name args agent_id session_id caller V).1
  ∧ ∀ t, t ∈ collect_tokens args ↔ token_in t args.
Proof.
  split; [|intros t; apply collect_tokens_exact].
  unfold decide_egress, egress_spec. destruct (is_empty (collect_tokens args)); [done|].
  destruct (find_rule walk rules tool_name) as [[m ar]|]; [|done]. cbn [restore_args audit_reveal].
  destruct m; [|done|done].
  set (s0 := {| count := 0; hallucinated := false; scope_denied := false; audit := []; accesses := 0 |}).
  destruct (substitute_restores (egress_replace E tool_name agent_id session_id caller V) args s0) as [Hs Hr].
  destruct (substitute_tokens _ args s0) as [args' s]. cbn [fst snd] in Hs, Hr. subst s.
  destruct (answers_verdicts tool_name agent_id session_id caller V (collect_tokens args) s0) as (Ho & Hc & Hh & Hd).
  unfold s0 in *. cbn [accesses count hallucinated scope_denied orb] in *. rewrite Hd, Hh, Hc.
  destruct (existsb is_refused _) eqn:E1; [done|]. destruct (existsb is_unknown _) eqn:E2; [done|].
  cbn [fst]. exists args'. rewrite Nat.add_0_l, retain_revealed, verdicts_length by done. split; [done|].
  apply Hr. unfold all_given. rewrite Ho. by apply revealed_all.
Qed.
End exact.

Definition demo_rules : rule_table :=
  Egress_new {[ b "odoo.*" := {| restore_args := RestoreArgs; audit_reveal := true |};
                b "odoo_delete_*" := {| restore_args := DenyArgs; audit_reveal := false |} ]}.

Lemma find_rule_exact_witness :
  map_to_list demo_rules ≡ₚ map_to_list demo_rules
  ∧ (find_rule (map_to_list demo_rules) demo_rules (b "odoo_delete_x")
       = Some {| restore_args := DenyArgs; audit_reveal := false |} ↔
     demo_rules !! b "odoo_delete_x" = Some {| restore_args := DenyArgs; audit_reveal := false |}
     ∨ demo_rules !! b "odoo_delete_x" = None ∧
       ∃ prefix, demo_rules !! (prefix ++ b "*") = Some {| restore_args := DenyArgs; audit_reveal := false |}
         ∧ starts_with (b "odoo_delete_x") prefix = true
         ∧ ∀ prefix' r', demo_rules !! (prefix' ++ b "*") = Some r' →
             starts_with (b "odoo_delete_x") prefix' = true → (length prefix' ≤ length prefix)%nat).
Proof.
  split; [reflexivity|].
  exact (find_rule_exact (map_to_list demo_rules) demo_rules (b "odoo_delete_x")
    {| restore_args := DenyArgs; audit_reveal := false |} (Permutation_refl _)).
Defined.

Example demo_find : map (find_rule (map_to_list demo_rules) demo_rules)
  [b "odoo_search"; b "odoo_delete_x"; b "mail_send"]
  = [Some {| restore_args := RestoreArgs; audit_reveal := true |};
     Some {| restore_args := DenyArgs; audit_reveal := false |}; None].
Proof. vm_compute. reflexivity. Qed.
