(* ===== verification/Decimal.v ===== *)
(** * Decimal text

    [{}] of a non-negative integer and [str::parse] of unsigned integers,
    inverse to each other. *)

From S2P Require Import Prelude.
From S2P Require Import Bytes.

Definition is_digit (c : N) : bool := ((48 <=? c) && (c <=? 57))%N.
Definition all_digits (s : bytes) : bool := forallb is_digit s.

(** The number a sequence of digits denotes, and [parse] of digits into an
    unsigned type. *)
Definition digits_value (s : bytes) : Z := foldl (λ acc c, 10 * acc + (Z.of_N c - 48)) 0 s.
Definition parse_digits (max : Z) (s : bytes) : option Z :=
  if is_empty s || negb (all_digits s) then None
  else if digits_value s <=? max then Some (digits_value s) else None.

Lemma digits_value_app s c : digits_value (s ++ [c]) = 10 * digits_value s + (Z.of_N c - 48).
Proof. unfold digits_value. by rewrite foldl_app. Qed.

Lemma pretty_char_digit d : (d < 10)%N → Ascii.N_of_ascii (pretty_N_char d) = (48 + d)%N.
Proof.
  intros Hd. assert (∃ n : nat, (n < 10)%nat ∧ d = N.of_nat n) as (n & Hn & ->) by (exists (N.to_nat d); lia).
  do 10 (destruct n as [|n]; [by vm_compute|]). lia.
Qed.

(** What [pretty_N_go] puts in front of the string. *)
Lemma pretty_go_digits x s :
  ∃ ds, bytes_of_string (pretty_N_go x s) = ds ++ bytes_of_string s
    ∧ all_digits ds = true ∧ digits_value ds = Z.of_N x
    ∧ (x = 0%N → ds = []) ∧ ((0 < x)%N → ∃ c r, ds = c :: r ∧ c ≠ 48%N).
Proof.
  revert s. induction (N.lt_wf_0 x) as [x _ IH]. intros s.
  assert (x = 0 ∨ 0 < x)%N as [->|Hx] by lia.
  { exists []. rewrite pretty_N_go_0. split_and!; [done..|lia]. }
  rewrite pretty_N_go_step by done.
  destruct (IH (x / 10)%N ltac:(apply N.div_lt; lia) (String (pretty_N_char (x mod 10)) s))
    as (ds & Hb & Hd & Hv & H0 & Hp).
  pose proof (N.mod_lt x 10 ltac:(lia)) as Hm.
  exists (ds ++ [48 + x mod 10]%N). split_and!.
  - rewrite Hb. cbn [bytes_of_string]. rewrite pretty_char_digit by done. by rewrite <- app_assoc.
  - unfold all_digits in *. rewrite forallb_app, Hd. cbn. unfold is_digit.
    revert Hm. generalize (x mod 10)%N. intros m Hm. rewrite andb_true_r. apply andb_true_iff. split; apply N.leb_le; lia.
  - rewrite digits_value_app, Hv. pose proof (N.div_mod x 10 ltac:(lia)) as Hdm. revert Hdm.
    generalize (x mod 10)%N (x / 10)%N. intros m q Hdm. lia.
  - lia.
  - intros _. destruct (decide (x / 10 = 0)%N) as [Hz|Hz].
    + rewrite (H0 Hz). eexists _, []. split; [done|]. pose proof (N.div_mod x 10 ltac:(lia)) as Hdm. rewrite Hz in Hdm.
      revert Hdm. generalize (x mod 10)%N. intros m Hdm. lia.
    + destruct Hp as (c & r & -> & Hc); [by apply N.neq_0_lt_0|]. by exists c, (r ++ [48 + x mod 10]%N).
Qed.

Lemma utf8_decode_digits s : all_digits s = true → utf8_decode s = s.
Proof.
  induction s as [|c s IH]; [done|]. cbn [all_digits forallb]. intros [Hc Hs]%andb_true_iff.
  unfold is_digit in Hc. apply andb_true_iff in Hc as [_ Hc%N.leb_le]. cbn [utf8_decode].
  rewrite (proj2 (N.ltb_lt c 128)) by lia. f_equal. by apply IH.
Qed.

(** [to_string] of a non-negative integer: digits without a leading zero. *)
Lemma show_digits n :
  0 ≤ n → all_digits (show_Z n) = true ∧ digits_value (show_Z n) = n ∧ show_Z n ≠ []
    ∧ (head (show_Z n) = Some 48%N → show_Z n = [48%N]).
Proof.
  intros Hn. unfold show_Z, u. destruct n as [|p|p]; [by vm_compute|unfold pretty, pretty_Z|lia].
  unfold pretty, pretty_positive, pretty, pretty_N.
  destruct (decide (N.pos p = 0)%N) as [|_]; [lia|].
  destruct (pretty_go_digits (N.pos p) "") as (ds & Hb & Hd & Hv & _ & Hp).
  cbn [bytes_of_string] in Hb. rewrite app_nil_r in Hb.
  destruct Hp as (c & r & -> & Hc); [lia|]. rewrite Hb, utf8_decode_digits by done.
  split_and!; [done|by rewrite Hv|done|]. intros [= ->]. done.
Qed.

Lemma parse_show max n : 0 ≤ n ≤ max → parse_digits max (show_Z n) = Some n.
Proof.
  intros Hn. destruct (show_digits n ltac:(lia)) as (Hd & Hv & Hne & _). unfold parse_digits.
  rewrite Hd, Hv. destruct (show_Z n); [done|]. cbn. by rewrite (proj2 (Z.leb_le n max)) by lia.
Qed.

Lemma show_nat_inj i j : show_nat i = show_nat j → i = j.
Proof.
  intros He. pose proof (show_digits (Z.of_nat i) ltac:(lia)) as (_ & Hi & _).
  pose proof (show_digits (Z.of_nat j) ltac:(lia)) as (_ & Hj & _). unfold show_nat in He. rewrite He in Hi. lia.
Qed.

Lemma digits_nonneg s : all_digits s = true → 0 ≤ digits_value s.
Proof.
  induction s as [|c s IH] using rev_ind; [done|]. unfold all_digits. rewrite forallb_app, digits_value_app.
  intros [Hs Hc]%andb_true_iff. specialize (IH Hs). cbn in Hc. unfold is_digit in Hc.
  apply andb_true_iff in Hc as [[Hc%N.leb_le _]%andb_true_iff _]. lia.
Qed.

(** What a successful parse gives. *)
Lemma parse_digits_bounds max s n : parse_digits max s = Some n → 0 ≤ n ≤ max ∧ s ≠ [].
Proof.
  unfold parse_digits. destruct (is_empty s) eqn:E; [done|]. destruct (all_digits s) eqn:Ed; [|done]. cbn.
  destruct (digits_value s <=? max) eqn:El; [|done]. intros [= <-]. apply digits_nonneg in Ed. reflect_bools.
  split; [lia|]. by destruct s.
Qed.
