(* ===== verification/JsonPath.v ===== *)
(** * Structured-field paths (crates/duduclaw-redaction/src/rules/json_path.rs)

    The parser of the path language and its resolution to JSON pointers, with
    what a path means as a relation on steps.  Reading and writing through a
    pointer belongs to serde_json; its documented behaviour is the interface
    [JsonPointer]. *)

From S2P Require Import Prelude.
From S2P Require Import Bytes.
From S2P Require Import Utf8.
From S2P Require Import JsonValue.
From S2P Require Import Decimal.

Definition MAX_PATH_DEPTH : nat := 64.
Definition MAX_PATHS : nat := 64.
Definition MAX_PATH_LEN : nat := 512.

(** ** Paths *)

Inductive Segment :=
| Key (key : bytes)
| AllIndices
| Index (n : Z)
| Descend (key : bytes)
| AllChildren.

Definition is_key_byte (c : N) : bool :=
  (is_digit c || ((65 <=? c) && (c <=? 90)) || ((97 <=? c) && (c <=? 122)) || (c =? 95) || (c =? 45))%N.

Fixpoint span_len (p : N → bool) (s : bytes) : nat :=
  match s with
  | c :: r => if p c then S (span_len p r) else O
  | [] => O
  end.

(** [bytes.get(i) == Some(&c)]. *)
Definition byte_is (raw : bytes) (i : nat) (c : N) : bool :=
  match raw !! i with Some d => (d =? c)%N | None => false end.
(** [iter().position(..)] of a byte. *)
Definition position (c : N) (s : bytes) : option nat :=
  let n := span_len (λ d, negb (d =? c)%N) s in if (n <? length s)%nat then Some n else None.

Definition in_path (msg : bytes) (i : nat) (raw : bytes) : bytes := msg ++ show_nat i ++ b " in path: " ++ raw.

Definition take_key (raw : bytes) (from : nat) : result (bytes * nat) bytes :=
  let n := span_len is_key_byte (drop from raw) in
  if (n =? 0)%nat then Err (in_path (b "empty key at byte ") from raw)
  else Ok (take n (drop from raw), (from + n)%nat).

(** A character of Latin-1, as [other as char] prints it. *)
Definition latin1 (c : N) : bytes := utf8_encode [c].

Definition take_bracket (raw : bytes) (from : nat) : result (Segment * nat) bytes :=
  if byte_is raw (from + 1) 39 then
    match position 39 (drop (from + 2) raw) with
    | None => Err (in_path (b "unclosed quoted key at byte ") from raw)
    | Some n =>
        let quote_end := (from + 2 + n)%nat in
        let key := take n (drop (from + 2) raw) in
        if negb (byte_is raw (quote_end + 1) 93) then
          Err (b "quoted key at byte " ++ show_nat from ++ b " must be closed by " ++ dquote ++ b "']" ++ dquote
               ++ b " in path: " ++ raw)
        else if negb (valid_utf8 key) then
          Err (b "quoted key at byte " ++ show_nat from ++ b " is not valid UTF-8 in path: " ++ raw)
        else if is_empty key then Err (in_path (b "empty quoted key at byte ") from raw)
        else if existsb (λ c, (c =? 10) || (c =? 13))%N key then
          Err (b "quoted key at byte " ++ show_nat from ++ b " must not contain a line break in path: " ++ raw)
        else Ok (Key key, (quote_end + 2)%nat)
    end
  else
    match position 93 (drop from raw) with
    | None => Err (in_path (b "unclosed '[' at byte ") from raw)
    | Some n =>
        let inner := take (n - 1) (drop (from + 1) raw) in
        let next := (from + n + 1)%nat in
        if ustr_eqb inner (b "*") then Ok (AllIndices, next)
        else if negb (is_empty inner) && all_digits inner then
          match parse_digits u64_max inner with
          | Some i => Ok (Index i, next)
          | None => Err (in_path (b "index out of range at byte ") from raw)
          end
        else Err (in_path (b "invalid bracket segment at byte ") from raw)
    end.

(** The segment that starts at [i], and where the next one does. *)
Definition parse_segment (raw : bytes) (i : nat) (c : N) : result (Segment * nat) bytes :=
  if (c =? 46)%N then
    if byte_is raw (i + 1) 46 then
      match take_key raw (i + 2) with Ok (key, next) => Ok (Descend key, next) | Err e => Err e end
    else if byte_is raw (i + 1) 42 then Ok (AllChildren, (i + 2)%nat)
    else match take_key raw (i + 1) with Ok (key, next) => Ok (Key key, next) | Err e => Err e end
  else if (c =? 91)%N then take_bracket raw i
  else Err (b "unexpected character '" ++ latin1 c ++ in_path (b "' at byte ") i raw).

(** Each segment is at least one byte; [None] is a round too many. *)
Fixpoint parse_loop (fuel : nat) (raw : bytes) (i : nat) (segments : list Segment) : option (result (list Segment) bytes) :=
  match raw !! i with
  | None => Some (Ok segments)
  | Some c =>
      match fuel with
      | O => None
      | S fuel' =>
          match parse_segment raw i c with
          | Ok (seg, next) => parse_loop fuel' raw next (segments ++ [seg])
          | Err e => Some (Err e)
          end
      end
  end.

Definition parse_path (raw : bytes) : result (list Segment) bytes :=
  if (MAX_PATH_LEN <? length raw)%nat then
    Err (b "path too long (" ++ show_nat (length raw) ++ b " > 512): " ++ raw)
  else if negb (byte_is raw 0 36) then Err (b "path must start with '$': " ++ raw)
  else default (Err []) (parse_loop (length raw) raw 1 []).

(** ** Resolution *)

(** [push_token]: one escaped reference token more. *)
Definition escape_byte (c : N) : bytes :=
  if (c =? 126)%N then b "~0" else if (c =? 47)%N then b "~1" else [c].
Definition escape (token : bytes) : bytes := flat_map escape_byte token.
Definition push_token (ptr token : bytes) : bytes := ptr ++ b "/" ++ escape token.

(** A loop over a list with its index. *)
Definition flat_imap {A B} (f : nat → A → list B) : nat → list A → list B :=
  fix go i l := match l with [] => [] | x :: r => f i x ++ go (S i) r end.

Record place := { ptr : bytes; node : Value; depth : nat }.

Definition child_at (p : bytes) (token : bytes) (v : Value) (d : nat) : place :=
  {| ptr := push_token p token; node := v; depth := S d |}.

Fixpoint collect_descend (v : Value) (p key : bytes) (d : nat) : list place :=
  if (MAX_PATH_DEPTH <=? d)%nat then []
  else
    match v with
    | VObject entries =>
        match entry entries key with Some c => [child_at p key c d] | None => [] end
        ++ flat_map (λ e, collect_descend e.2 (push_token p e.1) key (S d)) entries
    | VArray items => flat_imap (λ i x, collect_descend x (push_token p (show_nat i)) key (S d)) 0 items
    | _ => []
    end.

Definition seg_step (seg : Segment) (q : place) : list place :=
  let p := ptr q in
  let d := depth q in
  if (MAX_PATH_DEPTH <=? d)%nat then []
  else
    match seg with
    | Key k =>
        match node q with
        | VObject entries => match entry entries k with Some c => [child_at p k c d] | None => [] end
        | _ => []
        end
    | AllIndices =>
        match node q with VArray items => flat_imap (λ i x, [child_at p (show_nat i) x d]) 0 items | _ => [] end
    | Index n =>
        match node q with
        | VArray items =>
            match items !! Z.to_nat n with Some c => [child_at p (show_Z n) c d] | None => [] end
        | _ => []
        end
    | AllChildren =>
        match node q with
        | VObject entries => map (λ e : bytes * Value, child_at p e.1 e.2 d) entries
        | VArray items => flat_imap (λ i x, [child_at p (show_nat i) x d]) 0 items
        | _ => []
        end
    | Descend k => collect_descend (node q) p k d
    end.

Fixpoint frontier (segs : list Segment) (qs : list place) : list place :=
  match segs with
  | [] => qs
  | seg :: r =>
      match flat_map (seg_step seg) qs with
      | [] => []
      | next => frontier r next
      end
  end.

(** The elements not seen before. *)
Fixpoint dedup (seen l : list bytes) : list bytes :=
  match l with
  | [] => []
  | p :: r => if existsb (ustr_eqb p) seen then dedup seen r else p :: dedup (p :: seen) r
  end.

Definition resolve (segs : list Segment) (root : Value) : list bytes :=
  dedup [] (map ptr (frontier segs [{| ptr := []; node := root; depth := 0 |}])).

(** ** Pointers *)

(** A step into a value, and the value many steps down. *)
Inductive step := SKey (k : bytes) | SIdx (i : nat).
#[export] Instance step_eq_dec : EqDecision step.
Proof. solve_decision. Defined.

Definition child (v : Value) (s : step) : option Value :=
  match v, s with
  | VObject entries, SKey k => entry entries k
  | VArray items, SIdx i => items !! i
  | _, _ => None
  end.
Fixpoint node_at (v : Value) (steps : list step) : option Value :=
  match steps with [] => Some v | s :: r => child v s ≫= λ c, node_at c r end.

Definition token_of_step (s : step) : bytes := match s with SKey k => k | SIdx i => show_nat i end.
Definition pointer_of (steps : list step) : bytes := foldl (λ p s, push_token p (token_of_step s)) [] steps.

(** A change of the node many steps down. *)
Fixpoint set_entry (f : Value → Value) (entries : list (bytes * Value)) (k : bytes) : list (bytes * Value) :=
  match entries with
  | [] => []
  | e :: r => if ustr_eqb e.1 k then (e.1, f e.2) :: r else e :: set_entry f r k
  end.
Fixpoint alter_at (f : Value → Value) (v : Value) (steps : list step) {struct steps} : Value :=
  match steps with
  | [] => f v
  | s :: r =>
      match v, s with
      | VObject entries, SKey k => VObject (set_entry (λ c, alter_at f c r) entries k)
      | VArray items, SIdx i => VArray (alter (λ c, alter_at f c r) i items)
      | _, _ => v
      end
  end.

(** [Value::pointer], and a write through [Value::pointer_mut]. *)
Class JsonPointer := {
  pointer : Value → bytes → option Value;
  pointer_put : Value → bytes → Value → Value;
  pointer_at v steps x : node_at v steps = Some x → pointer v (pointer_of steps) = Some x;
  pointer_put_at v steps x y :
    node_at v steps = Some x → pointer_put v (pointer_of steps) y = alter_at (λ _, y) v steps;
}.

(** ** What a path means

    Which steps a segment and a path take, without reference to a value. *)
Inductive seg_matches : Segment → list step → Prop :=
| sm_key k : seg_matches (Key k) [SKey k]
| sm_all_indices i : seg_matches AllIndices [SIdx i]
| sm_index n : seg_matches (Index n) [SIdx (Z.to_nat n)]
| sm_descend k ss : seg_matches (Descend k) (ss ++ [SKey k])
| sm_all_children s : seg_matches AllChildren [s].

Inductive path_matches : list Segment → list step → Prop :=
| pm_nil : path_matches [] []
| pm_cons seg segs ss rest : seg_matches seg ss → path_matches segs rest → path_matches (seg :: segs) (ss ++ rest).

Definition sound_index (seg : Segment) : Prop := match seg with Index n => 0 ≤ n | _ => True end.

(** The keys of every object are distinct, as in a map. *)
Definition unique_keys (v : Value) : Prop :=
  ∀ steps entries, node_at v steps = Some (VObject entries) → NoDup (map fst entries).

Definition push_all (p : bytes) (ss : list step) : bytes := foldl (λ p s, push_token p (token_of_step s)) p ss.

Lemma push_all_app p ss rest : push_all p (ss ++ rest) = push_all (push_all p ss) rest.
Proof. apply foldl_app. Qed.

Lemma node_at_app v ss rest : node_at v (ss ++ rest) = node_at v ss ≫= λ c, node_at c rest.
Proof. revert v. induction ss as [|s ss IH]; intros v; cbn; [done|]. by destruct (child v s); cbn. Qed.

Lemma unique_keys_at v ss c : unique_keys v → node_at v ss = Some c → unique_keys c.
Proof. intros Hu Hc steps entries He. apply (Hu (ss ++ steps)). by rewrite node_at_app, Hc. Qed.

Lemma unique_keys_object entries : unique_keys (VObject entries) → NoDup (map fst entries).
Proof. intros Hu. by apply (Hu []). Qed.

Lemma entry_elem entries k c : entry entries k = Some c → (k, c) ∈ entries.
Proof.
  induction entries as [|[k' c'] r IH]; cbn; [done|]. destruct (ustr_eqb k' k) eqn:E; [|by right; apply IH].
  reflect_bools. intros. simplify_eq. by left.
Qed.

Lemma elem_entry entries k c : NoDup (map fst entries) → (k, c) ∈ entries → entry entries k = Some c.
Proof.
  induction entries as [|[k' c'] r IH]; cbn; [by intros _ ?%elem_of_nil|]. intros [Hn Hr]%list.NoDup_cons.
  intros [He|Hin]%elem_of_cons; [simplify_eq; by rewrite ustr_eqb_refl|].
  destruct (ustr_eqb k' k) eqn:E; [|by apply IH]. reflect_bools. subst. destruct Hn. by apply (list_elem_of_fmap_2 fst) in Hin.
Qed.

Lemma elem_of_flat_imap {A B} (f : nat → A → list B) i l y :
  y ∈ flat_imap f i l ↔ ∃ j x, l !! j = Some x ∧ y ∈ f (i + j)%nat x.
Proof.
  revert i. induction l as [|x l IH]; intros i; cbn.
  - split; [by intros ?%elem_of_nil|]. by intros (j & x & Hj & _).
  - rewrite elem_of_app, IH. split.
    + intros [Hy|(j & z & Hz & Hy)].
      * exists 0%nat, x. by rewrite Nat.add_0_r.
      * exists (S j), z. split; [done|]. by replace (i + S j)%nat with (S i + j)%nat by lia.
    + intros ([|j] & z & Hz & Hy); cbn in Hz; simplify_eq; [left; by rewrite Nat.add_0_r in Hy|].
      right. exists j, z. split; [done|]. by replace (S i + j)%nat with (i + S j)%nat by lia.
Qed.

(** Where the steps [ss] lead from the place [q]. *)
Definition reached (q : place) (ss : list step) (q' : place) : Prop :=
  node_at (node q) ss = Some (node q') ∧ ptr q' = push_all (ptr q) ss
  ∧ depth q' = (depth q + length ss)%nat ∧ (depth q' ≤ MAX_PATH_DEPTH)%nat.

Lemma reached_one p v d s c :
  (d < MAX_PATH_DEPTH)%nat → child v s = Some c →
  reached {| ptr := p; node := v; depth := d |} [s] (child_at p (token_of_step s) c d).
Proof. intros Hd Hc. unfold reached. cbn. rewrite Hc. cbn. split_and!; [done|done|lia|lia]. Qed.

Lemma reached_one_inv p v d s q' :
  reached {| ptr := p; node := v; depth := d |} [s] q' →
  (d < MAX_PATH_DEPTH)%nat ∧ ∃ c, child v s = Some c ∧ q' = child_at p (token_of_step s) c d.
Proof.
  intros (Hn & Hp & Hd & Hm). cbn in *. destruct (child v s) as [c|]; [|done]. cbn in Hn. simplify_eq.
  split; [lia|]. exists (node q'). split; [done|]. destruct q'; cbn in *. unfold child_at. f_equal; [done|lia].
Qed.

Lemma reached_cons p v d s c ss q' :
  child v s = Some c →
  reached {| ptr := push_token p (token_of_step s); node := c; depth := S d |} ss q' ↔
  reached {| ptr := p; node := v; depth := d |} (s :: ss) q'.
Proof.
  intros Hc. unfold reached. cbn [node_at node ptr depth push_all foldl length]. rewrite Hc. cbn [mbind option_bind].
  replace (S d + length ss)%nat with (d + S (length ss))%nat by lia. done.
Qed.

Lemma reached_app q1 q2 q3 ss rest : reached q1 ss q2 → reached q2 rest q3 → reached q1 (ss ++ rest) q3.
Proof.
  intros (Hn & Hp & Hd & Hm) (Hn' & Hp' & Hd' & Hm'). unfold reached.
  rewrite node_at_app, Hn, push_all_app, length_app, <- Hp, Hp'. cbn. split_and!; [done|done|lia|done].
Qed.

Lemma reached_split q1 q3 ss rest :
  reached q1 (ss ++ rest) q3 → ∃ q2, reached q1 ss q2 ∧ reached q2 rest q3.
Proof.
  intros (Hn & Hp & Hd & Hm). rewrite node_at_app in Hn. destruct (node_at (node q1) ss) as [c|] eqn:Ec; [|done].
  rewrite length_app in Hd. rewrite push_all_app in Hp.
  exists {| ptr := push_all (ptr q1) ss; node := c; depth := depth q1 + length ss |}.
  unfold reached. cbn. split_and!; [done|done|done|lia|done|done|lia|done].
Qed.

(** The first of some steps. *)
Lemma reached_first p v d s ss q' :
  reached {| ptr := p; node := v; depth := d |} (s :: ss) q' →
  ∃ c, child v s = Some c ∧ reached {| ptr := push_token p (token_of_step s); node := c; depth := S d |} ss q'.
Proof.
  intros Hr. pose proof Hr as (Hn & _). cbn in Hn. destruct (child v s) as [c|] eqn:Ec; [|done].
  exists c. split; [done|]. by apply (reached_cons p v d s c).
Qed.

Lemma reached_depth q ss s q' : reached q (ss ++ [s]) q' → (depth q < MAX_PATH_DEPTH)%nat.
Proof. intros (_ & _ & Hd & Hm). rewrite length_app in Hd. cbn in Hd. lia. Qed.

Lemma unique_child v s c : unique_keys v → child v s = Some c → unique_keys c.
Proof. intros Hu Hc. apply (unique_keys_at v [s]); [done|]. cbn. by rewrite Hc. Qed.

Lemma collect_descend_spec key v : ∀ p d q',
  unique_keys v →
  q' ∈ collect_descend v p key d ↔ ∃ ss, reached {| ptr := p; node := v; depth := d |} (ss ++ [SKey key]) q'.
Proof.
  assert (∀ w p d q', (∀ s, child w s = None) →
    q' ∈ [] ↔ ∃ ss, reached {| ptr := p; node := w; depth := d |} (ss ++ [SKey key]) q') as Hleaf.
  { intros w p d q' Hno. split; [by intros ?%elem_of_nil|]. intros (ss & Hr & _).
    destruct ss as [|s ss]; cbn in Hr; by rewrite Hno in Hr. }
  induction v as [| | | |items IH|entries IH] using value_ind; intros p d q' Hu; cbn [collect_descend];
    (destruct (Nat.leb_spec MAX_PATH_DEPTH d) as [Hd|Hd];
     [split; [by intros ?%elem_of_nil|]; intros (ss & Hr%reached_depth); cbn in Hr; lia|]);
    try (by apply Hleaf); rewrite List.Forall_forall in IH.
  - rewrite elem_of_flat_imap. cbn [Nat.add]. split.
    + intros (j & x & Hj & Hq).
      apply IH in Hq as (ss & Hr); [|by eapply list_elem_of_In, list_elem_of_lookup_2|by apply (unique_child _ (SIdx j) _ Hu)].
      exists (SIdx j :: ss). cbn [app]. by apply (reached_cons p (VArray items) d (SIdx j) x) in Hr.
    + intros ([|s ss] & Hr); [by destruct Hr as (Hr & _)|].
      apply reached_first in Hr as (c & Hc & Hr). destruct s as [|j]; [done|]. exists j, c. split; [done|].
      apply IH; [by eapply list_elem_of_In, list_elem_of_lookup_2|by apply (unique_child _ (SIdx j) _ Hu)|]. by exists ss.
  - pose proof (unique_keys_object _ Hu) as Hnd. rewrite elem_of_app, elem_of_flat_map. split.
    + intros [Hq|([k c] & He & Hq)].
      * destruct (entry entries key) as [c|] eqn:Ec; [|by apply elem_of_nil in Hq].
        apply list_elem_of_singleton in Hq as ->. exists []. by apply (reached_one p (VObject entries) d (SKey key)).
      * pose proof (elem_entry _ _ _ Hnd He) as Hc.
        apply (IH (k, c)) in Hq as (ss & Hr); [|by apply list_elem_of_In|by apply (unique_child _ (SKey k) _ Hu)].
        exists (SKey k :: ss). cbn [app]. by apply (reached_cons p (VObject entries) d (SKey k) c) in Hr.
    + intros ([|s ss] & Hr).
      * apply reached_one_inv in Hr as (_ & c & Hc & ->). cbn in Hc. left. rewrite Hc. by left.
      * apply reached_first in Hr as (c & Hc & Hr). destruct s as [k|]; [|done]. right.
        exists (k, c). split; [by apply entry_elem|].
        apply (IH (k, c)); [by apply list_elem_of_In, entry_elem|by apply (unique_child _ (SKey k) _ Hu)|]. by exists ss.
Qed.

Lemma seg_step_spec seg q q' :
  unique_keys (node q) → sound_index seg →
  q' ∈ seg_step seg q ↔ ∃ ss, seg_matches seg ss ∧ reached q ss q'.
Proof.
  destruct q as [p v d]. intros Hu Hi. unfold seg_step. cbn [ptr node depth] in *.
  assert (∀ ss, seg_matches seg ss → reached {| ptr := p; node := v; depth := d |} ss q' → (d < MAX_PATH_DEPTH)%nat) as Hdep.
  { intros ss Hm (_ & _ & Hd & Hle). cbn in Hd. destruct Hm; rewrite ?length_app in Hd; cbn in Hd; lia. }
  destruct (Nat.leb_spec MAX_PATH_DEPTH d) as [Hd|Hd].
  { split; [by intros ?%elem_of_nil|]. intros (ss & Hm & Hr). specialize (Hdep ss Hm Hr). lia. }
  clear Hdep.
  assert (∀ s, (∃ c, child v s = Some c ∧ q' = child_at p (token_of_step s) c d)
    ↔ reached {| ptr := p; node := v; depth := d |} [s] q') as Hone.
  { intros s. split; [intros (c & Hc & ->); by apply reached_one|]. by intros (_ & ?)%reached_one_inv. }
  assert (∀ l, q' ∈ flat_imap (λ i x, [child_at p (show_nat i) x d]) 0 l
    ↔ ∃ i c, l !! i = Some c ∧ q' = child_at p (show_nat i) c d) as Himap.
  { intros l. rewrite elem_of_flat_imap. cbn. by setoid_rewrite list_elem_of_singleton. }
  destruct seg as [k| |n|k|]; cbn in Hi.
  - transitivity (reached {| ptr := p; node := v; depth := d |} [SKey k] q').
    + rewrite <- Hone. destruct v; cbn; try (split; [by intros ?%elem_of_nil|by intros (? & ? & _)]).
      destruct (entry entries k) as [c|]; [rewrite list_elem_of_singleton|split; [by intros ?%elem_of_nil|by intros (? & ? & _)]].
      split; [intros ->; by exists c|]. intros (c' & Hc' & ->). by simplify_eq.
    + split; [intros Hr; exists [SKey k]; split; [constructor|done]|]. intros (ss & Hm & Hr). by inversion Hm; subst.
  - transitivity (∃ i, reached {| ptr := p; node := v; depth := d |} [SIdx i] q').
    + setoid_rewrite <- Hone. destruct v; cbn; try (split; [by intros ?%elem_of_nil|by intros (? & ? & ? & _)]). by apply Himap.
    + split; [intros (i & Hr); exists [SIdx i]; split; [constructor|done]|]. intros (ss & Hm & Hr).
      inversion Hm; subst. eauto.
  - transitivity (reached {| ptr := p; node := v; depth := d |} [SIdx (Z.to_nat n)] q').
    + rewrite <- Hone. cbn [token_of_step]. unfold show_nat. rewrite Z2Nat.id by done.
      destruct v; cbn; try (split; [by intros ?%elem_of_nil|by intros (? & ? & _)]).
      destruct (items !! Z.to_nat n) as [c|]; [rewrite list_elem_of_singleton|split; [by intros ?%elem_of_nil|by intros (? & ? & _)]].
      split; [intros ->; by exists c|]. intros (c' & Hc' & ->). by simplify_eq.
    + split; [intros Hr; exists [SIdx (Z.to_nat n)]; split; [constructor|done]|]. intros (ss & Hm & Hr). by inversion Hm; subst.
  - rewrite collect_descend_spec by done. split.
    + intros (ss & Hr). exists (ss ++ [SKey k]). split; [constructor|done].
    + intros (ss & Hm & Hr). inversion Hm; subst. eauto.
  - transitivity (∃ s, reached {| ptr := p; node := v; depth := d |} [s] q').
    + setoid_rewrite <- Hone. destruct v as [| | | |items|entries]; cbn;
        try (split; [by intros ?%elem_of_nil|by intros ([|] & ? & ? & _)]).
      * rewrite Himap. split; [intros (i & c & Hc & ->); by exists (SIdx i), c|].
        intros ([|i] & c & Hc & ->); [done|]. by exists i, c.
      * pose proof (unique_keys_object _ Hu) as Hnd. split.
        -- intros ([k c] & -> & He)%list_elem_of_fmap. exists (SKey k), c. split; [by apply elem_entry|done].
        -- intros ([k|] & c & Hc & ->); [|done]. apply list_elem_of_fmap. exists (k, c). split; [done|by apply entry_elem].
    + split; [intros (s & Hr); exists [s]; split; [constructor|done]|]. intros (ss & Hm & Hr). inversion Hm; subst. eauto.
Qed.

Lemma frontier_nil segs : frontier segs [] = [].
Proof. by destruct segs. Qed.

Lemma frontier_cons seg segs qs : frontier (seg :: segs) qs = frontier segs (flat_map (seg_step seg) qs).
Proof. cbn [frontier]. destruct (flat_map (seg_step seg) qs); [by rewrite frontier_nil|done]. Qed.

Lemma frontier_spec segs qs q' :
  Forall sound_index segs → (∀ q, q ∈ qs → unique_keys (node q) ∧ (depth q ≤ MAX_PATH_DEPTH)%nat) →
  q' ∈ frontier segs qs ↔ ∃ q ss, q ∈ qs ∧ path_matches segs ss ∧ reached q ss q'.
Proof.
  revert qs. induction segs as [|seg segs IH]; intros qs Hs Hq.
  - cbn [frontier]. split.
    + intros Hin. exists q', []. destruct (Hq _ Hin) as [_ Hd]. split_and!; [done|constructor|].
      unfold reached. cbn. split_and!; [done|done|lia|done].
    + intros (q & ss & Hin & Hm & Hr). inversion Hm; subst. destruct Hr as (Hn & Hp & Hd & _). cbn in *. simplify_eq.
      destruct q as [p v d], q' as [p' v' d']; cbn in *. subst. by rewrite Nat.add_0_r.
  - inversion Hs as [|? ? Hi Hs']; subst.
    rewrite frontier_cons, IH; [|done|].
    + setoid_rewrite elem_of_flat_map. split.
      * intros (q1 & rest & (q & Hin & Hq1) & Hm & Hr). destruct (Hq _ Hin) as [Hu _].
        apply seg_step_spec in Hq1 as (ss & Hms & Hr1); [|done..]. exists q, (ss ++ rest).
        split_and!; [done|by constructor|by eapply reached_app].
      * intros (q & ss0 & Hin & Hm & Hr). inversion Hm as [|? ? ss rest Hms Hmr]; subst.
        apply reached_split in Hr as (q1 & Hr1 & Hr2). exists q1, rest. split_and!; [|done|done].
        exists q. split; [done|]. destruct (Hq _ Hin) as [Hu _]. apply seg_step_spec; eauto.
    + intros q1 (q & Hin & Hq1)%elem_of_flat_map. destruct (Hq _ Hin) as [Hu _].
      apply seg_step_spec in Hq1 as (ss & _ & Hr1); [|done..]. split; [|by apply Hr1].
      eapply unique_keys_at; [exact Hu|apply Hr1].
Qed.

Lemma elem_of_dedup seen l p : p ∈ dedup seen l ↔ p ∈ l ∧ p ∉ seen.
Proof.
  revert seen. induction l as [|x l IH]; intros seen; cbn; [by rewrite elem_of_nil; tauto|].
  destruct (existsb (ustr_eqb x) seen) eqn:E.
  - rewrite IH, elem_of_cons. apply existsb_exists in E as (y & Hy & He). reflect_bools. subst y.
    apply list_elem_of_In in Hy. split; [tauto|]. intros [[->|Hp] Hn]; [done|tauto].
  - assert (x ∉ seen) as Hx.
    { intros Hx. rewrite <- not_true_iff_false, existsb_exists in E. apply E. exists x.
      rewrite ustr_eqb_refl. by rewrite <- list_elem_of_In. }
    rewrite !elem_of_cons, IH, elem_of_cons. split; [|destruct (decide (p = x)); tauto].
    intros [->|[Hp Hn]]; [tauto|]. split; [by right|tauto].
Qed.

Lemma NoDup_dedup seen l : NoDup (dedup seen l).
Proof.
  revert seen. induction l as [|x l IH]; intros seen; cbn; [constructor|].
  destruct (existsb _ _); [done|]. apply list.NoDup_cons. split; [|done].
  rewrite elem_of_dedup, elem_of_cons. tauto.
Qed.

(** What a path resolves to. *)
Lemma resolved_pointers segs root p :
  unique_keys root → Forall sound_index segs →
  p ∈ resolve segs root ↔
    ∃ steps v, path_matches segs steps ∧ node_at root steps = Some v
      ∧ (length steps ≤ MAX_PATH_DEPTH)%nat ∧ p = pointer_of steps.
Proof.
  intros Hu Hs. unfold resolve. rewrite elem_of_dedup.
  assert (p ∉ @nil bytes) as Hnil by (by intros ?%elem_of_nil).
  transitivity (p ∈ map ptr (frontier segs [{| ptr := []; node := root; depth := 0 |}])); [tauto|].
  rewrite list_elem_of_fmap. split.
  - intros (q' & -> & Hq). apply frontier_spec in Hq as (q & ss & Hq & Hm & Hr); [|done|].
    + apply list_elem_of_singleton in Hq as ->. destruct Hr as (Hn & Hp & Hd & Hle). cbn in *.
      exists ss, (node q'). split_and!; [done|done|lia|done].
    + intros q ->%list_elem_of_singleton. split; [done|cbn; lia].
  - intros (ss & v & Hm & Hn & Hle & ->).
    exists {| ptr := pointer_of ss; node := v; depth := length ss |}. split; [done|].
    apply frontier_spec; [done| |].
    + intros q ->%list_elem_of_singleton. split; [done|cbn; lia].
    + eexists _, ss. split_and!; [by left|done|]. unfold reached. by cbn.
Qed.

(** C39 A path selects exactly what it means: the pointers it resolves to are,
    without repetition, those of the nodes reached by steps the path allows,
    at most 64 of them. *)
Theorem path_selects_exactly segs root :
  unique_keys root → Forall sound_index segs →
  NoDup (resolve segs root)
  ∧ ∀ p, p ∈ resolve segs root ↔
      ∃ steps v, path_matches segs steps ∧ node_at root steps = Some v
        ∧ (length steps ≤ MAX_PATH_DEPTH)%nat ∧ p = pointer_of steps.
Proof. intros Hu Hs. split; [apply NoDup_dedup|]. intros p. by apply resolved_pointers. Qed.

(** ** The text of a path *)

Definition simple_key (k : bytes) : bool := negb (is_empty k) && forallb is_key_byte k.
Definition quotable (k : bytes) : bool :=
  negb (is_empty k) && valid_utf8 k && forallb (λ c, negb ((c =? 39) || (c =? 10) || (c =? 13)))%N k.

Definition show_segment (seg : Segment) : bytes :=
  match seg with
  | Key k => if simple_key k then b "." ++ k else b "['" ++ k ++ b "']"
  | AllIndices => b "[*]"
  | Index n => b "[" ++ show_Z n ++ b "]"
  | Descend k => b ".." ++ k
  | AllChildren => b ".*"
  end.
Definition show_path (segs : list Segment) : bytes := b "$" ++ flat_map show_segment segs.

(** The segments a path can hold. *)
Definition good_segment (seg : Segment) : bool :=
  match seg with
  | Key k => simple_key k || quotable k
  | Index n => (0 <=? n) && (n <=? u64_max)
  | Descend k => simple_key k
  | _ => true
  end.

Definition ends_key (r : bytes) : Prop := match r with [] => True | c :: _ => is_key_byte c = false end.

Lemma span_len_app p k r :
  forallb p k = true → match r with [] => True | c :: _ => p c = false end → span_len p (k ++ r) = length k.
Proof.
  intros Hk Hr. induction k as [|c k IH]; cbn in *.
  - destruct r as [|c r]; [done|]. cbn. by rewrite Hr.
  - apply andb_true_iff in Hk as [-> Hk]. by rewrite IH.
Qed.

Lemma span_len_all p s : forallb p (take (span_len p s) s) = true.
Proof. induction s as [|c s IH]; cbn; [done|]. destruct (p c) eqn:E; cbn; [by rewrite E|done]. Qed.

Lemma span_len_le p s : (span_len p s ≤ length s)%nat.
Proof. induction s as [|c s IH]; cbn; [done|]. destruct (p c); lia. Qed.

Lemma position_first c l r : forallb (λ d, negb (d =? c)%N) l = true → position c (l ++ c :: r) = Some (length l).
Proof.
  intros Hl. unfold position. rewrite span_len_app; [|done|by rewrite N.eqb_refl].
  destruct (Nat.ltb_spec (length l) (length (l ++ c :: r))) as [|Hx]; [done|]. rewrite length_app in Hx. cbn in Hx. lia.
Qed.

Lemma position_some c s n :
  position c s = Some n → forallb (λ d, negb (d =? c)%N) (take n s) = true ∧ (n < length s)%nat.
Proof.
  unfold position. destruct (_ <? _)%nat eqn:E; [|done]. intros [= <-]. reflect_bools. split; [|done]. apply span_len_all.
Qed.

Lemma byte_is_shift pre s j c : byte_is (pre ++ s) (length pre + j) c = byte_is s j c.
Proof. unfold byte_is. by rewrite lookup_app_r, Nat.add_sub_swap, Nat.sub_diag by lia. Qed.

Lemma drop_shift (pre s : bytes) j : drop (length pre + j) (pre ++ s) = drop j s.
Proof. by rewrite drop_app_add'. Qed.

Lemma take_key_app raw from k r :
  drop from raw = k ++ r → simple_key k = true → ends_key r → take_key raw from = Ok (k, (from + length k)%nat).
Proof.
  intros Hd [Hne Hk]%andb_true_iff Hr. unfold take_key. rewrite Hd, span_len_app by done. rewrite take_app_length.
  by destruct k.
Qed.

Lemma take_bracket_quoted pre k r :
  quotable k = true →
  take_bracket (pre ++ b "['" ++ k ++ b "']" ++ r) (length pre) = Ok (Key k, (length pre + (length k + 4))%nat).
Proof.
  unfold quotable. intros [[Hne Hu]%andb_true_iff Hc]%andb_true_iff. unfold take_bracket. cbv zeta.
  assert (forallb (λ d, negb (d =? 39))%N k = true ∧ existsb (λ c, (c =? 10) || (c =? 13))%N k = false) as [Hq Hn].
  { clear Hne Hu. induction k as [|c k IH]; [done|]. cbn in *. apply andb_true_iff in Hc as [Hc [-> ->]%IH%and_comm].
    apply negb_true_iff, orb_false_iff in Hc as [[-> ->]%orb_false_iff ->]. done. }
  rewrite byte_is_shift, drop_shift. change (drop 2 (b "['" ++ k ++ b "']" ++ r)) with (k ++ 39%N :: (b "]" ++ r)).
  change (byte_is (b "['" ++ k ++ b "']" ++ r) 1 39) with true. cbv iota.
  rewrite position_first by done. rewrite take_app_length. rewrite Hu, Hn.
  replace (length pre + 2 + length k + 1)%nat with (length pre + (2 + (length k + 1)))%nat by lia.
  rewrite byte_is_shift.
  replace (byte_is (b "['" ++ k ++ b "']" ++ r) (2 + (length k + 1)) 93) with true.
  - apply negb_true_iff in Hne. rewrite Hne. cbn. do 2 f_equal. lia.
  - change (b "['" ++ k ++ b "']" ++ r) with ([91; 39]%N ++ (k ++ [39; 93]%N ++ r)).
    rewrite (byte_is_shift [91; 39]%N). by rewrite (byte_is_shift k).
Qed.

Lemma take_bracket_inner pre inner r :
  forallb (λ d, negb (d =? 93))%N inner = true → head inner ≠ Some 39%N →
  take_bracket (pre ++ b "[" ++ inner ++ b "]" ++ r) (length pre) =
    (let next := (length pre + (length inner + 2))%nat in
     if ustr_eqb inner (b "*") then Ok (AllIndices, next)
     else if negb (is_empty inner) && all_digits inner then
       match parse_digits u64_max inner with
       | Some i => Ok (Index i, next)
       | None => Err (in_path (b "index out of range at byte ") (length pre) (pre ++ b "[" ++ inner ++ b "]" ++ r))
       end
     else Err (in_path (b "invalid bracket segment at byte ") (length pre) (pre ++ b "[" ++ inner ++ b "]" ++ r))).
Proof.
  intros Hi Hq. unfold take_bracket. cbv zeta. rewrite byte_is_shift.
  replace (byte_is (b "[" ++ inner ++ b "]" ++ r) 1 39) with false.
  2:{ change (byte_is (b "[" ++ inner ++ b "]" ++ r) 1 39) with (byte_is (inner ++ b "]" ++ r) 0 39).
      destruct inner as [|c inner]; [done|]. unfold byte_is. cbn in *. symmetry. apply N.eqb_neq. congruence. }
  rewrite drop_app_length, drop_shift.
  replace (b "[" ++ inner ++ b "]" ++ r) with ((91%N :: inner) ++ 93%N :: r) at 1 by done.
  rewrite position_first by (cbn; done).
  change (drop 1 (b "[" ++ inner ++ b "]" ++ r)) with (inner ++ b "]" ++ r).
  cbn [length]. replace (S (length inner) - 1)%nat with (length inner) by lia. rewrite take_app_length.
  by replace (length pre + S (length inner) + 1)%nat with (length pre + (length inner + 2))%nat by lia.
Qed.

Lemma digits_plain s : all_digits s = true → forallb (λ d, negb (d =? 93))%N s = true ∧ head s ≠ Some 39%N.
Proof.
  intros Hd. split.
  - apply forallb_forall. intros d Hin. unfold all_digits in Hd. rewrite forallb_forall in Hd.
    apply Hd in Hin. unfold is_digit in Hin. apply andb_true_iff in Hin as [_ Hin%N.leb_le].
    apply negb_true_iff, N.eqb_neq. lia.
  - destruct s as [|c s]; [done|]. cbn in *. intros [= ->]. done.
Qed.

Lemma parse_segment_show pre seg r :
  good_segment seg = true → ends_key r →
  ∃ c s, show_segment seg = c :: s
    ∧ parse_segment (pre ++ show_segment seg ++ r) (length pre) c
      = Ok (seg, (length pre + length (show_segment seg))%nat).
Proof.
  intros Hg Hr. unfold parse_segment. destruct seg as [k| |n|k|]; cbn [show_segment good_segment] in *.
  - destruct (simple_key k) eqn:Ek.
    + exists 46%N, k. split; [done|]. cbv iota beta. rewrite !byte_is_shift.
      assert (byte_is ((b "." ++ k) ++ r) 1 46 = false ∧ byte_is ((b "." ++ k) ++ r) 1 42 = false) as [-> ->].
      { destruct k as [|c k]; [done|]. unfold simple_key in Ek. cbn in Ek. apply andb_true_iff in Ek as [Hc _].
        unfold byte_is. cbn. split; apply N.eqb_neq; intros ->; done. }
      cbn [N.eqb Pos.eqb].
      rewrite (take_key_app _ _ k r); [|by rewrite drop_shift|done|done].
      do 2 f_equal. rewrite length_app. cbn. lia.
    + exists 91%N, (b "'" ++ k ++ b "']"). split; [done|]. cbn [N.eqb Pos.eqb].
      replace ((b "['" ++ k ++ b "']") ++ r) with (b "['" ++ k ++ b "']" ++ r) by (by rewrite <- !app_assoc).
      rewrite take_bracket_quoted by done. do 2 f_equal. rewrite !length_app. cbn. lia.
  - exists 91%N, (b "*]"). split; [done|]. cbn [N.eqb Pos.eqb].
    change (b "[*]" ++ r) with (b "[" ++ b "*" ++ b "]" ++ r). by rewrite take_bracket_inner.
  - apply andb_true_iff in Hg as [H0 H1]. reflect_bools.
    destruct (show_digits n) as (Hd & _ & Hne & _); [done|]. destruct (digits_plain _ Hd) as [H93 H39].
    exists 91%N, (show_Z n ++ b "]"). split; [done|]. cbn [N.eqb Pos.eqb].
    replace ((b "[" ++ show_Z n ++ b "]") ++ r) with (b "[" ++ show_Z n ++ b "]" ++ r) by (by rewrite <- !app_assoc).
    rewrite take_bracket_inner by done. cbv zeta. rewrite Hd, parse_show by done.
    destruct (ustr_eqb (show_Z n) (b "*")) eqn:E; [reflect_bools; by rewrite E in Hd|].
    destruct (show_Z n) eqn:Es; [done|]. cbn [is_empty negb andb]. do 2 f_equal. rewrite !length_app. cbn. lia.
  - exists 46%N, (b "." ++ k). split; [done|]. cbn [N.eqb Pos.eqb]. rewrite byte_is_shift.
    change (byte_is ((b ".." ++ k) ++ r) 1 46) with true. cbv iota.
    rewrite (take_key_app _ _ k r); [|by rewrite drop_shift|done|done].
    do 2 f_equal. rewrite length_app. cbn. lia.
  - exists 46%N, (b "*"). split; [done|]. cbn [N.eqb Pos.eqb]. rewrite !byte_is_shift. cbn.
    repeat f_equal.
Qed.

Lemma show_segment_ends seg r : ends_key (show_segment seg ++ r).
Proof. destruct seg; cbn; [destruct (simple_key key)|..]; done. Qed.

Lemma show_path_ends segs : ends_key (flat_map show_segment segs).
Proof. destruct segs; [done|apply show_segment_ends]. Qed.

Lemma show_segment_pos seg : (0 < length (show_segment seg))%nat.
Proof. destruct seg; cbn; [destruct (simple_key key)|..]; cbn; lia. Qed.

Lemma parse_loop_show segs : ∀ pre fuel acc,
  forallb good_segment segs = true → (length segs ≤ fuel)%nat →
  parse_loop fuel (pre ++ flat_map show_segment segs) (length pre) acc = Some (Ok (acc ++ segs)).
Proof.
  induction segs as [|seg segs IH]; intros pre fuel acc Hg Hf; cbn [flat_map].
  - rewrite !app_nil_r. assert (pre !! length pre = None) as Hn by (by apply lookup_ge_None).
    destruct fuel; cbn; by rewrite Hn.
  - cbn in Hg, Hf. apply andb_true_iff in Hg as [Hs Hg]. destruct fuel as [|fuel]; [lia|].
    destruct (parse_segment_show pre seg (flat_map show_segment segs)) as (c & s & Es & Hp); [done|apply show_path_ends|].
    cbn [parse_loop]. replace ((pre ++ show_segment seg ++ flat_map show_segment segs) !! length pre) with (Some c).
    2:{ rewrite lookup_app_r, Nat.sub_diag by lia. by rewrite Es. }
    rewrite Hp, <- length_app, app_assoc, IH, <- app_assoc by (done || lia). done.
Qed.

(** A segment is read from at least one byte, and is one that paths can hold. *)
Lemma take_key_ok raw from k next :
  take_key raw from = Ok (k, next) → simple_key k = true ∧ (from < next)%nat.
Proof.
  unfold take_key. cbv zeta. destruct (_ =? 0)%nat eqn:E; [done|]. intros [= <- <-]. apply Nat.eqb_neq in E.
  split; [|lia]. unfold simple_key. rewrite span_len_all, andb_true_r.
  destruct (drop from raw); [done|]. cbn in *. by destruct (is_key_byte n).
Qed.

Lemma take_bracket_ok raw from seg next :
  take_bracket raw from = Ok (seg, next) → good_segment seg = true ∧ (from < next)%nat.
Proof.
  unfold take_bracket. cbv zeta. destruct (byte_is raw (from + 1) 39).
  - destruct (position 39 _) as [n|] eqn:Ep; [|done]. apply position_some in Ep as [Hq _].
    repeat case_match; try done. intros [= <- <-]. split; [|lia]. cbn. apply orb_true_iff. right. unfold quotable.
    reflect_bools. repeat match goal with K : negb _ = false |- _ => apply negb_false_iff in K end.
    match goal with K : is_empty _ = false |- _ => rewrite K end.
    match goal with K : valid_utf8 _ = true |- _ => rewrite K end. cbn [negb andb].
    match goal with K : existsb _ ?l = false |- _ => revert K Hq; generalize l end. clear.
    intros l Hn Hq. apply forallb_forall. intros c Hc. rewrite forallb_forall in Hq.
    specialize (Hq c Hc). apply negb_true_iff in Hq. rewrite Hq. cbn [orb]. apply negb_true_iff.
    rewrite <- not_true_iff_false in Hn |- *. intros He. apply Hn, existsb_exists. by exists c.
  - destruct (position 93 _) as [n|] eqn:Ep; [|done]. repeat case_match; try done; intros [= <- <-]; (split; [|lia]); [done|].
    cbn. match goal with K : parse_digits _ _ = Some _ |- _ => apply parse_digits_bounds in K as [K _] end.
    apply andb_true_iff; split; apply Z.leb_le; lia.
Qed.

Lemma parse_segment_ok raw i c seg next :
  parse_segment raw i c = Ok (seg, next) → good_segment seg = true ∧ (i < next)%nat.
Proof.
  unfold parse_segment. destruct (c =? 46)%N.
  - destruct (byte_is raw (i + 1) 46); [|destruct (byte_is raw (i + 1) 42)].
    + destruct (take_key raw (i + 2)) as [[k n]|] eqn:Ek; [|done]. apply take_key_ok in Ek as [Hk Hn].
      intros [= <- <-]. split; [done|lia].
    + intros [= <- <-]. split; [done|lia].
    + destruct (take_key raw (i + 1)) as [[k n]|] eqn:Ek; [|done]. apply take_key_ok in Ek as [Hk Hn].
      intros [= <- <-]. split; [|lia]. cbn. by rewrite Hk.
  - destruct (c =? 91)%N; [apply take_bracket_ok|done].
Qed.

Lemma parse_loop_ends fuel : ∀ raw i acc,
  (length raw ≤ i + fuel)%nat →
  ∃ r, parse_loop fuel raw i acc = Some r
    ∧ ∀ segs, r = Ok segs → forallb good_segment acc = true → forallb good_segment segs = true.
Proof.
  induction fuel as [|fuel IH]; intros raw i acc Hf; cbn.
  - rewrite lookup_ge_None_2 by lia. eexists. split; [done|]. by intros ? [= ->].
  - destruct (raw !! i) as [c|]; [|eexists; split; [done|]; by intros ? [= ->]].
    destruct (parse_segment raw i c) as [[seg next]|e] eqn:E; [|by eexists].
    apply parse_segment_ok in E as [Hg Hn]. destruct (IH raw next (acc ++ [seg])) as (r & Hr & Hs); [lia|].
    exists r. split; [done|]. intros segs Hr' Ha. apply Hs; [done|]. rewrite forallb_app, Ha. cbn. by rewrite Hg.
Qed.

Lemma good_sound segs : forallb good_segment segs = true → Forall sound_index segs.
Proof.
  intros Hs. apply List.Forall_forall. intros seg Hin. rewrite forallb_forall in Hs. apply Hs in Hin.
  destruct seg; cbn in *; try done. apply andb_true_iff in Hin as [? _]. by apply Z.leb_le.
Qed.

Lemma parse_path_good raw segs : parse_path raw = Ok segs → forallb good_segment segs = true.
Proof.
  destruct (parse_loop_ends (length raw) raw 1 []) as (r & Hr & Hs); [lia|].
  unfold parse_path. rewrite Hr. cbn [default from_option id].
  destruct (MAX_PATH_LEN <? length raw)%nat; [done|]. destruct (negb _); [done|].
  intros ->. by apply Hs.
Qed.

(** The path parser accepts every path it should: the text of a list of
    segments of at most 512 bytes is read back as these segments.  On any
    input its loop comes to an answer, and what it accepts are only segments
    that paths can hold: keys without quotes and line breaks, in-range
    indices. *)
Theorem path_roundtrip :
  (∀ segs, forallb good_segment segs = true → (length (show_path segs) ≤ MAX_PATH_LEN)%nat →
     parse_path (show_path segs) = Ok segs)
  ∧ ∀ raw, (∃ r, parse_loop (length raw) raw 1 [] = Some r)
      ∧ ∀ segs, parse_path raw = Ok segs → forallb good_segment segs = true ∧ Forall sound_index segs.
Proof.
  split.
  - intros segs Hg Hl. unfold parse_path. rewrite (proj2 (Nat.ltb_ge _ _)) by done.
    change (byte_is (show_path segs) 0 36) with true. cbn [negb].
    unfold show_path.
    pose proof (λ Hf, parse_loop_show segs (b "$") (length (b "$" ++ flat_map show_segment segs)) [] Hg Hf) as Hp.
    change (length (b "$")) with 1%nat in Hp. rewrite Hp; [done|].
    rewrite length_app. cbn [length Nat.add]. etrans; [|apply Nat.le_succ_diag_r].
    clear. induction segs as [|seg segs IH]; cbn; [lia|]. rewrite length_app. pose proof (show_segment_pos seg). lia.
  - intros raw. destruct (parse_loop_ends (length raw) raw 1 []) as (r & Hr & _); [lia|].
    split; [by eexists|]. intros segs Hp%parse_path_good. split; [done|by apply good_sound].
Qed.

(** ** Longer paths

    A path that parses, with the text of more segments behind it. *)

Lemma byte_is_extend raw suf j c : (j < length raw)%nat → byte_is (raw ++ suf) j c = byte_is raw j c.
Proof. intros Hj. unfold byte_is. by rewrite lookup_app_l. Qed.

Lemma byte_is_bound raw j c : byte_is raw j c = true → (j < length raw)%nat.
Proof. unfold byte_is. destruct (raw !! j) eqn:E; [|done]. intros _. by eapply lookup_lt_Some. Qed.

Lemma drop_extend (raw suf : bytes) j : (j ≤ length raw)%nat → drop j (raw ++ suf) = drop j raw ++ suf.
Proof. apply drop_app_le. Qed.

Lemma span_len_extend p s suf :
  (span_len p s < length s)%nat ∨ match suf with [] => True | c :: _ => p c = false end →
  span_len p (s ++ suf) = span_len p s.
Proof.
  induction s as [|c s IH]; cbn.
  - intros [Hl|Hs]; [lia|]. destruct suf as [|d suf]; [done|]. cbn. by rewrite Hs.
  - destruct (p c); [|done]. intros Hs. rewrite IH; [done|]. destruct Hs; [left; lia|by right].
Qed.

Lemma position_extend c s suf n : position c s = Some n → position c (s ++ suf) = Some n.
Proof.
  unfold position. destruct (Nat.ltb_spec (span_len (λ d, negb (d =? c)%N) s) (length s)) as [Hl|]; [|done].
  intros [= <-]. rewrite span_len_extend by (by left). rewrite length_app. by rewrite (proj2 (Nat.ltb_lt _ _)) by lia.
Qed.

Lemma take_key_extend raw suf from k next :
  ends_key suf → take_key raw from = Ok (k, next) → take_key (raw ++ suf) from = Ok (k, next) ∧ (next ≤ length raw)%nat.
Proof.
  intros Hs. unfold take_key. cbv zeta. destruct (Nat.eqb_spec (span_len is_key_byte (drop from raw)) 0) as [|Hn]; [done|].
  intros [= <- <-]. pose proof (span_len_le is_key_byte (drop from raw)) as Hl. rewrite length_drop in Hl.
  rewrite drop_extend by lia. rewrite span_len_extend by (by right). rewrite (proj2 (Nat.eqb_neq _ _)) by done.
  rewrite take_app_le by (rewrite length_drop; lia). split; [done|lia].
Qed.

Lemma take_bracket_extend raw suf from seg next :
  take_bracket raw from = Ok (seg, next) →
  take_bracket (raw ++ suf) from = Ok (seg, next) ∧ (next ≤ length raw)%nat.
Proof.
  unfold take_bracket. cbv zeta. destruct (byte_is raw (from + 1) 39) eqn:Eq.
  - pose proof (byte_is_bound _ _ _ Eq) as Hb. rewrite byte_is_extend, Eq by done.
    destruct (position 39 (drop (from + 2) raw)) as [n|] eqn:Ep; [|done].
    rewrite drop_extend by lia. rewrite (position_extend _ _ suf _ Ep).
    destruct (byte_is raw (from + 2 + n + 1) 93) eqn:Ec; [|done]. cbn [negb].
    pose proof (byte_is_bound _ _ _ Ec) as Hc. rewrite byte_is_extend, Ec by done. cbn [negb].
    rewrite take_app_le by (apply position_some in Ep as [_ Ep]; lia).
    destruct (negb (valid_utf8 _)); [done|]. destruct (is_empty _); [done|]. destruct (existsb _ _); [done|].
    intros [= <- <-]. split; [done|lia].
  - destruct (position 93 (drop from raw)) as [n|] eqn:Ep; [|done].
    pose proof (position_some _ _ _ Ep) as [Hp Hn]. rewrite length_drop in Hn.
    destruct (Nat.eq_dec n 0%nat) as [->|Hn0].
    { cbn [Nat.sub take]. cbn [is_empty negb andb]. destruct (ustr_eqb [] (b "*")) eqn:E; [by vm_compute in E|done]. }
    rewrite byte_is_extend, Eq by lia. rewrite drop_extend, (position_extend _ _ suf _ Ep), drop_extend by lia.
    rewrite take_app_le by (rewrite length_drop; lia).
    destruct (ustr_eqb _ _); [intros [= <- <-]; split; [done|lia]|].
    destruct (_ && _); [|done]. destruct (parse_digits _ _); [|done]. intros [= <- <-]. split; [done|lia].
Qed.

Lemma parse_segment_extend raw suf i c seg next :
  ends_key suf → raw !! i = Some c → parse_segment raw i c = Ok (seg, next) →
  parse_segment (raw ++ suf) i c = Ok (seg, next) ∧ (next ≤ length raw)%nat.
Proof.
  intros Hs Hc. apply lookup_lt_Some in Hc. unfold parse_segment. destruct (c =? 46)%N.
  - destruct (byte_is raw (i + 1) 46) eqn:E1; [|destruct (byte_is raw (i + 1) 42) eqn:E2].
    + pose proof (byte_is_bound _ _ _ E1). rewrite byte_is_extend, E1 by done.
      destruct (take_key raw (i + 2)) as [[k n]|] eqn:Ek; [|done]. apply (take_key_extend _ suf) in Ek as [-> ?]; [|done].
      by intros [= <- <-].
    + pose proof (byte_is_bound _ _ _ E2). rewrite !byte_is_extend, E1, E2 by done. intros [= <- <-]. split; [done|lia].
    + destruct (take_key raw (i + 1)) as [[k n]|] eqn:Ek; [|done]. pose proof (take_key_ok _ _ _ _ Ek) as [_ Hlt].
      apply (take_key_extend _ suf) in Ek as [-> Hle]; [|done]. rewrite !byte_is_extend, E1, E2 by lia. by intros [= <- <-].
  - destruct (c =? 91)%N; [apply take_bracket_extend|done].
Qed.

Lemma parse_loop_more fuel : ∀ raw i acc r fuel',
  parse_loop fuel raw i acc = Some r → (fuel ≤ fuel')%nat → parse_loop fuel' raw i acc = Some r.
Proof.
  induction fuel as [|fuel IH]; intros raw i acc r fuel'; cbn [parse_loop].
  - destruct (raw !! i) eqn:E; [done|]. intros Hr _. destruct fuel'; cbn; by rewrite E.
  - destruct (raw !! i) as [c|] eqn:E; [|intros Hr _; destruct fuel'; cbn; by rewrite E].
    intros Hr Hf. destruct fuel' as [|fuel']; [lia|]. cbn. rewrite E.
    destruct (parse_segment raw i c) as [[seg next]|]; [|done]. apply IH; [done|lia].
Qed.

Lemma parse_loop_extend more fuel : ∀ raw i acc segs,
  forallb good_segment more = true → (i ≤ length raw)%nat → parse_loop fuel raw i acc = Some (Ok segs) →
  parse_loop (fuel + length more) (raw ++ flat_map show_segment more) i acc = Some (Ok (segs ++ more)).
Proof.
  intros raw i acc segs Hg. revert i acc. induction fuel as [|fuel IH]; intros i acc Hi; cbn [parse_loop Nat.add].
  - destruct (raw !! i) eqn:E; [done|]. intros [= ->]. apply lookup_ge_None in E.
    replace i with (length raw) by lia. by apply parse_loop_show.
  - destruct (raw !! i) as [c|] eqn:E.
    + destruct (parse_segment raw i c) as [[seg next]|] eqn:Ep; [|done]. intros Hr.
      rewrite lookup_app_l by (by eapply lookup_lt_Some). rewrite E.
      apply (parse_segment_extend _ (flat_map show_segment more)) in Ep as [-> Hle]; [|apply show_path_ends|done].
      by apply IH.
    + intros [= ->]. apply lookup_ge_None in E. replace i with (length raw) by lia.
      apply (parse_loop_show more raw (S (fuel + length more)) segs); [done|lia].
Qed.

Lemma parse_path_extend raw segs more :
  parse_path raw = Ok segs → forallb good_segment more = true →
  (length (raw ++ flat_map show_segment more) ≤ MAX_PATH_LEN)%nat →
  parse_path (raw ++ flat_map show_segment more) = Ok (segs ++ more).
Proof.
  intros Hp Hg Hl. unfold parse_path in Hp |- *. rewrite (proj2 (Nat.ltb_ge _ _)) by done.
  destruct (MAX_PATH_LEN <? length raw)%nat; [done|]. destruct (byte_is raw 0 36) eqn:E0; [|done]. cbn [negb] in Hp.
  pose proof (byte_is_bound _ _ _ E0) as Hb. rewrite byte_is_extend, E0 by done. cbn [negb].
  destruct (parse_loop_ends (length raw) raw 1 []) as (r & Hr & _); [lia|]. rewrite Hr in Hp. cbn in Hp. subst r.
  apply (parse_loop_extend more) in Hr; [|done|lia].
  rewrite (parse_loop_more _ _ _ _ _ (length (raw ++ flat_map show_segment more)) Hr); [done|].
  rewrite length_app. apply Nat.add_le_mono_l. clear. induction more as [|seg more IH]; cbn; [lia|].
  rewrite length_app. pose proof (show_segment_pos seg). lia.
Qed.

(** ** Reading a pointer back *)

(** [split('/')], and the two escapes undone. *)
Fixpoint split_slash (s : bytes) : list bytes :=
  match s with
  | [] => [[]]
  | c :: r =>
      let ts := split_slash r in
      if (c =? 47)%N then [] :: ts
      else match ts with t :: ts' => (c :: t) :: ts' | [] => [[c]] end
  end.
Fixpoint unescape (s : bytes) : bytes :=
  match s with
  | c :: r =>
      if (c =? 126)%N then
        match r with
        | d :: r' => if (d =? 49)%N then 47%N :: unescape r' else 126%N :: unescape r'
        | [] => [126%N]
        end
      else c :: unescape r
  | [] => []
  end.
Definition pointer_tokens (p : bytes) : list bytes := map unescape (tail (split_slash p)).

(** The steps that tokens name in a value. *)
Definition step_named (v : Value) (t : bytes) : option step :=
  match v with
  | VObject _ => Some (SKey t)
  | VArray _ => (λ n, SIdx (Z.to_nat n)) <$> parse_digits (digits_value t) t
  | _ => None
  end.
Fixpoint steps_named (v : Value) (ts : list bytes) : option (list step) :=
  match ts with
  | [] => Some []
  | t :: r => s ← step_named v t; c ← child v s; ss ← steps_named c r; Some (s :: ss)
  end.

Lemma unescape_escape t : unescape (escape t) = t.
Proof.
  induction t as [|c t IH]; [done|]. cbn. unfold escape_byte.
  destruct (N.eqb_spec c 126) as [->|Hn]; [cbn; by f_equal|].
  destruct (N.eqb_spec c 47) as [->|Hs]; [cbn; by f_equal|]. cbn.
  rewrite (proj2 (N.eqb_neq c 126)) by done. by f_equal.
Qed.

Lemma escape_no_slash t : 47%N ∉ escape t.
Proof.
  induction t as [|c t IH]; [by intros ?%elem_of_nil|]. cbn. rewrite elem_of_app. intros [Hc|Hc]; [|done].
  unfold escape_byte in Hc. destruct (N.eqb_spec c 126); [set_solver|]. destruct (N.eqb_spec c 47); set_solver.
Qed.

Lemma split_slash_app a r : 47%N ∉ a → split_slash (a ++ 47%N :: r) = a :: split_slash r.
Proof.
  induction a as [|c a IH]; intros Ha; [done|]. cbn. rewrite IH by set_solver.
  rewrite (proj2 (N.eqb_neq c 47)) by set_solver. done.
Qed.
Lemma split_slash_one a : 47%N ∉ a → split_slash a = [a].
Proof.
  induction a as [|c a IH]; intros Ha; [done|]. cbn. rewrite IH by set_solver.
  by rewrite (proj2 (N.eqb_neq c 47)) by set_solver.
Qed.

Lemma push_all_concat p ss : push_all p ss = p ++ flat_map (λ s, 47%N :: escape (token_of_step s)) ss.
Proof.
  revert p. induction ss as [|s ss IH]; intros p; cbn; [by rewrite app_nil_r|].
  unfold push_all in IH. rewrite IH. unfold push_token. by rewrite <- !app_assoc.
Qed.

Lemma pointer_tokens_of ss : pointer_tokens (pointer_of ss) = map token_of_step ss.
Proof.
  unfold pointer_tokens. change (pointer_of ss) with (push_all [] ss). rewrite push_all_concat. cbn [app].
  assert (tail (split_slash (flat_map (λ s, 47%N :: escape (token_of_step s)) ss))
          = map (λ s, escape (token_of_step s)) ss) as ->.
  { induction ss as [|s ss IH]; [done|]. cbn [flat_map app split_slash N.eqb Pos.eqb tail map].
    pose proof (escape_no_slash (token_of_step s)) as Hn. rewrite <- IH.
    destruct ss as [|s' ss]; cbn [flat_map]; [by rewrite app_nil_r, split_slash_one by done|].
    cbn [app]. by rewrite split_slash_app by done. }
  rewrite map_map. apply map_ext. intros s. apply unescape_escape.
Qed.

Lemma steps_named_of v ss x : node_at v ss = Some x → steps_named v (map token_of_step ss) = Some ss.
Proof.
  revert v. induction ss as [|s ss IH]; intros v; [done|]. cbn. intros (c & Hc & Hn)%bind_Some.
  assert (step_named v (token_of_step s) = Some s) as ->.
  { destruct v, s; try done; cbn [token_of_step step_named]. unfold show_nat.
    pose proof (show_digits (Z.of_nat i) ltac:(lia)) as (_ & Hv & _). rewrite Hv, parse_show by lia. cbn.
    by rewrite Nat2Z.id. }
  cbn. rewrite Hc. cbn. by rewrite (IH c Hn).
Qed.

(** In one value, a pointer names one node. *)
Lemma pointer_of_inj v ss ss' x x' :
  node_at v ss = Some x → node_at v ss' = Some x' → pointer_of ss = pointer_of ss' → ss = ss'.
Proof.
  intros H1 H2 He. apply steps_named_of in H1, H2. rewrite <- pointer_tokens_of in H1, H2. rewrite He in H1. congruence.
Qed.

(** RFC 6901, as an instance of the interface. *)
Definition rfc6901 : JsonPointer.
Proof.
  refine {|
    pointer v p := ss ← steps_named v (pointer_tokens p); node_at v ss;
    pointer_put v p y :=
      match steps_named v (pointer_tokens p) with Some ss => alter_at (λ _, y) v ss | None => v end
  |}.
  - intros v ss x Hn. rewrite pointer_tokens_of, (steps_named_of _ _ _ Hn). cbn. exact Hn.
  - intros v ss x y Hn. by rewrite pointer_tokens_of, (steps_named_of _ _ _ Hn).
Defined.

(** ** A change at one place *)

Lemma entry_set_entry f entries k k' :
  entry (set_entry f entries k) k' = if ustr_eqb k k' then f <$> entry entries k' else entry entries k'.
Proof.
  induction entries as [|[k0 c] r IH]; cbn; [by destruct (ustr_eqb k k')|].
  destruct (ustr_eqb k0 k) eqn:E0; cbn.
  - apply bool_decide_eq_true in E0 as ->. by destruct (ustr_eqb k k') eqn:E.
  - destruct (ustr_eqb k0 k') eqn:E1; cbn; [|done].
    destruct (ustr_eqb k k') eqn:E; [|done]. apply bool_decide_eq_true in E as ->. congruence.
Qed.

Lemma child_alter f v s s' r :
  child (alter_at f v (s :: r)) s' = if decide (s = s') then (λ c, alter_at f c r) <$> child v s' else child v s'.
Proof.
  destruct v as [| | | |items|entries], s as [k|i], s' as [k'|j]; cbn;
    try (case_decide; by simplify_eq); try (case_decide; done).
  - case_decide as Hd; [simplify_eq; by rewrite list_lookup_alter_eq|].
    rewrite list_lookup_alter_ne; [done|congruence].
  - rewrite entry_set_entry. case_decide as Hd; [simplify_eq; by rewrite ustr_eqb_refl|].
    destruct (ustr_eqb k k') eqn:E; [|done]. apply bool_decide_eq_true in E. congruence.
Qed.

(** The node at some steps after a change of the node at [at_]: below it, the
    changed node's; elsewhere what was there, up to the change inside it. *)
Lemma node_at_alter_below f v at_ rest n :
  node_at v at_ = Some n → node_at (alter_at f v at_) (at_ ++ rest) = node_at (f n) rest.
Proof.
  revert v. induction at_ as [|s r IH]; intros v; cbn [node_at app]; [intros [= ->]; reflexivity|].
  intros (c & Hc & Hn)%bind_Some. rewrite child_alter, decide_True, Hc by done. cbn. by apply IH.
Qed.

Lemma node_at_alter_other f v at_ steps :
  ¬ at_ `prefix_of` steps → ¬ steps `prefix_of` at_ → node_at (alter_at f v at_) steps = node_at v steps.
Proof.
  revert v steps. induction at_ as [|s r IH]; intros v steps Hp Hq; [by contradict Hp; exists steps|].
  destruct steps as [|s' steps]; [by contradict Hq; exists (s :: r)|]. cbn [node_at].
  rewrite child_alter. case_decide as Hd; [|done]. subst s'. destruct (child v s) as [c|]; [|done]. cbn.
  apply IH; intros Hx; [apply Hp|apply Hq]; by apply prefix_cons.
Qed.

Lemma node_at_alter_above f v rest steps :
  node_at (alter_at f v (steps ++ rest)) steps = (λ x, alter_at f x rest) <$> node_at v steps.
Proof.
  revert v. induction steps as [|s steps IH]; intros v; cbn [app node_at]; [done|].
  rewrite child_alter, decide_True by done. destruct (child v s) as [c|]; [|done]. cbn. apply IH.
Qed.

(** ** Concrete runs *)

Definition demo_path : list Segment := [Key (b "rows"); AllIndices; Key (b "地址")].

Example demo_path_text : show_path demo_path = b "$.rows[*]['地址']".
Proof. reflexivity. Qed.

Definition demo_records : Value :=
  VObject [(b "rows", VArray [VObject [(b "id", VNumber (b "7")); (b "地址", VString (b "x"))];
                              VObject [(b "地址", VString (b "y"))]])].

Example demo_resolve : resolve demo_path demo_records = [b "/rows/0/地址"; b "/rows/1/地址"].
Proof. by vm_compute. Qed.

Example descend_dedups :
  resolve [Descend (b "a"); Descend (b "a")]
    (VObject [(b "a", VObject [(b "a", VObject [(b "a", VNull)])])]) = [b "/a/a"; b "/a/a/a"].
Proof. by vm_compute. Qed.

Lemma path_roundtrip_witness : parse_path (show_path demo_path) = Ok demo_path.
Proof. apply (proj1 path_roundtrip); [vm_compute; reflexivity|apply Nat.leb_le; vm_compute; reflexivity]. Defined.

(** Decides [unique_keys]. *)
Fixpoint distinct_keys (v : Value) : bool :=
  match v with
  | VArray items => forallb distinct_keys items
  | VObject entries => bool_decide (NoDup (map fst entries)) && forallb (λ e : bytes * Value, distinct_keys e.2) entries
  | _ => true
  end.

Lemma distinct_keys_unique v : distinct_keys v = true → unique_keys v.
Proof.
  intros Hd steps. revert v Hd. induction steps as [|s steps IH]; intros v Hd entries; cbn.
  - intros [= ->]. cbn in Hd. apply andb_true_iff in Hd as [Hd _]. by apply bool_decide_eq_true in Hd.
  - destruct (child v s) as [c|] eqn:Ec; [|done]. cbn. apply IH.
    destruct v as [| | | |items|es], s as [k|i]; try done; cbn in *.
    + rewrite forallb_forall in Hd. by apply Hd, list_elem_of_In, (list_elem_of_lookup_2 _ i).
    + apply andb_true_iff in Hd as [_ Hd]. rewrite forallb_forall in Hd.
      apply (Hd (k, c)), list_elem_of_In. by apply entry_elem.
Qed.

Lemma path_selects_exactly_witness :
  unique_keys demo_records ∧ b "/rows/1/地址" ∈ resolve demo_path demo_records.
Proof.
  assert (unique_keys demo_records) as Hu by (apply distinct_keys_unique; vm_compute; reflexivity).
  split; [exact Hu|]. refine (proj2 (proj2 (path_selects_exactly demo_path demo_records Hu _) _) _).
  - repeat constructor.
  - exists [SKey (b "rows"); SIdx 1; SKey (b "地址")], (VString (b "y")). split_and!.
    + apply (pm_cons _ _ [SKey (b "rows")]); [constructor|]. apply (pm_cons _ _ [SIdx 1]); [constructor|].
      apply (pm_cons _ _ [SKey (b "地址")] []); [constructor|]. constructor.
    + vm_compute. reflexivity.
    + cbn. unfold MAX_PATH_DEPTH. lia.
    + vm_compute. reflexivity.
Defined.
