(* ===== verification/FieldRules.v ===== *)
(** * Field rules (crates/duduclaw-redaction/src/rules/json_path.rs from
    [match_tool] on, [apply_structured] of engine.rs)

    A field rule selects the nodes of a tool's JSON by position; it is
    compiled from its specification, and gated by the tool's name, the call's
    arguments and the result itself. *)

From S2P Require Import Prelude.
From S2P Require Import Bytes.
From S2P Require Import Utf8.
From S2P Require Import RedactToken.
From S2P Require Import Vault.
From S2P Require Import RedactEngine.
From S2P Require Import Redaction.
From S2P Require Import JsonValue.
From S2P Require Import Decimal.
From S2P Require Import JsonPath.
From S2P Require Import RuleSpecs.

(** ** Compiled field rules *)

Definition match_tool (pattern tool_name : bytes) : bool :=
  match strip_suffix pattern (b "*") with
  | Some prefix => starts_with tool_name prefix
  | None => ustr_eqb pattern tool_name
  end.

Record JsonPathRule := {
  spec : RuleSpec;
  paths : list (list Segment);
  tool_pattern : option bytes;
  match_args : list (bytes * bytes);
  match_result : list (bytes * bytes);
  exclude_keys : list bytes;
}.

(** The [Rule] a field rule is: it matches no text. *)
Definition as_rule (r : JsonPathRule) : Rule := {|
  rule_id := spec_id (spec r);
  rule_category := spec_category (spec r);
  restore_scope := spec_scope (spec r);
  priority := spec_priority (spec r);
  cross_session_stable := spec_stable (spec r);
  apply_to_system_prompt := spec_system_prompt (spec r);
  engine_kind := b "rule";
  model_revision := None;
  match_text := λ _, Some []
|}.

(** The order of pairs of strings, and [into_iter().collect()] then [sort()]. *)
Definition pair_le (x y : bytes * bytes) : bool :=
  if ustr_eqb x.1 y.1 then ustr_leb x.2 y.2 else ustr_leb x.1 y.1.
Definition sorted_pairs (m : gmap bytes bytes) : list (bytes * bytes) := stable_sort pair_le (map_to_list m).

(** [collect] of results: the first error ends the loop. *)
Fixpoint try_map {A B Er} (f : A → result B Er) (l : list A) : result (list B) Er :=
  match l with
  | [] => Ok []
  | x :: r =>
      match f x with
      | Err e => Err e
      | Ok y => match try_map f r with Err e => Err e | Ok ys => Ok (y :: ys) end
      end
  end.

Definition not_a_pointer (p : bytes) : bytes :=
  b "match_result key '" ++ p ++ b "' is not a JSON pointer — it must start with '/' (e.g. " ++ dquote ++ b "/table"
  ++ dquote ++ b ")".

(** A tool pattern of white space only. *)
Definition blank_tool (k : JsonPathKind) : bool :=
  match kind_match_tool k with Some pat => is_empty (trim (utf8_decode pat)) | None => false end.

Definition JsonPathRule_compile `{RuleDebug} (s : RuleSpec) : result JsonPathRule RedactionError :=
  let fail reason := Err (RuleCompile (spec_id s) reason) in
  match kind s with
  | KindJsonPath k =>
      if is_empty (raw_paths k) then fail (b "json_path rule needs at least one path")
      else if (MAX_PATHS <? length (raw_paths k))%nat then
        fail (b "too many paths (" ++ show_nat (length (raw_paths k)) ++ b " > 64)")
      else if blank_tool k then
        fail (b "match_tool must not be blank (omit it to match any tool)")
      else
        match try_map parse_path (raw_paths k) with
        | Err e => fail e
        | Ok paths =>
            let match_result := sorted_pairs (kind_match_result k) in
            match List.find (λ p : bytes * bytes, negb (starts_with p.1 (b "/"))) match_result with
            | Some p => fail (not_a_pointer p.1)
            | None =>
                Ok {| spec := s; paths := paths; tool_pattern := kind_match_tool k;
                      match_args := sorted_pairs (kind_match_args k); match_result := match_result;
                      exclude_keys := kind_exclude_keys k |}
            end
        end
  | other => fail (b "expected JsonPath kind, got " ++ debug_kind other)
  end.

(** The text of a scalar. *)
Definition scalar_text (v : Value) : option bytes :=
  match v with
  | VString s => Some s
  | VNumber n => Some n
  | VBool x => Some (if x then b "true" else b "false")
  | _ => None
  end.

(** Which tool call a value belongs to. *)
Record ToolContext := { tool_name : bytes; call_args : option Value }.

Definition matches_tool (r : JsonPathRule) (tool : bytes) : bool :=
  match tool_pattern r with None => true | Some pat => match_tool pat tool end.

(** Every pair compares equal to the scalar that [find] gives. *)
Definition pairs_match (find : bytes → option Value) (pairs : list (bytes * bytes)) : bool :=
  forallb (λ p, match find p.1 ≫= scalar_text with Some s => ustr_eqb s p.2 | None => false end) pairs.

Definition matches_args (r : JsonPathRule) (args : option Value) : bool :=
  if is_empty (match_args r) then true
  else
    match args with
    | Some (VObject entries) => pairs_match (entry entries) (match_args r)
    | _ => false
    end.

Section gates.
Context `{JsonPointer}.

Definition matches_result (r : JsonPathRule) (v : Value) : bool :=
  if is_empty (match_result r) then true else pairs_match (pointer v) (match_result r).

Definition resolve_pointers (r : JsonPathRule) (root : Value) : list bytes :=
  dedup [] (flat_map (λ p, resolve p root) (paths r)).

(** ** The engine's structured half *)

Record StructuredHit := { hit_pointer : bytes; hit_rule : JsonPathRule }.

Definition applies (setting : SourceSetting) (ctx : ToolContext) (v : Value) (r : JsonPathRule) : bool :=
  matches_tool r (tool_name ctx) && matches_args r (call_args ctx) && matches_result r v
  && allows_category setting (spec_category (spec r)).

Definition apply_structured (structured : list JsonPathRule) (v : Value) (ctx : ToolContext)
    (setting : SourceSetting) : list StructuredHit :=
  flat_map
    (λ r, if applies setting ctx v r
          then map (λ p, {| hit_pointer := p; hit_rule := r |}) (resolve_pointers r v) else [])
    structured.
End gates.

(** Rules run in order of priority, highest first; equal ones as given. *)
Definition structured_le (x y : JsonPathRule) : bool := (spec_priority (spec y) <=? spec_priority (spec x)).
Definition order_structured (rs : list JsonPathRule) : list JsonPathRule := stable_sort structured_le rs.

(** ** What compiled rules select *)

Lemma try_map_ok {A B Er} (f : A → result B Er) l ys :
  try_map f l = Ok ys ↔ Forall2 (λ x y, f x = Ok y) l ys.
Proof.
  revert ys. induction l as [|x l IH]; intros ys; cbn.
  - split; [intros [= <-]; constructor|]. intros Hf. by inversion Hf.
  - split.
    + destruct (f x) as [y|] eqn:E; [|done]. destruct (try_map f l) as [ys'|] eqn:El; [|done]. intros [= <-].
      constructor; [done|by apply IH].
    + intros Hf. inversion Hf as [|? y ? ys' Hy Hys]; subst. rewrite Hy. apply IH in Hys. by rewrite Hys.
Qed.

(** A rule that some specification compiles to. *)
Definition compiled `{RuleDebug} (r : JsonPathRule) : Prop := ∃ s, JsonPathRule_compile s = Ok r.

Lemma compiled_paths `{RuleDebug} r : compiled r → Forall (Forall sound_index) (paths r).
Proof.
  intros [s Hc]. unfold JsonPathRule_compile in Hc. destruct (kind s) as [| | |k| |]; try done.
  destruct (is_empty _); [done|]. destruct (_ <? _)%nat; [done|]. destruct (blank_tool k); [done|].
  destruct (try_map parse_path (raw_paths k)) as [ps|] eqn:Ep; [|done]. destruct (List.find _ _); [done|].
  injection Hc as <-. cbn [paths]. apply try_map_ok in Ep.
  induction Ep as [|raw p raws ps Hp Hps IH]; constructor; [|done]. by eapply good_sound, parse_path_good.
Qed.

Lemma elem_of_resolve_pointers `{JsonPointer} r root p :
  unique_keys root → Forall (Forall sound_index) (paths r) →
  p ∈ resolve_pointers r root ↔
    ∃ path steps v, path ∈ paths r ∧ path_matches path steps ∧ node_at root steps = Some v
      ∧ (length steps ≤ MAX_PATH_DEPTH)%nat ∧ p = pointer_of steps.
Proof.
  intros Hu Hs. unfold resolve_pointers. rewrite elem_of_dedup, elem_of_flat_map.
  rewrite List.Forall_forall in Hs. split.
  - intros [(path & Hp & Hr) _]. apply resolved_pointers in Hr as (steps & v & ?); [|done|by apply Hs, list_elem_of_In].
    by exists path, steps, v.
  - intros (path & steps & v & Hp & Hrest). split; [|by intros ?%elem_of_nil]. exists path. split; [done|].
    apply resolved_pointers; [done|by apply Hs, list_elem_of_In|]. by exists steps, v.
Qed.

Lemma elem_of_apply_structured `{JsonPointer} rs v ctx setting h :
  h ∈ apply_structured rs v ctx setting ↔
    hit_rule h ∈ rs ∧ applies setting ctx v (hit_rule h) = true ∧ hit_pointer h ∈ resolve_pointers (hit_rule h) v.
Proof.
  unfold apply_structured. rewrite elem_of_flat_map. split.
  - intros (r & Hr & Hh). destruct (applies setting ctx v r) eqn:Ea; [|by apply elem_of_nil in Hh].
    apply list_elem_of_fmap in Hh as (p & -> & Hp). done.
  - intros (Hr & Ha & Hp). exists (hit_rule h). split; [done|]. rewrite Ha. apply list_elem_of_fmap.
    exists (hit_pointer h). split; [by destruct h|done].
Qed.
