(* ===== verification/DataSource.v ===== *)
(** * Data sources (crates/duduclaw-redaction/src/data_source.rs)

    Which tools return a table's records: the shipped sources, the operator's
    simple form of a source, and the registry of both.  Maps that are iterated
    in key order are finite maps read through [sorted_pairs]. *)

From S2P Require Import Prelude.
From S2P Require Import Bytes.
From S2P Require Import Utf8.
From S2P Require Import RedactToken.
From S2P Require Import Vault.
From S2P Require Import RedactEngine.
From S2P Require Import RuleSpecs.
From S2P Require Import JsonValue.
From S2P Require Import Decimal.
From S2P Require Import JsonPath.
From S2P Require Import FieldRules.

Definition DEFAULT_RECORD_PATHS : list bytes := [b "$.rows[*]"; b "$[*]"; b "$"].
Definition BUILTIN_ODOO : bytes := b "odoo".
Definition BUILTIN_DUDUCLAW_DB : bytes := b "duduclaw_db".
Definition BUILTIN_DUDUCLAW_FILES : bytes := b "duduclaw_files".
Definition BUILTIN_SOURCE_NAMES : list bytes := [BUILTIN_ODOO; BUILTIN_DUDUCLAW_DB; BUILTIN_DUDUCLAW_FILES].

Inductive TableSource :=
| FromArg (arg : bytes)
| Fixed (table : bytes)
| FromResult (pointer : bytes).

#[export] Instance TableSource_eq_dec : EqDecision TableSource.
Proof. solve_decision. Defined.

Record ToolBinding := {
  tool : bytes;
  table_source : TableSource;
  record_paths : list bytes;
  key_alias : list (bytes * bytes);
  free_form_names : bool;
}.

Record DataSource := {
  source_name : bytes;
  source_label : bytes;
  builtin : bool;
  bindings : list ToolBinding;
}.

Record DataSourceDef := {
  def_label : bytes;
  def_tools : list bytes;
  def_table_arg : option bytes;
  def_table : option bytes;
  def_table_result : option bytes;
  def_record_paths : list bytes;
  def_free_form : bool;
  def_key_alias : gmap bytes bytes;
}.

(** ** The simple form *)

(** A loop that collects what it has not seen. *)
Definition push_new {A} `{EqDecision A} (seen : list A) (x : A) : list A :=
  if bool_decide (x ∈ seen) then seen else seen ++ [x].

(** [collect] of pairs into a map: the last pair of a key wins. *)
Definition collect_map (l : list (bytes * bytes)) : gmap bytes bytes :=
  foldl (λ m p, <[p.1 := p.2]> m) ∅ l.

(** [windows(2).all(..)]. *)
Fixpoint neighbours_agree (l : list ToolBinding) : bool :=
  match l with
  | x :: ((y :: _) as r) => bool_decide (key_alias x = key_alias y) && neighbours_agree r
  | _ => true
  end.

Definition simple_form (s : DataSource) : DataSourceDef :=
  let tools := foldl push_new [] (map tool (bindings s)) in
  let distinct := foldl push_new [] (map table_source (bindings s)) in
  let '(table_arg, table, table_result) :=
    match distinct with
    | [FromArg a] => (Some a, None, None)
    | [Fixed t] => (None, Some t, None)
    | [FromResult p] => (None, None, Some p)
    | _ => (None, None, None)
    end in
  {| def_label := source_label s;
     def_tools := tools;
     def_table_arg := table_arg;
     def_table := table;
     def_table_result := table_result;
     def_record_paths := foldl push_new [] (concat (map record_paths (bindings s)));
     def_free_form := negb (is_empty (bindings s)) && forallb free_form_names (bindings s);
     def_key_alias :=
       if neighbours_agree (bindings s) then
         match bindings s with x :: _ => collect_map (key_alias x) | [] => ∅ end
       else ∅ |}.

(** ** From the simple form *)

Definition default_record_paths : list bytes := DEFAULT_RECORD_PATHS.
Definition is_blank_bytes (s : bytes) : bool := is_empty (trim (utf8_decode s)).

Definition given_tables (d : DataSourceDef) : list bytes :=
  (if def_table_arg d then [b "table_arg"] else [])
  ++ (if def_table d then [b "table"] else [])
  ++ (if def_table_result d then [b "table_result"] else []).

(** How the table is decided, when exactly one way is given. *)
Definition table_of (name : bytes) (d : DataSourceDef) : result TableSource bytes :=
  match def_table_arg d, def_table d with
  | Some arg, _ =>
      if is_blank_bytes arg then Err (b "data source '" ++ name ++ b "' has an empty `table_arg`") else Ok (FromArg arg)
  | None, Some t =>
      if is_blank_bytes t then Err (b "data source '" ++ name ++ b "' has an empty `table`") else Ok (Fixed t)
  | None, None =>
      let ptr := default [] (def_table_result d) in
      if negb (starts_with ptr (b "/")) then
        Err (b "data source '" ++ name ++ b "' `table_result` must be a JSON pointer starting with '/' (e.g. "
             ++ dquote ++ b "/table" ++ dquote ++ b "), got '" ++ ptr ++ b "'")
      else Ok (FromResult ptr)
  end.

(** The record paths are tried one after the other. *)
Definition check_record_path (name path : bytes) : result unit bytes :=
  match parse_path path with
  | Ok _ => Ok tt
  | Err reason => Err (b "data source '" ++ name ++ b "' record path '" ++ path ++ b "' is invalid: " ++ reason)
  end.

Definition into_source (d : DataSourceDef) (name : bytes) : result DataSource RedactionError :=
  let fail reason := Err (RuleCompile (b "redaction.data_sources." ++ name) reason) in
  if is_empty (def_tools d) then
    fail (b "data source '" ++ name ++ b "' lists no tools — `tools` needs at least one entry")
  else if existsb is_blank_bytes (def_tools d) then
    fail (b "data source '" ++ name ++ b "' has an empty tool name in `tools`")
  else
    let given := given_tables d in
    if negb (length given =? 1)%nat then
      fail (b "data source '" ++ name ++ b "' needs exactly one of `table_arg` (which tool argument names the table), "
            ++ b "`table` (a fixed table) or `table_result` (a JSON pointer into the result naming the table) — it "
            ++ (if is_empty given then b "sets none of them" else b "sets " ++ join_with (b " and ") given))
    else
      match table_of name d with
      | Err reason => fail reason
      | Ok table =>
          let paths := if is_empty (def_record_paths d) then default_record_paths else def_record_paths d in
          match try_map (check_record_path name) paths with
          | Err reason => fail reason
          | Ok _ =>
              Ok {| source_name := name;
                    source_label := if is_blank_bytes (def_label d) then name else def_label d;
                    builtin := false;
                    bindings :=
                      map (λ t, {| tool := t; table_source := table; record_paths := paths;
                                   key_alias := sorted_pairs (def_key_alias d);
                                   free_form_names := def_free_form d |}) (def_tools d) |}
          end
      end.

Definition is_builtin_source (name : bytes) : bool := existsb (λ n, ustr_eqb n name) BUILTIN_SOURCE_NAMES.

Definition is_lower (c : N) : bool := ((97 <=? c) && (c <=? 122))%N.
(** [^[a-z][a-z0-9_-]{0,63}$]. *)
Definition is_valid_data_source_name (name : bytes) : bool :=
  if is_empty name || (64 <? length name)%nat then false
  else
    match utf8_decode name with
    | c :: r => is_lower c && forallb (λ c, is_lower c || is_digit c || (c =? 95)%N || (c =? 45)%N) r
    | [] => false
    end.

(** ** The shipped sources *)

(** [ModelSource], and the rows of [ODOO_TOOLS]. *)
Definition odoo_binding (t : string) (table : TableSource) (alias : list (string * string)) : ToolBinding := {|
  tool := b t; table_source := table; record_paths := [b "$[*]"; b "$"];
  key_alias := map (λ p : string * string, (b p.1, b p.2)) alias; free_form_names := false
|}.

Definition INVOICE_KEY_ALIAS : list (string * string) := [
  ("id", "id"); ("name", "number"); ("partner_id", "partner"); ("move_type", "move_type"); ("state", "status");
  ("amount_total", "total"); ("amount_residual", "balance_due"); ("payment_state", "payment_status");
  ("invoice_date", "date")]%string.

Definition ODOO_TOOLS : list ToolBinding := [
  odoo_binding "odoo_search" (FromArg (b "model")) [];
  odoo_binding "odoo_execute" (FromArg (b "model")) [];
  odoo_binding "odoo_partner_search" (Fixed (b "res.partner")) [];
  odoo_binding "odoo_crm_leads" (Fixed (b "crm.lead"))
    [("id", "id"); ("name", "name"); ("contact_name", "contact_name"); ("email_from", "email"); ("phone", "phone");
     ("stage_id", "stage"); ("stage_id", "stage_id"); ("expected_revenue", "expected_revenue");
     ("probability", "probability"); ("user_id", "salesperson"); ("team_id", "team"); ("type", "lead_type")];
  odoo_binding "odoo_sale_orders" (Fixed (b "sale.order"))
    [("id", "id"); ("name", "name"); ("partner_id", "customer"); ("date_order", "date"); ("state", "status");
     ("amount_total", "total"); ("user_id", "salesperson")];
  odoo_binding "odoo_inventory_products" (Fixed (b "product.product"))
    [("id", "id"); ("name", "name"); ("default_code", "default_code"); ("list_price", "list_price");
     ("qty_available", "qty_available"); ("virtual_available", "virtual_available"); ("detailed_type", "product_type")];
  odoo_binding "odoo_inventory_check" (Fixed (b "stock.quant"))
    [("product_id", "product"); ("location_id", "location"); ("quantity", "quantity"); ("reserved_quantity", "reserved")];
  odoo_binding "odoo_invoice_list" (Fixed (b "account.move")) INVOICE_KEY_ALIAS;
  odoo_binding "odoo_payment_status" (Fixed (b "account.move")) INVOICE_KEY_ALIAS]%string.

Definition odoo_source : DataSource :=
  {| source_name := BUILTIN_ODOO; source_label := b "Odoo ERP"; builtin := true; bindings := ODOO_TOOLS |}.

Definition duduclaw_db_source : DataSource := {|
  source_name := BUILTIN_DUDUCLAW_DB; source_label := b "DuDuClaw 資料庫連接器"; builtin := true;
  bindings := [{| tool := b "db_select"; table_source := FromArg (b "table"); record_paths := [b "$.rows[*]"];
                  key_alias := []; free_form_names := false |}]
|}.

Definition file_binding (t : string) : ToolBinding :=
  {| tool := b t; table_source := FromResult (b "/table"); record_paths := [b "$.rows[*]"]; key_alias := [];
     free_form_names := true |}.
Definition duduclaw_files_source : DataSource := {|
  source_name := BUILTIN_DUDUCLAW_FILES; source_label := b "地端資料檔（CSV／Excel）"; builtin := true;
  bindings := [file_binding "csv_read"; file_binding "xlsx_read"]
|}.

Definition builtin_sources : list DataSource := [odoo_source; duduclaw_db_source; duduclaw_files_source].
Definition builtin_registry : gmap bytes DataSource :=
  foldl (λ m s, <[source_name s := s]> m) ∅ builtin_sources.

(** ** The registry *)

Definition refuse_builtin (name : bytes) : RedactionError :=
  RuleCompile (b "redaction.data_sources." ++ name)
    (b "'" ++ name ++ b "' is a built-in data source and cannot be redefined — pick another name").

Fixpoint registry_loop (names : list bytes) (config : gmap bytes DataSourceDef) (out : gmap bytes DataSource)
    : result (gmap bytes DataSource) RedactionError :=
  match names with
  | [] => Ok out
  | name :: r =>
      if is_builtin_source name then Err (refuse_builtin name)
      else
        match config !! name with
        | None => registry_loop r config out
        | Some d =>
            match into_source d name with
            | Err e => Err e
            | Ok s => registry_loop r config (<[name := s]> out)
            end
        end
  end.

(** The configured names in order. *)
Definition sorted_names (config : gmap bytes DataSourceDef) : list bytes :=
  stable_sort ustr_leb (map fst (map_to_list config)).

Definition registry (config : gmap bytes DataSourceDef) : result (gmap bytes DataSource) RedactionError :=
  registry_loop (sorted_names config) config builtin_registry.

(** ** Collecting *)

Lemma push_new_elem {A} `{EqDecision A} l : ∀ (seen : list A) x, x ∈ foldl push_new seen l ↔ x ∈ seen ∨ x ∈ l.
Proof.
  induction l as [|y l IH]; intros seen x; cbn [foldl]; [rewrite elem_of_nil; tauto|].
  rewrite IH, elem_of_cons. unfold push_new. case_bool_decide; [naive_solver|].
  rewrite elem_of_app, list_elem_of_singleton. tauto.
Qed.

Lemma push_new_seen {A} `{EqDecision A} (l seen : list A) : (∀ x, x ∈ l → x ∈ seen) → foldl push_new seen l = seen.
Proof.
  induction l as [|y l IH]; intros Hs; cbn [foldl]; [done|].
  assert (push_new seen y = seen) as ->; [|apply IH; intros; apply Hs; by right].
  unfold push_new. rewrite bool_decide_eq_true_2; [done|]. apply Hs. by left.
Qed.

Lemma push_new_NoDup {A} `{EqDecision A} (l : list A) : ∀ seen,
  NoDup (seen ++ l) → foldl push_new seen l = seen ++ l.
Proof.
  induction l as [|y l IH]; intros seen Hn; cbn [foldl]; [by rewrite app_nil_r|].
  assert (y ∉ seen) as Hy.
  { apply list.NoDup_app in Hn as (_ & Hd & _). intros Hy. apply (Hd y Hy). by left. }
  unfold push_new at 2. rewrite bool_decide_eq_false_2 by done. rewrite IH; rewrite <- app_assoc; done.
Qed.

Lemma push_new_copies {A B} `{EqDecision B} (l : list A) (paths : list B) :
  l ≠ [] → foldl push_new [] (concat (map (λ _, paths) l)) = foldl push_new [] paths.
Proof.
  destruct l as [|x l]; [done|]. intros _. cbn [map concat]. rewrite foldl_app. apply push_new_seen.
  intros y Hy. apply push_new_elem. right. apply list_elem_of_In, in_concat in Hy as (ps & Hps & Hy).
  apply in_map_iff in Hps as (? & <- & _). by apply list_elem_of_In.
Qed.

Lemma collect_foldl l : ∀ m : gmap bytes bytes,
  NoDup (map fst l) → foldl (λ m p, <[p.1 := p.2]> m) m l = list_to_map l ∪ m.
Proof.
  induction l as [|[k v] l IH]; intros m Hn; cbn [foldl]; [cbn; by rewrite (left_id_L ∅ (∪))|].
  cbn in Hn. apply list.NoDup_cons in Hn as [Hk Hn]. rewrite IH by done. cbn.
  rewrite <- insert_union_l. symmetry. apply insert_union_r. by apply not_elem_of_list_to_map_1.
Qed.

Lemma sorted_pairs_Permutation m : sorted_pairs m ≡ₚ map_to_list m.
Proof. apply stable_sort_Permutation. Qed.

Lemma collect_sorted_pairs m : collect_map (sorted_pairs m) = m.
Proof.
  unfold collect_map. pose proof (sorted_pairs_Permutation m) as Hp.
  assert (NoDup (map fst (sorted_pairs m))) as Hn.
  { rewrite (Permutation_map fst Hp). apply NoDup_fst_map_to_list. }
  rewrite collect_foldl, (right_id_L ∅ (∪)) by done.
  rewrite (list_to_map_proper _ (map_to_list m)) by done. apply list_to_map_to_list.
Qed.

(** ** The two forms of a source *)

(** The simple form with its defaults filled in and its repetitions left out. *)
Definition normal_form (name : bytes) (d : DataSourceDef) : DataSourceDef := {|
  def_label := if is_blank_bytes (def_label d) then name else def_label d;
  def_tools := foldl push_new [] (def_tools d);
  def_table_arg := def_table_arg d; def_table := def_table d; def_table_result := def_table_result d;
  def_record_paths :=
    foldl push_new [] (if is_empty (def_record_paths d) then default_record_paths else def_record_paths d);
  def_free_form := def_free_form d; def_key_alias := def_key_alias d
|}.

Lemma into_source_ok d name s :
  into_source d name = Ok s ↔
    def_tools d ≠ [] ∧ existsb is_blank_bytes (def_tools d) = false ∧ length (given_tables d) = 1%nat
    ∧ ∃ table, table_of name d = Ok table
      ∧ let paths := if is_empty (def_record_paths d) then default_record_paths else def_record_paths d in
        (∃ us, try_map (check_record_path name) paths = Ok us)
        ∧ s = {| source_name := name;
                 source_label := if is_blank_bytes (def_label d) then name else def_label d;
                 builtin := false;
                 bindings := map (λ t, {| tool := t; table_source := table; record_paths := paths;
                                          key_alias := sorted_pairs (def_key_alias d);
                                          free_form_names := def_free_form d |}) (def_tools d) |}.
Proof.
  unfold into_source. cbv zeta. destruct (def_tools d) as [|t ts] eqn:Et; [by split; [done|intros (? & _)]|]. cbn [is_empty].
  destruct (existsb is_blank_bytes (t :: ts)); [by split; [done|intros (_ & ? & _)]|]. cbv zeta.
  destruct (Nat.eqb_spec (length (given_tables d)) 1) as [Hg|Hg]; cbn [negb]; [|by split; [done|intros (_ & _ & ? & _)]].
  destruct (table_of name d) as [table|]; [|by split; [done|intros (_ & _ & _ & ? & ? & _)]].
  destruct (try_map _ _) as [us|] eqn:Eu.
  - split; [intros [= <-]; split_and!; try done; exists table; split_and!; try done; by exists us|].
    intros (_ & _ & _ & table' & Ht & _ & ->). by simplify_eq.
  - split; [done|]. intros (_ & _ & _ & ? & _ & (us & Hu) & _). congruence.
Qed.

(** The way a table is given, read back from it. *)
Lemma table_of_fields d name table :
  length (given_tables d) = 1%nat → table_of name d = Ok table →
  match table with
  | FromArg a => def_table_arg d = Some a ∧ def_table d = None ∧ def_table_result d = None
  | Fixed t => def_table_arg d = None ∧ def_table d = Some t ∧ def_table_result d = None
  | FromResult p => def_table_arg d = None ∧ def_table d = None ∧ def_table_result d = Some p
  end.
Proof.
  unfold given_tables, table_of.
  destruct (def_table_arg d) as [a|], (def_table d) as [t|], (def_table_result d) as [p|]; cbn; try done.
  - intros _. destruct (is_blank_bytes a); [done|]. by intros [= <-].
  - intros _. destruct (is_blank_bytes t); [done|]. by intros [= <-].
  - intros _. unfold id. destruct (negb _); [done|]. by intros [= <-].
Qed.

Lemma neighbours_constant (f : bytes → ToolBinding) alias l :
  (∀ t, key_alias (f t) = alias) → neighbours_agree (map f l) = true.
Proof.
  intros Hf. induction l as [|x l IH]; [done|]. destruct l as [|y l]; [done|].
  cbn [map neighbours_agree] in *. rewrite bool_decide_eq_true_2; [done|]. by rewrite !Hf.
Qed.

Lemma forallb_constant {A} (f : A → bool) x l : (∀ y, y ∈ l → f y = x) → l ≠ [] → forallb f l = x.
Proof.
  intros Hf. induction l as [|y l IH]; [done|]. intros _. cbn. rewrite (Hf y) by (by left).
  destruct l as [|z l]; [cbn; by rewrite andb_true_r|]. rewrite IH; [by destruct x| |done]. intros. apply Hf. by right.
Qed.

Lemma simple_form_of d name s : into_source d name = Ok s → simple_form s = normal_form name d.
Proof.
  intros (Hne & _ & Hg & table & Ht & _ & ->)%into_source_ok.
  set (paths := if is_empty (def_record_paths d) then default_record_paths else def_record_paths d) in *.
  unfold simple_form, normal_form. cbn [bindings source_label]. fold paths. rewrite !map_map. cbn [tool table_source record_paths].
  rewrite map_id, push_new_copies by done.
  assert (foldl push_new [] (map (λ _ : bytes, table) (def_tools d)) = [table]) as ->.
  { destruct (def_tools d) as [|t ts]; [done|]. cbn [map foldl]. apply push_new_seen.
    intros x (? & -> & _)%list_elem_of_fmap. by left. }
  rewrite neighbours_constant with (alias := sorted_pairs (def_key_alias d)) by done.
  rewrite (forallb_constant free_form_names (def_free_form d));
    [|intros y (? & -> & _)%list_elem_of_fmap; done|by destruct (def_tools d)].
  apply table_of_fields in Ht; [|done].
  destruct (def_tools d) as [|t ts] eqn:Et; [done|]. cbn [map is_empty negb andb key_alias]. rewrite collect_sorted_pairs.
  destruct table, Ht as (-> & -> & ->); done.
Qed.

(** The two forms of a source agree: what an operator's entry becomes is
    shown again as that entry, with its defaults filled in and repetitions
    left out, and the entry shown becomes the same source again. *)
Theorem source_forms_roundtrip d name s :
  into_source d name = Ok s → NoDup (def_tools d) → NoDup (def_record_paths d) →
  simple_form s = normal_form name d ∧ into_source (simple_form s) name = Ok s.
Proof.
  intros Hs Hnt Hnp. pose proof (simple_form_of d name s Hs) as Hf. split; [done|]. rewrite Hf.
  apply into_source_ok in Hs as (Hne & Hb & Hg & table & Ht & Hp & ->). cbv zeta in Hp.
  assert (foldl push_new [] (def_tools d) = def_tools d) as Htools by (by apply push_new_NoDup).
  assert (foldl push_new [] (if is_empty (def_record_paths d) then default_record_paths else def_record_paths d)
          = if is_empty (def_record_paths d) then default_record_paths else def_record_paths d) as Hpaths.
  { apply push_new_NoDup. cbn. destruct (is_empty _); [|done]. apply (bool_decide_unpack _). by vm_compute. }
  apply into_source_ok. unfold normal_form. cbn [def_tools def_record_paths def_key_alias def_free_form def_label].
  rewrite Htools, Hpaths. split_and!; [done|done|done|]. exists table. split; [done|]. cbv zeta.
  assert (is_empty (if is_empty (def_record_paths d) then default_record_paths else def_record_paths d) = false) as Hie
    by (destruct (def_record_paths d); done).
  rewrite Hie. split; [done|]. f_equal. destruct (is_blank_bytes (def_label d)) eqn:El; [by destruct (is_blank_bytes name)|].
  by rewrite El.
Qed.

(** ** What the registry holds *)

Definition acceptable (config : gmap bytes DataSourceDef) (name : bytes) (d : DataSourceDef) : Prop :=
  is_builtin_source name = false ∧ ∃ s, into_source d name = Ok s.

Lemma registry_loop_spec config names : ∀ out,
  NoDup names → (∀ name, name ∈ names → is_Some (config !! name)) →
  match registry_loop names config out with
  | Ok R =>
      (∀ name d, name ∈ names → config !! name = Some d →
         is_builtin_source name = false ∧ ∃ s, into_source d name = Ok s ∧ R !! name = Some s)
      ∧ ∀ name, name ∉ names → R !! name = out !! name
  | Err _ => ∃ name d, name ∈ names ∧ config !! name = Some d ∧ ¬ acceptable config name d
  end.
Proof.
  induction names as [|name names IH]; intros out Hn Hc; cbn [registry_loop].
  { split; [by intros ? ? ?%elem_of_nil|done]. }
  apply list.NoDup_cons in Hn as [Hni Hn]. destruct (Hc name) as [d Hd]; [by left|].
  destruct (is_builtin_source name) eqn:Eb.
  { exists name, d. split_and!; [by left|done|]. intros [? _]. congruence. }
  rewrite Hd. destruct (into_source d name) as [s|e] eqn:Es.
  2:{ exists name, d. split_and!; [by left|done|]. intros [_ [s Hs]]. congruence. }
  specialize (IH (<[name := s]> out) Hn (λ n Hx, Hc n (list_elem_of_further _ _ _ Hx))).
  destruct (registry_loop names config (<[name := s]> out)) as [R|e].
  - destruct IH as [H1 H2]. split.
    + intros n d' [->|Hin]%elem_of_cons Hd'; [|by apply H1]. simplify_eq. split; [done|]. exists s. split; [done|].
      rewrite H2 by done. by rewrite lookup_insert_eq.
    + intros n [Hne Hnn]%not_elem_of_cons. rewrite H2 by done. by rewrite lookup_insert_ne.
  - destruct IH as (n & d' & Hin & ? & ?). exists n, d'. split_and!; [by right|done|done].
Qed.

Lemma elem_of_sorted_names config name : name ∈ sorted_names config ↔ is_Some (config !! name).
Proof.
  unfold sorted_names. rewrite (stable_sort_Permutation ustr_leb), list_elem_of_fmap. split.
  - intros ([n d] & -> & Hin%elem_of_map_to_list). by exists d.
  - intros [d Hd]. exists (name, d). split; [done|]. by apply elem_of_map_to_list.
Qed.

Lemma sorted_names_NoDup config : NoDup (sorted_names config).
Proof. unfold sorted_names. rewrite (stable_sort_Permutation ustr_leb). apply NoDup_fst_map_to_list. Qed.

Lemma registry_holds config R name :
  registry config = Ok R →
  match config !! name with
  | Some d => ∃ s, into_source d name = Ok s ∧ R !! name = Some s
  | None => R !! name = builtin_registry !! name
  end.
Proof.
  pose proof (registry_loop_spec config (sorted_names config) builtin_registry (sorted_names_NoDup config)
    (λ n Hx, proj1 (elem_of_sorted_names config n) Hx)) as Hl. unfold registry. intros Hr. rewrite Hr in Hl.
  destruct Hl as [H1 H2]. destruct (config !! name) as [d|] eqn:Ed.
  - destruct (H1 name d) as (_ & s & Hs); [by apply elem_of_sorted_names; eexists|done|]. by exists s.
  - apply H2. rewrite elem_of_sorted_names, Ed. by intros [].
Qed.

(** The registry is all or nothing: it holds the shipped sources unchanged
    and the source of every configured entry; and it is refused exactly when
    some entry is not acceptable (a shipped name, or an entry that is no
    source), so no entry is ever dropped silently. *)
Theorem registry_exact config :
  match registry config with
  | Ok R =>
      (∀ name d, config !! name = Some d → ∃ s, into_source d name = Ok s ∧ R !! name = Some s)
      ∧ ∀ name, config !! name = None → R !! name = builtin_registry !! name
  | Err _ => True
  end
  ∧ ((∃ R, registry config = Ok R) ↔ ∀ name d, config !! name = Some d → acceptable config name d).
Proof.
  assert (NoDup (sorted_names config)) as Hn by apply sorted_names_NoDup.
  pose proof (λ R name, registry_holds config R name) as Hh.
  pose proof (registry_loop_spec config (sorted_names config) builtin_registry Hn
    (λ n Hx, proj1 (elem_of_sorted_names config n) Hx)) as Hl. fold (registry config) in Hl.
  destruct (registry config) as [R|e].
  - destruct Hl as [H1 _]. split; [split; intros name *; specialize (Hh R name eq_refl)|].
    + intros Hd. by rewrite Hd in Hh.
    + intros Hd. by rewrite Hd in Hh.
    + split; [|by eexists]. intros _ name d Hd.
      destruct (H1 name d) as (Hb & s & Hs & _); [by apply elem_of_sorted_names; eexists|done|]. by split; [|exists s].
  - split; [done|]. split; [by intros []|]. intros Ha. destruct Hl as (name & d & _ & Hd & Hna). by destruct Hna; apply Ha.
Qed.

(** ** Concrete runs *)

Definition demo_source_def : DataSourceDef := {|
  def_label := []; def_tools := [b "pg_query"; b "pg_select"]; def_table_arg := Some (b "table"); def_table := None;
  def_table_result := None; def_record_paths := [b "$.rows[*]"]; def_free_form := false;
  def_key_alias := {[ b "name" := b "customer_name" ]}
|}.

Lemma source_forms_roundtrip_witness :
  ∃ s, into_source demo_source_def (b "crm") = Ok s ∧ into_source (simple_form s) (b "crm") = Ok s.
Proof.
  assert (∃ s, into_source demo_source_def (b "crm") = Ok s) as [s Hs] by (eexists; vm_compute; reflexivity).
  exists s. split; [exact Hs|]. apply (source_forms_roundtrip demo_source_def (b "crm") s Hs).
  - apply (bool_decide_unpack _). vm_compute. reflexivity.
  - apply (bool_decide_unpack _). vm_compute. reflexivity.
Defined.

(** Every path of the shipped sources parses. *)
Example shipped_paths_parse :
  forallb (λ s, forallb (λ x, forallb (λ p, match parse_path p with Ok _ => true | Err _ => false end) (record_paths x))
                  (bindings s)) builtin_sources = true.
Proof. vm_compute. reflexivity. Qed.

(** The forms of a shipped source do not agree: its tools have several
    tables, so its simple form names none and is no source. *)
Example odoo_form_incomplete :
  match into_source (simple_form odoo_source) (b "other") with Err _ => true | Ok _ => false end = true.
Proof. vm_compute. reflexivity. Qed.
