(* ===== verification/NerText.v ===== *)
(** * Texts for the named-entity model (crates/duduclaw-redaction/src/ner/mod.rs)

    Long texts are cut into chunks that the model scores one at a time, and
    the spans it reports are snapped to character boundaries.  Positions are
    bytes; a [None] is a panic of a slice. *)

From S2P Require Import Prelude.
From S2P Require Import Bytes.
From S2P Require Import Utf8.
From S2P Require Import Chars.

Definition DEFAULT_MIN_CHARS : nat := 24.
Definition DEFAULT_MAX_CHARS : Z := 32000.
Definition DEFAULT_NER_PRIORITY : Z := 30.

Record NerConfig := {
  model_dir : option bytes;
  threads : Z;
  idle_unload_minutes : Z;
  min_chars : Z;
  max_chars : Z;
  cache_entries : Z;
}.

Definition NerConfig_default : NerConfig := {|
  model_dir := None; threads := 4; idle_unload_minutes := 10; min_chars := Z.of_nat DEFAULT_MIN_CHARS;
  max_chars := DEFAULT_MAX_CHARS; cache_entries := 256
|}.

Definition clamp (lo hi x : Z) : Z := Z.max lo (Z.min hi x).
Definition sanitized (c : NerConfig) : NerConfig := {|
  model_dir := model_dir c;
  threads := clamp 1 64 (threads c);
  idle_unload_minutes := Z.min (24 * 60) (idle_unload_minutes c);
  min_chars := Z.min 100000 (min_chars c);
  max_chars := clamp 64 200000 (max_chars c);
  cache_entries := clamp 1 4096 (cache_entries c)
|}.

(** [char_indices]: the bytes that start a character. *)
Definition char_starts (s : bytes) : list nat :=
  retain (λ i, match s !! i with Some x => negb (is_cont x) | None => false end) (seq 0 (length s)).
Definition count_chars (s : bytes) : nat := length (char_starts s).

(** Where a window is cut. *)
Definition cut_at (window : bytes) (hard_end : nat) : nat :=
  let found :=
    match rfind window [10; 10]%N with
    | Some i => Some (i + 2)%nat
    | None => match rfind window [10]%N with Some i => Some (i + 1)%nat | None => None end
    end in
  match found with Some i => if (0 <? i)%nat then i else hard_end | None => hard_end end.

Fixpoint chunk_loop (fuel : nat) (text : bytes) (max_chars start : nat) : option (list (nat * bytes)) :=
  match fuel with
  | O => None
  | S fuel' =>
      if (start <? length text)%nat then
        rest ← slice text start (length text);
        match char_starts rest !! max_chars with
        | None => Some [(start, rest)]
        | Some hard_end =>
            window ← slice rest 0 hard_end;
            let cut := cut_at window hard_end in
            piece ← slice rest 0 cut;
            out ← chunk_loop fuel' text max_chars (start + cut)%nat;
            Some ((start, piece) :: out)
        end
      else Some []
  end.

Definition chunk_text (text : bytes) (max_chars : nat) : option (list (nat * bytes)) :=
  let max_chars := Nat.max max_chars 1 in
  if (count_chars text <=? max_chars)%nat then Some (if is_empty text then [] else [(0%nat, text)])
  else
    out ← chunk_loop (S (length text)) text max_chars 0;
    Some (retain (λ p : nat * bytes, negb (is_empty p.2)) out).

(** The two loops to the nearest boundaries. *)
Fixpoint snap_down (s : bytes) (a : nat) : nat :=
  if is_char_boundary s a then a else match a with O => O | S a' => snap_down s a' end.
Fixpoint snap_up (fuel : nat) (s : bytes) (x : nat) : nat :=
  match fuel with
  | O => x
  | S fuel' => if (x <? length s)%nat && negb (is_char_boundary s x) then snap_up fuel' s (S x) else x
  end.

Definition safe_bounds (s : bytes) (start end_ : nat) : nat * nat :=
  let a := Nat.min start (length s) in
  let z := Nat.min end_ (length s) in
  let '(a, z) := if (z <? a)%nat then (z, a) else (a, z) in
  (snap_down s a, snap_up (length s - z) s z).
Definition safe_slice (s : bytes) (start end_ : nat) : option bytes :=
  let '(a, z) := safe_bounds s start end_ in slice s a z.

(** ** Characters *)

Lemma char_starts_shift c t :
  retain (λ i, match (utf8_char c ++ t) !! i with Some x => negb (is_cont x) | None => false end)
    (seq (len_utf8 c) (length t)) = map (Nat.add (len_utf8 c)) (char_starts t).
Proof.
  unfold char_starts. rewrite <- (Nat.add_0_r (len_utf8 c)) at 1. rewrite <- fmap_add_seq.
  change (Nat.add (len_utf8 c) <$> seq 0 (length t)) with (map (Nat.add (len_utf8 c)) (seq 0 (length t))).
  induction (seq 0 (length t)) as [|i l IH]; [done|]. cbn [map List.filter].
  assert ((utf8_char c ++ t) !! (len_utf8 c + i)%nat = t !! i) as ->.
  { unfold len_utf8. rewrite lookup_app_r by lia. f_equal. lia. }
  destruct (match t !! i with Some x => negb (is_cont x) | None => false end); cbn [map]; by rewrite IH.
Qed.

Lemma char_starts_first c t :
  retain (λ i, match (utf8_char c ++ t) !! i with Some x => negb (is_cont x) | None => false end)
    (seq 0 (len_utf8 c)) = [0%nat].
Proof.
  unfold len_utf8. destruct (utf8_char_shape c) as (h & tl & -> & Hh & Ht). cbn [length seq List.filter app].
  change ((h :: (tl ++ t)) !! 0%nat) with (Some h). cbv iota. rewrite Hh. cbn [negb]. f_equal. apply retain_none. apply List.Forall_forall. intros i Hi.
  apply in_seq in Hi. destruct i as [|i]; [lia|]. change ((h :: (tl ++ t)) !! S i) with ((tl ++ t) !! i). rewrite lookup_app_l by lia.
  destruct (lookup_lt_is_Some_2 tl i) as [x Hx]; [lia|]. rewrite Hx. rewrite forallb_forall in Ht.
  rewrite (Ht x) by (apply list_elem_of_In; by eapply list_elem_of_lookup_2). done.
Qed.

Lemma char_starts_char c t : char_starts (utf8_char c ++ t) = 0%nat :: map (Nat.add (len_utf8 c)) (char_starts t).
Proof.
  unfold char_starts at 1. rewrite length_app, seq_app, List.filter_app. fold (len_utf8 c).
  by rewrite char_starts_first, Nat.add_0_l, char_starts_shift.
Qed.

(** The characters of a text start where the ones before them end. *)
Lemma char_starts_encode T : char_starts (utf8_encode T) = map (λ n, length (utf8_encode (take n T))) (seq 0 (length T)).
Proof.
  induction T as [|c T IH]; [done|]. rewrite utf8_encode_cons, char_starts_char, IH. cbn [length seq map take].
  f_equal. rewrite <- seq_shift, !map_map. apply map_ext. intros n. cbn [take]. rewrite utf8_encode_cons, length_app. done.
Qed.

Lemma count_chars_encode T : count_chars (utf8_encode T) = length T.
Proof. unfold count_chars. by rewrite char_starts_encode, length_map, length_seq. Qed.

Lemma char_starts_lookup T n :
  char_starts (utf8_encode T) !! n = if (n <? length T)%nat then Some (length (utf8_encode (take n T))) else None.
Proof.
  rewrite char_starts_encode. change (map ?f ?l) with (f <$> l). rewrite list_lookup_fmap.
  destruct (Nat.ltb_spec n (length T)); [by rewrite lookup_seq_lt|by rewrite lookup_seq_ge].
Qed.

Lemma rfind_some s p i : p ≠ [] → rfind s p = Some i → ∃ a r, s = a ++ p ++ r ∧ length a = i.
Proof.
  intros Hp. revert i. induction s as [|x s IH]; intros i; cbn [rfind]; [by destruct p|].
  destruct (rfind s p) as [j|] eqn:E.
  - intros [= <-]. destruct (IH j eq_refl) as (a & r & -> & <-). by exists (x :: a), r.
  - destruct (starts_with (x :: s) p) eqn:Es; [|done]. intros [= <-]. apply starts_with_spec in Es as [r Hr]. by exists [], r.
Qed.

Lemma rfind_none s p a r : p ≠ [] → rfind s p = None → s ≠ a ++ p ++ r.
Proof.
  intros Hp. revert a. induction s as [|x s IH]; intros a; cbn [rfind].
  - intros _ He. by destruct a, p.
  - destruct (rfind s p) eqn:E; [done|]. destruct (starts_with (x :: s) p) eqn:Es; [done|]. intros _ He.
    destruct a as [|y a]; [|injection He as -> He; by eapply IH].
    rewrite <- not_true_iff_false in Es. apply Es, starts_with_spec. by exists r.
Qed.

Lemma encode_nonempty T : T ≠ [] → (0 < length (utf8_encode T))%nat.
Proof.
  destruct T as [|c T]; [done|]. intros _. rewrite utf8_encode_cons, length_app. pose proof (len_utf8_pos c) as Hp.
  unfold len_utf8 in Hp. lia.
Qed.

Lemma length_encode T : (length T ≤ length (utf8_encode T))%nat.
Proof.
  induction T as [|c T IH]; [done|]. rewrite utf8_encode_cons, length_app. pose proof (len_utf8_pos c) as Hp.
  unfold len_utf8 in Hp. cbn [length]. lia.
Qed.

Lemma encode_not_nil T : T ≠ [] → utf8_encode T ≠ [].
Proof. intros Hn He. apply encode_nonempty in Hn. rewrite He in Hn. cbn in Hn. lia. Qed.

(** A window is cut behind a line break, or at its end when it has none. *)
Lemma cut_at_spec W :
  W ≠ [] →
  ∃ W1 W2, W = W1 ++ W2 ∧ W1 ≠ [] ∧ cut_at (utf8_encode W) (length (utf8_encode W)) = length (utf8_encode W1)
    ∧ (list.last W1 = Some 10%N ∨ (W2 = [] ∧ 10%N ∉ W)).
Proof.
  intros HW. unfold cut_at.
  assert (∀ n i, n ≠ [] → forallb (λ c, c =? 10)%N n = true → rfind (utf8_encode W) n = Some i →
    ∃ W1 W2, W = W1 ++ W2 ∧ W1 ≠ [] ∧ (i + length n)%nat = length (utf8_encode W1) ∧ list.last W1 = Some 10%N) as Hfound.
  { intros n i Hn Hall Hi. apply rfind_some in Hi as (a & r & He & <-); [|done].
    assert (utf8_encode n = n) as Hen.
    { clear -Hall. induction n as [|c n IH]; [done|]. cbn in Hall. apply andb_true_iff in Hall as [Hc Hall].
      apply N.eqb_eq in Hc as ->. rewrite utf8_encode_cons, IH by done. done. }
    rewrite <- Hen in He at 1. apply utf8_encode_sync in He as (s1 & s2 & -> & -> & ->); [|done].
    exists (s1 ++ n), s2. rewrite <- app_assoc, utf8_encode_app, Hen, length_app. split_and!; [done|by destruct s1|done|].
    rewrite last_app. destruct (list.last n) as [c|] eqn:El; [|by apply last_None in El].
    rewrite forallb_forall in Hall. apply last_Some in El as [n' ->].
    specialize (Hall c ltac:(apply in_or_app; right; by left)). by apply N.eqb_eq in Hall as ->. }
  destruct (rfind (utf8_encode W) [10; 10]%N) as [i|] eqn:E2.
  - destruct (Hfound [10; 10]%N i) as (W1 & W2 & ? & ? & Hlen & ?); [done..|]. exists W1, W2. split_and!; [done|done| |by left].
    rewrite (proj2 (Nat.ltb_lt 0 _)) by (cbn in Hlen; lia). done.
  - destruct (rfind (utf8_encode W) [10]%N) as [i|] eqn:E1.
    + destruct (Hfound [10]%N i) as (W1 & W2 & ? & ? & Hlen & ?); [done..|]. exists W1, W2. split_and!; [done|done| |by left].
      rewrite (proj2 (Nat.ltb_lt 0 _)) by (cbn in Hlen; lia). done.
    + exists W, []. rewrite app_nil_r. split_and!; [done|done|done|]. right. split; [done|].
      intros (A & B & ->)%list_elem_of_split. eapply (rfind_none _ [10%N] (utf8_encode A) (utf8_encode B)); [done|exact E1|].
      by rewrite utf8_encode_app, utf8_encode_cons.
Qed.

(** Chunks that stand where they say, one after the other from [start]. *)
Fixpoint chunks_at (start : nat) (chunks : list (nat * bytes)) : Prop :=
  match chunks with
  | [] => True
  | (o, c) :: r => o = start ∧ chunks_at (start + length c) r
  end.

(** A chunk of at most [n] characters. *)
Definition chunk_ok (n : nat) (p : nat * bytes) : Prop :=
  p.2 ≠ [] ∧ is_str p.2 ∧ (count_chars p.2 ≤ n)%nat.

Lemma is_text_app s t : is_text (s ++ t) ↔ is_text s ∧ is_text t.
Proof. unfold is_text. by rewrite forallb_app, andb_true_iff. Qed.

Lemma slice_rest A B :
  slice (utf8_encode (A ++ B)) (length (utf8_encode A)) (length (utf8_encode (A ++ B))) = Some (utf8_encode B).
Proof. pose proof (slice_encode A B []) as Hs. by rewrite app_nil_r in Hs. Qed.
Lemma slice_first A B : slice (utf8_encode (A ++ B)) 0 (length (utf8_encode A)) = Some (utf8_encode A).
Proof. apply (slice_encode [] A B). Qed.

Lemma chunk_loop_spec n fuel : ∀ A B,
  (1 ≤ n)%nat → (length B < fuel)%nat → is_text B →
  ∃ chunks, chunk_loop fuel (utf8_encode (A ++ B)) n (length (utf8_encode A)) = Some chunks
    ∧ concat (map snd chunks) = utf8_encode B ∧ chunks_at (length (utf8_encode A)) chunks
    ∧ Forall (chunk_ok n) chunks
    ∧ ∀ i o c, chunks !! i = Some (o, c) → (S i < length chunks)%nat →
        list.last c = Some 10%N ∨ (10%N ∉ c ∧ count_chars c = n).
Proof.
  induction fuel as [|fuel IH]; intros A B Hn Hf Ht; [lia|]. cbn [chunk_loop].
  destruct B as [|x B'].
  { rewrite app_nil_r, Nat.ltb_irrefl. exists []. split; [done|]. split; [done|]. split; [done|]. split; [apply List.Forall_nil|]. by intros i o c Hi. }
  assert (x :: B' ≠ []) as HB by done. generalize dependent (x :: B'). intros B Hf Ht HB.
  rewrite (proj2 (Nat.ltb_lt _ _)); [|rewrite utf8_encode_app, length_app; pose proof (encode_nonempty B HB); lia].
  rewrite slice_rest. cbn [mbind option_bind]. rewrite char_starts_lookup. destruct (Nat.ltb_spec n (length B)) as [Hlt|Hge].
  2:{ exists [(length (utf8_encode A), utf8_encode B)]. split_and!; [done|by cbn; rewrite app_nil_r|done| |].
      - apply List.Forall_cons; [|apply List.Forall_nil]. unfold chunk_ok. cbn [snd].
        split_and!; [|by exists B|by rewrite count_chars_encode].
        by apply encode_not_nil.
      - intros i o c Hi Hl. cbn in Hl. lia. }
  pose proof (take_drop n B) as Htd.
  assert (slice (utf8_encode B) 0 (length (utf8_encode (take n B))) = Some (utf8_encode (take n B))) as ->.
  { pose proof (slice_first (take n B) (drop n B)) as Hs. by rewrite Htd in Hs. }
  cbn [mbind option_bind].
  destruct (cut_at_spec (take n B)) as (W1 & W2 & HW & HW1 & Hcut & Hend).
  { intros E. apply (f_equal length) in E. rewrite length_take in E. cbn in E. lia. }
  assert (B = W1 ++ (W2 ++ drop n B)) as HBs by (by rewrite app_assoc, <- HW, Htd).
  rewrite Hcut. assert (slice (utf8_encode B) 0 (length (utf8_encode W1)) = Some (utf8_encode W1)) as ->.
  { rewrite HBs at 1. apply slice_first. }
  cbn [mbind option_bind].
  rewrite HBs in Ht. apply is_text_app in Ht as [Ht1 Ht2].
  destruct (IH (A ++ W1) (W2 ++ drop n B)) as (chunks & Hc & Hcat & Hat & Hok & Hlast); [done| |done|].
  { apply (f_equal length) in HBs. rewrite length_app in HBs. destruct W1; [done|]. cbn in HBs. lia. }
  rewrite <- app_assoc, <- HBs, (utf8_encode_app A W1), length_app in Hc. rewrite Hc. cbn [mbind option_bind].
  eexists. split; [done|]. cbn [map concat snd chunks_at]. split_and!.
  - by rewrite Hcat, <- utf8_encode_app, <- HBs.
  - done.
  - by rewrite utf8_encode_app, length_app in Hat.
  - apply List.Forall_cons; [|done]. unfold chunk_ok. cbn [snd]. split_and!; [|by exists W1|].
    + by apply encode_not_nil.
    + rewrite count_chars_encode. apply (f_equal length) in HW. rewrite length_app, length_take in HW. lia.
  - intros [|i] o c Hi Hl; [|cbn in Hi, Hl; eapply Hlast; [done|lia]].
    injection Hi as <- <-. rewrite count_chars_encode. destruct Hend as [Hnl|[-> Hno]].
    + left. apply last_Some in Hnl as [l ->]. by rewrite utf8_encode_app; change (utf8_encode [10%N]) with [10%N]; rewrite last_snoc.
    + right. rewrite app_nil_r in HW. subst W1. split; [|rewrite length_take; lia].
      intros Hin. apply Hno. rewrite <- (utf8_decode_encode (take n B)).
      apply ascii_byte_char; [lia| |done]. by exists (take n B).
Qed.

Lemma chunk_text_spec text n :
  is_str text →
  ∃ chunks, chunk_text text n = Some chunks
    ∧ concat (map snd chunks) = text ∧ chunks_at 0 chunks ∧ Forall (chunk_ok (Nat.max n 1)) chunks
    ∧ ∀ i o c, chunks !! i = Some (o, c) → (S i < length chunks)%nat →
        list.last c = Some 10%N ∨ (10%N ∉ c ∧ count_chars c = Nat.max n 1).
Proof.
  intros (T & HT & ->). unfold chunk_text. cbv zeta. rewrite count_chars_encode.
  destruct (Nat.leb_spec (length T) (Nat.max n 1)) as [Hle|Hgt].
  - destruct T as [|c T].
    + exists []. split; [done|]. split; [done|]. split; [done|]. split; [apply List.Forall_nil|]. by intros i o c Hi.
    + pose proof (encode_not_nil (c :: T) ltac:(done)) as Hne. destruct (is_empty (utf8_encode (c :: T))) eqn:E;
        [by destruct (utf8_encode (c :: T))|].
      eexists. split; [done|]. cbn [map snd concat chunks_at]. rewrite app_nil_r. split_and!; [done|done|done| |].
      * apply List.Forall_cons; [|apply List.Forall_nil]. unfold chunk_ok. cbn [snd]. rewrite count_chars_encode.
        split_and!; [done|by exists (c :: T)|done].
      * intros i o c' _ Hl. cbn in Hl. lia.
  - destruct (chunk_loop_spec (Nat.max n 1) (S (length (utf8_encode T))) [] T) as (chunks & Hc & Hcat & Hat & Hok & Hlast).
    + lia.
    + pose proof (length_encode T). lia.
    + done.
    + cbn [app] in Hc. change (length (utf8_encode [])) with 0%nat in *. rewrite Hc. cbn [mbind option_bind].
      rewrite retain_all; [by exists chunks|]. eapply List.Forall_impl; [|exact Hok]. intros [o c] [Hne _]. cbn in *.
      by destruct c.
Qed.

(** A text is cut into chunks without loss: the chunks stand one after the
    other from byte 0, every one is a string of at least one and at most
    [max_chars] characters, together they are the text, and each one but the
    last ends with a line break, or has no line break and is full.  No slice
    panics and the loop ends. *)
Theorem chunk_text_exact text n :
  is_str text →
  ∃ chunks, chunk_text text n = Some chunks
    ∧ concat (map snd chunks) = text ∧ chunks_at 0 chunks ∧ Forall (chunk_ok (Nat.max n 1)) chunks
    ∧ ∀ i o c, chunks !! i = Some (o, c) → (S i < length chunks)%nat →
        list.last c = Some 10%N ∨ (10%N ∉ c ∧ count_chars c = Nat.max n 1).
Proof. apply chunk_text_spec. Qed.

(** Boundaries of a text's bytes are ends of its first characters. *)
Lemma boundary_split T i :
  is_char_boundary (utf8_encode T) i = true → (i ≤ length (utf8_encode T))%nat →
  ∃ T1 T2, T = T1 ++ T2 ∧ i = length (utf8_encode T1).
Proof.
  revert i. induction T as [|c T IH]; intros i Hb Hi.
  - exists [], []. cbn in Hi. split; [done|]. cbn. lia.
  - destruct i as [|i]; [by exists [], (c :: T)|]. rewrite utf8_encode_cons in Hb, Hi. unfold is_char_boundary in Hb.
    change (S i =? 0)%nat with false in Hb. cbn [orb] in Hb. destruct (decide (S i < len_utf8 c)%nat) as [Hlt|Hge].
    + exfalso. unfold len_utf8 in Hlt. rewrite lookup_app_l in Hb by done.
      destruct (utf8_char_shape c) as (h & t & Hc & _ & Ht). rewrite Hc in *. cbn in Hlt.
      change ((h :: t) !! S i) with (t !! i) in Hb. destruct (lookup_lt_is_Some_2 t i) as [x Hx]; [lia|].
      rewrite Hx in Hb. rewrite forallb_forall in Ht. specialize (Ht x ltac:(apply list_elem_of_In; by eapply list_elem_of_lookup_2)).
      unfold is_cont in Ht. by rewrite Ht in Hb.
    + destruct (IH (S i - len_utf8 c)%nat) as (T1 & T2 & -> & Hlen).
      * unfold is_char_boundary. apply orb_true_iff. right. unfold len_utf8 in *. rewrite lookup_app_r in Hb by lia.
        rewrite length_app in Hb. destruct (utf8_encode T !! _); [done|]. apply Nat.eqb_eq in Hb. apply Nat.eqb_eq. lia.
      * rewrite length_app in Hi. unfold len_utf8. lia.
      * exists (c :: T1), T2. split; [done|]. rewrite utf8_encode_cons, length_app. unfold len_utf8 in *. lia.
Qed.

Lemma snap_down_spec s a :
  (snap_down s a ≤ a)%nat ∧ is_char_boundary s (snap_down s a) = true
  ∧ ∀ i, (snap_down s a < i ≤ a)%nat → is_char_boundary s i = false.
Proof.
  induction a as [|a (IH1 & IH2 & IH3)]; cbn [snap_down]; [split_and!; [cbn; lia|done|cbn; lia]|].
  destruct (is_char_boundary s (S a)) eqn:E; [split_and!; [lia|done|lia]|].
  split_and!; [lia|done|]. intros i Hi. destruct (decide (i = S a)) as [->|]; [done|]. apply IH3. lia.
Qed.

Lemma snap_up_spec s fuel : ∀ x,
  (length s ≤ x + fuel)%nat → (x ≤ length s)%nat →
  (x ≤ snap_up fuel s x ≤ length s)%nat ∧ is_char_boundary s (snap_up fuel s x) = true
  ∧ ∀ i, (x ≤ i < snap_up fuel s x)%nat → is_char_boundary s i = false.
Proof.
  induction fuel as [|fuel IH]; intros x Hf Hx; cbn [snap_up].
  { replace x with (length s) by lia. split_and!; [lia..|apply boundary_end|lia]. }
  destruct (Nat.ltb_spec x (length s)) as [Hlt|Hge]; cbn [andb].
  2:{ replace x with (length s) by lia. split_and!; [lia..|apply boundary_end|lia]. }
  destruct (is_char_boundary s x) eqn:E; cbn [negb]; [split_and!; [lia..|done|lia]|].
  destruct (IH (S x)) as (H1 & H2 & H3); [lia..|]. split_and!; [lia..|done|].
  intros i Hi. destruct (decide (i = x)) as [->|]; [done|]. apply H3. lia.
Qed.

Lemma safe_bounds_spec s start end_ :
  is_str s →
  let lo := Nat.min (Nat.min start end_) (length s) in
  let hi := Nat.min (Nat.max start end_) (length s) in
  let '(a, z) := safe_bounds s start end_ in
  (a ≤ lo ∧ hi ≤ z ≤ length s)%nat
  ∧ (is_char_boundary s a = true ∧ ∀ i, (a < i ≤ lo)%nat → is_char_boundary s i = false)
  ∧ (is_char_boundary s z = true ∧ ∀ i, (hi ≤ i < z)%nat → is_char_boundary s i = false)
  ∧ ∃ t, slice s a z = Some t ∧ safe_slice s start end_ = Some t ∧ is_str t ∧ length t = (z - a)%nat.
Proof.
  intros Hs lo hi. unfold safe_slice. destruct (safe_bounds s start end_) as [a z] eqn:Eb.
  assert (a = snap_down s lo ∧ z = snap_up (length s - hi) s hi) as [Ha Hz].
  { unfold safe_bounds in Eb. cbv zeta in Eb.
    destruct (Nat.ltb_spec (Nat.min end_ (length s)) (Nat.min start (length s))) as [Hlt|Hge]; injection Eb as <- <-.
    - replace (Nat.min end_ (length s)) with lo by lia. replace (Nat.min start (length s)) with hi by lia. done.
    - replace (Nat.min end_ (length s)) with hi by lia. replace (Nat.min start (length s)) with lo by lia. done. }
  destruct (snap_down_spec s lo) as (Ha1 & Ha2 & Ha3). rewrite <- Ha in *.
  destruct (snap_up_spec s (length s - hi) hi) as (Hz1 & Hz2 & Hz3); [lia..|]. rewrite <- Hz in *.
  split_and!; try done; try lia. destruct Hs as (T & HT & ->).
  destruct (boundary_split T a Ha2 ltac:(lia)) as (T1 & T2 & -> & Hal).
  destruct (boundary_split (T1 ++ T2) z Hz2 ltac:(lia)) as (U1 & U2 & HU & Hzl).
  assert (∃ K, U1 = T1 ++ K ∧ T2 = K ++ U2) as (K & -> & ->).
  { apply app_eq_inv in HU as [(K & -> & ->)|(K & -> & ->)]; [|by exists K].
    destruct K as [|c K]; [exists []; by rewrite !app_nil_r|].
    exfalso. rewrite utf8_encode_app, length_app in Hal. pose proof (encode_nonempty (c :: K) ltac:(done)). lia. }
  apply is_text_app in HT as [_ [HT _]%is_text_app]. exists (utf8_encode K). rewrite Hal, Hzl, slice_encode.
  split_and!; [done|done|by exists K|]. rewrite utf8_encode_app, length_app. lia.
Qed.

(** Bounds of the model are widened to the nearest character boundaries:
    the corrected pair lies in the text and covers the given range (its ends
    in either order, cut to the text); both ends are boundaries, and no
    nearer ones would do; so slicing the text there does not panic and gives
    a string. *)
Theorem safe_bounds_snaps s start end_ :
  is_str s →
  let lo := Nat.min (Nat.min start end_) (length s) in
  let hi := Nat.min (Nat.max start end_) (length s) in
  let '(a, z) := safe_bounds s start end_ in
  (a ≤ lo ∧ hi ≤ z ≤ length s)%nat
  ∧ (is_char_boundary s a = true ∧ ∀ i, (a < i ≤ lo)%nat → is_char_boundary s i = false)
  ∧ (is_char_boundary s z = true ∧ ∀ i, (hi ≤ i < z)%nat → is_char_boundary s i = false)
  ∧ ∃ t, slice s a z = Some t ∧ safe_slice s start end_ = Some t ∧ is_str t ∧ length t = (z - a)%nat.
Proof. apply safe_bounds_spec. Qed.

(** On boundaries nothing moves. *)
Lemma snap_up_boundary fuel s x : is_char_boundary s x = true → snap_up fuel s x = x.
Proof. intros Hb. destruct fuel; cbn [snap_up]; [done|]. by rewrite Hb, andb_false_r. Qed.
Lemma snap_down_boundary s x : is_char_boundary s x = true → snap_down s x = x.
Proof. intros Hb. destruct x; cbn [snap_down]; by rewrite Hb. Qed.

Lemma safe_bounds_aligned s a z :
  is_char_boundary s a = true → is_char_boundary s z = true → (a ≤ z ≤ length s)%nat → safe_bounds s a z = (a, z).
Proof.
  intros Ha Hz Hl. unfold safe_bounds. cbv zeta. rewrite !Nat.min_l by lia. rewrite (proj2 (Nat.ltb_ge _ _)) by lia.
  by rewrite snap_down_boundary, snap_up_boundary.
Qed.

(** Boundaries of a part of a text are boundaries of the text. *)
Lemma boundary_within A B C i :
  is_char_boundary (utf8_encode B) i = true → (i ≤ length (utf8_encode B))%nat →
  is_char_boundary (utf8_encode (A ++ B ++ C)) (length (utf8_encode A) + i) = true.
Proof.
  intros Hb Hi. destruct (boundary_split B i Hb Hi) as (B1 & B2 & -> & ->).
  rewrite <- length_app, <- utf8_encode_app.
  replace (A ++ (B1 ++ B2) ++ C) with ((A ++ B1) ++ (B2 ++ C)) by (by rewrite <- !app_assoc).
  rewrite (utf8_encode_app (A ++ B1)). apply boundary_encode.
Qed.

(** ** Concrete runs *)

Definition demo_paragraphs : bytes := b "aaaa" ++ [10; 10]%N ++ b "bbbb" ++ [10; 10]%N ++ b "王小明".

Example demo_chunks :
  chunk_text demo_paragraphs 6
  = Some [(0, b "aaaa" ++ [10; 10]%N); (6, b "bbbb" ++ [10; 10]%N); (12, b "王小明")]%nat.
Proof. vm_compute. reflexivity. Qed.

Example demo_bounds : safe_bounds (b "王小明") 1 2 = (0, 3)%nat ∧ safe_slice (b "王小明") 5 1 = Some (b "王小").
Proof. by split; vm_compute. Qed.

Lemma demo_paragraphs_str : is_str demo_paragraphs.
Proof. exists (utf8_decode demo_paragraphs). split; vm_compute; reflexivity. Qed.

Lemma chunk_text_exact_witness :
  ∃ chunks, chunk_text demo_paragraphs 6 = Some chunks ∧ concat (map snd chunks) = demo_paragraphs.
Proof.
  destruct (chunk_text_exact demo_paragraphs 6 demo_paragraphs_str) as (chunks & Hc & Hcat & _).
  exists chunks. split; [exact Hc|exact Hcat].
Defined.

Lemma safe_bounds_snaps_witness : ∃ t, safe_slice demo_paragraphs 13 14 = Some t ∧ is_str t.
Proof.
  pose proof (safe_bounds_snaps demo_paragraphs 13 14 demo_paragraphs_str) as Hs. cbv zeta in Hs.
  destruct (safe_bounds demo_paragraphs 13 14) as [a z].
  destruct Hs as (_ & _ & _ & t & _ & Ht & Hst & _). exists t. split; [exact Ht|exact Hst].
Defined.
