(* ===== verification/NerDecode.v ===== *)
(** * Decoding the labels of the named-entity model
    (crates/duduclaw-redaction/src/ner/decode.rs)

    The model scores every token of a text with every label.  The decoder
    finds the best legal sequence of labels (a Viterbi pass over binary32
    scores) and turns it into spans of the text. *)

From S2P Require Import Prelude.
From S2P Require Import Bytes.
From S2P Require Import RedactToken.
From S2P Require Import Float32.

Inductive Tag := Tag_O | Tag_B | Tag_I | Tag_E | Tag_S.

#[export] Instance Tag_eq_dec : EqDecision Tag.
Proof. solve_decision. Defined.

Record LabelInfo := { label_name : bytes; tag : Tag; entity : bytes }.

Definition parse_label (name : bytes) : result LabelInfo bytes :=
  if ustr_eqb name (b "O") then Ok {| label_name := name; tag := Tag_O; entity := [] |}
  else
    match split_once name 45 with
    | None => Err (b "label '" ++ name ++ b "' is neither 'O' nor 'TAG-entity'")
    | Some (prefix, rest) =>
        let with_tag t := Ok {| label_name := name; tag := t; entity := rest |} in
        if ustr_eqb prefix (b "B") then with_tag Tag_B
        else if ustr_eqb prefix (b "I") then with_tag Tag_I
        else if ustr_eqb prefix (b "E") then with_tag Tag_E
        else if ustr_eqb prefix (b "S") then with_tag Tag_S
        else Err (b "unknown BIOES tag prefix '" ++ prefix ++ b "' in '" ++ name ++ b "'")
    end.

Fixpoint parse_labels_from (id2label : gmap nat bytes) (ids : list nat) : result (list LabelInfo) bytes :=
  match ids with
  | [] => Ok []
  | i :: r =>
      match id2label !! i with
      | None => Err (b "config.json id2label is not dense: missing id " ++ show_nat i)
      | Some name =>
          match parse_label name with
          | Err e => Err e
          | Ok l =>
              match parse_labels_from id2label r with Err e => Err e | Ok ls => Ok (l :: ls) end
          end
      end
  end.
Definition parse_labels (id2label : gmap nat bytes) : result (list LabelInfo) bytes :=
  let n := size id2label in
  if (n =? 0)%nat then Err (b "config.json id2label is empty") else parse_labels_from id2label (seq 0 n).

Record TransitionBias := {
  background_stay : f32;
  background_to_start : f32;
  end_to_background : f32;
  end_to_start : f32;
  inside_to_continue : f32;
  inside_to_end : f32;
}.
Definition TransitionBias_default : TransitionBias := {|
  background_stay := Num32 0; background_to_start := Num32 0; end_to_background := Num32 0;
  end_to_start := Num32 0; inside_to_continue := Num32 0; inside_to_end := Num32 0
|}.

Definition for_pair (self : TransitionBias) (from to : LabelInfo) : f32 :=
  match tag from, tag to with
  | Tag_O, Tag_O => background_stay self
  | Tag_O, (Tag_B | Tag_S) => background_to_start self
  | (Tag_E | Tag_S), Tag_O => end_to_background self
  | (Tag_E | Tag_S), (Tag_B | Tag_S) => end_to_start self
  | (Tag_B | Tag_I), Tag_I => inside_to_continue self
  | (Tag_B | Tag_I), Tag_E => inside_to_end self
  | _, _ => Num32 0
  end.

(** One entry of the legality matrix. *)
Definition transition (from to : LabelInfo) : bool :=
  match tag from with
  | Tag_O | Tag_E | Tag_S => match tag to with Tag_O | Tag_B | Tag_S => true | _ => false end
  | Tag_B | Tag_I => match tag to with Tag_I | Tag_E => ustr_eqb (entity to) (entity from) | _ => false end
  end.
Definition build_transitions (labels : list LabelInfo) : list (list bool) :=
  map (λ from, map (transition from) labels) labels.

Definition start_allowed (l : LabelInfo) : bool := match tag l with Tag_O | Tag_B | Tag_S => true | _ => false end.
Definition end_allowed (l : LabelInfo) : bool := match tag l with Tag_O | Tag_E | Tag_S => true | _ => false end.

(** Exponential and logarithm, as the platform computes them. *)
Class FloatMath := { f32_exp : f32 → f32; f32_ln : f32 → f32 }.

Definition log_softmax_row `{FloatMath} (row : list f32) : list f32 :=
  let max := foldl f32_max (Inf32 true) row in
  if negb (f32_is_finite max) then repeat (Num32 0) (length row)
  else
    let sum := foldl f32_add (Num32 0) (map (λ v, f32_exp (f32_sub v max)) row) in
    let lse := f32_add max (f32_ln sum) in
    map (λ v, f32_sub v lse) row.

(** ** The Viterbi pass

    A [None] is an index out of range. *)

(** [-1.0e30], rounded to binary32. *)
Definition NEG : f32 := Num32 (- (13234890 * 2 ^ 225)).

Example NEG_value : NEG = f32_of_Z (- 10 ^ 30).
Proof. vm_compute. reflexivity. Qed.

Section viterbi.
Variables (labels : list LabelInfo) (transitions : list (list bool)) (bias : TransitionBias).

(** The first row: scores of one-token paths. *)
Definition first_row (emission : list f32) : option (list f32) :=
  mapM (λ p : nat * LabelInfo, if start_allowed p.2 then emission !! p.1 else Some NEG)
    (zip (seq 0 (length labels)) labels).

(** One predecessor of [k]. *)
Definition pick_step (k : nat) (to : LabelInfo) (acc : f32 * nat) (p : nat * (LabelInfo * f32)) : option (f32 * nat) :=
  let '(j, (from, before)) := p in
  if f32_leb before NEG then Some acc
  else
    row ← transitions !! j; allowed ← row !! k;
    if negb allowed then Some acc
    else
      let score := f32_add before (for_pair bias from to) in
      Some (if f32_ltb acc.1 score then (score, j) else acc).
Fixpoint pick_loop (k : nat) (to : LabelInfo) (acc : f32 * nat) (ps : list (nat * (LabelInfo * f32)))
    : option (f32 * nat) :=
  match ps with
  | [] => Some acc
  | p :: r => acc' ← pick_step k to acc p; pick_loop k to acc' r
  end.
Definition pick (prev : list f32) (k : nat) (to : LabelInfo) : option (f32 * nat) :=
  pick_loop k to (NEG, 0%nat) (zip (seq 0 (length labels)) (zip labels prev)).

(** One cell, with its back pointer. *)
Definition cell (prev emission : list f32) (p : nat * LabelInfo) : option (f32 * nat) :=
  best ← pick prev p.1 p.2;
  if f32_ltb NEG best.1 then e ← emission !! p.1; Some (f32_add best.1 e, best.2) else Some (NEG, 0%nat).
Definition next_row (prev emission : list f32) : option (list (f32 * nat)) :=
  mapM (cell prev emission) (zip (seq 0 (length labels)) labels).

(** The rows after the first: the last scores, and the back pointers with the
    latest first. *)
Fixpoint forward (prev : list f32) (bps : list (list nat)) (emissions : list (list f32))
    : option (list f32 * list (list nat)) :=
  match emissions with
  | [] => Some (prev, bps)
  | emission :: r => row ← next_row prev emission; forward (map fst row) (map snd row :: bps) r
  end.

(** The best state among those that [keep] admits. *)
Definition better (keep : LabelInfo → bool) (acc : f32 * nat) (p : nat * (LabelInfo * f32)) : f32 * nat :=
  if keep p.2.1 && f32_ltb acc.1 p.2.2 then (p.2.2, p.1) else acc.
Definition best_state (keep : LabelInfo → bool) (last_row : list f32) : f32 * nat :=
  foldl (better keep) (NEG, 0%nat) (zip (seq 0 (length labels)) (zip labels last_row)).

Definition last_state (last_row : list f32) : nat :=
  let best := best_state end_allowed last_row in
  if f32_leb best.1 NEG then (best_state (λ _, true) last_row).2 else best.2.

(** The walk back. *)
Fixpoint trace (bps : list (list nat)) (k : nat) (path : list nat) : option (list nat) :=
  match bps with
  | [] => Some (k :: path)
  | row :: r => j ← row !! k; trace r j (k :: path)
  end.

Definition viterbi (emissions : list (list f32)) : option (list nat) :=
  match emissions with
  | [] => Some []
  | emission :: r =>
      if is_empty labels then Some []
      else
        row ← first_row emission;
        fin ← forward row [] r;
        trace fin.2 (last_state fin.1) []
  end.
End viterbi.

(** ** Spans

    Offsets are bytes of the text that was scored. *)

Record RawSpan := { raw_label : bytes; raw_start : nat; raw_end : nat }.

(** The entity that is open: its label, start and end. *)
Abbreviation open_entity := (option (bytes * nat * nat)).

Definition flush (open : open_entity) (spans : list RawSpan) : list RawSpan :=
  match open with
  | Some (l, s, e) => spans ++ [{| raw_label := l; raw_start := s; raw_end := e |}]
  | None => spans
  end.

(** Going on with an entity, or opening one. *)
Definition extend (l : LabelInfo) (o : nat * nat) (open : open_entity) (spans : list RawSpan)
    : open_entity * list RawSpan :=
  match open with
  | Some (ent, s, e) =>
      if ustr_eqb ent (entity l) then (Some (ent, s, o.2), spans)
      else (Some (entity l, o.1, o.2), flush open spans)
  | None => (Some (entity l, o.1, o.2), spans)
  end.

Definition span_step (st : open_entity * list RawSpan) (p : LabelInfo * (nat * nat)) : open_entity * list RawSpan :=
  let '(l, o) := p in
  let '(open, spans) := st in
  match tag l with
  | Tag_O => (None, flush open spans)
  | Tag_S => (None, flush open spans ++ [{| raw_label := entity l; raw_start := o.1; raw_end := o.2 |}])
  | Tag_B => (Some (entity l, o.1, o.2), flush open spans)
  | Tag_I => extend l o open spans
  | Tag_E => let '(open', spans') := extend l o open spans in (None, flush open' spans')
  end.

(** A label index or a token without an entry is passed over. *)
Definition token_at (labels : list LabelInfo) (offsets : list (nat * nat)) (p : nat * nat) : option (LabelInfo * (nat * nat)) :=
  l ← labels !! p.2; o ← offsets !! p.1; Some (l, o).

Definition path_to_spans (path : list nat) (labels : list LabelInfo) (offsets : list (nat * nat)) : list RawSpan :=
  let st := foldl span_step (None, []) (omap (token_at labels offsets) (zip (seq 0 (length path)) path)) in
  retain (λ s, raw_start s <? raw_end s)%nat (flush st.1 st.2).

Lemma NEG_number : NEG ≠ NaN32.
Proof. discriminate. Qed.
#[global] Opaque NEG.

(** ** Legal paths and their scores *)

(** A path of legal steps over the scores [es], the label it ends on and its
    score, which adds up from the left and stays above [NEG] all the way. *)
Inductive walk (labels : list LabelInfo) (bias : TransitionBias)
  : list (list f32) → list nat → nat → f32 → Prop :=
| walk_start row k l s :
    labels !! k = Some l → start_allowed l = true → row !! k = Some s → f32_ltb NEG s = true →
    walk labels bias [row] [k] k s
| walk_step es path j from s row k to e :
    walk labels bias es path j s → labels !! j = Some from → labels !! k = Some to → transition from to = true →
    f32_ltb NEG (f32_add s (for_pair bias from to)) = true → row !! k = Some e →
    f32_ltb NEG (f32_add (f32_add s (for_pair bias from to)) e) = true →
    walk labels bias (es ++ [row]) (path ++ [k]) k (f32_add (f32_add s (for_pair bias from to)) e).

Lemma walk_above labels bias es path k s : walk labels bias es path k s → f32_ltb NEG s = true.
Proof. by destruct 1. Qed.

Lemma walk_length labels bias es path k s : walk labels bias es path k s → length path = length es.
Proof. induction 1; [done|]. rewrite !length_app. cbn. lia. Qed.

Lemma walk_label labels bias es path k s : walk labels bias es path k s → ∃ l, labels !! k = Some l.
Proof. by destruct 1; eexists. Qed.

(** ** Enumerated rows *)

Lemma lookup_enumerate {A} (l : list A) i : zip (seq 0 (length l)) l !! i = (λ x, (i, x)) <$> l !! i.
Proof.
  rewrite lookup_zip_with. destruct (l !! i) as [x|] eqn:E.
  - by rewrite lookup_seq_lt by (by eapply lookup_lt_Some).
  - by destruct (seq 0 (length l) !! i) as [j|].
Qed.

Lemma elem_of_enumerate {A} (l : list A) i x : (i, x) ∈ zip (seq 0 (length l)) l ↔ l !! i = Some x.
Proof.
  rewrite list_elem_of_lookup. setoid_rewrite lookup_enumerate. split.
  - intros (j & (y & Hy & [= -> ->])%fmap_Some). done.
  - intros Hl. exists i. by rewrite Hl.
Qed.

Lemma elem_of_scored {B} (labels : list LabelInfo) (row : list B) i l x :
  length row = length labels →
  (i, (l, x)) ∈ zip (seq 0 (length labels)) (zip labels row) ↔ labels !! i = Some l ∧ row !! i = Some x.
Proof.
  intros Hl. replace (length labels) with (length (zip labels row)) by (rewrite length_zip_with; lia).
  rewrite elem_of_enumerate, lookup_zip_with. split.
  - intros (a & Ha & (c & Hc & [= <- <-])%bind_Some)%bind_Some. done.
  - intros [-> ->]. done.
Qed.

(** A row made cell by cell. *)
Lemma mapM_enumerate {A B} (f : nat * A → option B) (l : list A) :
  (∀ i x, l !! i = Some x → ∃ y, f (i, x) = Some y) →
  ∃ ys, mapM f (zip (seq 0 (length l)) l) = Some ys ∧ length ys = length l
    ∧ ∀ i y, ys !! i = Some y ↔ ∃ x, l !! i = Some x ∧ f (i, x) = Some y.
Proof.
  intros Hf. destruct (mapM f (zip (seq 0 (length l)) l)) as [ys|] eqn:E.
  - apply mapM_Some in E. exists ys. split; [done|].
    assert (length ys = length l) as Hl.
    { apply Forall2_length in E. rewrite length_zip_with, length_seq in E. lia. }
    split; [done|]. intros i y. split.
    + intros Hy. destruct (Forall2_lookup_r _ _ _ _ _ E Hy) as (p & Hp & Hfp). rewrite lookup_enumerate in Hp.
      apply fmap_Some in Hp as (x & Hx & ->). by exists x.
    + intros (x & Hx & Hy). destruct (Forall2_lookup_l _ _ _ i (i, x) E) as (y' & Hy' & Hfy').
      { rewrite lookup_enumerate, Hx. done. }
      congruence.
  - exfalso. apply mapM_None in E. apply Exists_exists in E as ([i x] & Hin & Hn).
    apply list_elem_of_In, elem_of_enumerate in Hin. destruct (Hf i x Hin) as [y Hy]. congruence.
Qed.

Lemma trace_acc bps : ∀ k acc, trace bps k acc = (λ p, p ++ acc) <$> trace bps k [].
Proof.
  induction bps as [|row bps IH]; intros k acc; cbn [trace]; [done|].
  destruct (row !! k) as [j|]; cbn; [|done]. rewrite IH, (IH j [k]). destruct (trace bps j []); cbn; [|done].
  by rewrite <- app_assoc.
Qed.

Section optimal.
Variables (labels : list LabelInfo) (bias : TransitionBias).
Local Abbreviation transitions := (build_transitions labels).

Lemma lookup_transitions j k from to :
  labels !! j = Some from → labels !! k = Some to →
  ∃ row, transitions !! j = Some row ∧ row !! k = Some (transition from to).
Proof.
  intros Hj Hk. exists (map (transition from) labels). unfold build_transitions. split.
  - rewrite list_lookup_fmap, Hj. done.
  - rewrite list_lookup_fmap, Hk. done.
Qed.

(** A predecessor that counts, and the score it gives. *)
Definition candidate (prev : list f32) (to : LabelInfo) (j : nat) (score : f32) : Prop :=
  ∃ from s, labels !! j = Some from ∧ prev !! j = Some s ∧ f32_leb s NEG = false ∧ transition from to = true
    ∧ score = f32_add s (for_pair bias from to).

(** One predecessor: what it makes of the best so far. *)
Lemma pick_step_spec prev k to acc j from s :
  labels !! k = Some to → acc.1 ≠ NaN32 → labels !! j = Some from → prev !! j = Some s →
  ∃ acc', pick_step transitions bias k to acc (j, (from, s)) = Some acc'
    ∧ acc'.1 ≠ NaN32 ∧ f32_leb acc.1 acc'.1 = true
    ∧ (acc' = acc ∨ (f32_ltb acc.1 acc'.1 = true ∧ candidate prev to acc'.2 acc'.1))
    ∧ (f32_leb s NEG = false → transition from to = true → f32_add s (for_pair bias from to) ≠ NaN32 →
         f32_leb (f32_add s (for_pair bias from to)) acc'.1 = true).
Proof.
  intros Hk Hacc Hj Hs. pose proof (f32_leb_refl _ Hacc) as Hrefl. unfold pick_step.
  destruct (f32_leb s NEG) eqn:Es; [exists acc; split_and!; [done|done|done|by left|done]|].
  destruct (lookup_transitions j k from to Hj Hk) as (row & -> & Hval). cbn. rewrite Hval. cbn.
  destruct (transition from to) eqn:Et; cbn; [|exists acc; split_and!; [done|done|done|by left|done]].
  eexists. split; [done|]. destruct (f32_ltb acc.1 (f32_add s (for_pair bias from to))) eqn:El; cbn.
  - split_and!; [by destruct (f32_ltb_number _ _ El)|by apply f32_lt_le| |intros; by apply f32_leb_refl].
    right. split; [done|]. by exists from, s.
  - split_and!; [done|done|by left|]. intros _ _ Hn. by apply f32_not_ltb.
Qed.

(** The best predecessor: [acc] when none is better. *)
Lemma pick_loop_spec prev k to ps : ∀ acc,
  labels !! k = Some to → acc.1 ≠ NaN32 →
  (∀ j from s, (j, (from, s)) ∈ ps → labels !! j = Some from ∧ prev !! j = Some s) →
  ∃ res, pick_loop transitions bias k to acc ps = Some res
    ∧ res.1 ≠ NaN32 ∧ f32_leb acc.1 res.1 = true
    ∧ (res = acc ∨ (f32_ltb acc.1 res.1 = true ∧ candidate prev to res.2 res.1))
    ∧ ∀ j from s, (j, (from, s)) ∈ ps → f32_leb s NEG = false → transition from to = true →
        f32_add s (for_pair bias from to) ≠ NaN32 → f32_leb (f32_add s (for_pair bias from to)) res.1 = true.
Proof.
  induction ps as [|[j [from s]] ps IH]; intros acc Hk Hacc Hps; cbn [pick_loop].
  { exists acc. split_and!; [done|done|by apply f32_leb_refl|by left|by intros ? ? ? ?%elem_of_nil]. }
  destruct (Hps j from s) as [Hj Hs]; [by left|].
  destruct (pick_step_spec prev k to acc j from s Hk Hacc Hj Hs) as (acc' & -> & Hn & Hle & Hor & Hhead).
  destruct (IH acc' Hk Hn) as (res & Hres & Hrn & Hle' & Hor' & Hall); [intros; apply Hps; by right|].
  exists res. cbn. rewrite Hres. split_and!; [done|done|by eapply f32_leb_trans| |].
  - destruct Hor' as [->|[Hlt Hc]]; [done|]. right. split; [|done].
    destruct Hor as [->|[Hlt' _]]; [done|]. by eapply f32_lt_le_trans; [|apply f32_lt_le].
  - intros j' from' s' [[= -> -> ->]|Hin]%elem_of_cons H1 H2 H3; [|by eapply Hall].
    eapply f32_leb_trans; [by apply Hhead|done].
Qed.

(** What a row of scores and the pointers behind it hold. *)
Record row_ok (es : list (list f32)) (row : list f32) (bps : list (list nat)) : Prop := {
  row_length : length row = length labels;
  row_bounds : ∀ path k s, walk labels bias es path k s → ∃ v, row !! k = Some v ∧ f32_leb s v = true;
  row_reached : ∀ k v, row !! k = Some v → f32_ltb NEG v = true →
    ∃ path, trace bps k [] = Some path ∧ walk labels bias es path k v;
  row_traced : ∀ k, (k < length labels)%nat →
    ∃ path, trace bps k [] = Some path ∧ length path = length es ∧ Forall (λ j, (j < length labels)%nat) path;
}.

Lemma first_row_ok emission :
  length emission = length labels → ∃ row, first_row labels emission = Some row ∧ row_ok [emission] row [].
Proof.
  intros Hl. unfold first_row.
  destruct (mapM_enumerate (λ p : nat * LabelInfo, if start_allowed p.2 then emission !! p.1 else Some NEG) labels)
    as (row & -> & Hrow & Hlook).
  { intros i l Hi. cbn. destruct (start_allowed l); [|by eexists]. apply lookup_lt_is_Some_2. rewrite Hl. by eapply lookup_lt_Some. }
  exists row. split; [done|]. split; [done| | |].
  - intros path k s Hw. inversion Hw as [e k' l s' Hk Hst He Hlt|es ? ? ? ? ? ? ? ? Hw']; subst.
    + exists s. split; [|by apply f32_leb_refl; destruct (f32_ltb_number _ _ Hlt)]. apply Hlook. exists l. split; [done|].
      cbn. by rewrite Hst.
    + assert (es = []) as -> by (destruct es as [|? []]; done). inversion Hw'; by destruct es.
  - intros k v Hk Hv. exists [k]. split; [done|]. apply Hlook in Hk as (l & Hl' & Hs). cbn in Hs.
    destruct (start_allowed l) eqn:Est; [by econstructor|]. apply (inj Some) in Hs as <-. by rewrite f32_ltb_irrefl in Hv.
  - intros k Hk. exists [k]. split_and!; [done|done|]. by constructor.
Qed.

(** A longer walk, seen from the row it came from. *)
Lemma walk_before es prev bps emission path k to s :
  row_ok es prev bps → es ≠ [] → labels !! k = Some to → walk labels bias (es ++ [emission]) path k s →
  ∃ j from v e, (labels !! j = Some from ∧ prev !! j = Some v) ∧ f32_leb v NEG = false ∧ transition from to = true
    ∧ f32_add v (for_pair bias from to) ≠ NaN32 ∧ emission !! k = Some e
    ∧ ∃ a, s = f32_add a e ∧ f32_ltb NEG a = true ∧ f32_ltb NEG s = true
        ∧ f32_leb a (f32_add v (for_pair bias from to)) = true.
Proof.
  intros Hok Hes Hk Hw.
  inversion Hw as [? ? ? ? ? ? ? ? E|es' path' j from s' row ? to' e Hw' Hj Hto Ht Hlt He Hlt2 E]; subst.
  { apply (f_equal length) in E. rewrite length_app in E. destruct es; [done|cbn in E; lia]. }
  apply app_inj_2 in E as [-> [= ->]]; [|done]. replace to' with to in * by congruence.
  destruct (row_bounds _ _ _ Hok _ _ _ Hw') as (v & Hv & Hsv).
  pose proof (f32_add_mono _ _ (for_pair bias from to) _ Hsv Hlt) as Hm.
  exists j, from, v, e. split_and!; [done|done| |done|by destruct (f32_leb_number _ _ Hm)|done|].
  - apply f32_ltb_not_leb. eapply f32_lt_le_trans; [by eapply walk_above|done].
  - by exists (f32_add s' (for_pair bias from to)).
Qed.

(** One cell of the next row. *)
Lemma cell_spec es prev bps emission k to :
  row_ok es prev bps → es ≠ [] → length emission = length labels → labels !! k = Some to →
  ∃ v j, cell labels (build_transitions labels) bias prev emission (k, to) = Some (v, j) ∧ (j < length labels)%nat
    ∧ (f32_ltb NEG v = true → ∃ path, trace bps j [] = Some path ∧ walk labels bias (es ++ [emission]) (path ++ [k]) k v)
    ∧ ∀ path s, walk labels bias (es ++ [emission]) path k s → f32_leb s v = true.
Proof.
  intros Hok Hes Hl Hk. pose proof NEG_number as HN. unfold cell, pick. cbn [fst snd].
  destruct (pick_loop_spec prev k to (zip (seq 0 (length labels)) (zip labels prev)) (NEG, 0%nat) Hk HN)
    as (res & -> & Hrn & Hle & Hor & Hall).
  { intros j from s. rewrite elem_of_scored by apply Hok. done. }
  pose proof (lookup_lt_Some _ _ _ Hk) as Hkl. cbn. destruct (f32_ltb NEG res.1) eqn:Er.
  - destruct Hor as [->|[_ (from & s & Hj & Hs & Hns & Ht & Heq)]]; [by rewrite f32_ltb_irrefl in Er|].
    destruct (lookup_lt_is_Some_2 emission k) as [e He]; [by rewrite Hl|]. rewrite He. cbn.
    exists (f32_add res.1 e), res.2. split_and!; [done|by eapply lookup_lt_Some| |].
    + intros Hv. destruct (row_reached _ _ _ Hok _ _ Hs) as (path & Htr & Hw).
      { apply f32_not_leb; [|done|done]. rewrite Heq in Hrn. by destruct (f32_add_number _ _ Hrn). }
      exists path. split; [done|]. rewrite Heq in *. by econstructor.
    + intros path s' Hw. destruct (walk_before _ _ _ _ _ _ _ _ Hok Hes Hk Hw)
        as (j & from' & v & e' & Hjv & Hv & Ht' & Hn & He' & a & -> & Ha & Hs' & Hle').
      replace e' with e in * by congruence. eapply f32_add_mono; [|done].
      eapply f32_leb_trans; [done|]. apply (Hall j from' v); [by apply elem_of_scored; [apply Hok|]|done..].
  - exists NEG, 0%nat. split_and!; [done|lia|by rewrite f32_ltb_irrefl|]. intros path s Hw. exfalso.
    destruct (walk_before _ _ _ _ _ _ _ _ Hok Hes Hk Hw)
      as (j & from & v & e & Hjv & Hv & Ht & Hn & He & a & -> & Ha & Hs & Hle').
    assert (f32_leb a res.1 = true) as Hlt.
    { eapply f32_leb_trans; [done|]. apply (Hall j from v); [by apply elem_of_scored; [apply Hok|]|done..]. }
    rewrite (f32_lt_le_trans _ _ _ Ha Hlt) in Er. done.
Qed.

Lemma next_row_ok es prev bps emission :
  row_ok es prev bps → es ≠ [] → length emission = length labels →
  ∃ row, next_row labels (build_transitions labels) bias prev emission = Some row
    ∧ row_ok (es ++ [emission]) (map fst row) (map snd row :: bps).
Proof.
  intros Hok Hes Hl. unfold next_row.
  destruct (mapM_enumerate (cell labels (build_transitions labels) bias prev emission) labels) as (row & -> & Hrow & Hlook).
  { intros k to Hk. destruct (cell_spec _ _ _ _ _ _ Hok Hes Hl Hk) as (v & j & Hc & _). by eexists. }
  assert (∀ k v, map fst row !! k = Some v ↔ ∃ to j, labels !! k = Some to
    ∧ cell labels (build_transitions labels) bias prev emission (k, to) = Some (v, j) ∧ map snd row !! k = Some j) as Hcell.
  { intros k v. rewrite list_lookup_fmap. split.
    - intros ([v' j] & Hj & ->)%fmap_Some. pose proof Hj as Hj'. apply Hlook in Hj' as (to & Hto & Hc). exists to, j.
      split_and!; [done|done|]. by rewrite list_lookup_fmap, Hj.
    - intros (to & j & Hto & Hc & _). assert (row !! k = Some (v, j)) as -> by (apply Hlook; by exists to). done. }
  exists row. split; [done|]. split.
  - by rewrite length_map.
  - intros path k s Hw. destruct (walk_label _ _ _ _ _ _ Hw) as [to Hto].
    destruct (cell_spec _ _ _ _ _ _ Hok Hes Hl Hto) as (v & j & Hc & _ & _ & Hb). exists v. split; [|by eapply Hb].
    rewrite list_lookup_fmap. assert (row !! k = Some (v, j)) as -> by (apply Hlook; by exists to). done.
  - intros k v (to & j & Hto & Hc & Hj)%Hcell Hv.
    destruct (cell_spec _ _ _ _ _ _ Hok Hes Hl Hto) as (v' & j' & Hc' & _ & Hr & _).
    rewrite Hc in Hc'. injection Hc' as <- <-. destruct (Hr Hv) as (path & Htr & Hw). exists (path ++ [k]).
    split; [|done]. cbn [trace]. rewrite Hj. cbn. by rewrite trace_acc, Htr.
  - intros k Hk. destruct (lookup_lt_is_Some_2 labels k Hk) as [to Hto].
    destruct (cell_spec _ _ _ _ _ _ Hok Hes Hl Hto) as (v & j & Hc & Hj & _).
    assert (row !! k = Some (v, j)) as Hkr by (apply Hlook; by exists to).
    destruct (row_traced _ _ _ Hok j Hj) as (path & Htr & Hlen & Hin). exists (path ++ [k]). cbn [trace].
    rewrite list_lookup_fmap, Hkr. cbn. rewrite trace_acc, Htr. split_and!; [done|rewrite !length_app; cbn; lia|].
    apply Forall_app. split; [done|]. by constructor.
Qed.

Lemma forward_ok rest : ∀ es prev bps,
  row_ok es prev bps → es ≠ [] → Forall (λ row : list f32, length row = length labels) rest →
  ∃ row bps', forward labels (build_transitions labels) bias prev bps rest = Some (row, bps') ∧ row_ok (es ++ rest) row bps'.
Proof.
  induction rest as [|emission rest IH]; intros es prev bps Hok Hes Hr; cbn [forward].
  { exists prev, bps. by rewrite app_nil_r. }
  inversion Hr as [|? ? Hl Hr']; subst. destruct (next_row_ok _ _ _ _ Hok Hes Hl) as (row & -> & Hrow). cbn.
  destruct (IH _ _ _ Hrow) as (row' & bps' & Hf & Hok'); [by destruct es|done|].
  exists row', bps'. split; [done|]. by rewrite <- app_assoc in Hok'.
Qed.

(** The best state of a row. *)
Lemma better_spec keep acc k l v :
  acc.1 ≠ NaN32 →
  let acc' := better keep acc (k, (l, v)) in
  acc'.1 ≠ NaN32 ∧ f32_leb acc.1 acc'.1 = true
  ∧ (acc' = acc ∨ (f32_ltb acc.1 acc'.1 = true ∧ acc' = (v, k) ∧ keep l = true))
  ∧ (keep l = true → v ≠ NaN32 → f32_leb v acc'.1 = true).
Proof.
  intros Hacc. unfold better. cbn [fst snd]. destruct (keep l) eqn:Ek; cbn [andb].
  - destruct (f32_ltb acc.1 v) eqn:Ev; cbn [fst snd].
    + destruct (f32_ltb_number _ _ Ev) as [_ Hv]. split_and!; [done|by apply f32_lt_le|by right|intros; by apply f32_leb_refl].
    + split_and!; [done|by apply f32_leb_refl|by left|intros; by apply f32_not_ltb].
  - split_and!; [done|by apply f32_leb_refl|by left|done].
Qed.

Lemma best_fold_spec keep ps : ∀ acc,
  acc.1 ≠ NaN32 →
  let best := foldl (better keep) acc ps in
  best.1 ≠ NaN32 ∧ f32_leb acc.1 best.1 = true
  ∧ (best = acc ∨ (f32_ltb acc.1 best.1 = true ∧ ∃ l, (best.2, (l, best.1)) ∈ ps ∧ keep l = true))
  ∧ ∀ k l v, (k, (l, v)) ∈ ps → keep l = true → v ≠ NaN32 → f32_leb v best.1 = true.
Proof.
  induction ps as [|[k [l v]] ps IH]; intros acc Hacc; cbn [foldl].
  { split_and!; [done|by apply f32_leb_refl|by left|by intros ? ? ? ?%elem_of_nil]. }
  destruct (better_spec keep acc k l v Hacc) as (Hn & Hle & Hor & Hhead).
  destruct (IH (better keep acc (k, (l, v))) Hn) as (Hn' & Hle' & Hor' & Hall). split_and!.
  - done.
  - by eapply f32_leb_trans.
  - destruct Hor' as [Heq|[Hlt (l' & Hin & Hk')]].
    + rewrite Heq. destruct Hor as [|(Hlt & Hacc' & Hk)]; [by left|]. right. split; [done|]. exists l. rewrite Hacc'.
      split; [by left|done].
    + right. destruct Hor as [Hacc'|(Hlt' & _)].
      * rewrite Hacc' in *. split; [done|]. exists l'. split; [by right|done].
      * split; [by eapply f32_lt_le_trans; [|apply f32_lt_le]|]. exists l'. split; [by right|done].
  - intros k' l' v' [[= -> -> ->]|Hin]%elem_of_cons Hk' Hv'; [|by eapply Hall].
    eapply f32_leb_trans; [by apply Hhead|done].
Qed.

Lemma best_state_spec keep row :
  length row = length labels →
  let best := best_state labels keep row in
  (best = (NEG, 0%nat) ∨ (f32_ltb NEG best.1 = true ∧ row !! best.2 = Some best.1
                          ∧ ∃ l, labels !! best.2 = Some l ∧ keep l = true))
  ∧ ∀ k l v, labels !! k = Some l → keep l = true → row !! k = Some v → v ≠ NaN32 → f32_leb v best.1 = true.
Proof.
  intros Hl. unfold best_state.
  destruct (best_fold_spec keep (zip (seq 0 (length labels)) (zip labels row)) (NEG, 0%nat) NEG_number) as (_ & _ & Hor & Hall).
  split.
  - destruct Hor as [|[Hlt (l & Hin & Hk)]]; [by left|]. right. apply elem_of_scored in Hin as [Hlab Hv]; [|done].
    split_and!; [done|done|by exists l].
  - intros k l v Hk Hkeep Hv Hn. by apply (Hall k l v); [apply elem_of_scored|..].
Qed.
End optimal.

Lemma viterbi_best labels bias emissions :
  labels ≠ [] → Forall (λ row : list f32, length row = length labels) emissions →
  ∃ path, viterbi labels (build_transitions labels) bias emissions = Some path
    ∧ length path = length emissions ∧ Forall (λ k, (k < length labels)%nat) path
    ∧ ∀ q k s l, walk labels bias emissions q k s → labels !! k = Some l → end_allowed l = true →
        ∃ k' s' l', walk labels bias emissions path k' s' ∧ labels !! k' = Some l' ∧ end_allowed l' = true
          ∧ f32_leb s s' = true.
Proof.
  intros Hne Hrows. destruct emissions as [|emission rest].
  { exists []. split_and!; [done|done|done|]. intros q k s l Hw. inversion Hw as [| ? ? ? ? ? ? ? ? ? ? ? ? ? ? ? ? Ha].
    by destruct es. }
  inversion Hrows as [|? ? Hl Hr]; subst. unfold viterbi.
  destruct (is_empty labels) eqn:Ee; [by destruct labels|].
  destruct (first_row_ok labels bias emission Hl) as (row & -> & Hok). cbn.
  destruct (forward_ok labels bias rest _ _ _ Hok) as (fin & bps & -> & Hfin); [done|done|]. cbn.
  assert (last_state labels fin < length labels)%nat as Hlast.
  { unfold last_state. cbv zeta. assert (0 < length labels)%nat as Hpos by (destruct labels; [done|cbn; lia]).
    assert (∀ keep, (best_state labels keep fin).2 < length labels)%nat as Hb; [|by case_match].
    intros keep. destruct (best_state_spec labels keep fin (row_length _ _ _ _ _ Hfin)) as [[->|(_ & _ & l & Hl' & _)] _];
      [done|by eapply lookup_lt_Some]. }
  destruct (row_traced _ _ _ _ _ Hfin _ Hlast) as (path & Htr & Hlen & Hin).
  exists path. split_and!; [done|done|done|]. intros q k s l Hw Hk Hend.
  destruct (row_bounds _ _ _ _ _ Hfin _ _ _ Hw) as (v & Hv & Hsv).
  destruct (best_state_spec labels end_allowed fin (row_length _ _ _ _ _ Hfin)) as [Hor Hall].
  assert (f32_leb v (best_state labels end_allowed fin).1 = true) as Hb.
  { eapply Hall; [done|done|done|]. by destruct (f32_leb_number _ _ Hsv). }
  assert (f32_ltb NEG (best_state labels end_allowed fin).1 = true) as Habove.
  { eapply f32_lt_le_trans; [|done]. eapply f32_lt_le_trans; [by eapply walk_above|done]. }
  destruct Hor as [Heq|(_ & Hat & l' & Hl' & Hend')]; [by rewrite Heq, f32_ltb_irrefl in Habove|].
  unfold last_state in Htr. cbv zeta in Htr. rewrite (f32_ltb_not_leb _ _ Habove) in Htr.
  destruct (row_reached _ _ _ _ _ Hfin _ _ Hat Habove) as (path' & Htr' & Hw'). rewrite Htr in Htr'. injection Htr' as <-.
  eexists _, _, l'. split_and!; [done|done|done|]. by eapply f32_leb_trans.
Qed.

(** C36 The decoder finds the best legal labelling.  On rows of scores of the
    right width it comes to a path with a label for every token, without an
    index out of range; and if any legal path has a score that stays above
    -1e30, the path it returns is legal, and its score is the greatest of all
    legal paths, in the binary32 arithmetic of the code. *)
Theorem viterbi_optimal labels bias emissions :
  labels ≠ [] → Forall (λ row : list f32, length row = length labels) emissions →
  ∃ path, viterbi labels (build_transitions labels) bias emissions = Some path
    ∧ length path = length emissions ∧ Forall (λ k, (k < length labels)%nat) path
    ∧ ∀ q k s l, walk labels bias emissions q k s → labels !! k = Some l → end_allowed l = true →
        ∃ k' s' l', walk labels bias emissions path k' s' ∧ labels !! k' = Some l' ∧ end_allowed l' = true
          ∧ f32_leb s s' = true.
Proof. apply viterbi_best. Qed.

(** ** What the spans are *)

(** The entities of a labelled text. *)
Inductive entities : list (LabelInfo * (nat * nat)) → list RawSpan → Prop :=
| ents_nil : entities [] []
| ents_outside l o r ss : tag l = Tag_O → entities r ss → entities ((l, o) :: r) ss
| ents_single l o r ss :
    tag l = Tag_S → entities r ss →
    entities ((l, o) :: r) ({| raw_label := entity l; raw_start := o.1; raw_end := o.2 |} :: ss)
| ents_group lb ob inside le oe r ss :
    tag lb = Tag_B → Forall (λ p : LabelInfo * (nat * nat), tag p.1 = Tag_I ∧ entity p.1 = entity lb) inside →
    tag le = Tag_E → entity le = entity lb → entities r ss →
    entities ((lb, ob) :: inside ++ (le, oe) :: r)
      ({| raw_label := entity lb; raw_start := ob.1; raw_end := oe.2 |} :: ss).

(** Legal sequences of labels. *)
Definition legal (ls : list LabelInfo) : Prop :=
  (∀ l, head ls = Some l → start_allowed l = true)
  ∧ (∀ i x y, ls !! i = Some x → ls !! S i = Some y → transition x y = true)
  ∧ (∀ l, list.last ls = Some l → end_allowed l = true).

Lemma extend_inside inside : ∀ ent s e spans,
  Forall (λ p : LabelInfo * (nat * nat), tag p.1 = Tag_I ∧ entity p.1 = ent) inside →
  ∃ e', foldl span_step (Some (ent, s, e), spans) inside = (Some (ent, s, e'), spans).
Proof.
  induction inside as [|[l o] inside IH]; intros ent s e spans Hi; cbn [foldl]; [by exists e|].
  inversion Hi as [|? ? [Ht He] Hi']; subst. cbn [fst] in Ht |- *. unfold span_step at 2. rewrite Ht. unfold extend.
  rewrite ustr_eqb_refl. by apply IH.
Qed.

Lemma entities_spans items ss :
  entities items ss → ∀ spans, foldl span_step (None, spans) items = (None, spans ++ ss).
Proof.
  induction 1 as [|l o r ss Ht Hr IH|l o r ss Ht Hr IH|lb ob inside le oe r ss Hb Hi He Hent Hr IH]; intros spans.
  - cbn. by rewrite app_nil_r.
  - cbn. rewrite Ht. apply IH.
  - cbn. rewrite Ht. cbn [flush]. rewrite IH, <- app_assoc. done.
  - cbn [foldl]. unfold span_step at 2. rewrite Hb. cbn [flush]. rewrite foldl_app.
    destruct (extend_inside inside (entity lb) ob.1 ob.2 spans Hi) as [e ->]. cbn [foldl]. unfold span_step at 2.
    rewrite He. unfold extend. rewrite <- Hent, ustr_eqb_refl. cbn [flush]. rewrite IH, <- app_assoc. done.
Qed.

(** The rest of an entity that has begun. *)
Lemma group_rest items : ∀ from,
  tag from = Tag_B ∨ tag from = Tag_I →
  (∀ i x y, (from :: map fst items) !! i = Some x → (from :: map fst items) !! S i = Some y → transition x y = true) →
  (∀ l, list.last (from :: map fst items) = Some l → end_allowed l = true) →
  ∃ inside le oe r, items = inside ++ (le, oe) :: r
    ∧ Forall (λ p : LabelInfo * (nat * nat), tag p.1 = Tag_I ∧ entity p.1 = entity from) inside
    ∧ tag le = Tag_E ∧ entity le = entity from.
Proof.
  induction items as [|[l o] items IH]; intros from Hf Ht Hl.
  { specialize (Hl from eq_refl). unfold end_allowed in Hl. by destruct Hf as [Hf|Hf]; rewrite Hf in Hl. }
  pose proof (Ht 0%nat from l eq_refl eq_refl) as Hstep. unfold transition in Hstep.
  assert (∃ t, tag l = t ∧ (t = Tag_I ∨ t = Tag_E) ∧ entity l = entity from) as (t & Htl & Hor & He).
  { exists (tag l). split; [done|]. destruct Hf as [Hf|Hf]; rewrite Hf in Hstep; destruct (tag l); try done;
      apply bool_decide_eq_true in Hstep; auto. }
  destruct Hor as [->| ->].
  - destruct (IH l) as (inside & le & oe & r & -> & Hi & Hle & Hee); [by right| | |].
    + intros i x y Hx Hy. by apply (Ht (S i)).
    + intros x Hx. apply Hl. cbn [map fst] in *. by rewrite last_cons, Hx.
    + exists ((l, o) :: inside), le, oe, r. split_and!; [done| |done|congruence]. constructor; [done|].
      eapply List.Forall_impl; [|exact Hi]. cbn. intros p [? ?]. split; [done|congruence].
  - exists [], l, o, items. split_and!; [done|by constructor|done|done].
Qed.

Lemma legal_tail l ls : legal (l :: ls) → tag l = Tag_O ∨ tag l = Tag_E ∨ tag l = Tag_S → legal ls.
Proof.
  intros (_ & Ht & Hl) Htag. split_and!.
  - intros x Hx. destruct ls as [|y ls]; [done|]. injection Hx as ->. pose proof (Ht 0%nat l x eq_refl eq_refl) as Hs.
    unfold transition in Hs. unfold start_allowed. destruct Htag as [E|[E|E]]; rewrite E in Hs; by destruct (tag x).
  - intros i x y Hx Hy. by apply (Ht (S i)).
  - intros x Hx. apply Hl. by rewrite last_cons, Hx.
Qed.

Lemma legal_suffix ls ls' l :
  legal (ls ++ l :: ls') → tag l = Tag_E → legal ls'.
Proof.
  intros Hleg Hl. assert (∀ i x y, (l :: ls') !! i = Some x → (l :: ls') !! S i = Some y → transition x y = true) as Ht.
  { intros i x y Hx Hy. destruct Hleg as (_ & Ht & _). apply (Ht (length ls + i)%nat).
    - by rewrite lookup_app_r, Nat.add_sub' by lia.
    - rewrite lookup_app_r by lia. by replace (S (length ls + i) - length ls)%nat with (S i) by lia. }
  split_and!.
  - intros x Hx. destruct ls' as [|y ls']; [done|]. injection Hx as ->. pose proof (Ht 0%nat l x eq_refl eq_refl) as Hs.
    unfold transition in Hs. rewrite Hl in Hs. unfold start_allowed. by destruct (tag x).
  - intros i x y Hx Hy. by apply (Ht (S i)).
  - intros x Hx. destruct Hleg as (_ & _ & Hla). apply Hla. by rewrite last_app, last_cons, Hx.
Qed.

(** Every legal labelling is a sequence of entities. *)
Lemma legal_entities n : ∀ items, (length items ≤ n)%nat → legal (map fst items) → ∃ ss, entities items ss.
Proof.
  induction n as [|n IH]; intros items Hn Hleg; (destruct items as [|[l o] items]; [by exists []; constructor|]); [cbn in Hn; lia|].
  cbn [length map fst] in *. pose proof Hleg as (Hs & Ht & Hla). pose proof (Hs l eq_refl) as Hsl. unfold start_allowed in Hsl.
  destruct (tag l) eqn:Etag; try done.
  - destruct (IH items) as [ss Hss]; [lia|eapply legal_tail; [done|by left]|]. exists ss. by constructor.
  - destruct (group_rest items l) as (inside & le & oe & r & -> & Hi & Hle & Hee); [by left|done|done|].
    destruct (IH r) as [ss Hss].
    + rewrite length_app in Hn. cbn in Hn. lia.
    + rewrite map_app in Hleg. cbn [map fst] in Hleg. by apply (legal_suffix (l :: map fst inside) _ le).
    + eexists. by econstructor.
  - destruct (IH items) as [ss Hss]; [lia|eapply legal_tail; [done|by right; right]|]. eexists. by apply ents_single.
Qed.

(** A walk's labels. *)
Lemma walk_legal labels bias es path k s l :
  walk labels bias es path k s → labels !! k = Some l → end_allowed l = true →
  ∃ ls, Forall2 (λ i l, labels !! i = Some l) path ls ∧ legal ls.
Proof.
  intros Hw Hk Hend.
  assert (∃ ls, Forall2 (λ i l, labels !! i = Some l) path ls ∧ list.last ls = labels !! k
    ∧ (∀ x, head ls = Some x → start_allowed x = true)
    ∧ (∀ i x y, ls !! i = Some x → ls !! S i = Some y → transition x y = true)) as (ls & H2 & Hla & Hs & Ht).
  { clear l Hk Hend. induction Hw as [row k l s Hk Hst _ _|es path j from s row k to e Hw IH Hj Hk Htr _ _ _].
    - exists [l]. split_and!; [by repeat constructor|done|by intros ? [= <-]|by intros [|i]].
    - destruct IH as (ls & H2 & Hla & Hs & Ht). exists (ls ++ [to]). split_and!.
      + apply Forall2_app; [done|]. by repeat constructor.
      + by rewrite last_snoc.
      + intros x Hx. destruct ls as [|y ls]; [by rewrite Hj in Hla|]. by apply Hs.
      + intros i x y Hx Hy. destruct (decide (S i < length ls)%nat).
        * rewrite lookup_app_l in Hx, Hy by lia. by eapply Ht.
        * pose proof (lookup_lt_Some _ _ _ Hy) as Hi. rewrite length_app in Hi. cbn in Hi.
          rewrite lookup_app_r in Hy by lia. replace (S i - length ls)%nat with 0%nat in Hy by lia. injection Hy as <-.
          rewrite lookup_app_l in Hx by lia. rewrite last_lookup, Hj in Hla.
          replace (pred (length ls)) with i in Hla by lia. congruence. }
  exists ls. split; [done|]. split_and!; [done|done|]. intros x Hx. congruence.
Qed.

Lemma token_items labels offsets path ls : ∀ start,
  Forall2 (λ i l, labels !! i = Some l) path ls → (start + length path <= length offsets)%nat →
  omap (token_at labels offsets) (zip (seq start (length path)) path) = zip ls (drop start offsets).
Proof.
  revert ls. induction path as [|k path IH]; intros ls start H2 Hl; inversion H2 as [|? l ? ls' Hk H2']; subst; [done|].
  cbn [length seq] in *. destruct (lookup_lt_is_Some_2 offsets start) as [o Ho]; [lia|].
  rewrite (drop_S _ _ _ Ho). cbn [zip zip_with]. cbn [omap list_omap]. unfold token_at at 1. cbn [fst snd]. rewrite Hk, Ho. cbn.
  f_equal. apply IH; [done|lia].
Qed.

(** The decoder's spans are the entities of the best legal labelling: when
    the scores admit a legal path at all, the labels it picks form a sequence
    of whole entities (outside tokens, single tokens, and begin-inside-end
    groups of one kind), and the spans are exactly these entities, from the
    first byte of their first token to the last byte of their last, but those
    that cover no byte. *)
Theorem decoded_spans_exact labels bias emissions offsets q k s l :
  Forall (λ row : list f32, length row = length labels) emissions → length offsets = length emissions →
  walk labels bias emissions q k s → labels !! k = Some l → end_allowed l = true →
  ∃ path ls ss, viterbi labels (build_transitions labels) bias emissions = Some path
    ∧ Forall2 (λ i l, labels !! i = Some l) path ls ∧ legal ls ∧ entities (zip ls offsets) ss
    ∧ path_to_spans path labels offsets = retain (λ s, raw_start s <? raw_end s)%nat ss.
Proof.
  intros Hr Ho Hw Hk Hend. assert (labels ≠ []) as Hne by (by intros ->).
  destruct (viterbi_best labels bias emissions Hne Hr) as (path & Hv & Hlen & _ & Hbest).
  destruct (Hbest q k s l Hw Hk Hend) as (k' & s' & l' & Hw' & Hk' & Hend' & _).
  destruct (walk_legal _ _ _ _ _ _ _ Hw' Hk' Hend') as (ls & H2 & Hleg).
  pose proof (Forall2_length H2) as Hll.
  destruct (legal_entities (length (zip ls offsets)) (zip ls offsets)) as [ss Hss]; [done| |].
  { change (map fst (zip ls offsets)) with ((zip ls offsets).*1). rewrite fst_zip by lia. done. }
  exists path, ls, ss. split_and!; [done|done|done|done|]. unfold path_to_spans.
  rewrite (token_items labels offsets path ls 0) by (done || lia). rewrite drop_0, (entities_spans _ _ Hss []). done.
Qed.

(** ** Concrete runs *)

Definition demo_id2label : gmap nat bytes :=
  list_to_map [(0%nat, b "O"); (1%nat, b "B-name"); (2%nat, b "I-name"); (3%nat, b "E-name"); (4%nat, b "S-name")].
Definition demo_labels : list LabelInfo := match parse_labels demo_id2label with Ok ls => ls | Err _ => [] end.

Example demo_labels_read : map tag demo_labels = [Tag_O; Tag_B; Tag_I; Tag_E; Tag_S].
Proof. vm_compute. reflexivity. Qed.

Example sparse_labels_refused :
  match parse_labels {[ 0%nat := b "O"; 2%nat := b "S-x" ]} with Ok _ => true | Err _ => false end = false.
Proof. vm_compute. reflexivity. Qed.

(** Scores of 10 for one label. *)
Definition favour (k : nat) : list f32 := map (λ i, f32_of_Z (if (i =? k)%nat then 10 else 0)) (seq 0 5).
Local Abbreviation demo_viterbi := (viterbi demo_labels (build_transitions demo_labels) TransitionBias_default).

(** The best label of each token alone is illegal here. *)
Example illegal_argmax : demo_viterbi [favour 2; favour 2] = Some [0; 0]%nat.
Proof. vm_compute. reflexivity. Qed.
Example legal_argmax : demo_viterbi [favour 0; favour 1; favour 2; favour 3; favour 0] = Some [0; 1; 2; 3; 0]%nat.
Proof. vm_compute. reflexivity. Qed.
Example spans_of_demo :
  path_to_spans [0; 1; 2; 3; 0]%nat demo_labels [(0, 2); (2, 5); (5, 11); (11, 14); (14, 20)]%nat
  = [{| raw_label := b "name"; raw_start := 2; raw_end := 14 |}].
Proof. vm_compute. reflexivity. Qed.

Lemma demo_walk : ∃ s, walk demo_labels TransitionBias_default [favour 2; favour 2] [1; 3]%nat 3 s.
Proof.
  eexists. apply (walk_step _ _ [favour 2] [1%nat] 1 (default {| label_name := []; tag := Tag_O; entity := [] |} (demo_labels !! 1%nat))
    (f32_of_Z 0) (favour 2) 3 (default {| label_name := []; tag := Tag_O; entity := [] |} (demo_labels !! 3%nat)) (f32_of_Z 0));
    [|vm_compute; reflexivity..].
  apply (walk_start _ _ _ _ (default {| label_name := []; tag := Tag_O; entity := [] |} (demo_labels !! 1%nat))); vm_compute; reflexivity.
Qed.

Lemma viterbi_optimal_witness :
  ∃ path, demo_viterbi [favour 2; favour 2] = Some path ∧ length path = 2%nat.
Proof.
  destruct (viterbi_optimal demo_labels TransitionBias_default [favour 2; favour 2]) as (path & Hv & Hl & _).
  - vm_compute. discriminate.
  - repeat constructor.
  - exists path. split; [exact Hv|exact Hl].
Defined.

Lemma decoded_spans_exact_witness :
  ∃ path ls ss, demo_viterbi [favour 2; favour 2] = Some path ∧ entities (zip ls [(0, 3); (3, 6)]%nat) ss
    ∧ path_to_spans path demo_labels [(0, 3); (3, 6)]%nat = retain (λ s, raw_start s <? raw_end s)%nat ss.
Proof.
  destruct demo_walk as [s Hw].
  destruct (decoded_spans_exact demo_labels TransitionBias_default [favour 2; favour 2] [(0, 3); (3, 6)]%nat _ _ _
    (default {| label_name := []; tag := Tag_O; entity := [] |} (demo_labels !! 3%nat)) ltac:(repeat constructor) eq_refl Hw)
    as (path & ls & ss & Hv & _ & _ & He & Hs); [vm_compute; reflexivity|vm_compute; reflexivity|].
  exists path, ls, ss. split; [exact Hv|]. split; [exact He|exact Hs].
Defined.

(** A model may score one label of one token with NaN.  The normalisation
    then makes the whole row NaN, no later state is reached, and whatever
    stands behind that token is decoded as text outside any entity. *)
Definition plain_math : FloatMath := {|
  f32_exp x := match x with NaN32 => NaN32 | _ => f32_of_Z 1 end;
  f32_ln x := match x with NaN32 => NaN32 | _ => Num32 0 end
|}.

Lemma nan_hides_the_rest :
  let logits (r : list f32) := @log_softmax_row plain_math r in
  demo_viterbi (map logits [favour 4; favour 0; favour 4]) = Some [4; 0; 4]%nat
  ∧ demo_viterbi (map logits [favour 4; NaN32 :: repeat (Num32 0) 4; favour 4]) = Some [4; 0; 0]%nat.
Proof. by split; vm_compute. Qed.
