(* ===== verification/NerRule.v ===== *)
(** * The named-entity rule (crates/duduclaw-redaction/src/ner/labels.rs,
    ner/runtime.rs and rules/ner.rs)

    One specification becomes one rule per label; the rules share an engine,
    which runs the model on a text's chunks and keeps the results of recent
    texts.  The tokenizer and the model session are the interface
    [NerSession]. *)

From S2P Require Import Prelude.
From S2P Require Import Bytes.
From S2P Require Import Utf8.
From S2P Require Import Chars.
From S2P Require Import RedactToken.
From S2P Require Import Vault.
From S2P Require Import RedactEngine.
From S2P Require Import Redaction.
From S2P Require Import RuleSpecs.
From S2P Require Import Keyword.
From S2P Require Import DataSource.
From S2P Require Import Float32.
From S2P Require Import NerText.
From S2P Require Import NerDecode.

(** ** Labels *)

Record NerLabel := { model_label : bytes; label_category : bytes }.

#[export] Instance NerLabel_eq_dec : EqDecision NerLabel.
Proof. solve_decision. Defined.

Definition NER_LABELS : list NerLabel :=
  map (λ p : string * string, {| model_label := b p.1; label_category := b p.2 |})
    [("private_person", "PERSON"); ("private_address", "ADDRESS"); ("private_email", "EMAIL");
     ("private_phone", "PHONE"); ("private_url", "URL"); ("private_date", "DATE");
     ("account_number", "ACCOUNT_NUMBER"); ("secret", "SECRET")]%string.

Definition find_label (want : bytes) : option NerLabel := List.find (λ l, ustr_eqb (model_label l) want) NER_LABELS.
Definition category_for (label : bytes) : option bytes := label_category <$> find_label label.

Fixpoint resolve_loop (out : list NerLabel) (requested : list bytes) : result (list NerLabel) bytes :=
  match requested with
  | [] => Ok out
  | want :: r =>
      let want := trim_bytes want in
      match find_label want with
      | None =>
          Err (b "unknown NER label '" ++ want ++ b "' (expected one of: "
               ++ join_with (b ", ") (map model_label NER_LABELS) ++ b ")")
      | Some found =>
          resolve_loop (if existsb (λ l, ustr_eqb (model_label l) (model_label found)) out then out else out ++ [found]) r
      end
  end.
Definition resolve_labels (requested : list bytes) : result (list NerLabel) bytes :=
  if is_empty requested then Ok NER_LABELS else resolve_loop [] requested.

(** ** The cache of results *)

(** SHA-256 of the sha2 crate. *)
Class TextDigest := { digest : bytes → bytes }.

Record Lru := { lru_cap : nat; lru_map : gmap bytes (list RawSpan); lru_order : list bytes }.

Definition Lru_new (cap : nat) : Lru := {| lru_cap := Nat.max cap 1; lru_map := ∅; lru_order := [] |}.

(** The first occurrence, removed. *)
Fixpoint remove_first (k : bytes) (l : list bytes) : list bytes :=
  match l with
  | [] => []
  | x :: r => if ustr_eqb x k then r else x :: remove_first k r
  end.

Definition lru_get (l : Lru) (k : bytes) : option (list RawSpan) * Lru :=
  match lru_map l !! k with
  | None => (None, l)
  | Some v => (Some v, {| lru_cap := lru_cap l; lru_map := lru_map l; lru_order := remove_first k (lru_order l) ++ [k] |})
  end.

(** [while self.map.len() > self.cap]. *)
Fixpoint evict (cap : nat) (m : gmap bytes (list RawSpan)) (order : list bytes) : gmap bytes (list RawSpan) * list bytes :=
  if (size m <=? cap)%nat then (m, order)
  else match order with [] => (m, []) | old :: r => evict cap (delete old m) r end.

Definition lru_put (l : Lru) (k : bytes) (v : list RawSpan) : Lru :=
  let order := if lru_map l !! k then remove_first k (lru_order l) else lru_order l in
  let '(m, order) := evict (lru_cap l) (<[k := v]> (lru_map l)) (order ++ [k]) in
  {| lru_cap := lru_cap l; lru_map := m; lru_order := order |}.

(** What [unload] does to the cache. *)
Definition lru_unload (l : Lru) : Lru := {| lru_cap := lru_cap l; lru_map := ∅; lru_order := lru_order l |}.

(** ** The engine *)

(** How many elements a tensor of a shape has. *)
Definition tensor_size (shape : list Z) : Z := foldr Z.mul 1 shape.

(** The tokenizer gives the bytes of each token, the session its output
    tensors, each a shape of [i64]s with the data in row-major order.  As the
    ort crate documents it: a run gives every output of the model, at least
    one, and a tensor holds as many elements as its (positive) dimensions
    say. *)
Class NerSession := {
  encode_text : bytes → result (list (nat * nat)) RedactionError;
  run_session : bytes → result (list (list Z * list f32)) RedactionError;
  session_outputs : ∀ text outputs, run_session text = Ok outputs → outputs ≠ [];
  session_tensors : ∀ text outputs shape data,
    run_session text = Ok outputs → (shape, data) ∈ outputs →
    Forall (λ d, 0 < d < 2 ^ 63) shape ∧ Z.of_nat (length data) = tensor_size shape;
}.

Record Loaded := { loaded_labels : list LabelInfo; loaded_transitions : list (list bool); loaded_bias : TransitionBias }.

(** [load] from what config.json and the calibration hold. *)
Definition load (id2label : gmap nat bytes) (bias : TransitionBias) : result Loaded RedactionError :=
  match parse_labels id2label with
  | Err e => Err (Config e)
  | Ok ls => Ok {| loaded_labels := ls; loaded_transitions := build_transitions ls; loaded_bias := bias |}
  end.

Section engine.
Context `{NerSession} `{FloatMath}.

(** [d as usize]. *)
Definition as_usize (d : Z) : Z := d mod 2 ^ 64.

(** [&data[i * n..(i + 1) * n]] for each of the first [t] rows: no result
    when a row lies outside the data. *)
Definition data_rows (data : list f32) (n t : nat) : option (list (list f32)) :=
  mapM (λ i, if (S i * n <=? length data)%nat then Some (take n (drop (i * n) data)) else None) (seq 0 t).

(** The message names the shapes. *)
Definition shape_error : RedactionError := Config (b "logits 形狀不符").

Definition infer_chunk (L : Loaded) (text : bytes) : option (result (list RawSpan) RedactionError) :=
  match encode_text text with
  | Err e => Some (Err e)
  | Ok offsets =>
      if is_empty offsets then Some (Ok [])
      else
        match run_session text with
        | Err e => Some (Err e)
        | Ok [] => None
        | Ok ((shape, data) :: _) =>
            let t := length offsets in
            let n_lab := length (loaded_labels L) in
            let fits :=
              match shape with
              | [_; d1; d2] => (as_usize d1 =? Z.of_nat t) && (as_usize d2 =? Z.of_nat n_lab)
              | _ => false
              end in
            if negb fits then Some (Err shape_error)
            else
              rows ← data_rows data n_lab t;
              path ← viterbi (loaded_labels L) (loaded_transitions L) (loaded_bias L) (map log_softmax_row rows);
              Some (Ok (path_to_spans path (loaded_labels L) offsets))
        end
  end.

(** A chunk's span in the whole text. *)
Definition map_back (text : bytes) (offset : nat) (s : RawSpan) : option RawSpan :=
  let '(a, z) := safe_bounds text (offset + raw_start s) (offset + raw_end s) in
  if (z <=? a)%nat then None else Some {| raw_label := raw_label s; raw_start := a; raw_end := z |}.

Fixpoint chunks_loop (L : Loaded) (text : bytes) (chunks : list (nat * bytes))
    : option (result (list RawSpan) RedactionError) :=
  match chunks with
  | [] => Some (Ok [])
  | (offset, chunk) :: r =>
      found ← infer_chunk L chunk;
      match found with
      | Err e => Some (Err e)
      | Ok spans =>
          rest ← chunks_loop L text r;
          Some (match rest with Err e => Err e | Ok out => Ok (omap (map_back text offset) spans ++ out) end)
      end
  end.

(** [run_all_chunks]; [fresh] is what loading gives when no session is
    resident. *)
Definition run_all_chunks (fresh : result Loaded RedactionError) (resident : option Loaded) (text : bytes) (max_chars : nat)
    : option (result (list RawSpan) RedactionError * option Loaded) :=
  chunks ← chunk_text text max_chars;
  match (match resident with Some L => Ok L | None => fresh end) with
  | Err e => Some (Err e, resident)
  | Ok L => res ← chunks_loop L text chunks; Some (res, Some L)
  end.

Record NerEngine := { resident : option Loaded; cache : Lru }.

(** [spans]: [other] is what other threads do to the cache meanwhile. *)
Definition spans `{TextDigest} (fresh : result Loaded RedactionError) (other : Lru → Lru) (E : NerEngine) (text : bytes)
    (max_chars : nat) : option (result (list RawSpan) RedactionError * NerEngine) :=
  let key := digest text in
  let '(hit, cache') := lru_get (cache E) key in
  match hit with
  | Some v => Some (Ok v, {| resident := resident E; cache := cache' |})
  | None =>
      run ← run_all_chunks fresh (resident E) text max_chars;
      let '(res, resident') := run in
      match res with
      | Err e => Some (Err e, {| resident := resident'; cache := other cache' |})
      | Ok v => Some (Ok v, {| resident := resident'; cache := lru_put (other cache') key v |})
      end
  end.
End engine.

(** [unload]. *)
Definition unload (E : NerEngine) : NerEngine := {| resident := None; cache := lru_unload (cache E) |}.

(** ** Rules *)

Record NerRule := { ner_spec : RuleSpec; ner_label : bytes; ner_min_chars : nat; ner_max_chars : nat }.

(** [compile]; [open_result] is what opening the engine gives. *)
Definition NerRule_compile `{RuleDebug} (s : RuleSpec) (open_result : result unit bytes) (config : NerConfig)
    : result (list NerRule) RedactionError :=
  match kind s with
  | KindNer labels min max =>
      let min := default (Z.to_nat (min_chars config)) min in
      let max := default (Z.to_nat (max_chars config)) max in
      match resolve_labels labels with
      | Err e => Err (RuleCompile (spec_id s) e)
      | Ok resolved =>
          match open_result with
          | Err e => Err (RuleCompile (spec_id s) e)
          | Ok _ =>
              Ok (map (λ l, {| ner_spec := {| spec_id := spec_id s; spec_category := label_category l;
                                              spec_scope := spec_scope s; spec_priority := spec_priority s;
                                              spec_stable := spec_stable s; spec_system_prompt := spec_system_prompt s;
                                              enabled := enabled s; kind := kind s |};
                               ner_label := model_label l; ner_min_chars := min;
                               ner_max_chars := Nat.max max (Nat.max min 1) |}) resolved)
          end
      end
  | other => Err (RuleCompile (spec_id s) (b "expected Ner kind, got " ++ debug_kind other))
  end.

(** The matches of a rule among the spans. *)
Fixpoint ner_matches (label text : bytes) (found : list RawSpan) : option (list Match) :=
  match found with
  | [] => Some []
  | s :: r =>
      if negb (ustr_eqb (raw_label s) label) then ner_matches label text r
      else
        let '(a, z) := safe_bounds text (raw_start s) (raw_end s) in
        if (z <=? a)%nat then ner_matches label text r
        else
          original ← slice text a z;
          ms ← ner_matches label text r;
          Some ({| RedactEngine.start := a; RedactEngine.end_ := z; matched := original |} :: ms)
  end.

(** [match_text], with the answer of the engine. *)
Definition ner_match_text (r : NerRule) (text : bytes) (answer : result (list RawSpan) RedactionError)
    : option (list Match) :=
  if (count_chars text <? ner_min_chars r)%nat then Some []
  else match answer with Err _ => Some [] | Ok found => ner_matches (ner_label r) text found end.

Definition MODEL_REVISION : bytes := b "7ffa9a043d54d1be65afb281eddf0ffbe629385b".
Definition ner_rule (r : NerRule) (answer : bytes → result (list RawSpan) RedactionError) : Rule := {|
  rule_id := spec_id (ner_spec r);
  rule_category := spec_category (ner_spec r);
  restore_scope := spec_scope (ner_spec r);
  priority := spec_priority (ner_spec r);
  cross_session_stable := spec_stable (ner_spec r);
  apply_to_system_prompt := spec_system_prompt (ner_spec r);
  engine_kind := b "ner";
  model_revision := Some MODEL_REVISION;
  match_text := λ text, ner_match_text r text (answer text)
|}.

(** ** The cache, oldest use first *)

Record lru_ok (l : Lru) : Prop := {
  ok_keys : NoDup (lru_order l);
  ok_held : ∀ k, k ∈ lru_order l ↔ is_Some (lru_map l !! k);
  ok_size : (length (lru_order l) ≤ lru_cap l)%nat;
  ok_cap : (1 ≤ lru_cap l)%nat;
}.

(** The specification: the entries in the order of their last use. *)
Definition recency (l : Lru) : list (bytes * list RawSpan) :=
  map (λ k, (k, default [] (lru_map l !! k))) (lru_order l).
Definition others (k : bytes) (R : list (bytes * list RawSpan)) : list (bytes * list RawSpan) :=
  retain (λ e : bytes * list RawSpan, negb (ustr_eqb e.1 k)) R.

Lemma remove_first_retain k l : NoDup l → remove_first k l = retain (λ x, negb (ustr_eqb x k)) l.
Proof.
  induction l as [|x l IH]; intros Hn; [done|]. apply list.NoDup_cons in Hn as [Hx Hn]. cbn.
  destruct (ustr_eqb x k) eqn:E; cbn [negb]; [|by rewrite IH]. apply bool_decide_eq_true in E as ->.
  symmetry. apply retain_all, List.Forall_forall. intros y Hy%list_elem_of_In.
  apply negb_true_iff, bool_decide_eq_false. by intros ->.
Qed.

Lemma elem_of_remove_first k x l : NoDup l → x ∈ remove_first k l ↔ x ∈ l ∧ x ≠ k.
Proof.
  intros Hn. rewrite remove_first_retain, elem_of_retain by done. unfold ustr_eqb.
  rewrite negb_true_iff, bool_decide_eq_false. done.
Qed.

Lemma NoDup_remove_first k l : NoDup l → NoDup (remove_first k l).
Proof.
  intros Hn. rewrite remove_first_retain by done. eapply sublist_NoDup; [done|apply sublist_retain].
Qed.

(** A map and the list of its keys. *)
Definition keyed (m : gmap bytes (list RawSpan)) (order : list bytes) : Prop :=
  NoDup order ∧ ∀ k, k ∈ order ↔ is_Some (m !! k).

Lemma keyed_size m order : keyed m order → size m = length order.
Proof.
  intros [Hn Hk]. rewrite <- size_dom. assert (dom m = list_to_set (C := gset bytes) order) as ->.
  { apply set_eq. intros k. by rewrite elem_of_dom, elem_of_list_to_set, Hk. }
  by apply size_list_to_set.
Qed.

Lemma keyed_delete m old order : keyed m (old :: order) → keyed (delete old m) order.
Proof.
  intros [[Ho Hn]%list.NoDup_cons Hk]. split; [done|]. intros k. rewrite lookup_delete_is_Some, <- Hk, elem_of_cons.
  split; [|by intros [? [->|]]]. intros Hin. split; [by intros ->|by right].
Qed.

Lemma elem_of_last_n {A} cap (l : list A) x : x ∈ last_n cap l → x ∈ l.
Proof.
  intros Hx. rewrite <- (take_drop (length l - cap) l). apply elem_of_app. by right.
Qed.

Lemma evict_spec cap order : ∀ m,
  keyed m order →
  (evict cap m order).2 = last_n cap order ∧ keyed (evict cap m order).1 (last_n cap order)
  ∧ ∀ k, k ∈ last_n cap order → (evict cap m order).1 !! k = m !! k.
Proof.
  induction order as [|old order IH]; intros m Hk; pose proof (keyed_size _ _ Hk) as Hs; cbn [evict]; rewrite Hs; cbn [length].
  - cbn. by split_and!.
  - destruct (Nat.leb_spec (S (length order)) cap) as [Hle|Hgt].
    + cbn [fst snd]. unfold last_n. replace (length (old :: order) - cap)%nat with 0%nat by (cbn; lia). by split_and!.
    + destruct (IH _ (keyed_delete _ _ _ Hk)) as (H1 & H2 & H3).
      assert (last_n cap (old :: order) = last_n cap order) as ->.
      { unfold last_n. cbn [length]. by replace (S (length order) - cap)%nat with (S (length order - cap)) by lia. }
      split_and!; [done|done|]. intros k Hin. rewrite H3 by done. rewrite lookup_delete_ne; [done|].
      intros <-. destruct Hk as [[Ho _]%list.NoDup_cons _]. apply Ho. by eapply elem_of_last_n.
Qed.

Lemma lru_ok_keyed l : lru_ok l → keyed (lru_map l) (lru_order l).
Proof. intros [H1 H2 _ _]. by split. Qed.

Lemma recency_others l k : lru_ok l →
  others k (recency l) = map (λ k, (k, default [] (lru_map l !! k))) (remove_first k (lru_order l)).
Proof.
  intros [Hn _ _ _]. unfold others, recency. rewrite remove_first_retain by done. clear Hn.
  induction (lru_order l) as [|x r IH]; [done|]. cbn. destruct (negb (ustr_eqb x k)); cbn; by rewrite IH.
Qed.

Lemma remove_first_id k l : k ∉ l → remove_first k l = l.
Proof.
  induction l as [|x l IH]; [done|]. intros [Hx Hl]%not_elem_of_cons. cbn.
  destruct (ustr_eqb x k) eqn:E; [apply bool_decide_eq_true in E; by subst|]. by rewrite IH.
Qed.

Lemma length_remove_first k l : k ∈ l → length l = S (length (remove_first k l)).
Proof.
  induction l as [|x l IH]; [by intros ?%elem_of_nil|]. intros Hk. cbn. destruct (ustr_eqb x k) eqn:E; [done|].
  apply bool_decide_eq_false in E. apply elem_of_cons in Hk as [-> |Hk]; [done|]. cbn. by rewrite IH.
Qed.

(** A key put last. *)
Lemma keyed_move m order k v : keyed m order → keyed (<[k := v]> m) (remove_first k order ++ [k]).
Proof.
  intros [Hn Hk]. split.
  - apply list.NoDup_app. split_and!; [by apply NoDup_remove_first| |by apply NoDup_singleton].
    intros x [_ Hx]%elem_of_remove_first ->%list_elem_of_singleton; [done|done].
  - intros x. rewrite elem_of_app, list_elem_of_singleton, elem_of_remove_first, lookup_insert_is_Some, Hk by done.
    destruct (decide (x = k)) as [->|]; naive_solver.
Qed.

Lemma last_n_map {A B} (f : A → B) n l : last_n n (map f l) = map f (last_n n l).
Proof. unfold last_n. rewrite length_map. by rewrite skipn_map. Qed.

Lemma length_last_n {A} n (l : list A) : (length (last_n n l) ≤ n)%nat.
Proof. unfold last_n. rewrite length_drop. lia. Qed.

Lemma lru_get_spec l k :
  lru_ok l →
  lru_ok (lru_get l k).2 ∧ (lru_get l k).1 = lru_map l !! k
  ∧ recency (lru_get l k).2
    = match lru_map l !! k with Some v => others k (recency l) ++ [(k, v)] | None => recency l end.
Proof.
  intros Hok. unfold lru_get. destruct (lru_map l !! k) as [v|] eqn:Ek; [|done]. cbn [fst snd].
  pose proof (lru_ok_keyed _ Hok) as Hkey. assert (k ∈ lru_order l) as Hin by (apply Hkey; by exists v). split_and!; [|done|].
  - pose proof (keyed_move _ _ k v Hkey) as [Hn Hh]. rewrite insert_id in Hh by done.
    split; cbn; [done|done| |apply Hok]. rewrite length_app. pose proof (length_remove_first k _ Hin).
    pose proof (ok_size _ Hok). cbn. lia.
  - rewrite recency_others by done. unfold recency. cbn [lru_order lru_map]. rewrite map_app. cbn. by rewrite Ek.
Qed.

Lemma lru_put_spec l k v :
  lru_ok l →
  lru_ok (lru_put l k v) ∧ recency (lru_put l k v) = last_n (lru_cap l) (others k (recency l) ++ [(k, v)]).
Proof.
  intros Hok. pose proof (lru_ok_keyed _ Hok) as Hkey. unfold lru_put.
  assert ((if lru_map l !! k then remove_first k (lru_order l) else lru_order l) = remove_first k (lru_order l)) as ->.
  { destruct (lru_map l !! k) eqn:Ek; [done|]. symmetry. apply remove_first_id. rewrite (ok_held _ Hok), Ek. by intros []. }
  pose proof (evict_spec (lru_cap l) _ _ (keyed_move _ _ k v Hkey)) as (He1 & He2 & He3).
  destruct (evict _ _ _) as [m order] eqn:Ee. cbn [fst snd] in *. subst order. split.
  - split; cbn; [apply He2|apply He2|apply length_last_n|apply Hok].
  - rewrite recency_others by done. unfold recency. cbn [lru_order lru_map].
    assert (map (λ k', (k', default [] (lru_map l !! k'))) (remove_first k (lru_order l)) ++ [(k, v)]
            = map (λ k', (k', default [] (<[k := v]> (lru_map l) !! k'))) (remove_first k (lru_order l) ++ [k])) as ->.
    { rewrite map_app. cbn. rewrite lookup_insert_eq. cbn. f_equal. apply map_ext_in. intros x Hx%list_elem_of_In.
      apply elem_of_remove_first in Hx as [_ Hx]; [|apply Hok]. by rewrite lookup_insert_ne. }
    rewrite last_n_map. apply map_ext_in. intros x Hx%list_elem_of_In. by rewrite He3.
Qed.

Lemma lru_refines_spec l k v :
  (∀ cap, lru_ok (Lru_new cap) ∧ recency (Lru_new cap) = [])
  ∧ (lru_ok l →
     (lru_ok (lru_get l k).2 ∧ (lru_get l k).1 = lru_map l !! k
      ∧ recency (lru_get l k).2
        = match lru_map l !! k with Some v => others k (recency l) ++ [(k, v)] | None => recency l end)
     ∧ lru_ok (lru_put l k v) ∧ recency (lru_put l k v) = last_n (lru_cap l) (others k (recency l) ++ [(k, v)])
     ∧ (lru_get (lru_put l k v) k).1 = Some v).
Proof.
  split.
  { intros cap. split; [|done]. split; cbn; [by apply NoDup_nil_2|intros x; rewrite lookup_empty; split;
      [by intros ?%elem_of_nil|by intros []]|lia|lia]. }
  intros Hok. destruct (lru_put_spec l k v Hok) as [Hp Hrec]. split; [by apply lru_get_spec|]. split_and!; [done|done|].
  destruct (lru_get_spec _ k Hp) as (_ & -> & _).
  assert ((k, v) ∈ recency (lru_put l k v)) as Hin.
  { rewrite Hrec. unfold last_n. rewrite length_app. cbn. pose proof (ok_cap _ Hok).
    rewrite drop_app_le by lia. apply elem_of_app. right. by left. }
  unfold recency in Hin. apply list_elem_of_fmap in Hin as (k' & [= <- Hv] & Hk).
  apply (ok_held _ Hp) in Hk as [v' Hv']. rewrite Hv' in Hv |- *. by cbn in Hv; subst.
Qed.

(** The cache of results is a least-recently-used cache: from a new one
    on, a lookup gives what was stored last under its key and makes the key
    the most recent, an insertion makes its key the most recent and drops the
    oldest ones beyond the capacity; the map and the order always hold the
    same keys. *)
Theorem lru_refines l k v :
  (∀ cap, lru_ok (Lru_new cap) ∧ recency (Lru_new cap) = [])
  ∧ (lru_ok l →
     (lru_ok (lru_get l k).2 ∧ (lru_get l k).1 = lru_map l !! k
      ∧ recency (lru_get l k).2
        = match lru_map l !! k with Some v => others k (recency l) ++ [(k, v)] | None => recency l end)
     ∧ lru_ok (lru_put l k v) ∧ recency (lru_put l k v) = last_n (lru_cap l) (others k (recency l) ++ [(k, v)])
     ∧ (lru_get (lru_put l k v) k).1 = Some v).
Proof. apply lru_refines_spec. Qed.

(** ** Matches *)

Lemma ner_matches_spec label text found :
  is_str text →
  ∃ ms, ner_matches label text found = Some ms
    ∧ ∀ m, m ∈ ms ↔ ∃ s, s ∈ found ∧ raw_label s = label
        ∧ safe_bounds text (raw_start s) (raw_end s) = (RedactEngine.start m, RedactEngine.end_ m)
        ∧ (RedactEngine.start m < RedactEngine.end_ m)%nat
        ∧ slice text (RedactEngine.start m) (RedactEngine.end_ m) = Some (matched m).
Proof.
  intros Ht. induction found as [|s found (ms & IH & Hms)]; cbn [ner_matches].
  { exists []. split; [done|]. intros m. split; [by intros ?%elem_of_nil|by intros (? & ?%elem_of_nil & _)]. }
  destruct (ustr_eqb (raw_label s) label) eqn:El; cbn [negb].
  2:{ apply bool_decide_eq_false in El. exists ms. split; [done|]. intros m. rewrite Hms. setoid_rewrite elem_of_cons. naive_solver. }
  apply bool_decide_eq_true in El. pose proof (safe_bounds_spec text (raw_start s) (raw_end s) Ht) as Hb. cbv zeta in Hb.
  destruct (safe_bounds text (raw_start s) (raw_end s)) as [a z] eqn:Eb.
  destruct Hb as (_ & _ & _ & t & Hsl & _ & _). destruct (Nat.leb_spec z a) as [Hle|Hlt].
  - exists ms. split; [done|]. intros m. rewrite Hms. setoid_rewrite elem_of_cons. split; [naive_solver|].
    intros (s' & [-> |Hin] & Hl' & Hb' & Hlt & Hs'); [|naive_solver]. rewrite Eb in Hb'. injection Hb' as -> ->. lia.
  - rewrite Hsl, IH. cbn. eexists. split; [done|]. intros m. rewrite elem_of_cons, Hms. setoid_rewrite elem_of_cons. split.
    + intros [->|(s' & Hin & Hrest)]; [exists s; cbn; naive_solver|]. exists s'. naive_solver.
    + intros (s' & [-> |Hin] & Hl' & Hb' & Hlt' & Hs'); [left|right; naive_solver].
      rewrite Eb in Hb'. injection Hb' as -> ->. rewrite Hs' in Hsl. injection Hsl as <-. by destruct m.
Qed.

(** The matches of a named-entity rule are exactly the model's spans of its
    label: on any text of at least the rule's length and any answer of the
    engine, the rule does not panic, and reports for every span of its label
    the text between the nearest character boundaries around it, unless that
    is empty; on shorter texts, and when the engine fails, it reports
    nothing. *)
Theorem ner_matches_exact r text answer :
  is_str text →
  ∃ ms, ner_match_text r text answer = Some ms
    ∧ ∀ m, m ∈ ms ↔
        (ner_min_chars r ≤ count_chars text)%nat
        ∧ ∃ found s, answer = Ok found ∧ s ∈ found ∧ raw_label s = ner_label r
          ∧ safe_bounds text (raw_start s) (raw_end s) = (RedactEngine.start m, RedactEngine.end_ m)
          ∧ (RedactEngine.start m < RedactEngine.end_ m)%nat
          ∧ slice text (RedactEngine.start m) (RedactEngine.end_ m) = Some (matched m).
Proof.
  intros Ht. unfold ner_match_text. destruct (Nat.ltb_spec (count_chars text) (ner_min_chars r)) as [Hlt|Hge].
  { exists []. split; [done|]. intros m. split; [by intros ?%elem_of_nil|]. intros [? _]. lia. }
  destruct answer as [found|e].
  - destruct (ner_matches_spec (ner_label r) text found Ht) as (ms & -> & Hms). exists ms. split; [done|].
    intros m. rewrite Hms. split; [intros (s & ?); split; [lia|by exists found, s]|].
    intros (_ & found' & s & [= <-] & ?). by exists s.
  - exists []. split; [done|]. intros m. split; [by intros ?%elem_of_nil|]. by intros (_ & ? & ? & ? & _).
Qed.

(** ** Chunks *)

Lemma log_softmax_length `{FloatMath} row : length (log_softmax_row row) = length row.
Proof. unfold log_softmax_row. cbv zeta. destruct (negb _); [by rewrite repeat_length|by rewrite length_map]. Qed.

(** The rows of a tensor that is large enough. *)
Lemma data_rows_spec data n t :
  (t * n ≤ length data)%nat →
  ∃ rows, data_rows data n t = Some rows ∧ length rows = t ∧ ∀ row, row ∈ rows → length row = n.
Proof.
  intros Hle. unfold data_rows.
  destruct (mapM_is_Some_2 (λ i, if (S i * n <=? length data)%nat then Some (take n (drop (i * n) data)) else None)
    (seq 0 t)) as [rows Hrows].
  { apply list.Forall_forall. intros i Hi%elem_of_seq.
    change (is_Some (if (S i * n <=? length data)%nat then Some (take n (drop (i * n) data)) else None)).
    rewrite (proj2 (Nat.leb_le _ _)); [by eexists|nia]. }
  exists rows. split; [done|]. apply mapM_Some in Hrows. split; [by rewrite <- (Forall2_length Hrows), length_seq|].
  intros row Hr. apply list_elem_of_lookup in Hr as [k Hk].
  destruct (Forall2_lookup_r _ _ _ _ _ Hrows Hk) as (i & Hi & Hrow). destruct (Nat.leb_spec (S i * n) (length data)); [|done].
  injection Hrow as <-. rewrite length_take, length_drop. nia.
Qed.

Lemma infer_total `{NerSession} `{FloatMath} L text :
  loaded_transitions L = build_transitions (loaded_labels L) → ∃ res, infer_chunk L text = Some res.
Proof.
  intros Ht. unfold infer_chunk. destruct (encode_text text) as [offsets|]; [|by eexists].
  destruct (is_empty offsets); [by eexists|]. destruct (run_session text) as [outputs|] eqn:Er; [|by eexists].
  destruct outputs as [|[shape data] outputs]; [by destruct (session_outputs _ _ Er)|].
  destruct (session_tensors _ _ shape data Er ltac:(by left)) as [Hpos Hlen].
  destruct shape as [|d0 [|d1 [|d2 [|? ?]]]]; try by eexists. cbv zeta.
  destruct (_ && _) eqn:Es; cbn [negb]; [|by eexists]. apply andb_true_iff in Es as [H1%Z.eqb_eq H2%Z.eqb_eq].
  inversion_clear Hpos as [|?? P0 Hpos']. inversion_clear Hpos' as [|?? P1 Hpos]. inversion_clear Hpos as [|?? P2 _].
  unfold as_usize in *. rewrite Z.mod_small in H1, H2 by lia. subst d1 d2. cbn [tensor_size foldr] in Hlen.
  destruct (data_rows_spec data (length (loaded_labels L)) (length offsets)) as (rows & -> & Hn & Hw); [nia|].
  cbn [mbind option_bind]. rewrite Ht. destruct (decide (loaded_labels L = [])) as [-> |Hne].
  { by destruct rows; eexists. }
  destruct (viterbi_best (loaded_labels L) (loaded_bias L) (map log_softmax_row rows) Hne) as (path & -> & _); [|by eexists].
  apply List.Forall_forall. intros row Hr. apply in_map_iff in Hr as (r & <- & Hr). rewrite log_softmax_length.
  by apply Hw, list_elem_of_In.
Qed.

(** Loading gives the legality matrix of its labels. *)
Definition sound_model (L : Loaded) : Prop := loaded_transitions L = build_transitions (loaded_labels L).
Lemma load_sound id2label bias L : load id2label bias = Ok L → sound_model L.
Proof. unfold load. destruct (parse_labels id2label); [|done]. by intros [= <-]. Qed.

(** A span with its ends on character boundaries. *)
Definition aligned (text : bytes) (s : RawSpan) : Prop :=
  (raw_start s < raw_end s ≤ length text)%nat
  ∧ is_char_boundary text (raw_start s) = true ∧ is_char_boundary text (raw_end s) = true.

Lemma map_back_aligned text offset s s' :
  is_str text → map_back text offset s = Some s' → aligned text s' ∧ raw_label s' = raw_label s.
Proof.
  intros Ht. unfold map_back. pose proof (safe_bounds_spec text (offset + raw_start s) (offset + raw_end s) Ht) as Hb.
  cbv zeta in Hb. destruct (safe_bounds _ _ _) as [a z]. destruct Hb as ((_ & _ & Hz) & [Ha _] & [Hz' _] & _).
  destruct (Nat.leb_spec z a); [done|]. intros [= <-]. split; [|done]. split; cbn; [lia|done].
Qed.

(** A span on boundaries of its chunk is the same piece of the whole text. *)
Lemma map_back_exact A C B s :
  aligned (utf8_encode C) s →
  map_back (utf8_encode (A ++ C ++ B)) (length (utf8_encode A)) s
  = Some {| raw_label := raw_label s; raw_start := length (utf8_encode A) + raw_start s;
            raw_end := length (utf8_encode A) + raw_end s |}
  ∧ slice (utf8_encode (A ++ C ++ B)) (length (utf8_encode A) + raw_start s) (length (utf8_encode A) + raw_end s)
    = slice (utf8_encode C) (raw_start s) (raw_end s).
Proof.
  intros (Hl & Hs & He).
  destruct (boundary_split C (raw_start s) Hs ltac:(lia)) as (C1 & C2 & -> & Hs').
  rewrite Hs' in *. rewrite utf8_encode_app in Hl, He.
  destruct (boundary_split (C1 ++ C2) (raw_end s)) as (D1 & D2 & HD & He'); [by rewrite utf8_encode_app|rewrite utf8_encode_app; lia|].
  rewrite length_app in Hl.
  assert (∃ K, D1 = C1 ++ K ∧ C2 = K ++ D2) as (K & -> & ->).
  { apply app_eq_inv in HD as [(K & -> & ->)|(K & -> & ->)]; [|by exists K].
    exfalso. rewrite utf8_encode_app, length_app in Hl. lia. }
  assert (slice (utf8_encode (C1 ++ K ++ D2)) (length (utf8_encode C1)) (raw_end s) = Some (utf8_encode K)) as ->
    by (rewrite He'; apply slice_encode).
  replace (A ++ (C1 ++ K ++ D2) ++ B) with ((A ++ C1) ++ K ++ (D2 ++ B)) by (by rewrite <- !app_assoc).
  assert (length (utf8_encode A) + length (utf8_encode C1) = length (utf8_encode (A ++ C1)))%nat as ->
    by (by rewrite utf8_encode_app, length_app).
  assert (length (utf8_encode A) + raw_end s = length (utf8_encode ((A ++ C1) ++ K)))%nat as Hee.
  { rewrite He', !utf8_encode_app, !length_app. lia. }
  rewrite Hee, slice_encode. split; [|done].
  assert (length (utf8_encode (A ++ C1)) < length (utf8_encode ((A ++ C1) ++ K)))%nat as Hlt.
  { rewrite He', !utf8_encode_app, !length_app in *. lia. }
  unfold map_back. rewrite Hs'.
  replace (length (utf8_encode A) + length (utf8_encode C1))%nat with (length (utf8_encode (A ++ C1)))
    by (by rewrite utf8_encode_app, length_app).
  rewrite Hee, safe_bounds_aligned.
  - by rewrite (proj2 (Nat.leb_gt _ _)) by done.
  - rewrite utf8_encode_app. apply boundary_encode.
  - rewrite (app_assoc (A ++ C1) K), (utf8_encode_app ((A ++ C1) ++ K)). apply boundary_encode.
  - rewrite (app_assoc (A ++ C1) K), (utf8_encode_app ((A ++ C1) ++ K)), length_app. lia.
Qed.

Lemma is_str_app x y : is_str x → is_str y → is_str (x ++ y).
Proof.
  intros (a & Ha & ->) (c & Hc & ->). exists (a ++ c). split; [by apply is_text_app|by rewrite utf8_encode_app].
Qed.

(** Where a chunk stands. *)
Lemma chunk_place n chunks : ∀ start o c,
  chunks_at start chunks → Forall (chunk_ok n) chunks → (o, c) ∈ chunks →
  ∃ A C B, concat (map snd chunks) = utf8_encode (A ++ C ++ B) ∧ c = utf8_encode C
    ∧ o = (start + length (utf8_encode A))%nat.
Proof.
  assert (∀ l, Forall (chunk_ok n) l → is_str (concat (map snd l))) as Hcat.
  { intros l. induction 1 as [|[o c] l (_ & Hs & _) _ IH]; [by exists []|]. cbn in *. by apply is_str_app. }
  induction chunks as [|[o' c'] chunks IH]; intros start o c Hat Hok; [by intros ?%elem_of_nil|].
  apply List.Forall_cons_iff in Hok as [(_ & (C' & _ & HC') & _) Hok]. cbn [chunks_at] in Hat. destruct Hat as [-> Hat].
  cbn [snd] in HC'. intros [[= -> ->]|Hin]%elem_of_cons; cbn [map concat snd].
  - destruct (Hcat _ Hok) as (B & _ & HB). exists [], C', B. rewrite HB, HC'. split_and!; [cbn [app]; by rewrite utf8_encode_app|done|cbn; lia].
  - destruct (IH _ o c Hat Hok Hin) as (A & C & B & Hc & -> & ->). exists (C' ++ A), C, B. rewrite Hc, HC'.
    split_and!; [by rewrite <- app_assoc, (utf8_encode_app C')|done|]. rewrite utf8_encode_app, length_app. lia.
Qed.

Section chunks.
Context `{NerSession} `{FloatMath}.

Lemma chunks_loop_spec L text chunks :
  sound_model L →
  ∃ res, chunks_loop L text chunks = Some res
    ∧ ∀ out, res = Ok out →
        ∀ s', s' ∈ out ↔ ∃ o c found s, (o, c) ∈ chunks ∧ infer_chunk L c = Some (Ok found) ∧ s ∈ found
          ∧ map_back text o s = Some s'.
Proof.
  intros HL. induction chunks as [|[o c] chunks (res & IH & Hres)]; cbn [chunks_loop].
  { eexists. split; [done|]. intros out [= <-] s'. split; [by intros ?%elem_of_nil|]. by intros (? & ? & ? & ? & ?%elem_of_nil & _). }
  destruct (infer_total L c HL) as [[found|e] Hi]; rewrite Hi; cbn; [|by eexists].
  rewrite IH. cbn. eexists. split; [done|]. intros out Hout. destruct res as [rest|]; [|done]. injection Hout as <-.
  intros s'. rewrite elem_of_app, list_elem_of_omap, (Hres rest eq_refl). split.
  - intros [(s & Hs & Hm)|(o' & c' & f & s & Hin & Hrest)].
    + exists o, c, found, s. split; [by left|done].
    + exists o', c', f, s. split; [by right|done].
  - intros (o' & c' & f & s & [[= -> ->]|Hin]%elem_of_cons & Hf & Hs & Hm).
    + left. rewrite Hi in Hf. injection Hf as <-. by exists s.
    + right. by exists o', c', f, s.
Qed.

(** C37 The model's spans of the chunks are spans of the whole text.  A run
    over a text always comes to an answer; if it succeeds, every span it
    gives is non-empty and stands on character boundaries of the text, and
    every span the model finds in a chunk, on boundaries of the chunk, is in
    the answer, moved by the chunk's offset, and covers the same characters. *)
Theorem chunk_spans_point_back fresh loaded text n :
  is_str text → (∀ L, loaded = Some L ∨ fresh = Ok L → sound_model L) →
  ∃ chunks res after, chunk_text text n = Some chunks
    ∧ run_all_chunks fresh loaded text n = Some (res, after)
    ∧ ∀ out, res = Ok out → ∃ L, after = Some L ∧ (loaded = Some L ∨ fresh = Ok L)
        ∧ (∀ s, s ∈ out → aligned text s)
        ∧ ∀ o c found s, (o, c) ∈ chunks → infer_chunk L c = Some (Ok found) → s ∈ found → aligned c s →
            {| raw_label := raw_label s; raw_start := o + raw_start s; raw_end := o + raw_end s |} ∈ out
            ∧ slice text (o + raw_start s) (o + raw_end s) = slice c (raw_start s) (raw_end s).
Proof.
  intros Ht HL. destruct (chunk_text_spec text n Ht) as (chunks & Hc & Hcat & Hat & Hok & _).
  unfold run_all_chunks. rewrite Hc. cbn [mbind option_bind].
  assert (∀ L, loaded = Some L ∨ fresh = Ok L → ∃ res, chunks_loop L text chunks = Some res
    ∧ ∀ out, res = Ok out → (∀ s, s ∈ out → aligned text s)
        ∧ ∀ o c found s, (o, c) ∈ chunks → infer_chunk L c = Some (Ok found) → s ∈ found → aligned c s →
            {| raw_label := raw_label s; raw_start := o + raw_start s; raw_end := o + raw_end s |} ∈ out
            ∧ slice text (o + raw_start s) (o + raw_end s) = slice c (raw_start s) (raw_end s)) as Hrun.
  { intros L HLs. destruct (chunks_loop_spec L text chunks (HL L HLs)) as (res & Hr & Hres). exists res. split; [done|].
    intros out Hout. split.
    - intros s' (o & c & found & s & _ & _ & _ & Hm)%(Hres out Hout). by apply map_back_aligned in Hm as [? _].
    - intros o c found s Hin Hi Hs Ha. destruct (chunk_place _ _ 0 o c Hat Hok Hin) as (A & C & B & HA & -> & ->).
      destruct (map_back_exact A C B s Ha) as [Hm Hsl]. rewrite <- HA, Hcat in Hm, Hsl. cbn [Nat.add].
      split; [|exact Hsl]. apply (Hres out Hout). by exists (length (utf8_encode A)), (utf8_encode C), found, s. }
  destruct loaded as [L|].
  - destruct (Hrun L) as (res & -> & Hres); [by left|]. cbn. exists chunks, res, (Some L). split_and!; [done|done|].
    intros out Hout. exists L. split_and!; [done|by left|by destruct (Hres out Hout)..].
  - destruct fresh as [L|e].
    + destruct (Hrun L) as (res & -> & Hres); [by right|]. cbn. exists chunks, res, (Some L). split_and!; [done|done|].
      intros out Hout. exists L. split_and!; [done|by right|by destruct (Hres out Hout)..].
    + by exists chunks, (Err e), None.
Qed.
End chunks.

(** A result is given again for the same text, whatever the session would say
    now. *)
Lemma spans_cached `{NerSession} `{FloatMath} `{TextDigest} fresh other E text n v E' fresh' other' n' :
  lru_ok (cache E) → (∀ l, lru_ok l → lru_ok (other l)) → spans fresh other E text n = Some (Ok v, E') →
  lru_ok (cache E') ∧ ∃ E'', spans fresh' other' E' text n' = Some (Ok v, E'').
Proof.
  intros Hok Hother. unfold spans. destruct (lru_get_spec (cache E) (digest text) Hok) as (Hg & Hv & _).
  destruct (lru_get (cache E) (digest text)) as [hit c] eqn:Eg. cbn [fst snd] in *. destruct hit as [w|].
  - intros [= <- <-]. cbn [cache]. split; [done|]. destruct (lru_get_spec c (digest text) Hg) as (_ & Hv' & _).
    assert (lru_map c !! digest text = Some w) as Hm.
    { unfold lru_get in Eg. destruct (lru_map (cache E) !! digest text) eqn:Em; [|done]. injection Eg as <- <-.
      exact Em. }
    destruct (lru_get c (digest text)) as [hit c']. cbn [fst] in Hv'. subst hit. rewrite Hm. by eexists.
  - destruct (run_all_chunks fresh (resident E) text n) as [[[out|e] L]|]; cbn; [|done|done]. intros [= <- <-]. cbn [cache].
    destruct (lru_put_spec (other c) (digest text) out (Hother _ Hg)) as [Hp _]. split; [done|].
    destruct (proj2 (lru_refines_spec (other c) (digest text) out) (Hother _ Hg)) as (_ & _ & _ & Hget).
    cbn [cache]. destruct (lru_get (lru_put _ _ _) (digest text)) as [hit' c''] eqn:Eg'. cbn [fst] in Hget.
    subst hit'. by eexists.
Qed.

(** ** Labels of a rule *)

Lemma find_label_spec want l : find_label want = Some l ↔ l ∈ NER_LABELS ∧ model_label l = want.
Proof.
  assert (forallb (λ l, bool_decide (find_label (model_label l) = Some l)) NER_LABELS = true) as Hall by (vm_compute; reflexivity).
  split.
  - intros Hf. apply find_some in Hf as [Hin He]. apply bool_decide_eq_true in He. split; [by apply list_elem_of_In|done].
  - intros [Hin <-]. rewrite forallb_forall in Hall. apply list_elem_of_In, Hall in Hin. by apply bool_decide_eq_true in Hin.
Qed.

Lemma resolve_loop_spec requested : ∀ out,
  NoDup out → (∀ l, l ∈ out → l ∈ NER_LABELS) →
  match resolve_loop out requested with
  | Ok ls =>
      NoDup ls ∧ ∀ l, l ∈ ls ↔ l ∈ out ∨ (l ∈ NER_LABELS ∧ ∃ want, want ∈ requested ∧ model_label l = trim_bytes want)
  | Err _ => ∃ want, want ∈ requested ∧ find_label (trim_bytes want) = None
  end ∧ ((∃ ls, resolve_loop out requested = Ok ls) ↔ ∀ want, want ∈ requested → is_Some (find_label (trim_bytes want))).
Proof.
  induction requested as [|want requested IH]; intros out Hn Ho; cbn [resolve_loop].
  { split; [split; [done|]|].
    - intros l. split; [by left|]. intros [|(_ & ? & ?%elem_of_nil & _)]; done.
    - split; [by intros _ ? ?%elem_of_nil|by eexists]. }
  destruct (find_label (trim_bytes want)) as [found|] eqn:Ef.
  2:{ split; [exists want; split; [by left|done]|]. split; [by intros []|]. intros Hall.
      destruct (Hall want) as [? ?]; [by left|]. congruence. }
  apply find_label_spec in Ef as [Hin Hw].
  set (out' := if existsb _ out then out else out ++ [found]).
  assert (NoDup out' ∧ ∀ l, l ∈ out' ↔ l ∈ out ∨ l = found) as [Hn' Ho'].
  { subst out'. destruct (existsb _ out) eqn:Ex.
    - split; [done|]. intros l. split; [by left|]. intros [H0| ->]; [done|].
      apply existsb_exists in Ex as (l' & Hl' & He). apply bool_decide_eq_true in He. apply list_elem_of_In in Hl'.
      assert (find_label (model_label found) = Some l') as H1 by (apply find_label_spec; split; [by apply Ho|done]).
      assert (find_label (model_label found) = Some found) as H2 by (by apply find_label_spec). congruence.
    - split.
      + apply list.NoDup_app. split_and!; [done| |by apply NoDup_singleton]. intros l Hl ->%list_elem_of_singleton.
        rewrite <- not_true_iff_false in Ex. apply Ex, existsb_exists. exists found. split; [by apply list_elem_of_In|].
        apply ustr_eqb_refl.
      + intros l. by rewrite elem_of_app, list_elem_of_singleton. }
  destruct (IH out' Hn') as [Hres Hiff].
  { intros l [| ->]%Ho'; [by apply Ho|done]. }
  split.
  - destruct (resolve_loop out' requested) as [ls|e].
    + destruct Hres as [Hnd Hl]. split; [done|]. intros l. rewrite Hl, Ho'. split.
      * intros [[Hlo| ->]|(Hlin & w & Hw' & He)].
        -- by left.
        -- right. split; [done|]. exists want. split; [by left|done].
        -- right. split; [done|]. exists w. split; [by right|done].
      * intros [?|(Hl' & w & [-> |Hw']%elem_of_cons & He)]; [by left; left| |].
        -- left. right. rewrite <- Hw in He.
           assert (find_label (model_label found) = Some l) as H1 by (by apply find_label_spec).
           assert (find_label (model_label found) = Some found) as H2 by (by apply find_label_spec). congruence.
        -- right. split; [done|]. by exists w.
    + destruct Hres as (w & Hw' & ?). exists w. split; [by right|done].
  - rewrite Hiff. split; [|intros Hall w Hw'; apply Hall; by right].
    intros Hall w [-> |Hw']%elem_of_cons; [|by apply Hall]. rewrite <- Hw. exists found. by apply find_label_spec.
Qed.

Lemma ner_compile_spec `{RuleDebug} s labels lo hi open config :
  kind s = KindNer labels lo hi →
  ((∃ rules, NerRule_compile s open config = Ok rules)
     ↔ open = Ok tt ∧ ∀ want, want ∈ labels → is_Some (find_label (trim_bytes want)))
  ∧ ∀ rules, NerRule_compile s open config = Ok rules →
      rules ≠ [] ∧ NoDup (map ner_label rules)
      ∧ (∀ l, (labels = [] ∨ ∃ want, want ∈ labels ∧ model_label l = trim_bytes want) → l ∈ NER_LABELS →
           ∃ r, r ∈ rules ∧ ner_label r = model_label l)
      ∧ ∀ r, r ∈ rules → spec_id (ner_spec r) = spec_id s ∧ (1 ≤ ner_max_chars r)%nat ∧ (ner_min_chars r ≤ ner_max_chars r)%nat
          ∧ category_for (ner_label r) = Some (spec_category (ner_spec r))
          ∧ (labels = [] ∨ ∃ want, want ∈ labels ∧ ner_label r = trim_bytes want).
Proof.
  intros Hk. unfold NerRule_compile. rewrite Hk. cbv zeta.
  assert (NoDup NER_LABELS) as Hnd by (apply (bool_decide_unpack _); vm_compute; reflexivity).
  assert (match resolve_labels labels with
    | Ok ls => ls ≠ [] ∧ NoDup ls ∧ ∀ l, l ∈ ls ↔ l ∈ NER_LABELS ∧ (labels = [] ∨ ∃ want, want ∈ labels ∧ model_label l = trim_bytes want)
    | Err _ => True end
    ∧ ((∃ ls, resolve_labels labels = Ok ls) ↔ ∀ want, want ∈ labels → is_Some (find_label (trim_bytes want)))) as [Hl Hiff].
  { unfold resolve_labels. destruct labels as [|want rest] eqn:El; cbn [is_empty].
    - split; [split_and!; [done|done|]|].
      + intros l. split; [intros; split; [done|by left]|by intros []].
      + split; [by intros _ ? ?%elem_of_nil|by eexists].
    - destruct (resolve_loop_spec (want :: rest) [] (NoDup_nil_2) ltac:(by intros ? ?%elem_of_nil)) as [Hres Hiff].
      split; [|done]. destruct (resolve_loop [] (want :: rest)) as [ls|] eqn:Er; [|done]. destruct Hres as [Hn Hls]. split_and!.
      + destruct (proj1 Hiff (ex_intro _ ls eq_refl) want) as [l Hlab]; [by left|]. apply find_label_spec in Hlab as [? ?].
        intros ->. assert (l ∈ []) as ?%elem_of_nil; [|done]. apply Hls. right. split; [done|]. exists want. split; [by left|done].
      + done.
      + intros l. rewrite Hls. split; [intros [?%elem_of_nil|[? ?]]; [done|by split; [|right]]|]. intros [? [|]]; [done|by right]. }
  destruct (resolve_labels labels) as [ls|e].
  2:{ split; [|done]. split; [by intros []|]. intros [_ Ha]. by apply Hiff in Ha as []. }
  destruct open as [[]|e]; [|split; [split; [by intros []|by intros []]|done]].
  destruct Hl as (Hne & Hn & Hl). split; [split; [intros _; split; [done|by apply Hiff; eexists]|by eexists]|].
  intros rules [= <-]. split_and!.
  - by destruct ls.
  - rewrite map_map. cbn [ner_label]. apply NoDup_fmap_2_strong; [|done]. intros x y Hx Hy He.
    apply Hl in Hx as [Hx _], Hy as [Hy _]. assert (find_label (model_label x) = Some x) as H1 by (by apply find_label_spec).
    assert (find_label (model_label x) = Some y) as H2 by (by apply find_label_spec). congruence.
  - intros l Hreq Hin. eexists. split; [apply list_elem_of_fmap; exists l; split; [done|by apply Hl]|done].
  - intros r (l & -> & Hin)%list_elem_of_fmap. cbn [ner_label ner_spec ner_min_chars ner_max_chars spec_id spec_category]. apply Hl in Hin as [Hin Hreq]. split_and!; [done|lia|lia| |done].
    unfold category_for. by rewrite (proj2 (find_label_spec _ l) (conj Hin eq_refl)).
Qed.

(** A named-entity rule compiles to one rule per label it asks for, with
    the category of that label, or to an error: it is refused exactly when a
    requested label is unknown or the model cannot be opened, and without a
    request it covers all eight labels.  A compiled rule is never empty. *)
Theorem ner_labels_covered `{RuleDebug} s labels lo hi open config :
  kind s = KindNer labels lo hi →
  ((∃ rules, NerRule_compile s open config = Ok rules)
     ↔ open = Ok tt ∧ ∀ want, want ∈ labels → is_Some (find_label (trim_bytes want)))
  ∧ ∀ rules, NerRule_compile s open config = Ok rules →
      rules ≠ [] ∧ NoDup (map ner_label rules)
      ∧ (∀ l, (labels = [] ∨ ∃ want, want ∈ labels ∧ model_label l = trim_bytes want) → l ∈ NER_LABELS →
           ∃ r, r ∈ rules ∧ ner_label r = model_label l)
      ∧ ∀ r, r ∈ rules → spec_id (ner_spec r) = spec_id s ∧ (1 ≤ ner_max_chars r)%nat ∧ (ner_min_chars r ≤ ner_max_chars r)%nat
          ∧ category_for (ner_label r) = Some (spec_category (ner_spec r))
          ∧ (labels = [] ∨ ∃ want, want ∈ labels ∧ ner_label r = trim_bytes want).
Proof. apply ner_compile_spec. Qed.

(** ** Concrete runs *)

Definition demo_ner (labels : list bytes) : RuleSpec := {|
  spec_id := b "people"; spec_category := b "PII"; spec_scope := Owner; spec_priority := 40; spec_stable := false;
  spec_system_prompt := false; enabled := true; kind := KindNer labels None (Some 2%nat)
|}.

Example demo_compiled :
  match NerRule_compile (H := plain_debug) (demo_ner [b " private_person "; b "secret"; b "secret"]) (Ok tt) NerConfig_default with
  | Ok rules => map (λ r, (ner_label r, spec_category (ner_spec r))) rules
  | Err _ => []
  end = [(b "private_person", b "PERSON"); (b "secret", b "SECRET")].
Proof. vm_compute. reflexivity. Qed.

(** A tokenizer of one token per byte with a model that calls every token a
    person. *)
Definition demo_outputs (text : bytes) : list (list Z * list f32) :=
  [([1; Z.of_nat (Nat.min (length text) 100); 5], concat (map (λ _, favour 4) (take 100 text)))].

Lemma demo_tensors text outputs shape data :
  Ok (E := RedactionError) (if is_empty text then [([1], [f32_of_Z 0])] else demo_outputs text) = Ok outputs →
  (shape, data) ∈ outputs →
  Forall (λ d, 0 < d < 2 ^ 63) shape ∧ Z.of_nat (length data) = tensor_size shape.
Proof.
  destruct text as [|x text]; cbn [is_empty]; intros [= <-] [= -> ->]%list_elem_of_singleton.
  - split; [repeat constructor|reflexivity].
  - split; [repeat constructor; cbn [length]; lia|].
    assert (∀ l : bytes, Z.of_nat (length (concat (map (λ _, favour 4) l))) = Z.of_nat (length l) * 5) as Hc.
    { induction l as [|y l IH]; [done|]. cbn [map concat]. rewrite length_app, Nat2Z.inj_add, IH. cbn [length].
      change (length (favour 4)) with 5%nat. lia. }
    etransitivity; [exact (Hc (take 100 (x :: text)))|]. rewrite length_take. unfold tensor_size. cbn [foldr]. change (length (x :: text)) with (S (length text)). rewrite (Nat.min_comm 100), Z.mul_1_r. symmetry. apply Z.mul_1_l.
Qed.

Definition demo_session : NerSession.
Proof.
  refine {|
    encode_text text := Ok (map (λ i, (i, S i)) (seq 0 (length text)));
    run_session text := Ok (if is_empty text then [([1], [f32_of_Z 0])] else demo_outputs text);
    session_tensors := demo_tensors
  |}.
  by intros [|x text] outputs [= <-].
Defined.
Definition demo_loaded : Loaded :=
  {| loaded_labels := demo_labels; loaded_transitions := build_transitions demo_labels;
     loaded_bias := TransitionBias_default |}.
Definition demo_digest : TextDigest := {| digest := λ x, x |}.

Lemma demo_sound L : None = Some L ∨ Ok (E := RedactionError) demo_loaded = Ok L → sound_model L.
Proof. by intros [|[= <-]]. Qed.

Example demo_run :
  match run_all_chunks (H := demo_session) (H0 := plain_math) (Ok demo_loaded) None (b "ab") 8 with
  | Some (Ok out, Some _) => map (λ s, (raw_label s, raw_start s, raw_end s)) out
  | _ => []
  end = [(b "name", 0, 1); (b "name", 1, 2)]%nat.
Proof. vm_compute. reflexivity. Qed.

Lemma chunk_spans_point_back_witness :
  ∃ chunks out after, chunk_text (b "ab") 8 = Some chunks
    ∧ run_all_chunks (H := demo_session) (H0 := plain_math) (Ok demo_loaded) None (b "ab") 8 = Some (Ok out, after)
    ∧ ∀ s, s ∈ out → aligned (b "ab") s.
Proof.
  assert (is_str (b "ab")) as Hs by (exists (utf8_decode (b "ab")); split; vm_compute; reflexivity).
  destruct (chunk_spans_point_back (H := demo_session) (H0 := plain_math) (Ok demo_loaded) None (b "ab") 8 Hs demo_sound)
    as (chunks & res & after & Hc & Hr & Hout).
  assert (∃ out, run_all_chunks (H := demo_session) (H0 := plain_math) (Ok demo_loaded) None (b "ab") 8
    = Some (Ok out, after)) as [out Ho].
  { rewrite Hr. assert ((fst <$> run_all_chunks (H := demo_session) (H0 := plain_math) (Ok demo_loaded) None (b "ab") 8)
      = Some res) as Hf by (by rewrite Hr). vm_compute in Hf. injection Hf as <-. by eexists. }
  rewrite Hr in Ho. injection Ho as ->. destruct (Hout out eq_refl) as (_ & _ & _ & Ha & _).
  exists chunks, out, after. split; [exact Hc|]. split; [exact Hr|exact Ha].
Defined.

Definition demo_span (label : string) (a z : nat) : RawSpan := {| raw_label := b label; raw_start := a; raw_end := z |}.
Definition demo_ner_rule : NerRule :=
  {| ner_spec := demo_ner []; ner_label := b "private_person"; ner_min_chars := 1; ner_max_chars := 8 |}.

Lemma ner_matches_exact_witness :
  ∃ ms, ner_match_text demo_ner_rule (b "王小明") (Ok [demo_span "private_person" 1 4]) = Some ms
    ∧ {| RedactEngine.start := 0; RedactEngine.end_ := 6; matched := b "王小" |} ∈ ms.
Proof.
  assert (is_str (b "王小明")) as Hs by (exists (utf8_decode (b "王小明")); split; vm_compute; reflexivity).
  destruct (ner_matches_exact demo_ner_rule (b "王小明") (Ok [demo_span "private_person" 1 4]) Hs) as (ms & Hm & Hin).
  exists ms. split; [exact Hm|]. apply Hin. split; [vm_compute; lia|].
  exists [demo_span "private_person" 1 4], (demo_span "private_person" 1 4). split; [reflexivity|].
  split; [by left|]. split; [reflexivity|]. split; [vm_compute; reflexivity|]. split; [vm_compute; lia|vm_compute; reflexivity].
Defined.

Lemma lru_refines_witness :
  (lru_get (lru_put (Lru_new 2) (b "a") [demo_span "secret" 0 1]) (b "a")).1 = Some [demo_span "secret" 0 1].
Proof.
  destruct (lru_refines (Lru_new 2) (b "a") [demo_span "secret" 0 1]) as [Hn Hr].
  destruct (Hr (proj1 (Hn 2%nat))) as (_ & _ & _ & Hg). exact Hg.
Defined.

Lemma ner_labels_covered_witness :
  ∃ rules, NerRule_compile (H := plain_debug) (demo_ner []) (Ok tt) NerConfig_default = Ok rules
    ∧ ∀ l, l ∈ NER_LABELS → ∃ r, r ∈ rules ∧ ner_label r = model_label l.
Proof.
  destruct (ner_labels_covered (H := plain_debug) (demo_ner []) [] None (Some 2%nat) (Ok tt) NerConfig_default eq_refl) as [Hok Hall].
  destruct (proj2 Hok) as [rules Hr]; [split; [reflexivity|by intros ? ?%elem_of_nil]|].
  destruct (Hall rules Hr) as (_ & _ & Hl & _). exists rules. split; [exact Hr|]. intros l Hin. apply Hl; [by left|exact Hin].
Defined.

(** [unload] empties the map of the cache but leaves the keys in the order of
    use.  A text stored again after it stands twice in the order; one that is
    looked up then counts as old all the same, and the next insertion drops it
    instead of the one not used since. *)
Lemma unload_leaves_stale_order :
  let put k l := lru_put l (b k) [] in
  let l := put "c"%string (put "a"%string (lru_unload (put "b"%string (put "a"%string (Lru_new 2))))) in
  let used := (lru_get l (b "a")).2 in
  lru_map used !! b "a" = Some [] ∧ lru_map used !! b "c" = Some []
  ∧ map fst (recency used) = [b "b"; b "a"; b "c"; b "a"]
  ∧ lru_map (put "d"%string used) !! b "a" = None ∧ lru_map (put "d"%string used) !! b "c" = Some [].
Proof. vm_compute. repeat split. Qed.
