(* ===== verification/DbField.v ===== *)
(** * Database columns (crates/duduclaw-redaction/src/rules/db_field.rs)

    A [db_field] rule names columns of a data source's tables.  At load time
    it is expanded into field rules, one for every entry and every tool that
    returns the table; the theorems say which nodes of which results those
    field rules select. *)

From S2P Require Import Prelude.
From S2P Require Import Bytes.
From S2P Require Import Utf8.
From S2P Require Import Chars.
From S2P Require Import RedactToken.
From S2P Require Import Vault.
From S2P Require Import RedactEngine.
From S2P Require Import Redaction.
From S2P Require Import RuleSpecs.
From S2P Require Import JsonValue.
From S2P Require Import Decimal.
From S2P Require Import JsonPath.
From S2P Require Import FieldRules.
From S2P Require Import DataSource.

Definition DEFAULT_SOURCE : bytes := BUILTIN_ODOO.
Definition WILDCARD_EXCLUDE_KEYS : list bytes := [b "id"].

(** The wildcard column. *)
Definition wildcard : bytes := b "*".

Definition resolve_source (rule_id : bytes) (source connector : option bytes) : result bytes RedactionError :=
  match source, connector with
  | Some s, Some c =>
      if ustr_eqb s c then Ok s
      else Err (RuleCompile rule_id
                  (b "db_field rule sets both source = '" ++ s ++ b "' and connector = '" ++ c
                   ++ b "' — `connector` is the deprecated spelling of `source`, so they must agree (drop `connector`)"))
  | Some s, None => Ok s
  | None, Some c => Ok c
  | None, None => Ok DEFAULT_SOURCE
  end.

(** [rsplit_once] of a byte. *)
Definition rsplit_once (s : bytes) (c : N) : option (bytes * bytes) :=
  match split_once (rev s) c with
  | Some (l, r) => Some (rev r, rev l)
  | None => None
  end.


Definition valid_field (field : bytes) : bool :=
  match field with
  | c :: r => is_lower c && forallb (λ c, is_lower c || is_digit c || (c =? 95)%N) r
  | [] => false
  end.
Definition valid_table (table : bytes) : bool :=
  negb (is_empty table) && forallb valid_field (split_at_byte 46 table).

Definition free_form_table (table : bytes) : result unit bytes :=
  if is_empty table then Err (b "must not be empty")
  else if existsb is_control (utf8_decode table) then Err (b "must not contain control characters")
  else if contains table (b "'") then Err (b "must not contain a single quote")
  else Ok tt.
Definition free_form_field (field : bytes) : result unit bytes :=
  match free_form_table field with
  | Err e => Err e
  | Ok _ => if contains field (b "/") then Err (b "must not contain '/'") else Ok tt
  end.

Definition split_entry (rule_id entry : bytes) (free_form : bool) : result (bytes * bytes) RedactionError :=
  let fail reason := Err (RuleCompile rule_id reason) in
  match rsplit_once entry 46 with
  | None => fail (b "field entry '" ++ entry ++ b "' must be 'table.column' or 'table.*'")
  | Some (table, field) =>
      if free_form then
        match free_form_table table with
        | Err reason => fail (b "invalid table name '" ++ table ++ b "' in '" ++ entry ++ b "' (" ++ reason ++ b ")")
        | Ok _ =>
            if ustr_eqb field wildcard then Ok (table, field)
            else
              match free_form_field field with
              | Err reason =>
                  fail (b "invalid column name '" ++ field ++ b "' in '" ++ entry ++ b "' (" ++ reason ++ b ")")
              | Ok _ => Ok (table, field)
              end
        end
      else if negb (valid_table table) then
        fail (b "invalid table name '" ++ table ++ b "' in '" ++ entry
              ++ b "' (expected lowercase identifier, optionally dotted, e.g. res.partner or customers)")
      else if negb (ustr_eqb field wildcard) && negb (valid_field field) then
        fail (b "invalid column name '" ++ field ++ b "' in '" ++ entry ++ b "' (expected lowercase identifier or '*')")
      else Ok (table, field)
  end.

Definition binding_gates (x : ToolBinding) (table : bytes) : option (gmap bytes bytes * gmap bytes bytes) :=
  match table_source x with
  | Fixed t => if ustr_eqb t table then Some (∅, ∅) else None
  | FromArg arg => Some ({[ arg := table ]}, ∅)
  | FromResult pointer => Some (∅, {[ pointer := table ]})
  end.

(** [bare_key] is the key that a path takes without quotes. *)
Definition bare_key (key : bytes) : bool := simple_key key.

Definition render_path (record_path key : bytes) (free_form : bool) : bytes :=
  if negb free_form || bare_key key then record_path ++ b "." ++ key
  else record_path ++ b "['" ++ key ++ b "']".

Definition identifier_entry (table field : bytes) : bool :=
  valid_table table && (ustr_eqb field wildcard || valid_field field).

Definition output_keys (x : ToolBinding) (field : bytes) : list bytes :=
  if is_empty (key_alias x) then [field]
  else map snd (retain (λ p : bytes * bytes, ustr_eqb p.1 field) (key_alias x)).

(** The rule of one entry and one tool, if there is one. *)
Definition expand_binding (s : RuleSpec) (table field : bytes) (x : ToolBinding) : option RuleSpec :=
  if negb (free_form_names x) && negb (identifier_entry table field) then None
  else
    match binding_gates x table with
    | None => None
    | Some (match_args, match_result) =>
        let rule paths exclude :=
          Some {| spec_id := spec_id s; spec_category := spec_category s; spec_scope := spec_scope s;
                  spec_priority := spec_priority s; spec_stable := spec_stable s;
                  spec_system_prompt := spec_system_prompt s; enabled := enabled s;
                  kind := KindJsonPath {| raw_paths := paths; kind_match_tool := Some (tool x);
                                          kind_match_args := match_args; kind_match_result := match_result;
                                          kind_exclude_keys := exclude |} |} in
        if ustr_eqb field wildcard then rule (record_paths x) WILDCARD_EXCLUDE_KEYS
        else
          let keys := output_keys x field in
          if is_empty keys then None
          else rule (flat_map (λ key, map (λ rp, render_path rp key (free_form_names x)) (record_paths x)) keys) []
    end.

(** The entries in turn; the first malformed one ends the load. *)
Fixpoint expand_fields (s : RuleSpec) (bs : list ToolBinding) (free_form : bool) (fields : list bytes)
    : result (list RuleSpec) RedactionError :=
  match fields with
  | [] => Ok []
  | entry :: r =>
      match split_entry (spec_id s) entry free_form with
      | Err e => Err e
      | Ok (table, field) =>
          match expand_fields s bs free_form r with
          | Err e => Err e
          | Ok out => Ok (omap (expand_binding s table field) bs ++ out)
          end
      end
  end.

Definition known_sources (registry : gmap bytes DataSource) : list bytes :=
  stable_sort ustr_leb (map fst (map_to_list registry)).

Section expansion.
Context `{RuleDebug}.

Definition expand (s : RuleSpec) (registry : gmap bytes DataSource) : result (list RuleSpec) RedactionError :=
  let fail reason := Err (RuleCompile (spec_id s) reason) in
  match kind s with
  | KindDbField source connector fields =>
      match resolve_source (spec_id s) source connector with
      | Err e => Err e
      | Ok name =>
          match registry !! name with
          | None =>
              fail (b "unknown data source '" ++ name ++ b "' (known: " ++ join_with (b ", ") (known_sources registry)
                    ++ b ") — define it under [redaction.data_sources." ++ name ++ b "]")
          | Some src =>
              if is_empty fields then fail (b "db_field rule needs at least one `table.column` entry")
              else
                match expand_fields s (bindings src) (existsb free_form_names (bindings src)) fields with
                | Err e => Err e
                | Ok [] =>
                    fail (b "no tool of data source '" ++ name ++ b "' returns any of " ++ debug_strings fields
                          ++ b " — check the table name against the source's tool bindings")
                | Ok out => Ok out
                end
          end
      end
  | other => fail (b "expected DbField kind, got " ++ debug_kind other)
  end.
End expansion.

(** ** Entries *)

Lemma rsplit_once_spec s c l r : rsplit_once s c = Some (l, r) → s = l ++ c :: r ∧ c ∉ r.
Proof.
  unfold rsplit_once. destruct (split_once (rev s) c) as [[a d]|] eqn:E; [|done]. intros [= <- <-].
  apply split_once_spec in E as [E Hn]. split.
  - rewrite <- (rev_involutive s), E, rev_app_distr. cbn. by rewrite <- app_assoc.
  - intros Hin%list_elem_of_In%in_rev%list_elem_of_In. done.
Qed.

Lemma rsplit_once_app l c r : c ∉ r → rsplit_once (l ++ c :: r) c = Some (l, r).
Proof.
  intros Hn. unfold rsplit_once. rewrite rev_app_distr. cbn [rev]. rewrite <- app_assoc. cbn [app].
  rewrite split_once_app; [by rewrite !rev_involutive|]. intros Hin%list_elem_of_In%in_rev%list_elem_of_In. done.
Qed.

(** The byte [c] is in no one-byte string that [s] contains. *)
Lemma contains_byte s c : contains s [c] = false → c ∉ s.
Proof.
  induction s as [|x s IH]; [by intros _ ?%elem_of_nil|]. rewrite contains_unfold. cbn [starts_with].
  intros [Hx Hs]%orb_false_iff [->|Hin]%elem_of_cons; [|by apply IH].
  rewrite N.eqb_refl in Hx. by destruct s.
Qed.

Lemma split_entry_parts id entry ff table field :
  split_entry id entry ff = Ok (table, field) →
  entry = table ++ b "." ++ field ∧ 46%N ∉ field
  ∧ (ff = true → free_form_table table = Ok tt ∧ (field = wildcard ∨ free_form_field field = Ok tt))
  ∧ (ff = false → identifier_entry table field = true).
Proof.
  unfold split_entry, identifier_entry. destruct (rsplit_once entry 46) as [[t f]|] eqn:E; [|done].
  apply rsplit_once_spec in E as [-> Hn]. destruct ff.
  - destruct (free_form_table t) as [[]|] eqn:Et; [|done].
    destruct (ustr_eqb f wildcard) eqn:Ew; [intros [= <- <-]; apply bool_decide_eq_true in Ew; split_and!; [done|done| |done]; intros _; split; [done|by left]|].
    destruct (free_form_field f) as [[]|] eqn:Ef; [|done]. intros [= <- <-]. split_and!; [done|done| |done]. intros _. split; [done|by right].
  - destruct (valid_table t) eqn:Et; [|done]. cbn [negb].
    destruct (ustr_eqb f wildcard) eqn:Ew; cbn [negb andb orb].
    + intros [= <- <-]. split_and!; [done|done|done|]. intros _. by rewrite Et, Ew.
    + destruct (valid_field f) eqn:Ef; [|done]. intros [= <- <-]. split_and!; [done|done|done|]. intros _. by rewrite Et, Ew, Ef.
Qed.

(** ** The text of a path to a column *)

(** Keys that a binding's paths carry as they are. *)
Definition good_key (ff : bool) (key : bytes) : bool := simple_key key || (ff && quotable key).

Lemma render_path_show rp key ff : good_key ff key = true → render_path rp key ff = rp ++ flat_map show_segment [Key key].
Proof.
  unfold good_key, render_path, bare_key. cbn [flat_map show_segment]. rewrite app_nil_r.
  destruct (simple_key key), ff; done.
Qed.

Lemma parse_render rp segs key ff :
  good_key ff key = true → parse_path rp = Ok segs → (length (render_path rp key ff) ≤ MAX_PATH_LEN)%nat →
  parse_path (render_path rp key ff) = Ok (segs ++ [Key key]).
Proof.
  intros Hk Hp. rewrite render_path_show by done. apply parse_path_extend; [done|]. cbn. rewrite andb_true_r.
  unfold good_key in Hk. destruct (simple_key key); [done|]. by apply andb_true_iff in Hk as [_ ->].
Qed.

Lemma is_lower_key c : is_lower c || is_digit c || (c =? 95)%N = true → is_key_byte c = true.
Proof.
  unfold is_key_byte, is_lower, is_digit. rewrite !orb_true_iff, !andb_true_iff, !N.leb_le, N.eqb_eq.
  rewrite ?N.eqb_eq. lia.
Qed.

Lemma valid_field_simple f : valid_field f = true → simple_key f = true.
Proof.
  unfold valid_field, simple_key. destruct f as [|c f]; [done|]. intros [Hc Hf]%andb_true_iff. cbn [is_empty negb andb forallb].
  apply andb_true_iff. split; [apply is_lower_key; by rewrite Hc|]. rewrite forallb_forall in Hf |- *.
  intros d Hd. by apply is_lower_key, Hf.
Qed.

Lemma free_form_quotable f : is_str f → free_form_field f = Ok tt → quotable f = true.
Proof.
  intros Hs. unfold free_form_field, free_form_table, quotable.
  destruct (is_empty f) eqn:Ee; [done|]. destruct (existsb is_control _) eqn:Ec; [done|].
  destruct (contains f (b "'")) eqn:Eq; [done|]. intros _. rewrite is_str_valid by done. cbn [negb andb].
  apply forallb_forall. intros c Hc%list_elem_of_In. apply negb_true_iff.
  destruct ((c =? 39) || (c =? 10) || (c =? 13))%N eqn:E; [|done]. exfalso.
  rewrite !orb_true_iff, !N.eqb_eq in E. destruct (decide (c = 39%N)) as [->|Hne]; [by apply contains_byte in Eq|].
  rewrite <- not_true_iff_false in Ec. apply Ec, existsb_exists. exists c. split; [|destruct E as [[]|]; by subst].
  apply list_elem_of_In, ascii_byte_char; [lia|done|done].
Qed.

(** Every column that an entry names renders to a key its binding can carry. *)
Lemma entry_key id entry ff table field x :
  is_str entry → split_entry id entry ff = Ok (table, field) → field ≠ wildcard →
  (ff = true ∨ free_form_names x = false) → free_form_names x || identifier_entry table field = true →
  good_key (free_form_names x) field = true.
Proof.
  intros Hs (-> & _ & Hf & _)%split_entry_parts Hw Hff Hx. unfold good_key.
  destruct (free_form_names x) eqn:Ex.
  - destruct Hff as [->|]; [|done]. destruct Hf as [_ [|Hf]]; [done|done|]. apply orb_true_iff. right.
    apply free_form_quotable; [|done]. apply (is_str_split _ table 46 field) in Hs; [by destruct Hs|lia|done].
  - cbn [orb] in Hx. unfold identifier_entry in Hx. apply andb_true_iff in Hx as [_ Hx].
    apply orb_true_iff in Hx as [Hx|Hx]; [by apply bool_decide_eq_true in Hx|]. by rewrite valid_field_simple.
Qed.

(** ** The rules of an entry *)

(** What a rule of the expansion has from its parent, and what it has not. *)
Definition inherits (r s : RuleSpec) : Prop :=
  spec_id r = spec_id s ∧ spec_category r = spec_category s ∧ spec_scope r = spec_scope s
  ∧ spec_priority r = spec_priority s ∧ spec_stable r = spec_stable s
  ∧ spec_system_prompt r = spec_system_prompt s ∧ enabled r = enabled s.

Lemma expand_binding_some s table field x r :
  expand_binding s table field x = Some r ↔
    free_form_names x || identifier_entry table field = true
    ∧ ∃ args res, binding_gates x table = Some (args, res) ∧ inherits r s
      ∧ ∃ ps excl, kind r = KindJsonPath {| raw_paths := ps; kind_match_tool := Some (tool x); kind_match_args := args;
                                            kind_match_result := res; kind_exclude_keys := excl |}
        ∧ ((field = wildcard ∧ ps = record_paths x ∧ excl = WILDCARD_EXCLUDE_KEYS)
           ∨ (field ≠ wildcard ∧ output_keys x field ≠ [] ∧ excl = []
              ∧ ps = flat_map (λ key, map (λ rp, render_path rp key (free_form_names x)) (record_paths x))
                       (output_keys x field))).
Proof.
  unfold expand_binding. rewrite <- negb_orb. destruct (free_form_names x || _) eqn:Ex; cbn [negb]; [|by split; [|intros []]].
  destruct (binding_gates x table) as [[args res]|]; [|by split; [|intros (_ & ? & ? & ? & _)]].
  destruct (ustr_eqb field wildcard) eqn:Ew.
  - apply bool_decide_eq_true in Ew as ->. split.
    + intros [= <-]. split; [done|]. exists args, res. split_and!; [done|done|]. do 2 eexists. split; [done|]. by left.
    + intros (_ & ? & ? & [= <- <-] & Hi & ? & ? & Hk & [(_ & -> & ->)|(? & _)]); [|done].
      destruct r, Hi as (? & ? & ? & ? & ? & ? & ?). cbn in *. by subst.
  - apply bool_decide_eq_false in Ew. destruct (output_keys x field) as [|k ks]; cbn [is_empty].
    + split; [done|]. by intros (_ & ? & ? & _ & _ & ? & ? & _ & [(? & _)|(_ & ? & _)]).
    + split.
      * intros [= <-]. split; [done|]. exists args, res. split_and!; [done|done|]. do 2 eexists. split; [done|]. by right.
      * intros (_ & ? & ? & [= <- <-] & Hi & ? & ? & Hk & [(? & _)|(_ & _ & -> & ->)]); [done|].
        destruct r, Hi as (? & ? & ? & ? & ? & ? & ?). cbn in *. by subst.
Qed.

Lemma expand_fields_ok s bs ff fields out :
  expand_fields s bs ff fields = Ok out →
  Forall (λ entry, ∃ tf, split_entry (spec_id s) entry ff = Ok tf) fields
  ∧ ∀ r, r ∈ out ↔ ∃ entry table field x, entry ∈ fields ∧ split_entry (spec_id s) entry ff = Ok (table, field)
      ∧ x ∈ bs ∧ expand_binding s table field x = Some r.
Proof.
  revert out. induction fields as [|entry fields IH]; intros out; cbn [expand_fields].
  { intros [= <-]. split; [constructor|]. intros r. split; [by intros ?%elem_of_nil|].
    by intros (? & ? & ? & ? & ?%elem_of_nil & _). }
  destruct (split_entry _ entry ff) as [[table field]|] eqn:Es; [|done].
  destruct (expand_fields s bs ff fields) as [rest|]; [|done]. intros [= <-].
  destruct (IH rest) as [Hf Hr]; [done|]. split; [constructor; [by eexists|done]|].
  intros r. rewrite elem_of_app, Hr. split.
  - intros [(x & Hx & Hb)%list_elem_of_omap|(e & t & f & x & ? & ?)].
    + exists entry, table, field, x. split_and!; [by left|done|done|done].
    + exists e, t, f, x. split; [by right|done].
  - intros (e & t & f & x & [->|He]%elem_of_cons & Hs & Hx & Hb).
    + left. rewrite Es in Hs. injection Hs as <- <-. apply list_elem_of_omap. by exists x.
    + right. by exists e, t, f, x.
Qed.

Lemma expand_fields_total s bs ff fields :
  Forall (λ entry, ∃ tf, split_entry (spec_id s) entry ff = Ok tf) fields → ∃ out, expand_fields s bs ff fields = Ok out.
Proof.
  induction 1 as [|entry fields [[table field] He] _ [out IH]]; cbn [expand_fields]; [by eexists|].
  rewrite He, IH. by eexists.
Qed.

(** ** The calls that an expanded rule is for *)

Lemma sorted_pairs_empty : sorted_pairs ∅ = [].
Proof. unfold sorted_pairs. by rewrite map_to_list_empty. Qed.
Lemma sorted_pairs_singleton k v : sorted_pairs {[ k := v ]} = [(k, v)].
Proof. unfold sorted_pairs. by rewrite map_to_list_singleton. Qed.

Lemma pairs_match_one find k v : pairs_match find [(k, v)] = true ↔ find k ≫= scalar_text = Some v.
Proof.
  cbn. rewrite andb_true_r. destruct (find k ≫= scalar_text) as [s|]; [|by split].
  unfold ustr_eqb. rewrite bool_decide_eq_true. split; congruence.
Qed.

(** The paths that a binding has for a column, and the keys they leave alone. *)
Inductive column_path (x : ToolBinding) (field : bytes) : list Segment → list bytes → Prop :=
| whole_row rp segs :
    field = wildcard → rp ∈ record_paths x → parse_path rp = Ok segs → column_path x field segs WILDCARD_EXCLUDE_KEYS
| one_column rp segs key :
    field ≠ wildcard → key ∈ output_keys x field → rp ∈ record_paths x → parse_path rp = Ok segs →
    column_path x field (segs ++ [Key key]) [].

(** A binding whose record paths parse, and whose aliases are keys that its
    paths can carry. *)
Definition sound_binding (x : ToolBinding) : Prop :=
  Forall (λ rp, ∃ segs, parse_path rp = Ok segs) (record_paths x)
  ∧ Forall (λ p : bytes * bytes, good_key (free_form_names x) p.2 = true) (key_alias x).

Lemma output_key_good id entry ff table field x key :
  is_str entry → split_entry id entry ff = Ok (table, field) → field ≠ wildcard →
  (ff = true ∨ free_form_names x = false) → free_form_names x || identifier_entry table field = true →
  sound_binding x → key ∈ output_keys x field → good_key (free_form_names x) key = true.
Proof.
  intros Hs He Hw Hff Hx [_ Ha]. unfold output_keys. destruct (is_empty (key_alias x)).
  - intros ->%list_elem_of_singleton. by eapply entry_key.
  - intros ([c k] & -> & [Hin _]%elem_of_retain)%list_elem_of_fmap. rewrite Forall_forall in Ha. by apply (Ha (c, k)), list_elem_of_In.
Qed.

Section selection.
Context `{JsonPointer} `{RuleDebug}.

(** The call's table, as the binding's tool gives it. *)
Definition names_table (x : ToolBinding) (table : bytes) (ctx : ToolContext) (v : Value) : Prop :=
  match table_source x with
  | Fixed t => t = table
  | FromArg arg => ∃ es, call_args ctx = Some (VObject es) ∧ entry es arg ≫= scalar_text = Some table
  | FromResult p => pointer v p ≫= scalar_text = Some table
  end.

(** What compiling keeps of an expanded rule. *)
Lemma compile_fields r jr k :
  kind r = KindJsonPath k → JsonPathRule_compile r = Ok jr →
  spec jr = r ∧ Forall2 (λ raw p, parse_path raw = Ok p) (raw_paths k) (paths jr) ∧ tool_pattern jr = kind_match_tool k
  ∧ match_args jr = sorted_pairs (kind_match_args k) ∧ match_result jr = sorted_pairs (kind_match_result k)
  ∧ exclude_keys jr = kind_exclude_keys k.
Proof.
  unfold JsonPathRule_compile. intros ->. destruct (is_empty _); [done|]. destruct (_ <? _)%nat; [done|].
  destruct (blank_tool k); [done|]. destruct (try_map parse_path (raw_paths k)) as [ps|] eqn:Ep; [|done].
  destruct (List.find _ _); [done|]. intros [= <-]. cbn. split_and!; try done. by apply try_map_ok.
Qed.

(** The gates of a compiled rule, for every way a table is given. *)
Lemma gates_exact x table args res jr ctx v :
  binding_gates x table = Some (args, res) → match_args jr = sorted_pairs args → match_result jr = sorted_pairs res →
  matches_args jr (call_args ctx) && matches_result jr v = true ↔ names_table x table ctx v.
Proof.
  unfold binding_gates, names_table, matches_args, matches_result. intros Hg -> ->.
  destruct (table_source x) as [arg|t|p].
  - injection Hg as <- <-. rewrite sorted_pairs_empty, sorted_pairs_singleton, andb_true_r. cbn [is_empty].
    destruct (call_args ctx) as [[| | | | |es]|]; try (split; [done|by intros (? & ? & _)]).
    rewrite pairs_match_one. split; [intros He; by exists es|]. by intros (? & [= <-] & ?).
  - destruct (ustr_eqb t table) eqn:Et; [|done]. injection Hg as <- <-. rewrite sorted_pairs_empty. cbn.
    by apply bool_decide_eq_true in Et.
  - injection Hg as <- <-. rewrite sorted_pairs_empty, sorted_pairs_singleton. cbn [is_empty andb]. apply pairs_match_one.
Qed.

Lemma gates_none x table ctx v : binding_gates x table = None → ¬ names_table x table ctx v.
Proof.
  unfold binding_gates, names_table. destruct (table_source x) as [|t|]; try done.
  destruct (ustr_eqb t table) eqn:Et; [done|]. by apply bool_decide_eq_false in Et.
Qed.

(** The compiled rule of an entry and a binding. *)
Lemma expanded_rule id entry ff s table field x r jr :
  is_str entry → split_entry id entry ff = Ok (table, field) → (ff = true ∨ free_form_names x = false) →
  sound_binding x → expand_binding s table field x = Some r → JsonPathRule_compile r = Ok jr →
  inherits (spec jr) s ∧ tool_pattern jr = Some (tool x)
  ∧ (∀ ctx v, matches_args jr (call_args ctx) && matches_result jr v = true ↔ names_table x table ctx v)
  ∧ ∀ path excl, (path ∈ paths jr ∧ excl = exclude_keys jr) ↔ column_path x field path excl.
Proof.
  intros Hs He Hff Hx (Hid & args & res & Hg & Hi & ps & excl & Hk & Hp)%expand_binding_some Hc.
  destruct (compile_fields r jr _ Hk Hc) as (-> & Hps & Ht & Ha & Hr & Hex). cbn in *.
  split_and!; [done|done|by intros; eapply gates_exact|]. intros path excl'. rewrite Hex.
  assert (path ∈ paths jr ↔ ∃ raw, raw ∈ ps ∧ parse_path raw = Ok path) as ->.
  { split; [intros Hin|intros (raw & Hin & Hraw)].
    - apply list_elem_of_lookup in Hin as [i Hl]. destruct (Forall2_lookup_r _ _ _ _ _ Hps Hl) as (raw & Hraw & ?).
      exists raw. split; [by eapply list_elem_of_lookup_2|done].
    - apply list_elem_of_lookup in Hin as [i Hl]. destruct (Forall2_lookup_l _ _ _ _ _ Hps Hl) as (p & Hpl & ?).
      assert (p = path) as -> by congruence. by eapply list_elem_of_lookup_2. }
  destruct Hp as [(-> & -> & ->)|(Hw & Hne & -> & ->)].
  - split; [intros [(raw & Hin & Hraw) ->]; by econstructor|]. inversion 1; subst; [|done]. split; [by eexists|done].
  - assert (∀ key rp segs, key ∈ output_keys x field → rp ∈ record_paths x → parse_path rp = Ok segs →
      ∃ raw, raw = render_path rp key (free_form_names x) ∧ parse_path raw = Ok (segs ++ [Key key])) as Hren.
    { intros key rp segs Hkey Hrp Hsegs. eexists. split; [done|]. apply parse_render; [|done|].
      { by eapply output_key_good. }
      assert (render_path rp key (free_form_names x) ∈
        flat_map (λ key, map (λ rp, render_path rp key (free_form_names x)) (record_paths x)) (output_keys x field)) as Hin.
      { apply elem_of_flat_map. exists key. split; [done|]. apply list_elem_of_fmap. by exists rp. }
      apply list_elem_of_lookup in Hin as [i Hl]. destruct (Forall2_lookup_l _ _ _ _ _ Hps Hl) as (p & _ & Hpp).
      unfold parse_path in Hpp. destruct (Nat.ltb_spec MAX_PATH_LEN (length (render_path rp key (free_form_names x)))); [done|lia]. }
    destruct Hx as [Hrps Ha']. split.
    + intros [(raw & (key & Hkey & Hin)%elem_of_flat_map & Hraw) ->].
      apply list_elem_of_fmap in Hin as (rp & -> & Hrp).
      rewrite Forall_forall in Hrps. destruct (Hrps rp (proj1 (list_elem_of_In _ _) Hrp)) as [segs Hsegs].
      destruct (Hren key rp segs Hkey Hrp Hsegs) as (? & -> & Hraw'). rewrite Hraw in Hraw'. injection Hraw' as ->.
      by econstructor.
    + inversion 1; subst; [done|]. split; [|done].
      edestruct Hren as (? & -> & Hraw); [done..|]. eexists. split; [|done].
      apply elem_of_flat_map. eexists. split; [done|]. apply list_elem_of_fmap. by eexists.
Qed.

(** A place that the entry [entry] of a rule of [s] selects through [x]. *)
Definition selected_column (s : RuleSpec) (src : DataSource) (entry : bytes) (x : ToolBinding)
    (ctx : ToolContext) (v : Value) (p : bytes) (excl : list bytes) : Prop :=
  ∃ table field path steps n,
    split_entry (spec_id s) entry (existsb free_form_names (bindings src)) = Ok (table, field)
    ∧ free_form_names x || identifier_entry table field = true
    ∧ match_tool (tool x) (tool_name ctx) = true ∧ names_table x table ctx v
    ∧ column_path x field path excl ∧ path_matches path steps ∧ node_at v steps = Some n
    ∧ (length steps ≤ MAX_PATH_DEPTH)%nat ∧ p = pointer_of steps.

Lemma try_map_elem {A B Er} (f : A → result B Er) l ys y :
  try_map f l = Ok ys → y ∈ ys ↔ ∃ x, x ∈ l ∧ f x = Ok y.
Proof.
  intros Hf%try_map_ok. split.
  - intros [i Hl]%list_elem_of_lookup. destruct (Forall2_lookup_r _ _ _ _ _ Hf Hl) as (x & Hx & ?).
    exists x. split; [by eapply list_elem_of_lookup_2|done].
  - intros (x & [i Hl]%list_elem_of_lookup & Hx). destruct (Forall2_lookup_l _ _ _ _ _ Hf Hl) as (z & Hz & ?).
    assert (z = y) as -> by congruence. by eapply list_elem_of_lookup_2.
Qed.

Lemma expand_source s registry out source connector fields name src :
  kind s = KindDbField source connector fields → resolve_source (spec_id s) source connector = Ok name →
  registry !! name = Some src → expand s registry = Ok out →
  fields ≠ [] ∧ out ≠ [] ∧ expand_fields s (bindings src) (existsb free_form_names (bindings src)) fields = Ok out.
Proof.
  unfold expand. intros -> -> ->. destruct fields as [|f fs]; [done|]. cbn [is_empty].
  destruct (expand_fields s _ _ (f :: fs)) as [[|r rs]|]; [done| |done]. by intros [= <-].
Qed.

(** The binding of an entry is free-form only where the source is. *)
Lemma binding_mode src x : x ∈ bindings src → existsb free_form_names (bindings src) = true ∨ free_form_names x = false.
Proof.
  intros Hx. destruct (free_form_names x) eqn:E; [left|by right]. apply existsb_exists. exists x.
  split; [by apply list_elem_of_In|done].
Qed.

(** The hits of the compiled rules, by the entry and the binding they come
    from. *)
Lemma expanded_hits s src (fields : list bytes) (out : list RuleSpec) rules v ctx setting :
  (∀ r, r ∈ out ↔ ∃ entry table field x, entry ∈ fields
     ∧ split_entry (spec_id s) entry (existsb free_form_names (bindings src)) = Ok (table, field)
     ∧ x ∈ bindings src ∧ expand_binding s table field x = Some r) →
  try_map JsonPathRule_compile out = Ok rules →
  ∀ h, h ∈ apply_structured rules v ctx setting ↔ ∃ entry table field x r, entry ∈ fields
    ∧ split_entry (spec_id s) entry (existsb free_form_names (bindings src)) = Ok (table, field) ∧ x ∈ bindings src
    ∧ expand_binding s table field x = Some r ∧ JsonPathRule_compile r = Ok (hit_rule h)
    ∧ applies setting ctx v (hit_rule h) = true ∧ hit_pointer h ∈ resolve_pointers (hit_rule h) v.
Proof.
  intros Hout Hc h. rewrite elem_of_apply_structured, (try_map_elem _ _ _ (hit_rule h) Hc). setoid_rewrite Hout. naive_solver.
Qed.

(** A binding that has a path for the column of the call's table has a rule. *)
Lemma column_has_rule s table field x ctx v path excl :
  free_form_names x || identifier_entry table field = true → names_table x table ctx v → column_path x field path excl →
  ∃ r, expand_binding s table field x = Some r.
Proof.
  intros Hid Hnt Hcp. unfold expand_binding. rewrite <- negb_orb, Hid. cbn [negb].
  destruct (binding_gates x table) as [[args res]|] eqn:Eg; [|by eapply gates_none in Hnt].
  destruct (ustr_eqb field wildcard) eqn:Ew; [by eexists|].
  destruct (output_keys x field) eqn:Eo; [|by eexists].
  inversion Hcp; subst; [by rewrite ustr_eqb_refl in Ew|].
  match goal with K : _ ∈ output_keys _ _ |- _ => rewrite Eo in K; by apply elem_of_nil in K end.
Qed.

(** ** Which rules load *)

(** What the registry promises of a binding. *)
Definition loadable (x : ToolBinding) : bool :=
  negb (is_empty (record_paths x))
  && forallb (λ rp, match parse_path rp with Ok _ => true | Err _ => false end) (record_paths x)
  && negb (is_blank_bytes (tool x))
  && match table_source x with FromResult p => starts_with p (b "/") | _ => true end.

Lemma into_source_loadable d name src x : into_source d name = Ok src → x ∈ bindings src → loadable x = true.
Proof.
  intros (Hne & Hb & Hg & table & Ht & (us & Hus) & ->)%into_source_ok. cbn [bindings].
  intros (t & -> & Hin)%list_elem_of_fmap. unfold loadable. cbn [record_paths tool table_source].
  repeat (apply andb_true_iff; split).
  - destruct (def_record_paths d); done.
  - apply forallb_forall. intros rp Hrp. apply try_map_ok in Hus. apply list_elem_of_In, list_elem_of_lookup in Hrp as [i Hi].
    destruct (Forall2_lookup_l _ _ _ _ _ Hus Hi) as (u & _ & Hu). unfold check_record_path in Hu.
    by destruct (parse_path rp).
  - apply negb_true_iff. rewrite <- not_true_iff_false in Hb |- *. intros Hx. apply Hb, existsb_exists. exists t.
    split; [by apply list_elem_of_In|done].
  - destruct table as [| |p]; [done|done|]. pose proof (table_of_fields _ _ _ Hg Ht) as (H1 & H2 & H3).
    unfold table_of in Ht. rewrite H1, H2, H3 in Ht. change (default [] (Some p)) with p in Ht.
    by destruct (starts_with p (b "/")) eqn:Ep.
Qed.

(** The shipped sources are sound and loadable. *)
Definition is_sound (x : ToolBinding) : bool :=
  forallb (λ rp, match parse_path rp with Ok _ => true | Err _ => false end) (record_paths x)
  && forallb (λ p : bytes * bytes, good_key (free_form_names x) p.2) (key_alias x).

Lemma is_sound_sound x : is_sound x = true → sound_binding x.
Proof.
  intros [Hp Ha]%andb_true_iff. split; apply List.Forall_forall; intros y Hy.
  - rewrite forallb_forall in Hp. specialize (Hp y Hy). destruct (parse_path y); [by eexists|done].
  - rewrite forallb_forall in Ha. by apply Ha.
Qed.

Lemma shipped_source src x : src ∈ builtin_sources → x ∈ bindings src → sound_binding x ∧ loadable x = true.
Proof.
  intros Hs Hx.
  assert (forallb (λ s, forallb (λ x, is_sound x && loadable x) (bindings s)) builtin_sources = true) as Ha
    by (vm_compute; reflexivity).
  rewrite forallb_forall in Ha. apply list_elem_of_In, Ha in Hs. rewrite forallb_forall in Hs.
  apply list_elem_of_In, Hs, andb_true_iff in Hx as [Hx Hl]. split; [by apply is_sound_sound|done].
Qed.

(** A source of a loaded registry is a shipped one or the operator's. *)
Lemma registry_source config R name src :
  registry config = Ok R → R !! name = Some src →
  (∃ d, config !! name = Some d ∧ into_source d name = Ok src) ∨ src ∈ builtin_sources.
Proof.
  intros HR Hsrc. apply registry_holds with (name := name) in HR. destruct (config !! name) as [d|].
  - left. destruct HR as (s & Hs & Hl). rewrite Hsrc in Hl. injection Hl as ->. by exists d.
  - right. rewrite HR in Hsrc. unfold builtin_registry, builtin_sources in Hsrc. cbn [foldl] in Hsrc.
    repeat (apply lookup_insert_Some in Hsrc as [[_ <-]|[_ Hsrc]]; [repeat first [by left|right]|]). done.
Qed.

Lemma registry_loadable config R name src x :
  registry config = Ok R → R !! name = Some src → x ∈ bindings src → loadable x = true.
Proof.
  intros HR Hsrc. destruct (registry_source config R name src HR Hsrc) as [(d & _ & Hd)|Hb].
  - by eapply into_source_loadable.
  - by apply shipped_source.
Qed.

(** The operator's key aliases, which loading takes as they are written. *)
Definition plain_aliases (config : gmap bytes DataSourceDef) : Prop :=
  ∀ name d column key, config !! name = Some d → def_key_alias d !! column = Some key →
    good_key (def_free_form d) key = true.

Lemma into_source_sound d name src x :
  into_source d name = Ok src → (∀ column key, def_key_alias d !! column = Some key → good_key (def_free_form d) key = true) →
  x ∈ bindings src → sound_binding x.
Proof.
  intros Hs Hal Hx. apply into_source_ok in Hs as (_ & _ & _ & table & _ & (us & Hus) & ->). cbn [bindings] in Hx.
  apply list_elem_of_fmap in Hx as (t & -> & _). split; cbn [record_paths key_alias free_form_names]; apply List.Forall_forall.
  - intros rp Hrp. apply try_map_ok in Hus. apply list_elem_of_In, list_elem_of_lookup in Hrp as [i Hi].
    destruct (Forall2_lookup_l _ _ _ _ _ Hus Hi) as (u & _ & Hu). unfold check_record_path in Hu.
    destruct (parse_path rp); [by eexists|done].
  - intros [column key] Hp%list_elem_of_In. apply (Hal column). rewrite sorted_pairs_Permutation in Hp.
    by apply elem_of_map_to_list in Hp.
Qed.

Lemma registry_sound config R name src x :
  registry config = Ok R → plain_aliases config → R !! name = Some src → x ∈ bindings src → sound_binding x.
Proof.
  intros HR Hpl Hsrc. destruct (registry_source config R name src HR Hsrc) as [(d & Hd & Hs)|Hb].
  - eapply into_source_sound; [done|]. intros column key. by apply Hpl with name.
  - intros Hx. by apply (shipped_source src).
Qed.

(** C33 The rules of a database column protect that column and nothing else.
    Against a registry that loaded, and provided the key aliases of the
    operator's own sources are keys a path can carry (identifiers, or quotable
    names of a free-form source), the field rules that an accepted [db_field]
    rule expands to, compiled and run on a tool result, select exactly the
    places of the named columns: for an entry and a tool of the source, when
    the call is of that tool and names the entry's table, every node under a
    record path and the column's output key (or the whole record but its [id],
    for [table.*]), at most 64 levels deep; unless the category filter of the
    setting leaves the rule's category out, when they select nothing.  Every
    hit carries the parent's identifier, category, scope and priority. *)
Theorem db_columns_selected config R s out rules source connector fields name src v ctx setting :
  registry config = Ok R → plain_aliases config →
  kind s = KindDbField source connector fields → resolve_source (spec_id s) source connector = Ok name →
  R !! name = Some src → (∀ entry, entry ∈ fields → is_str entry) →
  expand s R = Ok out → try_map JsonPathRule_compile out = Ok rules → unique_keys v →
  (∀ h, h ∈ apply_structured rules v ctx setting → inherits (spec (hit_rule h)) s)
  ∧ ∀ p excl,
      (∃ h, h ∈ apply_structured rules v ctx setting ∧ hit_pointer h = p ∧ excl = exclude_keys (hit_rule h))
      ↔ allows_category setting (spec_category s) = true
        ∧ ∃ entry x, entry ∈ fields ∧ x ∈ bindings src ∧ selected_column s src entry x ctx v p excl.
Proof.
  intros HR Hpl Hk Hn Hr Hstr He Hc Hu.
  pose proof (λ x, registry_sound config R name src x HR Hpl Hr) as Hsb. destruct (expand_source _ _ _ _ _ _ _ _ Hk Hn Hr He) as (_ & _ & Hout).
  apply expand_fields_ok in Hout as [_ Hout]. pose proof (expanded_hits _ _ _ _ _ v ctx setting Hout Hc) as Hhits.
  split.
  { intros h (entry & table & field & x & r & Hin & Hs & Hx & Hb & Hjr & _)%Hhits.
    edestruct (expanded_rule (spec_id s) entry) as (? & _); [by apply Hstr|done|by apply binding_mode|by apply Hsb|done..]. }
  intros p excl. split.
  - intros (h & (entry & table & field & x & r & Hin & Hs & Hx & Hb & Hjr & Ha & Hp)%Hhits & <- & ->).
    edestruct (expanded_rule (spec_id s) entry) as (Hi & Ht & Hg & Hpath);
      [by apply Hstr|done|by apply binding_mode|by apply Hsb|done..|].
    unfold applies, matches_tool in Ha. rewrite Ht in Ha. apply andb_true_iff in Ha as [Ha Hcat].
    rewrite <- andb_assoc in Ha. apply andb_true_iff in Ha as [Htool Hga]. apply Hg in Hga.
    destruct Hi as (_ & Hic & _). rewrite Hic in Hcat. split; [done|].
    apply elem_of_resolve_pointers in Hp as (path & steps & n & Hpa & Hm & Hnode & Hd & Hptr);
      [|done|apply compiled_paths; by exists r].
    exists entry, x. split_and!; [done|done|]. exists table, field, path, steps, n. split_and!; try done.
    + by apply expand_binding_some in Hb as [? _].
    + by apply Hpath.
  - intros (Hcat & entry & x & Hin & Hx & table & field & path & steps & n & Hs & Hid & Htool & Hnt & Hcp & Hm & Hnode & Hd & ->).
    destruct (column_has_rule s table field x ctx v path excl Hid Hnt Hcp) as [r Hb].
    assert (r ∈ out) as [i Hi]%list_elem_of_lookup by (apply Hout; by exists entry, table, field, x).
    apply try_map_ok in Hc. destruct (Forall2_lookup_l _ _ _ _ _ Hc Hi) as (jr & Hjl & Hjr).
    edestruct (expanded_rule (spec_id s) entry) as (Hinh & Ht & Hg & Hpath);
      [by apply Hstr|done|by apply binding_mode|by apply Hsb|done..|].
    apply Hpath in Hcp as [Hcp ->].
    exists {| hit_pointer := pointer_of steps; hit_rule := jr |}. split_and!; [|done|done].
    apply Hhits. exists entry, table, field, x, r. split_and!; try done.
    + unfold applies, matches_tool. cbn. destruct Hinh as (_ & Hic & _).
      rewrite Ht, Htool, Hic, Hcat, andb_true_r. by apply Hg.
    + cbn. apply elem_of_resolve_pointers; [done|apply compiled_paths; by exists r|]. by exists path, steps, n.
Qed.

End selection.

Lemma try_map_total {A B Er} (f : A → result B Er) l :
  (∀ x, x ∈ l → ∃ y, f x = Ok y) → ∃ ys, try_map f l = Ok ys.
Proof.
  induction l as [|x l IH]; intros Hf; cbn [try_map]; [by eexists|].
  destruct (Hf x) as [y ->]; [by left|]. destruct IH as [ys ->]; [|by eexists]. intros z Hz. apply Hf. by right.
Qed.

Section loading.
Context `{RuleDebug}.

(** The sizes that compiling limits. *)
Definition within_limits (r : RuleSpec) : Prop :=
  match kind r with
  | KindJsonPath k => (length (raw_paths k) ≤ MAX_PATHS)%nat ∧ ∀ raw, raw ∈ raw_paths k → (length raw ≤ MAX_PATH_LEN)%nat
  | _ => True
  end.

Lemma expanded_compiles id entry ff s table field x r :
  is_str entry → split_entry id entry ff = Ok (table, field) → (ff = true ∨ free_form_names x = false) →
  sound_binding x → loadable x = true → expand_binding s table field x = Some r → within_limits r →
  ∃ jr, JsonPathRule_compile r = Ok jr.
Proof.
  intros Hs He Hff Hx Hl (Hid & args & res & Hg & _ & ps & excl & Hk & Hp)%expand_binding_some Hlim.
  unfold loadable in Hl. reflect_bools. unfold within_limits in Hlim. rewrite Hk in Hlim. cbn in Hlim.
  destruct Hlim as [Hlen Hshort]. unfold JsonPathRule_compile. rewrite Hk. unfold blank_tool.
  cbn [raw_paths kind_match_tool kind_match_args kind_match_result kind_exclude_keys].
  match goal with K : is_blank_bytes _ = false |- _ => unfold is_blank_bytes in K; rewrite K end.
  rewrite (proj2 (Nat.ltb_ge _ _)) by done.
  assert (is_empty ps = false) as ->.
  { destruct (record_paths x) eqn:Er; [done|]. destruct Hp as [(_ & -> & _)|(_ & Hne & _ & ->)]; [done|].
    by destruct (output_keys x field). }
  destruct (try_map_total parse_path ps) as [paths ->].
  { intros raw Hraw. destruct Hx as [Hrps Ha]. rewrite Forall_forall in Hrps.
    destruct Hp as [(_ & -> & _)|(Hw & _ & _ & ->)]; [by apply Hrps, list_elem_of_In|].
    pose proof (Hshort raw Hraw) as Hsr. apply elem_of_flat_map in Hraw as (key & Hkey & Hin).
    apply list_elem_of_fmap in Hin as (rp & -> & Hrp). destruct (Hrps rp) as [segs Hsegs]; [by apply list_elem_of_In|].
    eexists. apply parse_render; [|done|done]. eapply output_key_good; try done. by split; [apply List.Forall_forall|]. }
  assert (List.find (λ p : bytes * bytes, negb (starts_with p.1 (b "/"))) (sorted_pairs res) = None) as ->; [|by eexists].
  unfold binding_gates in Hg. destruct (table_source x) as [arg|t|p].
  - injection Hg as <- <-. by rewrite sorted_pairs_empty.
  - destruct (ustr_eqb t table); [|done]. injection Hg as <- <-. by rewrite sorted_pairs_empty.
  - injection Hg as <- <-. rewrite sorted_pairs_singleton. cbn [List.find fst].
    by match goal with K : starts_with p _ = true |- _ => rewrite K end.
Qed.

(** Which [db_field] rules load.  Against a registry that loaded, a rule is
    expanded exactly when its source is known, every entry is well formed and
    some tool of the source returns one of its columns; and what it expands to
    always compiles, unless a size limit of field rules is exceeded. *)
Theorem db_rules_load config R s source connector fields name src :
  registry config = Ok R → kind s = KindDbField source connector fields →
  resolve_source (spec_id s) source connector = Ok name → R !! name = Some src →
  (∀ entry, entry ∈ fields → is_str entry) → plain_aliases config →
  let split entry := split_entry (spec_id s) entry (existsb free_form_names (bindings src)) in
  ((∃ out, expand s R = Ok out) ↔
     (∀ entry, entry ∈ fields → ∃ tf, split entry = Ok tf)
     ∧ ∃ entry table field x, entry ∈ fields ∧ split entry = Ok (table, field) ∧ x ∈ bindings src
         ∧ is_Some (expand_binding s table field x))
  ∧ ∀ out, expand s R = Ok out → (∀ r, r ∈ out → within_limits r) →
      ∃ rules, try_map JsonPathRule_compile out = Ok rules.
Proof.
  intros HR Hk Hn Hr Hstr Hpl split.
  pose proof (λ x, registry_sound config R name src x HR Hpl Hr) as Hsb. split; [split|].
  - intros [out He]. destruct (expand_source _ _ _ _ _ _ _ _ Hk Hn Hr He) as (_ & Hne & Hout).
    apply expand_fields_ok in Hout as [Hall Hout]. split; [by rewrite list.Forall_forall in Hall|].
    destruct out as [|r out]; [done|]. destruct (proj1 (Hout r)) as (entry & table & field & x & ? & ? & ? & ?); [by left|].
    by exists entry, table, field, x.
  - intros [Hall (entry & table & field & x & Hin & Hs & Hx & r & Hb)].
    destruct (expand_fields_total s (bindings src) (existsb free_form_names (bindings src)) fields) as [out Hout].
    { by apply list.Forall_forall. }
    exists out. unfold expand. rewrite Hk, Hn, Hr, Hout. apply expand_fields_ok in Hout as [_ Hout].
    assert (r ∈ out) as Hro by (apply Hout; by exists entry, table, field, x).
    destruct fields; [by apply elem_of_nil in Hin|]. cbn [is_empty]. destruct out; [by apply elem_of_nil in Hro|done].
  - intros out He Hlim. destruct (expand_source _ _ _ _ _ _ _ _ Hk Hn Hr He) as (_ & _ & Hout).
    apply expand_fields_ok in Hout as [_ Hout]. apply try_map_total. intros r Hin.
    specialize (Hlim r Hin). apply Hout in Hin as (entry & table & field & x & Hin & Hs & Hx & Hb).
    eapply expanded_compiles; [by apply Hstr|done|by apply binding_mode|by apply Hsb|by eapply registry_loadable|done|done].
Qed.
End loading.

(** ** Concrete runs *)

Definition demo_db_rule (source : string) (fields : list bytes) : RuleSpec := {|
  spec_id := b "customer_master"; spec_category := b "DB_FIELD"; spec_scope := Owner; spec_priority := 70;
  spec_stable := false; spec_system_prompt := false; enabled := true;
  kind := KindDbField (Some (b source)) None fields
|}.

Definition file_rule : RuleSpec := demo_db_rule "duduclaw_files" [b "客戶清單.xlsx.地址"].
Definition file_result : Value :=
  VObject [(b "table", VString (b "客戶清單.xlsx")); (b "rows", VArray [VObject [(b "地址", VString (b "x"))]])].

Definition no_debug : RuleDebug := {| debug_kind := λ _, []; debug_strings := λ _, [] |}.

Definition paths_of (r : RuleSpec) : list bytes := match kind r with KindJsonPath k => raw_paths k | _ => [] end.
Definition out_paths (x : result (list RuleSpec) RedactionError) : option (list (list bytes)) :=
  match x with Ok out => Some (map paths_of out) | Err _ => None end.

Example file_rule_expands :
  out_paths (@expand no_debug file_rule builtin_registry) = Some [[b "$.rows[*]['地址']"]; [b "$.rows[*]['地址']"]].
Proof. vm_compute. reflexivity. Qed.

(** An aliased column: two output keys of the leads tool carry it. *)
Example alias_expands :
  option_map (drop 2) (out_paths (@expand no_debug (demo_db_rule "odoo" [b "crm.lead.stage_id"]) builtin_registry))
  = Some [[b "$[*].stage"; b "$.stage"; b "$[*].stage_id"; b "$.stage_id"]].
Proof. vm_compute. reflexivity. Qed.

Lemma file_entry_str entry : entry ∈ [b "客戶清單.xlsx.地址"] → is_str entry.
Proof. intros ->%list_elem_of_singleton. exists (u "客戶清單.xlsx.地址"). split; vm_compute; reflexivity. Qed.

Lemma shipped_registry : registry ∅ = Ok builtin_registry.
Proof. vm_compute. reflexivity. Qed.
Lemma no_aliases : plain_aliases ∅.
Proof. intros name d column key Hd. by rewrite lookup_empty in Hd. Qed.

Lemma db_columns_selected_witness :
  ∃ out rules, @expand no_debug file_rule builtin_registry = Ok out
    ∧ try_map (@JsonPathRule_compile no_debug) out = Ok rules
    ∧ ∃ h, h ∈ @apply_structured rfc6901 rules file_result {| tool_name := b "csv_read"; call_args := None |} (mode_only On)
        ∧ hit_pointer h = b "/rows/0/地址".
Proof.
  assert (∃ out, @expand no_debug file_rule builtin_registry = Ok out
          ∧ ∃ rules, try_map (@JsonPathRule_compile no_debug) out = Ok rules) as (out & Ho & rules & Hr).
  { eexists. split; [vm_compute; reflexivity|]. eexists. vm_compute. reflexivity. }
  exists out, rules. split; [exact Ho|]. split; [exact Hr|].
  assert (unique_keys file_result) as Hu by (apply distinct_keys_unique; vm_compute; reflexivity).
  refine (match proj2 (proj2 (@db_columns_selected rfc6901 no_debug ∅ builtin_registry file_rule out rules
    (Some (b "duduclaw_files")) None [b "客戶清單.xlsx.地址"] (b "duduclaw_files") duduclaw_files_source
    file_result {| tool_name := b "csv_read"; call_args := None |} (mode_only On) shipped_registry no_aliases eq_refl eq_refl _ file_entry_str Ho Hr Hu)
    (b "/rows/0/地址") []) _ with ex_intro _ h (conj H1 (conj H2 _)) => ex_intro _ h (conj H1 H2) end).
  - vm_compute. reflexivity.
  - split; [reflexivity|]. exists (b "客戶清單.xlsx.地址"), (file_binding "csv_read"). split; [left|]. split; [left|].
    exists (b "客戶清單.xlsx"), (b "地址"), [Key (b "rows"); AllIndices; Key (b "地址")],
      [SKey (b "rows"); SIdx 0; SKey (b "地址")], (VString (b "x")).
    split_and!; try (vm_compute; reflexivity).
    + apply (one_column _ _ (b "$.rows[*]") [Key (b "rows"); AllIndices]);
        [intros He; vm_compute in He; discriminate He|left|left|vm_compute; reflexivity].
    + apply (pm_cons _ _ [SKey (b "rows")]); [constructor|]. apply (pm_cons _ _ [SIdx 0]); [constructor|].
      apply (pm_cons _ _ [SKey (b "地址")] []); [constructor|]. constructor.
    + cbn. unfold MAX_PATH_DEPTH. lia.
Defined.

Lemma db_rules_load_witness :
  ∃ R out rules, registry ∅ = Ok R ∧ @expand no_debug file_rule R = Ok out
    ∧ try_map (@JsonPathRule_compile no_debug) out = Ok rules.
Proof.
  exists builtin_registry. pose proof shipped_registry as HR.
  assert (∃ out, @expand no_debug file_rule builtin_registry = Ok out ∧ ∀ r, r ∈ out → within_limits r) as (out & Ho & Hl).
  { eexists. split; [vm_compute; reflexivity|]. intros r Hr.
    repeat (apply elem_of_cons in Hr as [->|Hr]; [split; [apply Nat.leb_le; vm_compute; reflexivity|]|];
            [intros raw ->%list_elem_of_singleton; apply Nat.leb_le; vm_compute; reflexivity|]).
    by apply elem_of_nil in Hr. }
  exists out. refine (match proj2 (@db_rules_load no_debug ∅ builtin_registry file_rule (Some (b "duduclaw_files")) None
    [b "客戶清單.xlsx.地址"] (b "duduclaw_files") duduclaw_files_source HR eq_refl eq_refl _ file_entry_str no_aliases) out Ho Hl
    with ex_intro _ rules Hc => ex_intro _ rules (conj HR (conj Ho Hc)) end).
  vm_compute. reflexivity.
Defined.

(** An entry that no binding can express is refused when it is alone, and
    dropped without a word beside one that some binding can. *)
Definition erp_source : DataSource := {|
  source_name := b "erp"; source_label := b "erp"; builtin := false;
  bindings := [{| tool := b "erp_customers"; table_source := Fixed (b "customers"); record_paths := [b "$.rows[*]"];
                  key_alias := []; free_form_names := false |}]
|}.

Lemma misspelt_table_dropped :
  out_paths (@expand no_debug (demo_db_rule "erp" [b "costumers.email"]) {[ b "erp" := erp_source ]}) = None
  ∧ out_paths (@expand no_debug (demo_db_rule "erp" [b "customers.email"; b "costumers.phone"]) {[ b "erp" := erp_source ]})
    = Some [[b "$.rows[*].email"]].
Proof. by split; vm_compute. Qed.

(** Loading copies a key alias as it is written.  One with a dot names a
    nested node: the value under the key itself is not selected. *)
Definition dotted_source : DataSourceDef := {|
  def_label := b "crm"; def_tools := [b "crm_read"]; def_table_arg := None; def_table := Some (b "lead");
  def_table_result := None; def_record_paths := []; def_free_form := false;
  def_key_alias := {[ b "name" := b "partner.name" ]}
|}.
Definition dotted_result : Value :=
  VObject [(b "rows", VArray [VObject [(b "partner.name", VString (b "Ann"))]])].

Definition dotted_run : option (bool * nat) :=
  match registry {[ b "crm" := dotted_source ]} with
  | Ok R =>
      match @expand no_debug (demo_db_rule "crm" [b "lead.name"]) R with
      | Ok out =>
          match try_map (@JsonPathRule_compile no_debug) out with
          | Ok rules =>
              Some (existsb (ustr_eqb (b "$.rows[*].partner.name")) (concat (map paths_of out)),
                    length (@apply_structured rfc6901 rules dotted_result
                              {| tool_name := b "crm_read"; call_args := None |} (mode_only On)))
          | Err _ => None
          end
      | Err _ => None
      end
  | Err _ => None
  end.

Lemma dotted_alias_unprotected : dotted_run = Some (true, 0%nat).
Proof. vm_compute. reflexivity. Qed.
