(* ===== verification/RuleSet.v ===== *)
(** * Loading a rule set (engine.rs from [from_specs_with] on, with
    rules/regex.rs)

    The specifications of all profiles become one engine: the last
    specification of an id counts, disabled ones are left out, and every other
    one compiles or fails the load.  The regex crate is the interface
    [RegexCrate]; what compiling reads from the disk is part of the options. *)

From S2P Require Import Prelude.
From S2P Require Import Bytes.
From S2P Require Import Utf8.
From S2P Require Import Chars.
From S2P Require Import RedactToken.
From S2P Require Import Vault.
From S2P Require Import RedactEngine.
From S2P Require Import Redaction.
From S2P Require Import RuleSpecs.
From S2P Require Import Keyword.
From S2P Require Import Identity.
From S2P Require Import JsonValue.
From S2P Require Import JsonPath.
From S2P Require Import FieldRules.
From S2P Require Import DataSource.
From S2P Require Import NerText.
From S2P Require Import NerDecode.
From S2P Require Import NerRule.
From S2P Require Import DbField.

(** ** Regular expressions *)

(** [Regex::new] and [find_iter] of the regex crate, which reports ranges of
    the text between character boundaries. *)
Class RegexCrate := {
  Regex : Type;
  regex_new : bytes → result Regex bytes;
  find_iter : Regex → bytes → list (nat * nat);
  find_iter_ranges : ∀ re text a z, is_str text → (a, z) ∈ find_iter re text →
    (a ≤ z ≤ length text)%nat ∧ is_char_boundary text a = true ∧ is_char_boundary text z = true;
}.

Definition MAX_PATTERN_LEN : nat := 4096.

Section rule_set.
Context `{RegexCrate} `{CharLower} `{StrLower} `{RuleDebug}.

Record RegexRule := { rx_spec : RuleSpec; rx_compiled : Regex }.

Definition RegexRule_compile (s : RuleSpec) : result RegexRule RedactionError :=
  match kind s with
  | KindRegex pattern =>
      if (MAX_PATTERN_LEN <? length pattern)%nat then
        Err (RuleCompile (spec_id s) (b "pattern too long (" ++ show_nat (length pattern) ++ b " > 4096)"))
      else
        match regex_new pattern with
        | Err e => Err (RuleCompile (spec_id s) e)
        | Ok re => Ok {| rx_spec := s; rx_compiled := re |}
        end
  | other => Err (RuleCompile (spec_id s) (b "expected Regex kind, got " ++ debug_kind other))
  end.

(** [as_str] of a range slices the text, or panics. *)
Definition regex_match (re : Regex) (text : bytes) : option (list Match) :=
  mapM (λ p : nat * nat,
          piece ← slice text p.1 p.2;
          Some {| RedactEngine.start := p.1; RedactEngine.end_ := p.2; matched := piece |})
    (find_iter re text).

(** ** The engine *)

(** The compiled text rules, [Arc<dyn Rule>]. *)
Inductive TextRule :=
| RegexText (r : RegexRule)
| KeywordText (r : KeywordRule)
| IdentityText (r : IdentityRule)
| NerText (r : NerRule).

Definition text_spec (t : TextRule) : RuleSpec :=
  match t with
  | RegexText r => rx_spec r
  | KeywordText r => kw_spec r
  | IdentityText r => id_spec r
  | NerText r => ner_spec r
  end.

(** What the world answers during one call: the readings of an identity rule
    and the spans of the shared model. *)
Record world := {
  reads_of : IdentityRule → match_reads;
  others_of : IdentityRule → Snapshot → Snapshot;
  answer_of : NerRule → bytes → result (list RawSpan) RedactionError;
}.

(** [dyn Rule], at one call. *)
Definition text_rule (W : world) (t : TextRule) : Rule :=
  match t with
  | KeywordText r => keyword_rule r
  | NerText r => ner_rule r (answer_of W r)
  | _ =>
      let s := text_spec t in
      {| rule_id := spec_id s; rule_category := spec_category s; restore_scope := spec_scope s;
         priority := spec_priority s; cross_session_stable := spec_stable s;
         apply_to_system_prompt := spec_system_prompt s; engine_kind := b "rule"; model_revision := None;
         match_text := λ text,
           match t with
           | RegexText r => regex_match (rx_compiled r) text
           | IdentityText r => (identity_match r (reads_of W r) (others_of W r) text).1
           | _ => Some []
           end |}
  end.

Record RuleEngine := { text_rules : list TextRule; structured : list JsonPathRule }.

(** [EngineOptions] with what their directories hold: the reading of the
    people directory, and what opening the model gives. *)
Record EngineOptions := {
  identity_people_dir : option compile_reads;
  data_sources : gmap bytes DataSource;
  ner_dirs : option (result unit bytes);
  ner : NerConfig;
}.

(** The deduplication: the order of the first occurrences and the last
    specification of each id. *)
Fixpoint dedup_loop (order : list bytes) (by_id : gmap bytes RuleSpec) (specs : list RuleSpec)
    : list bytes * gmap bytes RuleSpec :=
  match specs with
  | [] => (order, by_id)
  | s :: r =>
      dedup_loop (if by_id !! spec_id s then order else order ++ [spec_id s]) (<[spec_id s := s]> by_id) r
  end.

(** [filter_map(|id| by_id.remove(&id))]. *)
Fixpoint take_specs (order : list bytes) (by_id : gmap bytes RuleSpec) : list RuleSpec :=
  match order with
  | [] => []
  | id :: r =>
      match by_id !! id with
      | Some s => s :: take_specs r (delete id by_id)
      | None => take_specs r by_id
      end
  end.

Definition dedup_specs (specs : list RuleSpec) : list RuleSpec :=
  let '(order, by_id) := dedup_loop [] ∅ specs in take_specs order by_id.

(** The body of the loop for an enabled specification: the text rules and the
    field rules it adds.  [ner_built] is the cargo feature. *)
Definition compile_spec (ner_built : bool) (O : EngineOptions) (s : RuleSpec)
    : result (list TextRule * list JsonPathRule) RedactionError :=
  match kind s with
  | KindRegex _ => match RegexRule_compile s with Err e => Err e | Ok r => Ok ([RegexText r], []) end
  | KindKeyword _ _ => match KeywordRule_compile s with Err e => Err e | Ok r => Ok ([KeywordText r], []) end
  | KindIdentity _ =>
      match identity_people_dir O with
      | None =>
          Err (RuleCompile (spec_id s)
                 (b "identity source unavailable in this context (no identity people directory configured)"))
      | Some R =>
          match IdentityRule_compile s DEFAULT_REFRESH_INTERVAL R with
          | Err e => Err e
          | Ok r => Ok ([IdentityText r], [])
          end
      end
  | KindJsonPath _ => match JsonPathRule_compile s with Err e => Err e | Ok r => Ok ([], [r]) end
  | KindNer _ _ _ =>
      if ner_built then
        match ner_dirs O with
        | None => Err (RuleCompile (spec_id s) (b "AI 智慧偵測在這個情境下沒有模型目錄可用"))
        | Some open_result =>
            match NerRule_compile s open_result (sanitized (ner O)) with
            | Err e => Err e
            | Ok rs => Ok (map NerText rs, [])
            end
        end
      else Err (RuleCompile (spec_id s) (b "這個版本的 DuDuClaw 未內建 AI 智慧偵測（缺少 `ner` 編譯功能）"))
  | KindDbField _ _ _ =>
      match expand s (data_sources O) with
      | Err e => Err e
      | Ok expanded => match try_map JsonPathRule_compile expanded with Err e => Err e | Ok rs => Ok ([], rs) end
      end
  end.

(** The loop. *)
Fixpoint compile_loop (ner_built : bool) (O : EngineOptions) (rules : list TextRule) (fields : list JsonPathRule)
    (specs : list RuleSpec) : result RuleEngine RedactionError :=
  match specs with
  | [] => Ok {| text_rules := rules; structured := order_structured fields |}
  | s :: r =>
      if negb (enabled s) then compile_loop ner_built O rules fields r
      else
        match compile_spec ner_built O s with
        | Err e => Err e
        | Ok (ts, fs) => compile_loop ner_built O (rules ++ ts) (fields ++ fs) r
        end
  end.

Definition from_specs_with (ner_built : bool) (specs : list RuleSpec) (O : EngineOptions)
    : result RuleEngine RedactionError :=
  compile_loop ner_built O [] [] (dedup_specs specs).

Definition rule_count (e : RuleEngine) : nat := length (text_rules e) + length (structured e).
Definition rule_catalogue (e : RuleEngine) : list (bytes * bytes) :=
  map (λ t, (spec_id (text_spec t), spec_category (text_spec t))) (text_rules e)
  ++ map (λ r, (spec_id (FieldRules.spec r), spec_category (FieldRules.spec r))) (structured e).

(** ** Which specifications count *)

(** The specification: the last one of an id, and those that are live. *)
Fixpoint last_spec (id : bytes) (specs : list RuleSpec) : option RuleSpec :=
  match specs with
  | [] => None
  | s :: r =>
      match last_spec id r with
      | Some t => Some t
      | None => if ustr_eqb (spec_id s) id then Some s else None
      end
  end.
Definition counting (specs : list RuleSpec) : list RuleSpec :=
  omap (λ id, last_spec id specs) (dedup [] (map spec_id specs)).
Definition live (specs : list RuleSpec) (s : RuleSpec) : Prop :=
  enabled s = true ∧ last_spec (spec_id s) specs = Some s.

Lemma last_spec_some id specs s : last_spec id specs = Some s → s ∈ specs ∧ spec_id s = id.
Proof.
  induction specs as [|t specs IH]; cbn [last_spec]; [done|]. destruct (last_spec id specs) as [u|].
  - intros [= ->]. destruct (IH eq_refl). split; [by right|done].
  - destruct (ustr_eqb (spec_id t) id) eqn:E; [|done]. apply bool_decide_eq_true in E. intros [= ->]. split; [by left|done].
Qed.

Lemma last_spec_none id specs : last_spec id specs = None ↔ id ∉ map spec_id specs.
Proof.
  induction specs as [|t specs IH]; cbn [last_spec map]; [split; [by intros _ ?%elem_of_nil|done]|].
  rewrite elem_of_cons. destruct (last_spec id specs) as [u|].
  - split; [done|]. intros Hn. exfalso. apply Hn. right. destruct (decide (id ∈ map spec_id specs)) as [|Hid]; [done|].
    by apply IH in Hid.
  - destruct (ustr_eqb (spec_id t) id) eqn:E.
    + apply bool_decide_eq_true in E. split; [done|]. intros Hn. exfalso. apply Hn. by left.
    + apply bool_decide_eq_false in E. split; [|done]. intros _ [->|Hin]; [done|]. by apply IH in Hin.
Qed.

Lemma dedup_seen_equiv seen seen' l : (∀ x, x ∈ seen ↔ x ∈ seen') → dedup seen l = dedup seen' l.
Proof.
  revert seen seen'. induction l as [|x l IH]; intros seen seen' Hs; [done|]. cbn [dedup].
  assert (existsb (ustr_eqb x) seen = existsb (ustr_eqb x) seen') as ->.
  { apply eq_true_iff_eq. rewrite !existsb_exists. setoid_rewrite <- list_elem_of_In. by setoid_rewrite Hs. }
  destruct (existsb _ _); [by apply IH|]. f_equal. apply IH. intros y. by rewrite !elem_of_cons, Hs.
Qed.

Lemma dedup_loop_spec specs : ∀ order by_id,
  (∀ id, id ∈ order ↔ is_Some (by_id !! id)) →
  (dedup_loop order by_id specs).1 = order ++ dedup order (map spec_id specs)
  ∧ ∀ id, (dedup_loop order by_id specs).2 !! id
          = match last_spec id specs with Some s => Some s | None => by_id !! id end.
Proof.
  induction specs as [|s specs IH]; intros order by_id Ho; cbn [dedup_loop map last_spec dedup].
  { split; [by rewrite app_nil_r|done]. }
  destruct (IH (if by_id !! spec_id s then order else order ++ [spec_id s]) (<[spec_id s := s]> by_id)) as [H3 H4].
  { intros id. rewrite lookup_insert_is_Some. destruct (by_id !! spec_id s) eqn:E.
    - rewrite Ho. destruct (decide (spec_id s = id)) as [<-|]; [|naive_solver]. split; [by left|]. intros _. by eexists.
    - rewrite elem_of_app, list_elem_of_singleton, Ho. destruct (decide (spec_id s = id)) as [<-|]; naive_solver. }
  assert (existsb (ustr_eqb (spec_id s)) order = true ↔ is_Some (by_id !! spec_id s)) as He.
  { rewrite <- Ho, existsb_exists. setoid_rewrite <- list_elem_of_In. split.
    - by intros (x & Hx & ->%bool_decide_eq_true).
    - intros Hin. exists (spec_id s). split; [done|]. apply ustr_eqb_refl. }
  split.
  - rewrite H3. destruct (by_id !! spec_id s) eqn:E.
    + rewrite (proj2 He); [done|by eexists].
    + destruct (existsb _ order) eqn:Ex; [by destruct (proj1 He eq_refl)|]. rewrite <- app_assoc. cbn [app]. do 2 f_equal.
      apply dedup_seen_equiv. intros x. rewrite elem_of_app, list_elem_of_singleton, elem_of_cons. tauto.
  - intros id. rewrite H4. destruct (last_spec id specs); [done|]. destruct (ustr_eqb (spec_id s) id) eqn:E.
    + apply bool_decide_eq_true in E as <-. by rewrite lookup_insert_eq.
    + apply bool_decide_eq_false in E. by rewrite lookup_insert_ne.
Qed.

Lemma omap_delete (id : bytes) (by_id : gmap bytes RuleSpec) (order : list bytes) :
  id ∉ order → omap (λ k, delete id by_id !! k) order = omap (λ k, by_id !! k) order.
Proof.
  induction order as [|k order IH]; intros Hid; [done|]. apply not_elem_of_cons in Hid as [Hk Hid].
  cbn [omap list_omap]. rewrite lookup_delete_ne by done. destruct (by_id !! k); [f_equal|]; by apply IH.
Qed.

Lemma take_specs_omap order : ∀ by_id, NoDup order → take_specs order by_id = omap (λ id, by_id !! id) order.
Proof.
  induction order as [|id order IH]; intros by_id Hn; [done|]. apply list.NoDup_cons in Hn as [Hid Hn].
  cbn [take_specs omap list_omap]. destruct (by_id !! id) as [s|] eqn:E; rewrite IH by done; [|done].
  f_equal. by apply omap_delete.
Qed.

Lemma dedup_specs_counting specs : dedup_specs specs = counting specs.
Proof.
  unfold dedup_specs, counting. destruct (dedup_loop_spec specs [] ∅) as [Ho Hm].
  { intros id. rewrite lookup_empty. split; [by intros ?%elem_of_nil|by intros []]. }
  destruct (dedup_loop [] ∅ specs) as [order by_id]. cbn [fst snd] in *. subst order. cbn [app].
  rewrite take_specs_omap by apply NoDup_dedup.
  assert (∀ l, omap (λ id, by_id !! id) l = omap (λ id, last_spec id specs) l) as ->; [|done].
  intros l. induction l as [|id l IH]; [done|]. cbn [omap list_omap].
  rewrite Hm, lookup_empty. destruct (last_spec id specs); [f_equal|]; exact IH.
Qed.

Lemma elem_of_counting specs s : s ∈ counting specs ↔ last_spec (spec_id s) specs = Some s.
Proof.
  unfold counting. rewrite list_elem_of_omap. split.
  - intros (id & _ & Hl). by destruct (last_spec_some _ _ _ Hl) as [_ <-].
  - intros Hl. exists (spec_id s). split; [|done]. apply elem_of_dedup. split; [|by intros ?%elem_of_nil].
    destruct (last_spec_some _ _ _ Hl) as [Hin _]. by apply list_elem_of_fmap_2.
Qed.

Lemma live_counting specs s : live specs s ↔ s ∈ retain enabled (counting specs).
Proof. unfold live. rewrite elem_of_retain, elem_of_counting. tauto. Qed.

(** ** Loading *)

Lemma compile_loop_spec nb O specs : ∀ rules fields,
  compile_loop nb O rules fields specs
  = match try_map (compile_spec nb O) (retain enabled specs) with
    | Err e => Err e
    | Ok parts => Ok {| text_rules := rules ++ concat (map fst parts);
                        structured := order_structured (fields ++ concat (map snd parts)) |}
    end.
Proof.
  induction specs as [|s specs IH]; intros rules fields; cbn [compile_loop retain try_map map concat].
  - by rewrite !app_nil_r.
  - destruct (enabled s); cbn [negb try_map]; [|by apply IH].
    destruct (compile_spec nb O s) as [[ts fs]|e]; [|done]. rewrite IH.
    destruct (try_map _ (retain enabled specs)) as [parts|e]; [|done]. cbn [map concat fst snd]. by rewrite <- !app_assoc.
Qed.

Lemma from_specs_spec nb specs O :
  from_specs_with nb specs O
  = match try_map (compile_spec nb O) (retain enabled (counting specs)) with
    | Err e => Err e
    | Ok parts => Ok {| text_rules := concat (map fst parts); structured := order_structured (concat (map snd parts)) |}
    end.
Proof. unfold from_specs_with. by rewrite dedup_specs_counting, compile_loop_spec. Qed.

Lemma json_compile_spec s r : JsonPathRule_compile s = Ok r → FieldRules.spec r = s.
Proof.
  unfold JsonPathRule_compile. destruct (kind s) as [| | |k| |]; try done.
  destruct (is_empty _); [done|]. destruct (_ <? _)%nat; [done|]. destruct (blank_tool k); [done|].
  destruct (try_map parse_path (raw_paths k)); [|done]. destruct (List.find _ _); [done|]. by intros [= <-].
Qed.

Lemma expand_ids s registry out : expand s registry = Ok out → out ≠ [] ∧ ∀ r, r ∈ out → spec_id r = spec_id s.
Proof.
  unfold expand. destruct (kind s) as [| | | |source connector fields|]; try done.
  destruct (resolve_source _ _ _) as [name|]; [|done]. destruct (registry !! name) as [src|]; [|done].
  destruct (is_empty fields); [done|]. destruct (expand_fields _ _ _ fields) as [[|r0 out']|] eqn:Ee; [done| |done].
  intros [= <-]. split; [done|]. intros r Hr. apply expand_fields_ok in Ee as [_ He].
  apply He in Hr as (entry & table & field & x & _ & _ & _ & Hb). by apply expand_binding_some in Hb as (_ & ? & ? & _ & (-> & _) & _).
Qed.

Lemma try_map_length {A B Er} (f : A → result B Er) l ys : try_map f l = Ok ys → length ys = length l.
Proof. intros Hm%try_map_ok. symmetry. exact (Forall2_length Hm). Qed.

(** Texts in a specification are Rust strings. *)
Definition spec_str (s : RuleSpec) : Prop :=
  match kind s with KindKeyword values _ => Forall is_str values | _ => True end.

(** What loading promises of a text rule. *)
Definition sound_text (t : TextRule) : Prop :=
  match t with
  | KeywordText r => ∃ Ns, needles r = map utf8_encode Ns ∧ Forall (λ n : ustr, n ≠ []) Ns
  | IdentityText r => scanned (snapshot r)
  | _ => True
  end.

Lemma strings_encoded values : Forall is_str values → ∃ vs : list ustr, values = map utf8_encode vs.
Proof.
  induction 1 as [|v values (t & _ & ->) _ [vs ->]]; [by exists []|]. by exists (t :: vs).
Qed.

(** One specification adds at least one rule, and its rules carry its id. *)
Lemma compile_spec_part nb O s ts fs :
  compile_spec nb O s = Ok (ts, fs) →
  (ts ≠ [] ∨ fs ≠ []) ∧ (∀ t, t ∈ ts → spec_id (text_spec t) = spec_id s)
  ∧ (∀ r, r ∈ fs → spec_id (FieldRules.spec r) = spec_id s) ∧ (spec_str s → ∀ t, t ∈ ts → sound_text t).
Proof.
  assert (∀ t, spec_id (text_spec t) = spec_id s → (spec_str s → sound_text t) →
    ([t] ≠ [] ∨ ([] : list JsonPathRule) ≠ []) ∧ (∀ t', t' ∈ [t] → spec_id (text_spec t') = spec_id s)
    ∧ (∀ r, r ∈ ([] : list JsonPathRule) → spec_id (FieldRules.spec r) = spec_id s)
    ∧ (spec_str s → ∀ t', t' ∈ [t] → sound_text t')) as Hone.
  { intros t Ht Hs. split_and!; [by left| |by intros ? ?%elem_of_nil|].
    - by intros t' ->%list_elem_of_singleton.
    - intros Hstr t' ->%list_elem_of_singleton. by apply Hs. }
  unfold compile_spec. destruct (kind s) as [p|src|vs cs|k|so co fl|ls lo hi] eqn:Ek.
  - unfold RegexRule_compile. rewrite Ek. destruct (_ <? _)%nat; [done|]. destruct (regex_new p); [|done]. intros [= <- <-]. by apply Hone.
  - destruct (identity_people_dir O) as [R|]; [|done]. unfold IdentityRule_compile. rewrite Ek.
    destruct (_ && _); [done|]. destruct (negb _); [done|]. intros [= <- <-]. apply Hone; [done|]. intros _. by eexists.
  - destruct (KeywordRule_compile s) as [r|] eqn:Ec; [|done]. intros [= <- <-]. apply Hone.
    + unfold KeywordRule_compile in Ec. rewrite Ek in Ec. destruct (is_empty _) in Ec; [done|]. by injection Ec as <-.
    + unfold spec_str. rewrite Ek. intros [us ->]%strings_encoded.
      destruct (compiled_needles s us cs r Ek Ec) as (Hn & _ & _ & Hne & _). by eexists.
  - destruct (JsonPathRule_compile s) as [r|] eqn:Ec; [|done]. intros [= <- <-]. split_and!; [by right|by intros ? ?%elem_of_nil| |].
    + intros r' ->%list_elem_of_singleton. by rewrite (json_compile_spec s r Ec).
    + by intros _ ? ?%elem_of_nil.
  - destruct (expand s _) as [out|] eqn:Ee; [|done]. destruct (try_map _ out) as [rs|] eqn:Et; [|done]. intros [= <- <-].
    destruct (expand_ids s _ _ Ee) as [Hne Hid]. split_and!; [|by intros ? ?%elem_of_nil| |by intros _ ? ?%elem_of_nil].
    + right. intros ->. apply try_map_length in Et. by destruct out.
    + intros r Hr. apply try_map_ok in Et. apply list_elem_of_lookup in Hr as [i Hi].
      destruct (Forall2_lookup_r _ _ _ _ _ Et Hi) as (x & Hx & Hc). rewrite (json_compile_spec x r Hc). apply Hid.
      by eapply list_elem_of_lookup_2.
  - destruct nb; [|done]. destruct (ner_dirs O) as [open|]; [|done]. destruct (NerRule_compile s _ _) as [rs|] eqn:Ec; [|done].
    intros [= <- <-]. destruct (ner_compile_spec s ls lo hi open (sanitized (ner O)) Ek) as [_ Hr]. destruct (Hr rs Ec) as (Hne & _ & _ & Hr').
    split_and!; [left; by destruct rs| |by intros ? ?%elem_of_nil|].
    + intros t (r & -> & Hin)%list_elem_of_fmap. by destruct (Hr' r Hin) as [? _].
    + by intros _ t (r & -> & _)%list_elem_of_fmap.
Qed.

Lemma structured_le_total x y : structured_le x y = true ∨ structured_le y x = true.
Proof. unfold structured_le. rewrite !Z.leb_le. lia. Qed.
Lemma structured_le_trans x y z : structured_le x y = true → structured_le y z = true → structured_le x z = true.
Proof. unfold structured_le. rewrite !Z.leb_le. lia. Qed.

(** What an engine holds. *)
Lemma loaded_engine nb specs O e :
  from_specs_with nb specs O = Ok e →
  (∀ s, live specs s → ∃ ts fs, compile_spec nb O s = Ok (ts, fs) ∧ ts ⊆ text_rules e ∧ fs ⊆ structured e)
  ∧ (∀ t, t ∈ text_rules e → ∃ s ts fs, live specs s ∧ compile_spec nb O s = Ok (ts, fs) ∧ t ∈ ts)
  ∧ (∀ r, r ∈ structured e → ∃ s ts fs, live specs s ∧ compile_spec nb O s = Ok (ts, fs) ∧ r ∈ fs)
  ∧ StronglySorted (λ x y, structured_le x y = true) (structured e).
Proof.
  rewrite from_specs_spec. destruct (try_map _ _) as [parts|] eqn:Et; [|done]. intros [= <-]. cbn [text_rules structured].
  apply try_map_ok in Et.
  assert (∀ p, p ∈ parts → ∃ s, live specs s ∧ compile_spec nb O s = Ok p) as Hp.
  { intros p Hp. apply list_elem_of_lookup in Hp as [i Hi]. destruct (Forall2_lookup_r _ _ _ _ _ Et Hi) as (s & Hs & Hc).
    exists s. split; [|done]. apply live_counting. by eapply list_elem_of_lookup_2. }
  assert (∀ (f : list TextRule * list JsonPathRule → list TextRule) x, x ∈ concat (map f parts) ↔ ∃ p, p ∈ parts ∧ x ∈ f p) as Hct.
  { intros f x. rewrite <- flat_map_concat_map. apply elem_of_flat_map. }
  assert (∀ (f : list TextRule * list JsonPathRule → list JsonPathRule) x, x ∈ concat (map f parts) ↔ ∃ p, p ∈ parts ∧ x ∈ f p) as Hcf.
  { intros f x. rewrite <- flat_map_concat_map. apply elem_of_flat_map. }
  unfold order_structured. split_and!.
  - intros s Hs%live_counting. apply list_elem_of_lookup in Hs as [i Hi].
    destruct (Forall2_lookup_l _ _ _ _ _ Et Hi) as ([ts fs] & Hl & Hc). apply list_elem_of_lookup_2 in Hl.
    exists ts, fs. split_and!; [done| |].
    + intros t Ht. apply Hct. by exists (ts, fs).
    + intros r Hr. rewrite stable_sort_Permutation. apply Hcf. by exists (ts, fs).
  - intros t ([ts fs] & Hin & Ht)%Hct. destruct (Hp _ Hin) as (s & ? & ?). by exists s, ts, fs.
  - intros r. rewrite stable_sort_Permutation. intros ([ts fs] & Hin & Ht)%Hcf. destruct (Hp _ Hin) as (s & ? & ?). by exists s, ts, fs.
  - apply stable_sort_sorted; [apply structured_le_total|apply structured_le_trans].
Qed.

(** Loading is the reference one: of every id only the last specification
    counts, at the place of the id's first occurrence; the enabled ones are
    compiled in this order, the first one that does not compile is the load's
    error, and otherwise the engine holds the text rules in this order and
    the field rules by priority. *)
Theorem loading_is_reference nb specs O :
  from_specs_with nb specs O
  = match try_map (compile_spec nb O) (retain enabled (omap (λ id, last_spec id specs) (dedup [] (map spec_id specs)))) with
    | Err e => Err e
    | Ok parts => Ok {| text_rules := concat (map fst parts); structured := order_structured (concat (map snd parts)) |}
    end.
Proof. apply from_specs_spec. Qed.

(** No rule vanishes in loading: if a rule set loads, every live
    specification (the last one of its id, and enabled) compiled to at least
    one rule of the engine, under its id, and the engine holds no rule of any
    other specification: a disabled one silences the earlier ones of its id. *)
Theorem no_rule_vanishes nb specs O e :
  from_specs_with nb specs O = Ok e →
  (∀ s, live specs s →
     (∃ t, t ∈ text_rules e ∧ spec_id (text_spec t) = spec_id s)
     ∨ ∃ r, r ∈ structured e ∧ spec_id (FieldRules.spec r) = spec_id s)
  ∧ (∀ id category, (id, category) ∈ rule_catalogue e → ∃ s, live specs s ∧ spec_id s = id)
  ∧ ∀ s, s ∈ specs → enabled s = false → last_spec (spec_id s) specs = Some s →
      ∀ category, (spec_id s, category) ∉ rule_catalogue e.
Proof.
  intros (Hl & Ht & Hf & _)%loaded_engine.
  assert (∀ id category, (id, category) ∈ rule_catalogue e → ∃ s, live specs s ∧ spec_id s = id) as Hcat.
  { intros id c [(t & [= -> _] & Hin)%list_elem_of_fmap|(r & [= -> _] & Hin)%list_elem_of_fmap]%elem_of_app.
    - destruct (Ht t Hin) as (s & ts & fs & Hs & Hc & Htt). exists s. split; [done|]. symmetry. by eapply compile_spec_part.
    - destruct (Hf r Hin) as (s & ts & fs & Hs & Hc & Hr). exists s. split; [done|]. symmetry. by eapply compile_spec_part. }
  split_and!; [|done|].
  - intros s Hs. destruct (Hl s Hs) as (ts & fs & Hc & Hts & Hfs).
    destruct (compile_spec_part nb O s ts fs Hc) as ([Hne|Hne] & Hidt & Hidf & _).
    + left. destruct ts as [|t ts]; [done|]. exists t. split; [apply Hts; by left|apply Hidt; by left].
    + right. destruct fs as [|r fs]; [done|]. exists r. split; [apply Hfs; by left|apply Hidf; by left].
  - intros s _ Hd Hs c (s' & [Hen Hs'] & He)%Hcat. rewrite He, Hs in Hs'. injection Hs' as ->. congruence.
Qed.

(** ** Redaction with a loaded engine *)

Definition sound_piece (text : bytes) (m : Match) : Prop :=
  (RedactEngine.start m < RedactEngine.end_ m)%nat
  ∧ slice text (RedactEngine.start m) (RedactEngine.end_ m) = Some (matched m) ∧ valid_utf8 (matched m) = true.

Lemma range_slice T a z :
  is_text T → (a ≤ z ≤ length (utf8_encode T))%nat → is_char_boundary (utf8_encode T) a = true →
  is_char_boundary (utf8_encode T) z = true → ∃ t, slice (utf8_encode T) a z = Some t ∧ valid_utf8 t = true.
Proof.
  intros HT Hle Ha Hz. destruct (boundary_split T z Hz ltac:(lia)) as (D & C & -> & ->).
  destruct (boundary_split D a) as (A & B & -> & ->); [|lia|].
  - destruct (boundary_split _ a Ha ltac:(lia)) as (A & R & HAR & ->).
    apply app_eq_inv in HAR as [(K & -> & ->)|(K & -> & ->)]; [rewrite utf8_encode_app; apply boundary_encode|].
    destruct K as [|c K]; [rewrite app_nil_r; apply boundary_end|].
    exfalso. pose proof (encode_pos (c :: K) ltac:(done)). rewrite !utf8_encode_app, !length_app in Hle. lia.
  - unfold is_text in HT. rewrite <- app_assoc in HT |- *. apply forallb_app_true in HT as [_ [HB _]%forallb_app_true].
    exists (utf8_encode B). split; [apply slice_encode|by apply valid_encode].
Qed.

(** A matcher answers, and what it reports is a piece of the text. *)
Definition sound_answer (text : bytes) (answer : option (list Match)) : Prop :=
  ∃ ms, answer = Some ms ∧ ∀ m, m ∈ ms → sound_piece text m.

Lemma needles_sound T cs Ns :
  is_text T → Forall (λ n : ustr, n ≠ []) Ns →
  sound_answer (utf8_encode T) (match_needles (utf8_encode T) (map utf8_encode Ns) cs).
Proof.
  intros HT HNs. destruct (match_needles_spec cs T Ns HNs) as (ms & Hms & Hs & _). exists ms. split; [done|].
  intros m Hm. destruct (Hs m Hm) as (n & Hn & Hf).
  rewrite List.Forall_forall in HNs. by eapply found_at_sound, Hf; [|apply HNs, list_elem_of_In].
Qed.

Lemma regex_sound re T :
  is_text T → (∀ a z, (a, z) ∈ find_iter re (utf8_encode T) → (a < z)%nat) →
  sound_answer (utf8_encode T) (regex_match re (utf8_encode T)).
Proof.
  intros HT Hne. assert (is_str (utf8_encode T)) as Hstr by (by exists T).
  assert (∀ p, p ∈ find_iter re (utf8_encode T) →
    ∃ t, slice (utf8_encode T) p.1 p.2 = Some t ∧ valid_utf8 t = true ∧ (p.1 < p.2)%nat) as Hp.
  { intros [a z] Hin. destruct (find_iter_ranges _ _ _ _ Hstr Hin) as (Hle & Ha & Hz).
    destruct (range_slice T a z HT Hle Ha Hz) as (t & Hsl & Hv). exists t. split_and!; [done..|]. by apply Hne. }
  unfold regex_match. revert Hp. generalize (find_iter re (utf8_encode T)) as l.
  induction l as [|p l IH]; intros Hp; [exists []; split; [done|by intros m ?%elem_of_nil]|].
  destruct (Hp p ltac:(by left)) as (t & Hsl & Hv & Hlt).
  destruct IH as (ms & Hms & Hall); [intros q Hq; apply Hp; by right|].
  cbn [mapM]. rewrite Hsl. cbn [mbind option_bind]. rewrite Hms. eexists. split; [done|].
  intros m [-> |Hm]%elem_of_cons; [by split_and!|by apply Hall].
Qed.

Lemma world_match_sound W t T :
  is_text T → sound_text t → (∀ r snap, scanned snap → scanned (others_of W r snap)) →
  (∀ r a z, t = RegexText r → (a, z) ∈ find_iter (rx_compiled r) (utf8_encode T) → (a < z)%nat) →
  sound_answer (utf8_encode T) (match_text (text_rule W t) (utf8_encode T)).
Proof.
  intros HT Ht HW Hne. assert (is_str (utf8_encode T)) as Hstr by (by exists T).
  assert (sound_answer (utf8_encode T) (Some [])) as Hnil by (exists []; split; [done|by intros m ?%elem_of_nil]).
  destruct t as [r|r|r|r]; cbn [text_rule match_text text_spec].
  - apply regex_sound; [done|]. intros a z. by apply Hne.
  - destruct Ht as (Ns & HN & HNs). cbn [keyword_rule match_text]. rewrite HN. by apply needles_sound.
  - unfold identity_match. cbn [fst]. set (snap := refresh_if_stale _ _ _ _).
    assert (scanned snap) as [people Hp].
    { subst snap. unfold refresh_if_stale. cbv zeta. destruct (negb _); [done|]. destruct (negb _); [by apply HW|by eexists]. }
    clearbody snap. destruct (scan_needles_texts people) as (Ns & HNs & Hne'). rewrite Hp, HNs.
    destruct (is_empty _); [done|]. by apply needles_sound.
  - cbn [ner_rule match_text]. unfold ner_match_text. destruct (_ <? _)%nat; [done|].
    destruct (answer_of W r (utf8_encode T)) as [found|]; [|done].
    destruct (ner_matches_spec (ner_label r) (utf8_encode T) found Hstr) as (ms & -> & Hms).
    exists ms. split; [done|]. intros m (s & _ & _ & _ & Hlt & Hsl)%Hms. split_and!; [done|done|].
    pose proof (slice_some _ _ _ _ Hsl) as (Hle & Ha & Hz & _).
    destruct (range_slice T _ _ HT Hle Ha Hz) as (t & Hsl' & Hv). rewrite Hsl in Hsl'. by injection Hsl' as ->.
Qed.

(** C34 A loaded engine never makes redaction panic: whatever rule set loaded,
    of regular expressions, keywords, identities and model labels, and
    whatever the clock, the people directory, the model and the vault do, every
    matcher of the set answers and a pipeline of its text rules redacts every
    text to an answer or an error, provided that no regular expression of the
    set matches the empty string in it and other threads leave a snapshot of
    names as a scan gives it. *)
Theorem loaded_engine_total `{VaultPlatform} `{Hmac} nb specs O e W E P (T : ustr) source V A :
  Forall spec_str specs → from_specs_with nb specs O = Ok e → rules P = map (text_rule W) (text_rules e) →
  (∀ r snap, scanned snap → scanned (others_of W r snap)) →
  (∀ r a z, RegexText r ∈ text_rules e → (a, z) ∈ find_iter (rx_compiled r) (utf8_encode T) → (a < z)%nat) →
  is_text T →
  is_Some (all_text_matches (rules P) (utf8_encode T) source)
  ∧ ∃ res, redact E P (utf8_encode T) source V A = Some res.
Proof.
  intros Hstr He HP HW Hne HT.
  assert (∀ rl, rl ∈ rules P → sound_answer (utf8_encode T) (match_text rl (utf8_encode T))) as Hr.
  { rewrite HP. intros rl (t & -> & Ht)%list_elem_of_fmap. apply world_match_sound; [done| |done|].
    - destruct (loaded_engine nb specs O e He) as (_ & Hin & _). destruct (Hin t Ht) as (s & ts & fs & [_ Hs] & Hc & Htt).
      apply last_spec_some in Hs as [Hs _]. rewrite List.Forall_forall in Hstr. apply list_elem_of_In, Hstr in Hs.
      destruct (compile_spec_part nb O s ts fs Hc) as (_ & _ & _ & Hsound). by apply Hsound.
    - intros r a z ->. by apply Hne. }
  assert (sound_matches P (utf8_encode T) source) as Hs.
  { split.
    - apply all_text_matches_answers. intros rl Hrl. destruct (Hr rl Hrl) as (ms & -> & _). by eexists.
    - intros m (ms & Hrl & Hms & Hm)%reported_by. destruct (Hr _ Hrl) as (ms' & Hms' & Hp). rewrite Hms in Hms'.
      injection Hms' as <-. by destruct (Hp _ Hm) as (? & ? & ?). }
  split; [exact (proj1 Hs)|]. by apply redact_total.
Qed.
End rule_set.

(** ** Concrete runs *)

(** Patterns are words; an open parenthesis does not parse. *)
Definition range_ok (text : bytes) (p : nat * nat) : bool :=
  (p.1 <=? p.2)%nat && (p.2 <=? length text)%nat && is_char_boundary text p.1 && is_char_boundary text p.2.
Definition word_ranges (word text : bytes) : list (nat * nat) :=
  retain (range_ok text) (match find text word with Some i => [(i, i + length word)%nat] | None => [] end).

Lemma word_ranges_ok word text a z :
  (a, z) ∈ word_ranges word text →
  (a ≤ z ≤ length text)%nat ∧ is_char_boundary text a = true ∧ is_char_boundary text z = true.
Proof.
  intros [_ Hr]%elem_of_retain. unfold range_ok in Hr. cbn [fst snd] in Hr. reflect_bools. split_and!; lia || done.
Qed.

Definition demo_regex : RegexCrate := {|
  Regex := bytes;
  regex_new p := if contains p (b "(") then Err (b "unclosed group") else Ok p;
  find_iter := word_ranges;
  find_iter_ranges re text a z _ Hin := word_ranges_ok re text a z Hin
|}.

Definition with_kind (id : string) (on : bool) (k : RuleKind) : RuleSpec := {|
  spec_id := b id; spec_category := b "CAT"; spec_scope := Owner; spec_priority := 50; spec_stable := false;
  spec_system_prompt := false; enabled := on; kind := k
|}.
Definition demo_options : EngineOptions := {|
  identity_people_dir := Some {| is_dir := true; listed := demo_people; mtime_after := mtime_1 (quiet_reads 1); at_ := 0; shown_path := b "people" |};
  data_sources := builtin_registry; ner_dirs := Some (Ok tt); ner := NerConfig_default
|}.

(** The third specification overrides the first, the last one parks the
    keyword rule. *)
Definition demo_specs : list RuleSpec := [
  with_kind "mail" true (KindRegex (b "("));
  with_kind "words" true (KindKeyword [b "Amazon"] false);
  with_kind "mail" true (KindRegex (b "a@b.c"));
  with_kind "people" true (KindIdentity (b "wiki"));
  with_kind "ai" true (KindNer [b "secret"] None None);
  with_kind "fields" true (KindDbField None None [b "res.partner.name"]);
  with_kind "words" false (KindKeyword [] false)].

Local Abbreviation load_demo specs :=
  (from_specs_with (H := demo_regex) (H0 := demo_lower) (H1 := demo_str_lower) (H2 := plain_debug) true specs demo_options).

Example demo_loads :
  match load_demo demo_specs with
  | Ok e => (map fst (rule_catalogue (H := demo_regex) e), (0 <? rule_count (H := demo_regex) e)%nat)
  | Err _ => ([], false)
  end = (map b ["mail"%string; "people"%string; "ai"%string] ++ repeat (b "fields") 3, true).
Proof. vm_compute. reflexivity. Qed.

Example broken_pattern_fails_load :
  match load_demo [with_kind "mail" true (KindRegex (b "("))] with Err (RuleCompile id _) => ustr_eqb id (b "mail") | _ => false end = true.
Proof. vm_compute. reflexivity. Qed.

Definition demo_engine : RuleEngine (H := demo_regex) :=
  match load_demo demo_specs with Ok e => e | Err _ => {| text_rules := []; structured := [] |} end.

Lemma demo_engine_loaded : load_demo demo_specs = Ok demo_engine.
Proof. unfold demo_engine. destruct (load_demo demo_specs) eqn:E; [done|]. vm_compute in E. discriminate. Qed.

Lemma no_rule_vanishes_witness :
  (∃ id category, (id, category) ∈ rule_catalogue (H := demo_regex) demo_engine ∧ id = b "ai")
  ∧ ∀ category, (b "words", category) ∉ rule_catalogue (H := demo_regex) demo_engine.
Proof.
  destruct (no_rule_vanishes (H := demo_regex) (H0 := demo_lower) (H1 := demo_str_lower) (H2 := plain_debug)
    true demo_specs demo_options demo_engine demo_engine_loaded) as (Hl & _ & Hd). split.
  - destruct (Hl (with_kind "ai" true (KindNer [b "secret"] None None))) as [(t & Ht & Hid)|(r & Hr & Hid)].
    + split; vm_compute; reflexivity.
    + exists (b "ai"), (spec_category (text_spec t)). split; [|reflexivity]. apply elem_of_app. left.
      apply list_elem_of_fmap. exists t. split; [|exact Ht]. by rewrite Hid.
    + exists (b "ai"), (spec_category (FieldRules.spec r)). split; [|reflexivity]. apply elem_of_app. right.
      apply list_elem_of_fmap. exists r. split; [|exact Hr]. by rewrite Hid.
  - intros c. apply (Hd (with_kind "words" false (KindKeyword [] false))); [|reflexivity|vm_compute; reflexivity].
    repeat (first [by left|right]).
Defined.

Definition demo_world : world := {|
  reads_of _ := quiet_reads 1; others_of _ snap := snap;
  answer_of _ text := Ok [{| raw_label := b "secret"; raw_start := 0; raw_end := 3 |}]
|}.
Definition demo_rules : list Rule :=
  map (text_rule (H := demo_regex) (H0 := demo_lower) (H1 := demo_str_lower) demo_world) (text_rules demo_engine).
Definition demo_mail_text : bytes := b "Ann Lee writes to a@b.c about 王小明".

Lemma demo_str (s : bytes) (Hs : is_text (utf8_decode s)) (He : utf8_encode (utf8_decode s) = s) : is_str s.
Proof. exists (utf8_decode s). by rewrite He. Qed.

Lemma loaded_engine_total_witness :
  is_Some (all_text_matches (rules (demo_pipeline demo_rules)) (utf8_encode (utf8_decode demo_mail_text)) (ToolResult (b "t")))
  ∧ ∃ res, redact (H := demo_platform) (H0 := demo_hmac) (demo_env 1000) (demo_pipeline demo_rules)
    (utf8_encode (utf8_decode demo_mail_text)) (ToolResult (b "t")) ∅ [] = Some res.
Proof.
  apply (loaded_engine_total (H := demo_regex) (H0 := demo_lower) (H1 := demo_str_lower) (H2 := plain_debug)
    (H3 := demo_platform) (H4 := demo_hmac) true demo_specs demo_options demo_engine demo_world (demo_env 1000)
    (demo_pipeline demo_rules) (utf8_decode demo_mail_text) (ToolResult (b "t")) ∅ []).
  - repeat (apply List.Forall_cons; [|]); try exact I; try apply List.Forall_nil.
    apply demo_str; vm_compute; reflexivity.
  - exact demo_engine_loaded.
  - reflexivity.
  - intros r snap Hs. exact Hs.
  - intros r a z Hr Hin.
    assert (rx_compiled r = b "a@b.c") as Hre.
    { assert (forallb (λ t : TextRule (H := demo_regex), match t with RegexText r0 => ustr_eqb (rx_compiled (H := demo_regex) r0) (b "a@b.c") | _ => true end)
        (text_rules demo_engine) = true) as Hall by (vm_compute; reflexivity).
      rewrite forallb_forall in Hall. apply list_elem_of_In, Hall in Hr. by apply bool_decide_eq_true in Hr. }
    rewrite Hre in Hin. cbn [find_iter demo_regex] in Hin.
    assert (word_ranges (b "a@b.c") (utf8_encode (utf8_decode demo_mail_text)) = [(18, 23)%nat]) as Hw by (vm_compute; reflexivity).
    rewrite Hw in Hin. apply list_elem_of_singleton in Hin. injection Hin as -> ->. lia.
  - vm_compute. reflexivity.
Defined.

(** The text as it leaves the pipeline. *)
Example demo_redacted :
  match redact (H := demo_platform) (H0 := demo_hmac) (demo_env 1000) (demo_pipeline demo_rules) demo_mail_text
          (ToolResult (b "t")) ∅ [] with
  | Some (Ok out, _, _) =>
      (length (tokens_written out), contains (redacted_text out) (b "a@b.c"), contains (redacted_text out) (b "王小明"))
  | _ => (0%nat, true, true)
  end = (3%nat, false, false).
Proof. vm_compute. reflexivity. Qed.
