(* ===== verification/Structured.v ===== *)
(** * Redaction of a tool's JSON (crates/duduclaw-redaction/src/pipeline.rs:
    [redact_value], [structured_pass], [redact_embedded_json],
    [tokenize_node], [walk_strings])

    Three passes over a value: field rules on the value, field rules inside
    string leaves that hold JSON, text rules on every string leaf.  An error
    ends the call ([?] in the source): [stopped] is set and nothing after it
    changes anything.  The passes share the count of vault accesses, which
    indexes the clock readings, nonces and faults of [environment]. *)

From S2P Require Import Prelude.
From S2P Require Import Bytes.
From S2P Require Import Utf8.
From S2P Require Import RedactToken.
From S2P Require Import Vault.
From S2P Require Import RedactEngine.
From S2P Require Import Redaction.
From S2P Require Import RuleSpecs.
From S2P Require Import JsonValue.
From S2P Require Import Decimal.
From S2P Require Import JsonPath.
From S2P Require Import FieldRules.

Definition MAX_EMBEDDED_JSON_BYTES : nat := 4 * 1024 * 1024.

(** serde_json's reader and printers of values; what it reads has the
    distinct keys of its map type. *)
Class SerdeJson := {
  from_str : bytes → option Value;
  to_string : Value → option bytes;
  to_string_pretty : Value → option bytes;
  from_str_unique s v : from_str s = Some v → unique_keys v;
}.

(** Why a call ended early. *)
Inductive stop := Failed (e : RedactionError) | Panicked.

Record pass_state := {
  stopped : option stop;
  minted : list Token;
  p_vault : vault;
  p_audit : list AuditEvent;
  accesses : nat;
}.

(** A loop over a list in place, with index and state. *)
Section imap_state.
Context {A St : Type} (g : nat → A → St → A * St).

Fixpoint imap_state (i : nat) (l : list A) (st : St) : list A * St :=
  match l with
  | [] => ([], st)
  | x :: r =>
      let '(x', st1) := g i x st in
      let '(r', st2) := imap_state (S i) r st1 in
      (x' :: r', st2)
  end.
End imap_state.

(** The environment after [n] vault accesses. *)
Definition later_env (n : nat) (E : environment) : environment := {|
  faults_at := λ i, faults_at E (n + i)%nat; clock_at := λ i, clock_at E (n + i)%nat;
  nonce_at := λ i, nonce_at E (n + i)%nat; date_of := date_of E
|}.

Definition is_stopped (st : pass_state) : bool := match stopped st with Some _ => true | None => false end.
Definition excluded (r : JsonPathRule) (key : bytes) : bool := existsb (λ e, ustr_eqb e key) (exclude_keys r).

(** Nothing to hide: an empty string, or a token already. *)
Definition left_alone (s : bytes) : bool := is_empty s || match parse s with Some _ => true | None => false end.

Section passes.
Context `{VaultPlatform} `{Hmac} `{JsonPointer} `{SerdeJson} (E : environment) (P : RedactionPipeline).
(** The engine's field rules. *)
Context (structured : list JsonPathRule).
Implicit Types (st : pass_state) (v : Value) (r : JsonPathRule) (source : Source) (ctx : ToolContext).

(** The closure [mint] of [structured_pass], and the push of its token. *)
Definition mint r source (original ptr : bytes) st : option Token * pass_state :=
  match mint_token E P (accesses st) original (as_rule r) source (Some ptr) (p_vault st) (p_audit st) with
  | (Ok tok, V, A) =>
      (Some tok, {| stopped := None; minted := minted st ++ [tok]; p_vault := V; p_audit := A;
                    accesses := S (accesses st) |})
  | (Err e, V, A) =>
      (None, {| stopped := Some (Failed e); minted := minted st; p_vault := V; p_audit := A;
                accesses := S (accesses st) |})
  end.

Definition tokenize_leaf r source v (original ptr : bytes) st : Value * pass_state :=
  match mint r source original ptr st with
  | (Some tok, st') => (VString (as_str tok), st')
  | (None, st') => (v, st')
  end.

Fixpoint tokenize_node r source v (ptr : bytes) (depth : nat) st : Value * pass_state :=
  if is_stopped st then (v, st)
  else if (MAX_PATH_DEPTH <=? depth)%nat then (v, st)
  else
    match v with
    | VNull => (v, st)
    | VString s => if left_alone s then (v, st) else tokenize_leaf r source v s ptr st
    | VBool x => tokenize_leaf r source v (if x then b "true" else b "false") ptr st
    | VNumber n => tokenize_leaf r source v n ptr st
    | VArray items =>
        let '(items', st') :=
          imap_state (λ i x st, tokenize_node r source x (push_token ptr (show_nat i)) (S depth) st) 0 items st in
        (VArray items', st')
    | VObject entries =>
        let '(entries', st') :=
          map_state
            (λ (e : bytes * Value) st,
               if excluded r e.1 then (e, st)
               else
                 let '(x, st') := tokenize_node r source e.2 (push_token ptr e.1) (S depth) st in
                 ((e.1, x), st'))
            entries st in
        (VObject entries', st')
    end.

(** One hit; [allow_root]: may the root itself be tokenised? *)
Definition hit_step source (allow_root : bool) (acc : Value * pass_state) (h : StructuredHit) : Value * pass_state :=
  let '(v, st) := acc in
  if is_stopped st then acc
  else if is_empty (hit_pointer h) && negb allow_root then acc
  else
    match pointer v (hit_pointer h) with
    | None => acc
    | Some node =>
        let '(node', st') := tokenize_node (hit_rule h) source node (hit_pointer h) 0 st in
        (pointer_put v (hit_pointer h) node', st')
    end.

Definition structured_pass v ctx source (allow_root : bool) st : Value * pass_state :=
  foldl (hit_step source allow_root) (v, st) (apply_structured structured v ctx (setting_for P source)).

Definition with_stop st (s : stop) : pass_state :=
  {| stopped := Some s; minted := minted st; p_vault := p_vault st; p_audit := p_audit st; accesses := accesses st |}.

(** [trim_start] then [starts_with] of an opening bracket. *)
Definition looks_like_json (s : bytes) : bool :=
  match trim_start (utf8_decode s) with c :: _ => ((c =? 123) || (c =? 91))%N | [] => false end.

Definition redact_embedded_json ctx source (s : bytes) st : bytes * pass_state :=
  if is_stopped st then (s, st)
  else if (MAX_EMBEDDED_JSON_BYTES <? length s)%nat then (s, st)
  else if negb (looks_like_json s) then (s, st)
  else
    match from_str s with
    | None => (s, st)
    | Some parsed =>
        let '(parsed', st') := structured_pass parsed ctx source true st in
        if is_stopped st' then (s, st')
        else if (length (minted st') =? length (minted st))%nat then (s, st')
        else
          match (if existsb (λ c, c =? 10)%N s then to_string_pretty else to_string) parsed' with
          | Some text => (text, st')
          | None => (s, with_stop st' (Failed Json))
          end
    end.

(** The text pass on one leaf. *)
Definition redact_leaf source (s : bytes) st : bytes * pass_state :=
  if is_stopped st || is_empty s then (s, st)
  else
    match redact (later_env (accesses st) E) P s source (p_vault st) (p_audit st) with
    | None => (s, with_stop st Panicked)
    | Some (Err e, V, A) =>
        (s, {| stopped := Some (Failed e); minted := minted st; p_vault := V; p_audit := A; accesses := accesses st |})
    | Some (Ok out, V, A) =>
        (if is_empty (tokens_written out) then s else redacted_text out,
         {| stopped := None; minted := minted st ++ tokens_written out; p_vault := V; p_audit := A;
            accesses := accesses st + length (tokens_written out) |})
    end.

Fixpoint walk_strings (f : bytes → pass_state → bytes * pass_state) v st : Value * pass_state :=
  match v with
  | VString s => let '(s', st') := f s st in (VString s', st')
  | VArray items => let '(items', st') := map_state (walk_strings f) items st in (VArray items', st')
  | VObject entries =>
      let '(entries', st') :=
        map_state (λ (e : bytes * Value) st, let '(x, st') := walk_strings f e.2 st in ((e.1, x), st')) entries st in
      (VObject entries', st')
  | _ => (v, st)
  end.

Definition run_passes v ctx st : Value * pass_state :=
  let source := ToolResult (tool_name ctx) in
  let '(v1, st1) := structured_pass v ctx source false st in
  if is_stopped st1 then (v1, st1)
  else
    let '(v2, st2) := walk_strings (redact_embedded_json ctx source) v1 st1 in
    if is_stopped st2 then (v2, st2)
    else walk_strings (redact_leaf source) v2 st2.

(** [redact_value]: the tokens or the error ([None] is a panic), and what has
    become of the value, the vault and the audit log. *)
Definition redact_value v ctx (V : vault) (A : list AuditEvent)
    : option (result (list Token) RedactionError) * Value * vault * list AuditEvent :=
  match mode (setting_for P (ToolResult (tool_name ctx))) with
  | Off | Inherit | Selective => (Some (Ok []), v, V, A)
  | On =>
      let '(v', st) :=
        run_passes v ctx {| stopped := None; minted := []; p_vault := V; p_audit := A; accesses := 0 |} in
      (match stopped st with
       | None => Some (Ok (minted st))
       | Some (Failed e) => Some (Err e)
       | Some Panicked => None
       end, v', p_vault st, p_audit st)
  end.
End passes.

(** ** What the field rules do, as functions of the value *)

(** The text of a scalar with something to hide. *)
Definition original_of (v : Value) : option bytes :=
  match v with
  | VString s => if left_alone s then None else Some s
  | VBool x => Some (if x then b "true" else b "false")
  | VNumber n => Some n
  | _ => None
  end.

(** No step through an excluded key. *)
Definition allowed (r : JsonPathRule) (steps : list step) : bool :=
  forallb (λ s, match s with SKey k => negb (excluded r k) | SIdx _ => true end) steps.

Section masking.
Context `{VaultPlatform} `{Hmac} `{JsonPointer} `{SerdeJson} (E : environment) (P : RedactionPipeline).
Implicit Types (st : pass_state) (v : Value) (r : JsonPathRule) (source : Source) (steps : list step).

Definition field_token r (original : bytes) : Token :=
  {| as_str := wire (spec_category (spec r)) (session_hash (salt_of P (as_rule r)) original) |}.

Fixpoint mask_node r v (depth : nat) : Value :=
  if (MAX_PATH_DEPTH <=? depth)%nat then v
  else
    match v with
    | VArray items => VArray (map (λ x, mask_node r x (S depth)) items)
    | VObject entries =>
        VObject (map (λ e : bytes * Value, if excluded r e.1 then e else (e.1, mask_node r e.2 (S depth))) entries)
    | _ => match original_of v with Some o => VString (as_str (field_token r o)) | None => v end
    end.

Fixpoint node_tokens r v (depth : nat) : list Token :=
  if (MAX_PATH_DEPTH <=? depth)%nat then []
  else
    match v with
    | VArray items => flat_map (λ x, node_tokens r x (S depth)) items
    | VObject entries =>
        flat_map (λ e : bytes * Value, if excluded r e.1 then [] else node_tokens r e.2 (S depth)) entries
    | _ => match original_of v with Some o => [field_token r o] | None => [] end
    end.

(** Tokens that parse, and that the vault holds for this pipeline. *)
Definition genuine (t : Token) : Prop := parse (as_str t) = Some t.
Definition held (V : vault) (t : Token) : Prop := present (agent_id P) (session_id P) V (as_str t).

(** From one state to another by minting these tokens. *)
Record took st st' (toks : list Token) : Prop := {
  took_minted : minted st' = minted st ++ toks;
  took_genuine : Forall genuine toks;
  took_keeps : ∀ t, held (p_vault st) t → held (p_vault st') t;
  took_held : Forall (held (p_vault st')) toks;
}.

Lemma took_nil st : took st st [].
Proof. split; [by rewrite app_nil_r|constructor|done|constructor]. Qed.

Lemma took_app st1 st2 st3 l1 l2 : took st1 st2 l1 → took st2 st3 l2 → took st1 st3 (l1 ++ l2).
Proof.
  intros [M1 G1 K1 H1'] [M2 G2 K2 H2']. split.
  - by rewrite M2, M1, app_assoc.
  - by apply List.Forall_app.
  - auto.
  - apply List.Forall_app. split; [|done]. by eapply List.Forall_impl; [|exact H1'].
Qed.

Lemma mint_token_took (E1 : environment) i o (rl : Rule) source path V A tok V' A' :
  mint_token E1 P i o rl source path V A = (Ok tok, V', A') →
  as_str tok = wire (rule_category rl) (session_hash (salt_of P rl) o)
  ∧ genuine tok ∧ held V' tok ∧ ∀ t, held V t → held V' t.
Proof.
  unfold mint_token, Token_new.
  destruct (validate_category _) as [[]|] eqn:Ec; [|done].
  destruct (validate_hash _) as [[]|] eqn:Eh; [|done]. cbn [as_str].
  destruct (insert_mapping _ _ _ _ _ _ _ _ _ _ _ _ _) as [[[]|e] V1] eqn:Ei; [|done].
  destruct (source_meta source) as [sc sd]. intros. simplify_eq. split; [done|]. split; [by apply parse_wire|].
  apply insert_mapping_ok in Ei as (c & Hc & ->). unfold held, present. cbn [as_str].
  assert (session_key (vault_session P rl) = session_key (session_id P) ∨ cross_session_stable rl = true) as Hs
    by (unfold vault_session; destruct (cross_session_stable rl); auto).
  generalize (wire (rule_category rl) (session_hash (salt_of P rl) o)) as tk. intros tk.
  split; [eexists _, _; by rewrite lookup_insert_eq|].
  intros t (s & row & Hl & Hm). destruct (decide (as_str t = tk ∧ s = session_key (vault_session P rl))) as [[-> ->]|Hne].
  - eexists _, _. by rewrite lookup_insert_eq.
  - exists s, row. rewrite lookup_insert_ne; [done|]. intros Hk. apply Hne. by simplify_eq.
Qed.

Lemma mint_took r source o ptr st tok st' :
  mint E P r source o ptr st = (Some tok, st') → tok = field_token r o ∧ stopped st' = None ∧ took st st' [tok].
Proof.
  unfold mint. destruct (mint_token _ _ _ _ _ _ _ _ _) as [[[tk|]?]?] eqn:Em; [|done]. intros. simplify_eq.
  apply mint_token_took in Em as (Ht & Hg & Hh & Hk).
  split; [by destruct tok; cbn in Ht; subst|]. split; [done|]. split; cbn; [done|by constructor|done|by constructor].
Qed.

Lemma tokenize_leaf_took r source v o ptr st v' st' :
  tokenize_leaf E P r source v o ptr st = (v', st') → stopped st' = None →
  v' = VString (as_str (field_token r o)) ∧ took st st' [field_token r o].
Proof.
  unfold tokenize_leaf. destruct (mint _ _ _ _ _ _ _) as [[tok|] st1] eqn:Em.
  - intros [= <- <-] Hs. by apply mint_took in Em as (-> & _ & ?).
  - intros [= <- <-]. unfold mint in Em. destruct (mint_token _ _ _ _ _ _ _ _ _) as [[[]?]?]; simplify_eq/=. done.
Qed.

(** A loop that does nothing once stopped. *)
Lemma imap_state_stopped {A} (g : nat → A → pass_state → A * pass_state) i l st :
  (∀ i x st, is_stopped st = true → g i x st = (x, st)) → is_stopped st = true → imap_state g i l st = (l, st).
Proof. intros Hg Hs. revert i. induction l as [|x l IH]; intros i; cbn; [done|]. rewrite Hg by done. by rewrite IH. Qed.

Lemma imap_state_took {A} (g : nat → A → pass_state → A * pass_state) (f : A → A) (toks : A → list Token) l :
  (∀ i x st, is_stopped st = true → g i x st = (x, st)) →
  (∀ x, x ∈ l → ∀ i st x' st', stopped st = None → g i x st = (x', st') → stopped st' = None →
     x' = f x ∧ took st st' (toks x)) →
  ∀ i st l' st', stopped st = None → imap_state g i l st = (l', st') → stopped st' = None →
    l' = map f l ∧ took st st' (flat_map toks l).
Proof.
  intros Hstop. induction l as [|x l IH]; intros Hg i st l' st' Hs; cbn.
  { intros [= <- <-] _. split; [done|apply took_nil]. }
  destruct (g i x st) as [x1 st1] eqn:Ex. destruct (imap_state g (S i) l st1) as [l1 st2] eqn:El. intros [= <- <-] Hs2.
  assert (stopped st1 = None) as Hs1.
  { destruct (stopped st1) eqn:E1; [|done]. rewrite imap_state_stopped in El; [|done|unfold is_stopped; by rewrite E1].
    by simplify_eq. }
  destruct (Hg x (list_elem_of_here _ _) i st x1 st1 Hs Ex Hs1) as [-> H1'].
  destruct (IH (λ y Hy, Hg y (list_elem_of_further _ x _ Hy)) (S i) st1 l1 st2 Hs1 El Hs2) as [-> H2'].
  split; [done|]. by eapply took_app.
Qed.

Lemma map_state_imap {A} (g : A → pass_state → A * pass_state) l i st : map_state g l st = imap_state (λ _, g) i l st.
Proof. revert i st. induction l as [|x l IH]; intros i st; cbn; [done|]. destruct (g x st). by rewrite (IH (S i)). Qed.

Lemma tokenize_stopped r source v ptr d st : is_stopped st = true → tokenize_node E P r source v ptr d st = (v, st).
Proof. destruct v; cbn; by intros ->. Qed.

Lemma tokenize_mask r source v : ∀ ptr d st v' st',
  stopped st = None → tokenize_node E P r source v ptr d st = (v', st') → stopped st' = None →
  v' = mask_node r v d ∧ took st st' (node_tokens r v d).
Proof.
  induction v as [| | | |items IH|entries IH] using value_ind; intros ptr d st v' st' Hs;
    cbn [tokenize_node mask_node node_tokens original_of];
    (replace (is_stopped st) with false by (unfold is_stopped; by rewrite Hs));
    (destruct (MAX_PATH_DEPTH <=? d)%nat; [intros [= <- <-] _; split; [done|apply took_nil]|]).
  - intros [= <- <-] _. split; [done|apply took_nil].
  - intros Ht Hs'. by apply tokenize_leaf_took in Ht.
  - intros Ht Hs'. by apply tokenize_leaf_took in Ht.
  - destruct (left_alone s); [intros [= <- <-] _; split; [done|apply took_nil]|].
    intros Ht Hs'. by apply tokenize_leaf_took in Ht.
  - destruct (imap_state _ _ _ _) as [items' st1] eqn:El. intros [= <- <-] Hs'.
    rewrite List.Forall_forall in IH.
    eapply imap_state_took with (f := λ x, mask_node r x (S d)) (toks := λ x, node_tokens r x (S d)) in El as [-> Ht];
      [by split|intros; by apply tokenize_stopped| |done|done].
    intros x Hx i st0 x' st0' Hs0 Hx' Hs0'. eapply IH; [by apply list_elem_of_In|done..].
  - destruct (map_state _ _ _) as [entries' st1] eqn:El. intros [= <- <-] Hs'. rewrite (map_state_imap _ _ 0) in El.
    rewrite List.Forall_forall in IH.
    eapply imap_state_took with
      (f := λ e : bytes * Value, if excluded r e.1 then e else (e.1, mask_node r e.2 (S d)))
      (toks := λ e : bytes * Value, if excluded r e.1 then [] else node_tokens r e.2 (S d)) in El as [-> Ht];
      [by split| | |done|done].
    + intros i [k x] st0 Hst. cbn. destruct (excluded r k); [done|]. by rewrite tokenize_stopped.
    + intros [k x] Hx i st0 x' st0' Hs0 Hx' Hs0'. cbn in *. destruct (excluded r k).
      * simplify_eq. split; [done|apply took_nil].
      * destruct (tokenize_node _ _ _ _ x _ _ _) as [y sty] eqn:Ey. simplify_eq.
        apply list_elem_of_In in Hx. destruct (IH (k, x) Hx _ _ _ _ _ Hs0 Ey Hs0') as [-> ?]. done.
Qed.

(** ** Leaves *)

Definition is_leaf v : bool := match v with VArray _ | VObject _ => false | _ => true end.
Definition mask_leaf r v : Value :=
  match original_of v with Some o => VString (as_str (field_token r o)) | None => v end.
Definition below r (rest : list step) : bool := allowed r rest && (length rest <? MAX_PATH_DEPTH)%nat.

Lemma child_leaf v s : is_leaf v = true → child v s = None.
Proof. by destruct v. Qed.

Lemma mask_deep r v d : (MAX_PATH_DEPTH ≤ d)%nat → mask_node r v d = v.
Proof. intros Hd. destruct v; cbn [mask_node]; by rewrite (proj2 (Nat.leb_le _ _)) by done. Qed.

Lemma mask_node_leaf r v d : (d < MAX_PATH_DEPTH)%nat → is_leaf v = true → mask_node r v d = mask_leaf r v.
Proof. intros Hd Hl. destruct v; try done; cbn [mask_node]; by rewrite (proj2 (Nat.leb_gt _ _)) by done. Qed.

Lemma entry_map (f : bytes → Value → Value) entries k :
  entry (map (λ e : bytes * Value, (e.1, f e.1 e.2)) entries) k = f k <$> entry entries k.
Proof.
  induction entries as [|[k' c] l IH]; cbn; [done|]. destruct (ustr_eqb k' k) eqn:Ek; [|done].
  apply bool_decide_eq_true in Ek as ->. done.
Qed.

Lemma child_mask r v d s :
  (d < MAX_PATH_DEPTH)%nat →
  child (mask_node r v d) s = (λ c, if allowed r [s] then mask_node r c (S d) else c) <$> child v s.
Proof.
  intros Hd. unfold allowed. cbn [forallb]. rewrite andb_true_r.
  destruct v as [| | |t|items|entries]; cbn [mask_node]; rewrite (proj2 (Nat.leb_gt _ _)) by done;
    try done; [by cbn; destruct (left_alone t)|destruct s as [k|i]; [done|]|destruct s as [k|i]; [|done]].
  - cbn [child]. apply list_lookup_fmap.
  - cbn [child]. rewrite (map_ext _ (λ e : bytes * Value, (e.1, if negb (excluded r e.1) then mask_node r e.2 (S d) else e.2))).
    + by rewrite (entry_map (λ k c, if negb (excluded r k) then mask_node r c (S d) else c)).
    + intros [k' c]. cbn. by destruct (excluded r k').
Qed.

Lemma node_at_mask r v d steps :
  node_at (mask_node r v d) steps =
    (λ c, if allowed r steps then mask_node r c (d + length steps) else c) <$> node_at v steps.
Proof.
  revert v d. induction steps as [|s steps IH]; intros v d; cbn [node_at length].
  { cbn. by rewrite Nat.add_0_r. }
  destruct (Nat.le_gt_cases MAX_PATH_DEPTH d) as [Hd|Hd].
  - rewrite mask_deep by done. destruct (child v s) as [c|]; [|done]. cbn. destruct (node_at c steps) as [c'|]; [|done].
    cbn. f_equal. rewrite mask_deep by lia. by destruct (_ && _).
  - rewrite child_mask by done. destruct (child v s) as [c|]; [|done]. cbn [fmap option_fmap option_map mbind option_bind].
    change (allowed r (s :: steps)) with (match s with SKey k => negb (excluded r k) | SIdx _ => true end && allowed r steps).
    replace (allowed r [s]) with (match s with SKey k => negb (excluded r k) | SIdx _ => true end)
      by (unfold allowed; cbn; by rewrite andb_true_r).
    destruct (match s with SKey k => _ | SIdx _ => _ end); cbn [andb].
    + rewrite IH. by replace (S d + length steps)%nat with (d + S (length steps))%nat by lia.
    + destruct (node_at c steps); done.
Qed.

Lemma node_at_mask_leaf r v rest c :
  node_at v rest = Some c → is_leaf c = true →
  node_at (mask_node r v 0) rest = Some (if below r rest then mask_leaf r c else c).
Proof.
  intros Hn Hl. rewrite node_at_mask, Hn. cbn [fmap option_fmap option_map Nat.add]. unfold below. f_equal.
  destruct (Nat.ltb_spec (length rest) MAX_PATH_DEPTH) as [Hd|Hd]; destruct (allowed r rest); try done.
  - by apply mask_node_leaf.
  - by apply mask_deep.
Qed.

Lemma node_tokens_leaf r v d rest c o :
  node_at v rest = Some c → original_of c = Some o → allowed r rest = true → (d + length rest < MAX_PATH_DEPTH)%nat →
  field_token r o ∈ node_tokens r v d.
Proof.
  revert v d. induction rest as [|s rest IH]; intros v d; cbn [node_at length].
  - intros [= ->] Ho _ Hd. destruct c; cbn [node_tokens]; rewrite (proj2 (Nat.leb_gt _ _)) by lia; try done; rewrite Ho; by left.
  - intros (v' & Hv & Hn)%bind_Some Ho Ha Hd. unfold allowed in Ha. cbn in Ha. apply andb_true_iff in Ha as [Hs Ha].
    assert (field_token r o ∈ node_tokens r v' (S d)) as Hin by (apply IH; [done..|lia]).
    destruct v as [| | | |items|entries], s as [k|i]; try done; cbn in Hv; cbn [node_tokens];
      rewrite (proj2 (Nat.leb_gt _ _)) by lia; apply elem_of_flat_map.
    + exists v'. split; [by eapply list_elem_of_lookup_2|done].
    + exists (k, v'). split; [by apply entry_elem|]. cbn. apply negb_true_iff in Hs. by rewrite Hs.
Qed.

(** ** One hit *)

Definition same_shape v v' : Prop := ∀ steps, is_Some (node_at v' steps) ↔ is_Some (node_at v steps).

Lemma same_shape_alter r v at_ n :
  node_at v at_ = Some n → same_shape v (alter_at (λ _, mask_node r n 0) v at_).
Proof.
  intros Hn steps. destruct (decide (at_ `prefix_of` steps)) as [[rest ->]|Hp].
  - rewrite (node_at_alter_below _ _ _ _ n) by done. rewrite node_at_app, Hn, node_at_mask. cbn. by rewrite fmap_is_Some.
  - destruct (decide (steps `prefix_of` at_)) as [[rest ->]|Hq].
    + by rewrite node_at_alter_above, fmap_is_Some.
    + by rewrite node_at_alter_other.
Qed.

Lemma leaf_alter r v at_ n steps c :
  node_at v at_ = Some n → node_at v steps = Some c → is_leaf c = true →
  (∀ rest, steps = at_ ++ rest →
     node_at (alter_at (λ _, mask_node r n 0) v at_) steps = Some (if below r rest then mask_leaf r c else c))
  ∧ (¬ at_ `prefix_of` steps → node_at (alter_at (λ _, mask_node r n 0) v at_) steps = Some c).
Proof.
  intros Hn Hc Hl. split.
  - intros rest ->. rewrite (node_at_alter_below _ _ _ _ n) by done. apply node_at_mask_leaf; [|done].
    rewrite node_at_app, Hn in Hc. exact Hc.
  - intros Hp. rewrite node_at_alter_other; [done|done|]. intros [rest ->].
    rewrite node_at_app, Hc in Hn. destruct rest as [|s rest]; [apply Hp; by rewrite app_nil_r|].
    cbn in Hn. by rewrite child_leaf in Hn.
Qed.

(** Whether a hit covers a leaf: the leaf lies at or below its node, within
    the depth and outside of the excluded keys. *)
Definition covers (h : StructuredHit) (steps : list step) : bool :=
  existsb (λ k, ustr_eqb (hit_pointer h) (pointer_of (take k steps)) && below (hit_rule h) (drop k steps))
    (seq 0 (S (length steps))).

Lemma covers_spec v h at_ steps :
  hit_pointer h = pointer_of at_ → is_Some (node_at v at_) → is_Some (node_at v steps) →
  covers h steps = true ↔ ∃ rest, steps = at_ ++ rest ∧ below (hit_rule h) rest = true.
Proof.
  intros Hp [n Hn] [c Hc]. unfold covers. rewrite existsb_exists. split.
  - intros (k & _ & [He Hb]%andb_true_iff). apply bool_decide_eq_true in He. exists (drop k steps).
    split; [|done]. rewrite <- (take_drop k steps) at 1. f_equal.
    rewrite <- (take_drop k steps), node_at_app in Hc. apply bind_Some in Hc as (c' & Hc' & _).
    eapply pointer_of_inj; [exact Hc'|exact Hn|congruence].
  - intros (rest & -> & Hb). exists (length at_). split; [apply in_seq; rewrite length_app; lia|].
    rewrite take_app_length, drop_app_length, Hb, Hp. by rewrite ustr_eqb_refl.
Qed.

Definition live (allow_root : bool) (h : StructuredHit) : bool := negb (is_empty (hit_pointer h) && negb allow_root).

Lemma hit_step_stopped source ar v st h : is_stopped st = true → hit_step E P source ar (v, st) h = (v, st).
Proof. intros Hs. unfold hit_step. by rewrite Hs. Qed.

Lemma hit_step_mask source ar v st h v' st' at_ n :
  hit_pointer h = pointer_of at_ → node_at v at_ = Some n → stopped st = None →
  hit_step E P source ar (v, st) h = (v', st') → stopped st' = None →
  if live ar h then v' = alter_at (λ _, mask_node (hit_rule h) n 0) v at_ ∧ took st st' (node_tokens (hit_rule h) n 0)
  else v' = v ∧ st' = st.
Proof.
  intros Hp Hn Hs. unfold hit_step, is_stopped. rewrite Hs. unfold live.
  destruct (is_empty (hit_pointer h) && negb ar); cbn [negb]; [by intros [= <- <-]|].
  rewrite Hp, (pointer_at _ _ _ Hn). destruct (tokenize_node _ _ _ _ n _ _ _) as [n' st1] eqn:Et.
  intros [= <- <-] Hs'. apply tokenize_mask in Et as [-> Ht]; [|done..].
  split; [by apply (pointer_put_at v at_ n)|done].
Qed.

(** ** The whole pass *)

(** What a leaf is after the hits: the first that covers it decides. *)
Definition claimed ar (hs : list StructuredHit) steps v : option Token :=
  match original_of v, List.find (λ h, live ar h && covers h steps) hs with
  | Some o, Some h => Some (field_token (hit_rule h) o)
  | _, _ => None
  end.

Lemma token_is_final t : genuine t → original_of (VString (as_str t)) = None.
Proof. intros Hg. cbn. unfold left_alone. rewrite Hg. by rewrite orb_true_r. Qed.

Lemma hits_stopped source ar hs v st : is_stopped st = true → foldl (hit_step E P source ar) (v, st) hs = (v, st).
Proof. intros Hs. induction hs as [|h hs IH]; [done|]. cbn [foldl]. by rewrite hit_step_stopped. Qed.

(** One hit, seen from a leaf. *)
Lemma hit_step_leaf source ar v0 v st h v' st' :
  (∃ at_, hit_pointer h = pointer_of at_ ∧ is_Some (node_at v0 at_)) → same_shape v0 v →
  stopped st = None → hit_step E P source ar (v, st) h = (v', st') → stopped st' = None →
  same_shape v0 v' ∧ ∃ toks, took st st' toks
    ∧ ∀ steps c, node_at v steps = Some c → is_leaf c = true →
        if live ar h && covers h steps
        then node_at v' steps = Some (mask_leaf (hit_rule h) c)
             ∧ ∀ o, original_of c = Some o → field_token (hit_rule h) o ∈ toks
        else node_at v' steps = Some c.
Proof.
  intros (at_ & Hp & H0') Hsh Hs Ht Hs'. pose proof (proj2 (Hsh at_) H0') as [n Hn].
  pose proof (hit_step_mask _ _ _ _ _ _ _ _ _ Hp Hn Hs Ht Hs') as Hm.
  destruct (live ar h); cbn [andb]; [|destruct Hm as [-> ->]; split; [done|]; exists []; split; [apply took_nil|done]].
  destruct Hm as [-> Hm]. split.
  { intros steps. rewrite <- (Hsh steps). by apply same_shape_alter. }
  eexists. split; [exact Hm|]. intros steps c Hc Hl.
  pose proof (covers_spec v0 h at_ steps Hp H0' ltac:(apply Hsh; eauto)) as Hcov.
  destruct (leaf_alter (hit_rule h) v at_ n steps c Hn Hc Hl) as [Hin Hout].
  destruct (covers h steps).
  - destruct (proj1 Hcov eq_refl) as (rest & -> & Hb). rewrite (Hin rest eq_refl), Hb. split; [done|]. intros o Ho.
    unfold below in Hb. apply andb_true_iff in Hb as [Ha Hd%Nat.ltb_lt].
    eapply node_tokens_leaf; [|exact Ho|exact Ha|lia]. by rewrite node_at_app, Hn in Hc.
  - destruct (decide (at_ `prefix_of` steps)) as [[rest ->]|Hp']; [|by apply Hout].
    rewrite (Hin rest eq_refl). destruct (below (hit_rule h) rest) eqn:Eb; [|done].
    exfalso. by apply (@Bool.diff_false_true), Hcov; exists rest.
Qed.

Lemma hits_leaf source ar v0 hs : ∀ v st v' st',
  (∀ h, h ∈ hs → ∃ at_, hit_pointer h = pointer_of at_ ∧ is_Some (node_at v0 at_)) → same_shape v0 v →
  stopped st = None → foldl (hit_step E P source ar) (v, st) hs = (v', st') → stopped st' = None →
  same_shape v0 v' ∧ ∃ toks, took st st' toks
    ∧ ∀ steps c, node_at v steps = Some c → is_leaf c = true →
        match claimed ar hs steps c with
        | Some t => node_at v' steps = Some (VString (as_str t)) ∧ t ∈ toks
        | None => node_at v' steps = Some c
        end.
Proof.
  induction hs as [|h hs IH]; intros v st v' st' Hh Hsh Hs; cbn [foldl].
  { intros [= <- <-] _. split; [done|]. exists []. split; [apply took_nil|]. intros steps c Hc _.
    unfold claimed. cbn. by destruct (original_of c). }
  destruct (hit_step E P source ar (v, st) h) as [v1 st1] eqn:E1. intros E2 Hs'.
  assert (stopped st1 = None) as Hs1.
  { destruct (stopped st1) eqn:Es; [|done]. rewrite hits_stopped in E2 by (unfold is_stopped; by rewrite Es). by simplify_eq. }
  destruct (hit_step_leaf source ar v0 v st h v1 st1 (Hh h (list_elem_of_here _ _)) Hsh Hs E1 Hs1) as (Hsh1 & t1 & Ht1 & Hl1).
  destruct (IH v1 st1 v' st' (λ h' Hh', Hh h' (list_elem_of_further _ _ _ Hh')) Hsh1 Hs1 E2 Hs') as (Hsh2 & t2 & Ht2 & Hl2).
  split; [done|]. exists (t1 ++ t2). split; [by eapply took_app|]. intros steps c Hc Hl.
  specialize (Hl1 steps c Hc Hl). unfold claimed. cbn [List.find]. destruct (live ar h && covers h steps).
  - destruct Hl1 as [Hm Htok]. unfold mask_leaf in Hm. destruct (original_of c) as [o|] eqn:Eo.
    + specialize (Htok o eq_refl). specialize (Hl2 steps _ Hm eq_refl). unfold claimed in Hl2.
      rewrite token_is_final in Hl2; [split; [exact Hl2|apply elem_of_app; by left]|].
      eapply List.Forall_forall; [apply (took_genuine _ _ _ Ht1)|by apply list_elem_of_In].
    + specialize (Hl2 steps _ Hm Hl). unfold claimed in Hl2. by rewrite Eo in Hl2.
  - specialize (Hl2 steps c Hl1 Hl). unfold claimed in Hl2. destruct (original_of c); [|done].
    destruct (List.find _ hs); [|done]. destruct Hl2 as [Hv Ht]. split; [done|apply elem_of_app; by right].
Qed.

Context `{RuleDebug} (structured : list JsonPathRule).

Lemma hit_nodes v ctx setting h :
  unique_keys v → Forall compiled structured → h ∈ apply_structured structured v ctx setting →
  ∃ at_, hit_pointer h = pointer_of at_ ∧ is_Some (node_at v at_).
Proof.
  intros Hu Hc (Hr & _ & Hp)%elem_of_apply_structured. rewrite List.Forall_forall in Hc.
  apply elem_of_resolve_pointers in Hp as (path & steps & c & _ & _ & Hn & _ & He);
    [by exists steps|done|by apply compiled_paths, Hc, list_elem_of_In].
Qed.

Lemma structured_pass_leaf v ctx source ar st v' st' :
  unique_keys v → Forall compiled structured → stopped st = None →
  structured_pass E P structured v ctx source ar st = (v', st') → stopped st' = None →
  ∃ toks, took st st' toks
    ∧ ∀ steps c, node_at v steps = Some c → is_leaf c = true →
        match claimed ar (apply_structured structured v ctx (setting_for P source)) steps c with
        | Some t => node_at v' steps = Some (VString (as_str t)) ∧ t ∈ toks
        | None => node_at v' steps = Some c
        end.
Proof.
  intros Hu Hc Hs Hp Hs'.
  by destruct (hits_leaf source ar v _ v st v' st' (λ h, hit_nodes v ctx (setting_for P source) h Hu Hc) (λ _, iff_refl _) Hs Hp Hs')
    as [_ ?].
Qed.

(** ** The passes over the string leaves *)

(** The text pass mints tokens like the field rules do. *)
Lemma redact_loop_took E1 text source ms : ∀ i out cursor toks V A (out' : RedactionOutput) V' A',
  redact_loop E1 P text source ms i out cursor toks V A = Some (Ok out', V', A') →
  ∃ l, tokens_written out' = toks ++ l ∧ Forall genuine l ∧ Forall (held V') l ∧ ∀ t, held V t → held V' t.
Proof.
  induction ms as [|m ms IH]; intros i out cursor toks V A out' V' A'; cbn [redact_loop].
  - intros (rest & _ & Hr)%bind_Some. simplify_eq/=. exists []. by rewrite app_nil_r.
  - intros (lead & _ & Hr)%bind_Some.
    destruct (mint_token _ _ _ _ _ _ _ _ _) as [[[tok|e] V1] A1] eqn:Em; [|done].
    apply IH in Hr as (l & Hl & Hg & Hh & Hk). apply mint_token_took in Em as (_ & Hgt & Hht & Hkt).
    exists (tok :: l). split_and!; [by rewrite Hl, <- app_assoc|by constructor|constructor; auto|auto].
Qed.

Lemma redact_took E1 text source V A out V' A' :
  redact E1 P text source V A = Some (Ok out, V', A') →
  Forall genuine (tokens_written out) ∧ Forall (held V') (tokens_written out) ∧ ∀ t, held V t → held V' t.
Proof.
  unfold redact. destruct (negb _); [intros; by simplify_eq/=|].
  destruct (matches_for P text source) as [[|m ms]|]; [intros; by simplify_eq/=| |done].
  intros (l & Hl & Hg & Hh & Hk)%redact_loop_took. cbn [app] in Hl. by rewrite Hl.
Qed.

Lemma redact_leaf_took source s st s' st' :
  stopped st = None → redact_leaf E P source s st = (s', st') → stopped st' = None → ∃ toks, took st st' toks.
Proof.
  intros Hs. unfold redact_leaf, is_stopped. rewrite Hs. cbn [orb].
  destruct (is_empty s); [intros [= <- <-] _; exists []; apply took_nil|].
  destruct (redact _ _ _ _ _ _) as [[[[out|e] V'] A']|] eqn:Er; intros [= <- <-]; try done.
  intros _. apply redact_took in Er as (Hg & Hh & Hk). exists (tokens_written out). by split.
Qed.

Lemma redact_embedded_took ctx source s st s' st' :
  Forall compiled structured →
  stopped st = None → redact_embedded_json E P structured ctx source s st = (s', st') → stopped st' = None →
  ∃ toks, took st st' toks.
Proof.
  intros Hc Hs. unfold redact_embedded_json. replace (is_stopped st) with false by (unfold is_stopped; by rewrite Hs).
  destruct (_ <? _)%nat; [intros [= <- <-] _; exists []; apply took_nil|].
  destruct (negb _); [intros [= <- <-] _; exists []; apply took_nil|].
  destruct (from_str s) as [parsed|] eqn:Ef; [|intros [= <- <-] _; exists []; apply took_nil].
  destruct (structured_pass E P structured parsed ctx source true st) as [parsed' st1] eqn:Ep.
  intros Hr Hs'. assert (stopped st1 = None ∧ st' = st1) as [Hs1 ->].
  { destruct (is_stopped st1) eqn:E1; [simplify_eq; unfold is_stopped in E1; by rewrite Hs' in E1|].
    assert (stopped st1 = None) by (unfold is_stopped in E1; by destruct (stopped st1)).
    split; [done|]. destruct (_ =? _)%nat; [by simplify_eq|]. destruct (_ parsed'); by simplify_eq. }
  apply structured_pass_leaf in Ep as (toks & Ht & _); [by exists toks|by eapply from_str_unique|done..].
Qed.

(** A loop, seen as a relation between the elements before and after. *)
Lemma imap_state_rel {A} (g : nat → A → pass_state → A * pass_state) (R : A → A → Prop) l :
  (∀ i y st, is_stopped st = true → g i y st = (y, st)) →
  (∀ y, y ∈ l → ∀ i st y' st', stopped st = None → g i y st = (y', st') → stopped st' = None →
     R y y' ∧ ∃ toks, took st st' toks) →
  ∀ i st l' st', stopped st = None → imap_state g i l st = (l', st') → stopped st' = None →
    Forall2 R l l' ∧ ∃ toks, took st st' toks.
Proof.
  intros Hstop. induction l as [|y l IH]; intros Hg i st l' st' Hs; cbn.
  { intros [= <- <-] _. split; [constructor|exists []; apply took_nil]. }
  destruct (g i y st) as [y1 st1] eqn:Ey. destruct (imap_state g (S i) l st1) as [l1 st2] eqn:El. intros [= <- <-] Hs2.
  assert (stopped st1 = None) as Hs1.
  { destruct (stopped st1) eqn:E1; [|done]. rewrite imap_state_stopped in El; [|done|unfold is_stopped; by rewrite E1].
    by simplify_eq. }
  destruct (Hg y (list_elem_of_here _ _) i st y1 st1 Hs Ey Hs1) as [HR [t1 H1']].
  destruct (IH (λ z Hz, Hg z (list_elem_of_further _ y _ Hz)) (S i) st1 l1 st2 Hs1 El Hs2) as [HRs [t2 H2']].
  split; [by constructor|]. exists (t1 ++ t2). by eapply took_app.
Qed.

Section walk.
Context (f : bytes → pass_state → bytes * pass_state).
Context (f_stopped : ∀ s st, is_stopped st = true → f s st = (s, st)).
Context (f_took : ∀ s st s' st', stopped st = None → f s st = (s', st') → stopped st' = None → ∃ toks, took st st' toks).

Lemma walk_stopped v st : is_stopped st = true → walk_strings f v st = (v, st).
Proof.
  revert st. induction v as [| | | |items IH|entries IH] using value_ind; intros st Hs; cbn; try done.
  - by rewrite f_stopped.
  - rewrite (map_state_imap _ _ 0).
    assert (imap_state (λ _, walk_strings f) 0 items st = (items, st)) as ->; [|done].
    generalize 0%nat. induction IH as [|y l Hy Hl IHl]; intros i; cbn; [done|]. rewrite Hy by done. by rewrite IHl.
  - rewrite (map_state_imap _ _ 0).
    assert (imap_state (λ _ (e : bytes * Value) st, let '(x, st') := walk_strings f e.2 st in ((e.1, x), st')) 0 entries st
            = (entries, st)) as ->; [|done].
    generalize 0%nat. induction IH as [|[k y] l Hy Hl IHl]; intros i; cbn in *; [done|]. rewrite Hy by done. by rewrite IHl.
Qed.

(** Strings that [f] leaves as they are stay where they are. *)
Definition kept (s : bytes) : Prop :=
  ∀ st s' st', stopped st = None → f s st = (s', st') → stopped st' = None → s' = s.
Definition keeps_leaves v v' : Prop :=
  ∀ steps s, node_at v steps = Some (VString s) → kept s → node_at v' steps = Some (VString s).

Lemma walk_took v : ∀ st v' st',
  stopped st = None → walk_strings f v st = (v', st') → stopped st' = None →
  keeps_leaves v v' ∧ ∃ toks, took st st' toks.
Proof.
  induction v as [| | | |items IH|entries IH] using value_ind; intros st v' st' Hs; cbn [walk_strings];
    try (intros [= <- <-] _; split; [by intros ??|exists []; apply took_nil]).
  - destruct (f s st) as [s' st1] eqn:Ef. intros [= <- <-] Hs'. split; [|by eapply f_took].
    intros [|s0 ?] t; cbn; [|done]. intros [= ->] Hk. by rewrite (Hk _ _ _ Hs Ef Hs').
  - destruct (map_state _ _ _) as [items' st1] eqn:El. intros [= <- <-] Hs'. rewrite (map_state_imap _ _ 0) in El.
    rewrite List.Forall_forall in IH.
    eapply (imap_state_rel _ keeps_leaves) in El as [HR Ht]; [|intros; by apply walk_stopped| |done|done].
    + split; [|done]. intros [|[k|i] steps] t; cbn; try done. intros (c & Hc & Hn)%bind_Some Hk.
      apply (Forall2_lookup_l _ _ _ _ _ HR) in Hc as (c' & Hc' & HR'). rewrite Hc'. cbn. by apply HR'.
    + intros y Hy i st0 y' st0' Hs0 Hy' Hs0'. eapply IH; [by apply list_elem_of_In|done..].
  - destruct (map_state _ _ _) as [entries' st1] eqn:El. intros [= <- <-] Hs'. rewrite (map_state_imap _ _ 0) in El.
    rewrite List.Forall_forall in IH.
    eapply (imap_state_rel _ (λ e e' : bytes * Value, e'.1 = e.1 ∧ keeps_leaves e.2 e'.2)) in El as [HR Ht];
      [| | |done|done].
    + split; [|done]. intros [|[k|i] steps] t; cbn; try done. intros (c & Hc & Hn)%bind_Some Hk.
      assert (∃ c', entry entries' k = Some c' ∧ keeps_leaves c c') as (c' & -> & HR'); [|cbn; by apply HR'].
      clear -HR Hc. induction HR as [|[k1 y] [k2 y'] l l' [Hk Hy] HR IH]; [done|]. cbn in *. subst k2.
      destruct (ustr_eqb k1 k); [simplify_eq; eauto|by apply IH].
    + intros i [k y] st0 Hs0. cbn. by rewrite walk_stopped.
    + intros [k y] Hy i st0 y' st0' Hs0 Hy' Hs0'. cbn in *.
      destruct (walk_strings f y st0) as [y1 sty] eqn:Ey. simplify_eq. cbn.
      apply list_elem_of_In in Hy. destruct (IH (k, y) Hy _ _ _ Hs0 Ey Hs0') as [? ?]. done.
Qed.
End walk.

(** ** Tokens stay *)

Lemma token_spans_wire c h : well_formed c h → token_spans (wire c h) = [(0, length (wire c h))]%nat.
Proof.
  intros Hw. unfold token_spans. cbn [spans_loop].
  pose proof (find_token [] c h [] eq_refl) as Hf. cbn [app length] in Hf. rewrite app_nil_r in Hf. rewrite Hf.
  cbv zeta. rewrite drop_0. pose proof (find_suffix c h [] Hw) as Hs. rewrite app_nil_r in Hs. rewrite Hs.
  pose proof (wire_length_pos c h) as Hl.
  replace (length (wire c h) - 1 + length TOKEN_SUFFIX)%nat with (length (wire c h)) by (cbn; lia).
  rewrite take_ge, parse_wire by done. cbn [app Nat.add]. f_equal.
  rewrite drop_ge by done. by destruct (length (wire c h)).
Qed.

Lemma token_unmatched t source :
  genuine t → sound_matches P (as_str t) source → matches_for P (as_str t) source = Some [].
Proof.
  intros Hg Hs. destruct (matches_for_spec _ _ _ Hs) as (ms & Em & _ & Hin). rewrite Em.
  destruct ms as [|m ms]; [done|]. exfalso.
  destruct (proj2 Hs m (Hin m ltac:(by left))) as [[Hne Hsl] _].
  pose proof (matches_for_inv _ _ _ _ Em m ltac:(by left)) as Ho.
  apply parse_spec in Hg as (c & h & Hw & Hwire & _). rewrite Hwire in Hsl, Ho.
  rewrite token_spans_wire in Ho by done.
  unfold overlaps_any in Ho. cbn [existsb fst snd] in Ho. rewrite orb_false_r in Ho.
  apply slice_some in Hsl as (Hb & _). unfold nonempty_span in Hne.
  apply andb_false_iff in Ho as [Ho%Nat.ltb_ge|Ho%Nat.ltb_ge]; lia.
Qed.

Lemma token_kept_by_text t source :
  genuine t → sound_matches P (as_str t) source → kept (redact_leaf E P source) (as_str t).
Proof.
  intros Hg Hm st s' st' Hs. unfold redact_leaf, is_stopped. rewrite Hs. cbn [orb].
  destruct (is_empty (as_str t)); [by intros [= <- <-]|].
  unfold redact. rewrite (token_unmatched _ _ Hg Hm). destruct (negb _); intros [= <- <-]; done.
Qed.

Lemma token_not_json t : genuine t → looks_like_json (as_str t) = false.
Proof. intros (c & h & _ & -> & _)%parse_spec. reflexivity. Qed.

Lemma token_kept_by_json ctx source t : genuine t → kept (redact_embedded_json E P structured ctx source) (as_str t).
Proof.
  intros Hg st s' st' Hs. unfold redact_embedded_json, is_stopped. rewrite Hs, token_not_json by done. cbn [negb].
  destruct (_ <? _)%nat; by intros [= <- <-].
Qed.

(** ** The properties *)

(** The field rules do to a value exactly what they say: when the pass
    ends without an error, each leaf that a hit covers and that holds
    something to hide is the token of the first such hit's rule, every other
    leaf is what it was, and the tokens minted are well formed and in the
    vault. *)
Theorem field_pass_exact v ctx source ar st v' st' :
  unique_keys v → Forall compiled structured → stopped st = None →
  structured_pass E P structured v ctx source ar st = (v', st') → stopped st' = None →
  ∃ toks, minted st' = minted st ++ toks ∧ Forall genuine toks ∧ Forall (held (p_vault st')) toks
    ∧ ∀ steps c, node_at v steps = Some c → is_leaf c = true →
        match claimed ar (apply_structured structured v ctx (setting_for P source)) steps c with
        | Some t => node_at v' steps = Some (VString (as_str t)) ∧ t ∈ toks
        | None => node_at v' steps = Some c
        end.
Proof.
  intros Hu Hc Hs Hp Hs'. destruct (structured_pass_leaf v ctx source ar st v' st' Hu Hc Hs Hp Hs') as (toks & [] & Hl).
  by exists toks.
Qed.

(** The three passes after each other. *)
Lemma run_passes_leaf v ctx st v' st' :
  unique_keys v → Forall compiled structured → (∀ text, sound_matches P text (ToolResult (tool_name ctx))) →
  stopped st = None → run_passes E P structured v ctx st = (v', st') → stopped st' = None →
  ∃ toks, took st st' toks
    ∧ ∀ steps c t, node_at v steps = Some c → is_leaf c = true →
        claimed false (apply_structured structured v ctx (setting_for P (ToolResult (tool_name ctx)))) steps c = Some t →
        node_at v' steps = Some (VString (as_str t)) ∧ t ∈ toks.
Proof.
  intros Hu Hc Hm Hs. unfold run_passes. set (source := ToolResult (tool_name ctx)) in *.
  destruct (structured_pass _ _ _ _ _ _ _ _) as [v1 st1] eqn:E1.
  destruct (is_stopped st1) eqn:Es1; [intros [= <- <-] Hs'; unfold is_stopped in Es1; by rewrite Hs' in Es1|].
  assert (stopped st1 = None) as Hs1 by (unfold is_stopped in Es1; by destruct (stopped st1)).
  destruct (walk_strings _ v1 st1) as [v2 st2] eqn:E2.
  destruct (is_stopped st2) eqn:Es2; [intros [= <- <-] Hs'; unfold is_stopped in Es2; by rewrite Hs' in Es2|].
  assert (stopped st2 = None) as Hs2 by (unfold is_stopped in Es2; by destruct (stopped st2)).
  intros E3 Hs3.
  destruct (structured_pass_leaf v ctx source false st v1 st1 Hu Hc Hs E1 Hs1) as (t1 & T1 & L1).
  apply walk_took in E2 as [L2 [t2 T2]]; [| |by intros; eapply redact_embedded_took|done|done].
  2:{ intros s st0 Hst. unfold redact_embedded_json. by rewrite Hst. }
  apply walk_took in E3 as [L3 [t3 T3]]; [| |by intros; eapply redact_leaf_took|done|done].
  2:{ intros s st0 Hst. unfold redact_leaf. by rewrite Hst. }
  exists ((t1 ++ t2) ++ t3). split; [by eapply took_app; [eapply took_app|]|].
  intros steps c t Hn Hl Hcl. specialize (L1 steps c Hn Hl). rewrite Hcl in L1. destruct L1 as [Hn1 Ht].
  assert (genuine t) as Hg.
  { pose proof (took_genuine _ _ _ T1) as Hf. rewrite List.Forall_forall in Hf. by apply Hf, list_elem_of_In. }
  split; [|set_solver]. apply L3; [apply L2; [done|]|]; [by apply token_kept_by_json|by apply token_kept_by_text].
Qed.

(** C18 Selected fields come out masked: when tool results are redacted
    ([mode = On]), no text rule panics or reports what a text does not hold,
    and the redaction of a tool's result succeeds, then every scalar with
    something to hide that lies at or below a place which a path of an
    applicable rule names (not the whole result, that place at most 64 levels
    deep and the scalar fewer than 64 levels below it, not under an excluded
    key) is a token in the value that is passed on; it is one of the tokens
    reported, made from that scalar's text for a field rule, and the vault
    holds it. *)
Theorem selected_fields_masked v ctx V A toks v' V' A' r path at_ rest c o :
  unique_keys v → Forall compiled structured → (∀ text, sound_matches P text (ToolResult (tool_name ctx))) →
  mode (tool_results (source_policy P)) = On →
  redact_value E P structured v ctx V A = (Some (Ok toks), v', V', A') →
  r ∈ structured → applies (tool_results (source_policy P)) ctx v r = true → path ∈ paths r →
  path_matches path at_ → at_ ≠ [] → (length at_ ≤ MAX_PATH_DEPTH)%nat → below r rest = true →
  node_at v (at_ ++ rest) = Some c → original_of c = Some o →
  ∃ t r', r' ∈ structured ∧ t = field_token r' o ∧ t ∈ toks ∧ held V' t
    ∧ node_at v' (at_ ++ rest) = Some (VString (as_str t)).
Proof.
  intros Hu Hc Hm Hon. unfold redact_value. cbn [setting_for]. rewrite Hon.
  destruct (run_passes _ _ _ _ _ _) as [w st] eqn:Er. destruct (stopped st) as [[]|] eqn:Es; [done..|].
  intros [= <- <- <- <-] Hr Ha Hp Hpm Hne Hlen Hb Hn Ho.
  apply run_passes_leaf in Er as (l & Ht & Hl); [|done..].
  rewrite node_at_app in Hn. apply bind_Some in Hn as (n & Hat & Hrest).
  set (h := {| hit_pointer := pointer_of at_; hit_rule := r |}).
  assert (h ∈ apply_structured structured v ctx (tool_results (source_policy P))) as Hh.
  { apply elem_of_apply_structured. split_and!; [done|done|]. rewrite List.Forall_forall in Hc.
    apply elem_of_resolve_pointers; [done|by apply compiled_paths, Hc, list_elem_of_In|]. by exists path, at_, n. }
  assert (node_at v (at_ ++ rest) = Some c) as Hn by (by rewrite node_at_app, Hat).
  assert (live false h && covers h (at_ ++ rest) = true) as Hlive.
  { apply andb_true_iff. split.
    - unfold live. rewrite andb_true_r. apply negb_true_iff. cbn [hit_pointer h].
      destruct (pointer_of at_) eqn:Ep; [|done]. destruct Hne. by eapply (pointer_of_inj v).
    - eapply (covers_spec v h at_); [done|by eexists|by eexists|]. by exists rest. }
  destruct (List.find (λ h, live false h && covers h (at_ ++ rest))
              (apply_structured structured v ctx (tool_results (source_policy P)))) as [h'|] eqn:Ef.
  2:{ pose proof (List.find_none _ _ Ef h (proj1 (list_elem_of_In _ _) Hh)) as Hf. cbv beta in Hf. congruence. }
  destruct (Hl (at_ ++ rest) c (field_token (hit_rule h') o)) as [Hv Hin]; [done|by destruct c| |].
  { unfold claimed. cbn [setting_for]. by rewrite Ho, Ef. }
  exists (field_token (hit_rule h') o), (hit_rule h'). split_and!; [|done| | |done].
  - apply List.find_some in Ef as [Hi _]. apply list_elem_of_In in Hi. by apply elem_of_apply_structured in Hi as [? _].
  - by rewrite (took_minted _ _ _ Ht).
  - pose proof (took_held _ _ _ Ht) as Hf. rewrite List.Forall_forall in Hf. by apply Hf, list_elem_of_In.
Qed.
End masking.

(** ** Concrete runs *)

Definition demo_debug : RuleDebug := {| debug_kind := λ _, b "RuleKind"; debug_strings := λ _, b "[..]" |}.

(** A reader and printer that know one document. *)
Definition demo_text : bytes := b "[true]".
Definition demo_serde : SerdeJson.
Proof.
  refine {|
    from_str s := if ustr_eqb s demo_text then Some (VArray [VBool true]) else None;
    to_string v := match v with VArray [VString t] => Some (b "[" ++ t ++ b "]") | _ => None end;
    to_string_pretty _ := None
  |}.
  intros s v. destruct (ustr_eqb s demo_text); [|done]. intros [= <-]. by apply distinct_keys_unique.
Defined.

Definition demo_field_kind : JsonPathKind := {|
  raw_paths := [b "$.rows[*].name"; b "$[0]"]; kind_match_tool := Some (b "db_*");
  kind_match_args := ∅; kind_match_result := ∅; kind_exclude_keys := []
|}.
Definition demo_field_spec : RuleSpec := {|
  spec_id := b "names"; spec_category := b "NAME"; spec_scope := Owner; spec_priority := 50; spec_stable := false;
  spec_system_prompt := false; enabled := true; kind := KindJsonPath demo_field_kind
|}.
Definition demo_field_rule : JsonPathRule := {|
  spec := demo_field_spec; paths := [[Key (b "rows"); AllIndices; Key (b "name")]; [Index 0]];
  tool_pattern := Some (b "db_*"); match_args := []; match_result := []; exclude_keys := []
|}.

Lemma demo_rule_compiled : Forall (compiled (H := demo_debug)) [demo_field_rule].
Proof. constructor; [|constructor]. exists demo_field_spec. vm_compute. reflexivity. Qed.

Definition demo_result : Value :=
  VObject [(b "rows", VArray [VObject [(b "id", VNumber (b "7")); (b "name", VString (b "ann"))]]);
           (b "note", VString demo_text)].
Definition demo_context : ToolContext := {| tool_name := b "db_select"; call_args := None |}.
Definition demo_source : Source := ToolResult (b "db_select").
Definition demo_fields_pipeline : RedactionPipeline := demo_pipeline [].
Definition fresh_state : pass_state :=
  {| stopped := None; minted := []; p_vault := ∅; p_audit := []; accesses := 0 |}.

Definition run_demo_pass :=
  structured_pass (H := demo_platform) (H0 := demo_hmac) (H1 := rfc6901) (demo_env 1000) demo_fields_pipeline
    [demo_field_rule] demo_result demo_context demo_source false fresh_state.
Definition run_demo_value :=
  redact_value (H := demo_platform) (H0 := demo_hmac) (H1 := rfc6901) (H2 := demo_serde) (demo_env 1000)
    demo_fields_pipeline [demo_field_rule] demo_result demo_context ∅ [].
Definition is_token_at (v : Value) (steps : list step) : bool :=
  match node_at v steps with Some (VString s) => match parse s with Some _ => true | None => false end | _ => false end.

Lemma demo_keys : unique_keys demo_result.
Proof. apply distinct_keys_unique. vm_compute. reflexivity. Qed.

Lemma demo_no_text_rules text source : sound_matches demo_fields_pipeline text source.
Proof. split; [by eexists|]. by intros m (all & [= <-] & Hm%elem_of_nil). Qed.

Lemma field_pass_exact_witness :
  ∃ v' st' toks, run_demo_pass = (v', st') ∧ minted st' = toks ∧ Forall genuine toks ∧ length toks = 1%nat.
Proof.
  assert (stopped run_demo_pass.2 = None) as Hs by (vm_compute; reflexivity).
  assert (length (minted run_demo_pass.2) = 1%nat) as Hl by (vm_compute; reflexivity).
  destruct run_demo_pass as [v' st'] eqn:E. cbn [snd] in Hs, Hl.
  destruct (field_pass_exact (H := demo_platform) (H0 := demo_hmac) (H1 := rfc6901) (H3 := demo_debug)
    (demo_env 1000) demo_fields_pipeline [demo_field_rule] demo_result demo_context demo_source false fresh_state v' st'
    demo_keys demo_rule_compiled eq_refl E Hs) as (toks & Hm & Hg & _).
  exists v', st', toks. split_and!; [reflexivity|exact Hm|exact Hg|]. rewrite Hm in Hl. exact Hl.
Defined.

Lemma selected_fields_masked_witness :
  ∃ toks v' V' A' t, run_demo_value = (Some (Ok toks), v', V', A')
    ∧ node_at v' [SKey (b "rows"); SIdx 0; SKey (b "name")] = Some (VString (as_str t)) ∧ t ∈ toks.
Proof.
  assert (match run_demo_value.1.1.1 with Some (Ok _) => true | _ => false end = true) as Hr by (vm_compute; reflexivity).
  destruct run_demo_value as [[[[[toks|e]|] v'] V'] A'] eqn:E; [|discriminate Hr..].
  destruct (selected_fields_masked (H := demo_platform) (H0 := demo_hmac) (H1 := rfc6901) (H2 := demo_serde)
    (H3 := demo_debug) (demo_env 1000) demo_fields_pipeline [demo_field_rule] demo_result demo_context ∅ [] toks v' V' A'
    demo_field_rule [Key (b "rows"); AllIndices; Key (b "name")] [SKey (b "rows"); SIdx 0; SKey (b "name")] []
    (VString (b "ann")) (b "ann")) as (t & r' & _ & _ & Hin & _ & Hn).
  - exact demo_keys.
  - exact demo_rule_compiled.
  - intros text. apply demo_no_text_rules.
  - reflexivity.
  - exact E.
  - by left.
  - vm_compute. reflexivity.
  - by left.
  - apply (pm_cons _ _ [SKey (b "rows")]); [constructor|]. apply (pm_cons _ _ [SIdx 0]); [constructor|].
    apply (pm_cons _ _ [SKey (b "name")] []); constructor.
  - discriminate.
  - cbn. unfold MAX_PATH_DEPTH. lia.
  - vm_compute. reflexivity.
  - vm_compute. reflexivity.
  - vm_compute. reflexivity.
  - exists toks, v', V', A', t. split_and!; [reflexivity|exact Hn|exact Hin].
Defined.

(** A rule for a whole record ([$]) never swallows the envelope around it. *)
Example root_hit_skipped :
  (structured_pass (H := demo_platform) (H0 := demo_hmac) (H1 := rfc6901) (demo_env 1000) demo_fields_pipeline
     [{| spec := demo_field_spec; paths := [[]]; tool_pattern := None; match_args := []; match_result := [];
         exclude_keys := [] |}]
     demo_result demo_context demo_source false fresh_state).1 = demo_result.
Proof. vm_compute. reflexivity. Qed.

(** The JSON inside a text leaf is masked too. *)
Example embedded_masked :
  match node_at run_demo_value.1.1.2 [SKey (b "note")] with
  | Some (VString s) => contains s TOKEN_PREFIX && negb (contains s (b "true"))
  | _ => false
  end = true.
Proof. vm_compute. reflexivity. Qed.

Fixpoint nested (n : nat) (v : Value) : Value := match n with O => v | S n' => VArray [nested n' v] end.

(** What lies 64 levels below a selected node is passed on in clear, without
    an error. *)
Lemma deep_scalar_left :
  tokenize_node (H := demo_platform) (H0 := demo_hmac) (demo_env 1000) demo_fields_pipeline demo_field_rule demo_source
    (nested 64 (VString (b "ann"))) (b "/name") 0 fresh_state = (nested 64 (VString (b "ann")), fresh_state).
Proof. vm_compute. reflexivity. Qed.
