(* ===== verification/Conditions.v ===== *)
(** * Conditions and templates of autopilot rules (the condition evaluator and
    [render_template] of crates/duduclaw-gateway/src/autopilot_engine.rs,
    [validate_autopilot_conditions] of handlers/task_json.rs)

    A condition is a JSON tree over the fields of an event.  The theorems give
    the trees that pass validation their meaning as formulas. *)

From S2P Require Import Prelude.
From S2P Require Import Bytes.
From S2P Require Import Utf8.
From S2P Require Import Chars.
From S2P Require Import Float64.
From S2P Require Import JsonValue.

(** What the crate serde_json does with its numbers, and its text of a value. *)
Class SerdeValue := {
  number_eqb : bytes → bytes → bool;
  number_f64 : bytes → option f64;
  number_i64 : bytes → option Z;
  number_u64 : bytes → option Z;
  number_of_Z : Z → bytes;
  number_of_f64 : f64 → option bytes;
  show_value : Value → bytes;
}.

(** Comparisons of literals. *)
Ltac eval_names :=
  repeat match goal with
  | |- context [ustr_eqb (b ?x) (b ?y)] =>
      let r := eval vm_compute in (ustr_eqb (b x) (b y)) in change (ustr_eqb (b x) (b y)) with r; cbv iota
  end.

Section conditions.
Context `{SerdeValue}.

(** [PartialEq] of [Value]; objects are maps. *)
Fixpoint value_eqb (v w : Value) : bool :=
  match v, w with
  | VNull, VNull => true
  | VBool x, VBool y => Bool.eqb x y
  | VNumber m, VNumber n => number_eqb m n
  | VString s, VString t => ustr_eqb s t
  | VArray l, VArray l' =>
      (fix go l l' :=
         match l, l' with
         | [], [] => true
         | x :: r, y :: r' => value_eqb x y && go r r'
         | _, _ => false
         end) l l'
  | VObject es, VObject es' =>
      (length es =? length es')%nat
      && forallb (λ e : bytes * Value, match entry es' e.1 with Some y => value_eqb e.2 y | None => false end) es
  | _, _ => false
  end.

(** ** Fields *)

(** The field map of an event. *)
Abbreviation fields := (gmap bytes Value).

Definition lookup_path_opt (fs : fields) (path : bytes) : option Value :=
  if is_empty path then None
  else
    match split_at_byte 46 path with
    | [] => None
    | head :: parts => foldl (λ current part, v ← current; get v part) (fs !! head) parts
    end.
Definition lookup_path (fs : fields) (path : bytes) : Value := default VNull (lookup_path_opt fs path).

(** ** Operators *)

Definition CONDITION_OPS : list bytes :=
  map b ["eq"; "neq"; "in"; "not_in"; "gt"; "gte"; "lt"; "lte"; "contains"]%string.

Definition to_f64 (v : Value) : option f64 :=
  match v with
  | VNumber n => match number_f64 n with Some x => Some x | None => f64_of_Z <$> number_i64 n end
  | _ => None
  end.
Definition number_pair (x y : Value) : option (f64 * f64) :=
  a ← to_f64 x; e ← to_f64 y; Some (a, e).
Definition compared (test : f64 → f64 → bool) (x y : Value) : bool :=
  match number_pair x y with Some (a, e) => test a e | None => false end.

Definition apply_op (op : bytes) (actual : option Value) (expected : Value) : bool :=
  match actual with
  | None => false
  | Some actual =>
      if ustr_eqb op (b "eq") then value_eqb actual expected
      else if ustr_eqb op (b "neq") then negb (value_eqb actual expected)
      else if ustr_eqb op (b "in") then
        match expected with VArray arr => existsb (λ v, value_eqb v actual) arr | _ => false end
      else if ustr_eqb op (b "not_in") then
        match expected with VArray arr => negb (existsb (λ v, value_eqb v actual) arr) | _ => true end
      else if ustr_eqb op (b "gt") then compared f64_gtb actual expected
      else if ustr_eqb op (b "gte") then compared f64_geb actual expected
      else if ustr_eqb op (b "lt") then compared f64_ltb actual expected
      else if ustr_eqb op (b "lte") then compared f64_leb actual expected
      else if ustr_eqb op (b "contains") then
        match actual, expected with
        | VString a, VString e => contains a e
        | VArray a, _ => existsb (λ v, value_eqb v expected) a
        | _, _ => false
        end
      else false
  end.

(** ** Evaluation *)

(** The array under a key, with [f] at every item. *)
Definition group {A} (f : Value → A) (k : bytes) : list (bytes * Value) → option (list A) :=
  fix go es :=
    match es with
    | [] => None
    | e :: r =>
        if ustr_eqb e.1 k then match e.2 with VArray items => Some (map f items) | _ => None end
        else go r
    end.

Definition leaf_holds (fs : fields) (c : Value) : bool :=
  apply_op (default (b "eq") (str_field c (b "op"))) (lookup_path_opt fs (str_or_empty c (b "field")))
    (default VNull (get c (b "value"))).

Fixpoint evaluate (fs : fields) (c : Value) : bool :=
  match c with
  | VNull => true
  | VObject es =>
      if is_empty es then true
      else
        match group (evaluate fs) (b "all") es with
        | Some bs => forallb id bs
        | None =>
            match group (evaluate fs) (b "any") es with
            | Some bs => existsb id bs
            | None => leaf_holds fs c
            end
        end
  | _ => leaf_holds fs c
  end.

(** ** Validation at write time *)

Definition MAX_CONDITION_DEPTH : nat := 16.

Definition item_path (path grp : bytes) (i : nat) : bytes :=
  path ++ b "." ++ grp ++ b "[" ++ show_nat i ++ b "]".

(** A group: [None] when the key is absent. *)
Definition check_group (f : Value → bytes → result unit bytes) (path k : bytes)
    : list (bytes * Value) → option (result unit bytes) :=
  fix go es :=
    match es with
    | [] => None
    | e :: r =>
        if ustr_eqb e.1 k then
          Some (match e.2 with
                | VArray items =>
                    (fix items_from i l :=
                       match l with
                       | [] => Ok tt
                       | x :: l' => match f x (item_path path k i) with Err m => Err m | Ok _ => items_from (S i) l' end
                       end) O items
                | _ => Err (path ++ b "." ++ k ++ b " must be an array of conditions")
                end)
        else go r
    end.

Definition needs_field : bytes :=
  b ": a condition needs a non-empty " ++ dquote ++ b "field" ++ dquote ++ b " (or use an " ++ dquote ++ b "all" ++ dquote
  ++ b "/" ++ dquote ++ b "any" ++ dquote ++ b " group)".

Definition check_leaf (es : list (bytes * Value)) (path : bytes) : result unit bytes :=
  let ops := join_with (b ", ") CONDITION_OPS in
  match entry es (b "field") with
  | Some (VString f) =>
      if is_empty (trim (utf8_decode f)) then
        Err (path ++ needs_field)
      else
        match entry es (b "op") with
        | None => Ok tt
        | Some (VString op) =>
            if existsb (ustr_eqb op) CONDITION_OPS then Ok tt
            else Err (path ++ b ": unknown op " ++ show_value (VString op) ++ b "; must be one of: " ++ ops)
        | Some other => Err (path ++ b ": unknown op " ++ show_value other ++ b "; must be one of: " ++ ops)
        end
  | _ => Err (path ++ needs_field)
  end.

Fixpoint validate_condition_node (node : Value) (path : bytes) (depth : nat) : result unit bytes :=
  if (MAX_CONDITION_DEPTH <? depth)%nat then Err (path ++ b ": conditions nested deeper than 16 levels")
  else
    match node with
    | VNull => Ok tt
    | VObject es =>
        if is_empty es then Ok tt
        else
          match check_group (λ c p, validate_condition_node c p (S depth)) path (b "all") es with
          | Some res => res
          | None =>
              match check_group (λ c p, validate_condition_node c p (S depth)) path (b "any") es with
              | Some res => res
              | None => check_leaf es path
              end
          end
    | _ => Err (path ++ b " must be an object (a condition or an all/any group)")
    end.

Definition validate_autopilot_conditions (conditions : Value) : result unit bytes :=
  validate_condition_node conditions (b "conditions") 0.

(** ** Templates *)

Fixpoint render_loop (fuel : nat) (fs : fields) (out rest : bytes) : bytes :=
  match fuel with
  | O => out
  | S fuel' =>
      match find rest (b "{") with
      | None => out ++ rest
      | Some open =>
          let out := out ++ take open rest in
          let after_open := drop (open + 1) rest in
          match find after_open (b "}") with
          | Some close =>
              let s :=
                match lookup_path fs (take close after_open) with
                | VString s => s
                | VNull => []
                | other => show_value other
                end in
              render_loop fuel' fs (out ++ s) (drop (close + 1) after_open)
          | None => out ++ drop open rest
          end
      end
  end.
Definition render_template (template : bytes) (fs : fields) : bytes := render_loop (S (length template)) fs [] template.

(** ** Formulas *)

Inductive Op := OpEq | OpNeq | OpIn | OpNotIn | OpGt | OpGte | OpLt | OpLte | OpContains.
Definition op_name (o : Op) : bytes :=
  b match o with
    | OpEq => "eq" | OpNeq => "neq" | OpIn => "in" | OpNotIn => "not_in" | OpGt => "gt" | OpGte => "gte"
    | OpLt => "lt" | OpLte => "lte" | OpContains => "contains"
    end.

Inductive Formula :=
| All (l : list Formula)
| Any (l : list Formula)
| Leaf (path : bytes) (op : Op) (expected : Value).

Definition ordered (test : f64 → f64 → bool) (x y : Value) : Prop :=
  ∃ a e, to_f64 x = Some a ∧ to_f64 y = Some e ∧ test a e = true.

Definition compare (o : Op) (actual expected : Value) : Prop :=
  match o with
  | OpEq => value_eqb actual expected = true
  | OpNeq => value_eqb actual expected = false
  | OpIn => ∃ arr v, expected = VArray arr ∧ v ∈ arr ∧ value_eqb v actual = true
  | OpNotIn => ∀ arr v, expected = VArray arr → v ∈ arr → value_eqb v actual = false
  | OpGt => ordered f64_gtb actual expected
  | OpGte => ordered f64_geb actual expected
  | OpLt => ordered f64_ltb actual expected
  | OpLte => ordered f64_leb actual expected
  | OpContains =>
      (∃ a e, actual = VString a ∧ expected = VString e ∧ contains a e = true)
      ∨ ∃ l v, actual = VArray l ∧ v ∈ l ∧ value_eqb v expected = true
  end.

Fixpoint sem (fs : fields) (F : Formula) : Prop :=
  match F with
  | All l => foldr (λ f P, sem fs f ∧ P) True l
  | Any l => foldr (λ f P, sem fs f ∨ P) False l
  | Leaf path o expected => ∃ actual, lookup_path_opt fs path = Some actual ∧ compare o actual expected
  end.

(** The formula a condition stands for. *)
Inductive denotes : Value → Formula → Prop :=
| denotes_null : denotes VNull (All [])
| denotes_empty : denotes (VObject []) (All [])
| denotes_all es items Fs :
    entry es (b "all") = Some (VArray items) → Forall2 denotes items Fs → denotes (VObject es) (All Fs)
| denotes_any es items Fs :
    entry es (b "all") = None → entry es (b "any") = Some (VArray items) → Forall2 denotes items Fs →
    denotes (VObject es) (Any Fs)
| denotes_leaf es path o :
    entry es (b "all") = None → entry es (b "any") = None → entry es (b "field") = Some (VString path) →
    (entry es (b "op") = Some (VString (op_name o)) ∨ (entry es (b "op") = None ∧ o = OpEq)) →
    denotes (VObject es) (Leaf path o (default VNull (entry es (b "value")))).

(** Induction over the groups of a condition. *)
Lemma condition_ind (P : Value → Prop) :
  (∀ v, (∀ es k items x, v = VObject es → entry es k = Some (VArray items) → x ∈ items → P x) → P v) → ∀ v, P v.
Proof.
  intros Hstep. assert (∀ v, P v ∧ match v with VArray items => Forall P items | _ => True end) as Hall; [|by apply Hall].
  apply value_ind; try (intros; split; [by apply Hstep|done]).
  - intros items Hi. split; [by apply Hstep|]. eapply List.Forall_impl; [|exact Hi]. by intros x [? _].
  - intros entries He. split; [|done]. apply Hstep. intros es k items x [= <-] Hk Hx.
    assert (∃ e, e ∈ entries ∧ e.2 = VArray items) as (e & Hin & Hv).
    { clear -Hk. induction entries as [|[k' v'] r IH]; [done|]. cbn in Hk. destruct (ustr_eqb k' k).
      - injection Hk as ->. exists (k', VArray items). split; [by left|done].
      - destruct (IH Hk) as (e & ? & ?). exists e. split; [by right|done]. }
    rewrite List.Forall_forall in He. apply list_elem_of_In, He in Hin as [_ Hf]. rewrite Hv in Hf.
    rewrite List.Forall_forall in Hf. by apply Hf, list_elem_of_In.
Qed.

Lemma group_entry {A} (f : Value → A) k es :
  group f k es = match entry es k with Some (VArray items) => Some (map f items) | _ => None end.
Proof. induction es as [|[k' v'] r IH]; [done|]. cbn. by destruct (ustr_eqb k' k). Qed.

Lemma check_group_none f path k es : check_group f path k es = None ↔ entry es k = None.
Proof. induction es as [|[k' v'] r IH]; [done|]. cbn. by destruct (ustr_eqb k' k). Qed.

Lemma check_group_ok f path k es :
  check_group f path k es = Some (Ok tt) →
  ∃ items, entry es k = Some (VArray items) ∧ ∀ x, x ∈ items → ∃ p, f x p = Ok tt.
Proof.
  induction es as [|[k' v'] r IH]; [done|]. cbn. destruct (ustr_eqb k' k); [|done].
  destruct v' as [| | | |items|]; try done. intros [= Hl]. exists items. split; [done|].
  generalize O, Hl. clear. induction items as [|y items IH]; intros i Hl x Hx; [by apply elem_of_nil in Hx|].
  destruct (f y _) as [[]|] eqn:Ef; [|done]. apply elem_of_cons in Hx as [->|Hx]; [by eexists|by eapply IH].
Qed.

Lemma op_known op : existsb (ustr_eqb op) CONDITION_OPS = true → ∃ o, op = op_name o.
Proof.
  intros (x & Hx & ->%bool_decide_eq_true)%existsb_exists. apply in_map_iff in Hx as (s & <- & Hs).
  cbn in Hs. destruct Hs as [<-|[<-|[<-|[<-|[<-|[<-|[<-|[<-|[<-|[]]]]]]]]]];
    [by exists OpEq|by exists OpNeq|by exists OpIn|by exists OpNotIn|by exists OpGt|by exists OpGte|by exists OpLt
    |by exists OpLte|by exists OpContains].
Qed.

Lemma check_leaf_ok es path :
  check_leaf es path = Ok tt →
  ∃ field o, entry es (b "field") = Some (VString field)
    ∧ (entry es (b "op") = Some (VString (op_name o)) ∨ (entry es (b "op") = None ∧ o = OpEq)).
Proof.
  unfold check_leaf. destruct (entry es (b "field")) as [[| | |f| |]|]; try done. destruct (is_empty _); [done|].
  destruct (entry es (b "op")) as [[| | |op| |]|]; try done.
  - destruct (existsb (ustr_eqb op) CONDITION_OPS) eqn:E; [|done]. intros _.
    apply op_known in E as [o ->]. exists f, o. split; [done|by left].
  - intros _. exists f, OpEq. split; [done|by right].
Qed.

Lemma Forall2_exists {A B} (R : A → B → Prop) l : (∀ x, x ∈ l → ∃ y, R x y) → ∃ l', Forall2 R l l'.
Proof.
  induction l as [|x l IH]; intros Hl; [by exists []|]. destruct (Hl x) as [y Hy]; [by left|].
  destruct IH as [l' Hl']; [intros; apply Hl; by right|]. exists (y :: l'). by constructor.
Qed.

Lemma validated_denotes c : ∀ path depth, validate_condition_node c path depth = Ok tt → ∃ F, denotes c F.
Proof.
  induction c as [c IH] using condition_ind. intros path depth. destruct c as [| | | | |es]; cbn [validate_condition_node];
    (destruct (_ <? depth)%nat; [done|]); try done; [by intros _; eexists; constructor|].
  destruct es as [|e es]; [by intros _; eexists; constructor|]. cbn [is_empty]. set (es0 := e :: es) in *.
  assert (∀ k items, entry es0 k = Some (VArray items) →
    (∀ x, x ∈ items → ∃ p, validate_condition_node x p (S depth) = Ok tt) → ∃ Fs, Forall2 denotes items Fs) as Hg.
  { intros k items Hk Hx. apply Forall2_exists. intros x Hin. destruct (Hx x Hin) as [p Hp]. by eapply (IH es0 k items x). }
  clearbody es0.
  destruct (check_group _ path (b "all") es0) as [res|] eqn:Ea.
  { intros ->. apply check_group_ok in Ea as (items & Hk & Hx). destruct (Hg _ _ Hk Hx) as [Fs HF].
    exists (All Fs). by eapply denotes_all. }
  apply check_group_none in Ea. destruct (check_group _ path (b "any") es0) as [res|] eqn:Ey.
  { intros ->. apply check_group_ok in Ey as (items & Hk & Hx). destruct (Hg _ _ Hk Hx) as [Fs HF].
    exists (Any Fs). by eapply denotes_any. }
  apply check_group_none in Ey. intros (field & o & Hf & Ho)%check_leaf_ok.
  exists (Leaf field o (default VNull (entry es0 (b "value")))). by apply denotes_leaf.
Qed.

Lemma compared_ordered test x y : compared test x y = true ↔ ordered test x y.
Proof.
  unfold compared, number_pair, ordered. destruct (to_f64 x) as [a|]; cbn; [|naive_solver].
  destruct (to_f64 y) as [e|]; cbn; naive_solver.
Qed.

Lemma existsb_elem {A} (f : A → bool) l : existsb f l = true ↔ ∃ x, x ∈ l ∧ f x = true.
Proof. rewrite existsb_exists. by setoid_rewrite <- list_elem_of_In. Qed.

Lemma apply_op_compare o actual expected :
  apply_op (op_name o) actual expected = true ↔ ∃ v, actual = Some v ∧ compare o v expected.
Proof.
  destruct actual as [v|]; [|split; [done|by intros (? & ? & _)]].
  transitivity (compare o v expected); [|split; [intros; by exists v|by intros (? & [= ->] & ?)]].
  destruct o; cbn [compare]; unfold apply_op, op_name; cbv beta iota; eval_names.
  - done.
  - by rewrite negb_true_iff.
  - destruct expected as [| | | |arr|]; try (split; [done|by intros (? & ? & ? & _)]). rewrite existsb_elem.
    split; [intros (w & ? & ?); by exists arr, w|]. intros (? & w & [= <-] & ? & ?). by exists w.
  - destruct expected as [| | | |arr|]; try (split; [by intros _ ? ? ?|done]).
    rewrite negb_true_iff, <- not_true_iff_false, existsb_elem. split.
    + intros Hn arr' w [= <-] Hw. apply not_true_iff_false. intros He. apply Hn. by exists w.
    + intros Hall (w & Hw & He). rewrite (Hall arr w) in He; done.
  - apply compared_ordered.
  - apply compared_ordered.
  - apply compared_ordered.
  - apply compared_ordered.
  - destruct v as [| | |a|l|]; try (split; [done|intros [(? & ? & ? & _)|(? & ? & ? & _)]; done]).
    + destruct expected as [| | |e| |]; try (split; [done|intros [(? & ? & _ & ? & _)|(? & ? & ? & _)]; done]).
      split; [intros Hc; left; by exists a, e|]. intros [(? & ? & [= <-] & [= <-] & ?)|(? & ? & ? & _)]; done.
    + rewrite existsb_elem. split.
      * intros (w & ? & ?). right. by exists l, w.
      * intros [(? & ? & ? & _)|(? & w & [= <-] & ? & ?)]; [done|]. by exists w.
Qed.

Lemma forallb_sem fs items Fs :
  Forall2 denotes items Fs → (∀ x, x ∈ items → ∀ F, denotes x F → evaluate fs x = true ↔ sem fs F) →
  (forallb id (map (evaluate fs) items) = true ↔ sem fs (All Fs))
  ∧ (existsb id (map (evaluate fs) items) = true ↔ sem fs (Any Fs)).
Proof.
  induction 1 as [|x F items Fs Hx Hxs IH]; intros Heq; [done|]. destruct IH as [H1 H2]; [intros; apply Heq; [by right|done]|].
  cbn [map forallb existsb sem foldr]. unfold id at 1 3. rewrite andb_true_iff, orb_true_iff.
  cbn [sem] in H1, H2. rewrite H1, H2, (Heq x ltac:(by left) F Hx). done.
Qed.

Lemma denotes_sem fs c : ∀ F, denotes c F → evaluate fs c = true ↔ sem fs F.
Proof.
  induction c as [c IH] using condition_ind. intros F HF. inversion HF as [| |es items Fs Ha Hf|es items Fs Hn Ha Hf|es path o Ha Hy Hp Ho]; subst; [done|done|..].
  all: destruct es as [|e es]; [done|]; set (es0 := e :: es) in *; change (evaluate fs (VObject es0)) with
    (match group (evaluate fs) (b "all") es0 with
     | Some bs => forallb id bs
     | None => match group (evaluate fs) (b "any") es0 with
               | Some bs => existsb id bs
               | None => leaf_holds fs (VObject es0) end end); clearbody es0; rewrite !group_entry.
  - rewrite Ha. apply (forallb_sem fs items Fs Hf). intros x Hx. by eapply (IH es0).
  - rewrite Hn, Ha. apply (forallb_sem fs items Fs Hf). intros x Hx. by eapply (IH es0).
  - rewrite Ha, Hy. unfold leaf_holds, str_or_empty, str_field. cbn [get]. rewrite Hp. cbn [mbind option_bind value_as_str default].
    assert (default (b "eq") (entry es0 (b "op") ≫= value_as_str) = op_name o) as ->.
    { destruct Ho as [-> |[-> ->]]; done. }
    rewrite apply_op_compare. done.
Qed.

(** C35 Conditions that pass validation mean what they say: such a tree stands
    for a formula of [all], [any] and leaves with a field and a known
    operator, and it is evaluated, on the fields of any event, to the truth of
    that formula, in which a leaf holds only of a field that is present. *)
Theorem conditions_mean_formulas c :
  validate_autopilot_conditions c = Ok tt →
  ∃ F, denotes c F ∧ ∀ fs, evaluate fs c = true ↔ sem fs F.
Proof.
  intros [F HF]%validated_denotes. exists F. split; [done|]. intros fs. by apply denotes_sem.
Qed.

(** ** Absent fields *)

(** The fields a formula asks for, and the formulas that ask for one. *)
Fixpoint paths (F : Formula) : list bytes :=
  match F with
  | All l | Any l => flat_map paths l
  | Leaf path _ _ => [path]
  end.
Fixpoint grounded (F : Formula) : bool :=
  match F with
  | All l => existsb grounded l
  | Any l => forallb grounded l
  | Leaf _ _ _ => true
  end.

Section formula_ind.
Context (P : Formula → Prop).
Context (Hall : ∀ l, Forall P l → P (All l)) (Hany : ∀ l, Forall P l → P (Any l)) (Hleaf : ∀ p o e, P (Leaf p o e)).

Fixpoint formula_ind F : P F :=
  let each :=
    fix go l : Forall P l :=
      match l with
      | [] => List.Forall_nil _
      | x :: r => List.Forall_cons _ x r (formula_ind x) (go r)
      end in
  match F with
  | All l => Hall l (each l)
  | Any l => Hany l (each l)
  | Leaf p o e => Hleaf p o e
  end.
End formula_ind.

Lemma sem_all fs l : sem fs (All l) ↔ ∀ F, F ∈ l → sem fs F.
Proof.
  induction l as [|G l IH]; [split; [by intros _ F ?%elem_of_nil|done]|]. cbn [sem foldr] in *. rewrite IH.
  setoid_rewrite elem_of_cons. naive_solver.
Qed.

Lemma sem_any fs l : sem fs (Any l) ↔ ∃ F, F ∈ l ∧ sem fs F.
Proof.
  induction l as [|G l IH]; [split; [done|by intros (F & ?%elem_of_nil & _)]|]. cbn [sem foldr] in *. rewrite IH.
  setoid_rewrite elem_of_cons. naive_solver.
Qed.

Lemma absent_fields_false fs F :
  grounded F = true → (∀ p, p ∈ paths F → lookup_path_opt fs p = None) → ¬ sem fs F.
Proof.
  induction F as [l IH|l IH|p o e] using formula_ind; intros Hg Hp.
  - cbn in Hg. apply existsb_elem in Hg as (F & HF & Hg). rewrite sem_all. intros Hall.
    rewrite List.Forall_forall in IH. apply (IH F); [by apply list_elem_of_In|done| |by apply Hall]. intros p Hin. apply Hp. cbn. apply list_elem_of_In, in_flat_map.
    exists F. split; by apply list_elem_of_In.
  - cbn in Hg. rewrite forallb_forall in Hg. rewrite sem_any. intros (F & HF & Hs).
    rewrite List.Forall_forall in IH. apply (IH F); [by apply list_elem_of_In|by apply Hg, list_elem_of_In| |done]. intros p Hin. apply Hp. cbn.
    apply list_elem_of_In, in_flat_map. exists F. split; by apply list_elem_of_In.
  - intros (v & Hv & _). rewrite (Hp p) in Hv; [done|]. by left.
Qed.

(** A rule never fires on an event that lacks its fields: conditions that
    pass validation and are not vacuous (their [all] groups ask for a field,
    every branch of their [any] groups does) are false on every event in which
    all fields they ask for are absent, whatever their operators, [neq],
    [not_in] and [eq null] included. *)
Theorem absent_fields_never_fire c F fs :
  validate_autopilot_conditions c = Ok tt → denotes c F → grounded F = true →
  (∀ p, p ∈ paths F → lookup_path_opt fs p = None) → evaluate fs c = false.
Proof.
  intros _ HF Hg Hp. apply not_true_iff_false. rewrite (denotes_sem fs c F HF). by apply absent_fields_false.
Qed.

(** ** Templates *)

Lemma find_byte_none (l : bytes) (c : N) : c ∉ l → find l [c] = None.
Proof.
  induction l as [|x l IH]; intros Hc; cbn; [done|].
  apply not_elem_of_cons in Hc as [Hx Hc]. destruct (N.eqb_spec c x) as [->|_]; [done|]. cbn. by rewrite IH.
Qed.

(** A template is text with holes. *)
Inductive Piece := Text (s : bytes) | Hole (key : bytes).
Definition piece_ok (p : Piece) : Prop :=
  match p with Text s => 123%N ∉ s | Hole key => 125%N ∉ key end.
Definition print_piece (p : Piece) : bytes :=
  match p with Text s => s | Hole key => b "{" ++ key ++ b "}" end.
Definition field_text (fs : fields) (key : bytes) : bytes :=
  match lookup_path fs key with VString s => s | VNull => [] | other => show_value other end.
Definition render_piece (fs : fields) (p : Piece) : bytes :=
  match p with Text s => s | Hole key => field_text fs key end.

(** What can follow the pieces: nothing, or a brace that is not closed. *)
Definition open_end (t : bytes) : Prop := t = [] ∨ ∃ r, t = b "{" ++ r ∧ 125%N ∉ r.

Lemma render_pieces fs ps : ∀ fuel out lit t,
  Forall piece_ok ps → 123%N ∉ lit → open_end t →
  (length (concat (map print_piece ps)) < fuel)%nat →
  render_loop fuel fs out (lit ++ concat (map print_piece ps) ++ t)
  = out ++ lit ++ concat (map (render_piece fs) ps) ++ t.
Proof.
  induction ps as [|p ps IH]; intros fuel out lit t Hok Hlit Ht Hf; (destruct fuel as [|fuel]; [lia|]).
  - cbn [map concat app]. change (b "{") with [123%N] in *. cbn [render_loop]. change (b "{") with [123%N].
    destruct Ht as [->|(r & -> & Hr)].
    + rewrite app_nil_r, find_byte_none by done. done.
    + change (b "{" ++ r) with (123%N :: r). rewrite find_char by done. cbv zeta.
      change (b "}") with [125%N].
      replace (drop (length lit + 1) (lit ++ 123%N :: r)) with r
        by (by rewrite drop_app_add).
      rewrite find_byte_none by done. rewrite take_app_length, drop_app_length. by rewrite <- app_assoc.
  - inversion Hok as [|? ? Hp Hok']; subst. destruct p as [s|key]; cbn [map concat print_piece render_piece piece_ok] in *.
    + rewrite <- !app_assoc, (app_assoc lit s). rewrite length_app in Hf. rewrite IH; [|done| |done|lia].
      * by rewrite <- !app_assoc.
      * rewrite elem_of_app. tauto.
    + rewrite !length_app in Hf. cbn [length] in Hf.
      cbn [render_loop]. change (b "{") with [123%N]. change (b "}") with [125%N] in *.
      rewrite <- !app_assoc. change ([123%N] ++ ?x) with (123%N :: x). rewrite find_char by done. cbv zeta.
      match goal with |- context [drop (length lit + 1) (lit ++ 123%N :: ?x)] =>
        replace (drop (length lit + 1) (lit ++ 123%N :: x)) with x by (by rewrite drop_app_add) end.
      cbn [app]. rewrite find_char by done. rewrite take_app_length, take_app_length.
      match goal with |- context [drop (length key + 1) (key ++ 125%N :: ?x)] =>
        replace (drop (length key + 1) (key ++ 125%N :: x)) with x by (by rewrite drop_app_add) end.
      fold (field_text fs key). pose proof (IH fuel ((out ++ lit) ++ field_text fs key) [] t Hok') as Hr.
      cbn [app] in Hr. rewrite Hr; [by rewrite <- !app_assoc|by intros ?%elem_of_nil|done|cbn in Hf; lia].
Qed.

(** Rendering a template fills its holes and nothing else: of any text with
    holes [{key}], and possibly a brace at its end that is never closed, the
    text is kept, every hole becomes its field's text (a string as it is, an
    absent or null field empty, another value as JSON), and what a field holds
    is not looked at for holes again. *)
Theorem templates_render_once fs ps t :
  Forall piece_ok ps → open_end t →
  render_template (concat (map print_piece ps) ++ t) fs = concat (map (render_piece fs) ps) ++ t.
Proof.
  intros Hok Ht. unfold render_template.
  pose proof (render_pieces fs ps (S (length (concat (map print_piece ps) ++ t))) [] [] t Hok ltac:(by intros ?%elem_of_nil) Ht) as Hr.
  cbn [app] in Hr. apply Hr. rewrite length_app. lia.
Qed.
End conditions.

(** ** Concrete runs *)

(** Integers in decimal. *)
Definition demo_number (n : bytes) : Z :=
  match n with
  | 45%N :: r => - foldl (λ acc c, acc * 10 + (Z.of_N c - 48)) 0 r
  | _ => foldl (λ acc c, acc * 10 + (Z.of_N c - 48)) 0 n
  end.
Definition demo_values : SerdeValue := {|
  number_eqb := ustr_eqb;
  number_f64 n := Some (f64_of_Z (demo_number n));
  number_i64 n := Some (demo_number n);
  number_u64 n := if 0 <=? demo_number n then Some (demo_number n) else None;
  number_of_Z := show_Z;
  number_of_f64 _ := None;
  show_value v := match v with VNumber n => n | VString s => dquote ++ s ++ dquote | VBool x => show_bool x | _ => b "null" end
|}.

Definition obj (l : list (string * Value)) : Value := VObject (map (λ p : string * Value, (b p.1, p.2)) l).
Definition str (s : string) : Value := VString (b s).
Definition leaf (field op : string) (v : Value) : Value := obj [("field"%string, str field); ("op"%string, str op); ("value"%string, v)].
Definition demo_fields : gmap bytes Value :=
  list_to_map [(b "task", obj [("priority"%string, str "high"); ("points"%string, VNumber (b "7"))])].

(** A group of two conditions, on a field two levels down. *)
Definition demo_condition : Value :=
  obj [("all"%string, VArray [leaf "task.priority" "in" (VArray [str "high"; str "urgent"]);
                              leaf "task.points" "gt" (VNumber (b "5"))])].

Example demo_evaluated :
  evaluate (H := demo_values) demo_fields demo_condition = true
  ∧ evaluate (H := demo_values) ∅ demo_condition = false
  ∧ evaluate (H := demo_values) demo_fields (leaf "task.owner" "neq" (str "bob")) = false
  ∧ evaluate (H := demo_values) demo_fields (VObject []) = true.
Proof. by repeat split; vm_compute. Qed.

Example demo_refused :
  match validate_autopilot_conditions (H := demo_values) (obj [("all"%string, VArray [VNull; leaf "task" "like" VNull])]) with
  | Err e => starts_with e (b "conditions.all[1]: unknown op")
  | Ok _ => false
  end = true.
Proof. vm_compute. reflexivity. Qed.

Lemma conditions_mean_formulas_witness :
  ∃ F, denotes demo_condition F ∧ sem (H := demo_values) demo_fields F.
Proof.
  destruct (conditions_mean_formulas (H := demo_values) demo_condition) as (F & HF & Hs); [vm_compute; reflexivity|].
  exists F. split; [exact HF|]. apply Hs. vm_compute. reflexivity.
Defined.

Lemma absent_fields_never_fire_witness :
  evaluate (H := demo_values) demo_fields (leaf "task.owner" "neq" (str "bob")) = false.
Proof.
  apply (absent_fields_never_fire (H := demo_values) _ (Leaf (b "task.owner") OpNeq (str "bob"))).
  - vm_compute. reflexivity.
  - pose (es := [(b "field", str "task.owner"); (b "op", str "neq"); (b "value", str "bob")]).
    change (denotes (VObject es) (Leaf (b "task.owner") OpNeq (default VNull (entry es (b "value"))))).
    apply denotes_leaf; try (vm_compute; reflexivity). left. vm_compute. reflexivity.
  - reflexivity.
  - intros p Hp. apply list_elem_of_singleton in Hp as ->. vm_compute. reflexivity.
Defined.

Lemma templates_render_once_witness :
  render_template (H := demo_values) (b "p: {task.priority} {task.owner}!{") demo_fields = b "p: high !{".
Proof.
  pose proof (templates_render_once (H := demo_values) demo_fields
    [Text (b "p: "); Hole (b "task.priority"); Text (b " "); Hole (b "task.owner"); Text (b "!")] (b "{")) as Hr.
  exact (Hr ltac:(repeat (apply List.Forall_cons; [apply (bool_decide_unpack _); vm_compute; exact I|]); apply List.Forall_nil)
    ltac:(right; exists []; split; [reflexivity|apply (bool_decide_unpack _); vm_compute; exact I])).
Defined.
