(* ===== verification/AutopilotEvents.v ===== *)
(** * Events of the autopilot (the event types of
    crates/duduclaw-gateway/src/autopilot_engine.rs)

    An event flattens into the field map that conditions and templates read;
    rows other processes wrote into events.db become events.  The theorems say
    that what an event carries cannot take the place of its identity. *)

From S2P Require Import Prelude.
From S2P Require Import Bytes.
From S2P Require Import Utf8.
From S2P Require Import Float64.
From S2P Require Import JsonValue.
From S2P Require Import Conditions.

Inductive AutopilotEvent :=
| TaskCreated (task : Value)
| TaskUpdated (task : Value)
| TaskStatusChanged (task_id from to : bytes) (task : Value)
| ActivityNew (activity : Value)
| ChannelMessage (channel agent_id text : bytes)
| AgentIdle (agent_id : bytes) (idle_minutes : Z)
| CronTick (now : bytes)
| RunAtRisk (agent_id session_id : bytes) (score : f64) (level : bytes) (reasons : list bytes)
| OsFileEvent (agent_id path change : bytes)
| OsFrontmostEvent (agent_id app window_title prev_app : bytes)
| Tick (source ts : bytes) (fields : Value)
| CepTrigger (rule_id then_event : bytes) (fields : Value)
| SecurityEvent (severity event_type agent_id source : bytes)
| OdooEvent (event_type model : bytes) (record_id : Z) (record : Value)
| McpEvent (subscription_id agent_id server name event_id lane timestamp : bytes) (data : Value) (suspicious : bool).

Definition event_name (e : AutopilotEvent) : bytes :=
  b match e with
    | TaskCreated _ => "task_created"
    | TaskUpdated _ => "task_updated"
    | TaskStatusChanged _ _ _ _ => "task_status_changed"
    | ActivityNew _ => "activity_new"
    | ChannelMessage _ _ _ => "channel_message"
    | AgentIdle _ _ => "agent_idle"
    | CronTick _ => "cron_tick"
    | RunAtRisk _ _ _ _ _ => "run_at_risk"
    | OsFileEvent _ _ _ => "os_file"
    | OsFrontmostEvent _ _ _ _ => "os_frontmost"
    | Tick _ _ _ => "tick"
    | CepTrigger _ _ _ => "cep_trigger"
    | SecurityEvent _ _ _ _ => "security_event"
    | OdooEvent _ _ _ _ => "odoo_event"
    | McpEvent _ _ _ _ _ _ _ _ _ => "mcp_event"
    end.

(** A rule, as its row holds it: the JSON columns are texts. *)
Record AutopilotRuleRow := {
  rule_id : bytes;
  rule_name : bytes;
  rule_enabled : bool;
  trigger_event : bytes;
  conditions : bytes;
  action : bytes;
  created_at : bytes;
  last_triggered_at : option bytes;
  trigger_count : Z;
  sequence : option bytes;
  metadata : option bytes;
}.

(** [file_name] and [extension] of [std::path::Path], as text. *)
Class PathText := { path_file_name : bytes → option bytes; path_extension : bytes → option bytes }.

(** [tick_config::RESERVED_FIELD_NAMES]. *)
Definition RESERVED_FIELD_NAMES : list bytes := map b ["event"; "source"; "ts"; "kind"]%string.
Definition ODOO_RESERVED_FIELD_NAMES : list bytes :=
  map b ["event"; "event_type"; "model"; "record_id"; "record"]%string.

Definition is_container (v : Value) : bool := match v with VArray _ | VObject _ => true | _ => false end.

(** The entries of an object that [keep] lets through, inserted in turn. *)
Definition flatten (keep : bytes * Value → bool) (v : Value) (m : gmap bytes Value) : gmap bytes Value :=
  match v with
  | VObject entries => foldl (λ m e, if keep e then <[e.1 := e.2]> m else m) m entries
  | _ => m
  end.

Definition put (k : string) (v : Value) (m : gmap bytes Value) : gmap bytes Value := <[b k := v]> m.
Definition put_str (k : string) (s : bytes) : gmap bytes Value → gmap bytes Value := put k (VString s).
Definition put_opt (k : string) (s : option bytes) (m : gmap bytes Value) : gmap bytes Value :=
  match s with Some s => put_str k s m | None => m end.


Lemma flatten_kept keep v m k :
  (∀ e : bytes * Value, e.1 = k → keep e = false) → flatten keep v m !! k = m !! k.
Proof.
  intros Hk. unfold flatten. destruct v as [| | | | |entries]; try done. revert m.
  induction entries as [|e entries IH]; intros m; [done|]. cbn [foldl]. rewrite IH.
  destruct (keep e) eqn:Ek; [|done]. apply lookup_insert_ne. intros <-. by rewrite Hk in Ek.
Qed.

Lemma put_eq k v m : put k v m !! b k = Some v.
Proof. apply lookup_insert_eq. Qed.
Lemma put_ne k k' v m : b k ≠ b k' → put k v m !! b k' = m !! b k'.
Proof. intros. by apply lookup_insert_ne. Qed.

(** [put]s read off: literal keys are compared by evaluation. *)
Ltac read_fields :=
  repeat first
    [ rewrite put_eq
    | rewrite put_ne by (apply (bool_decide_unpack _); vm_compute; exact I)
    | match goal with |- context [put_opt ?k ?o ?m] => destruct o; cbn [put_opt]; unfold put_str end
    | rewrite flatten_kept by (intros [? ?]; cbn; intros ->; vm_compute; reflexivity) ].

Section events.
Context `{SerdeValue} `{PathText}.

Definition to_fields (e : AutopilotEvent) : gmap bytes Value :=
  let m := put_str "event" (event_name e) ∅ in
  match e with
  | TaskCreated task | TaskUpdated task => put "task" task m
  | TaskStatusChanged task_id from to task =>
      put "task" task (put_str "to" to (put_str "from" from (put_str "task_id" task_id m)))
  | ActivityNew activity => put "activity" activity m
  | ChannelMessage channel agent_id text =>
      put_str "text" text (put_str "agent_id" agent_id (put_str "channel" channel m))
  | AgentIdle agent_id idle_minutes =>
      put "idle_minutes" (VNumber (number_of_Z idle_minutes)) (put_str "agent_id" agent_id m)
  | CronTick now => put_str "now" now m
  | RunAtRisk agent_id session_id score level reasons =>
      put "reasons" (VArray (map VString reasons))
        (put_str "level" level
           (put "score" (match number_of_f64 score with Some n => VNumber n | None => VNull end)
              (put_str "session_id" session_id (put_str "agent_id" agent_id m))))
  | OsFileEvent agent_id path change =>
      put_opt "extension" (to_ascii_lowercase <$> path_extension path)
        (put_opt "file_name" (path_file_name path)
           (put_str "kind" change (put_str "path" path (put_str "agent_id" agent_id m))))
  | OsFrontmostEvent agent_id app window_title prev_app =>
      put_str "prev_app" prev_app (put_str "window_title" window_title (put_str "app" app (put_str "agent_id" agent_id m)))
  | Tick source ts fields =>
      put_str "ts" ts
        (put_str "source" source (flatten (λ e, negb (existsb (ustr_eqb e.1) RESERVED_FIELD_NAMES)) fields m))
  | CepTrigger rule_id then_event fields =>
      flatten (λ _, true) fields (put_str "then_event" then_event (put_str "rule_id" rule_id m))
  | SecurityEvent severity event_type agent_id source =>
      put_str "source" source
        (put_str "agent_id" agent_id (put_str "event_type" event_type (put_str "severity" severity m)))
  | McpEvent subscription_id agent_id server name event_id lane timestamp data suspicious =>
      put "suspicious" (VBool suspicious)
        (put "data" data
           (put_str "timestamp" timestamp
              (put_str "lane" lane
                 (put_str "event_id" event_id
                    (put_str "name" name
                       (put_str "server" server
                          (put_str "agent_id" agent_id (put_str "subscription_id" subscription_id m))))))))
  | OdooEvent event_type model record_id record =>
      put "record" record
        (put "record_id" (VNumber (number_of_Z record_id))
           (put_str "model" model
              (put_str "event_type" event_type
                 (flatten
                    (λ e, negb (existsb (ustr_eqb e.1) ODOO_RESERVED_FIELD_NAMES) && negb (is_container e.2))
                    record m))))
  end.

(** ** Rows of events.db *)

(** [serde_json::from_str]. *)
Context (parse_value : bytes → option Value).

Definition DASHBOARD_EVENTS : list bytes :=
  map b ["cron.changed"; "memory.changed"; "skill.changed"; "channel_config.changed"; "task.created"; "task.updated";
         "approval.created"; "approval.decided"; "approval.expired"; "agent.status_changed"]%string.
Definition SOURCE_INTERNAL_BROADCAST : bytes := b "internal_broadcast".

Record EventRow := { row_event : bytes; row_payload : bytes; row_source : option bytes }.

Definition should_rebroadcast (r : EventRow) : bool :=
  negb (bool_decide (row_source r = Some SOURCE_INTERNAL_BROADCAST)).

(** [now] is the time in RFC 3339. *)
Definition row_to_event (now event payload_json : bytes) : option AutopilotEvent :=
  if existsb (ustr_eqb event) DASHBOARD_EVENTS
     && negb (ustr_eqb event (b "task.created") || ustr_eqb event (b "task.updated")) then None
  else
    let payload := default VNull (parse_value payload_json) in
    let s (k : string) (otherwise : string) := default (b otherwise) (str_field payload (b k)) in
    if ustr_eqb event (b "task.created") then Some (TaskCreated payload)
    else if ustr_eqb event (b "mcp.event") then
      Some (McpEvent (s "subscription_id" "") (s "agent_id" "") (s "server" "") (s "name" "") (s "event_id" "")
              (if ustr_eqb (s "lane" "") (b "normal") then b "normal" else b "explore") (s "timestamp" "")
              (default VNull (get payload (b "data")))
              (match get payload (b "suspicious") with Some (VBool x) => x | _ => true end))%string
    else if ustr_eqb event (b "task.updated") then Some (TaskUpdated payload)
    else if ustr_eqb event (b "activity.new") then Some (ActivityNew payload)
    else if ustr_eqb event (b "run.at_risk") then
      Some (RunAtRisk (s "agent_id" "unknown") (s "session_id" "")
              (match get payload (b "score") with Some (VNumber n) => default (f64_of_Z 0) (number_f64 n) | _ => f64_of_Z 0 end)
              (s "level" "critical")
              (match get payload (b "reasons") with Some (VArray a) => omap value_as_str a | _ => [] end))%string
    else if ustr_eqb event (b "os_file") || ustr_eqb event (b "os.file") then
      Some (OsFileEvent (s "agent_id" "unknown") (s "path" "") (s "kind" "modified"))%string
    else if ustr_eqb event (b "os_frontmost") then
      Some (OsFrontmostEvent (s "agent_id" "unknown") (s "app" "") (s "window_title" "") (s "prev_app" ""))%string
    else if ustr_eqb event (b "tick") then
      Some (Tick (s "source" "unknown") (if is_empty (s "ts" "") then now else s "ts" "")
              (default (VObject []) (get payload (b "fields"))))%string
    else if ustr_eqb event (b "security_event") then
      Some (SecurityEvent (s "severity" "warning") (s "event_type" "unknown") (s "agent_id" "system") (s "source" "audit"))%string
    else None.

(** The lane of a run that this event starts. *)
Definition LANE_EXPLORE : bytes := b "explore".
Definition lane_for_event (fs : gmap bytes Value) : option bytes :=
  if bool_decide ((fs !! b "event") ≫= value_as_str = Some (b "mcp_event"))
     && negb (bool_decide ((fs !! b "lane") ≫= value_as_str = Some (b "normal")))
  then Some LANE_EXPLORE else None.

(** ** Identity *)

(** The fields that name the event and where it is from. *)
Definition identity (e : AutopilotEvent) : list (string * bytes) :=
  ("event"%string, event_name e) ::
  match e with
  | Tick source ts _ => [("source", source); ("ts", ts)]
  | OdooEvent event_type model _ _ => [("event_type", event_type); ("model", model)]
  | McpEvent subscription_id agent_id server name event_id lane timestamp _ _ =>
      [("subscription_id", subscription_id); ("agent_id", agent_id); ("server", server); ("name", name);
       ("event_id", event_id); ("lane", lane); ("timestamp", timestamp)]
  | SecurityEvent severity event_type agent_id source =>
      [("severity", severity); ("event_type", event_type); ("agent_id", agent_id); ("source", source)]
  | ChannelMessage channel agent_id text => [("channel", channel); ("agent_id", agent_id); ("text", text)]
  | OsFileEvent agent_id path change => [("agent_id", agent_id); ("path", path); ("kind", change)]
  | _ => []
  end%string.

(** No event can be taken for another: whatever a tick, an Odoo record or
    an MCP payload carries, the field map holds the name of the event and the
    fields of its identity as the gateway wrote them.  Only the synthetic
    trigger of a sequence, whose fields are another event's, is excepted. *)
Theorem identity_not_shadowed e k s :
  (∀ rule_id then_event fields, e ≠ CepTrigger rule_id then_event fields) →
  (k, s) ∈ identity e → to_fields e !! b k = Some (VString s).
Proof.
  intros Hcep Hin. unfold identity in Hin.
  destruct e; try (exfalso; by eapply Hcep);
    repeat (apply elem_of_cons in Hin as [[= -> ->]|Hin]; [unfold to_fields, put_str; cbv zeta; by read_fields|]);
    by apply elem_of_nil in Hin.
Qed.

Lemma event_field e :
  (∀ rule_id then_event fields, e ≠ CepTrigger rule_id then_event fields) →
  to_fields e !! b "event" = Some (VString (event_name e)).
Proof.
  intros Hcep. destruct e; try (exfalso; by eapply Hcep); unfold to_fields, put_str; cbv zeta; by read_fields.
Qed.

Lemma default_some (o : option bytes) s : default [] o = s → s ≠ [] → o = Some s.
Proof. destruct o; cbn; [by intros ->|by intros <-]. Qed.

(** A row another process wrote about an MCP delivery fails safe: whatever
    its payload, JSON or not, it becomes an event whose runs take the explore
    lane, unless the payload says [normal] in so many words, and which counts
    as suspicious, unless the payload says [false]. *)
Theorem mcp_rows_fail_safe now payload :
  ∃ e, row_to_event now (b "mcp.event") payload = Some e
    ∧ to_fields e !! b "event" = Some (VString (b "mcp_event"))
    ∧ (lane_for_event (to_fields e) = Some LANE_EXPLORE
       ∨ parse_value payload ≫= (λ v, str_field v (b "lane")) = Some (b "normal"))
    ∧ (to_fields e !! b "suspicious" = Some (VBool true)
       ∨ parse_value payload ≫= (λ v, get v (b "suspicious")) = Some (VBool false)).
Proof.
  unfold row_to_event. eval_names. cbn [orb negb andb].
  assert (existsb (ustr_eqb (b "mcp.event")) DASHBOARD_EVENTS = false) as -> by (vm_compute; reflexivity).
  cbn [andb]. cbv iota zeta. eexists. split; [done|]. split; [by apply event_field|]. split.
  - unfold to_fields, put_str, lane_for_event. cbv zeta.
    destruct (ustr_eqb (default (b "") _) (b "normal")) eqn:El.
    + right. apply bool_decide_eq_true in El. change (b "") with ([] : bytes) in El.
      destruct (parse_value payload) as [v|]; cbn [mbind option_bind default] in El |- *; [by apply default_some|].
      by apply default_some in El.
    + left. read_fields. cbn [mbind option_bind value_as_str]. rewrite bool_decide_eq_true_2 by done.
      by rewrite bool_decide_eq_false_2 by (intros [= ?]; vm_compute in *; discriminate).
  - unfold to_fields. rewrite put_eq. destruct (parse_value payload) as [v|]; cbn [mbind option_bind default]; unfold id.
    + destruct (get v (b "suspicious")) as [[|[]| | | |]|]; auto.
    + by left.
Qed.
End events.

(** ** Concrete runs *)

Definition demo_paths : PathText := {|
  path_file_name p := Some p; path_extension p := option_map snd (split_once p 46)
|}.

Lemma identity_not_shadowed_witness :
  to_fields (H := demo_values) (H0 := demo_paths)
    (Tick (b "btc") (b "t0") (obj [("event"%string, str "cron_tick"); ("price"%string, VNumber (b "7"))])) !! b "event"
  = Some (VString (b "tick")).
Proof.
  apply (identity_not_shadowed (H := demo_values) (H0 := demo_paths) _ "event"%string); [intros; discriminate|by left].
Defined.

Example tick_fields_readable :
  to_fields (H := demo_values) (H0 := demo_paths) (Tick (b "btc") (b "t0") (obj [("price"%string, VNumber (b "7"))])) !! b "price"
  = Some (VNumber (b "7"))
  ∧ to_fields (H := demo_values) (H0 := demo_paths) (OsFileEvent (b "a") (b "x.PDF") (b "created")) !! b "extension"
    = Some (VString (b "pdf")).
Proof. by split; vm_compute. Qed.
