(* ===== verification/Screen.v ===== *)
(** * Local screening of autopilot rules
    (crates/duduclaw-gateway/src/autopilot_screen.rs)

    Before a rule that asks for it wakes an agent, a local model answers YES
    or NO.  The model's answer is an argument. *)

From S2P Require Import Prelude.
From S2P Require Import Bytes.
From S2P Require Import Utf8.
From S2P Require Import Chars.
From S2P Require Import TextUtils.
From S2P Require Import Float64.
From S2P Require Import JsonValue.
From S2P Require Import Conditions.

Definition SCREEN_MODE_LOCAL : bytes := b "local".
Definition MAX_SCREEN_PROMPT_BYTES : nat := 2048.
Definition MAX_SCREEN_RULE_PROMPT_BYTES : nat := 800.
Definition MIN_SCREEN_TIMEOUT_SECS : Z := 1.
Definition MAX_SCREEN_TIMEOUT_SECS : Z := 60.
Definition DEFAULT_SCREEN_TIMEOUT_SECS : Z := 10.
Definition VERDICT_TAIL : bytes := [10; 10]%N ++ b "Answer with exactly one word: YES or NO.".
Definition RESULT_SCREEN_DROP : bytes := b "screen_drop".
Definition RESULT_SCREEN_UNAVAILABLE : bytes := b "screen_unavailable".

(** ** The specification *)

Inductive OnUnavailable := Pass | Drop.

Definition OnUnavailable_parse (s : bytes) : option OnUnavailable :=
  if ustr_eqb s (b "pass") then Some Pass else if ustr_eqb s (b "drop") then Some Drop else None.

(** [preset] is what [TickPreset::screen_on_unavailable] gives. *)
Definition from_preset (preset : option bytes) : OnUnavailable := default Pass (preset ≫= OnUnavailable_parse).

Record ScreenSpec := { screen_prompt : bytes; on_unavailable : OnUnavailable; timeout : Z }.

Inductive ScreenPlan :=
| Absent
| Spec (spec : ScreenSpec)
| Unusable (reason : bytes) (policy : OnUnavailable).

Section screen.
Context `{SerdeValue}.

(** [Value::as_u64]. *)
Definition as_u64 (v : Value) : option Z :=
  match v with
  | VNumber n => number_u64 n
  | _ => None
  end.

Definition validate_screen_spec_with_default (raw : Value) (otherwise : OnUnavailable) : result ScreenSpec bytes :=
  match raw with
  | VObject obj =>
      match entry obj (b "mode") ≫= value_as_str with
      | None => Err (b "action.screen.mode is required")
      | Some mode =>
          if negb (ustr_eqb mode SCREEN_MODE_LOCAL) then
            Err (b "unknown action.screen.mode '" ++ mode ++ b "'; only 'local' is supported")
          else
            let prompt := default [] (trim_bytes <$> (entry obj (b "prompt") ≫= value_as_str)) in
            if is_empty prompt then Err (b "action.screen.prompt is required")
            else if (MAX_SCREEN_RULE_PROMPT_BYTES <? length prompt)%nat then
              Err (b "action.screen.prompt is " ++ show_nat (length prompt) ++ b " bytes; the maximum is 800")
            else
              let policy :=
                match entry obj (b "on_unavailable") with
                | None | Some VNull => Ok otherwise
                | Some (VString s) =>
                    match OnUnavailable_parse s with
                    | Some p => Ok p
                    | None => Err (b "unknown action.screen.on_unavailable '" ++ s ++ b "'; must be 'pass' or 'drop'")
                    end
                | Some _ => Err (b "action.screen.on_unavailable must be a string")
                end in
              match policy with
              | Err e => Err e
              | Ok policy =>
                  let timeout :=
                    match entry obj (b "timeout_secs") with
                    | None | Some VNull => Ok DEFAULT_SCREEN_TIMEOUT_SECS
                    | Some v =>
                        match as_u64 v with
                        | None => Err (b "action.screen.timeout_secs must be a positive integer")
                        | Some n =>
                            if (MIN_SCREEN_TIMEOUT_SECS <=? n) && (n <=? MAX_SCREEN_TIMEOUT_SECS) then Ok n
                            else Err (b "action.screen.timeout_secs " ++ show_Z n ++ b " is out of range (1–60)")
                        end
                    end in
                  match timeout with
                  | Err e => Err e
                  | Ok t => Ok {| screen_prompt := prompt; on_unavailable := policy; timeout := t |}
                  end
              end
      end
  | _ => Err (b "action.screen must be a JSON object")
  end.

Definition plan_screen_with_default (action : Value) (otherwise : OnUnavailable) : ScreenPlan :=
  match get action (b "screen") with
  | None | Some VNull => Absent
  | Some raw =>
      let policy := default otherwise (str_field raw (b "on_unavailable") ≫= OnUnavailable_parse) in
      match validate_screen_spec_with_default raw otherwise with
      | Ok spec => Spec spec
      | Err reason => Unusable reason policy
      end
  end.
End screen.

(** ** The verdict *)

(** [char::is_ascii_punctuation]. *)
Definition is_ascii_punctuation (c : N) : bool :=
  (((33 <=? c) && (c <=? 47)) || ((58 <=? c) && (c <=? 64)) || ((91 <=? c) && (c <=? 96)) || ((123 <=? c) && (c <=? 126)))%N.

Fixpoint drop_while (f : N → bool) (s : ustr) : ustr :=
  match s with
  | [] => []
  | c :: r => if f c then drop_while f r else s
  end.
Fixpoint take_while (f : N → bool) (s : ustr) : ustr :=
  match s with
  | [] => []
  | c :: r => if f c then c :: take_while f r else []
  end.
(** [trim_matches]. *)
Definition trim_matches (f : N → bool) (s : ustr) : ustr := rev (drop_while f (rev (drop_while f s))).

(** The first word of [split_whitespace]. *)
Definition first_word (s : ustr) : option ustr :=
  match trim_start s with
  | [] => None
  | r => Some (take_while (λ c, negb (is_whitespace c)) r)
  end.

Definition parse_verdict (reply : bytes) : option bool :=
  word ← first_word (utf8_decode reply);
  let token := trim_matches is_ascii_punctuation word in
  if is_empty token then None
  else if eq_ignore_ascii_case token (u "yes") then Some true
  else if eq_ignore_ascii_case token (u "no") then Some false
  else None.

(** ** The decision *)

Inductive ScreenOutcome := PassOutcome | DropOutcome | Unavailable.
Record ScreenDecision := { dispatch : bool; outcome : ScreenOutcome; result_tag : option bytes; detail : bytes }.

Definition ScreenDecision_pass (o : ScreenOutcome) (d : bytes) : ScreenDecision :=
  {| dispatch := true; outcome := o; result_tag := None; detail := d |}.
Definition drop_now (o : ScreenOutcome) (tag d : bytes) : ScreenDecision :=
  {| dispatch := false; outcome := o; result_tag := Some tag; detail := d |}.

Definition unavailable_decision (policy : OnUnavailable) (reason : bytes) : ScreenDecision :=
  match policy with
  | Pass => ScreenDecision_pass Unavailable (b "初篩無法判定（" ++ reason ++ b "）— 依政策放行")
  | Drop => drop_now Unavailable RESULT_SCREEN_UNAVAILABLE (b "初篩無法判定（" ++ reason ++ b "）— 依政策攔截")
  end.

(** What the call of the model comes to within the timeout. *)
Inductive ScreenReply := TimedOut | Failed (e : bytes) | Answered (text : bytes).

Definition run_screen (spec : ScreenSpec) (reply : ScreenReply) : ScreenDecision :=
  match reply with
  | TimedOut => unavailable_decision (on_unavailable spec) (b "逾時 " ++ show_Z (timeout spec) ++ b "s")
  | Failed e => unavailable_decision (on_unavailable spec) (truncate_bytes e 200)
  | Answered text =>
      match parse_verdict text with
      | Some true => ScreenDecision_pass PassOutcome (b "初篩通過（YES）")
      | Some false => drop_now DropOutcome RESULT_SCREEN_DROP (b "初篩判定不需喚醒（NO）")
      | None =>
          unavailable_decision (on_unavailable spec) (b "回覆無法解析：" ++ truncate_bytes (trim_bytes text) 80)
      end
  end.

(** ** The prompt *)

Definition trim_end_bytes (s : bytes) : bytes := utf8_encode (trim_end (utf8_decode s)).

Definition closing_tag (block : bytes) : option bytes :=
  let trimmed := trim_end_bytes block in
  if negb (ends_with trimmed (b ">")) then None
  else start ← rfind trimmed (b "</"); Some (drop start trimmed).

Definition fit_delimited_block (block : bytes) (budget : nat) : bytes :=
  if (length block <=? budget)%nat then block
  else
    match closing_tag block with
    | None => truncate_bytes block budget
    | Some close =>
        let head_budget := (budget - (length close + 1))%nat in
        if (head_budget =? 0)%nat then [] else truncate_bytes block head_budget ++ [10]%N ++ close
    end.

Definition build_screen_prompt (operator_prompt context : bytes) : bytes :=
  let context := trim_bytes context in
  if is_empty context then
    truncate_bytes (trim_bytes operator_prompt) (MAX_SCREEN_PROMPT_BYTES - length VERDICT_TAIL) ++ VERDICT_TAIL
  else
    let body_budget := (MAX_SCREEN_PROMPT_BYTES - (length VERDICT_TAIL + 2))%nat in
    let instruction := truncate_bytes (trim_bytes operator_prompt) (body_budget / 2)%nat in
    let ctx_budget := (body_budget - length instruction)%nat in
    instruction ++ [10; 10]%N ++ fit_delimited_block context ctx_budget ++ VERDICT_TAIL.

(** ** The screening of a fire

    [screen_decision] of autopilot_engine.rs, on what the call of the model
    comes to; [None] when the rule asks for no screening. *)
Definition screen_decision `{SerdeValue} (screen_default : OnUnavailable) (action : Value) (reply : ScreenReply)
  : option ScreenDecision :=
  match plan_screen_with_default action screen_default with
  | Absent => None
  | Unusable reason policy => Some (unavailable_decision policy (b "設定無效：" ++ reason))
  | Spec spec => Some (run_screen spec reply)
  end.

(** ** Verdicts *)

Lemma forallb_rev (g : N → bool) l : forallb g (rev l) = forallb g l.
Proof. induction l as [|c l IH]; [done|]. cbn. rewrite forallb_app, IH. cbn. by rewrite andb_true_r, andb_comm. Qed.

Section runs.
Context (f : N → bool).

Lemma drop_while_all l r : forallb f l = true → drop_while f (l ++ r) = drop_while f r.
Proof. induction l as [|c l IH]; cbn; [done|]. intros [-> Hl]%andb_true_iff. auto. Qed.

Lemma take_while_all l r : forallb f l = true → take_while f (l ++ r) = l ++ take_while f r.
Proof. induction l as [|c l IH]; cbn; [done|]. intros [-> Hl]%andb_true_iff. f_equal. auto. Qed.

Lemma take_drop_while s :
  s = take_while f s ++ drop_while f s ∧ forallb f (take_while f s) = true.
Proof.
  induction s as [|c s (IH1 & IH2)]; [done|]. cbn. destruct (f c) eqn:E; [|done].
  cbn. rewrite E. split; [by f_equal|done].
Qed.

Lemma drop_while_head s c r : drop_while f s = c :: r → f c = false.
Proof. induction s as [|d s IH]; cbn; [done|]. destruct (f d) eqn:E; [auto|by intros [= <- _]]. Qed.

(** [trim_matches] takes away a run on each side, and a word that starts and
    ends outside the class keeps all the rest. *)
Lemma trim_matches_spec s :
  ∃ p q, s = p ++ trim_matches f s ++ q ∧ forallb f p = true ∧ forallb f q = true.
Proof.
  destruct (take_drop_while s) as [E1 F1]. destruct (take_drop_while (rev (drop_while f s))) as [E2 F2].
  exists (take_while f s), (rev (take_while f (rev (drop_while f s)))).
  split; [|split; [done|by rewrite forallb_rev]].
  unfold trim_matches. rewrite <- rev_app_distr, <- E2, rev_involutive. exact E1.
Qed.

Lemma trim_matches_word p w q :
  forallb f p = true → forallb f q = true → w ≠ [] → forallb (λ c, negb (f c)) w = true →
  trim_matches f (p ++ w ++ q) = w.
Proof.
  intros Hp Hq Hw Hf. unfold trim_matches. rewrite drop_while_all by done.
  assert (∀ x y, x ≠ [] → forallb (λ c, negb (f c)) x = true → drop_while f (x ++ y) = x ++ y) as Hid.
  { intros [|c x] y ? Hx; [done|]. cbn in *. apply andb_true_iff in Hx as [Hc%negb_true_iff _]. by rewrite Hc. }
  rewrite Hid by done. rewrite rev_app_distr, drop_while_all by (by rewrite forallb_rev).
  rewrite <- (app_nil_r (rev w)), Hid.
  - by rewrite app_nil_r, rev_involutive.
  - intros E. apply Hw. by apply (f_equal (@rev _)) in E; rewrite rev_involutive in E.
  - by rewrite forallb_rev.
Qed.
End runs.

Lemma trim_start_drop s : trim_start s = drop_while is_whitespace s.
Proof. induction s as [|c s IH]; [done|]. cbn. by rewrite IH. Qed.

(** Every character of a verdict's word is a letter. *)
Lemma verdict_letters (v : bool) w :
  eq_ignore_ascii_case w (u (if v then "yes" else "no")) = true →
  w ≠ [] ∧ forallb (λ c, negb (is_ascii_punctuation c)) w = true ∧ forallb (λ c, negb (is_whitespace c)) w = true.
Proof.
  intros Hw. unfold eq_ignore_ascii_case, to_ascii_lowercase in Hw. apply bool_decide_eq_true_1 in Hw.
  set (l := map ascii_lower (u (if v then "yes" else "no"))) in *.
  assert (Forall (λ c, 97 <= c ∧ c <= 122)%N l) as Hl
    by (destruct v; repeat (apply List.Forall_cons; [by split|]); apply List.Forall_nil).
  assert (l ≠ []) as Hne by (by destruct v). clearbody l. subst l.
  split; [by intros ->|]. clear Hne. induction w as [|c w IH]; [done|].
  cbn in Hl. apply List.Forall_cons_iff in Hl as [Hc Hl]. destruct (IH Hl) as [IH1 IH2]. cbn. rewrite IH1, IH2, !andb_true_r.
  unfold ascii_lower in Hc. unfold is_ascii_punctuation, is_whitespace.
  rewrite !negb_true_iff, !orb_false_iff, !andb_false_iff.
  destruct ((65 <=? c)%N && (c <=? 90)%N) eqn:E.
  - apply andb_true_iff in E as [E1%N.leb_le E2%N.leb_le].
    repeat split; rewrite ?N.leb_gt, ?N.eqb_neq; lia.
  - clear E. repeat split; rewrite ?N.leb_gt, ?N.eqb_neq; lia.
Qed.

(** A verdict's word between punctuation, the first word of the reply. *)
Definition verdict_reply (v : bool) (reply : ustr) : Prop :=
  ∃ ws p w q rest, reply = ws ++ p ++ w ++ q ++ rest
    ∧ forallb is_whitespace ws = true
    ∧ forallb is_ascii_punctuation p = true ∧ forallb is_ascii_punctuation q = true
    ∧ eq_ignore_ascii_case w (u (if v then "yes" else "no")) = true
    ∧ (rest = [] ∨ ∃ c r, rest = c :: r ∧ is_whitespace c = true).

Lemma punctuation_black l :
  forallb is_ascii_punctuation l = true → forallb (λ c, negb (is_whitespace c)) l = true.
Proof.
  rewrite !forallb_forall. intros Hl c Hc. specialize (Hl c Hc).
  unfold is_ascii_punctuation, is_whitespace in *.
  rewrite negb_true_iff, !orb_false_iff, !andb_false_iff. rewrite !orb_true_iff, !andb_true_iff in Hl.
  repeat split; rewrite ?N.leb_gt, ?N.eqb_neq; rewrite !N.leb_le in Hl; lia.
Qed.

Lemma first_word_of ws w rest :
  forallb is_whitespace ws = true → w ≠ [] → forallb (λ c, negb (is_whitespace c)) w = true →
  (rest = [] ∨ ∃ c r, rest = c :: r ∧ is_whitespace c = true) →
  first_word (ws ++ w ++ rest) = Some w.
Proof.
  intros Hws Hw Hb Hr. unfold first_word. rewrite trim_start_drop, drop_while_all by done.
  destruct w as [|c w]; [done|]. pose proof Hb as Hb'. cbn in Hb'. apply andb_true_iff in Hb' as [Hc%negb_true_iff _].
  cbn [app drop_while]. rewrite Hc. change (c :: w ++ rest) with ((c :: w) ++ rest). f_equal.
  rewrite take_while_all by done. destruct Hr as [-> |(d & r & -> & Hd)]; cbn [take_while]; [by rewrite app_nil_r|].
  rewrite Hd. cbn [negb]. by rewrite app_nil_r.
Qed.

Lemma first_word_inv s w :
  first_word s = Some w →
  ∃ ws rest, s = ws ++ w ++ rest ∧ forallb is_whitespace ws = true
    ∧ (rest = [] ∨ ∃ c r, rest = c :: r ∧ is_whitespace c = true).
Proof.
  unfold first_word. rewrite trim_start_drop.
  destruct (take_drop_while is_whitespace s) as [E F]. destruct (drop_while is_whitespace s) as [|c r] eqn:D; [done|].
  intros [= <-]. destruct (take_drop_while (λ c, negb (is_whitespace c)) (c :: r)) as [E2 _].
  exists (take_while is_whitespace s), (drop_while (λ c, negb (is_whitespace c)) (c :: r)).
  split; [rewrite E at 1; f_equal; exact E2|]. split; [exact F|].
  destruct (drop_while _ (c :: r)) as [|d r'] eqn:D2; [by left|]. right. exists d, r'. split; [done|].
  apply drop_while_head in D2. by apply negb_false_iff in D2.
Qed.

(** The screener answers YES or NO exactly when the first word of its
    reply, without ASCII punctuation at its ends, is that word in any case. *)
Theorem verdict_exact (v : bool) (reply : bytes) :
  parse_verdict reply = Some v ↔ verdict_reply v (utf8_decode reply).
Proof.
  unfold parse_verdict. split.
  - destruct (first_word (utf8_decode reply)) as [word|] eqn:Ef; [|done]. cbn [mbind option_bind].
    apply first_word_inv in Ef as (ws & rest & E & Hws & Hr).
    destruct (trim_matches_spec is_ascii_punctuation word) as (p & q & Ew & Hp & Hq).
    set (tok := trim_matches is_ascii_punctuation word) in *. intros Hv.
    exists ws, p, tok, q, rest. rewrite E, Ew at 1. rewrite <- !app_assoc. do 4 (split; [done|]). split; [|exact Hr].
    destruct (is_empty tok); [done|]. destruct (eq_ignore_ascii_case tok (u "yes")) eqn:Ey; [by simplify_eq|].
    by destruct (eq_ignore_ascii_case tok (u "no")) eqn:En; simplify_eq.
  - intros (ws & p & w & q & rest & E & Hws & Hp & Hq & Hw & Hr). rewrite E.
    destruct (verdict_letters v w Hw) as (Hne & Hpu & Hbl).
    replace (ws ++ p ++ w ++ q ++ rest) with (ws ++ (p ++ w ++ q) ++ rest) by (by rewrite !app_assoc).
    rewrite first_word_of; [|done| |rewrite !forallb_app, Hbl, !punctuation_black by done; done|done].
    2: { intros (_ & [-> _]%app_nil)%app_nil. done. }
    cbn [mbind option_bind]. rewrite trim_matches_word by done.
    destruct w as [|c w]; [done|]. cbn [is_empty]. destruct v; rewrite Hw; [done|].
    destruct (eq_ignore_ascii_case (c :: w) (u "yes")) eqn:Ey; [|done].
    unfold eq_ignore_ascii_case in *. apply bool_decide_eq_true_1 in Hw, Ey. rewrite Hw in Ey. discriminate Ey.
Qed.

(** ** Decisions *)

Section decisions.
Context `{SerdeValue}.

(** The model was asked, and its answer is the verdict. *)
Definition judged (otherwise : OnUnavailable) (raw : Value) (reply : ScreenReply) (v : bool) : Prop :=
  (∃ spec, validate_screen_spec_with_default raw otherwise = Ok spec)
  ∧ ∃ text, reply = Answered text ∧ parse_verdict text = Some v.

(** What the rule says about a screener that does not answer, or else the
    installation. *)
Definition policy_of (otherwise : OnUnavailable) (raw : Value) : OnUnavailable :=
  default otherwise (str_field raw (b "on_unavailable") ≫= OnUnavailable_parse).

Lemma valid_policy raw otherwise spec :
  validate_screen_spec_with_default raw otherwise = Ok spec → on_unavailable spec = policy_of otherwise raw.
Proof.
  unfold validate_screen_spec_with_default, policy_of, str_field, get. destruct raw as [| | | | |es]; try done.
  destruct (entry es (b "mode") ≫= value_as_str); [|done]. destruct (negb _); [done|]. cbv zeta.
  destruct (is_empty _); [done|]. destruct (_ <? _)%nat; [done|].
  destruct (entry es (b "on_unavailable")) as [[| | |s| |]|]; cbn [mbind option_bind value_as_str default]; try done.
  all: try (destruct (OnUnavailable_parse s) as [pol|]; [|done]).
  all: repeat match goal with |- match ?x with _ => _ end = _ → _ => destruct x; try done end; by intros [= <-].
Qed.

Lemma valid_prompt raw otherwise spec :
  validate_screen_spec_with_default raw otherwise = Ok spec →
  ∃ p, screen_prompt spec = trim_bytes p ∧ (length (screen_prompt spec) ≤ MAX_SCREEN_RULE_PROMPT_BYTES)%nat.
Proof.
  unfold validate_screen_spec_with_default. destruct raw as [| | | | |es]; try done.
  destruct (entry es (b "mode") ≫= value_as_str); [|done]. destruct (negb _); [done|]. cbv zeta.
  destruct (entry es (b "prompt") ≫= value_as_str) as [p|]; [|done]. cbn [fmap option_fmap option_map default].
  destruct (is_empty _); [done|]. destruct (MAX_SCREEN_RULE_PROMPT_BYTES <? _)%nat eqn:El; [done|]. reflect_bools.
  repeat match goal with |- match ?x with _ => _ end = _ → _ => destruct x; try done end; intros [= <-]; cbn; eauto.
Qed.

(** A rule with a [screen] is judged by the local model alone.  Its action
    is let through exactly on a YES, or when no verdict came (a malformed
    specification, a timeout, a failure, an answer that is no verdict) and the
    policy is to pass; what is counted as passed or dropped is a verdict, never
    a policy. *)
Theorem screen_exact (otherwise : OnUnavailable) (action raw : Value) (reply : ScreenReply) :
  get action (b "screen") = Some raw → raw ≠ VNull →
  ∃ d, screen_decision otherwise action reply = Some d
    ∧ (outcome d = PassOutcome ↔ judged otherwise raw reply true)
    ∧ (outcome d = DropOutcome ↔ judged otherwise raw reply false)
    ∧ (dispatch d = true ↔
         judged otherwise raw reply true ∨ (¬ judged otherwise raw reply false ∧ policy_of otherwise raw = Pass)).
Proof.
  intros Hg Hn. unfold screen_decision, plan_screen_with_default. rewrite Hg.
  fold (policy_of otherwise raw). destruct raw as [| | | | |es]; [done|..].
  all: match goal with |- context [validate_screen_spec_with_default ?r _] =>
         destruct (validate_screen_spec_with_default r otherwise) as [spec|e] eqn:Ev end.
  all: try (exists (run_screen spec reply); split; [done|]; pose proof (valid_policy _ _ _ Ev) as Hp;
    unfold run_screen; rewrite Hp; unfold judged; rewrite Ev;
    destruct reply as [|e|text]; [..|destruct (parse_verdict text) as [[]|] eqn:Et];
    destruct (policy_of _ _); cbn; naive_solver).
  all: eexists; split; [done|]; unfold judged; rewrite Ev; destruct (policy_of _ _); cbn; naive_solver.
Qed.

(** ** Prompts *)

Lemma fit_block_spec block n :
  (length (fit_delimited_block block n) ≤ n)%nat
  ∧ (fit_delimited_block block n = block
     ∨ (∃ h, fit_delimited_block block n = h ∧ closing_tag block = None ∧ ∃ r, block = h ++ r)
     ∨ fit_delimited_block block n = []
     ∨ ∃ h close, fit_delimited_block block n = h ++ [10%N] ++ close ∧ closing_tag block = Some close ∧ ∃ r, block = h ++ r).
Proof.
  unfold fit_delimited_block. destruct (Nat.leb_spec (length block) n) as [Hle|Hgt]; [by auto|].
  destruct (closing_tag block) as [close|] eqn:Ec.
  - destruct (Nat.eqb_spec (n - (length close + 1)) 0) as [|Hb]; [split; [cbn; lia|auto]|].
    destruct (truncate_bytes_prefix block (n - (length close + 1))) as (r & E & Hl).
    split; [rewrite !length_app; cbn [length]; lia|]. right; right; right. eauto 10.
  - destruct (truncate_bytes_prefix block n) as (r & E & Hl). split; [done|]. right; left. eauto.
Qed.

(** The prompt of the screener is at most 2048 bytes and ends with the
    demand for one word; the question of an accepted rule stands in it whole,
    and the evidence after it is the whole block, or a prefix of it closed by
    the block's own closing tag, or nothing, so a block that has a closing tag
    is never left open. *)
Theorem screen_prompt_bounded raw otherwise spec context close :
  validate_screen_spec_with_default raw otherwise = Ok spec →
  closing_tag (trim_bytes context) = Some close →
  ∃ evidence,
    build_screen_prompt (screen_prompt spec) context = screen_prompt spec ++ [10; 10]%N ++ evidence ++ VERDICT_TAIL
    ∧ (length (build_screen_prompt (screen_prompt spec) context) ≤ MAX_SCREEN_PROMPT_BYTES)%nat
    ∧ (evidence = trim_bytes context ∨ evidence = []
       ∨ ∃ h r, evidence = h ++ [10%N] ++ close ∧ trim_bytes context = h ++ r).
Proof.
  intros Hv Hc. destruct (valid_prompt _ _ _ Hv) as (p & Ep & Hl).
  assert (trim_bytes (screen_prompt spec) = screen_prompt spec) as Et
    by (rewrite Ep; unfold trim_bytes; by rewrite utf8_decode_encode, trim_idem).
  assert (length VERDICT_TAIL = 42%nat) as Ht by (vm_compute; reflexivity).
  unfold build_screen_prompt. cbv zeta. destruct (is_empty (trim_bytes context)) eqn:Ee.
  { destruct (trim_bytes context); [|done]. vm_compute in Hc. discriminate Hc. }
  rewrite Et, Ht. unfold MAX_SCREEN_RULE_PROMPT_BYTES in Hl. change ((MAX_SCREEN_PROMPT_BYTES - (42 + 2)) / 2)%nat with 1002%nat.
  rewrite (truncate_bytes_id _ 1002) by lia. change (MAX_SCREEN_PROMPT_BYTES - (42 + 2))%nat with 2004%nat.
  destruct (fit_block_spec (trim_bytes context) (2004 - length (screen_prompt spec))) as [Hb Hcase].
  eexists. split; [reflexivity|]. split.
  - rewrite !length_app, Ht. change (length [10; 10]%N) with 2%nat. unfold MAX_SCREEN_PROMPT_BYTES. lia.
  - destruct Hcase as [-> |[(h & _ & Hn & _)|[-> |(h & close' & -> & Hc' & r & E)]]]; [auto|congruence|auto|].
    rewrite Hc in Hc'. injection Hc' as <-. right; right. eauto.
Qed.
End decisions.

(** ** Concrete runs *)

Definition demo_screen (policy : string) : Value :=
  obj [("mode"%string, str "local"); ("prompt"%string, str " Is it real? ");
       ("on_unavailable"%string, str policy); ("timeout_secs"%string, VNumber (b "25"))].
Definition demo_screened (policy : string) : Value := obj [("screen"%string, demo_screen policy)].

(** The answer of the second reply is prose, and its first word decides it. *)
Example demo_verdicts :
  parse_verdict (b "**yes**! it is") = Some true
  ∧ parse_verdict (b "Yes, because the price moved") = Some true
  ∧ parse_verdict (b "no-go") = None ∧ parse_verdict (b "...") = None.
Proof. by repeat split; vm_compute. Qed.

Example demo_plans :
  plan_screen_with_default (H := demo_values) (demo_screened "drop") Pass
  = Spec {| screen_prompt := b "Is it real?"; on_unavailable := Drop; timeout := 25 |}
  ∧ (∃ r, plan_screen_with_default (H := demo_values) (demo_screened "ask") Drop = Unusable r Drop)
  ∧ plan_screen_with_default (H := demo_values) VNull Drop = Absent.
Proof. split; [|split]; [|eexists|]; vm_compute; reflexivity. Qed.

Lemma screen_exact_witness :
  ∃ d, screen_decision (H := demo_values) Pass (demo_screened "drop") TimedOut = Some d ∧ dispatch d = false.
Proof.
  destruct (screen_exact (H := demo_values) Pass (demo_screened "drop") (demo_screen "drop") TimedOut) as (d & E & _ & _ & Hd);
    [vm_compute; reflexivity|discriminate|].
  exists d. split; [exact E|]. destruct (dispatch d); [|reflexivity].
  destruct (proj1 Hd eq_refl) as [(_ & t & Ht & _)|[_ Hp]]; [discriminate Ht|vm_compute in Hp; discriminate Hp].
Defined.

Lemma screen_prompt_bounded_witness :
  ∃ evidence, build_screen_prompt (b "Is it real?") (b " <event>a=1</event> ")
    = b "Is it real?" ++ [10; 10]%N ++ evidence ++ VERDICT_TAIL.
Proof.
  destruct (screen_prompt_bounded (H := demo_values) (demo_screen "drop") Pass
    {| screen_prompt := b "Is it real?"; on_unavailable := Drop; timeout := 25 |} (b " <event>a=1</event> ") (b "</event>"))
    as (e & E & _); [vm_compute; reflexivity..|].
  exists e. exact E.
Defined.
