(* ===== verification/Autonomy.v ===== *)
(** * The autonomy gate (crates/duduclaw-core/src/autonomy_gate.rs)

    Operators pause autonomous work, of everyone or of one agent, in a state
    file that the gateway and the schedulers share.  This file models reading
    the state and admitting an agent; AutonomyChange models the changes and the
    leases.  The file system is its answers to the calls the code makes. *)

From S2P Require Import Prelude.
From S2P Require Import Bytes.
From S2P Require Import Utf8.
From S2P Require Import Chars.
From S2P Require Import StateFile.

Definition MAX_REASON_CHARS : nat := 1000.
Definition MAX_STATE_BYTES : N := 4 * 1024 * 1024.
Definition MAX_PENDING_CHANGE_RECEIPTS : nat := 4096.

Inductive AutonomyPath :=
| GoalLoop | GoalRound | Dispatcher | Cron | Heartbeat | Responsibility | Autopilot | AssignSchedule | Workflow | Background.

Record PauseEntry := { reason : bytes; who : bytes; at_ : bytes }.
Inductive ChangeScope := ScopeAll | ScopeAgent (id : bytes).
Inductive ChangeMethod := MethodPause | MethodResume.
Record ChangeReceipt := {
  change_id : bytes;
  method : ChangeMethod;
  scope : ChangeScope;
  actor : bytes;
  request_digest : bytes;
  applied_at : bytes;
  completion_recorded : bool;
}.
Record PauseState := { global : option PauseEntry; agents : gmap bytes PauseEntry; state_error : option bytes }.
Record DiskState := {
  version : Z;
  receipts : list ChangeReceipt;
  disk_global : option PauseEntry;
  disk_agents : gmap bytes PauseEntry;
}.
Definition DiskState_default : DiskState := {| version := 1; receipts := []; disk_global := None; disk_agents := ∅ |}.
Definition PauseState_of (d : DiskState) : PauseState :=
  {| global := disk_global d; agents := disk_agents d; state_error := None |}.
Record PauseInfo := { path : AutonomyPath; why : bytes; entry : option PauseEntry; info_state_error : option bytes }.

Definition is_agent_config_refusal (i : PauseInfo) : bool :=
  bool_decide (entry i = None ∧ info_state_error i = None)
  && (ustr_eqb (why i) (b "agent_missing") || starts_with (why i) (b "agent_status_unreadable: ")).


(** [is_valid_agent_id] of lib.rs. *)
Definition is_ascii_alphanumeric (c : N) : bool :=
  (((48 <=? c) && (c <=? 57)) || ((65 <=? c) && (c <=? 90)) || ((97 <=? c) && (c <=? 122)))%N.
Definition is_valid_agent_id (s : bytes) : bool :=
  negb (is_empty s) && (length s <=? 64)%nat
  && forallb (λ c, is_ascii_alphanumeric c || (c =? 45)%N || (c =? 95)%N) (utf8_decode s).

(** The crates the gate calls: serde_json at [DiskState], chrono, uuid, sha2. *)
Class AutonomyCrates := {
  #[global] disk_codec :: StateCodec DiskState;
  (** [parse_from_rfc3339]: nanoseconds since 1970. *)
  parse_rfc3339 : bytes → option Z;
  is_uuid : bytes → bool;
  sha256_hex : bytes → bytes;
  (** The class, line and column of what is wrong in a text. *)
  parse_error : bytes → bytes;
  (** The JSON of the tuple of method, scope, actor and reason. *)
  canonical_request : ChangeMethod → ChangeScope → bytes → option bytes → bytes;
}.

Definition receipt_agent_id (r : ChangeReceipt) : option bytes :=
  match scope r with ScopeAll => None | ScopeAgent id => Some id end.

(** ** The files *)

(** What [open_regular] answers, and [symlink_metadata]. *)
Inductive Opened (A : Type) := OpenNotFound | OpenFailed (e : bytes) | OpenOk (a : A).
Arguments OpenNotFound {A}.
Arguments OpenFailed {A} e.
Arguments OpenOk {A} a.
Inductive Meta := MetaNotFound | MetaFailed (e : bytes) | MetaOk.

(** An open state file: whether it is a regular file, and its bytes. *)
Record OpenFile := { is_file : result bool bytes; contents : result bytes bytes }.

(** The answers of the file system during one reading. *)
Record HomeView := {
  home_is_dir : result bool bytes;
  init_open : Opened unit;
  state_open : Opened OpenFile;
  state_meta : Meta;
  init_meta : Meta;
}.

Section gate.
Context `{AutonomyCrates}.

Definition invalid_receipt : bytes := b "invalid autonomy change receipt".

Definition timestamp_ok (t : bytes) : bool :=
  (length t <=? 64)%nat
  && match parse_rfc3339 t with
     | Some ns => (0 <=? ns / 1000000000) && (ns / 1000000000 <=? 253402300799)
     | None => false
     end.

Definition ChangeReceipt_validate (r : ChangeReceipt) : result unit bytes :=
  if negb (length (change_id r) =? 36)%nat || negb (is_uuid (change_id r))
     || match receipt_agent_id r with Some id => negb (is_valid_agent_id id) | None => false end
     || is_empty (actor r) || (256 <? length (actor r))%nat
     || existsb is_control (utf8_decode (actor r))
     || negb (length (request_digest r) =? 64)%nat
     || negb (forallb (λ c, ((48 <=? c) && (c <=? 57)) || ((97 <=? c) && (c <=? 102)))%N (request_digest r))
     || negb (timestamp_ok (applied_at r))
  then Err invalid_receipt else Ok tt.

(** ** Reading the state *)

(** The loop over the receipts, with the set of ids seen. *)
Fixpoint receipts_ok (seen : list bytes) (l : list ChangeReceipt) : result unit bytes :=
  match l with
  | [] => Ok tt
  | r :: rest =>
      match ChangeReceipt_validate r with
      | Err e => Err e
      | Ok _ =>
          if existsb (ustr_eqb (change_id r)) seen then Err (b "duplicate autonomy change receipt")
          else receipts_ok (change_id r :: seen) rest
      end
  end.

Definition entry_ok (e : PauseEntry) : bool :=
  negb (MAX_REASON_CHARS <? length (utf8_decode (reason e)))%nat && bool_decide (is_Some (parse_rfc3339 (at_ e))).

(** The checks of a parsed state; [digest] is of the bytes it came from. *)
Definition check_disk (digest : bytes) (d : DiskState) : result DiskState bytes :=
  if negb (version d =? 1) || negb (forallb is_valid_agent_id (map fst (map_to_list (disk_agents d)))) then
    Err (b "unsupported autonomy state (" ++ digest ++ b ")")
  else if (MAX_PENDING_CHANGE_RECEIPTS <? length (receipts d))%nat then Err (b "too many autonomy change receipts")
  else
    match receipts_ok [] (receipts d) with
    | Err e => Err e
    | Ok _ =>
        if forallb entry_ok (option_list (disk_global d) ++ map snd (map_to_list (disk_agents d))) then Ok d
        else Err (b "invalid autonomy entry (" ++ digest ++ b ")")
    end.

(** The reader stops one byte past the limit, so a longer file is refused
    whatever follows. *)
Definition read_bytes (bs : bytes) : result DiskState bytes :=
  if (MAX_STATE_BYTES <? N.of_nat (length bs))%N then Err (b "autonomy state exceeds size limit")
  else
    let digest := sha256_hex bs in
    match from_slice bs with
    | None => Err (b "invalid autonomy state (" ++ digest ++ b "), " ++ parse_error bs)
    | Some d => check_disk digest d
    end.

Definition read_state (v : HomeView) : result DiskState bytes :=
  match home_is_dir v with
  | Err e => Err e
  | Ok false => Err (b "autonomy home is not a directory")
  | Ok true =>
      match init_open v with
      | OpenFailed e => Err e
      | OpenOk _ | OpenNotFound =>
          match state_open v with
          | OpenFailed e => Err e
          | OpenNotFound =>
              match state_meta v with
              | MetaOk => Err (b "autonomy state is a dangling link")
              | MetaFailed e => Err e
              | MetaNotFound =>
                  match init_meta v with
                  | MetaNotFound => Ok DiskState_default
                  | MetaFailed e => Err e
                  | MetaOk => Err (b "initialized autonomy state is missing")
                  end
              end
          | OpenOk f =>
              match is_file f with
              | Err e => Err e
              | Ok false => Err (b "autonomy state is not a regular file")
              | Ok true =>
                  match contents f with
                  | Err e => Err e
                  | Ok bs => read_bytes bs
                  end
              end
          end
      end
  end.

Definition status (v : HomeView) : PauseState :=
  match read_state v with
  | Ok d => PauseState_of d
  | Err e => {| global := None; agents := ∅; state_error := Some e |}
  end.

(** ** Admission *)

Definition denied (p : AutonomyPath) (why : bytes) (e : option PauseEntry) (err : option bytes) : PauseInfo :=
  {| path := p; why := why; entry := e; info_state_error := err |}.

Definition check_state (s : PauseState) (p : AutonomyPath) : result unit PauseInfo :=
  match state_error s with
  | Some e => Err (denied p (b "state_unreadable") None (Some e))
  | None =>
      match global s with
      | Some e => Err (denied p (b "global_pause") (Some e) None)
      | None => Ok tt
      end
  end.

Definition check_global (v : HomeView) (p : AutonomyPath) : result unit PauseInfo := check_state (status v) p.

Inductive AgentStatus := Active | Paused | Terminated | Archived | Deleted.
Definition is_operational (s : AgentStatus) : bool := match s with Active => true | _ => false end.

(** Reading an agent's configuration: [None] when its text is no
    configuration with a status. *)
Inductive ConfigRead := ConfigMissing | ConfigUnreadable (e : bytes) | ConfigText (status : option AgentStatus).

Definition operational (c : ConfigRead) : result unit bytes :=
  match c with
  | ConfigMissing => Err (b "agent_missing")
  | ConfigUnreadable e => Err (b "agent_status_unreadable: " ++ e)
  | ConfigText None => Err (b "agent_status_unreadable: invalid agent config")
  | ConfigText (Some s) => if is_operational s then Ok tt else Err (b "agent_not_operational")
  end.

(** What the home says of the agents: the root of the ephemeral scaffolds; of
    an id, whether its directory lies inside the root and holds a
    configuration, the parent its sidecar names, the superior the organisation
    store names, its configuration, and the one resolved from a preset. *)
Record Roster := {
  eph_root : bool;
  eph_inside : bytes → bool;
  eph_has_config : bytes → bool;
  eph_parent : bytes → option bytes;
  org_reports_to : bytes → option bytes;
  agent_config : bytes → ConfigRead;
  resolved_meta : bytes → Meta;
  resolved_config : bytes → ConfigRead;
}.

Definition is_ephemeral (id : bytes) : bool := starts_with id (b "eph-").
Definition MAX_ANCESTRY : nat := 32.

Fixpoint ancestry (fuel : nat) (w : Roster) (current : bytes) (identities : list bytes) : option (list bytes) :=
  match fuel with
  | O => None
  | S fuel' =>
      if existsb (ustr_eqb current) identities then None
      else
        let identities := identities ++ [current] in
        if negb (is_ephemeral current) then Some identities
        else if negb (eph_inside w current && eph_has_config w current) then None
        else
          parent ← eph_parent w current;
          authority ← org_reports_to w current;
          if negb (is_valid_agent_id parent) || negb (ustr_eqb authority parent) then None
          else ancestry fuel' w parent identities
  end.

Definition effective_identities (w : Roster) (agent_id : bytes) (p : AutonomyPath) : result (list bytes) PauseInfo :=
  if negb (is_valid_agent_id agent_id) then Err (denied p (b "invalid_agent_id") None None)
  else if negb (is_ephemeral agent_id) then Ok [agent_id]
  else
    match (if eph_root w then ancestry MAX_ANCESTRY w agent_id [] else None) with
    | Some l => Ok l
    | None => Err (denied p (b "ephemeral_parent_invalid") None None)
    end.

Definition check_identity (w : Roster) (id : bytes) (p : AutonomyPath) (s : PauseState) : result unit PauseInfo :=
  match agents s !! id with
  | Some e => Err (denied p (b "agent_pause") (Some e) None)
  | None =>
      let failure r := Err (denied p r None None) in
      if is_ephemeral id && negb (eph_root w && eph_inside w id) then failure (b "ephemeral_parent_invalid")
      else
        match operational (agent_config w id) with
        | Err r => failure r
        | Ok _ =>
            match resolved_meta w id with
            | MetaOk => match operational (resolved_config w id) with Err r => failure r | Ok _ => Ok tt end
            | MetaNotFound => Ok tt
            | MetaFailed e => failure (b "agent_status_unreadable: " ++ e)
            end
        end
  end.

Fixpoint check_identities (w : Roster) (ids : list bytes) (p : AutonomyPath) (s : PauseState) : result unit PauseInfo :=
  match ids with
  | [] => Ok tt
  | id :: rest =>
      match check_identity w id p s with
      | Err e => Err e
      | Ok _ => check_identities w rest p s
      end
  end.

Definition check (v : HomeView) (w : Roster) (agent_id : bytes) (p : AutonomyPath) : result unit PauseInfo :=
  let s := status v in
  match check_state s p with
  | Err e => Err e
  | Ok _ =>
      match effective_identities w agent_id p with
      | Err e => Err e
      | Ok ids => check_identities w ids p s
      end
  end.

(** ** Lineages *)

(** An agent and the parents it acts for, up to an employee: the sidecar of
    every ephemeral agent and the organisation store name the same parent. *)
Inductive lineage (w : Roster) : bytes → list bytes → Prop :=
| lineage_employee a : is_ephemeral a = false → lineage w a [a]
| lineage_ephemeral a parent l :
    is_ephemeral a = true → eph_inside w a = true → eph_has_config w a = true →
    eph_parent w a = Some parent → org_reports_to w a = Some parent → is_valid_agent_id parent = true →
    lineage w parent l → lineage w a (a :: l).

Lemma existsb_ustr x l : existsb (ustr_eqb x) l = true ↔ x ∈ l.
Proof.
  rewrite existsb_exists, list_elem_of_In. split.
  - intros (y & Hy & E). by apply bool_decide_eq_true_1 in E as ->.
  - intros Hx. exists x. split; [done|by apply bool_decide_eq_true_2].
Qed.

Lemma ancestry_exact w : ∀ fuel a acc r,
  ancestry fuel w a acc = Some r
  ↔ ∃ l, lineage w a l ∧ r = acc ++ l ∧ (∀ x, x ∈ l → x ∉ acc) ∧ NoDup l ∧ (length l ≤ fuel)%nat.
Proof.
  induction fuel as [|fuel IH]; intros a acc r.
  { split; [done|]. intros (l & Hl & _ & _ & _ & Hlen). inversion Hl; subst; cbn in Hlen; lia. }
  cbn [ancestry]. destruct (existsb (ustr_eqb a) acc) eqn:Ea.
  { apply existsb_ustr in Ea. split; [done|]. intros (l & Hl & _ & Hd & _). exfalso.
    inversion Hl; subst; eapply Hd; try exact Ea; by left. }
  assert (a ∉ acc) as Hna by (rewrite <- existsb_ustr; by rewrite Ea). clear Ea. cbv zeta.
  destruct (is_ephemeral a) eqn:Ee; cbn [negb].
  2: { split.
       - intros [= <-]. exists [a]. split; [by constructor|]. split; [done|]. split.
         + intros x ->%list_elem_of_singleton. done.
         + split; [apply NoDup_singleton|cbn; lia].
       - intros (l & Hl & -> & _). inversion Hl; subst; [done|congruence]. }
  destruct (eph_inside w a && eph_has_config w a) eqn:Eh; cbn [negb]; reflect_bools.
  2: { split; [done|]. intros (l & Hl & _). inversion Hl; subst; [congruence|].
       match goal with H1 : eph_inside w a = true, H2 : eph_has_config w a = true |- _ => by rewrite H1, H2 in Eh end. }
  split.
  - destruct (eph_parent w a) as [parent|] eqn:Ep; [|done]. destruct (org_reports_to w a) as [authority|] eqn:Eo; [|done].
    cbn [mbind option_bind]. destruct (is_valid_agent_id parent) eqn:Ev; [|done]. cbn [negb orb].
    destruct (ustr_eqb authority parent) eqn:Eap; [|done]. reflect_bools. subst authority. cbn [negb].
    intros (l & Hl & -> & Hd & Hnd & Hlen)%IH. exists (a :: l). split; [by eapply lineage_ephemeral|].
    split; [by rewrite <- app_assoc|]. split; [|split; [apply NoDup_cons_2; [|done]|cbn; lia]].
    + intros x [-> |Hx]%elem_of_cons; [done|]. specialize (Hd x Hx). set_solver.
    + intros Ha. apply (Hd a Ha). set_solver.
  - intros (l & Hl & -> & Hd & Hnd & Hlen). inversion Hl as [|? parent l' _ Hi Hc Hp Ho Hv Hl']; subst; [congruence|].
    rewrite Hp, Ho. cbn [mbind option_bind]. rewrite Hv. unfold ustr_eqb. rewrite bool_decide_eq_true_2 by done. cbn [negb orb].
    apply list.NoDup_cons in Hnd as [Hal Hnd]. apply IH. exists l'. split; [done|]. split; [by rewrite <- app_assoc|].
    split; [|split; [done|cbn in Hlen; lia]]. intros x Hx [Hacc|Hxa]%elem_of_app; [by apply (Hd x); [right|]|].
    apply list_elem_of_singleton in Hxa as ->. done.
Qed.

(** The identities of an agent: its lineage, of at most 32 and none twice. *)
Definition identities_of (w : Roster) (a : bytes) (ids : list bytes) : Prop :=
  is_valid_agent_id a = true ∧ lineage w a ids ∧ NoDup ids ∧ (length ids ≤ MAX_ANCESTRY)%nat
  ∧ (is_ephemeral a = true → eph_root w = true).

Lemma identities_exact w a p ids : effective_identities w a p = Ok ids ↔ identities_of w a ids.
Proof.
  unfold effective_identities, identities_of. destruct (is_valid_agent_id a) eqn:Ev; cbn [negb].
  2: { split; [done|]. by intros (? & _). }
  destruct (is_ephemeral a) eqn:Ee; cbn [negb].
  - destruct (eph_root w) eqn:Er; [|split; [done|]; intros (_ & _ & _ & _ & Hr); by specialize (Hr eq_refl)].
    assert (∀ l, lineage w a l → NoDup l → (length l ≤ MAX_ANCESTRY)%nat → ancestry MAX_ANCESTRY w a [] = Some l) as Hback.
    { intros l Hl Hn Hlen. apply ancestry_exact. exists l. split; [done|]. split; [done|].
      split; [by intros ? _ ?%elem_of_nil|done]. }
    destruct (ancestry MAX_ANCESTRY w a []) as [l|] eqn:El.
    + apply ancestry_exact in El as (l' & Hl & -> & _ & Hn & Hlen). cbn [app]. split; [by intros [= <-]|].
      intros (_ & Hl2 & Hn2 & Hlen2 & _). f_equal. specialize (Hback ids Hl2 Hn2 Hlen2). by injection Hback as ->.
    + split; [done|]. intros (_ & Hl2 & Hn2 & Hlen2 & _). by specialize (Hback ids Hl2 Hn2 Hlen2).
  - split.
    + intros [= <-]. split; [done|]. split; [by constructor|]. split; [apply NoDup_singleton|]. split; [|done].
      unfold MAX_ANCESTRY. cbn. lia.
    + intros (_ & Hl & _). inversion Hl; subst; [done|congruence].
Qed.

(** ** What admission means *)

Definition active (c : ConfigRead) : Prop := c = ConfigText (Some Active).

(** An identity that may work: no pause of its own, and a lifecycle status
    that reads as active wherever one is kept. *)
Definition identity_fit (w : Roster) (paused : gmap bytes PauseEntry) (id : bytes) : Prop :=
  paused !! id = None ∧ (is_ephemeral id = true → eph_root w = true ∧ eph_inside w id = true)
  ∧ active (agent_config w id)
  ∧ (resolved_meta w id = MetaNotFound ∨ (resolved_meta w id = MetaOk ∧ active (resolved_config w id))).

Lemma operational_active c : operational c = Ok tt ↔ active c.
Proof. unfold active. destruct c as [| |[[]|]]; cbn; split; congruence. Qed.

Lemma check_identity_fit w id p s : check_identity w id p s = Ok tt ↔ identity_fit w (agents s) id.
Proof.
  unfold check_identity, identity_fit. destruct (agents s !! id); [split; [done|by intros [? _]]|]. cbv zeta.
  destruct (is_ephemeral id && negb (eph_root w && eph_inside w id)) eqn:Ee.
  { reflect_bools. split; [done|]. intros (_ & He & _).
    destruct He as [Hr Hi]; [done|]. rewrite Hr, Hi in *. done. }
  assert (is_ephemeral id = true → eph_root w = true ∧ eph_inside w id = true) as He.
  { intros Hid. rewrite Hid in Ee. cbn in Ee. reflect_bools. done. }
  pose proof (operational_active (agent_config w id)) as Ha. destruct (operational (agent_config w id)) as [[]|].
  2: { split; [done|]. intros (_ & _ & Hc & _). by apply Ha in Hc. }
  pose proof (operational_active (resolved_config w id)) as Hr.
  destruct (resolved_meta w id); [by rewrite <- Ha; naive_solver|naive_solver|].
  destruct (operational (resolved_config w id)) as [[]|]; naive_solver.
Qed.

Lemma check_identities_fit w ids p s :
  check_identities w ids p s = Ok tt ↔ Forall (identity_fit w (agents s)) ids.
Proof.
  induction ids as [|id ids IH]; cbn; [done|]. rewrite List.Forall_cons_iff, <- IH, <- check_identity_fit with (p := p).
  destruct (check_identity w id p s) as [[]|]; naive_solver.
Qed.

Lemma check_admits v w a p :
  check v w a p = Ok tt
  ↔ ∃ d ids, read_state v = Ok d ∧ disk_global d = None ∧ identities_of w a ids ∧ Forall (identity_fit w (disk_agents d)) ids.
Proof.
  unfold check, check_state, status. destruct (read_state v) as [d|e]; cbn.
  2: { split; [done|]. by intros (? & ? & ? & _). }
  destruct (disk_global d) eqn:Eg; [split; [done|]; intros (? & ? & [= <-] & ? & _); congruence|].
  pose proof (identities_exact w a p) as Hids. destruct (effective_identities w a p) as [ids|e].
  - rewrite check_identities_fit. cbn. split.
    + intros Hf. exists d, ids. by rewrite <- Hids.
    + intros (? & ids' & [= <-] & _ & Hi & Hf). apply Hids in Hi. by injection Hi as ->.
  - split; [done|]. intros (? & ids & _ & _ & Hi & _). by apply Hids in Hi.
Qed.

(** C13 Autonomous work is admitted exactly when the pause state can be read
    and valid, nobody paused everyone, the agent's lineage resolves (every
    ephemeral agent to the parent that its sidecar and the organisation store
    both name, at most 32 of them and none twice), and none of the lineage is
    paused or anything but active. *)
Theorem admission_exact (v : HomeView) (w : Roster) (a : bytes) (p : AutonomyPath) :
  check v w a p = Ok tt
  ↔ ∃ d ids, read_state v = Ok d ∧ disk_global d = None ∧ identities_of w a ids ∧ Forall (identity_fit w (disk_agents d)) ids.
Proof. apply check_admits. Qed.
End gate.
