(* ===== verification/AutonomyChange.v ===== *)
(** * Changes of the autonomy state and the leases of admitted work
    (crates/duduclaw-core/src/autonomy_gate.rs)

    A change reads the state, applies itself and replaces the file, holding an
    exclusive lease; admitted work holds a shared one.  The theorems say what a
    reported outcome means for the file, that changes keep the state readable
    and never lose an open receipt, and that no pause commits under admitted
    work. *)

From S2P Require Import Prelude.
From S2P Require Import Bytes.
From S2P Require Import StateFile.
From S2P Require Import Autonomy.

Inductive MutationOutcome :=
| NotApplied (e : bytes)
| Applied (s : PauseState)
| AppliedButDurabilityUnknown (s : PauseState) (e : bytes).

Definition into_applied_result (o : MutationOutcome) : result PauseState bytes :=
  match o with
  | NotApplied e => Err e
  | Applied s | AppliedButDurabilityUnknown s _ => Ok s
  end.

(** What goes wrong in one write: an error, or [None], for each call. *)
Record Writing := {
  lease_fails : option bytes;
  marker_open_fails : option bytes;
  marker_sync_fails : option bytes;
  temp_open_fails : option bytes;
  write_or_sync_fails : option bytes;
  rename_fails : option bytes;
  home_sync_fails : option bytes;
}.
Definition no_fault : Writing :=
  {| lease_fails := None; marker_open_fails := None; marker_sync_fails := None; temp_open_fails := None;
     write_or_sync_fails := None; rename_fails := None; home_sync_fails := None |}.

Section change.
Context `{AutonomyCrates}.

(** ** Receipts *)

Definition request_scope (agent : option bytes) : ChangeScope :=
  match agent with None => ScopeAll | Some id => ScopeAgent id end.
Definition request_method (entry : option PauseEntry) : ChangeMethod :=
  match entry with Some _ => MethodPause | None => MethodResume end.

(** [fresh] is the new uuid, [now] the clock as text. *)
Definition ChangeReceipt_new (agent : option bytes) (entry : option PauseEntry) (who_ : bytes) (fresh now : bytes)
  : result ChangeReceipt bytes :=
  let m := request_method entry in
  let sc := request_scope agent in
  let r := {| change_id := fresh; method := m; scope := sc; actor := who_;
              request_digest := sha256_hex (canonical_request m sc who_ (reason <$> entry));
              applied_at := now; completion_recorded := false |} in
  match ChangeReceipt_validate r with Err e => Err e | Ok _ => Ok r end.

#[global] Instance ChangeMethod_eq_dec : EqDecision ChangeMethod.
Proof. solve_decision. Defined.
#[global] Instance ChangeScope_eq_dec : EqDecision ChangeScope.
Proof. solve_decision. Defined.

(** [Option<DateTime>] in [min_by_key]: [None] is least. *)
Definition earlier (x y : option Z) : bool :=
  match x, y with
  | _, None => false
  | None, Some _ => true
  | Some m, Some n => m <? n
  end.

(** The first of the completed receipts with the least time, by index. *)
Fixpoint oldest_completed (i : nat) (best : option (nat * option Z)) (l : list ChangeReceipt) : option nat :=
  match l with
  | [] => fst <$> best
  | r :: rest =>
      let best :=
        if completion_recorded r then
          match best with
          | None => Some (i, parse_rfc3339 (applied_at r))
          | Some (_, t) => if earlier (parse_rfc3339 (applied_at r)) t then Some (i, parse_rfc3339 (applied_at r)) else best
          end
        else best in
      oldest_completed (S i) best rest
  end.

Definition with_applied_at (now : bytes) (r : ChangeReceipt) : ChangeReceipt :=
  {| change_id := change_id r; method := method r; scope := scope r; actor := actor r;
     request_digest := request_digest r; applied_at := now; completion_recorded := completion_recorded r |}.
Definition with_receipts (l : list ChangeReceipt) (d : DiskState) : DiskState :=
  {| version := version d; receipts := l; disk_global := disk_global d; disk_agents := disk_agents d |}.

Definition record_receipt (d : DiskState) (agent : option bytes) (entry : option PauseEntry) (r : ChangeReceipt)
    (fresh now : bytes) : result DiskState bytes :=
  match ChangeReceipt_validate r with
  | Err e => Err e
  | Ok _ =>
      match ChangeReceipt_new agent entry (actor r) fresh now with
      | Err e => Err e
      | Ok expected =>
          if completion_recorded r || negb (bool_decide (method r = method expected))
             || negb (bool_decide (scope r = scope expected)) || negb (ustr_eqb (request_digest r) (request_digest expected))
             || match entry with Some e => negb (ustr_eqb (who e) (actor r)) | None => false end
             || existsb (ustr_eqb (change_id r)) (map change_id (receipts d))
          then Err (b "inconsistent autonomy change receipt")
          else
            let kept :=
              if (MAX_PENDING_CHANGE_RECEIPTS <=? length (receipts d))%nat then
                match oldest_completed 0 None (receipts d) with
                | Some i => Ok (delete i (receipts d))
                | None => Err (b "autonomy completion receipts require reconciliation")
                end
              else Ok (receipts d) in
            match kept with
            | Err e => Err e
            | Ok l => Ok (with_receipts (l ++ [with_applied_at now r]) d)
            end
      end
  end.

Definition apply_change (agent : option bytes) (entry : option PauseEntry) (d : DiskState) : DiskState :=
  match agent with
  | Some id =>
      {| version := version d; receipts := receipts d; disk_global := disk_global d;
         disk_agents := match entry with Some e => <[id := e]> (disk_agents d) | None => delete id (disk_agents d) end |}
  | None => {| version := version d; receipts := receipts d; disk_global := entry; disk_agents := disk_agents d |}
  end.

(** ** Writing *)

(** The marker exists from the moment it is opened. *)
Definition marked (v : HomeView) : HomeView :=
  {| home_is_dir := home_is_dir v; init_open := OpenOk tt; state_open := state_open v; state_meta := state_meta v;
     init_meta := MetaOk |}.
Definition replaced (bs : bytes) (v : HomeView) : HomeView :=
  {| home_is_dir := home_is_dir v; init_open := init_open v;
     state_open := OpenOk {| is_file := Ok true; contents := Ok bs |}; state_meta := MetaOk; init_meta := init_meta v |}.

(** [sync_and_read_state]. *)
Definition sync_and_read_state (F : Writing) (v : HomeView) : result unit bytes :=
  match home_sync_fails F with
  | Some e => Err e
  | None => match read_state v with Ok _ => Ok tt | Err e => Err e end
  end.

(** The result, whether the rename was done, and the files after it. *)
Definition write_state (d : DiskState) (F : Writing) (v : HomeView) : result unit bytes * bool * HomeView :=
  match to_vec d with
  | None => (Err (b "serialization failed"), false, v)
  | Some bs =>
      if (MAX_STATE_BYTES <? N.of_nat (length bs))%N then (Err (b "autonomy state exceeds size limit"), false, v)
      else
        match marker_open_fails F with
        | Some e => (Err e, false, v)
        | None =>
            let v := marked v in
            match marker_sync_fails F, temp_open_fails F, write_or_sync_fails F, rename_fails F with
            | Some e, _, _, _ | None, Some e, _, _ | None, None, Some e, _ | None, None, None, Some e => (Err e, false, v)
            | None, None, None, None =>
                let v := replaced bs v in (sync_and_read_state F v, true, v)
            end
        end
  end.

Definition mutate_with_receipt (v : HomeView) (agent : option bytes) (entry : option PauseEntry)
    (receipt : option ChangeReceipt) (F : Writing) (fresh now : bytes) : MutationOutcome * HomeView :=
  if match agent with Some id => negb (is_valid_agent_id id) | None => false end then (NotApplied (b "invalid agent id"), v)
  else
    match lease_fails F with
    | Some e => (NotApplied e, v)
    | None =>
        match read_state v with
        | Err e => (NotApplied e, v)
        | Ok d =>
            match (match receipt with Some r => record_receipt d agent entry r fresh now | None => Ok d end) with
            | Err e => (NotApplied e, v)
            | Ok d =>
                let d := apply_change agent entry d in
                let '(res, landed, v) := write_state d F v in
                (match res, landed with
                 | Ok _, true => Applied (PauseState_of d)
                 | Err e, true => AppliedButDurabilityUnknown (PauseState_of d) e
                 | Err e, false => NotApplied e
                 | Ok _, false => NotApplied (b "autonomy state was not committed")
                 end, v)
            end
        end
    end.

Definition set_pause (v : HomeView) (agent : option bytes) (reason_ who_ : bytes) (F : Writing) (fresh now : bytes)
  : result PauseState bytes * HomeView :=
  let e := {| reason := utf8_encode (take MAX_REASON_CHARS (utf8_decode reason_)); who := who_; at_ := now |} in
  let '(o, v) := mutate_with_receipt v agent (Some e) None F fresh now in (into_applied_result o, v).
Definition resume (v : HomeView) (agent : option bytes) (F : Writing) (fresh now : bytes) : result PauseState bytes * HomeView :=
  let '(o, v) := mutate_with_receipt v agent None None F fresh now in (into_applied_result o, v).

Definition change_receipts (v : HomeView) : result (list ChangeReceipt) bytes :=
  match read_state v with Ok d => Ok (receipts d) | Err e => Err e end.

Definition with_completion (c : bool) (r : ChangeReceipt) : ChangeReceipt :=
  {| change_id := change_id r; method := method r; scope := scope r; actor := actor r;
     request_digest := request_digest r; applied_at := applied_at r; completion_recorded := c |}.

(** The faults [F] of the first write and [G] of the restoring one. *)
Definition mark_completion_recorded (v : HomeView) (id : bytes) (F G : Writing) : result unit bytes * HomeView :=
  match lease_fails F with
  | Some e => (Err e, v)
  | None =>
      match read_state v with
      | Err e => (Err e, v)
      | Ok d =>
          match list_find (λ r, ustr_eqb (change_id r) id) (receipts d) with
          | None => (Err (b "autonomy change receipt missing"), v)
          | Some (i, r) =>
              if completion_recorded r then (Ok tt, v)
              else
                let '(res, renamed, v) := write_state (with_receipts (<[i := with_completion true r]> (receipts d)) d) F v in
                match res with
                | Ok _ => (Ok tt, v)
                | Err e =>
                    if renamed then
                      let '(back, _, v) := write_state (with_receipts (<[i := with_completion false r]> (receipts d)) d) G v in
                      match back with
                      | Ok _ => (Err e, v)
                      | Err _ => (Err (b "autonomy completion durability unknown; pending restore failed"), v)
                      end
                    else (Err e, v)
                end
          end
      end
  end.

(** ** Readable states *)

(** What the reader asks of a parsed state. *)
Record disk_ok (d : DiskState) : Prop := {
  ok_version : version d = 1;
  ok_agents id e : disk_agents d !! id = Some e → is_valid_agent_id id = true ∧ entry_ok e = true;
  ok_global e : disk_global d = Some e → entry_ok e = true;
  ok_count : (length (receipts d) ≤ MAX_PENDING_CHANGE_RECEIPTS)%nat;
  ok_receipts : Forall (λ r, ChangeReceipt_validate r = Ok tt) (receipts d);
  ok_ids : NoDup (map change_id (receipts d));
}.

Lemma receipts_ok_spec l : ∀ seen,
  receipts_ok seen l = Ok tt
  ↔ Forall (λ r, ChangeReceipt_validate r = Ok tt) l ∧ NoDup (map change_id l) ∧ ∀ r, r ∈ l → change_id r ∉ seen.
Proof.
  induction l as [|r l IH]; intros seen; cbn [receipts_ok map].
  { split; [|done]. intros _. split; [done|]. split; [apply NoDup_nil_2|by intros ? ?%elem_of_nil]. }
  rewrite List.Forall_cons_iff. destruct (ChangeReceipt_validate r) as [[]|]; [|naive_solver].
  destruct (existsb (ustr_eqb (change_id r)) seen) eqn:Es.
  { split; [done|]. intros (_ & _ & Hs). exfalso. apply (Hs r); [by left|]. by apply existsb_ustr. }
  assert (change_id r ∉ seen) as Hr by (rewrite <- existsb_ustr; by rewrite Es).
  rewrite IH, list.NoDup_cons. split.
  - intros (Hv & Hn & Hs). split; [done|]. split; [split; [|done]|].
    + intros (r' & E & Hin)%list_elem_of_fmap. apply (Hs r' Hin). rewrite E. by left.
    + intros r' [-> |Hin]%elem_of_cons; [done|]. specialize (Hs r' Hin). set_solver.
  - intros ([_ Hv] & [Hnr Hn] & Hs). split; [done|]. split; [done|]. intros r' Hin [E|Hseen]%elem_of_cons.
    + apply Hnr. apply list_elem_of_fmap. exists r'. split; [by symmetry|done].
    + apply (Hs r'); [by right|done].
Qed.

Lemma check_disk_spec g d d' : check_disk g d = Ok d' ↔ d' = d ∧ disk_ok d.
Proof.
  unfold check_disk.
  assert (forallb is_valid_agent_id (map fst (map_to_list (disk_agents d))) = true
          ↔ ∀ id e, disk_agents d !! id = Some e → is_valid_agent_id id = true) as Hk.
  { rewrite forallb_forall. split.
    - intros Hf id e He. apply Hf, in_map_iff. exists (id, e). split; [done|]. by apply list_elem_of_In, elem_of_map_to_list.
    - intros Hf id (x & <- & Hx)%in_map_iff. destruct x as [id e]. eapply Hf. by apply elem_of_map_to_list, list_elem_of_In. }
  assert (forallb entry_ok (option_list (disk_global d) ++ map snd (map_to_list (disk_agents d))) = true
          ↔ (∀ e, disk_global d = Some e → entry_ok e = true) ∧ ∀ id e, disk_agents d !! id = Some e → entry_ok e = true) as He.
  { rewrite forallb_app, andb_true_iff. f_equiv.
    - destruct (disk_global d) as [e|]; cbn; [rewrite andb_true_r|]; split; try done; [by intros ? ? [= <-]|auto].
    - rewrite forallb_forall. split.
      + intros Hf id e Hin. apply Hf, in_map_iff. exists (id, e). split; [done|]. by apply list_elem_of_In, elem_of_map_to_list.
      + intros Hf e (x & <- & Hx)%in_map_iff. destruct x as [id e]. eapply Hf. by apply elem_of_map_to_list, list_elem_of_In. }
  destruct (negb (version d =? 1) || negb (forallb is_valid_agent_id (map fst (map_to_list (disk_agents d))))) eqn:E1.
  { split; [done|]. intros [_ [H1 H2 _ _ _ _]]. rewrite H1 in E1. cbn in E1. apply negb_true_iff in E1.
    rewrite (proj2 Hk) in E1; [done|]. intros id e Hin. by apply H2 in Hin as [? _]. }
  reflect_bools. destruct (_ <? _)%nat eqn:E2; reflect_bools.
  { split; [done|]. intros [_ [_ _ _ Hc _ _]]. lia. }
  destruct (receipts_ok [] (receipts d)) as [[]|] eqn:E3.
  2: { split; [done|]. intros [_ [_ _ _ _ Hv Hn]]. rewrite (proj2 (receipts_ok_spec _ _)) in E3; [done|].
       split; [done|]. split; [done|]. by intros ? _ ?%elem_of_nil. }
  apply receipts_ok_spec in E3 as (Hv & Hn & _).
  destruct (forallb entry_ok _) eqn:E4.
  - destruct (proj1 He eq_refl) as [Eg Ea]. split; [|by intros [-> _]]. intros [= ->]. split; [done|]. split; try done.
    intros id e Hin. split; [by eapply Hk|by eapply Ea].
  - split; [done|]. intros [_ [_ H2 H3 _ _ _]]. assert (false = true) as []%diff_false_true. apply He.
    split; [done|]. intros id e Hin. by apply H2 in Hin as [_ ?].
Qed.

Lemma read_state_ok v d : read_state v = Ok d → disk_ok d.
Proof.
  assert (disk_ok DiskState_default) as Hdef.
  { split; cbn; [done|by intros id e; rewrite lookup_empty|done|unfold MAX_PENDING_CHANGE_RECEIPTS; lia|apply List.Forall_nil|apply NoDup_nil_2]. }
  unfold read_state, read_bytes. intros Hr. repeat (case_match; try discriminate Hr).
  all: first [by injection Hr as <-|by apply check_disk_spec in Hr as [-> ?]].
Qed.

(** ** Receipts kept *)

Lemma oldest_completed_spec l : ∀ pre i best k,
  i = length pre → (∀ j t, best = Some (j, t) → ∃ r, (pre ++ l) !! j = Some r ∧ completion_recorded r = true) →
  oldest_completed i best l = Some k → ∃ r, (pre ++ l) !! k = Some r ∧ completion_recorded r = true.
Proof.
  induction l as [|r l IH]; intros pre i best k Hi Hb; cbn [oldest_completed].
  - destruct best as [[j t]|]; [|done]. cbn. intros [= <-]. by eapply Hb.
  - intros Hk. apply (IH (pre ++ [r]) (S i) _ k) in Hk; [by rewrite <- app_assoc in Hk|rewrite length_app; cbn; lia|].
    rewrite <- app_assoc. cbn [app]. destruct (completion_recorded r) eqn:Ec; [|done].
    assert (∃ r', (pre ++ r :: l) !! i = Some r' ∧ completion_recorded r' = true) as Hhere.
    { exists r. subst i. by rewrite lookup_app_r, Nat.sub_diag. }
    destruct best as [[j t]|]; [|by intros ? ? [= <- <-]].
    destruct (earlier _ _); [by intros ? ? [= <- <-]|done].
Qed.

(** A recorded receipt joins the others, of which at most one, a completed
    one, makes room. *)
Lemma record_receipt_spec d agent entry r fresh now d' :
  record_receipt d agent entry r fresh now = Ok d' →
  ChangeReceipt_validate r = Ok tt ∧ change_id r ∉ map change_id (receipts d)
  ∧ ∃ l, d' = with_receipts (l ++ [with_applied_at now r]) d
      ∧ (l = receipts d ∧ (length l < MAX_PENDING_CHANGE_RECEIPTS)%nat
         ∨ ∃ i old, receipts d !! i = Some old ∧ completion_recorded old = true ∧ l = delete i (receipts d)
             ∧ (MAX_PENDING_CHANGE_RECEIPTS ≤ length (receipts d))%nat).
Proof.
  unfold record_receipt. destruct (ChangeReceipt_validate r) as [[]|] eqn:Ev; [|done].
  destruct (ChangeReceipt_new agent entry (actor r) fresh now) as [ex|]; [|done].
  destruct (_ || existsb _ _) eqn:Ec; [done|]. apply orb_false_iff in Ec as [_ Ec].
  assert (change_id r ∉ map change_id (receipts d)) as Hn by (rewrite <- existsb_ustr; by rewrite Ec).
  destruct (_ <=? _)%nat eqn:El; reflect_bools.
  - destruct (oldest_completed 0 None (receipts d)) as [i|] eqn:Eo; [|done]. intros [= <-].
    destruct (oldest_completed_spec (receipts d) [] 0 None i) as (old & Ho & Hc); [done|done|done|]. cbn [app] in Ho.
    do 2 (split; [done|]). eexists. split; [done|]. right. by exists i, old.
  - intros [= <-]. do 2 (split; [done|]). eexists. split; [done|]. left. done.
Qed.

Definition pending_kept (d d' : DiskState) : Prop :=
  ∀ r, r ∈ receipts d → completion_recorded r = false → r ∈ receipts d'.

Lemma record_receipt_keeps d agent entry r fresh now d' :
  record_receipt d agent entry r fresh now = Ok d' → pending_kept d d'.
Proof.
  intros (_ & _ & l & -> & Hl)%record_receipt_spec x Hx Hc. cbn. apply elem_of_app. left.
  destruct Hl as [[-> _]|(i & old & Ho & Hco & -> & _)]; [done|].
  apply list_elem_of_lookup in Hx as [j Hj]. assert (j ≠ i) by congruence. apply list_elem_of_lookup.
  destruct (decide (j < i)%nat); [exists j; by rewrite list_lookup_delete_lt|].
  exists (pred j). rewrite list_lookup_delete_ge by lia. by replace (S (pred j)) with j by lia.
Qed.

Lemma with_applied_at_valid now r :
  ChangeReceipt_validate r = Ok tt → timestamp_ok now = true → ChangeReceipt_validate (with_applied_at now r) = Ok tt.
Proof.
  unfold ChangeReceipt_validate. destruct (_ || _) eqn:E; [done|]. intros _ Ht.
  apply orb_false_iff in E as [E _]. cbn [change_id actor request_digest applied_at with_applied_at].
  change (receipt_agent_id (with_applied_at now r)) with (receipt_agent_id r). by rewrite E, Ht.
Qed.

Lemma record_receipt_ok d agent entry r fresh now d' :
  disk_ok d → timestamp_ok now = true → record_receipt d agent entry r fresh now = Ok d' → disk_ok d'.
Proof.
  intros [H1 H2 H3 H4 H5 H6] Ht (Hv & Hn & l & -> & Hl)%record_receipt_spec.
  assert (Forall (λ r, ChangeReceipt_validate r = Ok tt) l ∧ NoDup (map change_id l)
          ∧ change_id r ∉ map change_id l ∧ (length l < MAX_PENDING_CHANGE_RECEIPTS)%nat) as (L1 & L2 & L3 & L4).
  { destruct Hl as [[-> Hlen]|(i & old & Ho & _ & -> & Hlen)]; [done|].
    pose proof (sublist_delete (receipts d) i) as Hs.
    assert (sublist (map change_id (delete i (receipts d))) (map change_id (receipts d))) as Hm by (by apply fmap_sublist).
    split; [by apply Forall_delete|]. split; [by eapply sublist_NoDup|].
    split; [intros Hin; apply Hn; by eapply elem_of_sublist|].
    rewrite length_delete by eauto. apply lookup_lt_Some in Ho. lia. }
  split; cbn; try done.
  - rewrite length_app. cbn. lia.
  - apply Forall_app. split; [done|]. apply List.Forall_cons; [|done]. by apply with_applied_at_valid.
  - rewrite map_app. apply list.NoDup_app. split; [done|]. cbn. split; [|apply NoDup_singleton].
    by intros x Hx ->%list_elem_of_singleton.
Qed.

Lemma apply_change_ok d agent entry :
  disk_ok d → (∀ id, agent = Some id → is_valid_agent_id id = true) → (∀ e, entry = Some e → entry_ok e = true) →
  disk_ok (apply_change agent entry d).
Proof.
  intros [H1 H2 H3 H4 H5 H6] Ha He. destruct agent as [id|]; split; cbn; try done.
  - intros id' e Hin. destruct entry as [e'|].
    + apply lookup_insert_Some in Hin as [[<- <-]|[_ Hin]]; [by auto|by eapply H2].
    + apply lookup_delete_Some in Hin as [_ Hin]. by eapply H2.
Qed.

(** ** Outcomes *)

Lemma write_state_spec d F v :
  match write_state d F v with
  | (_, false, v') => state_open v' = state_open v
  | (res, true, v') =>
      ∃ bs, to_vec d = Some bs ∧ (N.of_nat (length bs) <= MAX_STATE_BYTES)%N ∧ v' = replaced bs (marked v)
        ∧ (∀ e, res = Err e → home_sync_fails F = Some e ∨ read_state v' = Err e)
  end ∧ ∀ u, (write_state d F v).1.1 = Ok u → (write_state d F v).1.2 = true.
Proof.
  unfold write_state. destruct (to_vec d) as [bs|]; [|done]. destruct (_ <? _)%N eqn:E; [done|]. apply N.ltb_ge in E.
  destruct (marker_open_fails F); [done|]. cbv zeta.
  destruct (marker_sync_fails F), (temp_open_fails F), (write_or_sync_fails F), (rename_fails F); try done.
  split; [|done]. exists bs. do 3 (split; [done|]). unfold sync_and_read_state. intros e.
  destruct (home_sync_fails F); [intros [= ->]; by left|]. destruct (read_state _); [done|]. intros [= ->]. by right.
Qed.

Lemma read_replaced v d d' bs :
  read_state v = Ok d → to_vec d' = Some bs → (N.of_nat (length bs) <= MAX_STATE_BYTES)%N → disk_ok d' →
  read_state (replaced bs (marked v)) = Ok d'.
Proof.
  intros Hr Hb Hl Hok. assert (home_is_dir v = Ok true) as Hd.
  { unfold read_state in Hr. by destruct (home_is_dir v) as [[]|]. }
  unfold read_state, replaced, marked. cbn. rewrite Hd. unfold read_bytes. rewrite (proj2 (N.ltb_ge _ _)) by done.
  rewrite (codec_roundtrip _ _ Hb). by apply check_disk_spec.
Qed.

(** The agents and the global pause after a change of a scope. *)
Definition changed (agent : option bytes) (entry : option PauseEntry) (d d' : DiskState) : Prop :=
  match agent with
  | None => disk_global d' = entry ∧ disk_agents d' = disk_agents d
  | Some id =>
      disk_global d' = disk_global d ∧ disk_agents d' !! id = entry
      ∧ ∀ id', id' ≠ id → disk_agents d' !! id' = disk_agents d !! id'
  end.

(** The hypotheses of a change: the clock and the entry are ones the reader
    accepts. *)
Definition acceptable (entry : option PauseEntry) (now : bytes) : Prop :=
  timestamp_ok now = true ∧ ∀ e, entry = Some e → entry_ok e = true.

Lemma mutate_outcome v agent entry receipt F fresh now :
  acceptable entry now →
  let '(o, v') := mutate_with_receipt v agent entry receipt F fresh now in
  match o with
  | NotApplied _ => state_open v' = state_open v
  | Applied s | AppliedButDurabilityUnknown s _ =>
      ∃ d d', read_state v = Ok d ∧ read_state v' = Ok d' ∧ s = PauseState_of d' ∧ changed agent entry d d' ∧ pending_kept d d'
  end.
Proof.
  intros [Ht He]. unfold mutate_with_receipt.
  destruct (match agent with Some id => negb (is_valid_agent_id id) | None => false end) eqn:Ea; [done|].
  assert (∀ id, agent = Some id → is_valid_agent_id id = true) as Hagent.
  { intros id ->. by apply negb_false_iff in Ea. }
  destruct (lease_fails F); [done|]. destruct (read_state v) as [d|] eqn:Er; [|done]. pose proof (read_state_ok _ _ Er) as Hok.
  destruct (match receipt with Some r => _ | None => Ok d end) as [d1|] eqn:E1; [|done].
  assert (disk_ok d1 ∧ pending_kept d d1 ∧ disk_global d1 = disk_global d ∧ disk_agents d1 = disk_agents d) as (Hok1 & Hk & Hg & Hag).
  { destruct receipt as [r|]; [|injection E1 as <-; split; [done|split; [by intros r|by split]]].
    split; [by eapply record_receipt_ok|]. split; [by eapply record_receipt_keeps|].
    by apply record_receipt_spec in E1 as (_ & _ & l & -> & _). }
  pose proof (apply_change_ok d1 agent entry Hok1 Hagent He) as Hok2.
  pose proof (write_state_spec (apply_change agent entry d1) F v) as [Hw Hw2]. cbv zeta.
  destruct (write_state _ F v) as [[res landed] v']. cbn [fst snd] in Hw2.
  assert (changed agent entry d (apply_change agent entry d1)) as Hch.
  { destruct agent as [id|]; cbn; rewrite ?Hg, ?Hag; [|done]. split; [done|].
    destruct entry; (split; [by rewrite ?lookup_insert_eq, ?lookup_delete_eq|]); intros; by rewrite ?lookup_insert_ne, ?lookup_delete_ne. }
  assert (pending_kept d (apply_change agent entry d1)) as Hk2.
  { intros r Hr Hc. specialize (Hk r Hr Hc). by destruct agent. }
  destruct landed; [|by destruct res]. destruct Hw as (bs & Hb & Hl & -> & _).
  pose proof (read_replaced v d _ bs Er Hb Hl Hok2) as Hnew. destruct res; by exists d, (apply_change agent entry d1).
Qed.

(** C27 What a change reports is what the state file holds: a change reported
    as not applied left the state file as it was, and one reported as applied,
    even when its durability is unknown, is what the next reading finds,
    changed in its scope and nowhere else, with every receipt that was still
    open. *)
Theorem reported_changes_hold v agent entry receipt F fresh now :
  acceptable entry now →
  let '(o, v') := mutate_with_receipt v agent entry receipt F fresh now in
  match o with
  | NotApplied _ => state_open v' = state_open v
  | Applied s | AppliedButDurabilityUnknown s _ =>
      ∃ d d', read_state v = Ok d ∧ read_state v' = Ok d' ∧ s = PauseState_of d' ∧ changed agent entry d d' ∧ pending_kept d d'
  end.
Proof. apply mutate_outcome. Qed.

(** C28 A pause that was reported as applied is in force: until the next change
    every check of an agent it covers, itself or through an ephemeral agent
    whose lineage it stands in, is refused, and a pause of everyone refuses every
    agent and the work that belongs to no agent. *)
Theorem pauses_hold v agent e receipt F fresh now s v' w a p :
  acceptable (Some e) now →
  mutate_with_receipt v agent (Some e) receipt F fresh now = (s, v') → (∃ st, into_applied_result s = Ok st) →
  match agent with
  | None => True
  | Some id => ∃ ids, identities_of w a ids ∧ id ∈ ids
  end →
  (∃ i, check v' w a p = Err i) ∧ (agent = None → ∃ i, check_global v' p = Err i).
Proof.
  intros Hacc Hm [st Hs] Hcov. pose proof (mutate_outcome v agent (Some e) receipt F fresh now Hacc) as Ho. rewrite Hm in Ho.
  assert (∃ d d', read_state v = Ok d ∧ read_state v' = Ok d' ∧ changed agent (Some e) d d') as (d & d' & _ & Hr & Hch).
  { destruct s; [done|..]; destruct Ho as (d & d' & ? & ? & _ & ? & _); by exists d, d'. }
  split.
  2: { intros ->. destruct Hch as [Hg _]. unfold check_global, check_state, status. rewrite Hr. cbn. rewrite Hg. by eexists. }
  destruct (check v' w a p) as [[]|i] eqn:Ec; [|by exists i]. exfalso.
  apply check_admits in Ec as (d2 & ids & Hr2 & Hg & Hi & Hf). rewrite Hr in Hr2. injection Hr2 as <-.
  destruct agent as [id|]; cbn in Hch; [|destruct Hch; congruence].
  destruct Hcov as (ids' & Hi' & Hin). apply (identities_exact w a p) in Hi, Hi'. rewrite Hi in Hi'. injection Hi' as <-.
  rewrite List.Forall_forall in Hf. apply list_elem_of_In, Hf in Hin as [Hn _]. destruct Hch as (_ & Hc & _). congruence.
Qed.
End change.
