(* ===== verification/AutonomyLease.v ===== *)
(** * Leases of admitted autonomous work ([lock_admission], [admit_scope] and
    the leases that changes hold, of crates/duduclaw-core/src/autonomy_gate.rs)

    Admission and change of the autonomy state exclude each other through one
    file lock, held shared by admitted work until its hand-over and exclusively
    by a change.  The steps of all processes interleave; the theorem says that
    a pause never commits while work that it covers is admitted. *)

From stdpp Require Import countable.
From S2P Require Import Prelude.
From S2P Require Import Bytes.
From S2P Require Import StateFile.
From S2P Require Import Autonomy.
From S2P Require Import AutonomyChange.

(** Who holds the lock: work of an agent or of the system ([None]), with the
    identities it was admitted for once it was checked; or a change. *)
Inductive Lease := Shared (agent : option bytes) (admitted : option (list bytes)) | Exclusive.

Section lease.
Context `{AutonomyCrates}.

(** The state file, what the home says of the agents, and the leases. *)
Record System := { files : HomeView; roster : Roster; leases : gmap nat Lease }.

Definition with_leases (l : gmap nat Lease) (s : System) : System :=
  {| files := files s; roster := roster s; leases := l |}.

(** [lock_admission] as far as the lock itself decides. *)
Definition may_share (l : gmap nat Lease) : Prop := ∀ i, l !! i ≠ Some Exclusive.

(** The checks of [admit_scope_blocking] under the lease. *)
Definition admit_scope (s : System) (agent : option bytes) (p : AutonomyPath) : result unit PauseInfo :=
  match agent with
  | Some a => check (files s) (roster s) a p
  | None => check_global (files s) p
  end.

Inductive lease_step (s : System) : System → Prop :=
| take_shared i agent :
    leases s !! i = None → may_share (leases s) → lease_step s (with_leases (<[i := Shared agent None]> (leases s)) s)
| admit_work i agent p :
    leases s !! i = Some (Shared agent None) → admit_scope s agent p = Ok tt →
    lease_step s
      (with_leases
         (<[i := Shared agent (Some match agent with
                                    | Some a => match effective_identities (roster s) a p with Ok ids => ids | Err _ => [] end
                                    | None => []
                                    end)]> (leases s)) s)
| take_exclusive i : leases s = ∅ → lease_step s (with_leases {[i := Exclusive]} s)
| change i agent entry receipt F fresh now :
    leases s !! i = Some Exclusive →
    lease_step s {| files := (mutate_with_receipt (files s) agent entry receipt F fresh now).2; roster := roster s; leases := leases s |}
| complete i id F G :
    leases s !! i = Some Exclusive →
    lease_step s {| files := (mark_completion_recorded (files s) id F G).2; roster := roster s; leases := leases s |}
(** A guard is dropped: after a refusal, a hand-over, a change or a crash. *)
| release i : lease_step s (with_leases (delete i (leases s)) s)
(** Lifecycle files may change at any time. *)
| agents_change r : lease_step s {| files := files s; roster := r; leases := leases s |}.

Inductive reachable (start : HomeView) (r : Roster) : System → Prop :=
| reachable_start : reachable start r {| files := start; roster := r; leases := ∅ |}
| reachable_step s s' : reachable start r s → lease_step s s' → reachable start r s'.

(** No pause covers the identities. *)
Definition unpaused (v : HomeView) (ids : list bytes) : Prop :=
  ∃ d, read_state v = Ok d ∧ disk_global d = None ∧ ∀ id, id ∈ ids → disk_agents d !! id = None.

Record lease_inv (s : System) : Prop := {
  inv_alone i : leases s !! i = Some Exclusive → leases s = {[i := Exclusive]};
  inv_unpaused i agent ids : leases s !! i = Some (Shared agent (Some ids)) →
    unpaused (files s) ids ∧ ∀ a, agent = Some a → a ∈ ids;
}.

Lemma admit_unpaused s agent p :
  admit_scope s agent p = Ok tt →
  let ids := match agent with
             | Some a => match effective_identities (roster s) a p with Ok ids => ids | Err _ => [] end
             | None => []
             end in
  unpaused (files s) ids ∧ ∀ a, agent = Some a → a ∈ ids.
Proof.
  destruct agent as [a|]; cbn [admit_scope]; cbv zeta.
  - intros (d & ids & Hr & Hg & Hi & Hf)%check_admits. rewrite (proj2 (identities_exact _ _ p _) Hi). split.
    + exists d. split; [done|]. split; [done|]. intros id Hin. rewrite List.Forall_forall in Hf.
      by apply list_elem_of_In, Hf in Hin as [? _].
    + intros a' [= <-]. destruct Hi as (_ & Hl & _). inversion Hl; subst; by left.
  - unfold check_global, check_state, status. destruct (read_state (files s)) as [d|] eqn:Er; cbn; [|done].
    destruct (disk_global d) eqn:Eg; [done|]. intros _. split; [|done]. exists d. split; [done|]. split; [done|].
    by intros ? ?%elem_of_nil.
Qed.

Lemma step_inv s s' : lease_inv s → lease_step s s' → lease_inv s'.
Proof.
  intros [Halone Hun] Hstep. destruct Hstep as [i agent Hn Hs|i agent p Hl Ha|i He|i agent entry receipt F fresh now Hl|i id F G Hl|i|r];
    split; cbn [leases files with_leases].
  - intros j [[_ ?]|[_ Hj]]%lookup_insert_Some; [done|]. by apply Hs in Hj.
  - intros j ag ids [[_ ?]|[_ Hj]]%lookup_insert_Some; [done|]. by apply (Hun j).
  - intros j [[_ ?]|[_ Hj]]%lookup_insert_Some; [done|]. apply Halone in Hj. rewrite Hj in Hl.
    by apply lookup_singleton_Some in Hl as [_ ?].
  - intros j ag ids [[_ [= <- <-]]|[_ Hj]]%lookup_insert_Some; [|by apply (Hun j)]. by apply admit_unpaused.
  - intros j [-> _]%lookup_singleton_Some. done.
  - intros j ag ids [_ ?]%lookup_singleton_Some. done.
  - done.
  - intros j ag ids Hj. apply Halone in Hl. rewrite Hl in Hj. by apply lookup_singleton_Some in Hj as [_ ?].
  - done.
  - intros j ag ids Hj. apply Halone in Hl. rewrite Hl in Hj. by apply lookup_singleton_Some in Hj as [_ ?].
  - intros j [Hne Hj]%lookup_delete_Some. apply Halone in Hj. rewrite Hj. by rewrite delete_singleton_ne.
  - intros j ag ids [_ Hj]%lookup_delete_Some. by apply (Hun j).
  - done.
  - done.
Qed.

Lemma lease_reachable_inv start r s : reachable start r s → lease_inv s.
Proof.
  induction 1 as [|s s' _ IH Hs]; [|by eapply step_inv].
  split; cbn; intros *; by rewrite lookup_empty.
Qed.

(** C12 However admissions, changes, completions and crashes interleave, a
    pause never commits under admitted work: while a lease is held the state
    file says that neither everyone nor any identity the work was admitted for
    is paused, the agent itself among them, and no change holds its lease. *)
Theorem no_pause_under_admission start r s i agent ids :
  reachable start r s → leases s !! i = Some (Shared agent (Some ids)) →
  unpaused (files s) ids ∧ (∀ a, agent = Some a → a ∈ ids) ∧ ∀ j, leases s !! j ≠ Some Exclusive.
Proof.
  intros Hinv%lease_reachable_inv Hi. destruct (inv_unpaused s Hinv i agent ids Hi) as [Hu Ha]. split; [done|]. split; [done|].
  intros j Hj. apply (inv_alone s Hinv) in Hj. rewrite Hj in Hi. by apply lookup_singleton_Some in Hi as [_ ?].
Qed.
End lease.

(** ** Concrete runs *)

#[global] Instance PauseEntry_eq_dec : EqDecision PauseEntry.
Proof. solve_decision. Defined.
#[global] Instance ChangeReceipt_eq_dec : EqDecision ChangeReceipt.
Proof. solve_decision. Defined.
#[global] Instance DiskState_eq_dec : EqDecision DiskState.
Proof. solve_decision. Defined.
#[global] Instance PauseEntry_countable : Countable PauseEntry :=
  inj_countable' (λ e, (reason e, who e, at_ e)) (λ t, {| reason := t.1.1; who := t.1.2; at_ := t.2 |}) (λ e, match e with Build_PauseEntry _ _ _ => eq_refl end).
#[global] Instance ChangeMethod_countable : Countable ChangeMethod :=
  inj_countable' (λ m, match m with MethodPause => true | MethodResume => false end) (λ x : bool, if x then MethodPause else MethodResume)
    (λ m, match m with MethodPause => eq_refl | MethodResume => eq_refl end).
#[global] Instance ChangeScope_countable : Countable ChangeScope :=
  inj_countable' (λ sc, match sc with ScopeAll => None | ScopeAgent i => Some i end)
    (λ x : option bytes, match x with None => ScopeAll | Some i => ScopeAgent i end)
    (λ sc, match sc with ScopeAll => eq_refl | ScopeAgent _ => eq_refl end).
#[global] Instance ChangeReceipt_countable : Countable ChangeReceipt :=
  inj_countable' (λ r, (change_id r, method r, scope r, actor r, request_digest r, applied_at r, completion_recorded r))
    (λ t, let '(i, m, sc, a, d, at_, c) := t in
      {| change_id := i; method := m; scope := sc; actor := a; request_digest := d; applied_at := at_; completion_recorded := c |})
    (λ r, match r with Build_ChangeReceipt _ _ _ _ _ _ _ => eq_refl end).
#[global] Instance DiskState_countable : Countable DiskState :=
  inj_countable' (λ d, (version d, receipts d, disk_global d, disk_agents d))
    (λ t, let '(v, r, g, a) := t in {| version := v; receipts := r; disk_global := g; disk_agents := a |})
    (λ d, match d with Build_DiskState _ _ _ _ => eq_refl end).

(** Times are their length, and every uuid is accepted. *)
Definition demo_crates : AutonomyCrates := {|
  disk_codec := countable_codec DiskState;
  parse_rfc3339 t := Some (Z.of_nat (length t));
  is_uuid _ := true;
  sha256_hex _ := repeat 97%N 64;
  parse_error _ := [];
  canonical_request _ _ _ _ := [];
|}.

(** A home nobody has paused in, with the employee [a], and [eph-1] working
    for it. *)
Definition fresh_home : HomeView :=
  {| home_is_dir := Ok true; init_open := OpenNotFound; state_open := OpenNotFound; state_meta := MetaNotFound; init_meta := MetaNotFound |}.
Definition demo_roster : Roster := {|
  eph_root := true;
  eph_inside _ := true;
  eph_has_config _ := true;
  eph_parent id := if ustr_eqb id (b "eph-1") then Some (b "a") else None;
  org_reports_to id := if ustr_eqb id (b "eph-1") then Some (b "a") else None;
  agent_config _ := ConfigText (Some Active);
  resolved_meta _ := MetaNotFound;
  resolved_config _ := ConfigMissing;
|}.
Definition demo_entry : PauseEntry := {| reason := b "audit"; who := b "op"; at_ := b "now" |}.
Definition paused_home : HomeView :=
  (mutate_with_receipt (H := demo_crates) fresh_home (Some (b "a")) (Some demo_entry) None no_fault [] (b "now")).2.

Example demo_gate :
  check (H := demo_crates) fresh_home demo_roster (b "eph-1") Cron = Ok tt
  ∧ check (H := demo_crates) paused_home demo_roster (b "eph-1") Cron
    = Err (denied Cron (b "agent_pause") (Some demo_entry) None)
  ∧ check (H := demo_crates) fresh_home demo_roster (b "eph-2") Cron = Err (denied Cron (b "ephemeral_parent_invalid") None None)
  ∧ check_global (H := demo_crates) paused_home Cron = Ok tt.
Proof. repeat split; vm_compute; reflexivity. Qed.

(** A first pause that fails after the marker was made is reported as not
    applied, and leaves a home in which all autonomous work is refused and
    every later change fails. *)
Example failed_first_write_stops_all :
  let broken := {| lease_fails := None; marker_open_fails := None; marker_sync_fails := None; temp_open_fails := Some (b "disk full");
                   write_or_sync_fails := None; rename_fails := None; home_sync_fails := None |} in
  let '(o, v) := mutate_with_receipt (H := demo_crates) fresh_home (Some (b "a")) (Some demo_entry) None broken [] (b "now") in
  o = NotApplied (b "disk full")
  ∧ (∃ i, check (H := demo_crates) v demo_roster (b "z") Cron = Err i)
  ∧ (mutate_with_receipt (H := demo_crates) v None None None no_fault [] (b "now")).1
    = NotApplied (b "initialized autonomy state is missing").
Proof. split; [|split]; [|eexists|]; vm_compute; reflexivity. Qed.

Lemma demo_acceptable : acceptable (H := demo_crates) (Some demo_entry) (b "now").
Proof. split; [vm_compute; reflexivity|]. intros e E. injection E as <-. vm_compute. reflexivity. Qed.

Lemma reported_changes_hold_witness :
  let '(o, v') := mutate_with_receipt (H := demo_crates) fresh_home (Some (b "a")) (Some demo_entry) None no_fault [] (b "now") in
  match o with
  | NotApplied _ => state_open v' = state_open fresh_home
  | Applied s | AppliedButDurabilityUnknown s _ =>
      ∃ d d', read_state (H := demo_crates) fresh_home = Ok d ∧ read_state (H := demo_crates) v' = Ok d' ∧ s = PauseState_of d'
        ∧ changed (Some (b "a")) (Some demo_entry) d d' ∧ pending_kept d d'
  end.
Proof.
  apply (reported_changes_hold (H := demo_crates) fresh_home (Some (b "a")) (Some demo_entry) None no_fault [] (b "now")).
  exact demo_acceptable.
Defined.

Lemma demo_identities : identities_of demo_roster (b "eph-1") [b "eph-1"; b "a"].
Proof. apply (identities_exact demo_roster (b "eph-1") Cron). vm_compute. reflexivity. Qed.

Lemma pauses_hold_witness : ∃ i, check (H := demo_crates) paused_home demo_roster (b "eph-1") Cron = Err i.
Proof.
  refine (proj1 (pauses_hold (H := demo_crates) fresh_home (Some (b "a")) demo_entry None no_fault [] (b "now")
    (mutate_with_receipt (H := demo_crates) fresh_home (Some (b "a")) (Some demo_entry) None no_fault [] (b "now")).1
    paused_home demo_roster (b "eph-1") Cron demo_acceptable _ _ _)).
  - unfold paused_home. destruct (mutate_with_receipt _ _ _ _ _ _ _). reflexivity.
  - eexists. vm_compute. reflexivity.
  - exists [b "eph-1"; b "a"]. split; [exact demo_identities|]. right. left.
Defined.

Definition demo_system (l : gmap nat Lease) : System := {| files := fresh_home; roster := demo_roster; leases := l |}.

Lemma no_pause_under_admission_witness : unpaused (H := demo_crates) fresh_home [b "eph-1"; b "a"].
Proof.
  refine (proj1 (no_pause_under_admission (H := demo_crates) fresh_home demo_roster
    (demo_system {[0%nat := Shared (Some (b "eph-1")) (Some [b "eph-1"; b "a"])]}) 0 (Some (b "eph-1")) [b "eph-1"; b "a"] _ _)).
  - set (waiting := demo_system {[0%nat := Shared (Some (b "eph-1")) None]}). apply (reachable_step _ _ waiting).
    + apply (reachable_step _ _ (demo_system ∅)); [apply reachable_start|].
      refine (take_shared (demo_system ∅) 0 (Some (b "eph-1")) _ _); [reflexivity|].
      intros i. cbn. rewrite lookup_empty. discriminate.
    + pose proof (admit_work (H := demo_crates) waiting 0 (Some (b "eph-1")) Cron eq_refl) as Ha.
      match type of Ha with _ → lease_step _ ?s' =>
        replace (demo_system _) with s' by (vm_compute; reflexivity) end.
      apply Ha. vm_compute. reflexivity.
  - reflexivity.
Defined.
