(* ===== verification/FireBreaker.v ===== *)
(** * The circuit breaker of autopilot rules ([CircuitState], [circuit_check]
    and [BreakerReader] of crates/duduclaw-gateway/src/autopilot_engine.rs)

    Each rule has a breaker: ten fires within a minute open it, a minute later
    one probe goes through, and half a minute of quiet after the probe closes
    it.  The theorems bound the fires of a rule in any minute and say that a
    quiet rule fires again. *)

From S2P Require Import Prelude.
From S2P Require Import Bytes.
From S2P Require Import JsonValue.

Definition CIRCUIT_MAX_FIRES : nat := 10.
Definition CIRCUIT_WINDOW : Z := secs 60.
Definition CIRCUIT_OPEN_COOLDOWN : Z := secs 60.
Definition CIRCUIT_HALF_OPEN_PROBE_WINDOW : Z := secs 30.

(** [U] is the type of wall-clock times. *)
Inductive CircuitState (U : Type) :=
| Closed (fires : list Z)
| Open (opened_at : Z) (opened_at_utc : option U)
| HalfOpen (probed_at : Z) (opened_at_utc : option U).
Arguments Closed {U} fires.
Arguments Open {U} opened_at opened_at_utc.
Arguments HalfOpen {U} probed_at opened_at_utc.

(** The states [circuit_check] reports to have entered. *)
Inductive Entered := EnteredOpen | EnteredOpenRetrip | EnteredHalfOpen | EnteredClosed.

Section breaker.
Context {U : Type}.

Definition CircuitState_new_closed : CircuitState U := Closed [].

(** The body of [circuit_check] on the state of one rule. *)
Definition circuit_step (state : CircuitState U) (now : Z) (utc : U) : bool * option Entered * CircuitState U :=
  match state with
  | Closed fires =>
      let fires := retain (λ t, duration_since now t <? CIRCUIT_WINDOW) fires in
      if (CIRCUIT_MAX_FIRES <=? length fires)%nat then (false, Some EnteredOpen, Open now (Some utc))
      else (true, None, Closed (fires ++ [now]))
  | Open opened_at opened_at_utc =>
      if duration_since now opened_at <? CIRCUIT_OPEN_COOLDOWN then (false, None, state)
      else (true, Some EnteredHalfOpen, HalfOpen now opened_at_utc)
  | HalfOpen probed_at _ =>
      if duration_since now probed_at <? CIRCUIT_HALF_OPEN_PROBE_WINDOW
      then (false, Some EnteredOpenRetrip, Open now (Some utc))
      else (true, Some EnteredClosed, Closed [now])
  end.

Definition circuit_check (circuit : gmap bytes (CircuitState U)) (rule_id : bytes) (now : Z) (utc : U)
  : bool * option Entered * gmap bytes (CircuitState U) :=
  let state := default CircuitState_new_closed (circuit !! rule_id) in
  let '(allowed, entered, state) := circuit_step state now utc in
  (allowed, entered, <[rule_id := state]> circuit).

(** What the dashboard reads: [running_before] is what the weak reference to
    the flag gives, [running_now] the flag under the lock. *)
Definition snapshot (to_rfc3339 : U → bytes) (running_before : option bool)
    (circuit : option (gmap bytes (CircuitState U))) (running_now : bool) (rule_ids : list bytes) : option (list Value) :=
  match running_before with
  | Some true =>
      match circuit with
      | None => None
      | Some states =>
          if negb running_now then None
          else
            Some (map (λ id,
              let '(state, opened_at) :=
                match states !! id with
                | None | Some (Closed _) => (b "closed", None)
                | Some (Open _ at_) => (b "open", at_)
                | Some (HalfOpen _ at_) => (b "half_open", at_)
                end in
              VObject [(b "rule_id", VString id); (b "state", VString state);
                       (b "opened_at", match opened_at with Some t => VString (to_rfc3339 t) | None => VNull end)]) rule_ids)
      end
  | _ => None
  end.

(** ** Runs *)

(** A check: the rule, the time, the wall clock. *)
Definition check_at : Type := bytes * Z * U.

(** The answers of the breaker to a sequence of checks. *)
Fixpoint run_checks (circuit : gmap bytes (CircuitState U)) (checks : list check_at) : list (bool * option Entered) :=
  match checks with
  | [] => []
  | (r, now, utc) :: rest =>
      let '(allowed, entered, circuit) := circuit_check circuit r now utc in (allowed, entered) :: run_checks circuit rest
  end.

(** The checks of one rule, and its answers on its own state. *)
Fixpoint run_one (state : CircuitState U) (checks : list (Z * U)) : list (bool * option Entered) :=
  match checks with
  | [] => []
  | (now, utc) :: rest =>
      let '(allowed, entered, state) := circuit_step state now utc in (allowed, entered) :: run_one state rest
  end.

Definition checks_of (r : bytes) (checks : list check_at) : list (Z * U) :=
  omap (λ c : check_at, if decide (c.1.1 = r) then Some (c.1.2, c.2) else None) checks.
(** The answers given to the checks of a rule. *)
Definition answers_of {A} (r : bytes) (checks : list check_at) (answers : list A) : list A :=
  omap (λ p : check_at * A, if decide (p.1.1.1 = r) then Some p.2 else None) (zip checks answers).

(** The rules do not touch each other's breakers. *)
Lemma run_checks_alone r checks : ∀ circuit,
  answers_of r checks (run_checks circuit checks)
  = run_one (default CircuitState_new_closed (circuit !! r)) (checks_of r checks).
Proof.
  unfold answers_of, checks_of. induction checks as [|((r' & now) & utc) checks IH]; intros circuit; [done|].
  cbn [run_checks]. unfold circuit_check. destruct (circuit_step _ now utc) as [[allowed entered] st] eqn:E.
  cbn [zip zip_with omap list_omap fst snd]. destruct (decide (r' = r)) as [-> |Hr].
  - cbn [run_one]. rewrite E. f_equal. rewrite IH, lookup_insert_eq. done.
  - rewrite IH, lookup_insert_ne by done. done.
Qed.

(** The times of the checks that were let through. *)
Definition fired (checks : list (Z * U)) (answers : list (bool * option Entered)) : list Z :=
  omap (λ p : (Z * U) * (bool * option Entered), if p.2.1 then Some p.1.1 else None) (zip checks answers).

Definition recent (now : Z) (l : list Z) : list Z := retain (λ t, duration_since now t <? CIRCUIT_WINDOW) l.

Lemma recent_app now l l' : recent now (l ++ l') = recent now l ++ recent now l'.
Proof. apply List.filter_app. Qed.

Lemma recent_recent x now l : now ≤ x → recent x (recent now l) = recent x l.
Proof.
  intros Hx. unfold recent. induction l as [|t l IH]; [done|]. cbn [List.filter].
  destruct (duration_since now t <? _) eqn:E; cbn [List.filter]; rewrite IH; [done|].
  destruct (duration_since x t <? _) eqn:E'; [|done]. reflect_bools. unfold duration_since in *. unfold CIRCUIT_WINDOW, secs in *. lia.
Qed.

Lemma recent_old x l : Forall (λ t, t + CIRCUIT_WINDOW ≤ x) l → recent x l = [].
Proof.
  intros Hl. induction Hl as [|t l Ht _ IH]; [done|]. unfold recent in *. cbn [List.filter].
  destruct (duration_since x t <? _) eqn:E; [|done]. reflect_bools. unfold duration_since, CIRCUIT_WINDOW, secs in *. lia.
Qed.

(** What the state of a rule says of the fires so far, the last check at
    [last]. *)
Definition remembers (last : Z) (past : list Z) (state : CircuitState U) : Prop :=
  Forall (λ t, t ≤ last) past ∧
  match state with
  | Closed fires => ∀ x, last ≤ x → (length (recent x past) ≤ 1 + length (recent x fires))%nat
  | Open opened_at _ => opened_at ≤ last ∧ Forall (λ t, t ≤ opened_at) past
  | HalfOpen probed_at _ => probed_at ≤ last ∧ ∀ x, last ≤ x → (length (recent x past) ≤ 1)%nat
  end.

Lemma Forall_le_trans (m n : Z) l : m ≤ n → Forall (λ t, t ≤ m) l → Forall (λ t, t ≤ n) l.
Proof. intros Hmn Hl. eapply List.Forall_impl; [|exact Hl]. intros t Ht. cbn in *. lia. Qed.

(** Every check keeps the memory, and one let through makes at most eleven
    fires in the minute before it. *)
Lemma step_remembers last past state now utc :
  last ≤ now → remembers last past state →
  let '(allowed, _, state') := circuit_step state now utc in
  let past' := past ++ (if allowed then [now] else []) in
  remembers now past' state' ∧ (allowed = true → (length (recent now past') ≤ S CIRCUIT_MAX_FIRES)%nat).
Proof.
  intros Hnow [Hp Hs]. pose proof (Forall_le_trans _ _ _ Hnow Hp) as Hp'.
  assert (Forall (λ t, t ≤ now) (past ++ [now])) as Hp1 by (apply Forall_app; split; [done|by apply List.Forall_cons]).
  destruct state as [fires|o utc0|p utc0]; cbn [circuit_step].
  - fold (recent now fires). cbv zeta. destruct (_ <=? _)%nat eqn:E; reflect_bools.
    + rewrite app_nil_r. split; [|done]. split; [done|]. split; [lia|done].
    + assert (∀ x, now ≤ x → (length (recent x (past ++ [now])) ≤ 1 + length (recent x (recent now fires ++ [now])))%nat) as Hc.
      { intros x Hx. rewrite !recent_app, !length_app, recent_recent by done. specialize (Hs x). lia. }
      split; [split; [done|exact Hc]|]. intros _. specialize (Hc now (Z.le_refl _)).
      rewrite (recent_app now (recent now fires)), recent_recent, (length_app (recent now fires)) in Hc by lia.
      assert (length (recent now [now]) ≤ 1)%nat by apply length_retain. unfold CIRCUIT_MAX_FIRES in *. lia.
  - destruct Hs as [Ho Hs]. destruct (_ <? _) eqn:E; reflect_bools.
    + rewrite app_nil_r. split; [|done]. split; [done|]. split; [lia|done].
    + assert (∀ x, now ≤ x → recent x past = []) as Hr.
      { intros x Hx. apply recent_old. eapply List.Forall_impl; [|exact Hs]. cbn. intros t Ht.
        unfold duration_since, CIRCUIT_OPEN_COOLDOWN, CIRCUIT_WINDOW, secs in *. lia. }
      assert (∀ x, now ≤ x → (length (recent x (past ++ [now])) ≤ 1)%nat) as Hc.
      { intros x Hx. rewrite recent_app, Hr by done. apply length_retain. }
      split; [split; [done|split; [lia|exact Hc]]|]. intros _. specialize (Hc now). unfold CIRCUIT_MAX_FIRES. lia.
  - destruct Hs as [Ho Hs]. destruct (_ <? _) eqn:E; reflect_bools.
    + rewrite app_nil_r. split; [|done]. split; [done|]. split; [lia|done].
    + assert (∀ x, now ≤ x → (length (recent x (past ++ [now])) ≤ 1 + length (recent x [now]))%nat) as Hc.
      { intros x Hx. rewrite recent_app, length_app. specialize (Hs x). lia. }
      split; [split; [done|exact Hc]|]. intros _. specialize (Hc now).
      assert (length (recent now [now]) ≤ 1)%nat by apply length_retain. unfold CIRCUIT_MAX_FIRES. lia.
Qed.

(** The checks come in the order of their times, from [last] on. *)
Fixpoint in_order (last : Z) (checks : list (Z * U)) : Prop :=
  match checks with
  | [] => True
  | (now, _) :: rest => last ≤ now ∧ in_order now rest
  end.

Lemma in_order_above last checks t answers : in_order last checks → t ∈ fired checks answers → last ≤ t.
Proof.
  unfold fired. revert last answers. induction checks as [|(now & utc) checks IH]; intros last answers Ho Ht.
  { by apply elem_of_nil in Ht. }
  destruct answers as [|[al en] answers]; [by apply elem_of_nil in Ht|]. destruct Ho as [Hl Ho].
  cbn [zip zip_with omap list_omap fst snd] in Ht. destruct al; [apply elem_of_cons in Ht as [-> |Ht]; [done|]|].
  all: specialize (IH now answers Ho Ht); lia.
Qed.

(** The window that starts at [t]. *)
Definition in_window (t x : Z) : bool := (t <=? x) && (x <? t + CIRCUIT_WINDOW).

Lemma recent_window (t : Z) (past : list Z) now :
  t ≤ now → now < t + CIRCUIT_WINDOW → Forall (λ x, x ≤ now) past →
  (length (retain (in_window t) past) ≤ length (recent now past))%nat.
Proof.
  intros Ht Hn Hp. unfold recent. induction Hp as [|x past Hx _ IH]; [done|]. cbn [List.filter].
  destruct (in_window t x) eqn:E; [|destruct (duration_since now x <? _); cbn [length]; lia].
  apply andb_true_iff in E as [E1 E2]. reflect_bools.
  rewrite (proj2 (Z.ltb_lt _ _)) by (unfold duration_since; lia). cbn [length]. lia.
Qed.

(** The fires of the past and of the rest of the run. *)
Lemma run_bounded t checks : ∀ last past state,
  in_order last checks → remembers last past state →
  (length (retain (in_window t) past) ≤ S CIRCUIT_MAX_FIRES)%nat →
  (length (retain (in_window t) (past ++ fired checks (run_one state checks)))
   ≤ S CIRCUIT_MAX_FIRES)%nat.
Proof.
  induction checks as [|(now & utc) checks IH]; intros last past state Ho Hr Hb; [by rewrite app_nil_r|].
  destruct Ho as [Hl Ho]. pose proof (step_remembers last past state now utc Hl Hr) as Hs.
  cbn [run_one]. destruct (circuit_step state now utc) as [[allowed entered] state'] eqn:E. destruct Hs as [Hr' Hc].
  unfold fired. cbn [zip zip_with omap list_omap fst snd]. fold (fired checks (run_one state' checks)).
  assert (past ++ (if allowed then now :: fired checks (run_one state' checks) else fired checks (run_one state' checks))
          = (past ++ (if allowed then [now] else [])) ++ fired checks (run_one state' checks)) as Happ
    by (destruct allowed; by rewrite <- ?app_assoc, ?app_nil_r).
  assert ((match (if allowed then Some now else None) with
           | Some y => y :: fired checks (run_one state' checks) | None => fired checks (run_one state' checks) end)
          = if allowed then now :: fired checks (run_one state' checks) else fired checks (run_one state' checks)) as ->
    by (by destruct allowed).
  rewrite Happ. apply (IH now _ state' Ho Hr').
  destruct allowed; [|by rewrite app_nil_r].
  destruct (decide (t ≤ now ∧ now < t + CIRCUIT_WINDOW)) as [[H1 H2]|Hout].
  - etransitivity; [apply (recent_window t _ now H1 H2)|by apply Hc]. apply Hr'.
  - rewrite List.filter_app, length_app. cbn [List.filter].
    replace (in_window t now) with false; [cbn; lia|].
    symmetry. apply andb_false_iff. rewrite Z.leb_gt, Z.ltb_ge. lia.
Qed.

(** However the checks of the rules interleave, a rule fires at most eleven
    times in any minute: ten while its breaker is closed, and the probe that
    came before. *)
Theorem burst_bounded (last t : Z) (r : bytes) (checks : list check_at) :
  in_order last (checks_of r checks) →
  (length (retain (in_window t) (fired (checks_of r checks) (answers_of r checks (run_checks ∅ checks))))
   ≤ S CIRCUIT_MAX_FIRES)%nat.
Proof.
  intros Ho. rewrite run_checks_alone, lookup_empty. cbn [default id].
  apply (run_bounded t (checks_of r checks) last [] CircuitState_new_closed Ho); [|cbn; lia].
  split; [apply List.Forall_nil|]. intros x _. cbn. lia.
Qed.

(** ** Recovery *)

Fixpoint state_after (state : CircuitState U) (checks : list (Z * U)) : CircuitState U :=
  match checks with
  | [] => state
  | (now, utc) :: rest => state_after (circuit_step state now utc).2 rest
  end.

Lemma run_one_snoc state checks now utc :
  run_one state (checks ++ [(now, utc)])
  = run_one state checks ++ [(circuit_step (state_after state checks) now utc).1].
Proof.
  revert state. induction checks as [|(n & w) checks IH]; intros state; cbn [run_one app state_after].
  - by destruct (circuit_step state now utc) as [[]].
  - destruct (circuit_step state n w) as [[]]. cbn [snd]. by rewrite IH.
Qed.

(** The times a state holds are at most [last]. *)
Definition stamped (last : Z) (state : CircuitState U) : Prop :=
  match state with
  | Closed fires => Forall (λ t, t ≤ last) fires
  | Open t _ | HalfOpen t _ => t ≤ last
  end.

Lemma step_stamped last state now utc : stamped last state → last ≤ now → stamped now (circuit_step state now utc).2.
Proof.
  intros Hs Hn. destruct state as [fires|o w|p w]; cbn in *.
  - case_match; cbn; [lia|]. apply Forall_app. split; [|apply List.Forall_cons; [lia|done]].
    apply Forall_retain. by apply (Forall_le_trans last).
  - destruct (_ <? _); cbn; lia.
  - destruct (_ <? _); cbn; [lia|]. by apply List.Forall_cons.
Qed.

Lemma after_stamped bound checks : ∀ last state,
  stamped last state → last ≤ bound → in_order last checks → Forall (λ c : Z * U, c.1 ≤ bound) checks →
  stamped bound (state_after state checks).
Proof.
  induction checks as [|(now & utc) checks IH]; intros last state Hs Hb Ho Hc; cbn [state_after].
  - destruct state; cbn in *; [by apply (Forall_le_trans last)|lia|lia].
  - destruct Ho as [Hl Ho]. apply List.Forall_cons_iff in Hc as [Hn Hc]. cbn [fst] in Hn.
    apply (IH now); [by apply (step_stamped last)|done|done|done].
Qed.

Lemma step_quiet state now utc :
  stamped (now - CIRCUIT_WINDOW) state → (circuit_step state now utc).1.1 = true.
Proof.
  intros Hs. destruct state as [fires|o w|p w]; cbn in *.
  - fold (recent now fires). rewrite recent_old; [done|]. eapply List.Forall_impl; [|exact Hs]. cbn. intros t. lia.
  - rewrite (proj2 (Z.ltb_ge _ _)); [done|]. unfold duration_since, CIRCUIT_WINDOW, CIRCUIT_OPEN_COOLDOWN, secs in *. lia.
  - rewrite (proj2 (Z.ltb_ge _ _)); [done|].
    unfold duration_since, CIRCUIT_WINDOW, CIRCUIT_HALF_OPEN_PROBE_WINDOW, secs in *. lia.
Qed.

(** A breaker never stays open for good: whatever came before, a rule that
    was not checked for a minute is let through. *)
Theorem quiet_rule_fires (last : Z) (r : bytes) (checks : list check_at) (now : Z) (utc : U) :
  last ≤ now - CIRCUIT_WINDOW → in_order last (checks_of r checks) →
  Forall (λ c : Z * U, c.1 ≤ now - CIRCUIT_WINDOW) (checks_of r checks) →
  ∃ entered,
    list.last (answers_of r (checks ++ [(r, now, utc)]) (run_checks ∅ (checks ++ [(r, now, utc)]))) = Some (true, entered).
Proof.
  intros Hl Ho Hc. rewrite run_checks_alone, lookup_empty. cbn [default id].
  assert (checks_of r (checks ++ [(r, now, utc)]) = checks_of r checks ++ [(now, utc)]) as ->
    by (unfold checks_of; rewrite omap_app; cbn; by rewrite decide_True).
  rewrite run_one_snoc, list.last_snoc.
  pose proof (step_quiet (state_after CircuitState_new_closed (checks_of r checks)) now utc) as Hq.
  destruct (circuit_step _ now utc) as [[allowed entered] st]. cbn [fst] in *. rewrite Hq; [by exists entered|].
  apply (after_stamped _ _ last); [apply List.Forall_nil|done|done|done].
Qed.

(** ** Notices *)

(** What the breaker reported to have entered. *)
Definition transitions (answers : list (bool * option Entered)) : list Entered := omap snd answers.

Lemma tripped_transitions checks : ∀ state pre post,
  (∀ fires, state ≠ Closed fires) →
  transitions (run_one state checks) = pre ++ EnteredOpen :: post → EnteredClosed ∈ pre.
Proof.
  induction checks as [|(now & utc) checks IH]; intros state pre post Hs; [by destruct pre|].
  cbn [run_one]. destruct state as [fires|o w|p w]; [by destruct (Hs fires)| |]; cbn [circuit_step].
  - destruct (_ <? _); unfold transitions; cbn [omap list_omap snd]; fold (transitions (run_one (Open o w) checks));
      [by apply IH|]. fold (transitions (run_one (HalfOpen now w) checks)).
    destruct pre as [|e pre]; [done|]. intros [= <- Hp]. apply elem_of_cons. right. by apply (IH (HalfOpen now w) pre post).
  - destruct (_ <? _); unfold transitions; cbn [omap list_omap snd].
    + fold (transitions (run_one (Open now (Some utc)) checks)). destruct pre as [|e pre]; [done|].
      intros [= <- Hp]. apply elem_of_cons. right. by apply (IH (Open now (Some utc)) pre post).
    + destruct pre as [|e pre]; [done|]. intros [= <- _]. apply elem_of_cons. by left.
Qed.

Lemma episode_closed checks : ∀ state pre mid post,
  transitions (run_one state checks) = pre ++ EnteredOpen :: mid ++ EnteredOpen :: post → EnteredClosed ∈ mid.
Proof.
  induction checks as [|(now & utc) checks IH]; intros state pre mid post; [by destruct pre|].
  cbn [run_one]. destruct (circuit_step state now utc) as [[allowed entered] state'] eqn:E.
  unfold transitions. cbn [omap list_omap snd]. fold (transitions (run_one state' checks)).
  destruct entered as [e|]; [|apply IH]. destruct pre as [|e' pre]; [|intros [= -> Hp]; by apply (IH state' pre mid post)].
  cbn [app]. intros [= -> Hp]. apply (tripped_transitions checks state' mid post); [|done].
  destruct state as [fires|o w|p w]; cbn in E; case_match; by simplify_eq.
Qed.

(** One notice per episode: between two openings of a rule's breaker that
    notify the operator, the breaker has closed; a probe that trips it again is
    reported as such and not as an opening. *)
Theorem one_notice_per_episode (r : bytes) (checks : list check_at) pre mid post :
  transitions (answers_of r checks (run_checks ∅ checks)) = pre ++ EnteredOpen :: mid ++ EnteredOpen :: post →
  EnteredClosed ∈ mid.
Proof. rewrite run_checks_alone. apply episode_closed. Qed.
End breaker.

(** ** Concrete runs *)

(** Eleven checks in a burst, a probe after the cooldown, quiet, and a second
    burst; the times in seconds. *)
Definition demo_checks : list (@check_at unit) :=
  map (λ t, (b "r", secs t, tt)) [0; 1; 1; 1; 1; 1; 1; 1; 1; 1; 2; 62; 70; 131; 161; 161; 161; 161; 161; 161; 161; 161; 161; 161; 162].

(** The second burst is refused at its eleventh fire, and with the probe makes
    eleven fires in a minute. *)
Example demo_breaker :
  map fst (run_checks ∅ demo_checks)
  = repeat true 10 ++ [false; true; false; true] ++ repeat true 10 ++ [false]
  ∧ transitions (run_checks ∅ demo_checks)
    = [EnteredOpen; EnteredHalfOpen; EnteredOpenRetrip; EnteredHalfOpen; EnteredClosed; EnteredOpen]
  ∧ length (retain (in_window (secs 131)) (fired (checks_of (b "r") demo_checks) (run_checks ∅ demo_checks))) = 11%nat.
Proof. split; [|split]; vm_compute; reflexivity. Qed.

Lemma burst_bounded_witness :
  (length (retain (in_window (secs 131)) (fired (checks_of (b "r") demo_checks) (answers_of (b "r") demo_checks (run_checks ∅ demo_checks))))
   ≤ 11)%nat.
Proof.
  apply (burst_bounded 0 (secs 131) (b "r") demo_checks).
  vm_compute. repeat (split; [discriminate|]). exact I.
Defined.

Lemma quiet_rule_fires_witness :
  ∃ e, list.last (answers_of (b "r") (demo_checks ++ [(b "r", secs 222, tt)]) (run_checks ∅ (demo_checks ++ [(b "r", secs 222, tt)])))
    = Some (true, e).
Proof.
  apply (quiet_rule_fires 0 (b "r") demo_checks (secs 222) tt).
  - apply Z.leb_le. vm_compute. reflexivity.
  - vm_compute. repeat (split; [discriminate|]). exact I.
  - apply (bool_decide_unpack _). vm_compute. exact I.
Defined.

Example demo_episode :
  transitions (answers_of (b "r") demo_checks (run_checks ∅ demo_checks))
  = [] ++ EnteredOpen :: [EnteredHalfOpen; EnteredOpenRetrip; EnteredHalfOpen; EnteredClosed] ++ EnteredOpen :: [].
Proof. vm_compute. reflexivity. Qed.

Lemma one_notice_per_episode_witness : EnteredClosed ∈ [EnteredHalfOpen; EnteredOpenRetrip; EnteredHalfOpen; EnteredClosed].
Proof.
  exact (one_notice_per_episode (b "r") demo_checks [] _ [] demo_episode).
Defined.
