(* ===== verification/Cep.v ===== *)
(** * Sequence rules of the autopilot
    (crates/duduclaw-gateway/src/cep_matcher.rs)

    A sequence rule waits for a second event within a time after a first one,
    or for its absence.  The matcher keeps the open windows of every rule and
    announces the patterns that resolve. *)

From S2P Require Import Prelude.
From S2P Require Import Bytes.
From S2P Require Import JsonValue.
From S2P Require Import Conditions.
From S2P Require Import AutopilotEvents.

Record SequenceStep := { step_event : bytes; match_cond : Value }.
Record SequenceSpec := { first : SequenceStep; then_ : SequenceStep; within_secs : Z; negate : bool }.

Definition KNOWN_EVENT_NAMES : list bytes :=
  map b ["task_created"; "task_updated"; "task_status_changed"; "activity_new"; "channel_message"; "agent_idle";
         "cron_tick"; "run_at_risk"; "os_file"; "os_frontmost"; "tick"; "security_event"; "odoo_event"; "mcp_event"]%string.

Definition WITHIN_SECS_MIN : Z := 1.
Definition WITHIN_SECS_MAX : Z := 86400.
Definition MAX_PENDING_PER_RULE : nat := 100.

Record PendingMatch := { deadline : Z; first_fields : gmap bytes Value }.
Record Resolution := { res_rule_id : bytes; res_then_event : bytes; res_fields : gmap bytes Value }.

Definition merge_trigger_fields (first : gmap bytes Value) (then_fields : option (gmap bytes Value)) : gmap bytes Value :=
  match then_fields with
  | None => first
  | Some m => m ∪ first
  end.

(** ** Validation *)

(** The first error of a list. *)
Fixpoint each_ok {A} (f : A → result unit bytes) (l : list A) : result unit bytes :=
  match l with
  | [] => Ok tt
  | x :: r => match f x with Err e => Err e | Ok _ => each_ok f r end
  end.

Definition match_path (label part : string) : bytes := b "sequence." ++ b label ++ b ".match" ++ b part.

(** [check] at the items of the group under [k]; [None] when there is none. *)
Definition match_group (check : Value → result unit bytes) (label k : string)
    : list (bytes * Value) → option (result unit bytes) :=
  fix go es :=
    match es with
    | [] => None
    | e :: r =>
        if ustr_eqb e.1 (b k) then
          Some match e.2 with
               | VArray items => each_ok check items
               | _ => Err (match_path label ("." ++ k) ++ b " must be an array")
               end
        else go r
    end.

Definition match_leaf (es : list (bytes * Value)) (label : string) : result unit bytes :=
  match entry es (b "field") ≫= value_as_str with
  | Some field =>
      if is_empty field then Err (match_path label ".field" ++ b " is required")
      else
        match entry es (b "op") ≫= value_as_str with
        | None => Err (match_path label ".op" ++ b " is required (field '" ++ field ++ b "')")
        | Some op =>
            if negb (existsb (ustr_eqb op) CONDITION_OPS) then
              Err (match_path label ".op" ++ b " unknown '" ++ op ++ b "' (field '" ++ field ++ b "'); must be one of: "
                   ++ join_with (b ", ") CONDITION_OPS)
            else
              match entry es (b "value") with
              | None => Err (match_path label ".value" ++ b " is required (field '" ++ field ++ b "')")
              | Some _ => Ok tt
              end
        end
  | None => Err (match_path label ".field" ++ b " is required")
  end.

Fixpoint validate_match_shape (cond : Value) (label : string) : result unit bytes :=
  match cond with
  | VNull => Ok tt
  | VObject es =>
      match match_group (λ c, validate_match_shape c label) label "all" es with
      | Some r => r
      | None =>
          match match_group (λ c, validate_match_shape c label) label "any" es with
          | Some r => r
          | None => match_leaf es label
          end
      end
  | _ => Err (match_path label "" ++ b " must be a JSON object or null")
  end.

Definition validate_step (step : SequenceStep) (label : string) : result unit bytes :=
  if negb (existsb (ustr_eqb (step_event step)) KNOWN_EVENT_NAMES) then
    Err (b "sequence." ++ b label ++ b ".event unknown '" ++ step_event step ++ b "'; must be one of: "
         ++ join_with (b ", ") KNOWN_EVENT_NAMES)
  else validate_match_shape (match_cond step) label.

(** [parsed] is what [serde_json::from_value] makes of the rule's JSON. *)
Definition validate_sequence_spec (parsed : result SequenceSpec bytes) : result unit bytes :=
  match parsed with
  | Err e => Err (b "invalid sequence: " ++ e)
  | Ok spec =>
      match validate_step (first spec) "first" with
      | Err e => Err e
      | Ok _ =>
          match validate_step (then_ spec) "then" with
          | Err e => Err e
          | Ok _ =>
              if (WITHIN_SECS_MIN <=? within_secs spec) && (within_secs spec <=? WITHIN_SECS_MAX) then Ok tt
              else Err (b "sequence.within_secs must be between 1 and 86400 (got " ++ show_Z (within_secs spec) ++ b ")")
          end
      end
  end.

(** ** The matcher *)

Section cep.
Context `{SerdeValue} `{PathText}.
(** [serde_json::from_str] at [SequenceSpec]. *)
Context (parse_spec : bytes → option SequenceSpec).

Abbreviation Pending := (gmap bytes (list PendingMatch)).

(** The enabled rules that have a readable sequence, in order. *)
Definition sequence_rules (rules : list AutopilotRuleRow) : list (AutopilotRuleRow * SequenceSpec) :=
  omap (λ r, spec ← (sequence r ≫= parse_spec); Some (r, spec)) (retain rule_enabled rules).

(** The body of the loop of [on_event] on the queue of one rule. *)
Definition match_queue (r : AutopilotRuleRow) (spec : SequenceSpec) (name : bytes) (fs : gmap bytes Value) (now : Z)
    (queue : list PendingMatch) : list Resolution * list PendingMatch :=
  let queue := retain (λ p, now <? deadline p) queue in
  let '(out, queue) :=
    if ustr_eqb name (step_event (then_ spec)) && evaluate fs (match_cond (then_ spec)) then
      match queue with
      | [] => ([], [])
      | opened :: rest =>
          if negate spec then ([], rest)
          else
            ([{| res_rule_id := rule_id r; res_then_event := name;
                 res_fields := merge_trigger_fields (first_fields opened) (Some fs) |}], rest)
      end
    else ([], queue) in
  if ustr_eqb name (step_event (first spec)) && evaluate fs (match_cond (first spec)) then
    let queue := if (MAX_PENDING_PER_RULE <=? length queue)%nat then drop 1 queue else queue in
    (out, queue ++ [{| deadline := now + secs (Z.max (within_secs spec) 1); first_fields := fs |}])
  else (out, queue).

(** [rules] is what [list_rules] gives, [None] when it fails. *)
Definition on_event (rules : option (list AutopilotRuleRow)) (e : AutopilotEvent) (now : Z) (pending : Pending)
  : list Resolution * Pending :=
  if ustr_eqb (event_name e) (b "cep_trigger") then ([], pending)
  else
    let fs := to_fields e in
    match rules with
    | None => ([], pending)
    | Some rules =>
        foldl (λ (acc : list Resolution * Pending) (rs : AutopilotRuleRow * SequenceSpec),
          let queue := default [] (acc.2 !! rule_id rs.1) in
          let '(out, queue) := match_queue rs.1 rs.2 (event_name e) fs now queue in
          (acc.1 ++ out, <[rule_id rs.1 := queue]> acc.2)) ([], pending) (sequence_rules rules)
    end.

(** The body of the loop of [expire_negate_windows]. *)
Definition expire_queue (r : AutopilotRuleRow) (spec : SequenceSpec) (now : Z) (queue : list PendingMatch)
  : list Resolution * list PendingMatch :=
  if negate spec then
    (map (λ p, {| res_rule_id := rule_id r; res_then_event := step_event (then_ spec);
                  res_fields := merge_trigger_fields (first_fields p) None |})
       (retain (λ p, deadline p <=? now) queue),
     retain (λ p, negb (deadline p <=? now)) queue)
  else ([], retain (λ p, now <? deadline p) queue).

Definition expire_negate_windows (rules : option (list AutopilotRuleRow)) (now : Z) (pending : Pending)
  : list Resolution * Pending :=
  match rules with
  | None => ([], pending)
  | Some rules =>
      foldl (λ (acc : list Resolution * Pending) (rs : AutopilotRuleRow * SequenceSpec),
        match acc.2 !! rule_id rs.1 with
        | None => acc
        | Some queue =>
            let '(out, queue) := expire_queue rs.1 rs.2 now queue in
            (acc.1 ++ out, <[rule_id rs.1 := queue]> acc.2)
        end) ([], pending) (sequence_rules rules)
  end.

(** The synthetic event that announces a resolution on the bus. *)
Definition announce (r : Resolution) : AutopilotEvent :=
  CepTrigger (res_rule_id r) (res_then_event r) (VObject (map_to_list (res_fields r))).

(** What wakes the loop of [spawn], with the rules of that moment and the
    time. *)
Inductive Wake := Received (e : AutopilotEvent) | Lagged (n : Z) | Ticked.
Record LoopStep := { wake : Wake; step_rules : option (list AutopilotRuleRow); step_now : Z }.

Definition loop_step (s : LoopStep) (pending : Pending) : list Resolution * Pending :=
  match wake s with
  | Received e => on_event (step_rules s) e (step_now s) pending
  | Lagged _ => ([], pending)
  | Ticked => expire_negate_windows (step_rules s) (step_now s) pending
  end.

(** What each step of a run announces, and the windows left open. *)
Fixpoint run_loop (steps : list LoopStep) (pending : Pending) : list (list Resolution) * Pending :=
  match steps with
  | [] => ([], pending)
  | s :: rest =>
      let '(out, pending) := loop_step s pending in
      let '(outs, pending) := run_loop rest pending in (out :: outs, pending)
  end.

(** ** Each rule on its own *)

(** The sequence rule with an id, at a step. *)
Definition rule_of (rules : option (list AutopilotRuleRow)) (rid : bytes) : option (AutopilotRuleRow * SequenceSpec) :=
  rules ← rules; List.find (λ rs : AutopilotRuleRow * SequenceSpec, ustr_eqb (rule_id rs.1) rid) (sequence_rules rules).

Definition queue_of (pending : Pending) (rid : bytes) : list PendingMatch := default [] (pending !! rid).

(** What a step does to the windows of one rule. *)
Definition rule_step (s : LoopStep) (rid : bytes) (queue : list PendingMatch) : list Resolution * list PendingMatch :=
  match rule_of (step_rules s) rid with
  | None => ([], queue)
  | Some (r, spec) =>
      match wake s with
      | Received e =>
          if ustr_eqb (event_name e) (b "cep_trigger") then ([], queue)
          else match_queue r spec (event_name e) (to_fields e) (step_now s) queue
      | Lagged _ => ([], queue)
      | Ticked => expire_queue r spec (step_now s) queue
      end
  end.

Definition for_rule (rid : bytes) (out : list Resolution) : list Resolution :=
  retain (λ x, ustr_eqb (res_rule_id x) rid) out.

(** The rules of a step have ids of their own (the primary key of the table). *)
Definition keyed (s : LoopStep) : Prop := ∀ rules, step_rules s = Some rules → NoDup (map rule_id rules).

Lemma sequence_rules_keyed rules :
  NoDup (map rule_id rules) → NoDup (map (λ rs : AutopilotRuleRow * SequenceSpec, rule_id rs.1) (sequence_rules rules)).
Proof.
  unfold sequence_rules. induction rules as [|r rules IH]; intros Hn; [apply NoDup_nil_2|].
  cbn [map] in Hn. apply list.NoDup_cons in Hn as [Hr Hn]. specialize (IH Hn). cbn [List.filter].
  destruct (rule_enabled r); [|done]. cbn [omap list_omap]. destruct (sequence r ≫= parse_spec) as [spec|]; [|done].
  cbn [mbind option_bind map]. apply NoDup_cons_2; [|done]. intros Hin. apply Hr.
  apply list_elem_of_In, in_map_iff in Hin as ([r' spec'] & Er & Hin). cbn [fst] in Er. rewrite <- Er.
  apply list_elem_of_In, list_elem_of_omap in Hin as (r'' & Hin & Hs). destruct (sequence r'' ≫= parse_spec); [|done].
  injection Hs as -> _. apply list_elem_of_In, in_map_iff. exists r'. split; [done|].
  apply elem_of_retain in Hin as [Hin _]. by apply list_elem_of_In.
Qed.

Section fold.
Context (f : AutopilotRuleRow * SequenceSpec → list PendingMatch → list Resolution * list PendingMatch).
Context (g : list Resolution * Pending → AutopilotRuleRow * SequenceSpec → list Resolution * Pending).
Context (Hf : ∀ r q, Forall (λ x, res_rule_id x = rule_id r.1) (f r q).1).
Context (Hout : ∀ acc r, (g acc r).1 = acc.1 ++ (f r (queue_of acc.2 (rule_id r.1))).1).
Context (Hnew : ∀ acc r, queue_of (g acc r).2 (rule_id r.1) = (f r (queue_of acc.2 (rule_id r.1))).2).
Context (Hold : ∀ acc r id, id ≠ rule_id r.1 → queue_of (g acc r).2 id = queue_of acc.2 id).

Lemma for_rule_all rid out : Forall (λ x, res_rule_id x = rid) out → for_rule rid out = out.
Proof.
  induction 1 as [|x out Hx _ IH]; [done|]. unfold for_rule in *. cbn [List.filter].
  unfold ustr_eqb at 1. rewrite bool_decide_eq_true_2 by done. by f_equal.
Qed.
Lemma for_rule_none rid rid' out : rid' ≠ rid → Forall (λ x, res_rule_id x = rid') out → for_rule rid out = [].
Proof.
  intros Hne. induction 1 as [|x out Hx _ IH]; [done|]. unfold for_rule in *. cbn [List.filter].
  unfold ustr_eqb at 1. rewrite bool_decide_eq_false_2 by congruence. done.
Qed.

Lemma fold_rule rid rs : ∀ acc,
  NoDup (map (λ r : AutopilotRuleRow * SequenceSpec, rule_id r.1) rs) →
  let r := List.find (λ r : AutopilotRuleRow * SequenceSpec, ustr_eqb (rule_id r.1) rid) rs in
  for_rule rid (foldl g acc rs).1
  = for_rule rid acc.1 ++ match r with Some r => (f r (queue_of acc.2 rid)).1 | None => [] end
  ∧ queue_of (foldl g acc rs).2 rid = match r with Some r => (f r (queue_of acc.2 rid)).2 | None => queue_of acc.2 rid end.
Proof.
  induction rs as [|r rs IH]; intros acc Hn; [cbn; by rewrite app_nil_r|].
  cbn [map] in Hn. apply list.NoDup_cons in Hn as [Hr Hn]. cbn [foldl List.find].
  destruct (IH (g acc r) Hn) as [-> ->]. rewrite Hout. unfold for_rule at 1. rewrite List.filter_app.
  fold (for_rule rid acc.1) (for_rule rid (f r (queue_of acc.2 (rule_id r.1))).1).
  destruct (ustr_eqb (rule_id r.1) rid) eqn:E; reflect_bools.
  - assert (List.find (λ r0 : AutopilotRuleRow * SequenceSpec, ustr_eqb (rule_id r0.1) rid) rs = None) as ->.
    { destruct (List.find _ rs) as [r'|] eqn:Ef; [|done]. exfalso. apply Hr.
      apply List.find_some in Ef as [Hin Hid]. reflect_bools. apply list_elem_of_In, in_map_iff. exists r'. split; congruence. }
    rewrite <- E, Hnew, (for_rule_all _ (f r _).1) by apply Hf. cbn iota. by rewrite app_nil_r.
  - rewrite (for_rule_none rid (rule_id r.1) (f r _).1), app_nil_r by (done || apply Hf).
    by rewrite Hold by congruence.
Qed.
End fold.

Lemma match_queue_ids r spec name fs now queue :
  Forall (λ x, res_rule_id x = rule_id r) (match_queue r spec name fs now queue).1.
Proof.
  unfold match_queue. repeat case_match; simplify_eq/=; repeat first [apply List.Forall_nil | apply List.Forall_cons; [done|]].
Qed.

Lemma expire_queue_ids r spec now queue : Forall (λ x, res_rule_id x = rule_id r) (expire_queue r spec now queue).1.
Proof.
  unfold expire_queue. destruct (negate spec); [|apply List.Forall_nil]. cbn [fst]. apply Forall_map.
  by apply List.Forall_forall.
Qed.

(** A step treats every rule by its own windows alone. *)
Lemma loop_step_rule s pending rid :
  keyed s →
  for_rule rid (loop_step s pending).1 = (rule_step s rid (queue_of pending rid)).1
  ∧ queue_of (loop_step s pending).2 rid = (rule_step s rid (queue_of pending rid)).2.
Proof.
  intros Hk. unfold loop_step, rule_step, rule_of. destruct (wake s) as [e|n|] eqn:Ew.
  - unfold on_event. destruct (step_rules s) as [rules|] eqn:Er; [|by destruct (ustr_eqb (event_name e) (b "cep_trigger"))].
    destruct (ustr_eqb (event_name e) (b "cep_trigger")) eqn:Ec.
    { cbn [mbind option_bind]. by destruct (List.find _ _) as [[]|]. }
    cbv zeta. cbn [mbind option_bind].
    match goal with |- for_rule _ (foldl ?g _ _).1 = _ ∧ _ =>
      destruct (fold_rule (λ rs q, match_queue rs.1 rs.2 (event_name e) (to_fields e) (step_now s) q) g) with
        (rid := rid) (rs := sequence_rules rules) (acc := ([] : list Resolution, pending)) as [-> ->] end.
    + intros [r spec] q. apply match_queue_ids.
    + intros acc rs. cbv beta zeta. fold (queue_of acc.2 (rule_id rs.1)). by destruct (match_queue _ _ _ _ _ _).
    + intros acc rs. cbv beta zeta. fold (queue_of acc.2 (rule_id rs.1)). destruct (match_queue _ _ _ _ _ _) as [o q].
      unfold queue_of. cbn [snd]. by rewrite lookup_insert_eq.
    + intros acc rs id Hid. cbv beta zeta. destruct (match_queue _ _ _ _ _ _) as [o q]. unfold queue_of. cbn [snd]. by rewrite lookup_insert_ne.
    + by apply sequence_rules_keyed, Hk.
    + destruct (List.find _ _) as [[r spec]|]; [|done]. done.
  - by destruct (step_rules s ≫= _) as [[]|].
  - unfold expire_negate_windows. destruct (step_rules s) as [rules|] eqn:Er; [|done]. cbn [mbind option_bind].
    match goal with |- for_rule _ (foldl ?g _ _).1 = _ ∧ _ =>
      destruct (fold_rule (λ rs q, expire_queue rs.1 rs.2 (step_now s) q) g) with
        (rid := rid) (rs := sequence_rules rules) (acc := ([] : list Resolution, pending)) as [-> ->] end.
    + intros [r spec] q. apply expire_queue_ids.
    + intros acc rs. unfold queue_of. destruct (acc.2 !! rule_id rs.1) as [q|]; cbn [default].
      * by destruct (expire_queue _ _ _ _).
      * unfold expire_queue. destruct (negate rs.2); by rewrite app_nil_r.
    + intros acc rs. unfold queue_of. destruct (acc.2 !! rule_id rs.1) as [q|] eqn:Eq; cbn [default id].
      * destruct (expire_queue _ _ _ _) as [o q']. cbn [snd]. by rewrite lookup_insert_eq.
      * rewrite Eq. unfold expire_queue. by destruct (negate rs.2).
    + intros acc rs id Hid. unfold queue_of. destruct (acc.2 !! rule_id rs.1) as [q|]; [|done].
      destruct (expire_queue _ _ _ _) as [o q']. cbn [snd]. by rewrite lookup_insert_ne.
    + by apply sequence_rules_keyed, Hk.
    + destruct (List.find _ _) as [[r spec]|]; [|done]. done.
Qed.

(** ** Windows *)

(** The window a step opens for a rule. *)
Definition opens (s : LoopStep) (rid : bytes) : option PendingMatch :=
  match wake s, rule_of (step_rules s) rid with
  | Received e, Some (_, spec) =>
      if negb (ustr_eqb (event_name e) (b "cep_trigger")) && ustr_eqb (event_name e) (step_event (first spec))
         && evaluate (to_fields e) (match_cond (first spec))
      then Some {| deadline := step_now s + secs (Z.max (within_secs spec) 1); first_fields := to_fields e |}
      else None
  | _, _ => None
  end.

(** Why a window resolves at a step: the second event came in time, or, for a
    negated rule, a tick found it past its deadline. *)
Definition resolves (s : LoopStep) (spec : SequenceSpec) (p : PendingMatch) (x : Resolution) : Prop :=
  match wake s with
  | Received e =>
      negate spec = false ∧ event_name e = step_event (then_ spec) ∧ evaluate (to_fields e) (match_cond (then_ spec)) = true
      ∧ step_now s < deadline p ∧ res_fields x = to_fields e ∪ first_fields p
  | Lagged _ => False
  | Ticked => negate spec = true ∧ deadline p ≤ step_now s ∧ res_fields x = first_fields p
  end.

Lemma match_queue_spec r spec name fs now queue :
  let '(out, q') := match_queue r spec name fs now queue in
  let opening := ustr_eqb name (step_event (first spec)) && evaluate fs (match_cond (first spec)) in
  let new := {| deadline := now + secs (Z.max (within_secs spec) 1); first_fields := fs |} in
  (∀ p, p ∈ q' → p ∈ queue ∨ (opening = true ∧ p = new))
  ∧ (length q' + length out ≤ length queue + if opening then 1 else 0)%nat
  ∧ ((length queue ≤ MAX_PENDING_PER_RULE)%nat → (length q' ≤ MAX_PENDING_PER_RULE)%nat)
  ∧ (∀ x, x ∈ out → negate spec = false ∧ name = step_event (then_ spec) ∧ evaluate fs (match_cond (then_ spec)) = true
       ∧ ∃ p, p ∈ queue ∧ now < deadline p ∧ res_fields x = fs ∪ first_fields p).
Proof.
  unfold match_queue. set (live := retain (λ p, now <? deadline p) queue).
  assert (∀ p, p ∈ live → p ∈ queue ∧ now < deadline p) as Hlive.
  { intros p [? ?]%elem_of_retain. reflect_bools. done. }
  assert (length live ≤ length queue)%nat as Hlen by apply length_retain. clearbody live.
  set (opening := ustr_eqb name (step_event (first spec)) && _).
  set (closing := ustr_eqb name (step_event (then_ spec)) && _).
  assert (∃ out q1, (if closing then match live with [] => ([], []) | opened :: rest =>
            if negate spec then ([], rest)
            else ([{| res_rule_id := rule_id r; res_then_event := name;
                      res_fields := merge_trigger_fields (first_fields opened) (Some fs) |}], rest) end
          else ([], live)) = (out, q1)
    ∧ (∀ p, p ∈ q1 → p ∈ queue) ∧ (length q1 + length out ≤ length queue)%nat
    ∧ (∀ x, x ∈ out → negate spec = false ∧ closing = true ∧ ∃ p, p ∈ queue ∧ now < deadline p ∧ res_fields x = fs ∪ first_fields p))
    as (out & q1 & -> & Hq & Hc & Hout).
  { destruct closing; [destruct live as [|p live]; [|destruct (negate spec)]|]; do 2 eexists; (split; [reflexivity|]).
    - split; [by intros ? ?%elem_of_nil|]. split; [cbn; lia|by intros ? ?%elem_of_nil].
    - split; [intros p' Hp; apply (Hlive p'); by right|]. cbn [length] in *. split; [lia|by intros ? ?%elem_of_nil].
    - split; [intros p' Hp; apply (Hlive p'); by right|]. cbn [length] in *. split; [lia|].
      intros x ->%list_elem_of_singleton. destruct (Hlive p) as [? ?]; [by left|]. do 2 (split; [done|]). by exists p.
    - split; [intros p' Hp; by apply (Hlive p')|]. cbn [length]. split; [lia|by intros ? ?%elem_of_nil]. }
  assert (∀ x, x ∈ out → negate spec = false ∧ name = step_event (then_ spec) ∧ evaluate fs (match_cond (then_ spec)) = true
       ∧ ∃ p, p ∈ queue ∧ now < deadline p ∧ res_fields x = fs ∪ first_fields p) as Hout'.
  { intros x Hx. destruct (Hout x Hx) as (? & Hcl & ?). unfold closing in Hcl. reflect_bools. done. }
  destruct opening; cbv zeta.
  2: { split; [auto|]. split; [lia|]. split; [lia|done]. }
  assert (∀ q2, q2 = (if (MAX_PENDING_PER_RULE <=? length q1)%nat then drop 1 q1 else q1) →
    (∀ p, p ∈ q2 → p ∈ q1) ∧ (length q2 ≤ length q1)%nat ∧ ((length q1 ≤ MAX_PENDING_PER_RULE)%nat → (length q2 < MAX_PENDING_PER_RULE)%nat))
    as Hq2.
  { intros q2 ->. destruct (_ <=? _)%nat eqn:E; reflect_bools; [|split; [auto|lia]].
    rewrite length_drop. unfold MAX_PENDING_PER_RULE in *.
    split; [intros p Hp; rewrite <- (take_drop 1 q1); apply elem_of_app; by right|lia]. }
  destruct (Hq2 _ eq_refl) as (Hin & Hl & Hcap). split; [|split; [rewrite length_app; cbn [length]; lia|]].
  - intros p [Hp|Hp]%elem_of_app; [left; by apply Hq, Hin|]. apply list_elem_of_singleton in Hp as ->. by right.
  - split; [|done]. intros Hcq. rewrite length_app. cbn [length]. assert (length q1 ≤ MAX_PENDING_PER_RULE)%nat by lia. lia.
Qed.

Lemma expire_queue_spec r spec now queue :
  let '(out, q') := expire_queue r spec now queue in
  (∀ p, p ∈ q' → p ∈ queue) ∧ (length q' + length out ≤ length queue)%nat
  ∧ (∀ x, x ∈ out → negate spec = true ∧ ∃ p, p ∈ queue ∧ deadline p ≤ now ∧ res_fields x = first_fields p).
Proof.
  unfold expire_queue. destruct (negate spec).
  - split; [by intros p [? _]%elem_of_retain|]. split.
    + rewrite length_map. induction queue as [|p queue IH]; [done|]. cbn. destruct (deadline p <=? now); cbn; lia.
    + intros x Hx. apply list_elem_of_In, in_map_iff in Hx as (p & <- & Hp%list_elem_of_In). split; [done|].
      apply elem_of_retain in Hp as [? ?]. reflect_bools. by exists p.
  - split; [by intros p [? _]%elem_of_retain|]. cbn [length]. pose proof (length_retain (λ p, now <? deadline p) queue).
    split; [lia|by intros ? ?%elem_of_nil].
Qed.

(** A step that leaves the windows as they are. *)
Local Ltac unchanged :=
  split; [by intros; left|split; [cbn [length]; lia|split; [lia|by intros ? ?%elem_of_nil]]].

Lemma rule_step_spec s rid queue :
  let '(out, q') := rule_step s rid queue in
  (∀ p, p ∈ q' → p ∈ queue ∨ opens s rid = Some p)
  ∧ (length q' + length out ≤ length queue + if opens s rid then 1 else 0)%nat
  ∧ ((length queue ≤ MAX_PENDING_PER_RULE)%nat → (length q' ≤ MAX_PENDING_PER_RULE)%nat)
  ∧ (∀ x, x ∈ out → ∃ r spec p, rule_of (step_rules s) rid = Some (r, spec) ∧ p ∈ queue ∧ resolves s spec p x).
Proof.
  unfold rule_step, opens, resolves.
  destruct (rule_of (step_rules s) rid) as [[r spec]|] eqn:Er.
  2: { destruct (wake s); unchanged. }
  destruct (wake s) as [e|n|] eqn:Ew.
  - destruct (ustr_eqb (event_name e) (b "cep_trigger")); cbn [negb andb].
    { unchanged. }
    pose proof (match_queue_spec r spec (event_name e) (to_fields e) (step_now s) queue) as Hs.
    destruct (match_queue _ _ _ _ _ _) as [out q']. destruct Hs as (H1 & H2 & H3 & H4). cbv zeta in *.
    destruct (ustr_eqb (event_name e) (step_event (first spec)) && _).
    + split; [intros p Hp; destruct (H1 p Hp) as [?|[_ ->]]; auto|]. split; [done|]. split; [done|].
      intros x Hx. destruct (H4 x Hx) as (? & ? & ? & p & ? & ? & ?). by exists r, spec, p.
    + split; [intros p Hp; destruct (H1 p Hp) as [?|[? _]]; [by left|done]|]. split; [done|]. split; [done|].
      intros x Hx. destruct (H4 x Hx) as (? & ? & ? & p & ? & ? & ?). by exists r, spec, p.
  - unchanged.
  - pose proof (expire_queue_spec r spec (step_now s) queue) as Hs. destruct (expire_queue _ _ _ _) as [out q'].
    destruct Hs as (H1 & H2 & H3). split; [auto|]. split; [lia|]. split; [lia|].
    intros x Hx. destruct (H3 x Hx) as (? & p & ? & ? & ?). by exists r, spec, p.
Qed.

(** ** Runs *)

Lemma run_loop_snoc steps s : ∀ pending,
  run_loop (steps ++ [s]) pending
  = ((run_loop steps pending).1 ++ [(loop_step s (run_loop steps pending).2).1], (loop_step s (run_loop steps pending).2).2).
Proof.
  induction steps as [|s' steps IH]; intros pending; cbn [run_loop app fst snd]; [by destruct (loop_step s pending)|].
  destruct (loop_step s' pending) as [out p]. rewrite IH. by destruct (run_loop steps p).
Qed.

(** The resolutions of a rule, and the windows opened for it. *)
Definition resolved (rid : bytes) (outs : list (list Resolution)) : nat := length (concat (map (for_rule rid) outs)).
Definition opened (rid : bytes) (steps : list LoopStep) : nat := length (omap (λ s, opens s rid) steps).

Lemma run_windows rid steps :
  Forall keyed steps →
  let queue := queue_of (run_loop steps ∅).2 rid in
  (∀ p, p ∈ queue → ∃ s, s ∈ steps ∧ opens s rid = Some p)
  ∧ (length queue + resolved rid (run_loop steps ∅).1 ≤ opened rid steps)%nat
  ∧ (length queue ≤ MAX_PENDING_PER_RULE)%nat.
Proof.
  induction steps as [|s steps IH] using rev_ind; intros Hk; cbv zeta.
  { unfold queue_of. cbn [run_loop fst snd]. rewrite lookup_empty. cbn. split; [by intros ? ?%elem_of_nil|].
    unfold MAX_PENDING_PER_RULE. lia. }
  apply Forall_app in Hk as [Hk Hs]. apply List.Forall_cons_iff in Hs as [Hs _]. specialize (IH Hk) as (H1 & H2 & H3).
  rewrite run_loop_snoc. cbn [fst snd]. destruct (loop_step_rule s (run_loop steps ∅).2 rid Hs) as [Ho ->].
  pose proof (rule_step_spec s rid (queue_of (run_loop steps ∅).2 rid)) as Hr.
  unfold resolved, opened in *. rewrite map_app, concat_app, length_app, omap_app, length_app. cbn [map concat]. rewrite app_nil_r, Ho.
  destruct (rule_step _ _ _) as [out q']. destruct Hr as (R1 & R2 & R3 & _). cbn [fst snd omap list_omap].
  split; [|split; [destruct (opens s rid); cbn [length]; lia|auto]].
  intros p Hp. destruct (R1 p Hp) as [Hq|Hn].
  - destruct (H1 p Hq) as (s' & ? & ?). exists s'. split; [apply elem_of_app; by left|done].
  - exists s. split; [apply elem_of_app; right; by left|done].
Qed.

(** C29 Whatever the events, the ticks, and the edits of the rules, a sequence
    rule is announced only after an earlier event that matched its [first]
    opened a window: a positive rule when an event matching [then] comes before
    that window's deadline, a negated one when a tick finds the window past it;
    and the announcement carries the fields of both events, the later ones
    first, or those of the first event alone. *)
Theorem sequences_sound (steps : list LoopStep) (s : LoopStep) (x : Resolution) :
  Forall keyed (steps ++ [s]) →
  x ∈ (loop_step s (run_loop steps ∅).2).1 →
  ∃ r spec s0 p, rule_of (step_rules s) (res_rule_id x) = Some (r, spec)
    ∧ s0 ∈ steps ∧ opens s0 (res_rule_id x) = Some p ∧ resolves s spec p x.
Proof.
  intros Hk Hx. apply Forall_app in Hk as [Hk Hs]. apply List.Forall_cons_iff in Hs as [Hs _]. set (rid := res_rule_id x).
  assert (x ∈ for_rule rid (loop_step s (run_loop steps ∅).2).1) as Hin.
  { apply elem_of_retain. split; [done|]. by apply bool_decide_eq_true_2. }
  rewrite (proj1 (loop_step_rule s _ rid Hs)) in Hin.
  pose proof (rule_step_spec s rid (queue_of (run_loop steps ∅).2 rid)) as Hr.
  destruct (rule_step _ _ _) as [out q']. destruct Hr as (_ & _ & _ & Hout).
  destruct (Hout x Hin) as (r & spec & p & Hrule & Hp & Hres).
  destruct (proj1 (run_windows rid steps Hk) p Hp) as (s0 & Hs0 & Ho). by exists r, spec, s0, p.
Qed.

(** A window is used once and the windows are bounded: over any run a rule
    is announced at most as often as windows were opened for it, and never has
    more than a hundred open. *)
Theorem windows_used_once (rid : bytes) (steps : list LoopStep) :
  Forall keyed steps →
  (length (queue_of (run_loop steps ∅).2 rid) + resolved rid (run_loop steps ∅).1 ≤ opened rid steps)%nat
  ∧ (length (queue_of (run_loop steps ∅).2 rid) ≤ MAX_PENDING_PER_RULE)%nat.
Proof. intros Hk. destruct (run_windows rid steps Hk) as (_ & ? & ?). done. Qed.

(** A positive pattern that completes is announced: the event that matches
    [then] resolves the oldest window still in time, once; and a tick announces
    every window of a negated rule that it finds past its deadline. *)
Theorem sequences_complete (steps : list LoopStep) (s : LoopStep) rid r spec :
  Forall keyed (steps ++ [s]) → rule_of (step_rules s) rid = Some (r, spec) →
  let queue := queue_of (run_loop steps ∅).2 rid in
  let out := for_rule rid (loop_step s (run_loop steps ∅).2).1 in
  match wake s with
  | Received e =>
      ∀ p rest, event_name e ≠ b "cep_trigger" → negate spec = false → event_name e = step_event (then_ spec) →
        evaluate (to_fields e) (match_cond (then_ spec)) = true → retain (λ p, step_now s <? deadline p) queue = p :: rest →
        out = [{| res_rule_id := rule_id r; res_then_event := event_name e; res_fields := to_fields e ∪ first_fields p |}]
  | Lagged _ => out = []
  | Ticked =>
      negate spec = true →
      map res_fields out = map first_fields (retain (λ p, deadline p <=? step_now s) queue)
  end.
Proof.
  intros Hk Hr. apply Forall_app in Hk as [_ Hs]. apply List.Forall_cons_iff in Hs as [Hs _]. cbv zeta.
  rewrite (proj1 (loop_step_rule s _ rid Hs)). unfold rule_step. rewrite Hr. destruct (wake s) as [e|n|]; [|done|].
  - intros p rest Hc Hn Ht He Hq. unfold ustr_eqb at 1. rewrite bool_decide_eq_false_2 by done.
    unfold match_queue. rewrite Hq, He, Hn. unfold ustr_eqb at 1. rewrite bool_decide_eq_true_2 by done. cbn [andb].
    by destruct (_ && _).
  - intros Hn. unfold expire_queue. rewrite Hn. cbn [fst]. rewrite map_map. done.
Qed.

(** ** Accepted sequences *)

Lemma each_ok_all {A} (f : A → result unit bytes) l : each_ok f l = Ok tt → ∀ x, x ∈ l → f x = Ok tt.
Proof.
  induction l as [|y l IH]; cbn; [by intros _ ? ?%elem_of_nil|]. destruct (f y) as [[]|] eqn:E; [|done].
  intros Hl x [-> |Hx]%elem_of_cons; auto.
Qed.

Lemma match_group_spec check label k es :
  match match_group check label k es with
  | None => entry es (b k) = None
  | Some (Ok _) => ∃ items, entry es (b k) = Some (VArray items) ∧ ∀ x, x ∈ items → check x = Ok tt
  | Some (Err _) => True
  end.
Proof.
  induction es as [|[k' v'] es IH]; [done|]. cbn. destruct (ustr_eqb k' (b k)); [|exact IH].
  destruct v' as [| | | |items|]; try done. destruct (each_ok check items) as [[]|] eqn:E; [|done].
  exists items. split; [done|by apply each_ok_all].
Qed.

Lemma shape_denotes label c : validate_match_shape c label = Ok tt → ∃ F, denotes c F.
Proof.
  induction c as [c IH] using condition_ind. destruct c as [| | | | |es]; try done; [by intros _; eexists; constructor|].
  cbn [validate_match_shape]. pose proof (match_group_spec (λ c, validate_match_shape c label) label "all" es) as Ha.
  destruct (match_group _ _ "all" es) as [[[]|]|]; [|done|].
  { intros _. destruct Ha as (items & Hk & Hx). destruct (Forall2_exists denotes items) as [Fs HF].
    { intros x Hin. by eapply (IH es _ items x), Hx. }
    exists (All Fs). by eapply denotes_all. }
  pose proof (match_group_spec (λ c, validate_match_shape c label) label "any" es) as Hy.
  destruct (match_group _ _ "any" es) as [[[]|]|]; [|done|].
  { intros _. destruct Hy as (items & Hk & Hx). destruct (Forall2_exists denotes items) as [Fs HF].
    { intros x Hin. by eapply (IH es _ items x), Hx. }
    exists (Any Fs). by eapply denotes_any. }
  unfold match_leaf. destruct (entry es (b "field")) as [[| | |f| |]|] eqn:Ef; cbn [mbind option_bind value_as_str]; try done.
  destruct (is_empty f); [done|]. destruct (entry es (b "op")) as [[| | |op| |]|] eqn:Eo; cbn [mbind option_bind value_as_str]; try done.
  destruct (existsb (ustr_eqb op) CONDITION_OPS) eqn:Ek; [|done]. intros _. apply op_known in Ek as [o ->].
  exists (Leaf f o (default VNull (entry es (b "value")))). apply denotes_leaf; auto.
Qed.

(** C38 A sequence accepted at write time is legal: both of its events are ones
    the bus carries and neither is the synthetic trigger, its window is between
    a second and a day, and its conditions stand for formulas, to whose truth
    the matcher evaluates them. *)
Theorem sequence_specs_legal (spec : SequenceSpec) :
  validate_sequence_spec (Ok spec) = Ok tt →
  1 ≤ within_secs spec ≤ 86400
  ∧ ∀ step, step ∈ [first spec; then_ spec] →
      step_event step ∈ KNOWN_EVENT_NAMES ∧ step_event step ≠ b "cep_trigger"
      ∧ ∃ F, denotes (match_cond step) F ∧ ∀ fs, evaluate fs (match_cond step) = true ↔ sem fs F.
Proof.
  assert (∀ step label, validate_step step label = Ok tt → step_event step ∈ KNOWN_EVENT_NAMES ∧ step_event step ≠ b "cep_trigger"
      ∧ ∃ F, denotes (match_cond step) F ∧ ∀ fs, evaluate fs (match_cond step) = true ↔ sem fs F) as Hstep.
  { intros step label. unfold validate_step. destruct (existsb _ KNOWN_EVENT_NAMES) eqn:Ek; [|done]. cbn [negb].
    intros [F HF]%shape_denotes. apply existsb_exists in Ek as (nm & Hin & Hnm). reflect_bools. subst nm.
    split; [by apply list_elem_of_In|]. split; [|exists F; split; [done|intros; by apply denotes_sem]].
    intros E. rewrite E in Hin. apply list_elem_of_In in Hin. revert Hin.
    apply (bool_decide_unpack (b "cep_trigger" ∉ KNOWN_EVENT_NAMES)). vm_compute. exact I. }
  unfold validate_sequence_spec. destruct (validate_step (first spec) "first") as [[]|] eqn:E1; [|done].
  destruct (validate_step (then_ spec) "then") as [[]|] eqn:E2; [|done].
  destruct (_ && _) eqn:Ew; [|done]. intros _. reflect_bools. unfold WITHIN_SECS_MIN, WITHIN_SECS_MAX in *. split; [lia|].
  intros step [-> |[-> |[]%elem_of_nil]%elem_of_cons]%elem_of_cons; eauto.
Qed.
End cep.

(** ** Concrete runs *)

Definition demo_sequence (neg : bool) : SequenceSpec :=
  {| first := {| step_event := b "agent_idle"; match_cond := leaf "agent_id" "eq" (str "a") |};
     then_ := {| step_event := b "channel_message"; match_cond := VNull |};
     within_secs := 10; negate := neg |}.
Definition demo_parse (s : bytes) : option SequenceSpec :=
  if ustr_eqb s (b "then") then Some (demo_sequence false)
  else if ustr_eqb s (b "not") then Some (demo_sequence true) else None.
Definition demo_rule (id : string) (seq : option bytes) : AutopilotRuleRow :=
  {| rule_id := b id; rule_name := b "demo"; rule_enabled := true; trigger_event := b "cron_tick"; conditions := b "{}";
     action := b "{}"; created_at := []; last_triggered_at := None; trigger_count := 0; sequence := seq; metadata := None |}.
Definition demo_rules : list AutopilotRuleRow := [demo_rule "r" (Some (b "then")); demo_rule "n" (Some (b "not")); demo_rule "o" None].

Definition demo_at (w : Wake) (t : Z) : LoopStep := {| wake := w; step_rules := Some demo_rules; step_now := secs t |}.
Definition idle_event : AutopilotEvent := AgentIdle (b "a") 5.
Definition message_event : AutopilotEvent := ChannelMessage (b "line") (b "a") (b "hi").
Definition demo_run (steps : list LoopStep) : list (list bytes) :=
  map (map res_rule_id) (run_loop (H := demo_values) (H0 := demo_paths) demo_parse steps ∅).1.

(** The rule [r] waits for the message, the rule [n] for its absence. *)
Example demo_sequences :
  demo_run [demo_at (Received idle_event) 0; demo_at (Received message_event) 9; demo_at Ticked 30] = [[]; [b "r"]; []]
  ∧ demo_run [demo_at (Received idle_event) 0; demo_at Ticked 30; demo_at (Received message_event) 31] = [[]; [b "n"]; []].
Proof. split; vm_compute; reflexivity. Qed.

(** The absence is lost when any event at all comes between the deadline and
    the tick, even one that has nothing to do with the rule; and one message
    answers only the oldest window, though it came within the second one too. *)
Example negation_lost :
  demo_run [demo_at (Received idle_event) 0; demo_at (Received (CronTick [])) 11; demo_at Ticked 30] = [[]; []; []]
  ∧ demo_run [demo_at (Received idle_event) 0; demo_at (Received idle_event) 1; demo_at (Received message_event) 5;
              demo_at Ticked 30] = [[]; []; [b "r"]; [b "n"]].
Proof. split; vm_compute; reflexivity. Qed.

Definition demo_past : list LoopStep := [demo_at (Received idle_event) 0].

Lemma demo_keyed w t : keyed (demo_at w t).
Proof. intros rules [= <-]. apply (bool_decide_unpack _). vm_compute. exact I. Qed.

Definition demo_resolution : Resolution :=
  {| res_rule_id := b "r"; res_then_event := b "channel_message";
     res_fields := to_fields (H := demo_values) (H0 := demo_paths) message_event
                   ∪ to_fields (H := demo_values) (H0 := demo_paths) idle_event |}.

Lemma sequences_sound_witness :
  ∃ s0, s0 ∈ demo_past ∧ is_Some (opens (H := demo_values) (H0 := demo_paths) demo_parse s0 (res_rule_id demo_resolution)).
Proof.
  destruct (sequences_sound (H := demo_values) (H0 := demo_paths) demo_parse demo_past
    (demo_at (Received message_event) 9) demo_resolution) as (r & spec & s0 & p & _ & Hs & Ho & _).
  - repeat (apply List.Forall_cons; [apply demo_keyed|]). apply List.Forall_nil.
  - apply list_elem_of_In. vm_compute. left. reflexivity.
  - exists s0. split; [exact Hs|]. exists p. exact Ho.
Defined.

Lemma windows_used_once_witness :
  (length (queue_of (run_loop (H := demo_values) (H0 := demo_paths) demo_parse demo_past ∅).2 (b "r"))
   ≤ MAX_PENDING_PER_RULE)%nat.
Proof.
  apply (windows_used_once (H := demo_values) (H0 := demo_paths) demo_parse (b "r") demo_past).
  repeat (apply List.Forall_cons; [apply demo_keyed|]). apply List.Forall_nil.
Defined.

Lemma sequences_complete_witness :
  let before := run_loop (H := demo_values) (H0 := demo_paths) demo_parse demo_past ∅ in
  map res_fields (for_rule (b "n") (loop_step (H := demo_values) (H0 := demo_paths) demo_parse (demo_at Ticked 30) before.2).1)
  = map first_fields (retain (λ p, deadline p <=? step_now (demo_at Ticked 30)) (queue_of before.2 (b "n"))).
Proof.
  pose proof (sequences_complete (H := demo_values) (H0 := demo_paths) demo_parse demo_past (demo_at Ticked 30) (b "n")
    (demo_rule "n" (Some (b "not"))) (demo_sequence true)) as Hc. cbv zeta in Hc. cbn [wake demo_at] in Hc. apply Hc.
  - repeat (apply List.Forall_cons; [apply demo_keyed|]). apply List.Forall_nil.
  - vm_compute. reflexivity.
  - reflexivity.
Defined.

Lemma sequence_specs_legal_witness : 1 ≤ within_secs (demo_sequence true) ≤ 86400.
Proof.
  apply (sequence_specs_legal (H := demo_values) (demo_sequence true)). vm_compute. reflexivity.
Defined.

(** A trigger that an MCP event began does not say so: the fields of the second
    event hide its name. *)
Example mcp_origin_hidden :
  merge_trigger_fields (to_fields (H := demo_values) (H0 := demo_paths)
      (McpEvent [] (b "a") (b "srv") (b "n") [] (b "explore") [] VNull false))
    (Some (to_fields (H := demo_values) (H0 := demo_paths) message_event)) !! b "event" = Some (str "channel_message").
Proof. vm_compute. reflexivity. Qed.
