(* ===== verification/AuditChain.v ===== *)
(** * The hash-chained audit log (crates/duduclaw-security/src/audit_chain.rs)

    Each line of a JSONL file carries the SHA-256 of the line before it.
    SHA-256 and the JSON encoder are the interfaces [Sha256] and
    [JsonLines]; a file is its bytes, [None] when it does not exist. *)

From S2P Require Import Prelude.
From S2P Require Import Bytes.
From S2P Require Import Utf8.
From S2P Require Import JsonValue.

(** The digest as a string of bytes. *)
Class Sha256 := { sha256 : bytes → bytes }.

Abbreviation object := (list (bytes * Value)).

(** [serde_json] on objects: what is written parses back to an object with the
    same [_prev_hash], and is one line of valid UTF-8. *)
Class JsonLines := {
  map_insert : object → bytes → Value → object;
  map_get : object → bytes → option Value;
  map_get_insert o k v : map_get (map_insert o k v) k = Some v;
  to_string : object → option bytes;
  from_str : bytes → option Value;
  from_to_string o s k x :
    to_string o = Some s → map_get o k = Some (VString x) →
    ∃ o', from_str s = Some (VObject o') ∧ map_get o' k = Some (VString x);
  to_string_one_line o s : to_string o = Some s → 10%N ∉ s ∧ list.last s ≠ Some 13%N;
  to_string_text o s : to_string o = Some s → valid_utf8 s = true ∧ existsb (λ c, negb (is_whitespace c)) (utf8_decode s) = true;
}.

(** ** Lines *)

Definition strip_cr (l : bytes) : bytes := default l (strip_suffix l [13%N]).

(** [str::lines] and [BufRead::lines]: [cur] is the line being read. *)
Fixpoint lines_loop (cur s : bytes) : list bytes :=
  match s with
  | [] => if is_empty cur then [] else [cur]
  | x :: r => if (x =? 10)%N then strip_cr cur :: lines_loop [] r else lines_loop (cur ++ [x]) r
  end.
Definition lines (s : bytes) : list bytes := lines_loop [] s.

(** [line.trim().is_empty()]. *)
Definition is_blank (line : bytes) : bool := negb (existsb (λ c, negb (is_whitespace c)) (utf8_decode line)).

(** ** Hashes *)

Definition genesis_hash : bytes := replicate 64 48%N.
Definition PREV_HASH : bytes := b "_prev_hash".

Definition sha256_hex `{Sha256} (data : bytes) : bytes := hex_lower (sha256 data).

Inductive io_error := DirFailed | OpenFailed | LockFailed | ReadFailed | NotUtf8 | Unserializable | WriteFailed | SyncFailed.

(** What goes wrong during one append; a failing write leaves some bytes. *)
Record append_faults := {
  dir_fails : bool;
  open_fails : bool;
  lock_fails : bool;
  read_fails : bool;
  written_before_failing : option nat;
  sync_fails : bool;
}.
Definition no_faults : append_faults := {|
  dir_fails := false; open_fails := false; lock_fails := false; read_fails := false;
  written_before_failing := None; sync_fails := false
|}.

Inductive ChainVerifyResult :=
| Intact (lines_checked : nat)
| Broken (line_number : nat).

Section chain.
Context `{Sha256} `{JsonLines}.
Implicit Types (F : append_faults) (content : bytes) (record : object).

(** [last_line_hash]. *)
Definition last_line (ls : list bytes) : bytes :=
  foldl (λ last line, if is_blank line then last else line) [] ls.

Definition last_line_hash F (file : option bytes) : result bytes io_error :=
  match file with
  | None => Ok genesis_hash
  | Some content =>
      if read_fails F then Err ReadFailed
      else if negb (valid_utf8 content) then Err NotUtf8
      else
        let last := last_line (lines content) in
        Ok (if is_empty last then genesis_hash else sha256_hex last)
  end.

(** [chain_and_write], the file being open for appending. *)
Definition chain_and_write F content record : result unit io_error * bytes :=
  match last_line_hash F (Some content) with
  | Err e => (Err e, content)
  | Ok prev_hash =>
      match to_string (map_insert record PREV_HASH (VString prev_hash)) with
      | None => (Err Unserializable, content)
      | Some line =>
          let written := line ++ [10%N] in
          match written_before_failing F with
          | Some n => (Err WriteFailed, content ++ take n written)
          | None => (Ok tt, content ++ written)
          end
      end
  end.

(** [append_chained_line_locked], which [append_chained_line] is on Unix. *)
Definition append_chained_line F (file : option bytes) record : result unit io_error * option bytes :=
  if dir_fails F then (Err DirFailed, file)
  else if open_fails F then (Err OpenFailed, file)
  else
    let content := default [] file in
    if lock_fails F then (Err LockFailed, Some content)
    else let '(r, content') := chain_and_write F content record in (r, Some content').

(** [append_chained_line_strict]: the sidecar lock comes first, and the
    append is synced before it is reported. *)
Definition append_chained_line_strict F (file : option bytes) record : result unit io_error * option bytes :=
  if dir_fails F then (Err DirFailed, file)
  else if lock_fails F then (Err LockFailed, file)
  else if open_fails F then (Err OpenFailed, file)
  else
    match chain_and_write F (default [] file) record with
    | (Err e, content') => (Err e, Some content')
    | (Ok _, content') => (if sync_fails F then Err SyncFailed else Ok tt, Some content')
    end.

(** ** Verification *)

(** The loop of [verify_chain_content]: [line_index] lines are read. *)
Fixpoint verify_loop (line_index : nat) (prev_raw : option bytes) (checked : nat) (ls : list bytes)
    : ChainVerifyResult :=
  match ls with
  | [] => Intact checked
  | line :: ls' =>
      let line_number := S line_index in
      if is_blank line then
        if (0 <? checked)%nat then Broken line_number else verify_loop line_number prev_raw checked ls'
      else
        match from_str line with
        | Some (VObject value) =>
            match map_get value PREV_HASH with
            | Some (VString claimed) =>
                let expected := match prev_raw with None => genesis_hash | Some p => sha256_hex p end in
                if negb (ustr_eqb claimed expected) then Broken line_number
                else verify_loop line_number (Some line) (S checked) ls'
            | None =>
                if (checked =? 0)%nat then verify_loop line_number (Some line) checked ls'
                else Broken line_number
            | Some _ => Broken line_number
            end
        | _ => Broken line_number
        end
  end.

Definition verify_chain_content content : ChainVerifyResult := verify_loop 0 None 0 (lines content).

(** [verify_chain]; [fails] is a read that fails. *)
Definition verify_chain (fails : bool) (file : option bytes) : result ChainVerifyResult io_error :=
  match file with
  | None => Ok (Intact 0)
  | Some content =>
      if fails then Err ReadFailed
      else if negb (valid_utf8 content) then Err NotUtf8
      else Ok (verify_chain_content content)
  end.

(** ** Lemmas *)

(** A file whose last line is finished. *)
Definition finished content : Prop := content = [] ∨ ∃ c, content = c ++ [10%N].

Lemma lines_loop_app cur c s : lines_loop cur (c ++ 10%N :: s) = lines_loop cur (c ++ [10%N]) ++ lines_loop [] s.
Proof.
  revert cur. induction c as [|x c IH]; intros cur; [done|]. cbn [app lines_loop].
  destruct (x =? 10)%N; [|apply IH]. by rewrite IH.
Qed.

Lemma lines_app c s : finished c → lines (c ++ s) = lines c ++ lines s.
Proof.
  intros [->|[c' ->]]; [done|]. unfold lines. rewrite <- app_assoc. apply lines_loop_app.
Qed.

Lemma strip_cr_id l : list.last l ≠ Some 13%N → strip_cr l = l.
Proof.
  intros Hl. unfold strip_cr. destruct (strip_suffix l [13%N]) as [q|] eqn:E; [|done].
  apply strip_suffix_spec in E as ->. by rewrite list.last_snoc in Hl.
Qed.

Lemma lines_loop_line cur line r :
  10%N ∉ line → lines_loop cur (line ++ 10%N :: r) = strip_cr (cur ++ line) :: lines_loop [] r.
Proof.
  revert cur. induction line as [|x line IH]; intros cur Hn; cbn [app lines_loop].
  - by rewrite app_nil_r.
  - apply not_elem_of_cons in Hn as [Hx Hn]. destruct (N.eqb_spec x 10) as [->|_]; [done|].
    rewrite IH by done. by rewrite <- app_assoc.
Qed.

Lemma lines_one line : 10%N ∉ line → list.last line ≠ Some 13%N → lines (line ++ [10%N]) = [line].
Proof. intros Hn Hl. unfold lines. rewrite lines_loop_line by done. cbn. by rewrite strip_cr_id. Qed.

(** ** Appending keeps the chain *)

Lemma verify_bound i prev k ls n : verify_loop i prev k ls = Intact n → (k ≤ n ≤ k + length ls)%nat.
Proof.
  revert i prev k. induction ls as [|l ls IH]; intros i prev k; cbn [verify_loop length];
    [intros; simplify_eq; lia|].
  destruct (is_blank l); [destruct (0 <? k)%nat; [done|]; intros Hv%IH; lia|].
  destruct (from_str l) as [[]|]; try done. destruct (map_get _ _) as [[]|]; try done.
  - destruct (negb _); [done|]. intros Hv%IH. lia.
  - destruct (k =? 0)%nat; [|done]. intros Hv%IH. lia.
Qed.

(** The raw line verification goes on from, and the line an append hashes. *)
Definition last_raw (prev : option bytes) (ls : list bytes) : option bytes :=
  foldl (λ last line, if is_blank line then last else Some line) prev ls.

Lemma verify_app i prev k ls ls2 n :
  verify_loop i prev k ls = Intact n →
  verify_loop i prev k (ls ++ ls2) = verify_loop (i + length ls) (last_raw prev ls) n ls2.
Proof.
  revert i prev k. induction ls as [|l ls IH]; intros i prev k; cbn [verify_loop length app].
  - intros. simplify_eq. by rewrite Nat.add_0_r.
  - rewrite Nat.add_succ_r. unfold last_raw. cbn [foldl].
    destruct (is_blank l); [destruct (0 <? k)%nat; [done|]; apply IH|].
    destruct (from_str l) as [[]|]; try done. destruct (map_get _ _) as [[]|]; try done.
    + destruct (negb _); [done|apply IH].
    + destruct (k =? 0)%nat; [apply IH|done].
Qed.

Lemma blank_nil : is_blank [] = true.
Proof. done. Qed.

Lemma last_line_raw ls :
  (if is_empty (last_line ls) then genesis_hash else sha256_hex (last_line ls))
  = match last_raw None ls with None => genesis_hash | Some p => sha256_hex p end.
Proof.
  assert (∀ ls0 prev last, last = default [] prev → (prev = Some [] → False) →
    foldl (λ last line, if is_blank line then last else line) last ls0 = default [] (last_raw prev ls0)
    ∧ (last_raw prev ls0 = Some [] → False)) as Hf.
  { induction ls0 as [|l ls0 IH]; intros prev last -> Hp; [done|]. unfold last_raw. cbn [foldl].
    destruct (is_blank l) eqn:Eb; [by apply IH|]. apply IH; [done|].
    intros Hl. simplify_eq. }
  unfold last_line. destruct (Hf ls None []) as [-> Hn]; [done|done|].
  destruct (last_raw None ls) as [[|x p]|]; [done|done|done].
Qed.

(** The row an append writes, and what it adds to the verified rows. *)
Lemma chain_and_write_ok F content record content' n :
  chain_and_write F content record = (Ok tt, content') → finished content →
  verify_chain_content content = Intact n →
  verify_chain_content content' = Intact (S n) ∧ finished content'
  ∧ ∃ line, content' = content ++ line ++ [10%N] ∧ valid_utf8 line = true.
Proof.
  unfold chain_and_write, last_line_hash. destruct (read_fails F); [done|].
  destruct (negb (valid_utf8 content)); [done|]. cbv zeta. rewrite last_line_raw.
  destruct (to_string _) as [line|] eqn:Et; [|done].
  destruct (written_before_failing F); [done|]. intros Hw Hfin Hv. simplify_eq.
  destruct (to_string_one_line _ _ Et) as [Hnl Hcr]. destruct (to_string_text _ _ Et) as [Hutf Hbl].
  split_and!; [|right; exists (content ++ line); by rewrite app_assoc|by exists line].
  unfold verify_chain_content in *. rewrite lines_app by done. rewrite (verify_app _ _ _ _ _ _ Hv), lines_one by done.
  cbn [verify_loop]. unfold is_blank at 1. rewrite Hbl. cbn [negb].
  destruct (from_to_string _ _ PREV_HASH _ Et (map_get_insert _ _ _)) as (o' & -> & ->).
  rewrite ustr_eqb_refl. done.
Qed.

(** ** Histories *)

(** The files that appends lead to, when no write is torn; the number counts
    the rows that reached the file. *)
Inductive chained : nat → option bytes → Prop :=
| chained_start n file :
    verify_chain false file = Ok (Intact n) → finished (default [] file) → chained n file
| chained_append n file F record r file' :
    chained n file → written_before_failing F = None →
    append_chained_line F file record = (r, file') →
    chained (match r with Ok _ => S n | Err _ => n end) file'
| chained_strict n file F record r file' :
    chained n file → written_before_failing F = None →
    append_chained_line_strict F file record = (r, file') →
    chained (match r with Ok _ | Err SyncFailed => S n | Err _ => n end) file'.

Definition good n (file : option bytes) : Prop :=
  valid_utf8 (default [] file) = true ∧ finished (default [] file)
  ∧ verify_chain_content (default [] file) = Intact n.

Lemma good_verifies n file : good n file → verify_chain false file = Ok (Intact n).
Proof.
  intros (Hu & _ & Hv). unfold verify_chain.
  destruct file as [content|]; cbn [from_option default id] in *;
    [|change (Intact 0 = Intact n) in Hv; by simplify_eq].
  rewrite Hu, Hv. done.
Qed.

Lemma chain_and_write_cases F content record r content' n :
  chain_and_write F content record = (r, content') → written_before_failing F = None →
  good n (Some content) →
  match r with Ok _ => good (S n) (Some content') | Err e => content' = content ∧ e ≠ SyncFailed end.
Proof.
  intros Hw Hf (Hu & Hfin & Hv). destruct r as [[]|e].
  - destruct (chain_and_write_ok _ _ _ _ _ Hw Hfin Hv) as (H1 & H2 & line & -> & Hl).
    split_and!; [|done|done]. cbn. apply valid_utf8_app; [done|]. by apply valid_utf8_app.
  - revert Hw. unfold chain_and_write, last_line_hash.
    destruct (read_fails F); [intros; by simplify_eq|]. destruct (negb _); [intros; by simplify_eq|].
    cbv zeta. destruct (to_string _); [|intros; by simplify_eq]. by rewrite Hf.
Qed.

Lemma chained_good n file : chained n file → good n file.
Proof.
  induction 1 as [n file Hv Hfin|n file F record r file' _ IH Hf Ha|n file F record r file' _ IH Hf Ha].
  - unfold verify_chain in Hv. destruct file as [content|]; [|by simplify_eq].
    destruct (valid_utf8 content) eqn:Hu; [|done]. cbn [negb] in Hv. simplify_eq. done.
  - unfold append_chained_line in Ha. destruct (dir_fails F); [by simplify_eq|].
    destruct (open_fails F); [by simplify_eq|]. destruct (lock_fails F); [simplify_eq; exact IH|].
    destruct (chain_and_write F _ record) as [r0 content'] eqn:Ew. simplify_eq.
    apply chain_and_write_cases with (n := n) in Ew; [|done|exact IH].
    destruct r as [[]|e]; [done|]. destruct Ew as [-> _]. exact IH.
  - unfold append_chained_line_strict in Ha. destruct (dir_fails F); [by simplify_eq|].
    destruct (lock_fails F); [by simplify_eq|]. destruct (open_fails F); [by simplify_eq|].
    destruct (chain_and_write F _ record) as [r0 content'] eqn:Ew.
    apply chain_and_write_cases with (n := n) in Ew; [|done|exact IH].
    destruct r0 as [[]|e]; simplify_eq; [by destruct (sync_fails F); simplify_eq|].
    destruct Ew as [-> Hs]. destruct e; done || exact IH.
Qed.

(** The log verifies, with every row counted: from a file that verifies,
    any appends of either kind, failing or not, with no write torn, leave a
    file that verifies and counts exactly the rows that were written; and an
    append without faults writes its row, if the record can be serialized. *)
Theorem chain_stays_intact n file record :
  chained n file →
  verify_chain false file = Ok (Intact n)
  ∧ ((∀ h, is_Some (to_string (map_insert record PREV_HASH (VString h)))) →
     ∃ file', append_chained_line no_faults file record = (Ok tt, file')
       ∧ verify_chain false file' = Ok (Intact (S n))).
Proof.
  intros Hc. pose proof (chained_good _ _ Hc) as Hg. split; [by apply good_verifies|]. intros Hs.
  destruct (append_chained_line no_faults file record) as [r file'] eqn:Ea.
  assert (r = Ok tt) as ->.
  { revert Ea. unfold append_chained_line, chain_and_write, last_line_hash. cbn [dir_fails open_fails lock_fails read_fails no_faults written_before_failing].
    destruct Hg as (-> & _). cbn [negb]. cbv zeta. destruct (Hs (if is_empty (last_line (lines (default [] file)))
      then genesis_hash else sha256_hex (last_line (lines (default [] file))))) as [line ->].
    intros. by simplify_eq. }
  exists file'. split; [done|]. apply good_verifies, chained_good.
  exact (chained_append n file no_faults record (Ok tt) file' Hc eq_refl Ea).
Qed.

(** ** Tampering *)

(** Every line claims the one before it. *)
Definition claims (prev : option bytes) (line : bytes) : Prop :=
  ∃ o, from_str line = Some (VObject o)
    ∧ map_get o PREV_HASH = Some (VString match prev with None => genesis_hash | Some p => sha256_hex p end).

Fixpoint links (prev : option bytes) (ls : list bytes) : Prop :=
  match ls with
  | [] => True
  | line :: ls' => claims prev line ∧ links (Some line) ls'
  end.

Lemma verify_links i prev k ls :
  verify_loop i prev k ls = Intact (k + length ls) → links prev ls.
Proof.
  revert i prev k. induction ls as [|l ls IH]; intros i prev k; cbn [verify_loop length links]; [done|].
  assert (∀ i' p, verify_loop i' p k ls ≠ Intact (k + S (length ls))) as Hno
    by (intros i' p Hv; apply verify_bound in Hv; lia).
  destruct (is_blank l); [destruct (0 <? k)%nat; [done|intros Hv; by apply Hno in Hv]|].
  destruct (from_str l) as [[]|] eqn:Ef; try done.
  destruct (map_get _ _) as [[]|] eqn:Eg; try done.
  - destruct (negb _) eqn:En; [done|]. apply negb_false_iff, bool_decide_eq_true in En. subst.
    replace (k + S (length ls))%nat with (S k + length ls)%nat by lia.
    intros Hv%IH. split; [|done]. eexists. by split.
  - destruct (k =? 0)%nat; [intros Hv; by apply Hno in Hv|done].
Qed.

Lemma links_snoc prev ls line : links prev (ls ++ [line]) ↔ links prev ls ∧ claims (foldl (λ _ l, Some l) prev ls) line.
Proof. revert prev. induction ls as [|l ls IH]; intros prev; cbn; [tauto|]. rewrite IH. tauto. Qed.

Lemma foldl_last prev (ls : list bytes) : foldl (λ _ l, Some l) prev ls = match list.last ls with Some l => Some l | None => prev end.
Proof. induction ls as [|l ls _] using rev_ind; [done|]. by rewrite foldl_app, list.last_snoc. Qed.

(** Two different strings with one hash, or a string that hashes to the
    genesis sentinel. *)
Definition hash_broken : Prop :=
  (∃ x y, x ≠ y ∧ sha256_hex x = sha256_hex y) ∨ ∃ x, sha256_hex x = genesis_hash.

Lemma links_agree ls ls' :
  links None ls → links None ls' → list.last ls = list.last ls' → ls = ls' ∨ hash_broken.
Proof.
  revert ls'. induction ls as [|x ls IH] using rev_ind; intros ls' H1 H2 Hl.
  - destruct ls' as [|y ls' _] using rev_ind; [by left|]. by rewrite list.last_snoc in Hl.
  - destruct ls' as [|y ls' _] using rev_ind; [by rewrite list.last_snoc in Hl|].
    rewrite !list.last_snoc in Hl. simplify_eq.
    apply links_snoc in H1 as [H1 (o1 & F1 & G1)], H2 as [H2 (o2 & F2 & G2)].
    rewrite F1 in F2. injection F2 as <-. rewrite G1 in G2. rewrite !foldl_last in G2. injection G2 as G2.
    destruct (list.last ls) as [p|] eqn:E1, (list.last ls') as [q|] eqn:E2.
    + destruct (decide (p = q)) as [->|Hne].
      * destruct (IH ls') as [->|?]; [done|done|congruence|by left|by right].
      * right. left. by exists p, q.
    + right. right. by exists p.
    + right. right. by exists q.
    + apply last_None in E1, E2. subst. by left.
Qed.

(** C24: The last line commits to the whole log: when two logs verify with every
    line chained and end in the same line, they are the same, line by line;
    otherwise SHA-256 has a collision or a preimage of the all-zero digest. *)
Theorem last_line_commits content content' :
  verify_chain_content content = Intact (length (lines content)) →
  verify_chain_content content' = Intact (length (lines content')) →
  list.last (lines content) = list.last (lines content') →
  lines content = lines content' ∨ hash_broken.
Proof. intros H1 H2. apply links_agree; by eapply (verify_links _ _ 0). Qed.

(** Line endings are not covered: a carriage return added before a newline
    changes the bytes on disk but neither the verdict nor any later hash,
    although the module promises to hash the raw bytes of a line. *)
Lemma crlf_undetected line rest :
  10%N ∉ line → list.last line ≠ Some 13%N →
  verify_chain_content (line ++ 13%N :: 10%N :: rest) = verify_chain_content (line ++ 10%N :: rest)
  ∧ line ++ 13%N :: 10%N :: rest ≠ line ++ 10%N :: rest.
Proof.
  intros Hn Hl. split; [|by intros ?%app_inv_head].
  unfold verify_chain_content, lines. rewrite (lines_loop_line [] line rest) by done.
  change (13%N :: 10%N :: rest) with ([13%N] ++ 10%N :: rest). rewrite app_assoc.
  rewrite lines_loop_line by (rewrite not_elem_of_app; split; [done|]; by apply not_elem_of_cons; split; [|apply not_elem_of_nil]).
  cbn [app]. rewrite (strip_cr_id line) by done. unfold strip_cr. by rewrite strip_suffix_app.
Qed.
End chain.

(** ** A concrete encoder and digest *)

Fixpoint bits (p : positive) : bytes :=
  match p with xH => [] | xO q => 48%N :: bits q | xI q => 49%N :: bits q end.
Fixpoint of_bits (s : bytes) : positive :=
  match s with [] => xH | x :: r => if (x =? 49)%N then xI (of_bits r) else xO (of_bits r) end.
Lemma of_bits_bits p : of_bits (bits p) = p.
Proof. induction p as [p IH|p IH|]; simpl; by rewrite ?IH. Qed.
Lemma bits_digits p : Forall (λ x, x = 48 ∨ x = 49)%N (bits p).
Proof. induction p; simpl; constructor; auto. Qed.

(** Objects whose values are strings, as one brace and binary digits. *)
Definition demo_strings (o : object) : option (list (bytes * bytes)) :=
  mapM (λ e : bytes * Value, match e.2 with VString x => Some (e.1, x) | _ => None end) o.
Definition demo_object (l : list (bytes * bytes)) : object := map (λ e, (e.1, VString e.2)) l.
Fixpoint demo_get (o : object) (k : bytes) : option Value :=
  match o with [] => None | e :: r => if ustr_eqb e.1 k then Some e.2 else demo_get r k end.
Definition demo_to_string (o : object) : option bytes := (λ l, 123%N :: bits (encode l)) <$> demo_strings o.
Definition demo_from_str (s : bytes) : option Value :=
  match s with
  | x :: r => if forallb (λ y, (y =? 48) || (y =? 49))%N r
              then (VObject ∘ demo_object) <$> decode (of_bits r) else None
  | [] => None
  end.

Lemma demo_object_strings o l : demo_strings o = Some l → demo_object l = o.
Proof.
  revert l. induction o as [|[k v] o IH]; intros l; [by intros [= <-]|].
  unfold demo_strings. cbn [mapM]. intros (e & Hv & Hr)%bind_Some.
  apply bind_Some in Hr as (l' & Hl & Hr). cbn [fst snd] in Hv. destruct v; try done. injection Hr as <-. injection Hv as <-.
  cbn. f_equal. by apply IH.
Qed.

Lemma ascii_decode l :
  Forall (λ x, x < 128)%N l → utf8_decode l = l ∧ ∀ fuel, valid_loop fuel l = true.
Proof.
  induction 1 as [|x l Hx Hl [IH1 IH2]]; [split; [done|by destruct fuel]|].
  apply N.ltb_lt in Hx. split.
  - cbn [utf8_decode]. rewrite Hx. by rewrite IH1.
  - intros [|fuel]; [done|]. cbn [valid_loop utf8_next]. rewrite Hx. cbn. apply IH2.
Qed.

Lemma demo_line_ascii p : Forall (λ x, x < 128)%N (123%N :: bits p).
Proof. constructor; [done|]. eapply List.Forall_impl; [|apply bits_digits]. intros x [-> | ->]; done. Qed.

Definition demo_json : JsonLines.
Proof.
  refine {| map_insert o k v := (k, v) :: o; map_get := demo_get; to_string := demo_to_string;
            from_str := demo_from_str |}.
  - intros. cbn. by rewrite ustr_eqb_refl.
  - intros o s k x (l & Hl & ->)%fmap_Some Hg. exists o. split; [|done]. unfold demo_from_str.
    replace (forallb _ _) with true.
    + rewrite of_bits_bits, decode_encode. cbn. by rewrite (demo_object_strings _ _ Hl).
    + symmetry. apply forallb_forall. intros y Hy. pose proof (bits_digits (encode l)) as Hb.
      rewrite List.Forall_forall in Hb. by apply Hb in Hy as [-> | ->].
  - intros o s (l & _ & ->)%fmap_Some. pose proof (bits_digits (encode l)) as Hb.
    assert (∀ x, x ∈ 123%N :: bits (encode l) → x = 123%N ∨ x = 48%N ∨ x = 49%N) as Hin.
    { intros x [->|Hx%list_elem_of_In]%elem_of_cons; [by left|right].
      rewrite List.Forall_forall in Hb. by apply Hb. }
    split; [intros Hx%Hin; naive_solver|]. intros [l' Hx]%last_Some.
    assert (13%N ∈ 123%N :: bits (encode l)) as Hx'%Hin; [|naive_solver].
    rewrite Hx. apply elem_of_app. right. by apply list_elem_of_singleton.
  - intros o s (l & _ & ->)%fmap_Some. destruct (ascii_decode _ (demo_line_ascii (encode l))) as [-> Hv].
    split; [apply Hv|done].
Defined.

(** A digest for the examples: the last bytes of the data. *)
Definition demo_sha : Sha256 := {| sha256 data := take 32 (rev data ++ replicate 32 0%N) |}.

Definition demo_row (x : bytes) : object := [(b "event", VString x)].
Definition demo_append F file record := append_chained_line (H := demo_sha) (H0 := demo_json) F file record.
Definition demo_log : option bytes :=
  (demo_append no_faults (demo_append no_faults None (demo_row (b "one"))).2 (demo_row (b "two"))).2.

Lemma chain_stays_intact_witness :
  chained (H := demo_sha) (H0 := demo_json) 2 demo_log
  ∧ verify_chain (H := demo_sha) (H0 := demo_json) false demo_log = Ok (Intact 2).
Proof.
  assert (chained (H := demo_sha) (H0 := demo_json) 2 demo_log) as Hc.
  { apply (chained_append 1 (demo_append no_faults None (demo_row (b "one"))).2 no_faults
      (demo_row (b "two")) (Ok tt) demo_log); [|reflexivity|vm_compute; reflexivity].
    apply (chained_append 0 None no_faults (demo_row (b "one")) (Ok tt));
      [|reflexivity|vm_compute; reflexivity].
    apply chained_start; [reflexivity|by left]. }
  split; [exact Hc|].
  exact (proj1 (chain_stays_intact (H := demo_sha) (H0 := demo_json) 2 demo_log (demo_row (b "three")) Hc)).
Defined.

Lemma last_line_commits_witness :
  verify_chain_content (H := demo_sha) (H0 := demo_json) (default [] demo_log) = Intact 2
  ∧ length (lines (default [] demo_log)) = 2%nat
  ∧ (lines (default [] demo_log) = lines (default [] demo_log) ∨ hash_broken (H := demo_sha)).
Proof.
  split; [vm_compute; reflexivity|]. split; [vm_compute; reflexivity|].
  apply (last_line_commits (H := demo_sha) (H0 := demo_json) (default [] demo_log) (default [] demo_log));
    [vm_compute; reflexivity|vm_compute; reflexivity|reflexivity].
Defined.

(** A write that stops before the newline poisons the file: the next append
    reports success, but its row is glued to the unfinished one and the log
    is broken from there on. *)
Lemma torn_write_breaks_chain :
  let torn := demo_append {| dir_fails := false; open_fails := false; lock_fails := false;
                             read_fails := false; sync_fails := false;
                             written_before_failing :=
                               match demo_append no_faults demo_log (demo_row (b "three")) with
                               | (_, Some c) => Some (length c - length (default [] demo_log) - 1)%nat
                               | _ => None
                               end |} demo_log (demo_row (b "three")) in
  let next := demo_append no_faults torn.2 (demo_row (b "four")) in
  torn.1 = Err WriteFailed ∧ next.1 = Ok tt
  ∧ verify_chain (H := demo_sha) (H0 := demo_json) false torn.2 = Ok (Intact 3)
  ∧ verify_chain (H := demo_sha) (H0 := demo_json) false next.2 = Ok (Broken 3).
Proof. vm_compute. split_and!; reflexivity. Qed.
