(* ===== verification/Interleave.v ===== *)
(** * Tasks whose accesses to shared data interleave

    An asynchronous function of the code touches shared data in a sequence of
    accesses, each atomic (one SQL statement, one transaction, one section
    under a lock), between which other tasks run.  A [prog] is such a
    function; a [System] runs any number of calls, whose accesses come in any
    order and each find a world of their own.  Every call that ends with an
    access leaves an entry in the log, with the data before and after that
    access and what the earlier accesses of the call found: what is proved of
    the log is proved of every answer ever given. *)

From S2P Require Import Prelude.
From S2P Require Import Bytes.

Inductive prog (W D A : Type) : Type :=
| Ret (x : A)
| Access {X : Type} (f : W → D → D * X) (k : X → prog W D A).
Arguments Ret {W D A} x.
Arguments Access {W D A X} f k.

Fixpoint prog_bind {W D A B} (m : prog W D A) (k : A → prog W D B) : prog W D B :=
  match m with
  | Ret x => k x
  | Access f g => Access f (λ x, prog_bind (g x) k)
  end.

(** ** Fallible tasks *)

Definition Task (W D A : Type) : Type := prog W D (result A bytes).
#[global] Instance task_bind {W D} : MBind (Task W D) := λ A B k m,
  prog_bind m (λ r, match r with Ok x => k x | Err e => Ret (Err e) end).
Definition give {W D A} (r : result A bytes) : Task W D A := Ret r.
Definition done {W D A} (x : A) : Task W D A := Ret (Ok x).
Definition refuse {W D A} (e : bytes) : Task W D A := Ret (Err e).
(** One access, and a look at the world that leaves the data alone. *)
Definition access {W D A} (f : W → D → D * result A bytes) : Task W D A := Access f Ret.
Definition observe {W D A} (f : W → result A bytes) : Task W D A := Access (λ w d, (d, f w)) Ret.

(** A task run without others: the worlds its accesses find, in turn. *)
Fixpoint run {W D A} (ws : list W) (m : prog W D A) (d : D) : D * option A :=
  match m with
  | Ret x => (d, Some x)
  | Access f k =>
      match ws with
      | [] => (d, None)
      | w :: ws => let '(d, x) := f w d in run ws (k x) d
      end
  end.

(** A task among others: [env] gives the world and the data each access finds;
    with the number of the next access. *)
Fixpoint run_among {W D A} (env : nat → W * D) (i : nat) (m : prog W D A) : nat * A :=
  match m with
  | Ret x => (i, x)
  | Access f k => run_among env (S i) (k (f (env i).1 (env i).2).2)
  end.

Lemma run_among_bind {W D A B} env i (m : Task W D A) (k : A → Task W D B) :
  run_among env i (m ≫= k) =
    let '(i, r) := run_among env i m in match r with Ok x => run_among env i (k x) | Err e => (i, Err e) end.
Proof. unfold mbind, task_bind. revert i. induction m as [[x|e]|X f g IH]; intros i; cbn; [done|done|apply IH]. Qed.

Lemma run_among_access {W D A B} env i (f : W → D → D * result A bytes) (k : A → Task W D B) :
  run_among env i (access f ≫= k) = match (f (env i).1 (env i).2).2 with Ok x => run_among env (S i) (k x) | Err e => (S i, Err e) end.
Proof. unfold mbind, task_bind. cbn. by destruct (f _ _).2. Qed.
Lemma run_among_look {W D A B} env i (f : W → result A bytes) (k : A → Task W D B) :
  run_among env i (observe f ≫= k) = match f (env i).1 with Ok x => run_among env (S i) (k x) | Err e => (S i, Err e) end.
Proof. apply (run_among_access env i (λ w d, (d, f w))). Qed.

Lemma run_among_later {W D A} env i (m : prog W D A) : (i ≤ (run_among env i m).1)%nat.
Proof. revert i. induction m as [x|X f g IH]; intros i; cbn; [done|]. etrans; [|apply IH]. lia. Qed.

(** ** Systems *)

Section system.
Context {W D C R : Type}.
(** The task of a call; a call that loops gets a number of rounds. *)
Context (program : nat → C → Task W D R).

(** [seen] is the world and the data each earlier access of the call found. *)
Record Entry := { call : C; reply : result R bytes; seen : list (W * D); world : W; before : D; after : D }.
Record System := { data : D; running : gmap nat (C * list (W * D) * Task W D R); log : list Entry }.

Definition advance (i : nat) (c : C) (h : list (W * D)) (w : W) (d' : D) (p : Task W D R) (s : System) : System :=
  match p with
  | Ret r =>
      {| data := d'; running := delete i (running s);
         log := log s ++ [{| call := c; reply := r; seen := h; world := w; before := data s; after := d' |}] |}
  | Access _ _ => {| data := d'; running := <[i := (c, h ++ [(w, data s)], p)]> (running s); log := log s |}
  end.

Inductive sys_step (s : System) : System → Prop :=
| starts i n c :
    running s !! i = None →
    sys_step s {| data := data s; running := <[i := (c, [], program n c)]> (running s); log := log s |}
| accesses i c h X f (k : X → Task W D R) w :
    running s !! i = Some (c, h, Access f k) →
    sys_step s (let '(d', x) := f w (data s) in advance i c h w d' (k x) s)
(** A task is dropped, or its process dies. *)
| dies i : sys_step s {| data := data s; running := delete i (running s); log := log s |}.

Inductive reachable (start : D) : System → Prop :=
| reachable_start : reachable start {| data := start; running := ∅; log := [] |}
| reachable_step s s' : reachable start s → sys_step s s' → reachable start s'.

(** A call that runs alone, its accesses finding these worlds. *)
Definition begin_call (i n : nat) (c : C) (s : System) : System :=
  {| data := data s; running := <[i := (c, [], program n c)]> (running s); log := log s |}.
Definition next_access (i : nat) (s : System) (w : W) : System :=
  match running s !! i with
  | Some (c, h, Access f k) => let '(d', x) := f w (data s) in advance i c h w d' (k x) s
  | _ => s
  end.
Definition run_call (i n : nat) (c : C) (ws : list W) (s : System) : System := foldl (next_access i) (begin_call i n c s) ws.

Lemma reachable_call start s i n c ws : reachable start s → running s !! i = None → reachable start (run_call i n c ws s).
Proof.
  intros Hs Hi. unfold run_call. assert (reachable start (begin_call i n c s)) as Hb by (eapply reachable_step; [exact Hs|by constructor]).
  revert Hb. generalize (begin_call i n c s). clear s Hs Hi. induction ws as [|w ws IH]; intros s Hs; cbn; [done|]. apply IH.
  unfold next_access. destruct (running s !! i) as [[[c' h] [r|X f k]]|] eqn:E; [done| |done].
  eapply reachable_step; [exact Hs|]. by apply accesses.
Qed.

(** ** Guarantees

    What every access of a call keeps ([inv], [evolves]), what the answer of a
    call, an error included, says of its accesses ([promise]), and facts of the
    data only certain answers bring about ([fact], [cause]). *)
Context {K : Type} (inv : D → Prop) (evolves : relation D) `{!PreOrder evolves}.
Context (promise : C → result R bytes → list (W * D) → W → D → D → Prop) (fact : K → D → Prop) (cause : K → Entry → Prop).

Definition brings (c : C) (o : option (result R bytes)) (h : list (W * D)) (w : W) (d d' : D) : Prop :=
  ∀ key, fact key d' →
    fact key d ∨ ∃ r, o = Some r ∧ cause key {| call := c; reply := r; seen := h; world := w; before := d; after := d' |}.

Definition answer {A} (p : prog W D A) : option A := match p with Ret r => Some r | Access _ _ => None end.

(** An answer of the call, [j] making it a reply. *)
Definition replied {A} (j : A → R) (r : result A bytes) : result R bytes := match r with Ok x => Ok (j x) | Err e => Err e end.
Definition promised {A} (c : C) (j : A → R) (p : Task W D A) (h : list (W * D)) (w : W) (d d' : D) : Prop :=
  ∀ r, p = Ret r → promise c (replied j r) h w d d'.

(** What a task saw, and the data its last access left: since then the data
    has only evolved. *)
Definition View : Type := list (W * D) * D.
Definition look_on (v : View) (w : W) (d d' : D) : View := (v.1 ++ [(w, d)], d').

Fixpoint keeps {A} (c : C) (j : A → R) (v : View) (p : prog W D (result A bytes)) : Prop :=
  match p with
  | Ret _ => True
  | Access f k =>
      ∀ w d, inv d → evolves v.2 d →
        let '(d', x) := f w d in
        inv d' ∧ evolves d d' ∧ brings c (replied j <$> answer (k x)) v.1 w d d' ∧ promised c j (k x) v.1 w d d'
        ∧ keeps c j (look_on v w d d') (k x)
  end.

Definition entry_ok (e : Entry) : Prop :=
  inv (before e) ∧ promise (call e) (reply e) (seen e) (world e) (before e) (after e) ∧ evolves (before e) (after e).

Record system_inv (start : D) (s : System) : Prop := {
  sys_data : inv (data s);
  sys_running i c h p : running s !! i = Some (c, h, p) → ∃ d0, evolves d0 (data s) ∧ keeps c id (h, d0) p;
  sys_entries : Forall entry_ok (log s);
  sys_order : StronglySorted (λ e e', evolves (after e) (before e')) (log s);
  sys_now : Forall (λ e, evolves (after e) (data s)) (log s);
  sys_facts key : fact key (data s) → fact key start ∨ ∃ e, e ∈ log s ∧ cause key e;
  sys_facts_before i e key :
    log s !! i = Some e → fact key (before e) → fact key start ∨ ∃ j e', (j < i)%nat ∧ log s !! j = Some e' ∧ cause key e';
}.

(** A task that looks at the data between accesses that bring nothing about;
    [Q] holds of what it saw and of its result. *)
Definition quiet (d d' : D) : Prop := inv d' ∧ evolves d d' ∧ ∀ key, fact key d' → fact key d.

Fixpoint reads {A} (v : View) (p : prog W D A) (Q : View → A → Prop) : Prop :=
  match p with
  | Ret x => Q v x
  | Access f k =>
      ∀ w d, inv d → evolves v.2 d → let '(d', x) := f w d in quiet d d' ∧ reads (look_on v w d d') (k x) Q
  end.

Lemma quiet_refl d : inv d → quiet d d.
Proof. done. Qed.

Lemma reads_weaken {A} v (p : prog W D A) (P Q : View → A → Prop) : reads v p P → (∀ v x, P v x → Q v x) → reads v p Q.
Proof.
  intros Hp HPQ. revert v Hp. induction p as [x|X f k IH]; cbn; [auto|].
  intros v Hp w d Hd Hev. specialize (Hp w d Hd Hev). destruct (f w d). destruct Hp. split; auto.
Qed.

Lemma reads_bind {A B} v (m : Task W D A) (k : A → Task W D B) Q :
  reads v m (λ v r, match r with Ok x => reads v (k x) Q | Err e => Q v (Err e) end) → reads v (m ≫= k : Task W D B) Q.
Proof.
  unfold mbind, task_bind. revert v. induction m as [[x|e]|X f g IH]; cbn; [done|done|].
  intros v Hp w d Hd Hev. specialize (Hp w d Hd Hev). destruct (f w d). destruct Hp. split; auto.
Qed.

Lemma reads_access {A} v (f : W → D → D * result A bytes) (Q : View → result A bytes → Prop) :
  (∀ w d, inv d → evolves v.2 d → quiet d (f w d).1 ∧ Q (look_on v w d (f w d).1) (f w d).2) → reads v (access f) Q.
Proof. intros Hf w d Hd Hev. specialize (Hf w d Hd Hev). by destruct (f w d). Qed.

Lemma reads_look {A} v (f : W → result A bytes) (Q : View → result A bytes → Prop) :
  (∀ w d, inv d → evolves v.2 d → Q (look_on v w d d) (f w)) → reads v (observe f) Q.
Proof. intros Hf. apply reads_access. intros w d Hd Hev. split; [by apply quiet_refl|by apply Hf]. Qed.

(** The task reads, then goes on. *)
Lemma keeps_bind {A B} c (j : B → R) v (m : Task W D A) (k : A → Task W D B) :
  (∀ e h w d d', promise c (Err e) h w d d') →
  reads v m (λ v r, match r with
                    | Ok x => keeps c j v (k x) ∧ ∀ h w d d', inv d → evolves d d' → promised c j (k x) h w d d'
                    | Err _ => True
                    end) →
  keeps c j v (m ≫= k).
Proof.
  intros He. unfold mbind, task_bind. revert v. induction m as [[x|e]|X f g IH]; cbn; [by intros ? [? _]|done|].
  intros v Hp w d Hd Hev. specialize (Hp w d Hd Hev). destruct (f w d) as [d' x]. destruct Hp as [(? & ? & Hq) Hp].
  split; [done|]. split; [done|]. split; [intros key ?; left; auto|]. split; [|by apply IH].
  destruct (g x) as [[y|e]|Y f' g'] eqn:Eg; cbn in *; [by apply Hp|intros r [= <-]; apply He|by intros ? ?].
Qed.

(** The access that answers. *)
Lemma keeps_last {A B} c (j : B → R) v (f : W → D → D * result A bytes) (g : A → result B bytes) (k : A → Task W D B) :
  (∀ x, k x = give (g x)) →
  (∀ w d, inv d → evolves v.2 d →
     let '(d', r) := f w d in
     let r := match r with Ok x => g x | Err e => Err e end in
     inv d' ∧ evolves d d' ∧ brings c (Some (replied j r)) v.1 w d d' ∧ promise c (replied j r) v.1 w d d') →
  keeps c j v (access f ≫= k).
Proof.
  intros Hk Hf w d Hd Hev. specialize (Hf w d Hd Hev). cbn. destruct (f w d) as [d' [x|e]]; cbn in *; rewrite ?Hk;
    destruct Hf as (? & ? & ? & Hp); do 3 (split; [done|]); (split; [intros ? Hr; injection Hr as <-; exact Hp|done]).
Qed.

Lemma keeps_access {A} c (j : A → R) v (f : W → D → D * result A bytes) :
  (∀ w d, inv d → evolves v.2 d →
     let '(d', r) := f w d in
     inv d' ∧ evolves d d' ∧ brings c (Some (replied j r)) v.1 w d d' ∧ promise c (replied j r) v.1 w d d') →
  keeps c j v (access f).
Proof.
  intros Hf w d Hd Hev. specialize (Hf w d Hd Hev). cbn. destruct (f w d) as [d' r]. destruct Hf as (? & ? & ? & Hp).
  do 3 (split; [done|]). split; [|done]. intros ? Hr. injection Hr as <-. exact Hp.
Qed.

Lemma keeps_reads {A} c (j : A → R) v (p : Task W D A) :
  (∀ r h w d d', promise c (replied j r) h w d d') → reads v p (λ _ _, True) → keeps c j v p.
Proof.
  intros Hpr. revert v. induction p as [x|X f k IH]; [done|]. intros v Hp w d Hd Hev.
  specialize (Hp w d Hd Hev). destruct (f w d) as [d' x]. destruct Hp as [(? & ? & Hq) ?].
  split; [done|]. split; [done|]. split; [intros key ?; left; auto|]. split; [by intros y _|]. by apply IH.
Qed.

(** The reply made of an answer. *)
Lemma keeps_reply {A} c (j : A → R) v (p : Task W D A) : keeps c j v p → keeps c id v (p ≫= (λ x, done (j x)) : Task W D R).
Proof.
  unfold mbind, task_bind. revert v. induction p as [[x|e]|X f k IH]; [done|done|]. intros v Hp w d Hd Hev.
  specialize (Hp w d Hd Hev). destruct (f w d) as [d' x]. destruct Hp as (? & ? & Hb & Hpr & Hk).
  split; [done|]. split; [done|].
  destruct (k x) as [[y|e]|Y f' k'] eqn:Ek; cbn in *.
  - split; [exact Hb|]. split; [|done]. intros z [= <-]. exact (Hpr (Ok y) eq_refl).
  - split; [exact Hb|]. split; [|done]. intros z [= <-]. exact (Hpr (Err e) eq_refl).
  - split; [exact Hb|]. split; [by intros z [=]|]. specialize (IH x). rewrite Ek in IH. exact (IH (look_on v w d d') Hk).
Qed.

Context (kept : ∀ n c d, inv d → keeps c id ([], d) (program n c)).

Lemma reachable_inv_sys start s : inv start → reachable start s → system_inv start s.
Proof.
  intros Hstart. induction 1 as [|s s' _ IH Hs]; [split; [done|done|constructor|constructor|constructor|by left|done]|].
  destruct IH as [Hd Hr He Ho Hn Hf Hfb], Hs as [i n c Hi|i c h X f k w Hi|i].
  - split; cbn; try done. intros j c' h p [[_ [= <- <- <-]]|[_ ?]]%lookup_insert_Some; [|by eapply Hr].
    exists (data s). split; [done|by apply kept].
  - destruct (Hr _ _ _ _ Hi) as (dv & Hd0 & Hk'). pose proof (Hk' w (data s) Hd Hd0) as Hk. cbn [fst snd] in Hk; clear Hd0 Hk'. destruct (f w (data s)) as [d' x]. destruct Hk as (Hd' & Hev & Hb & Hp & Hk).
    assert (Forall (λ e, evolves (after e) d') (log s)) as Hn' by (eapply List.Forall_impl; [|exact Hn]; cbn; intros e ?; by trans (data s)).
    assert (∀ key, fact key d' → fact key start ∨ (∃ e, e ∈ log s ∧ cause key e)
      ∨ ∃ r, k x = Ret r ∧ cause key {| call := c; reply := r; seen := h; world := w; before := data s; after := d' |}) as Hf'.
    { intros key [Hk'|(r & Hr' & Hc)]%Hb; [destruct (Hf key Hk') as [?|?]; auto|].
      right. right. exists r. split; [|done]. destruct (k x) as [[y|e]|]; [..|done]; by injection Hr' as <-. }
    destruct (k x) as [r|Y g k'] eqn:Ek; cbn.
    + split; cbn; try done.
      * intros j c' h' p [_ Hj]%lookup_delete_Some. destruct (Hr _ _ _ _ Hj) as (d0 & ? & ?). exists d0. split; [by trans (data s)|done].
      * apply Forall_app. split; [done|]. constructor; [|constructor]. split; [done|]. split; [|done]. cbn.
        specialize (Hp r eq_refl). by destruct r.
      * apply StronglySorted_snoc; [done|]. exact Hn.
      * apply Forall_app. split; [done|]. by repeat constructor.
      * intros key [?|[(e & He' & ?)|(r' & [= <-] & ?)]]%Hf'; [by left|right|right].
        -- exists e. split; [|done]. apply elem_of_app. by left.
        -- eexists. split; [|done]. apply elem_of_app. right. by apply list_elem_of_singleton.
      * intros j e key [[Hj Hl]|[-> <-]]%lookup_snoc_Some Hk'.
        -- destruct (Hfb j e key Hl Hk') as [?|(j' & e' & ? & ? & ?)]; [by left|right]. exists j', e'.
           split; [done|]. split; [|done]. rewrite lookup_app_l by lia. done.
        -- cbn in Hk'. destruct (Hf key Hk') as [?|(e' & He' & ?)]; [by left|right].
           apply list_elem_of_lookup in He' as [j' Hj']. pose proof (lookup_lt_Some _ _ _ Hj'). exists j', e'.
           split; [done|]. split; [|done]. by rewrite lookup_app_l.
    + split; cbn; try done.
      * intros j c' h' p [[_ [= <- <- <-]]|[_ Hj]]%lookup_insert_Some; [by exists d'|].
        destruct (Hr _ _ _ _ Hj) as (d0 & ? & ?). exists d0. split; [by trans (data s)|done].
      * intros key [?|[?|(r' & ? & _)]]%Hf'; auto; discriminate.
  - split; cbn; try done. intros j c' h p [_ ?]%lookup_delete_Some. by eapply Hr.
Qed.

(** Every answer keeps its promise. *)
Lemma answered start s e : inv start → reachable start s → e ∈ log s → entry_ok e.
Proof. intros Hi Hr He. pose proof (sys_entries _ _ (reachable_inv_sys _ _ Hi Hr)) as Hf. rewrite list.Forall_forall in Hf. auto. Qed.

(** Between two answers the data only evolves. *)
Lemma in_turn start s i j e e' :
  inv start → reachable start s → log s !! i = Some e → log s !! j = Some e' → (i < j)%nat → evolves (after e) (before e').
Proof.
  intros Hi Hr He He' Hij. pose proof (sys_order _ _ (reachable_inv_sys _ _ Hi Hr)) as Hs.
  revert i j He He' Hij. induction Hs as [|x l _ IH Hx]; intros [|i] [|j] He He' Hij; try done; try lia.
  - injection He as ->. cbn in He'. apply list_elem_of_lookup_2 in He'. rewrite list.Forall_forall in Hx. by apply Hx.
  - eapply IH; [exact He|exact He'|lia].
Qed.

Lemma since start s e : inv start → reachable start s → e ∈ log s → evolves (after e) (data s).
Proof. intros Hi Hr He. pose proof (sys_now _ _ (reachable_inv_sys _ _ Hi Hr)) as Hf. rewrite list.Forall_forall in Hf. auto. Qed.

(** What an answer found had a cause too, an earlier answer. *)
Lemma caused_before start s i e key :
  inv start → reachable start s → log s !! i = Some e → fact key (before e) →
  fact key start ∨ ∃ j e', (j < i)%nat ∧ log s !! j = Some e' ∧ cause key e'.
Proof. intros Hi Hr. apply (sys_facts_before _ _ (reachable_inv_sys _ _ Hi Hr)). Qed.

Lemma caused start s key :
  inv start → reachable start s → fact key (data s) → fact key start ∨ ∃ e, e ∈ log s ∧ cause key e.
Proof. intros Hi Hr. apply (sys_facts _ _ (reachable_inv_sys _ _ Hi Hr)). Qed.

(** An answer that leaves the data in a state it cannot have found is given once. *)
Lemma only_once start s (mine : Entry → Prop) (spent : D → Prop) :
  inv start → reachable start s →
  (∀ e, entry_ok e → mine e → ¬ spent (before e) ∧ spent (after e)) →
  (∀ d d', evolves d d' → spent d → spent d') →
  ∀ i j e e', log s !! i = Some e → log s !! j = Some e' → mine e → mine e' → i = j.
Proof.
  intros Hi Hr Hm Hsp.
  assert (∀ i j e e', (i < j)%nat → log s !! i = Some e → log s !! j = Some e' → mine e → mine e' → False) as Hlt.
  { intros i j e e' Hij He He' Hme Hme'.
    destruct (Hm e) as [_ Ha]; [by eapply answered, list_elem_of_lookup_2|done|].
    destruct (Hm e') as [Hb _]; [by eapply answered, list_elem_of_lookup_2|done|].
    apply Hb. eapply Hsp; [|exact Ha]. by eapply in_turn. }
  intros i j e e' He He' Hme Hme'. destruct (Nat.lt_trichotomy i j) as [?|[?|?]]; [exfalso|done|exfalso]; eauto.
Qed.
End system.
