(* ===== verification/Approval.v ===== *)
(** * Requests for human approval (crates/duduclaw-gateway/src/approval:
    mod.rs, and the data and checks of binding.rs and action_grant.rs)

    What a request is, when it is stale, and the snapshot of authority a bound
    request carries.  RFC 3339 times, the date arithmetic of SQLite and the
    detection of credentials are the interface [ApprovalCrates]. *)

From S2P Require Import Prelude.
From S2P Require Import Bytes.
From S2P Require Import Utf8.
From S2P Require Import Chars.
From S2P Require Import Float64.
From S2P Require Import JsonValue.
From S2P Require Import Conditions.
From S2P Require Import AuditChain.

Definition DEFAULT_TTL_SECONDS : Z := 3600.
Definition DECIDED_BY_TTL : bytes := b "system:ttl".
Definition REMIND_AT_FRACTION : f64 := f64_lit 2 3.
Definition REMIND_MIN_TTL_SECONDS : Z := 120.

Class ApprovalCrates := {
  (** [parse_from_rfc3339]: nanoseconds since 1970. *)
  rfc3339_nanos : bytes → option Z;
  (** [julianday(x) < julianday(y)] and
      [julianday(x) < julianday(y) + ttl / 86400.0], false on NULL. *)
  sql_before : bytes → bytes → bool;
  sql_within : bytes → bytes → Z → bool;
  (** [julianday(x) < julianday(now) - h / 24] and [julianday(x) > ...]. *)
  sql_older : bytes → bytes → Z → bool;
  sql_newer : bytes → bytes → Z → bool;
  (** [credential_detect]: the strict scan, and the masking of texts and JSON. *)
  strict_credential : bytes → result bool bytes;
  mask : bytes → bytes;
  mask_json : Value → Value;
  (** The UUID made of the first 16 bytes of a digest. *)
  uuid_of_digest : bytes → bytes;
}.

(** ** Statuses *)

Inductive ApprovalStatus := Pending | Approved | Denied | Expired | Answered | Invalidated.

#[global] Instance ApprovalStatus_eq_dec : EqDecision ApprovalStatus.
Proof. solve_decision. Defined.

Definition as_str (s : ApprovalStatus) : bytes :=
  b match s with
    | Pending => "pending" | Approved => "approved" | Denied => "denied" | Expired => "expired"
    | Answered => "answered" | Invalidated => "invalidated"
    end.

Definition from_db (s : bytes) : ApprovalStatus :=
  if ustr_eqb s (b "pending") then Pending
  else if ustr_eqb s (b "approved") then Approved
  else if ustr_eqb s (b "expired") then Expired
  else if ustr_eqb s (b "answered") then Answered
  else if ustr_eqb s (b "invalidated") then Invalidated
  else Denied.

Definition is_terminal (s : ApprovalStatus) : bool := match s with Pending => false | _ => true end.
Definition is_granted (s : ApprovalStatus) : bool := match s with Approved => true | _ => false end.

Inductive RequestKind := KindApproval | KindQuestion | KindInvalid.
#[global] Instance RequestKind_eq_dec : EqDecision RequestKind.
Proof. solve_decision. Defined.

(** ** Bindings *)

Record DecisionContext := { channel : bytes; account_id : bytes; conversation_id : bytes; principal_id : bytes }.
#[global] Instance DecisionContext_eq_dec : EqDecision DecisionContext.
Proof. solve_decision. Defined.

Definition DecisionContext_validate (c : DecisionContext) : result unit bytes :=
  if existsb (λ v, is_empty v || (512 <? length v)%nat || existsb is_control (utf8_decode v))
       [channel c; account_id c; conversation_id c; principal_id c]
  then Err (b "incomplete decision identity") else Ok tt.

Inductive ConversationAudience := Private | MultiParty.
#[global] Instance ConversationAudience_eq_dec : EqDecision ConversationAudience.
Proof. solve_decision. Defined.

Record ExecutionBinding := {
  schema_version : Z;
  run_id : bytes;
  run_origin_kind : bytes;
  actor_principal : bytes;
  conversation_audience : ConversationAudience;
  decision_context : DecisionContext;
  task_id : option bytes;
  task_revision : option Z;
  task_snapshot_hash : option bytes;
  bound_payload_hash : bytes;
  policy_revision : bytes;
  cwd : option bytes;
  environment_hash : bytes;
  file_hashes : list (bytes * bytes);
  expires_at : bytes;
  resume_handler : bytes;
  resume_version : Z;
}.
#[global] Instance ExecutionBinding_eq_dec : EqDecision ExecutionBinding.
Proof. solve_decision. Defined.

(** [BTreeMap::insert] on its entries in order. *)
Fixpoint btree_insert {A} (k : bytes) (v : A) (m : list (bytes * A)) : list (bytes * A) :=
  match m with
  | [] => [(k, v)]
  | (k', v') :: r =>
      if ustr_eqb k k' then (k, v) :: r
      else if ustr_leb k k' then (k, v) :: m
      else (k', v') :: btree_insert k v r
  end.
Definition btree_of {A} (entries : list (bytes * A)) : list (bytes * A) :=
  foldl (λ m e, btree_insert e.1 e.2 m) [] entries.

Fixpoint canonical (v : Value) : Value :=
  match v with
  | VObject entries => VObject (btree_of (map (λ e : bytes * Value, let '(k, x) := e in (k, canonical x)) entries))
  | VArray items => VArray (map canonical items)
  | _ => v
  end.

Section approval.
Context `{SerdeValue} `{Sha256} `{ApprovalCrates}.

Definition payload_hash (v : Value) : bytes := sha256_hex (show_value (canonical v)).

(** No string of the value may hold a credential. *)
Fixpoint require_credential_free_payload (v : Value) : result unit bytes :=
  match v with
  | VString s =>
      match strict_credential s with
      | Ok false => Ok tt
      | _ => Err (b "credentials are not accepted in approval payloads")
      end
  | VArray items =>
      (fix go l := match l with
                   | [] => Ok tt
                   | x :: r => match require_credential_free_payload x with Ok _ => go r | Err e => Err e end
                   end) items
  | VObject entries =>
      (fix go (l : list (bytes * Value)) :=
         match l with
         | [] => Ok tt
         | (_, x) :: r => match require_credential_free_payload x with Ok _ => go r | Err e => Err e end
         end) entries
  | _ => Ok tt
  end.

Definition ExecutionBinding_validate (e : ExecutionBinding) (now : Z) (payload : Value) : result unit bytes :=
  match DecisionContext_validate (decision_context e) with
  | Err err => Err err
  | Ok _ =>
      if negb (schema_version e =? 1) || negb (resume_version e =? 1) || is_empty (run_id e)
         || negb (existsb (ustr_eqb (run_origin_kind e)) (map b ["ingress"; "computer_session"; "workflow"]%string))
         || is_empty (actor_principal e) || is_empty (policy_revision e) || is_empty (environment_hash e)
         || negb (ustr_eqb (bound_payload_hash e) (payload_hash payload))
         || negb (existsb (ustr_eqb (resume_handler e))
                    (map b ["live_only_v1"; "computer_reobserve_v1"; "workflow_v1"; "goal_kickoff_v1"; "question_data_v1"]%string))
         || negb (Bool.eqb (bool_decide (is_Some (task_id e))) (bool_decide (is_Some (task_revision e))))
         || negb (Bool.eqb (bool_decide (is_Some (task_id e))) (bool_decide (is_Some (task_snapshot_hash e))))
      then Err (b "invalid or unsupported execution binding")
      else
        match rfc3339_nanos (expires_at e) with
        | None => Err (b "invalid expiry")
        | Some expiry => if expiry <=? now then Err (b "request expired") else Ok tt
        end
  end.

(** What the host's files are: a directory at an absolute path, and the bytes
    of a file, relative to a directory when its path is. *)
Record HostFiles := {
  is_absolute : bytes → bool;
  is_dir : bytes → bool;
  read_file : option bytes → bytes → option bytes;
}.

Fixpoint check_files (h : HostFiles) (dir : option bytes) (l : list (bytes * bytes)) : result unit bytes :=
  match l with
  | [] => Ok tt
  | (path, expected) :: r =>
      let base := if is_absolute h path then Ok None else match dir with Some d => Ok (Some d) | None => Err tt end in
      match base with
      | Err _ => Err (b "relative file binding requires cwd")
      | Ok base =>
          match read_file h base path with
          | None => Err (b "bound file unreadable")
          | Some content => if ustr_eqb (sha256_hex content) expected then check_files h dir r else Err (b "bound file changed")
          end
      end
  end.

Definition validate_host_files (e : ExecutionBinding) (h : HostFiles) : result unit bytes :=
  match cwd e with
  | Some d => if negb (is_absolute h d) || negb (is_dir h d) then Err (b "execution cwd unavailable")
              else check_files h (cwd e) (file_hashes e)
  | None => check_files h None (file_hashes e)
  end.

(** ** Records *)

Record ApprovalRecord := {
  approval_id : bytes;
  agent_id : bytes;
  action_kind : bytes;
  summary : bytes;
  payload : Value;
  status : ApprovalStatus;
  created_at : bytes;
  decided_at : option bytes;
  decided_by : option bytes;
  ttl_seconds : Z;
  notify_channel : option bytes;
  notify_chat_id : option bytes;
  reminded_at : option bytes;
  simulation : option Value;
  request_kind : RequestKind;
  binding : option ExecutionBinding;
  answer_value : option Value;
  invalidated_reason : option bytes;
  on_behalf_of : option bytes;
}.

(** The instant a request expires, in nanoseconds; times to live stay far
    below the range of the date type. *)
Definition record_expires_at (r : ApprovalRecord) : option Z :=
  t ← rfc3339_nanos (created_at r); Some (t + secs (ttl_seconds r)).

Definition is_stale (r : ApprovalRecord) (now : Z) : bool :=
  match status r with
  | Pending => match record_expires_at r with Some t => t <=? now | None => true end
  | _ => false
  end.

Definition reminder_due (r : ApprovalRecord) (now : Z) : bool :=
  match status r, reminded_at r with
  | Pending, None =>
      if ttl_seconds r <? REMIND_MIN_TTL_SECONDS then false
      else
        match rfc3339_nanos (created_at r) with
        | None => false
        | Some created =>
            let elapsed := Z.quot (now - created) 1000000 in
            let ttl_ms := Z.min i64_max (ttl_seconds r * 1000) in
            (f64_as_i64 (f64_mul (f64_of_Z ttl_ms) REMIND_AT_FRACTION) <=? elapsed) && (elapsed <? ttl_ms)
        end
  | _, _ => false
  end.

Definition notify_target_changed (r : ApprovalRecord) (chan chat : bytes) : bool :=
  negb (bool_decide (notify_channel r = Some chan)) || negb (bool_decide (notify_chat_id r = Some chat)).

(** [payload.get("egress_guard").is_some()]. *)
Definition egress_guarded (v : Value) : bool := bool_decide (is_Some (get v (b "egress_guard"))).

Definition WORKFLOW_ACTIVATION_KIND : bytes := b "workflow_activation".
Definition is_activation_payload (v : Value) : bool :=
  match str_field v (b "kind") with Some k => ustr_eqb k WORKFLOW_ACTIVATION_KIND | None => false end.
Definition is_activation (r : ApprovalRecord) : bool :=
  ustr_eqb (action_kind r) WORKFLOW_ACTIVATION_KIND || is_activation_payload (payload r).

(** A mail request of a live conversation. *)
Definition is_bound_mail (r : ApprovalRecord) (e : ExecutionBinding) : bool :=
  match str_field (payload r) (b "name") with Some n => ustr_eqb n (b "mail_send") | None => false end
  && egress_guarded (payload r) && ustr_eqb (run_origin_kind e) (b "ingress") && ustr_eqb (resume_handler e) (b "live_only_v1").

Definition is_workflow (e : ExecutionBinding) : bool :=
  ustr_eqb (run_origin_kind e) (b "workflow") && ustr_eqb (resume_handler e) (b "workflow_v1").

(** ** Grants of one tool call *)

Definition ACTION_GRANT_KEY : bytes := b "action_grant".
Definition CONSUMED_PREFIX : bytes := b "consumed:action_grant:".

Record ActionGrant := { grant_agent : bytes; grant_tool : bytes; args_digest_of : bytes }.

Definition args_digest (agent tool : bytes) (args : Value) : bytes :=
  sha256_hex (show_value (VArray [VString agent; VString tool; VString (show_value (canonical args))])).

Definition ActionGrant_build (agent tool : bytes) (payload : Value) : ActionGrant :=
  {| grant_agent := agent; grant_tool := tool;
     args_digest_of := args_digest agent tool (default VNull (get payload (b "arguments"))) |}.

Definition matches_stored (g : ActionGrant) (stored : Value) : bool :=
  bool_decide (str_field stored (b "agent_id") = Some (grant_agent g))
  && bool_decide (str_field stored (b "tool") = Some (grant_tool g))
  && bool_decide (str_field stored (b "args_digest") = Some (args_digest_of g)).

Inductive GrantRefusal := NotApproved | Mismatch | AlreadyUsed | StoreFailed (e : bytes).
End approval.
