(* ===== verification/ApprovalStore.v ===== *)
(** * The approval store (crates/duduclaw-gateway/src/approval: store.rs,
    turn_origin.rs, and the statements of binding.rs, operations.rs,
    workflow_grants.rs, action_grant.rs and ag_ui.rs)

    The tables of approvals.db as maps, and every SQL statement or transaction
    on them as one function of the world it finds.  A column holds a value,
    not its JSON text.  Workflow runs, tasks, users and the policy files are
    what the world answers. *)

From S2P Require Import Prelude.
From S2P Require Import Bytes.
From S2P Require Import Utf8.
From S2P Require Import Chars.
From S2P Require Import JsonValue.
From S2P Require Import Conditions.
From S2P Require Import AuditChain.
From S2P Require Import Interleave.
From S2P Require Import Approval.

(** ** Tables *)

Record Row := { record : ApprovalRecord; origin_session : option bytes; origin_turn : option bytes }.

Record Tombstone := { cancelled_at : bytes; principal : option bytes }.

Record GrantRef := { grant_id : bytes; epoch : Z; spec_hash : bytes }.
#[global] Instance GrantRef_eq_dec : EqDecision GrantRef.
Proof. solve_decision. Defined.

Inductive OperationAuthority := BoundHumanApproval (approval : bytes) | ActiveWorkflowRevisionGrant (g : GrantRef).
#[global] Instance OperationAuthority_eq_dec : EqDecision OperationAuthority.
Proof. solve_decision. Defined.

Inductive OperationState := Prepared | Executing | Succeeded | Failed | Uncertain.
#[global] Instance OperationState_eq_dec : EqDecision OperationState.
Proof. solve_decision. Defined.

Record ClaimLease := { lease_owner : bytes; lease_token : bytes; lease_until : Z }.

Record Operation := {
  op_run : bytes;
  op_step : bytes;
  op_authority : OperationAuthority;
  op_run_authority : option (bytes * GrantRef);
  op_binding : ExecutionBinding;
  op_payload : Value;
  op_provider : option bytes;
  op_state : OperationState;
  op_fence : Z;
  op_lease : option ClaimLease;
  op_receipt : option Value;
  op_error : option bytes;
  op_resolution : option (bytes * bytes);  (** actor and reason *)
}.

(** The origins are triples of request, session and turn. *)
Record Db := {
  approvals : gmap bytes Row;
  origins : gset (bytes * bytes * bytes);
  cancelled : gmap (bytes * bytes) Tombstone;
  operations : gmap bytes Operation;
}.

Definition with_approvals (m : gmap bytes Row) (d : Db) : Db :=
  {| approvals := m; origins := origins d; cancelled := cancelled d; operations := operations d |}.
Definition with_origins (o : gset (bytes * bytes * bytes)) (d : Db) : Db :=
  {| approvals := approvals d; origins := o; cancelled := cancelled d; operations := operations d |}.
Definition with_cancelled (c : gmap (bytes * bytes) Tombstone) (d : Db) : Db :=
  {| approvals := approvals d; origins := origins d; cancelled := c; operations := operations d |}.
Definition with_operations (m : gmap bytes Operation) (d : Db) : Db :=
  {| approvals := approvals d; origins := origins d; cancelled := cancelled d; operations := m |}.
Definition with_row (id : bytes) (r : Row) (d : Db) : Db := with_approvals (<[id := r]> (approvals d)) d.
Definition with_operation (id : bytes) (o : Operation) (d : Db) : Db := with_operations (<[id := o]> (operations d)) d.
Definition empty_db : Db := {| approvals := ∅; origins := ∅; cancelled := ∅; operations := ∅ |}.

(** Updates of a row. *)
Definition on_record (f : ApprovalRecord → ApprovalRecord) (r : Row) : Row :=
  {| record := f (record r); origin_session := origin_session r; origin_turn := origin_turn r |}.

Definition decided (s : ApprovalStatus) (by_ at_ : bytes) (ans : option Value) (r : ApprovalRecord) : ApprovalRecord :=
  {| approval_id := approval_id r; agent_id := agent_id r; action_kind := action_kind r; summary := summary r;
     payload := payload r; status := s; created_at := created_at r; decided_at := Some at_; decided_by := Some by_;
     ttl_seconds := ttl_seconds r; notify_channel := notify_channel r; notify_chat_id := notify_chat_id r;
     reminded_at := reminded_at r; simulation := simulation r; request_kind := request_kind r; binding := binding r;
     answer_value := ans; invalidated_reason := invalidated_reason r; on_behalf_of := on_behalf_of r |}.

Definition invalidated (reason : bytes) (r : ApprovalRecord) : ApprovalRecord :=
  {| approval_id := approval_id r; agent_id := agent_id r; action_kind := action_kind r; summary := summary r;
     payload := payload r; status := Invalidated; created_at := created_at r; decided_at := decided_at r;
     decided_by := decided_by r; ttl_seconds := ttl_seconds r; notify_channel := notify_channel r;
     notify_chat_id := notify_chat_id r; reminded_at := reminded_at r; simulation := simulation r;
     request_kind := request_kind r; binding := binding r; answer_value := answer_value r;
     invalidated_reason := Some reason; on_behalf_of := on_behalf_of r |}.

Definition notified (chan chat : bytes) (r : ApprovalRecord) : ApprovalRecord :=
  {| approval_id := approval_id r; agent_id := agent_id r; action_kind := action_kind r; summary := summary r;
     payload := payload r; status := status r; created_at := created_at r; decided_at := decided_at r;
     decided_by := decided_by r; ttl_seconds := ttl_seconds r; notify_channel := Some chan; notify_chat_id := Some chat;
     reminded_at := reminded_at r; simulation := simulation r; request_kind := request_kind r; binding := binding r;
     answer_value := answer_value r; invalidated_reason := invalidated_reason r; on_behalf_of := on_behalf_of r |}.

Definition reminded (at_ : bytes) (r : ApprovalRecord) : ApprovalRecord :=
  {| approval_id := approval_id r; agent_id := agent_id r; action_kind := action_kind r; summary := summary r;
     payload := payload r; status := status r; created_at := created_at r; decided_at := decided_at r;
     decided_by := decided_by r; ttl_seconds := ttl_seconds r; notify_channel := notify_channel r;
     notify_chat_id := notify_chat_id r; reminded_at := Some at_; simulation := simulation r;
     request_kind := request_kind r; binding := binding r; answer_value := answer_value r;
     invalidated_reason := invalidated_reason r; on_behalf_of := on_behalf_of r |}.

Definition rewritten (text : bytes) (v : Value) (r : ApprovalRecord) : ApprovalRecord :=
  {| approval_id := approval_id r; agent_id := agent_id r; action_kind := action_kind r; summary := text; payload := v;
     status := match binding r with Some _ => Invalidated | None => status r end; created_at := created_at r;
     decided_at := decided_at r; decided_by := decided_by r; ttl_seconds := ttl_seconds r;
     notify_channel := notify_channel r; notify_chat_id := notify_chat_id r; reminded_at := reminded_at r;
     simulation := None; request_kind := request_kind r; binding := binding r; answer_value := answer_value r;
     invalidated_reason := match binding r with Some _ => Some (b "payload_scrubbed") | None => invalidated_reason r end;
     on_behalf_of := on_behalf_of r |}.

(** ** The world of an access *)

Inductive UserRole := Admin | Manager | Employee.
Definition level (r : UserRole) : Z := match r with Admin => 3 | Manager => 2 | Employee => 1 end.
Definition at_least (r min : UserRole) : bool := level min <=? level r.

Record User := { user_active : bool; user_role : UserRole }.
Record UserContext := { ctx_user : bytes; ctx_role : UserRole }.

(** The identity store: [open_user_db], the user table, and whether users.db
    exists when it does not open. *)
Inductive UserStore :=
| UsersFailed (e : bytes)
| UsersAbsent (file_exists : bool)
| UsersOpen (listing : result bool bytes) (user : bytes → result (option User) bytes).

(** A task of tasks.db: its deadline, revision, snapshot and eligibility. *)
Record TaskAuthority := {
  task_deadline_passed : bool;  (** its deadline cannot be read or has passed *)
  authority_revision : Z;
  authority_snapshot : bytes;
  task_eligible : bool;
}.

(** What workflow.db says of a run. *)
Inductive RunAuthority := RunActivated (activation : bytes) (g : GrantRef) | RunFixture | RunUnclear.

Record World := {
  now : Z;                      (** [Utc::now()], in nanoseconds *)
  now_text : bytes;             (** [Utc::now().to_rfc3339()] *)
  fault : option bytes;         (** why the statement, an attachment or the commit fails *)
  fresh_id : bytes;             (** [Uuid::new_v4] *)
  fresh_token : bytes;
  host : HostFiles;
  policy : bytes → result bytes bytes;       (** [policy_revision] of an agent *)
  task : bytes → option TaskAuthority;
  run_authority : bytes → result RunAuthority bytes;
  activation_revoked : bytes → bool;
  granted : GrantRef → bytes → Value → ExecutionBinding → result unit bytes;  (** [check_granted_material] *)
  users : UserStore;
  mail_eligible : ApprovalRecord → bool;
  mail_environment : bytes → bytes → result bytes bytes;
  card_digest : ApprovalRecord → bytes;      (** [decision_digest_at] *)
  dashboard_only : ApprovalRecord → bool;    (** [is_dashboard_only_record] *)
  pushed : option (bytes * bytes);           (** where a notification landed *)
}.

Definition seconds_now (w : World) : Z := now w / secs 1.

Abbreviation TaskOf := (Task World Db).

(** A statement whose execution may fail, and fails for a reason of its own. *)
Definition statement {A} (f : World → Db → Db * result A bytes) (w : World) (d : Db) : Db * result A bytes :=
  match fault w with Some e => (d, Err e) | None => f w d end.

Section store.
Context `{SerdeValue} `{Sha256} `{ApprovalCrates} `{RowOrder}.

(** ** Reading *)

(** [row_to_record] refuses a bound request that lost its binding. *)
Definition read_row (r : Row) : result ApprovalRecord bytes :=
  if starts_with (action_kind (record r)) (b "bound_") && negb (bool_decide (is_Some (binding (record r))))
  then Err (b "get approval: Query is not read-only") else Ok (record r).

Definition record_in (d : Db) (id : bytes) : result (option ApprovalRecord) bytes :=
  match approvals d !! id with
  | None => Ok None
  | Some r => match read_row r with Ok rec => Ok (Some rec) | Err e => Err e end
  end.

Definition get_record (id : bytes) : World → Db → Db * result (option ApprovalRecord) bytes :=
  statement (λ _ d, (d, record_in d id)).

Fixpoint read_rows (l : list Row) : result (list ApprovalRecord) bytes :=
  match l with
  | [] => Ok []
  | r :: rest =>
      match read_row r with
      | Err e => Err e
      | Ok rec => match read_rows rest with Ok recs => Ok (rec :: recs) | Err e => Err e end
      end
  end.

(** The rows of a query, in the order of their creation. *)
Definition list_where (keep : ApprovalRecord → bool) : World → Db → Db * result (list ApprovalRecord) bytes :=
  statement (λ _ d, (d, read_rows (row_order (map snd (filter (λ e : bytes * Row, keep (record e.2) = true) (map_to_list (approvals d))))))).
Definition list_pending_rows (agent : option bytes) : World → Db → Db * result (list ApprovalRecord) bytes :=
  list_where (λ r, bool_decide (status r = Pending) && match agent with Some a => ustr_eqb (agent_id r) a | None => true end).
Definition list_by_kind (kind : bytes) : World → Db → Db * result (list ApprovalRecord) bytes :=
  list_where (λ r, ustr_eqb (action_kind r) kind).

(** ** Turns *)

Definition is_cancelled (d : Db) (session turn : bytes) : bool := bool_decide (is_Some (cancelled d !! (session, turn))).

(** The turns a request belongs to, and those still live. *)
Definition origins_of (d : Db) (id : bytes) : list (bytes * bytes) :=
  omap (λ o, let '(i, s, t) := o in if ustr_eqb i id then Some (s, t) else None) (elements (origins d)).
Definition live_origins (d : Db) (id : bytes) : list (bytes * bytes) :=
  filter (λ o, is_cancelled d o.1 o.2 = false) (origins_of d id).

(** [LIVE_ORIGIN_SQL]. *)
Definition live_origin (d : Db) (id : bytes) (r : Row) : bool :=
  match origin_session r, origin_turn r with
  | None, None => true
  | Some _, Some _ => negb (is_empty (live_origins d id))
  | _, _ => false
  end.

Definition checked_origin (session turn : bytes) : result (bytes * bytes) bytes :=
  if is_empty session || (1024 <? length session)%nat || existsb is_control (utf8_decode session)
     || is_empty turn || (2048 <? length turn)%nat || existsb is_control (utf8_decode turn)
  then Err (b "invalid approval turn origin") else Ok (session, turn).

Definition origin_from_pair (source : bytes) (session turn : option bytes) : result (option (bytes * bytes)) bytes :=
  match session, turn with
  | Some s, Some t =>
      match checked_origin s t with
      | Ok o => Ok (Some o)
      | Err _ => Err (b "invalid approval turn origin (" ++ source ++ b ")")
      end
  | None, None => Ok None
  | _, _ => Err (b "incomplete approval turn origin (" ++ source ++ b ")")
  end.

(** ** Insertion *)

(** What makes a keyed request the one already stored. *)
Definition same_contract (old new : ApprovalRecord) : bool :=
  ustr_eqb (agent_id old) (agent_id new) && bool_decide (request_kind old = request_kind new)
  && bool_decide (binding old = binding new) && value_eqb (payload old) (payload new).

Definition add_origin (id : bytes) (o : option (bytes * bytes)) (d : Db) : Db :=
  match o with Some (s, t) => with_origins ({[(id, s, t)]} ∪ origins d) d | None => d end.

(** The columns of a new row, its texts masked. *)
Definition masked (r : ApprovalRecord) : ApprovalRecord :=
  {| approval_id := approval_id r; agent_id := agent_id r; action_kind := action_kind r; summary := mask (summary r);
     payload := payload r; status := status r; created_at := created_at r; decided_at := decided_at r;
     decided_by := decided_by r; ttl_seconds := ttl_seconds r; notify_channel := notify_channel r;
     notify_chat_id := notify_chat_id r; reminded_at := reminded_at r; simulation := mask_json <$> simulation r;
     request_kind := request_kind r; binding := binding r; answer_value := answer_value r;
     invalidated_reason := mask <$> invalidated_reason r; on_behalf_of := on_behalf_of r |}.

Definition insert_new (r : ApprovalRecord) (origin : option (bytes * bytes)) (d : Db) : Db * result bool bytes :=
  let stored := {| record := masked r; origin_session := fst <$> origin; origin_turn := snd <$> origin |} in
  match origin with
  | Some (s, t) => if is_cancelled d s t then (d, Err (b "approval turn was cancelled"))
                   else (add_origin (approval_id r) origin (with_row (approval_id r) stored d), Ok true)
  | None => (with_row (approval_id r) stored d, Ok true)
  end.

Definition insert_row (r : ApprovalRecord) (origin : option (bytes * bytes)) (if_absent : bool)
    : World → Db → Db * result bool bytes :=
  statement (λ _ d,
    match approvals d !! approval_id r with
    | None => insert_new r origin d
    | Some old =>
        if if_absent then
          if same_contract (record old) r then
            match origin with
            | Some (s, t) => (if is_cancelled d s t then d else add_origin (approval_id r) origin d, Ok false)
            | None =>
                (with_row (approval_id r) {| record := record old; origin_session := None; origin_turn := None |} d, Ok false)
            end
          else (d, Ok false)
        else
          match origin with
          | Some (s, t) => if is_cancelled d s t then (d, Err (b "approval turn was cancelled"))
                           else (d, Err (b "insert approval: UNIQUE constraint failed: approvals.id"))
          | None => (d, Err (b "insert approval: UNIQUE constraint failed: approvals.id"))
          end
    end).

(** ** Bookkeeping *)

(** An UPDATE of the row with an id: whether it changed one. *)
Definition update_row (id : bytes) (when : Db → Row → bool) (f : World → ApprovalRecord → ApprovalRecord) (w : World) (d : Db)
    : Db * bool :=
  match approvals d !! id with
  | Some r => if when d r then (with_row id (on_record (f w) r) d, true) else (d, false)
  | None => (d, false)
  end.

Definition set_notify_target (id chan chat : bytes) : World → Db → Db * result unit bytes :=
  statement (λ w d, ((update_row id (λ _ _, true) (λ _, notified chan chat) w d).1, Ok tt)).

Definition claim_reminder (id at_ : bytes) : World → Db → Db * result bool bytes :=
  statement (λ w d,
    let '(d, n) := update_row id
      (λ _ r, bool_decide (status (record r) = Pending) && negb (bool_decide (is_Some (reminded_at (record r)))))
      (λ _, reminded at_) w d in
    (d, Ok n)).

Definition replace_row_text (id text : bytes) (v : Value) : World → Db → Db * result unit bytes :=
  statement (λ w d, ((update_row id (λ _ _, true) (λ _, rewritten (mask text) v) w d).1, Ok tt)).
End store.
