(* ===== verification/ApprovalTx.v ===== *)
(** * Decisions and executions (crates/duduclaw-gateway/src/approval: the
    transactions of store.rs, binding.rs, ag_ui.rs, turn_origin.rs,
    action_grant.rs, operations.rs and workflow_grants.rs)

    Each function is one statement or transaction: it commits as a whole or
    leaves the store alone. *)

From S2P Require Import Prelude.
From S2P Require Import Bytes.
From S2P Require Import JsonValue.
From S2P Require Import Conditions.
From S2P Require Import AuditChain.
From S2P Require Import Interleave.
From S2P Require Import Approval.
From S2P Require Import ApprovalStore.

Section tx.
Context `{SerdeValue} `{Sha256} `{ApprovalCrates} `{RowOrder}.

(** ** Decisions *)

(** [check_expected_digest]: a dashboard decision names the card it saw. *)
Definition check_expected_digest (expected : option (bytes * bytes)) (w : World) (r : ApprovalRecord) : result unit bytes :=
  match expected with
  | Some (id, digest) =>
      if ustr_eqb id (approval_id r) && negb (ustr_eqb digest (card_digest w r))
      then Err (b "approval digest mismatch; refetch the approval before deciding") else Ok tt
  | None => Ok tt
  end.

Definition is_decision (s : ApprovalStatus) : bool := match s with Approved | Denied | Answered => true | _ => false end.

(** [decide_if_pending]: whether a row changed; the caller read the clock for
    [at_]. *)
Definition decide_if_pending (expected : option (bytes * bytes)) (id : bytes) (s : ApprovalStatus) (by_ at_ : bytes)
    : World → Db → Db * result bool bytes :=
  statement (λ w d,
    match record_in d id with
    | Err e => (d, Err e)
    | Ok rec =>
        let checked :=
          match rec, s with
          | None, _ | _, Expired => Ok true
          | Some r, _ =>
              if negb (bool_decide (status r = Pending)) || is_stale r (now w) then Ok false
              else match check_expected_digest expected w r with Ok _ => Ok true | Err e => Err e end
          end in
        match checked with
        | Err e => (d, Err e)
        | Ok false => (d, Ok false)
        | Ok true =>
            let '(d, n) := update_row id
              (λ d r, bool_decide (status (record r) = Pending) && live_origin d id r
                      && (negb (is_decision s) || sql_within at_ (created_at (record r)) (ttl_seconds (record r))))
              (λ _ r, decided s by_ at_ (answer_value r) r) w d in
            (d, Ok n)
        end
    end).

(** The task a binding names, as it was when the binding was made. *)
Definition task_matches (t : TaskAuthority) (e : ExecutionBinding) : bool :=
  bool_decide (Some (authority_revision t) = task_revision e)
  && bool_decide (Some (authority_snapshot t) = task_snapshot_hash e) && task_eligible t.

Definition check_task (w : World) (e : ExecutionBinding) : result unit bytes :=
  match task_id e with
  | None => Ok tt
  | Some id =>
      match task w id with
      | None => Err (b "task unavailable")
      | Some t =>
          if task_deadline_passed t then Err (b "task deadline expired or invalid")
          else if task_matches t e then Ok tt else Err (b "task authority changed or task closed")
      end
  end.

Definition validate_task_snapshot (e : ExecutionBinding) (w : World) : result unit bytes :=
  match task_id e with
  | None => Ok tt
  | Some id =>
      match task w id with
      | None => Err (b "task missing")
      | Some t => if task_matches t e then Ok tt else Err (b "task contract changed or task is closed")
      end
  end.

(** The transaction of [resolve_bound]. *)
Definition resolve_tx (expected : option (bytes * bytes)) (id : bytes) (e : ExecutionBinding) (kind : RequestKind)
    (s : ApprovalStatus) (by_ : bytes) (ans : option Value) : World → Db → Db * result unit bytes :=
  statement (λ w d,
    match check_task w e with
    | Err err => (d, Err err)
    | Ok _ =>
        match record_in d id with
        | Err err => (d, Err err)
        | Ok None => (d, Err (b "request missing"))
        | Ok (Some current) =>
            if negb (bool_decide (status current = Pending)) || is_stale current (now w)
            then (d, Err (b "request expired or decided concurrently"))
            else
              match check_expected_digest expected w current with
              | Err err => (d, Err err)
              | Ok _ =>
                  let '(d', n) := update_row id
                    (λ d r, bool_decide (status (record r) = Pending) && bool_decide (request_kind (record r) = kind)
                            && bool_decide (binding (record r) = Some e) && live_origin d id r
                            && sql_before (now_text w) (expires_at e)
                            && sql_within (now_text w) (created_at (record r)) (ttl_seconds (record r)))
                    (λ w, decided s by_ (now_text w) ans) w d in
                  if n : bool then (d', Ok tt) else (d, Err (b "request expired or decided concurrently"))
              end
        end
    end).

(** ** Batches of one turn *)

Definition same_ag_ui_request (x y : ApprovalRecord) : bool :=
  ustr_eqb (approval_id x) (approval_id y) && ustr_eqb (agent_id x) (agent_id y) && ustr_eqb (action_kind x) (action_kind y)
  && ustr_eqb (summary x) (summary y) && value_eqb (payload x) (payload y) && ustr_eqb (created_at x) (created_at y)
  && (ttl_seconds x =? ttl_seconds y) && bool_decide (request_kind x = request_kind y) && bool_decide (binding x = binding y)
  && match simulation x, simulation y with Some v, Some v' => value_eqb v v' | None, None => true | _, _ => false end
  && bool_decide (on_behalf_of x = on_behalf_of y).

(** The snapshot the caller decides on is still the row. *)
Definition unchanged_since (expected current : ApprovalRecord) : bool :=
  same_ag_ui_request expected current && bool_decide (status current = status expected)
  && negb (bool_decide (is_Some (invalidated_reason current)))
  && match answer_value current, answer_value expected with
     | Some v, Some v' => value_eqb v v' | None, None => true | _, _ => false
     end
  && bool_decide (decided_at current = decided_at expected) && bool_decide (decided_by current = decided_by expected).

(** The request belongs to this turn, which is live. *)
Definition turn_live (d : Db) (id session turn : bytes) (r : Row) : bool :=
  bool_decide (is_Some (origin_session r)) && bool_decide (is_Some (origin_turn r))
  && bool_decide ((id, session, turn) ∈ origins d) && negb (is_cancelled d session turn).

Definition ag_ui_decidable (w : World) (r : ApprovalRecord) : bool :=
  negb (is_stale r (now w)) && bool_decide (request_kind r = KindApproval) && negb (bool_decide (is_Some (binding r)))
  && (ustr_eqb (action_kind r) (b "mcp_call") || ustr_eqb (action_kind r) (b "mcp_install"))
  && negb (dashboard_only w r) && negb (bool_decide (is_Some (get (payload r) (b "scope_epoch"))))
  && negb (egress_guarded (payload r)).

(** A decision taken elsewhere that the batch only acknowledges. *)
Definition legally_decided (r : ApprovalRecord) (s : ApprovalStatus) : bool :=
  bool_decide (status r = s) && match decided_by r with Some who => negb (is_empty who) | None => false end
  && match rfc3339_nanos (created_at r), decided_at r ≫= rfc3339_nanos, record_expires_at r with
     | Some created, Some decided, Some expires => (created <=? decided) && (decided <? expires)
     | _, _, _ => false
     end.

Fixpoint decide_each (expected : option (bytes * bytes)) (session turn by_ : bytes) (w : World)
    (l : list (ApprovalRecord * bool)) (d : Db) : result Db bytes :=
  match l with
  | [] => Ok d
  | (snapshot, approve) :: rest =>
      let id := approval_id snapshot in
      match approvals d !! id with
      | None => Err (b "approval disappeared")
      | Some row =>
          match read_row row with
          | Err e => Err e
          | Ok current =>
              if negb (unchanged_since snapshot current) then Err (b "approval changed before resume")
              else if negb (turn_live d id session turn row) then Err (b "approval turn is not live")
              else
                match check_expected_digest expected w current with
                | Err e => Err e
                | Ok _ =>
                    let s := if approve : bool then Approved else Denied in
                    if bool_decide (status current = Pending) then
                      if negb (ag_ui_decidable w current) then Err (b "approval cannot be decided by AG-UI")
                      else
                        decide_each expected session turn by_ w rest
                          (with_row id (on_record (λ r, decided s by_ (now_text w) (answer_value r) r) row) d)
                    else if legally_decided current s then decide_each expected session turn by_ w rest d
                    else Err (b "approval has no matching legal decision")
                end
          end
      end
  end.

(** A request of the turn that the batch does not cover. *)
Definition turn_pending (d : Db) (session turn : bytes) : bool :=
  existsb (λ o, let '(i, s, t) := o in
    ustr_eqb s session && ustr_eqb t turn
    && match approvals d !! i with Some r => bool_decide (status (record r) = Pending) | None => false end) (elements (origins d)).

Definition decide_batch_tx (expected : option (bytes * bytes)) (session turn by_ : bytes) (l : list (ApprovalRecord * bool))
    : World → Db → Db * result unit bytes :=
  statement (λ w d,
    match decide_each expected session turn by_ w l d with
    | Err e => (d, Err e)
    | Ok d' => if turn_pending d' session turn then (d, Err (b "incomplete AG-UI interrupt coverage")) else (d', Ok tt)
    end).

(** ** Withdrawal of a turn *)

Definition TOMBSTONE_RETENTION_HOURS : Z := 24.
Definition TOMBSTONE_ROW_CAP : nat := 100000.
Definition TOMBSTONE_SWEEP_BATCH : nat := 1000.
Definition WEBCHAT_CANCELS_PER_HOUR : nat := 100.

(** A pending request all of whose turns are cancelled, this one among them. *)
Definition withdrawable (d : Db) (session turn id : bytes) (r : Row) : bool :=
  bool_decide (status (record r) = Pending) && bool_decide (is_Some (origin_session r))
  && bool_decide ((id, session, turn) ∈ origins d) && is_empty (live_origins d id).

Definition withdraw_turn_tx (session turn : bytes) (who : option bytes) : World → Db → Db * result (nat * list bytes) bytes :=
  statement (λ w d,
    let d := match cancelled d !! (session, turn) with
             | Some _ => d
             | None => with_cancelled (<[(session, turn) := {| cancelled_at := now_text w; principal := who |}]> (cancelled d)) d
             end in
    let mine := filter (λ e : bytes * Row, (e.1, session, turn) ∈ origins d) (map_to_list (approvals d)) in
    let approved := row_order (map fst (filter (λ e : bytes * Row, status (record e.2) = Approved) mine)) in
    let withdrawn := filter (λ e : bytes * Row, withdrawable d session turn e.1 e.2 = true) mine in
    (with_approvals
       (map_imap (λ id r, Some (if withdrawable d session turn id r
                                then on_record (λ r, decided Denied (b "system:cancel:webchat_turn") (now_text w) (answer_value r) r) r
                                else r)) (approvals d)) d,
     Ok (length withdrawn, approved))).

(** Tombstones that the sweep may drop, oldest first. *)
Definition droppable (w : World) (hours : Z) (c : gmap (bytes * bytes) Tombstone) : list (bytes * bytes) :=
  row_order (map fst (filter (λ e : (bytes * bytes) * Tombstone, sql_older (cancelled_at e.2) (now_text w) hours = true) (map_to_list c))).
Definition drop_tombstones (l : list (bytes * bytes)) (c : gmap (bytes * bytes) Tombstone) : gmap (bytes * bytes) Tombstone :=
  foldr delete c l.

(** The statements of [sweep_tombstones]: what is too old, the count, and what
    is over the cap. *)
Definition sweep_expired : World → Db → Db * result nat bytes :=
  statement (λ w d,
    let expired := take TOMBSTONE_SWEEP_BATCH (droppable w TOMBSTONE_RETENTION_HOURS (cancelled d)) in
    (with_cancelled (drop_tombstones expired (cancelled d)) d, Ok (length expired))).
Definition count_tombstones : World → Db → Db * result nat bytes := statement (λ _ d, (d, Ok (size (cancelled d)))).
Definition sweep_over (batch : nat) : World → Db → Db * result unit bytes :=
  statement (λ w d, (with_cancelled (drop_tombstones (take batch (droppable w 1 (cancelled d))) (cancelled d)) d, Ok tt)).

(** The requests of a live turn, if they are not too many. *)
Definition turn_rows (session turn : bytes) : World → Db → Db * result (list ApprovalRecord) bytes :=
  statement (λ _ d,
    let rows := if is_cancelled d session turn then []
                else filter (λ e : bytes * Row, (e.1, session, turn) ∈ origins d) (map_to_list (approvals d)) in
    (d, if (256 <? length rows)%nat then Err (b "too many approvals for this turn") else read_rows (row_order (map snd rows)))).

Definition check_webchat_turn_admission (who : bytes) : World → Db → Db * result unit bytes :=
  statement (λ w d,
    let recent := filter (λ e : (bytes * bytes) * Tombstone,
                    principal e.2 = Some who ∧ sql_newer (cancelled_at e.2) (now_text w) 1 = true) (map_to_list (cancelled d)) in
    if (WEBCHAT_CANCELS_PER_HOUR <=? length recent)%nat then (d, Err (b "turn_limit")) else (d, Ok tt)).

(** ** Consumption *)

Definition invalidate_row (id reason : bytes) : World → Db → Db * result bool bytes :=
  statement (λ w d,
    match record_in d id with
    | Err e => (d, Err e)
    | Ok _ =>
        let '(d, n) := update_row id (λ _ r, match status (record r) with Pending | Approved => true | _ => false end)
                         (λ _, invalidated (mask reason)) w d in
        (d, Ok n)
    end).

Definition consume_row (id reason : bytes) : World → Db → Db * result bool bytes :=
  statement (λ w d,
    let '(d, n) := update_row id (λ _ r, bool_decide (status (record r) = Approved)) (λ _, invalidated (mask reason)) w d in
    (d, Ok n)).

(** The transaction of [verify_and_consume]: the row just verified is
    consumed, with its deadlines; [mail] is the binding of a mail request. *)
Definition consume_grant_tx (rec : ApprovalRecord) (mail : option ExecutionBinding)
    : World → Db → Db * result (option GrantRefusal) bytes :=
  statement (λ w d,
    match match mail with Some e => check_task w e | None => Ok tt end with
    | Err e => (d, Err e)
    | Ok _ =>
        if negb (match record_expires_at rec with Some t => now w <? t | None => false end) then (d, Ok (Some NotApproved))
        else
          let '(d', n) := update_row (approval_id rec)
            (λ d r,
               bool_decide (status (record r) = Approved) && ustr_eqb (agent_id (record r)) (agent_id rec)
               && ustr_eqb (show_value (payload (record r))) (show_value (payload rec))
               && ustr_eqb (created_at (record r)) (created_at rec) && (ttl_seconds (record r) =? ttl_seconds rec)
               && bool_decide (binding (record r) = binding rec) && live_origin d (approval_id rec) r
               && match binding (record r) with Some e => sql_before (now_text w) (expires_at e) | None => true end
               && sql_within (now_text w) (created_at (record r)) (ttl_seconds (record r)))
            (λ w, invalidated (CONSUMED_PREFIX ++ fresh_id w)) w d in
          if n : bool then (d', Ok None) else (d, Ok (Some AlreadyUsed))
    end).

(** ** Operations *)

(** [workflow_run_authority]. *)
Definition workflow_run_authority (w : World) (e : ExecutionBinding) : result (option (bytes * GrantRef)) bytes :=
  if negb (is_workflow e) then Ok None
  else
    match run_authority w (run_id e) with
    | Err err => Err err
    | Ok (RunActivated a g) =>
        if activation_revoked w a then Err (b "workflow activation authoritatively revoked") else Ok (Some (a, g))
    | Ok RunFixture => Ok None
    | Ok RunUnclear => Err (b "workflow run activation authority missing")
    end.

Definition FIXTURE_DECISION_KIND : bytes := b "bound_fixture_decision".

(** The human approval an operation rests on is in force. *)
Definition approval_in_force (w : World) (d : Db) (approval : bytes) (e : ExecutionBinding) : bool :=
  match approvals d !! approval with
  | Some r =>
      bool_decide (request_kind (record r) = KindApproval) && bool_decide (status (record r) = Approved)
      && bool_decide (binding (record r) = Some e) && sql_before (now_text w) (expires_at e)
      && sql_within (now_text w) (created_at (record r)) (ttl_seconds (record r))
  | None => false
  end.

Definition check_operation_authority (w : World) (d : Db) (o : Operation) (e : ExecutionBinding) : result unit bytes :=
  match (if is_workflow e then
           match workflow_run_authority w e with
           | Err err => Err err
           | Ok current => if bool_decide (op_run_authority o = current) then Ok tt
                           else Err (b "operation workflow authority changed or missing")
           end
         else Ok tt) with
  | Err err => Err err
  | Ok _ =>
      match op_authority o with
      | BoundHumanApproval approval =>
          if is_empty approval then Err (b "unknown or malformed operation authority")
          else if negb (approval_in_force w d approval e) then Err (b "human operation authority revoked or expired")
          else if negb (is_workflow e) then Ok tt
          else
            match run_authority w (run_id e) with
            | Err err => Err err
            | Ok (RunActivated a g) =>
                match approvals d !! approval with
                | Some r =>
                    if ustr_eqb (action_kind (record r)) FIXTURE_DECISION_KIND
                    then Err (b "fixture decision cannot authorize a formal run")
                    else if activation_revoked w a then Err (b "workflow activation authoritatively revoked")
                    else granted w g (op_step o) (op_payload o) e
                | None => Err (b "human operation authority revoked or expired")
                end
            | Ok RunFixture => Ok tt
            | Ok RunUnclear => Err (b "human workflow activation authority missing")
            end
      | ActiveWorkflowRevisionGrant g => granted w g (op_step o) (op_payload o) e
      end
  end.

(** UNIQUE(run_id, step_key). *)
Definition operation_for_step (d : Db) (run step : bytes) : option (bytes * Operation) :=
  head (filter (λ e : bytes * Operation, op_run e.2 = run ∧ op_step e.2 = step) (map_to_list (operations d))).

Definition contract_of (o : Operation) (e : ExecutionBinding) (authority : OperationAuthority) (provider : option bytes) (v : Value) : bool :=
  bool_decide (op_binding o = e) && bool_decide (op_authority o = authority) && bool_decide (op_provider o = provider)
  && ustr_eqb (payload_hash (op_payload o)) (payload_hash v).

(** The row of a step: inserted, or the one already there if its contract is
    the same. *)
Definition prepare_row (w : World) (d : Db) (step : bytes) (e : ExecutionBinding) (authority : OperationAuthority)
    (provider : option bytes) (v : Value) (run : option (bytes * GrantRef)) (check_run : bool) (clash : bytes)
    : Db * result bytes bytes :=
  let fresh :=
    {| op_run := run_id e; op_step := step; op_authority := authority; op_run_authority := run; op_binding := e; op_payload := v;
       op_provider := provider; op_state := Prepared; op_fence := 0; op_lease := None; op_receipt := None; op_error := None;
       op_resolution := None |} in
  match operation_for_step d (run_id e) step with
  | None =>
      match operations d !! fresh_id w with
      | Some _ => (d, Err (b "UNIQUE constraint failed: approval_operations.operation_id"))
      | None => (with_operation (fresh_id w) fresh d, Ok (fresh_id w))
      end
  | Some (id, o) =>
      if negb (contract_of o e authority provider v) then (d, Err clash)
      else if check_run && negb (bool_decide (op_run_authority o = run)) then (d, Err (b "step workflow authority changed"))
      else (d, Ok id)
  end.

Definition prepare_tx (step : bytes) (e : ExecutionBinding) (approval : bytes) (provider : option bytes) (v : Value)
    : World → Db → Db * result bytes bytes :=
  statement (λ w d,
    match workflow_run_authority w e with
    | Err err => (d, Err err)
    | Ok run => prepare_row w d step e (BoundHumanApproval approval) provider v run true (b "step already exists with a different contract")
    end).

Definition prepare_granted_tx (g : GrantRef) (step : bytes) (e : ExecutionBinding) (provider : option bytes) (v : Value)
    : World → Db → Db * result bytes bytes :=
  statement (λ w d,
    match granted w g step v e with
    | Err err => (d, Err err)
    | Ok _ =>
        match check_task w e with
        | Err err => (d, Err err)
        | Ok _ =>
            match workflow_run_authority w e with
            | Err err => (d, Err err)
            | Ok run => prepare_row w d step e (ActiveWorkflowRevisionGrant g) provider v run false
                           (b "step already has different effect authority or contract")
            end
        end
    end).

(** An UPDATE of the operation with an id. *)
Definition update_operation (id : bytes) (when : Operation → bool) (f : Operation → Operation) (d : Db) : Db * bool :=
  match operations d !! id with
  | Some o => if when o then (with_operation id (f o) d, true) else (d, false)
  | None => (d, false)
  end.

Definition set_operation (s : OperationState) (fence : Z) (lease : option ClaimLease) (receipt : option Value) (error : option bytes)
    (resolution : option (bytes * bytes)) (o : Operation) : Operation :=
  {| op_run := op_run o; op_step := op_step o; op_authority := op_authority o; op_run_authority := op_run_authority o;
     op_binding := op_binding o; op_payload := op_payload o; op_provider := op_provider o; op_state := s; op_fence := fence;
     op_lease := lease; op_receipt := receipt; op_error := error; op_resolution := resolution |}.

Record OperationClaim := { claim_operation_id : bytes; claim_token : bytes; claim_fence : Z; claim_owner : bytes }.

(** The operation's authority, checked in the transaction that moves it. *)
Definition authorised (w : World) (d : Db) (id : bytes) (e : ExecutionBinding) : result unit bytes :=
  match check_task w e with
  | Err err => Err err
  | Ok _ =>
      match operations d !! id with
      | None => Err (b "operation authority missing")
      | Some o => check_operation_authority w d o e
      end
  end.

Definition lease_free (o : Operation) (t : Z) : bool := match op_lease o with None => true | Some l => lease_until l <=? t end.

Definition claim_tx (id : bytes) (e : ExecutionBinding) (owner : bytes) (lease_seconds : Z)
    : World → Db → Db * result OperationClaim bytes :=
  statement (λ w d,
    match authorised w d id e with
    | Err err => (d, Err err)
    | Ok _ =>
        let t := seconds_now w in
        let '(d', n) := update_operation id
          (λ o, bool_decide (op_state o = Prepared) && bool_decide (op_binding o = e) && lease_free o t)
          (λ o, set_operation (op_state o) (op_fence o + 1)
                  (Some {| lease_owner := owner; lease_token := fresh_token w; lease_until := t + lease_seconds |})
                  (op_receipt o) (op_error o) (op_resolution o) o) d in
        if n : bool then
          (d', Ok {| claim_operation_id := id; claim_token := fresh_token w;
                     claim_fence := match operations d' !! id with Some o => op_fence o | None => 0 end; claim_owner := owner |})
        else
          match operations d !! id with
          | Some o => if bool_decide (op_state o = Prepared) && negb (lease_free o t)
                      then (d, Err (b "operation_lease_held_by_another_executor"))
                      else (d, Err (b "operation not approved, expired, consumed or already claimed"))
          | None => (d, Err (b "operation not approved, expired, consumed or already claimed"))
          end
    end).

(** The claim is the operation's latest, and its lease runs. *)
Definition holds_lease (c : OperationClaim) (t : Z) (o : Operation) : bool :=
  match op_lease o with
  | Some l => ustr_eqb (lease_token l) (claim_token c) && (op_fence o =? claim_fence c) && ustr_eqb (lease_owner l) (claim_owner c)
              && (t <? lease_until l)
  | None => false
  end.

Definition begin_tx (c : OperationClaim) (e : ExecutionBinding) : World → Db → Db * result unit bytes :=
  statement (λ w d,
    match authorised w d (claim_operation_id c) e with
    | Err err => (d, Err err)
    | Ok _ =>
        let '(d', n) := update_operation (claim_operation_id c)
          (λ o, bool_decide (op_state o = Prepared) && holds_lease c (seconds_now w) o && bool_decide (op_binding o = e))
          (λ o, set_operation Executing (op_fence o) (op_lease o) (op_receipt o) (op_error o) (op_resolution o) o) d in
        if n : bool then (d', Ok tt) else (d, Err (b "execution authorization revoked or fenced"))
    end).

Definition settle_tx (c : OperationClaim) (s : OperationState) (receipt : option Value) (error : option bytes)
    : World → Db → Db * result unit bytes :=
  statement (λ w d,
    let '(d', n) := update_operation (claim_operation_id c)
      (λ o, bool_decide (op_state o = Executing) && holds_lease c (seconds_now w) o)
      (λ o, set_operation s (op_fence o) (op_lease o) (mask_json <$> receipt) (mask <$> error) (op_resolution o) o) d in
    if n : bool then (d', Ok tt) else (d, Err (b "stale execution receipt refused by fence"))).

(** An UPDATE of every operation that satisfies a condition. *)
Definition update_operations (when : Operation → bool) (error : bytes) (d : Db) : Db :=
  with_operations ((λ o, if when o then set_operation Uncertain (op_fence o) (op_lease o) (op_receipt o) (Some error) (op_resolution o) o
                         else o) <$> operations d) d.

Definition recover_tx : World → Db → Db * result nat bytes :=
  statement (λ w d,
    let lost o := bool_decide (op_state o = Executing) && lease_free o (seconds_now w)
                  && bool_decide (is_Some (op_lease o)) in
    (update_operations lost (b "execution_lease_lost") d,
     Ok (length (filter (λ e : bytes * Operation, lost e.2 = true) (map_to_list (operations d)))))).

(** Bindings that cannot outlive the gateway that made them. *)
Definition live_only (e : ExecutionBinding) : bool :=
  ustr_eqb (resume_handler e) (b "computer_reobserve_v1") || ustr_eqb (resume_handler e) (b "live_only_v1").

(** The two statements of [invalidate_live_on_restart]. *)
Definition restart_approvals : World → Db → Db * result unit bytes :=
  statement (λ _ d,
    (with_approvals
       ((λ r, if match status (record r) with Pending | Approved => true | _ => false end
                 && match binding (record r) with Some e => live_only e | None => false end
              then on_record (invalidated (b "restart_requires_reobserve")) r else r) <$> approvals d) d, Ok tt)).
Definition restart_operations : World → Db → Db * result unit bytes :=
  statement (λ _ d,
    (update_operations (λ o, bool_decide (op_state o = Executing) && live_only (op_binding o))
       (b "gateway_restarted_during_execution") d, Ok tt)).

Definition resolve_uncertain_tx (id : bytes) (fence : Z) (succeeded : bool) (receipt : Value) (actor reason : bytes)
    : World → Db → Db * result unit bytes :=
  statement (λ w d,
    let '(d', n) := update_operation id
      (λ o, bool_decide (op_state o = Uncertain) && (op_fence o =? fence))
      (λ o, set_operation (if succeeded then Succeeded else Failed) (op_fence o + 1) (op_lease o) (Some (mask_json receipt))
              (op_error o) (Some (actor, mask reason)) o) d in
    if n : bool then (d', Ok tt) else (d, Err (b "reconciliation state changed"))).
End tx.
