(* ===== verification/ApprovalBroker.v ===== *)
(** * The approval broker (crates/duduclaw-gateway/src/approval: broker.rs,
    binding.rs, operations.rs, workflow_grants.rs, fixture_decision.rs,
    action_grant.rs, ag_ui.rs, turn_origin.rs)

    Each method of the broker as a task over the store: what it reads, when,
    and which transactions it runs in between.  [Call] lists the methods;
    [program] runs them. *)

From S2P Require Import Prelude.
From S2P Require Import Bytes.
From S2P Require Import Chars.
From S2P Require Import JsonValue.
From S2P Require Import Conditions.
From S2P Require Import AuditChain.
From S2P Require Import Interleave.
From S2P Require Import Approval.
From S2P Require Import ApprovalStore.
From S2P Require Import ApprovalTx.

(** What a task-local of the host says of the caller: the turn its requests
    belong to, the person it works for, and the card a decision has seen. *)
Record Caller := {
  origin_source : bytes;
  origin_pair : option bytes * option bytes;
  works_for : option bytes;
  expected_digest : option (bytes * bytes);
}.

Section broker.
Context `{SerdeValue} `{Sha256} `{ApprovalCrates} `{RowOrder}.

Definition get (id : bytes) : TaskOf (option ApprovalRecord) := access (get_record id).
Definition get_or (e id : bytes) : TaskOf ApprovalRecord := r ← get id; match r with Some r => done r | None => refuse e end.
Definition look {A} (f : World → result A bytes) : TaskOf A := observe f.
(** The clock, as text. *)
Definition clock : TaskOf bytes := look (λ w, Ok (now_text w)).
Definition not_found (id : bytes) : bytes := b "approval " ++ id ++ b " not found".

(** ** Requests *)

Definition insert (c : Caller) (r : ApprovalRecord) (if_absent : bool) : TaskOf bool :=
  _ ← give (require_credential_free_payload (payload r));
  _ ← give (match answer_value r with Some v => require_credential_free_payload v | None => Ok tt end);
  origin ← give (origin_from_pair (origin_source c) (origin_pair c).1 (origin_pair c).2);
  access (insert_row r origin if_absent).

(** The push of a new request; the store keeps where it landed, if anywhere.
    A failing write is only logged. *)
Definition record_push (id : bytes) : TaskOf unit :=
  where_ ← look (λ w, Ok (pushed w));
  match where_ with
  | Some (chan, chat) => Access (set_notify_target id chan chat) (λ _, done tt)
  | None => done tt
  end.
Definition SELF_NOTIFYING_KINDS : list bytes := map b ["goal_kickoff"; "responsibility_decision"]%string.
Definition push_new_request (kind id : bytes) : TaskOf unit :=
  if existsb (ustr_eqb kind) SELF_NOTIFYING_KINDS then done tt else record_push id.

Definition new_request (c : Caller) (id agent kind text : bytes) (v : Value) (ttl : Z) (sim : option Value) (at_ : bytes) : ApprovalRecord :=
  {| approval_id := id; agent_id := agent; action_kind := kind; summary := mask text; payload := v; status := Pending;
     created_at := at_; decided_at := None; decided_by := None; ttl_seconds := if 0 <? ttl then ttl else DEFAULT_TTL_SECONDS;
     notify_channel := None; notify_chat_id := None; reminded_at := None; simulation := sim; request_kind := KindApproval;
     binding := None; answer_value := None; invalidated_reason := None; on_behalf_of := works_for c |}.

(** [request] and [request_with_simulation]. *)
Definition request (c : Caller) (agent kind text : bytes) (v : Value) (ttl : Z) (sim : option Value)
    : TaskOf bytes :=
  r ← look (λ w, Ok (new_request c (fresh_id w) agent kind text v ttl sim (now_text w)));
  _ ← insert c r false;
  _ ← push_new_request kind (approval_id r);
  done (approval_id r).

Definition bound_kind (kind : RequestKind) (v : Value) : bytes :=
  match kind with
  | KindQuestion => b "bound_question"
  | _ => if is_activation_payload v then WORKFLOW_ACTIVATION_KIND else b "bound_action"
  end.

Definition bound_record (c : Caller) (keyed : option bytes) (kind : RequestKind) (agent text : bytes) (v : Value) (e : ExecutionBinding)
    : TaskOf ApprovalRecord :=
  if bool_decide (kind = KindInvalid) then refuse (b "invalid request kind")
  else
    _ ← look (λ w, ExecutionBinding_validate e (now w) v);
    if negb (ustr_eqb agent (actor_principal e)) then refuse (b "request actor does not own the employee identity")
    else
      _ ← look (validate_task_snapshot e);
      look (λ w,
        match rfc3339_nanos (expires_at e) with
        | None => Err (b "invalid expiry")
        | Some expiry =>
            Ok {| approval_id := default (fresh_id w) keyed; agent_id := agent; action_kind := bound_kind kind v; summary := mask text;
                  payload := v; status := Pending; created_at := now_text w; decided_at := None; decided_by := None;
                  ttl_seconds := Z.max (Z.quot (expiry - now w) (secs 1)) 1; notify_channel := Some (channel (decision_context e));
                  notify_chat_id := Some (conversation_id (decision_context e)); reminded_at := None; simulation := None;
                  request_kind := kind; binding := Some e; answer_value := None; invalidated_reason := None;
                  on_behalf_of := works_for c |}
        end).

Definition with_simulation (sim : option Value) (r : ApprovalRecord) : ApprovalRecord :=
  {| approval_id := approval_id r; agent_id := agent_id r; action_kind := action_kind r; summary := summary r; payload := payload r;
     status := status r; created_at := created_at r; decided_at := decided_at r; decided_by := decided_by r;
     ttl_seconds := ttl_seconds r; notify_channel := notify_channel r; notify_chat_id := notify_chat_id r;
     reminded_at := reminded_at r; simulation := sim; request_kind := request_kind r; binding := binding r;
     answer_value := answer_value r; invalidated_reason := invalidated_reason r; on_behalf_of := on_behalf_of r |}.

(** [request_bound], and [request_bound_mail] with its simulation. *)
Definition request_bound (c : Caller) (kind : RequestKind) (agent text : bytes) (v : Value) (e : ExecutionBinding) (sim : option Value)
    : TaskOf bytes :=
  r ← bound_record c None kind agent text v e;
  _ ← insert c (with_simulation sim r) false;
  done (approval_id r).

Definition keyed_id (prefix key : bytes) : bytes := uuid_of_digest (sha256 (prefix ++ key)).

Definition request_bound_keyed (c : Caller) (key : bytes) (kind : RequestKind) (agent text : bytes) (v : Value) (e : ExecutionBinding)
    : TaskOf bytes :=
  r ← bound_record c (Some (keyed_id (b "duduclaw-keyed-approval:") key)) kind agent text v e;
  _ ← insert c r true;
  stored ← get_or (b "keyed request missing") (approval_id r);
  if bool_decide (request_kind stored = request_kind r) && ustr_eqb (agent_id stored) (agent_id r)
     && bool_decide (binding stored = binding r) && ustr_eqb (payload_hash (payload stored)) (payload_hash (payload r))
  then done (approval_id stored) else refuse (b "keyed request already exists with a different contract").

(** A decision scripted by the fixture of a run that has no activation. *)
Inductive FixtureDecision := FixtureApprove | FixtureDeny | FixtureAnswer (text : bytes).

Definition scripted (kind : RequestKind) (f : FixtureDecision) : result (ApprovalStatus * option Value) bytes :=
  match kind, f with
  | KindApproval, FixtureApprove => Ok (Approved, None)
  | _, FixtureDeny => Ok (Denied, None)
  | KindQuestion, FixtureAnswer text =>
      if is_empty (trim_bytes text) || (8192 <? length text)%nat then Err (b "fixture answer empty or too long")
      else Ok (Answered, Some (VString text))
  | _, _ => Err (b "fixture_decision_mismatch")
  end.

Definition require_fixture_run (e : ExecutionBinding) : TaskOf unit :=
  if negb (is_workflow e) then refuse (b "fixture decisions apply to workflow runs only")
  else look (λ w, match run_authority w (run_id e) with
                  | Err err => Err err
                  | Ok RunFixture => Ok tt
                  | Ok _ => Err (b "fixture decisions are refused for a formal run")
                  end).

Definition fixture_record (s : ApprovalStatus) (ans : option Value) (at_ : bytes) (e : ExecutionBinding) (r : ApprovalRecord) : ApprovalRecord :=
  {| approval_id := approval_id r; agent_id := agent_id r; action_kind := FIXTURE_DECISION_KIND; summary := summary r;
     payload := payload r; status := s; created_at := created_at r; decided_at := Some at_;
     decided_by := Some (b "fixture:" ++ run_id e); ttl_seconds := ttl_seconds r; notify_channel := None; notify_chat_id := None;
     reminded_at := reminded_at r; simulation := simulation r; request_kind := request_kind r; binding := binding r;
     answer_value := ans; invalidated_reason := invalidated_reason r; on_behalf_of := on_behalf_of r |}.

Definition record_fixture_decision (c : Caller) (key : bytes) (kind : RequestKind) (agent text : bytes) (v : Value)
    (e : ExecutionBinding) (f : FixtureDecision) : TaskOf bytes :=
  _ ← require_fixture_run e;
  sa ← give (scripted kind f);
  r ← bound_record c (Some (keyed_id (b "duduclaw-fixture-decision:") key)) kind agent text v e;
  r ← look (λ w, Ok (fixture_record sa.1 sa.2 (now_text w) e r));
  _ ← insert c r true;
  stored ← get_or (b "fixture decision missing") (approval_id r);
  if ustr_eqb (action_kind stored) FIXTURE_DECISION_KIND && bool_decide (binding stored = binding r)
     && bool_decide (status stored = status r) && ustr_eqb (payload_hash (payload stored)) (payload_hash (payload r))
  then done (approval_id stored) else refuse (b "fixture decision already exists with a different contract").

(** ** Waiting *)

(** The reminder of a request about to lapse; its failures are only logged.
    [capped] kinds get none. *)
Definition maybe_remind (capped : bool) (r : ApprovalRecord) (t : Z) (at_ : bytes) : TaskOf unit :=
  if negb (reminder_due r t) || bool_decide (is_Some (binding r)) || capped then done tt
  else
    Access (claim_reminder (approval_id r) at_) (λ claimed,
      match claimed with
      | Ok true =>
          where_ ← look (λ w, Ok (pushed w));
          match where_ with
          | Some (chan, chat) =>
              if notify_target_changed r chan chat then Access (set_notify_target (approval_id r) chan chat) (λ _, done tt)
              else done tt
          | None => done tt
          end
      | _ => done tt
      end).

Definition poll (no_reminder : bytes → bool) (id : bytes) : TaskOf ApprovalStatus :=
  r ← get_or (not_found id) id;
  t ← look (λ w, Ok (now w, now_text w));
  if is_stale r t.1 then
    _ ← access (decide_if_pending None id Expired DECIDED_BY_TTL t.2);
    fresh ← get id;
    done (match fresh with Some r => status r | None => Expired end)
  else
    _ ← maybe_remind (no_reminder (action_kind r)) r t.1 t.2;
    done (status r).

(** The loop of [await_decision], one round per [poll_interval]; [None] when
    the rounds are over and the wait is not. *)
Fixpoint await_loop (rounds : nat) (no_reminder : bytes → bool) (id : bytes) (deadline : option Z) : TaskOf (option ApprovalStatus) :=
  match rounds with
  | O => done None
  | S rounds =>
      s ← poll no_reminder id;
      if is_terminal s then done (Some s)
      else
        over ← look (λ w, Ok (match deadline with Some t => t <=? now w | None => false end));
        if over : bool then
          at_ ← clock;
          _ ← access (decide_if_pending None id Expired DECIDED_BY_TTL at_);
          done (Some Expired)
        else await_loop rounds no_reminder id deadline
  end.

Definition await_decision (rounds : nat) (no_reminder : bytes → bool) (id : bytes) : TaskOf (option ApprovalStatus) :=
  r ← get_or (not_found id) id;
  await_loop rounds no_reminder id (record_expires_at r).

(** The sweep; the reminders it starts are tasks of their own. *)
Fixpoint expire_each (l : list ApprovalRecord) (t : Z) (at_ : bytes) (n : nat) : TaskOf nat :=
  match l with
  | [] => done n
  | r :: rest =>
      if is_stale r t then
        changed ← access (decide_if_pending None (approval_id r) Expired DECIDED_BY_TTL at_);
        expire_each rest t at_ (if changed : bool then S n else n)
      else expire_each rest t at_ n
  end.
Definition expire_stale : TaskOf nat :=
  t ← look (λ w, Ok (now w, now_text w));
  l ← access (list_pending_rows None);
  expire_each l t.1 t.2 0.
Definition list_pending (agent : option bytes) : TaskOf (list ApprovalRecord) :=
  _ ← expire_stale;
  access (list_pending_rows agent).

(** ** Decisions without a binding *)

Definition decide_unbound (c : Caller) (id : bytes) (approve : bool) (by_ : bytes) (egress_admin : bool) : TaskOf unit :=
  r ← get_or (not_found id) id;
  if egress_guarded (payload r) && negb egress_admin then refuse (b "outgoing data approval requires an authenticated Admin")
  else if bool_decide (is_Some (binding r)) || negb (bool_decide (request_kind r = KindApproval))
  then refuse (b "bound requests require authenticated decision context")
  else
    t ← look (λ w, Ok (now w));
    if is_stale r t then
      at_ ← clock;
      _ ← access (decide_if_pending (expected_digest c) id Expired DECIDED_BY_TTL at_);
      refuse (b "approval expired")
    else if is_terminal (status r)
    then refuse (b "approval " ++ id ++ b " already " ++ as_str (status r) ++ b " — refusing to change terminal state")
    else
      at_ ← clock;
      changed ← access (decide_if_pending (expected_digest c) id (if approve then Approved else Denied) by_ at_);
      if changed : bool then done tt else refuse (b "approval " ++ id ++ b " was decided concurrently").

(** [require_current_dashboard_role_in_home]: the role is read again. *)
Definition require_current_dashboard_role (ctx : UserContext) (min : UserRole) (w : World) : result unit bytes :=
  if negb (at_least (ctx_role ctx) min) then Err (b "dashboard authority required")
  else
    let system := ustr_eqb (ctx_user ctx) (b "system") in
    match users w with
    | UsersFailed e => Err e
    | UsersAbsent exists_ => if negb exists_ && system then Ok tt else Err (b "identity store unavailable")
    | UsersOpen listing user =>
        let known :=
          match user (ctx_user ctx) with
          | Err _ => Err (b "identity lookup failed")
          | Ok None => Err (b "decision principal unavailable")
          | Ok (Some u) => if negb (user_active u) || negb (at_least (user_role u) min) then Err (b "decision authority revoked") else Ok tt
          end in
        if system then
          match listing with
          | Err _ => Err (b "identity store unreadable")
          | Ok empty => if empty : bool then Ok tt else known
          end
        else known
    end.

Definition dashboard_name (ctx : UserContext) : bytes := b "dashboard:" ++ ctx_user ctx.

Definition decide_egress_dashboard (c : Caller) (id : bytes) (ctx : UserContext) (approve : bool) : TaskOf unit :=
  _ ← look (require_current_dashboard_role ctx Admin);
  decide_unbound c id approve (dashboard_name ctx) true.

(** ** Decisions with a binding *)

Definition resolve_bound (c : Caller) (id : bytes) (context : DecisionContext) (kind : RequestKind) (s : ApprovalStatus)
    (ans : option Value) (dashboard : option UserContext) : TaskOf unit :=
  _ ← give (DecisionContext_validate context);
  _ ← give (match ans with Some v => require_credential_free_payload v | None => Ok tt end);
  r ← get_or (b "request not found") id;
  _ ← (if egress_guarded (payload r) then
         match dashboard with
         | Some ctx => look (require_current_dashboard_role ctx Admin)
         | None => look (λ w, if mail_eligible w r then Ok tt else Err (b "outgoing data approval requires a dashboard Admin"))
         end
       else done tt);
  match binding r with
  | None => refuse (b "legacy request has no authorization binding")
  | Some e =>
      _ ← look (λ w, ExecutionBinding_validate e (now w) (payload r));
      if negb (bool_decide (request_kind r = kind))
         || (bool_decide (dashboard = None) && negb (bool_decide (decision_context e = context)))
      then refuse (b "request kind or decision identity mismatch")
      else if is_activation r && bool_decide (dashboard = None)
      then refuse (b "workflow activation is decided by an Admin in the dashboard")
      else
        _ ← look (λ w, match policy w (actor_principal e) with
                       | Err err => Err err
                       | Ok p => if ustr_eqb p (policy_revision e) then Ok tt else Err (b "policy changed; request a new approval")
                       end);
        _ ← (if is_bound_mail r e then
               look (λ w, match mail_environment w (agent_id r) (run_id e) with
                          | Err err => Err err
                          | Ok h => if ustr_eqb h (environment_hash e) then Ok tt
                                    else Err (b "mail policy changed; request a new approval")
                          end)
             else done tt);
        _ ← look (λ w, validate_host_files e (host w));
        _ ← look (validate_task_snapshot e);
        access (resolve_tx (expected_digest c) id e kind s
          (match dashboard with
           | Some ctx => dashboard_name ctx
           | None => (if egress_guarded (payload r) then b "requester:" else []) ++ channel context ++ b ":" ++ principal_id context
           end) ans)
  end.

Definition decide_bound (c : Caller) (id : bytes) (context : DecisionContext) (approve : bool) : TaskOf unit :=
  resolve_bound c id context KindApproval (if approve then Approved else Denied) None None.

Definition all_strings (l : list Value) : bool := forallb (λ v, match v with VString _ => true | _ => false end) l.

Definition answer_question (c : Caller) (id : bytes) (context : DecisionContext) (ans : Value) : TaskOf unit :=
  match ans with
  | VString text =>
      if is_empty (trim_bytes text) || (8192 <? length text)%nat then refuse (b "question answer empty or too long")
      else
        r ← get_or (b "request not found") id;
        match JsonValue.get (payload r) (b "options") ≫= as_array with
        | Some options =>
            if is_empty options || negb (all_strings options) || negb (existsb (value_eqb ans) options)
            then refuse (b "answer is not an offered option")
            else resolve_bound c id context KindQuestion Answered (Some ans) None
        | None => resolve_bound c id context KindQuestion Answered (Some ans) None
        end
  | _ => refuse (b "question answer must be text")
  end.

Definition decide_bound_dashboard (c : Caller) (id : bytes) (ctx : UserContext) (approve : bool) : TaskOf unit :=
  r ← get_or (b "request missing") id;
  _ ← look (require_current_dashboard_role ctx (if is_activation r || egress_guarded (payload r) then Admin else Manager));
  match binding r with
  | None => refuse (b "binding missing")
  | Some e => resolve_bound c id (decision_context e) KindApproval (if approve then Approved else Denied) None (Some ctx)
  end.

Fixpoint distinct_ids (l : list (ApprovalRecord * bool)) : bool :=
  match l with
  | [] => true
  | (r, _) :: rest => negb (existsb (λ x : ApprovalRecord * bool, ustr_eqb (approval_id x.1) (approval_id r)) rest) && distinct_ids rest
  end.

Definition decide_ag_ui_batch (c : Caller) (session turn : bytes) (l : list (ApprovalRecord * bool)) (by_ : bytes) : TaskOf unit :=
  if is_empty session || is_empty turn || is_empty l || (256 <? length l)%nat then refuse (b "invalid AG-UI decision batch")
  else if negb (distinct_ids l) then refuse (b "duplicate AG-UI decision")
  else access (decide_batch_tx (expected_digest c) session turn by_ l).

(** ** The rest of a request's life *)

Definition withdraw (c : Caller) (id by_ : bytes) : TaskOf bool :=
  at_ ← clock;
  access (decide_if_pending (expected_digest c) id Denied by_ at_).

Definition replace_text (id text : bytes) (v : Value) : TaskOf unit :=
  _ ← give (require_credential_free_payload v);
  access (replace_row_text id text v).

Definition invalidate_request (id reason : bytes) : TaskOf unit := _ ← access (invalidate_row id reason); done tt.
Definition consume_approved (id reason : bytes) : TaskOf bool := access (consume_row id reason).

Definition withdraw_turn (session turn : bytes) (who : option bytes) : TaskOf (nat * list bytes) :=
  _ ← give (checked_origin session turn);
  access (withdraw_turn_tx session turn who).

Definition sweep_cancelled_turns : TaskOf unit :=
  expired ← access sweep_expired;
  count ← access count_tombstones;
  if (TOMBSTONE_ROW_CAP <? count)%nat
  then access (sweep_over (Nat.min (count - TOMBSTONE_ROW_CAP) (TOMBSTONE_SWEEP_BATCH - expired))) else done tt.

Definition records_for_turn (session turn : bytes) : TaskOf (list ApprovalRecord) :=
  _ ← give (checked_origin session turn);
  access (turn_rows session turn).

(** [verify_and_consume]: [None] is success; an error is [StoreFailed]. *)
Definition verify_and_consume (id : bytes) (g : ActionGrant) : TaskOf (option GrantRefusal) :=
  found ← get id;
  match found with
  | None => done (Some NotApproved)
  | Some r =>
      if negb (bool_decide (status r = Approved)) then done (Some NotApproved)
      else if negb (ustr_eqb (agent_id r) (grant_agent g)) then done (Some Mismatch)
      else
        match JsonValue.get (payload r) ACTION_GRANT_KEY with
        | None => done (Some Mismatch)
        | Some stored =>
            if negb (matches_stored g stored) then done (Some Mismatch)
            else
              match binding r with
              | Some e =>
                  if is_bound_mail r e then
                    _ ← look (λ w, ExecutionBinding_validate e (now w) (payload r));
                    _ ← look (λ w, validate_host_files e (host w));
                    _ ← look (validate_task_snapshot e);
                    _ ← look (λ w,
                      match policy w (agent_id r), mail_environment w (agent_id r) (run_id e) with
                      | Ok p, Ok h => if ustr_eqb p (policy_revision e) && ustr_eqb h (environment_hash e) then Ok tt
                                      else Err (b "policy changed; request a new approval")
                      | Err err, _ => Err err
                      | Ok p, Err err => if ustr_eqb p (policy_revision e) then Err err
                                         else Err (b "policy changed; request a new approval")
                      end);
                    _ ← look (λ w,
                      if match decided_by r with Some who => starts_with who (b "dashboard:") | None => false end || mail_eligible w r
                      then Ok tt else Err (b "mail requester authority changed"));
                    access (consume_grant_tx r (Some e))
                  else access (consume_grant_tx r None)
              | None => access (consume_grant_tx r None)
              end
        end
  end.

(** ** Operations *)

Definition bad_step (step : bytes) : bool := is_empty step || (256 <? length step)%nat.

Definition prepare_operation (id step : bytes) (provider : option bytes) : TaskOf bytes :=
  if bad_step step then refuse (b "invalid step key")
  else
    r ← get_or (b "request not found") id;
    _ ← give (require_credential_free_payload (payload r));
    if negb (bool_decide (request_kind r = KindApproval)) then refuse (b "question cannot prepare an action")
    else
      match binding r with
      | None => refuse (b "legacy approval cannot prepare execution")
      | Some e =>
          _ ← look (λ w, ExecutionBinding_validate e (now w) (payload r));
          access (prepare_tx step e id provider (payload r))
      end.

Definition current_policy (e : ExecutionBinding) (changed : bytes) (w : World) : result unit bytes :=
  match policy w (actor_principal e) with
  | Err err => Err err
  | Ok p => if ustr_eqb p (policy_revision e) then Ok tt else Err changed
  end.

Definition prepare_granted_operation (g : GrantRef) (step : bytes) (v : Value) (e : ExecutionBinding) (provider : option bytes)
    : TaskOf bytes :=
  if bad_step step then refuse (b "invalid granted operation step")
  else
    _ ← give (require_credential_free_payload v);
    _ ← look (λ w, ExecutionBinding_validate e (now w) v);
    _ ← look (λ w, validate_host_files e (host w));
    _ ← look (current_policy e (b "workflow operation policy changed"));
    access (prepare_granted_tx g step e provider v).

Definition operation_payload (id : bytes) : World → Db → Db * result Value bytes :=
  statement (λ _ d, (d, match operations d !! id with Some o => Ok (op_payload o) | None => Err (b "operation not found") end)).

(** The host is read again outside the short transaction. *)
Definition operation_context (id : bytes) (e : ExecutionBinding) : TaskOf unit :=
  v ← access (operation_payload id);
  _ ← look (λ w, ExecutionBinding_validate e (now w) v);
  _ ← look (λ w, validate_host_files e (host w));
  look (current_policy e (b "policy changed")).

Definition claim_operation (id : bytes) (e : ExecutionBinding) (owner : bytes) (lease_seconds : Z) : TaskOf OperationClaim :=
  if is_empty owner || negb ((1 <=? lease_seconds) && (lease_seconds <=? 300)) then refuse (b "invalid lease")
  else
    _ ← operation_context id e;
    access (claim_tx id e owner lease_seconds).

Definition begin_execution (c : OperationClaim) (e : ExecutionBinding) : TaskOf unit :=
  _ ← operation_context (claim_operation_id c) e;
  access (begin_tx c e).

Definition settle_operation (c : OperationClaim) (s : OperationState) (receipt : option Value) (error : option bytes) : TaskOf unit :=
  if negb (match s with Succeeded | Failed | Uncertain => true | _ => false end)
     || (bool_decide (s = Succeeded) && match receipt with None | Some VNull => true | _ => false end)
  then refuse (b "terminal result requires an actual receipt")
  else access (settle_tx c s receipt error).

Definition recover_operations : TaskOf nat := access recover_tx.
Definition invalidate_live_on_restart : TaskOf unit := _ ← access restart_approvals; access restart_operations.

Definition resolve_uncertain (id : bytes) (fence : Z) (succeeded : bool) (receipt : Value) (actor reason : bytes) : TaskOf unit :=
  if is_empty actor || is_empty (trim_bytes reason) || match receipt with VNull => true | _ => false end
  then refuse (b "reconciliation needs actor, reason and evidence")
  else access (resolve_uncertain_tx id fence succeeded receipt actor reason).

(** ** Calls *)

Inductive Call :=
| Request (agent kind text : bytes) (v : Value) (ttl : Z) (sim : option Value)
| RequestBound (kind : RequestKind) (agent text : bytes) (v : Value) (e : ExecutionBinding) (sim : option Value)
| RequestBoundKeyed (key : bytes) (kind : RequestKind) (agent text : bytes) (v : Value) (e : ExecutionBinding)
| RecordFixtureDecision (key : bytes) (kind : RequestKind) (agent text : bytes) (v : Value) (e : ExecutionBinding) (f : FixtureDecision)
| Get (id : bytes)
| Poll (id : bytes)
| AwaitDecision (id : bytes)
| ListPending (agent : option bytes)
| ListByKind (kind : bytes)
| Decide (id : bytes) (approve : bool) (by_ : bytes)
| DecideEgressDashboard (id : bytes) (ctx : UserContext) (approve : bool)
| DecideBound (id : bytes) (context : DecisionContext) (approve : bool)
| DecideBoundDashboard (id : bytes) (ctx : UserContext) (approve : bool)
| AnswerQuestion (id : bytes) (context : DecisionContext) (ans : Value)
| DecideBatch (session turn : bytes) (l : list (ApprovalRecord * bool)) (by_ : bytes)
| Withdraw (id by_ : bytes)
| ReplaceText (id text : bytes) (v : Value)
| InvalidateRequest (id reason : bytes)
| ConsumeApproved (id reason : bytes)
| VerifyAndConsume (id : bytes) (g : ActionGrant)
| WithdrawTurn (session turn : bytes) (who : option bytes)
| SweepCancelledTurns
| RecordsForTurn (session turn : bytes)
| CheckTurnAdmission (who : bytes)
| PrepareOperation (id step : bytes) (provider : option bytes)
| PrepareGranted (g : GrantRef) (step : bytes) (v : Value) (e : ExecutionBinding) (provider : option bytes)
| ClaimOperation (id : bytes) (e : ExecutionBinding) (owner : bytes) (lease_seconds : Z)
| BeginExecution (c : OperationClaim) (e : ExecutionBinding)
| SettleOperation (c : OperationClaim) (s : OperationState) (receipt : option Value) (error : option bytes)
| RecoverOperations
| InvalidateLiveOnRestart
| ResolveUncertain (id : bytes) (fence : Z) (succeeded : bool) (receipt : Value) (actor reason : bytes).

Inductive Reply :=
| Nothing
| Id (id : bytes)
| Found (r : option ApprovalRecord)
| Status (s : ApprovalStatus)
| Changed (n : bool)
| Count (n : nat)
| Records (l : list ApprovalRecord)
| Withdrawal (n : nat) (approved_before : list bytes)
| Consumed (refusal : option GrantRefusal)
| Claim (c : OperationClaim).

Definition as_reply {A} (f : A → Reply) (m : TaskOf A) : TaskOf Reply := x ← m; done (f x).

Definition program (no_reminder : bytes → bool) (rounds : nat) (cc : Caller * Call) : TaskOf Reply :=
  let c := cc.1 in
  match cc.2 with
  | Request agent kind text v ttl sim => as_reply Id (request c agent kind text v ttl sim)
  | RequestBound kind agent text v e sim => as_reply Id (request_bound c kind agent text v e sim)
  | RequestBoundKeyed key kind agent text v e => as_reply Id (request_bound_keyed c key kind agent text v e)
  | RecordFixtureDecision key kind agent text v e f => as_reply Id (record_fixture_decision c key kind agent text v e f)
  | Get id => as_reply Found (get id)
  | Poll id => as_reply Status (poll no_reminder id)
  | AwaitDecision id => as_reply (λ s, default Nothing (Status <$> s)) (await_decision rounds no_reminder id)
  | ListPending agent => as_reply Records (list_pending agent)
  | ListByKind kind => as_reply Records (access (list_by_kind kind))
  | Decide id approve by_ => as_reply (λ _, Nothing) (decide_unbound c id approve by_ false)
  | DecideEgressDashboard id ctx approve => as_reply (λ _, Nothing) (decide_egress_dashboard c id ctx approve)
  | DecideBound id context approve => as_reply (λ _, Nothing) (decide_bound c id context approve)
  | DecideBoundDashboard id ctx approve => as_reply (λ _, Nothing) (decide_bound_dashboard c id ctx approve)
  | AnswerQuestion id context ans => as_reply (λ _, Nothing) (answer_question c id context ans)
  | DecideBatch session turn l by_ => as_reply (λ _, Nothing) (decide_ag_ui_batch c session turn l by_)
  | Withdraw id by_ => as_reply Changed (withdraw c id by_)
  | ReplaceText id text v => as_reply (λ _, Nothing) (replace_text id text v)
  | InvalidateRequest id reason => as_reply (λ _, Nothing) (invalidate_request id reason)
  | ConsumeApproved id reason => as_reply Changed (consume_approved id reason)
  | VerifyAndConsume id g => as_reply Consumed (verify_and_consume id g)
  | WithdrawTurn session turn who => as_reply (λ x, Withdrawal x.1 x.2) (withdraw_turn session turn who)
  | SweepCancelledTurns => as_reply (λ _, Nothing) sweep_cancelled_turns
  | RecordsForTurn session turn => as_reply Records (records_for_turn session turn)
  | CheckTurnAdmission who => as_reply (λ _, Nothing) (access (check_webchat_turn_admission who))
  | PrepareOperation id step provider => as_reply Id (prepare_operation id step provider)
  | PrepareGranted g step v e provider => as_reply Id (prepare_granted_operation g step v e provider)
  | ClaimOperation id e owner lease_seconds => as_reply Claim (claim_operation id e owner lease_seconds)
  | BeginExecution claim e => as_reply (λ _, Nothing) (begin_execution claim e)
  | SettleOperation claim s receipt error => as_reply (λ _, Nothing) (settle_operation claim s receipt error)
  | RecoverOperations => as_reply Count recover_operations
  | InvalidateLiveOnRestart => as_reply (λ _, Nothing) invalidate_live_on_restart
  | ResolveUncertain id fence succeeded receipt actor reason =>
      as_reply (λ _, Nothing) (resolve_uncertain id fence succeeded receipt actor reason)
  end.
End broker.
