(* ===== verification/ApprovalSafety.v ===== *)
(** * What the approval broker guarantees

    Every access of every method keeps the tables well formed and only moves
    requests and operations forward; what an answer of a method says of the
    store at the access that gave it.  From these: a request is decided once,
    by somebody entitled to, while its turn lives; an approval is used once;
    an operation starts once and only under authority in force. *)

From S2P Require Import Prelude.
From S2P Require Import Bytes.
From S2P Require Import Chars.
From S2P Require Import JsonValue.
From S2P Require Import Conditions.
From S2P Require Import AuditChain.
From S2P Require Import Interleave.
From S2P Require Import Approval.
From S2P Require Import ApprovalStore.
From S2P Require Import ApprovalTx.
From S2P Require Import ApprovalBroker.

(** What a call of the broker saw. *)
Abbreviation View := (Interleave.View (W := World) (D := Db)).

(** ** How rows and operations move *)

Definition status_evolves (s s' : ApprovalStatus) : Prop := s = s' ∨ s = Pending ∨ s' = Invalidated.

(** Only the text of a request without a binding is ever replaced. *)
Record row_evolves (r r' : Row) : Prop := {
  ev_status : status_evolves (status (record r)) (status (record r'));
  ev_id : approval_id (record r') = approval_id (record r);
  ev_agent : agent_id (record r') = agent_id (record r);
  ev_action : action_kind (record r') = action_kind (record r);
  ev_kind : request_kind (record r') = request_kind (record r);
  ev_binding : binding (record r') = binding (record r);
  ev_created : created_at (record r') = created_at (record r);
  ev_ttl : ttl_seconds (record r') = ttl_seconds (record r);
  ev_text : binding (record r) = None ∨ payload (record r') = payload (record r) ∨ status (record r') = Invalidated;
}.

Definition rank (s : OperationState) : nat :=
  match s with Prepared => 0 | Executing => 1 | Uncertain => 2 | Succeeded | Failed => 3 end.

Record op_evolves (o o' : Operation) : Prop := {
  ev_run : op_run o' = op_run o;
  ev_step : op_step o' = op_step o;
  ev_authority : op_authority o' = op_authority o;
  ev_op_binding : op_binding o' = op_binding o;
  ev_payload : op_payload o' = op_payload o;
  ev_rank : (rank (op_state o) ≤ rank (op_state o'))%nat;
  ev_fence : op_fence o ≤ op_fence o';
}.

Record evolves (d d' : Db) : Prop := {
  ev_rows id r : approvals d !! id = Some r → ∃ r', approvals d' !! id = Some r' ∧ row_evolves r r';
  ev_ops id o : operations d !! id = Some o → ∃ o', operations d' !! id = Some o' ∧ op_evolves o o';
}.

Lemma invalidated_stays r r' : row_evolves r r' → status (record r) = Invalidated → status (record r') = Invalidated.
Proof. intros [[?|[?|?]] _ _ _ _ _ _ _ _] ?; congruence. Qed.

#[global] Instance row_evolves_preorder : PreOrder row_evolves.
Proof.
  split; [by split; auto; left|]. intros x y z Hxy Hyz. pose proof (invalidated_stays _ _ Hyz) as Hst.
  destruct Hxy as [Hs ? ? ? ? ? ? ? Ht], Hyz as [Hs' ? ? ? ? ? ? ? Ht']. split; try congruence.
  - unfold status_evolves in *. destruct Hs as [-> |[-> |?]]; [done|by right; left|right; right; auto].
  - destruct Ht as [?|[?|?]]; [by left| |right; right; auto]. destruct Ht' as [?|[?|?]]; [left; congruence|right; left; congruence|by right; right].
Qed.

#[global] Instance op_evolves_preorder : PreOrder op_evolves.
Proof. split; [intros x; split; auto with lia|]. intros x y z [] []. split; try congruence; lia. Qed.

#[global] Instance evolves_preorder : PreOrder evolves.
Proof.
  split; [intros x; split; intros i v Hi; by exists v|]. intros x y z [Hr Ho] [Hr' Ho']. split.
  - intros i r (r' & (r'' & ? & ?)%Hr' & ?)%Hr. exists r''. split; [done|]. by trans r'.
  - intros i o (o' & (o'' & ? & ?)%Ho' & ?)%Ho. exists o''. split; [done|]. by trans o'.
Qed.

Section safety.
Context `{SerdeValue} `{Sha256} `{ApprovalCrates} `{RowOrder}.

(** The binding of a row that is not withdrawn is about its payload, and the
    decisions a fixture scripted are bound to workflow runs. *)
Definition bound_to (r : ApprovalRecord) : Prop :=
  ∀ e, binding r = Some e →
    (status r ≠ Invalidated → bound_payload_hash e = payload_hash (payload r))
    ∧ (action_kind r = FIXTURE_DECISION_KIND → is_workflow e = true).

(** Rows stand under their ids, about the payload they were bound to; no two
    operations are of one step, and each is about its own payload. *)
Record db_inv (d : Db) : Prop := {
  inv_keyed id r : approvals d !! id = Some r → approval_id (record r) = id ∧ bound_to (record r);
  inv_operation id o :
    operations d !! id = Some o → op_run o = run_id (op_binding o) ∧ bound_payload_hash (op_binding o) = payload_hash (op_payload o);
  inv_steps i j o o' :
    operations d !! i = Some o → operations d !! j = Some o' → op_run o = op_run o' → op_step o = op_step o' → i = j;
}.

(** A request somebody approved; the script of a fixture run is nobody. *)
Definition approved (id : bytes) (d : Db) : Prop :=
  ∃ r, approvals d !! id = Some r ∧ status (record r) = Approved ∧ action_kind (record r) ≠ FIXTURE_DECISION_KIND.

Lemma bound_evolves r r' : row_evolves r r' → bound_to (record r) → bound_to (record r').
Proof.
  intros Hev Hb e He. rewrite (ev_binding _ _ Hev) in He. destruct (Hb e He) as [Hh Hf]. rewrite (ev_action _ _ Hev). split; [|done].
  intros Hs. destruct (ev_text _ _ Hev) as [?|[->|?]]; [congruence| |done].
  apply Hh. intros Hi. by apply Hs, (invalidated_stays _ _ Hev).
Qed.

(** ** Changes of the tables *)

(** [newly] are the requests a change may approve. *)
Definition moves (newly : bytes → Prop) (d d' : Db) : Prop :=
  db_inv d' ∧ evolves d d' ∧ ∀ id, approved id d' → approved id d ∨ newly id.

Lemma rows_change d m (newly : bytes → Prop) :
  db_inv d →
  (∀ id r', m !! id = Some r' →
     match approvals d !! id with
     | Some r => row_evolves r r' ∧ (status (record r') = Approved → status (record r) = Approved ∨ newly id)
     | None => approval_id (record r') = id ∧ bound_to (record r')
               ∧ (status (record r') = Approved → newly id ∨ action_kind (record r') = FIXTURE_DECISION_KIND)
     end) →
  (∀ id, is_Some (approvals d !! id) → is_Some (m !! id)) → moves newly d (with_approvals m d).
Proof.
  intros [Hk Hp Hs] Hm Hall. split; [|split].
  - split; [|done|done]. intros id r' Hr'. specialize (Hm id r' Hr'). destruct (approvals d !! id) as [r|] eqn:Er.
    + destruct Hm as [Hev _]. destruct (Hk _ _ Er) as [Hid ?]. split; [by rewrite (ev_id _ _ Hev)|by eapply bound_evolves].
    + by destruct Hm as (? & ? & _).
  - split; [|by intros ? o Ho; exists o]. cbn. intros id r Hr. destruct (Hall id) as [r' Hr']; [by exists r|].
    exists r'. split; [done|]. specialize (Hm id r' Hr'). rewrite Hr in Hm. by destruct Hm.
  - intros id (r' & Hr' & Hs' & Hf). cbn in Hr'. specialize (Hm id r' Hr').
    destruct (approvals d !! id) as [r|] eqn:Er.
    + destruct Hm as [Hev Ha]. destruct (Ha Hs') as [?|?]; [left|by right]. exists r. split; [done|]. split; [done|].
      by rewrite <- (ev_action _ _ Hev).
    + destruct Hm as (_ & _ & Ha). destruct (Ha Hs'); [by right|done].
Qed.

Lemma insert_keeps {V} (m : gmap bytes V) k v i : is_Some (m !! i) → is_Some (<[k := v]> m !! i).
Proof. intros ?. apply lookup_insert_is_Some. by destruct (decide (k = i)); [left|right]. Qed.

Lemma row_change d id r r' (newly : bytes → Prop) :
  db_inv d → approvals d !! id = Some r → row_evolves r r' →
  (status (record r') = Approved → status (record r) = Approved ∨ newly id) → moves newly d (with_row id r' d).
Proof.
  intros Hd Hr Hev Ha. apply rows_change; [done| |by intros; apply insert_keeps].
  intros i x [[<- <-]|[Hne Hx]]%lookup_insert_Some; [by rewrite Hr|]. rewrite Hx. split; [done|]. by left.
Qed.

Definition quiet : Db → Db → Prop := Interleave.quiet db_inv evolves approved.
Definition reads {A} : View → TaskOf A → (View → result A bytes → Prop) → Prop := Interleave.reads db_inv evolves approved.

Lemma quiet_self d : db_inv d → quiet d d.
Proof. by split. Qed.
Lemma moves_quiet d d' : moves (λ _, False) d d' → quiet d d'.
Proof. intros (? & ? & Hq). split; [done|]. split; [done|]. by intros key [?|[]]%Hq. Qed.
Lemma quiet_moves newly d d' : quiet d d' → moves newly d d'.
Proof. intros (? & ? & Hq). split; [done|]. split; [done|]. auto. Qed.

Lemma quiet_row d id r r' :
  db_inv d → approvals d !! id = Some r → row_evolves r r' → (status (record r') = Approved → status (record r) = Approved) →
  quiet d (with_row id r' d).
Proof. intros. eapply moves_quiet, row_change; eauto. Qed.

Lemma quiet_new d r o o' :
  db_inv d → approvals d !! approval_id r = None → bound_to r → (status r = Approved → action_kind r = FIXTURE_DECISION_KIND) →
  quiet d (with_row (approval_id r) {| record := r; origin_session := o; origin_turn := o' |} d).
Proof.
  intros Hd Hn Hb Hs. eapply moves_quiet, rows_change; [done| |by intros; apply insert_keeps].
  intros i x [[<- <-]|[Hne Hx]]%lookup_insert_Some; [rewrite Hn; cbn; auto|]. rewrite Hx. split; [done|]. by left.
Qed.

(** Only the requests and the operations matter. *)
Lemma quiet_same d d' : db_inv d → approvals d' = approvals d → operations d' = operations d → quiet d d'.
Proof.
  intros [Hk Hp Hs] Ha Ho. split; [split; rewrite ?Ha, ?Ho; done|]. split.
  - split; rewrite ?Ha, ?Ho; intros i v Hi; by exists v.
  - intros id (r & Hr & ?). rewrite Ha in Hr. by exists r.
Qed.

Lemma quiet_trans d d' d'' : quiet d d' → quiet d' d'' → quiet d d''.
Proof. intros (? & ? & Hq) (? & ? & Hq'). split; [done|]. split; [by trans d'|]. auto. Qed.

Lemma quiet_origin d id o : db_inv d → quiet d (add_origin id o d).
Proof. intros. by destruct o as [[]|]; apply quiet_same. Qed.

Lemma ops_change d m :
  db_inv d →
  (∀ id o', m !! id = Some o' → ∃ o, operations d !! id = Some o ∧ op_evolves o o') →
  (∀ id, is_Some (operations d !! id) → is_Some (m !! id)) → quiet d (with_operations m d).
Proof.
  intros [Hk Hp Hs] Hm Hall. split; [|split].
  - split; [exact Hk|..]; cbn.
    + intros i o' (o & Ho & Hev)%Hm. rewrite (ev_run _ _ Hev), (ev_op_binding _ _ Hev), (ev_payload _ _ Hev). eauto.
    + intros i j o o' (oi & Hi & Hei)%Hm (oj & Hj & Hej)%Hm Hr Hst. eapply Hs; [exact Hi|exact Hj|..].
      * by rewrite <- (ev_run _ _ Hei), <- (ev_run _ _ Hej).
      * by rewrite <- (ev_step _ _ Hei), <- (ev_step _ _ Hej).
  - split; [by intros id r Hr; exists r|]. cbn. intros id o Ho. destruct (Hall id) as [o' Ho']; [by exists o|].
    exists o'. split; [done|]. destruct (Hm id o' Ho') as (x & Hx & ?). congruence.
  - by intros id (r & Hr & ?); exists r.
Qed.

Lemma quiet_op d id o o' : db_inv d → operations d !! id = Some o → op_evolves o o' → quiet d (with_operation id o' d).
Proof.
  intros Hd Ho Hev. apply ops_change; [done| |by intros; apply insert_keeps].
  intros i x [[<- <-]|[Hne Hx]]%lookup_insert_Some; [by exists o|by exists x].
Qed.

(** ** Statements *)

Lemma ev_decided s by_ at_ ans r : status (record r) = Pending → row_evolves r (on_record (decided s by_ at_ ans) r).
Proof. intros Hp. split; try done; [by right; left|by right; left]. Qed.
Lemma ev_invalidated reason r : row_evolves r (on_record (invalidated reason) r).
Proof. split; try done; by right; right. Qed.
Lemma ev_notified chan chat r : row_evolves r (on_record (notified chan chat) r).
Proof. by split; try done; (left + (right; left)). Qed.
Lemma ev_reminded at_ r : row_evolves r (on_record (reminded at_) r).
Proof. by split; try done; (left + (right; left)). Qed.
Lemma ev_rewritten text v r : row_evolves r (on_record (rewritten text v) r).
Proof.
  split; try done; cbn; destruct (binding (record r)) eqn:E; by (left + (right; right)).
Qed.

Lemma update_row_none id when f w d : (update_row id when f w d).2 = false → (update_row id when f w d).1 = d.
Proof. unfold update_row. destruct (approvals d !! id) as [r|]; [by destruct (when d r)|done]. Qed.

Lemma update_row_some id when f w d :
  (update_row id when f w d).2 = true →
  ∃ r, approvals d !! id = Some r ∧ when d r = true ∧ (update_row id when f w d).1 = with_row id (on_record (f w) r) d.
Proof. unfold update_row. destruct (approvals d !! id) as [r|]; [|done]. destruct (when d r) eqn:E; [|done]. by exists r. Qed.

Lemma update_row_quiet id when f w d :
  db_inv d →
  (∀ r, when d r = true → row_evolves r (on_record (f w) r) ∧ (status (f w (record r)) = Approved → status (record r) = Approved)) →
  quiet d (update_row id when f w d).1.
Proof.
  intros Hd Hf. destruct (update_row id when f w d).2 eqn:E.
  - apply update_row_some in E as (r & Hr & Hw & ->). destruct (Hf r Hw). by eapply quiet_row.
  - rewrite (update_row_none _ _ _ _ _ E). by apply quiet_self.
Qed.

End safety.

(** The row a statement updates, whose update keeps the guarantees. *)
Ltac row_update :=
  match goal with
  | Hd : db_inv ?d |- context [update_row ?i ?c ?f ?w ?d] =>
      let Hq := fresh in pose proof (update_row_quiet i c f w d Hd) as Hq; destruct (update_row i c f w d);
      repeat case_match; first [by apply quiet_self|apply Hq; clear Hq]
  end.

Section statements.
Context `{SerdeValue} `{Sha256} `{ApprovalCrates} `{RowOrder}.

(** A statement that brings no approval about. *)
Definition safe {A} (f : World → Db → Db * result A bytes) : Prop := ∀ w d, db_inv d → quiet d (f w d).1.

Lemma safe_statement {A} (f : World → Db → Db * result A bytes) : safe f → safe (statement f).
Proof. intros Hf w d Hd. unfold statement. destruct (fault w); [by apply quiet_self|by apply Hf]. Qed.

Lemma safe_look {A} (f : World → Db → result A bytes) : safe (λ w d, (d, f w d)).
Proof. intros w d Hd. by apply quiet_self. Qed.
Lemma safe_list keep : safe (list_where keep).
Proof. apply safe_statement, safe_look. Qed.
Lemma safe_get id : safe (get_record id).
Proof. apply safe_statement, safe_look. Qed.

Lemma safe_insert r origin if_absent :
  bound_to r → (status r = Approved → action_kind r = FIXTURE_DECISION_KIND) → safe (insert_row r origin if_absent).
Proof.
  intros Hb Hs. apply safe_statement. intros w d Hd. destruct (approvals d !! approval_id r) as [old|] eqn:E.
  - destruct if_absent, origin as [[s t]|]; repeat case_match; try by apply quiet_self.
    + by apply quiet_origin.
    + eapply quiet_row; [done|done| |done]. by split; try done; (left + (right; left)).
  - assert (∀ o o', quiet d (with_row (approval_id r) {| record := masked r; origin_session := o; origin_turn := o' |} d)) as Hq
      by (intros; by apply (quiet_new d (masked r))).
    unfold insert_new. destruct origin as [[s t]|]; [|apply Hq]. destruct (is_cancelled d s t); [by apply quiet_self|].
    eapply quiet_trans; [apply Hq|]. apply quiet_origin. apply Hq.
Qed.

Lemma safe_notify id chan chat : safe (set_notify_target id chan chat).
Proof. apply safe_statement. intros w d Hd. apply update_row_quiet; [done|]. intros r _. split; [apply ev_notified|done]. Qed.

Lemma safe_remind id at_ : safe (claim_reminder id at_).
Proof.
  apply safe_statement. intros w d Hd. cbn.
  row_update. intros r _. split; [apply ev_reminded|done].
Qed.

Lemma safe_rewrite id text v : safe (replace_row_text id text v).
Proof.
  apply safe_statement. intros w d Hd. apply update_row_quiet; [done|]. intros r _. split; [apply ev_rewritten|].
  cbn. by destruct (binding (record r)).
Qed.

Lemma safe_invalidate id reason : safe (invalidate_row id reason).
Proof.
  apply safe_statement. intros w d Hd. destruct (record_in d id); [|by apply quiet_self].
  row_update. intros r _. split; [apply ev_invalidated|done].
Qed.

(** ** Operations *)

Lemma ev_set_operation s fence lease receipt error resolution o :
  (rank (op_state o) ≤ rank s)%nat → op_fence o ≤ fence → op_evolves o (set_operation s fence lease receipt error resolution o).
Proof. by split. Qed.

Lemma update_operation_none id when f d : (update_operation id when f d).2 = false → (update_operation id when f d).1 = d.
Proof. unfold update_operation. destruct (operations d !! id) as [o|]; [by destruct (when o)|done]. Qed.

Lemma update_operation_some id when f d :
  (update_operation id when f d).2 = true →
  ∃ o, operations d !! id = Some o ∧ when o = true ∧ (update_operation id when f d).1 = with_operation id (f o) d.
Proof. unfold update_operation. destruct (operations d !! id) as [o|]; [|done]. destruct (when o) eqn:E; [|done]. by exists o. Qed.

Lemma update_operation_quiet id when f d : db_inv d → (∀ o, when o = true → op_evolves o (f o)) → quiet d (update_operation id when f d).1.
Proof.
  intros Hd Hf. destruct (update_operation id when f d).2 eqn:E.
  - apply update_operation_some in E as (o & Ho & Hw & ->). eapply quiet_op; eauto.
  - rewrite (update_operation_none _ _ _ _ E). by apply quiet_self.
Qed.

Lemma update_operations_quiet when error d :
  db_inv d → (∀ o, when o = true → op_state o = Executing) → quiet d (update_operations when error d).
Proof.
  intros Hd Hw. apply ops_change; [done|..].
  - intros id o' Ho'. rewrite lookup_fmap in Ho'. destruct (operations d !! id) as [o|]; [|done]. injection Ho' as <-.
    exists o. split; [done|]. destruct (when o) eqn:E; [|done]. apply ev_set_operation; [|lia]. rewrite (Hw o E). cbn. lia.
  - intros id [o Ho]. rewrite lookup_fmap, Ho. by eexists.
Qed.

Lemma step_operation d run step id o : operation_for_step d run step = Some (id, o) → operations d !! id = Some o ∧ op_run o = run ∧ op_step o = step.
Proof.
  unfold operation_for_step. intros Hx.
  assert ((id, o) ∈ filter (λ e : bytes * Operation, op_run e.2 = run ∧ op_step e.2 = step) (map_to_list (operations d))) as Hi
    by (destruct (filter _ _); [done|injection Hx as ->; left]).
  apply list_elem_of_filter in Hi as [[Hr Hs] Hi]. by apply elem_of_map_to_list in Hi.
Qed.

Lemma no_step_operation d run step id o :
  operation_for_step d run step = None → operations d !! id = Some o → op_run o = run → op_step o = step → False.
Proof.
  unfold operation_for_step. intros Hx Ho Hr Hs.
  assert ((id, o) ∈ filter (λ e : bytes * Operation, op_run e.2 = run ∧ op_step e.2 = step) (map_to_list (operations d))) as Hi
    by (apply list_elem_of_filter; split; [done|by apply elem_of_map_to_list]).
  destruct (filter _ _); [by apply elem_of_nil in Hi|done].
Qed.

Lemma quiet_prepare w d step e authority provider v run check_run clash :
  db_inv d → bound_payload_hash e = payload_hash v → quiet d (prepare_row w d step e authority provider v run check_run clash).1.
Proof.
  intros Hd Hv. unfold prepare_row. destruct (operation_for_step d (run_id e) step) as [[id o]|] eqn:E.
  - repeat case_match; by apply quiet_self.
  - destruct (operations d !! fresh_id w) as [o|] eqn:Ef; [by apply quiet_self|]. destruct Hd as [Hk Hp Hs]. split; [|split].
    + split; [exact Hk|..]; cbn.
      * intros i o [[<- <-]|[_ ?]]%lookup_insert_Some; [done|eauto].
      * intros i j o o' [[<- <-]|[_ Hi]]%lookup_insert_Some [[<- <-]|[_ Hj]]%lookup_insert_Some Hr Hst; cbn in *; [done| | |eauto].
        -- edestruct no_step_operation; [exact E|exact Hj|by symmetry..].
        -- edestruct no_step_operation; [exact E|exact Hi|done..].
    + split; [by intros id r Hr; exists r|]. cbn. intros id o Ho. exists o. split; [|done].
      rewrite lookup_insert_ne; [done|]. intros <-. congruence.
    + by intros id (r & Hr & ?); exists r.
Qed.

Lemma safe_prepare step e approval provider v : bound_payload_hash e = payload_hash v → safe (prepare_tx step e approval provider v).
Proof.
  intros Hv. apply safe_statement. intros w d Hd. destruct (workflow_run_authority w e); [by apply quiet_prepare|by apply quiet_self].
Qed.

Lemma safe_prepare_granted g step e provider v : bound_payload_hash e = payload_hash v → safe (prepare_granted_tx g step e provider v).
Proof.
  intros Hv. apply safe_statement. intros w d Hd. repeat case_match; (by apply quiet_prepare) || by apply quiet_self.
Qed.

Lemma safe_recover : safe recover_tx.
Proof.
  apply safe_statement. intros w d Hd. apply update_operations_quiet; [done|]. intros o Ho.
  apply andb_true_iff in Ho as [[?%bool_decide_eq_true _]%andb_true_iff _]. done.
Qed.

Lemma safe_restart_operations : safe restart_operations.
Proof.
  apply safe_statement. intros w d Hd. apply update_operations_quiet; [done|]. by intros o [?%bool_decide_eq_true _]%andb_true_iff.
Qed.

(** Rows in place, each as the change leaves it. *)
Lemma rows_map d (f : bytes → Row → Row) m :
  db_inv d → (∀ id, m !! id = f id <$> approvals d !! id) →
  (∀ id r, row_evolves r (f id r) ∧ (status (record (f id r)) = Approved → status (record r) = Approved)) → quiet d (with_approvals m d).
Proof.
  intros Hd Hm Hf. apply moves_quiet, rows_change; [done|..].
  - intros id r' Hr'. rewrite Hm in Hr'. destruct (approvals d !! id) as [r|]; [|done]. injection Hr' as <-.
    destruct (Hf id r). split; [done|]. auto.
  - intros id [r Hr]. rewrite Hm, Hr. by eexists.
Qed.

Lemma safe_restart_approvals : safe restart_approvals.
Proof.
  apply safe_statement. intros w d Hd.
  apply (rows_map d (λ _ r, if match status (record r) with Pending | Approved => true | _ => false end
    && match binding (record r) with Some e => live_only e | None => false end
    then on_record (invalidated (b "restart_requires_reobserve")) r else r)); [done|by intros; rewrite lookup_fmap|].
  intros id r. case_match; [|done]. split; [apply ev_invalidated|done].
Qed.

Lemma safe_withdraw_turn session turn who : safe (withdraw_turn_tx session turn who).
Proof.
  apply safe_statement. intros w d Hd. cbn zeta.
  set (d' := match cancelled d !! (session, turn) with Some _ => d | None => _ end).
  assert (quiet d d') as Hq by (unfold d'; destruct (cancelled d !! (session, turn)); [by apply quiet_self|by apply quiet_same]).
  eapply quiet_trans; [exact Hq|]. eapply rows_map; [apply Hq|intros; rewrite map_lookup_imap; by destruct (_ !! _)|].
  intros id r. cbn. destruct (withdrawable d' session turn id r) eqn:E; [|done]. split; [|done]. apply ev_decided.
  unfold withdrawable in E. by repeat (apply andb_true_iff in E as [E _]); apply bool_decide_eq_true in E.
Qed.

Lemma safe_sweep : safe sweep_expired ∧ safe count_tombstones ∧ ∀ n, safe (sweep_over n).
Proof. split; [|split; [|intros n]]; apply safe_statement; intros w d Hd; by apply quiet_same. Qed.
Lemma safe_turn_rows session turn : safe (turn_rows session turn).
Proof. apply safe_statement, safe_look. Qed.

Lemma safe_admission who : safe (check_webchat_turn_admission who).
Proof. apply safe_statement. intros w d Hd. cbn. case_match; by apply quiet_self. Qed.
End statements.
#[export] Hint Resolve safe_statement safe_look : approvals.
