(* ===== verification/ApprovalPromise.v ===== *)
(** * What the answers of the approval broker say

    [promise] is what an answer of each method says of the store at its last
    access, and of what its earlier accesses saw; [cause] are the answers that
    approve a request.  [keeps_program]: every method keeps its promise,
    whatever runs between its accesses. *)

From S2P Require Import Prelude.
From S2P Require Import Bytes.
From S2P Require Import Chars.
From S2P Require Import JsonValue.
From S2P Require Import Conditions.
From S2P Require Import AuditChain.
From S2P Require Import Interleave.
From S2P Require Import Approval.
From S2P Require Import ApprovalStore.
From S2P Require Import ApprovalTx.
From S2P Require Import ApprovalBroker.
From S2P Require Import ApprovalSafety.

Definition verdict (approve : bool) : ApprovalStatus := if approve then Approved else Denied.

(** An answer in the log of the broker. *)
Abbreviation Entry := (Interleave.Entry (W := World) (D := Db) (C := Caller * Call) (R := Reply)).

Section promises.
Context `{SerdeValue} `{Sha256} `{ApprovalCrates} `{RowOrder}.

(** A pending request, in time and its turn live, is decided. *)
Definition decides (id : bytes) (s : ApprovalStatus) (by_ : bytes) (P : Row → option Value → Prop) (w : World) (d d' : Db) : Prop :=
  ∃ r at_ ans,
    approvals d !! id = Some r ∧ status (record r) = Pending ∧ is_stale (record r) (now w) = false ∧ live_origin d id r = true
    ∧ sql_within at_ (created_at (record r)) (ttl_seconds (record r)) = true ∧ P r ans
    ∧ approvals d' !! id = Some (on_record (decided s by_ at_ ans) r).

(** A request of the batch: decided now, or as it was decided before. *)
Definition batch_decides (session turn by_ : bytes) (w : World) (d d' : Db) (x : ApprovalRecord * bool) : Prop :=
  ∃ r r', approvals d !! approval_id x.1 = Some r ∧ approvals d' !! approval_id x.1 = Some r'
    ∧ turn_live d (approval_id x.1) session turn r = true ∧ status (record r') = verdict x.2
    ∧ (status (record r) = Pending ∧ ag_ui_decidable w (record r) = true ∧ decided_by (record r') = Some by_
       ∨ r' = r ∧ legally_decided (record r) (verdict x.2) = true).

(** An approved request is used up. *)
Definition consumes (id reason : bytes) (P : Row → Prop) (d d' : Db) : Prop :=
  ∃ r, approvals d !! id = Some r ∧ status (record r) = Approved ∧ P r ∧ approvals d' !! id = Some (on_record (invalidated reason) r).

Definition claims (id : bytes) (e : ExecutionBinding) (owner : bytes) (lease_seconds : Z) (c : OperationClaim) (w : World) (d d' : Db) : Prop :=
  ∃ o, operations d !! id = Some o ∧ op_state o = Prepared ∧ op_binding o = e ∧ lease_free o (seconds_now w) = true
    ∧ check_task w e = Ok tt ∧ check_operation_authority w d o e = Ok tt
    ∧ claim_operation_id c = id ∧ claim_owner c = owner ∧ claim_fence c = op_fence o + 1
    ∧ operations d' !! id = Some (set_operation Prepared (claim_fence c)
        (Some {| lease_owner := owner; lease_token := claim_token c; lease_until := seconds_now w + lease_seconds |})
        (op_receipt o) (op_error o) (op_resolution o) o).

Definition begins (c : OperationClaim) (e : ExecutionBinding) (w : World) (d d' : Db) : Prop :=
  ∃ o, operations d !! claim_operation_id c = Some o ∧ op_state o = Prepared ∧ op_binding o = e ∧ holds_lease c (seconds_now w) o = true
    ∧ check_task w e = Ok tt ∧ check_operation_authority w d o e = Ok tt
    ∧ operations d' !! claim_operation_id c =
        Some (set_operation Executing (op_fence o) (op_lease o) (op_receipt o) (op_error o) (op_resolution o) o).

Definition settles (c : OperationClaim) (s : OperationState) (w : World) (d d' : Db) : Prop :=
  ∃ o o', operations d !! claim_operation_id c = Some o ∧ op_state o = Executing ∧ holds_lease c (seconds_now w) o = true
    ∧ operations d' !! claim_operation_id c = Some o' ∧ op_state o' = s.

(** At an earlier access the call found this of the world, ... *)
Definition witnessed (h : list (World * Db)) (P : World → Prop) : Prop := ∃ w0 d0, (w0, d0) ∈ h ∧ P w0.
(** ... this of the request. *)
Definition found (h : list (World * Db)) (id : bytes) (P : ApprovalRecord → Prop) : Prop :=
  ∃ w0 d0 row, (w0, d0) ∈ h ∧ approvals d0 !! id = Some row ∧ P (record row).

(** Outgoing data is decided in a channel only when the host let the request's
    mail go to its requester. *)
Definition mail_allowed (h : list (World * Db)) (r : ApprovalRecord) : Prop :=
  egress_guarded (payload r) = true →
  ∃ r0, binding r0 = binding r ∧ payload r0 = payload r ∧ witnessed h (λ w0, mail_eligible w0 r0 = true).

(** The agent's policy was that of the binding. *)
Definition policy_current (h : list (World * Db)) (e : ExecutionBinding) : Prop :=
  witnessed h (λ w0, policy w0 (actor_principal e) = Ok (policy_revision e)).

(** The role a dashboard needs for a bound request. *)
Definition dashboard_role (r : ApprovalRecord) : UserRole := if is_activation r || egress_guarded (payload r) then Admin else Manager.

Definition answers (h : list (World * Db)) (context : DecisionContext) (ans : Value) (r : Row) (given : option Value) : Prop :=
  given = Some ans ∧ request_kind (record r) = KindQuestion
  ∧ (∃ e, binding (record r) = Some e ∧ decision_context e = context ∧ policy_current h e)
  ∧ mail_allowed h (record r)
  ∧ ∀ options, JsonValue.get (payload (record r)) (b "options") ≫= as_array = Some options → existsb (value_eqb ans) options = true.

Definition unbound (r : Row) (_ : option Value) : Prop := binding (record r) = None ∧ request_kind (record r) = KindApproval.

Definition bound_by (P : ApprovalRecord → ExecutionBinding → Prop) (r : Row) (_ : option Value) : Prop :=
  request_kind (record r) = KindApproval ∧ ∃ e, binding (record r) = Some e ∧ P (record r) e.

(** The turn is cancelled, and its requests that still wait have another. *)
Definition turn_over (session turn : bytes) (d : Db) : Prop :=
  is_cancelled d session turn = true
  ∧ ∀ id r, approvals d !! id = Some r → status (record r) = Pending → is_Some (origin_session r) → (id, session, turn) ∈ origins d →
      live_origins d id ≠ [].

(** What an answer says; [h] is what the earlier accesses of the call found. *)
Definition promised_reply (cc : Caller * Call) (r : Reply) (h : list (World * Db)) (w : World) (d d' : Db) : Prop :=
  match cc.2, r with
  | Decide id approve by_, _ =>
      decides id (verdict approve) by_ unbound w d d' ∧ found h id (λ r, egress_guarded (payload r) = false)
  | DecideEgressDashboard id ctx approve, _ =>
      decides id (verdict approve) (dashboard_name ctx) unbound w d d'
      ∧ witnessed h (λ w0, require_current_dashboard_role ctx Admin w0 = Ok tt)
  | DecideBound id context approve, _ =>
      ∃ by_, decides id (verdict approve) by_
        (bound_by (λ r e, decision_context e = context ∧ is_activation r = false ∧ mail_allowed h r ∧ policy_current h e)) w d d'
  | DecideBoundDashboard id ctx approve, _ =>
      decides id (verdict approve) (dashboard_name ctx)
        (bound_by (λ r e, witnessed h (λ w0, require_current_dashboard_role ctx (dashboard_role r) w0 = Ok tt) ∧ policy_current h e)) w d d'
  | AnswerQuestion id context ans, _ => ∃ by_, decides id Answered by_ (answers h context ans) w d d'
  | DecideBatch session turn l by_, _ => Forall (batch_decides session turn by_ w d d') l ∧ turn_pending d' session turn = false
  | WithdrawTurn session turn _, _ => turn_over session turn d'
  | Withdraw id by_, Changed true => decides id Denied by_ (λ _ _, True) w d d'
  | ConsumeApproved id reason, Changed true => consumes id (mask reason) (λ _, True) d d'
  | VerifyAndConsume id g, Consumed None =>
      consumes id (CONSUMED_PREFIX ++ fresh_id w)
        (λ r, agent_id (record r) = grant_agent g ∧ live_origin d id r = true
              ∧ sql_within (now_text w) (created_at (record r)) (ttl_seconds (record r)) = true) d d'
  | ClaimOperation id e owner lease_seconds, Claim c => claims id e owner lease_seconds c w d d'
  | BeginExecution c e, _ => begins c e w d d'
  | SettleOperation c s _ _, _ => settles c s w d d'
  | _, _ => True
  end.

Definition promise (cc : Caller * Call) (x : result Reply bytes) (h : list (World * Db)) (w : World) (d d' : Db) : Prop :=
  match x with
  | Ok r => promised_reply cc r h w d d'
  | Err _ => match cc.2 with DecideBatch _ _ _ _ => d' = d | _ => True end
  end.

(** A call whose errors promise nothing. *)
Class Lenient (cc : Caller * Call) : Prop := lenient e h w d d' : promise cc (Err e) h w d d'.

(** The calls that approve a request. *)
Definition approves (cc : Caller * Call) (id : bytes) : Prop :=
  match cc.2 with
  | Decide i true _ | DecideEgressDashboard i _ true | DecideBound i _ true | DecideBoundDashboard i _ true => i = id
  | DecideBatch _ _ l _ => ∃ r, (r, true) ∈ l ∧ approval_id r = id
  | _ => False
  end.

(** The answer of a call that approved it. *)
Definition cause (id : bytes) (e : Entry) : Prop :=
  approves (call e) id ∧ (∃ r, reply e = Ok r) ∧ ¬ approved id (before e) ∧ approved id (after e).

Lemma approved_dec id d : {approved id d} + {¬ approved id d}.
Proof.
  unfold approved. destruct (approvals d !! id) as [r|]; [|right; by intros (? & ? & _)].
  destruct (decide (status (record r) = Approved ∧ action_kind (record r) ≠ FIXTURE_DECISION_KIND)) as [?|Hn]; [left; by exists r|].
  right. by intros (r' & [= <-] & ?).
Qed.

(** ** The deciding transactions *)

Lemma statement_ok {A} (f : World → Db → Db * result A bytes) w d d' x : statement f w d = (d', Ok x) → f w d = (d', Ok x).
Proof. unfold statement. by destruct (fault w). Qed.

Lemma record_in_row d id r : record_in d id = Ok (Some r) → ∃ row, approvals d !! id = Some row ∧ record row = r.
Proof.
  unfold record_in, read_row. destruct (approvals d !! id) as [row|]; [|done].
  destruct (starts_with _ _ && _); [done|]. intros [= <-]. by exists row.
Qed.

Lemma safe_decide expected id s by_ at_ : s ≠ Approved → safe (decide_if_pending expected id s by_ at_).
Proof.
  intros Hs. apply safe_statement. intros w d Hd. destruct (record_in d id) as [rec|e]; [|by apply quiet_self].
  match goal with |- context [let checked := ?c in _] => destruct c as [[|]|]; [|by apply quiet_self..] end. row_update.
  intros r Hw. split; [|cbn; congruence]. apply ev_decided. apply andb_true_iff in Hw as [[?%bool_decide_eq_true _]%andb_true_iff _]. done.
Qed.

(** What the deciding update does, [P] being what its guard says of the row. *)
Lemma update_decides id when f s by_ at_ ans (P : Row → Prop) w d :
  db_inv d → (∀ r, f w r = decided s by_ at_ (ans r) r) →
  (∀ r, approvals d !! id = Some r → when d r = true → status (record r) = Pending ∧ P r) →
  let '(d', n) := update_row id when f w d in
  moves (λ k, n = true ∧ s = Approved ∧ k = id) d d'
  ∧ (n = true → ∃ r, approvals d !! id = Some r ∧ status (record r) = Pending ∧ P r
       ∧ approvals d' !! id = Some (on_record (decided s by_ at_ (ans (record r))) r)).
Proof.
  intros Hd Hf Hw. unfold update_row. destruct (approvals d !! id) as [r|] eqn:Er; [|split; [by apply quiet_moves, quiet_self|done]].
  destruct (when d r) eqn:E; [|split; [by apply quiet_moves, quiet_self|done]]. destruct (Hw r eq_refl E) as [Hp HP].
  assert (on_record (f w) r = on_record (decided s by_ at_ (ans (record r))) r) as -> by (unfold on_record; by rewrite Hf).
  split.
  - eapply row_change; [done|exact Er|by apply ev_decided|]. cbn. auto.
  - intros _. exists r. do 3 (split; [done|]). cbn. by rewrite lookup_insert_eq.
Qed.

Lemma decide_moves expected id approve by_ at_ w d :
  db_inv d →
  let '(d', r) := decide_if_pending expected id (verdict approve) by_ at_ w d in
  moves (λ k, r = Ok true ∧ approve = true ∧ k = id) d d' ∧ (r = Ok true → decides id (verdict approve) by_ (λ _ _, True) w d d').
Proof.
  intros Hd. unfold decide_if_pending, statement.
  assert (∀ r : result bool bytes, r ≠ Ok true → moves (λ k, r = Ok true ∧ approve = true ∧ k = id) d d
    ∧ (r = Ok true → decides id (verdict approve) by_ (λ _ _, True) w d d)) as Hno by (split; [by apply quiet_moves, quiet_self|done]).
  destruct (fault w); [by apply Hno|]. destruct (record_in d id) as [rec|e] eqn:Er; [|by apply Hno].
  match goal with |- context [match ?c with Ok _ => _ | Err _ => _ end] => destruct c as [[|]|] eqn:Ec; [|by apply Hno..] end.
  assert (∀ r, approvals d !! id = Some r → is_stale (record r) (now w) = false) as Hst.
  { intros r Hr. destruct rec as [rec|].
    - apply record_in_row in Er as (r' & Hr' & <-). rewrite Hr in Hr'. injection Hr' as <-.
      destruct (is_stale (record r) (now w)); [|done]. rewrite orb_true_r in Ec. by destruct approve.
    - unfold record_in in Er. rewrite Hr in Er. by destruct (read_row r). }
  clear Hno Ec Er.
  match goal with |- context [update_row id ?when ?f w d] =>
    pose proof (update_decides id when f (verdict approve) by_ at_ answer_value
      (λ r, is_stale (record r) (now w) = false ∧ live_origin d id r = true
        ∧ sql_within at_ (created_at (record r)) (ttl_seconds (record r)) = true) w d Hd (λ _, eq_refl)) as Hu;
    destruct (update_row id when f w d) as [d' n] end.
  destruct Hu as [Hm Hu].
  { intros r Hr [[Hp%bool_decide_eq_true Hl]%andb_true_iff Hi]%andb_true_iff. do 2 (split; [auto|]). split; [done|].
    by destruct approve. }
  split.
  - destruct Hm as (? & ? & Hm). split; [done|]. split; [done|]. intros k [?|(-> & ? & ->)]%Hm; [by left|right]. by destruct approve.
  - intros [= ->]. destruct (Hu eq_refl) as (r & ? & ? & (? & ? & ?) & ?). by exists r, at_, (answer_value (record r)).
Qed.

Lemma resolve_moves expected id e kind st by_ ans w d :
  db_inv d →
  let '(d', r) := resolve_tx expected id e kind st by_ ans w d in
  moves (λ k, r = Ok tt ∧ st = Approved ∧ k = id) d d'
  ∧ (r = Ok tt → decides id st by_
       (λ r given, given = ans ∧ request_kind (record r) = kind ∧ binding (record r) = Some e) w d d').
Proof.
  intros Hd. unfold resolve_tx, statement.
  assert (∀ r : result unit bytes, r ≠ Ok tt → moves (λ k, r = Ok tt ∧ st = Approved ∧ k = id) d d
    ∧ (r = Ok tt → decides id st by_ (λ r given, given = ans ∧ request_kind (record r) = kind ∧ binding (record r) = Some e) w d d)) as Hno
    by (split; [by apply quiet_moves, quiet_self|done]).
  destruct (fault w); [by apply Hno|]. destruct (check_task w e); [|by apply Hno].
  destruct (record_in d id) as [[rec|]|] eqn:Er; [|by apply Hno..]. apply record_in_row in Er as (r & Hr & <-).
  destruct (negb _ || _) eqn:Es; [by apply Hno|]. apply orb_false_iff in Es as [_ Es].
  destruct (check_expected_digest _ _ _); [|by apply Hno].
  match goal with |- context [update_row id ?when ?f w d] =>
    pose proof (update_decides id when f st by_ (now_text w) (λ _, ans)
      (λ r, is_stale (record r) (now w) = false ∧ live_origin d id r = true
        ∧ sql_within (now_text w) (created_at (record r)) (ttl_seconds (record r)) = true
        ∧ request_kind (record r) = kind ∧ binding (record r) = Some e) w d Hd (λ _, eq_refl)) as Hu;
    destruct (update_row id when f w d) as [d' [|]] end; [|by apply Hno].
  destruct Hu as [(? & ? & Hm) Hu].
  { intros r' Hr' Hw. repeat (apply andb_true_iff in Hw as [Hw ?]). rewrite Hr in Hr'. injection Hr' as <-.
    by repeat match goal with Hb : bool_decide _ = true |- _ => apply bool_decide_eq_true in Hb end. }
  split.
  - split; [done|]. split; [done|]. intros k [?|(_ & ? & ->)]%Hm; [by left|by right].
  - intros _. destruct (Hu eq_refl) as (r' & ? & ? & (? & ? & ? & ? & ?) & ?). by exists r', (now_text w), ans.
Qed.

Lemma moves_trans newly newly' d d' d'' : moves newly d d' → moves newly' d' d'' → moves (λ k, newly k ∨ newly' k) d d''.
Proof. intros (? & ? & Hm) (? & ? & Hm'). split; [done|]. split; [by trans d'|]. intros k [[?|?]%Hm|?]%Hm'; auto. Qed.

Lemma moves_weaken (newly newly' : bytes → Prop) d d' : (∀ k, newly k → newly' k) → moves newly d d' → moves newly' d d'.
Proof. intros Hn (? & ? & Hm). split; [done|]. split; [done|]. intros k [?|?]%Hm; auto. Qed.

Lemma distinct_rest snapshot (rest : list (ApprovalRecord * bool)) :
  existsb (λ x : ApprovalRecord * bool, ustr_eqb (approval_id x.1) (approval_id snapshot)) rest = false →
  Forall (λ x : ApprovalRecord * bool, approval_id x.1 ≠ approval_id snapshot) rest.
Proof.
  intros Hne. apply list.Forall_forall. intros x Hx Heq. apply not_true_iff_false in Hne. apply Hne, existsb_exists.
  exists x. split; [by apply list_elem_of_In|]. rewrite Heq. apply ustr_eqb_refl.
Qed.

(** One request of the batch. *)
Lemma decide_one snapshot approve session turn by_ w row d :
  db_inv d → approvals d !! approval_id snapshot = Some row → turn_live d (approval_id snapshot) session turn row = true →
  ∀ d1, (if bool_decide (status (record row) = Pending) then
           ag_ui_decidable w (record row) = true
           ∧ d1 = with_row (approval_id snapshot)
                    (on_record (λ r, decided (verdict approve) by_ (now_text w) (answer_value r) r) row) d
         else legally_decided (record row) (verdict approve) = true ∧ d1 = d) →
  moves (λ k, approve = true ∧ k = approval_id snapshot) d d1 ∧ origins d1 = origins d ∧ cancelled d1 = cancelled d
  ∧ (∀ k, approval_id snapshot ≠ k → approvals d1 !! k = approvals d !! k)
  ∧ ∀ d', approvals d' !! approval_id snapshot = approvals d1 !! approval_id snapshot →
      batch_decides session turn by_ w d d' (snapshot, approve).
Proof.
  intros Hd Hr Hl d1 Hc. case_bool_decide as Hp; destruct Hc as [Hc ->].
  - split; [|split; [|split; [|split]]].
    + eapply row_change; [done|exact Hr|by apply ev_decided|]. cbn. intros. right. by destruct approve.
    + done.
    + done.
    + intros k Hk. cbn. by rewrite lookup_insert_ne.
    + intros d' Hd'. cbn in Hd'. rewrite lookup_insert_eq in Hd'. exists row. eexists. split; [done|]. split; [exact Hd'|].
      split; [done|]. split; [done|]. left. by split.
  - split; [by apply quiet_moves, quiet_self|]. do 3 (split; [done|]). intros d' Hd'. exists row, row. cbn [fst snd].
    split; [done|]. split; [by rewrite Hd'|]. split; [done|]. split; [|by right].
    unfold legally_decided in Hc. by apply andb_true_iff in Hc as [[?%bool_decide_eq_true _]%andb_true_iff _].
Qed.

Lemma decide_each_moves expected session turn by_ w l d d' :
  db_inv d → distinct_ids l = true → decide_each expected session turn by_ w l d = Ok d' →
  moves (λ k, ∃ r, (r, true) ∈ l ∧ approval_id r = k) d d' ∧ origins d' = origins d ∧ cancelled d' = cancelled d
  ∧ (∀ k, Forall (λ x : ApprovalRecord * bool, approval_id x.1 ≠ k) l → approvals d' !! k = approvals d !! k)
  ∧ Forall (batch_decides session turn by_ w d d') l.
Proof.
  revert d. induction l as [|[snapshot approve] rest IH]; cbn [decide_each distinct_ids]; intros d Hd Hds Hx.
  - injection Hx as <-. split; [by apply quiet_moves, quiet_self|]. by repeat constructor.
  - apply andb_true_iff in Hds as [Hne%negb_true_iff%distinct_rest Hds].
    destruct (approvals d !! approval_id snapshot) as [row|] eqn:Er; [|done].
    destruct (read_row row) as [current|] eqn:Ec; [|done].
    assert (current = record row) as -> by (unfold read_row in Ec; destruct (starts_with _ _ && _); [done|by injection Ec as <-]).
    destruct (negb (unchanged_since _ _)); [done|]. destruct (negb (turn_live _ _ _ _ _)) eqn:El; [done|]. apply negb_false_iff in El.
    destruct (check_expected_digest _ _ _); [|done]. change (if approve then Approved else Denied) with (verdict approve) in Hx.
    assert (∃ d1, (if bool_decide (status (record row) = Pending) then
                     ag_ui_decidable w (record row) = true
                     ∧ d1 = with_row (approval_id snapshot)
                              (on_record (λ r, decided (verdict approve) by_ (now_text w) (answer_value r) r) row) d
                   else legally_decided (record row) (verdict approve) = true ∧ d1 = d)
                  ∧ decide_each expected session turn by_ w rest d1 = Ok d') as (d1 & Hc & Hrest).
    { case_bool_decide; [destruct (ag_ui_decidable _ _)|destruct (legally_decided _ _)]; try done; eauto. }
    clear Hx Ec. destruct (decide_one _ _ _ _ _ _ _ _ Hd Er El _ Hc) as (Hm & Ho & Hcn & Hk & Hb).
    destruct (IH d1 (proj1 Hm) Hds Hrest) as (Hm' & Ho' & Hcn' & Hk' & Hb'). split; [|split; [|split; [|split]]].
    + eapply moves_weaken; [|by eapply moves_trans]. cbn. intros k [[-> ->]|(r & ? & ?)]; [by exists snapshot; split; [left|]|].
      exists r. split; [by right|done].
    + congruence.
    + congruence.
    + intros k Hf. inversion Hf; subst. rewrite Hk' by done. by apply Hk.
    + constructor; [by apply Hb, Hk'|]. rewrite list.Forall_forall in Hb', Hne |- *. intros x Hx.
      specialize (Hne x Hx). destruct (Hb' x Hx) as (r & r' & Hr & ? & Hl & ?). exists r, r'. split; [by rewrite <- Hk by congruence|].
      split; [done|]. split; [|done]. unfold turn_live, is_cancelled in *. by rewrite Ho, Hcn in Hl.
Qed.

Lemma batch_moves expected session turn by_ l w d :
  db_inv d → distinct_ids l = true →
  let '(d', r) := decide_batch_tx expected session turn by_ l w d in
  moves (λ k, r = Ok tt ∧ ∃ x, (x, true) ∈ l ∧ approval_id x = k) d d'
  ∧ (r = Ok tt → Forall (batch_decides session turn by_ w d d') l ∧ turn_pending d' session turn = false).
Proof.
  intros Hd Hds. unfold decide_batch_tx, statement.
  assert (∀ r : result unit bytes, r ≠ Ok tt → moves (λ k, r = Ok tt ∧ ∃ x, (x, true) ∈ l ∧ approval_id x = k) d d
    ∧ (r = Ok tt → Forall (batch_decides session turn by_ w d d) l ∧ turn_pending d session turn = false)) as Hno by (split; [by apply quiet_moves, quiet_self|done]).
  destruct (fault w); [by apply Hno|]. destruct (decide_each _ _ _ _ _ _ _) as [d'|] eqn:E; [|by apply Hno].
  destruct (turn_pending d' session turn) eqn:Ep; [by apply Hno|]. apply decide_each_moves in E as (Hm & _ & _ & _ & ?); [|done|done].
  split; [|done]. eapply moves_weaken; [|exact Hm]. auto.
Qed.

Lemma batch_fails expected session turn by_ l w d d' e : decide_batch_tx expected session turn by_ l w d = (d', Err e) → d' = d.
Proof.
  unfold decide_batch_tx, statement. destruct (fault w); [by intros [= <- _]|].
  destruct (decide_each _ _ _ _ _ _ _) as [d1|]; [|by intros [= <- _]]. by destruct (turn_pending _ _ _); intros [= <- _].
Qed.

(** ** Consumption and operations *)

(** A statement that brings no approval about, and what its answers say. *)
Definition tells {A} (f : World → Db → Db * result A bytes) (Q : A → World → Db → Db → Prop) : Prop :=
  ∀ w d, db_inv d → quiet d (f w d).1 ∧ ∀ x, (f w d).2 = Ok x → Q x w d (f w d).1.

Lemma tells_statement {A} (f : World → Db → Db * result A bytes) Q : tells f Q → tells (statement f) Q.
Proof. intros Hf w d Hd. unfold statement. destruct (fault w); [by split; [apply quiet_self|]|by apply Hf]. Qed.

Lemma update_row_tells id when f w d (P : Row → Prop) :
  db_inv d → (∀ r, when d r = true → P r ∧ row_evolves r (on_record (f w) r) ∧ status (f w (record r)) ≠ Approved) →
  let '(d', n) := update_row id when f w d in
  quiet d d' ∧ (n = true → ∃ r, approvals d !! id = Some r ∧ P r ∧ approvals d' !! id = Some (on_record (f w) r)) ∧ (n = false → d' = d).
Proof.
  intros Hd Hw. pose proof (update_row_quiet id when f w d Hd) as Hq.
  destruct (update_row id when f w d) as [d' n] eqn:E. split; [|split].
  - apply Hq. intros r Hr. destruct (Hw r Hr) as (_ & ? & ?). by split.
  - intros ->. pose proof (update_row_some id when f w d) as Hs. rewrite E in Hs. destruct (Hs eq_refl) as (r & Hr & Hg & Hd').
    cbn in Hd'. subst d'. exists r. split; [done|]. split; [by apply Hw|]. cbn. by rewrite lookup_insert_eq.
  - intros ->. pose proof (update_row_none id when f w d) as Hs. rewrite E in Hs. by apply Hs.
Qed.

Lemma consume_row_tells id reason : tells (consume_row id reason) (λ n _ d d', n = true → consumes id (mask reason) (λ _, True) d d').
Proof.
  apply tells_statement. intros w d Hd. cbn zeta.
  match goal with |- context [update_row id ?when ?f w d] =>
    pose proof (update_row_tells id when f w d (λ r, status (record r) = Approved) Hd) as Hu;
    destruct (update_row id when f w d) as [d' n] end.
  destruct Hu as (? & Hu & _); [by intros r ?%bool_decide_eq_true; split; [|split; [apply ev_invalidated|]]|].
  split; [done|]. intros x [= <-] Hn. destruct (Hu Hn) as (r & ? & ? & ?). by exists r.
Qed.

Lemma consume_grant_tells rec mail :
  tells (consume_grant_tx rec mail) (λ x w d d',
    x = None → consumes (approval_id rec) (CONSUMED_PREFIX ++ fresh_id w)
      (λ r, agent_id (record r) = agent_id rec ∧ live_origin d (approval_id rec) r = true
            ∧ sql_within (now_text w) (created_at (record r)) (ttl_seconds (record r)) = true) d d').
Proof.
  apply tells_statement. intros w d Hd.
  destruct (match mail with Some e => check_task w e | None => Ok tt end); [|by split; [apply quiet_self|]].
  destruct (negb _); [by split; [apply quiet_self|intros x [= <-] ?]|].
  match goal with |- context [update_row (approval_id rec) ?when ?f w d] =>
    pose proof (update_row_tells (approval_id rec) when f w d (λ r, status (record r) = Approved ∧ agent_id (record r) = agent_id rec
      ∧ live_origin d (approval_id rec) r = true ∧ sql_within (now_text w) (created_at (record r)) (ttl_seconds (record r)) = true) Hd) as Hu;
    destruct (update_row (approval_id rec) when f w d) as [d' n] end.
  destruct Hu as (Hq & Hu & Hno).
  { intros r Hw. repeat (apply andb_true_iff in Hw as [Hw ?]). apply bool_decide_eq_true in Hw.
    split; [|by split; [apply ev_invalidated|]]. split; [done|]. split; [by eapply bool_decide_eq_true_1|done]. }
  destruct n; [|by rewrite (Hno eq_refl) in *; split; [apply quiet_self|intros x [= <-] ?]].
  split; [done|]. intros x [= <-] _. destruct (Hu eq_refl) as (r & ? & (? & ?) & ?). by exists r.
Qed.

Lemma update_operation_tells id when f d (P : Operation → Prop) :
  db_inv d → (∀ o, when o = true → P o ∧ op_evolves o (f o)) →
  let '(d', n) := update_operation id when f d in
  quiet d d' ∧ (n = true → ∃ o, operations d !! id = Some o ∧ P o ∧ operations d' !! id = Some (f o)).
Proof.
  intros Hd Hw. pose proof (update_operation_quiet id when f d Hd) as Hq.
  destruct (update_operation id when f d) as [d' n] eqn:E. split; [by apply Hq; intros; apply Hw|].
  intros ->. pose proof (update_operation_some id when f d) as Hs. rewrite E in Hs. destruct (Hs eq_refl) as (o & Ho & Hg & Hd').
  cbn in Hd'. subst d'. exists o. split; [done|]. split; [by apply Hw|]. cbn. by rewrite lookup_insert_eq.
Qed.

(** The operation a statement updates, [P] being what its guard says of it. *)
Ltac op_update P :=
  match goal with
  | Hd : db_inv ?d |- context [update_operation ?id ?when ?f ?d] =>
      pose proof (update_operation_tells id when f d P Hd) as Hu; destruct (update_operation id when f d) as [d' n]
  end.

Lemma authorised_op w d id e : authorised w d id e = Ok tt → check_task w e = Ok tt ∧ ∃ o, operations d !! id = Some o ∧ check_operation_authority w d o e = Ok tt.
Proof.
  unfold authorised. destruct (check_task w e) as [[]|]; [|done]. destruct (operations d !! id) as [o|]; [|done]. eauto.
Qed.

Lemma claim_tells id e owner lease_seconds : tells (claim_tx id e owner lease_seconds) (claims id e owner lease_seconds).
Proof.
  apply tells_statement. intros w d Hd. destruct (authorised w d id e) as [[]|] eqn:Ea; [|by split; [apply quiet_self|]]. cbn zeta.
  apply authorised_op in Ea as (Ht & o & Ho & Ha).
  op_update (λ o, op_state o = Prepared ∧ op_binding o = e ∧ lease_free o (seconds_now w) = true).
  destruct Hu as (Hq & Hu).
  { intros o' [[?%bool_decide_eq_true ?%bool_decide_eq_true]%andb_true_iff ?]%andb_true_iff. split; [done|].
    apply ev_set_operation; lia. }
  destruct n.
  - split; [done|]. intros c [= <-]. destruct (Hu eq_refl) as (o' & Ho' & (Hp & ? & ?) & Hd'). rewrite Ho in Ho'. injection Ho' as <-.
    rewrite Hp in Hd'. exists o. rewrite Hd'. cbn. by repeat (split; [done|]).
  - rewrite Ho. destruct (_ && _); by split; [apply quiet_self|].
Qed.

Lemma begin_tells c e : tells (begin_tx c e) (λ _, begins c e).
Proof.
  apply tells_statement. intros w d Hd. destruct (authorised w d (claim_operation_id c) e) as [[]|] eqn:Ea; [|by split; [apply quiet_self|]].
  apply authorised_op in Ea as (Ht & o & Ho & Ha).
  op_update (λ o, op_state o = Prepared ∧ holds_lease c (seconds_now w) o = true ∧ op_binding o = e).
  destruct Hu as (Hq & Hu).
  { intros o' [[Hp%bool_decide_eq_true ?]%andb_true_iff ?%bool_decide_eq_true]%andb_true_iff. split; [done|].
    apply ev_set_operation; [rewrite Hp; cbn|]; lia. }
  destruct n; [|by split; [apply quiet_self|]]. split; [done|]. intros [] _.
  destruct (Hu eq_refl) as (o' & Ho' & (? & ? & ?) & ?). rewrite Ho in Ho'. injection Ho' as <-. by exists o.
Qed.

Lemma settle_tells c st receipt error :
  (1 ≤ rank st)%nat → tells (settle_tx c st receipt error) (λ _, settles c st).
Proof.
  intros Hst. apply tells_statement. intros w d Hd.
  op_update (λ o, op_state o = Executing ∧ holds_lease c (seconds_now w) o = true).
  destruct Hu as (Hq & Hu).
  { intros o' [Hp%bool_decide_eq_true ?]%andb_true_iff. split; [done|]. apply ev_set_operation; [rewrite Hp; cbn|]; lia. }
  destruct n; [|by split; [apply quiet_self|]]. split; [done|]. intros [] _.
  destruct (Hu eq_refl) as (o & ? & (? & ?) & ?). by eexists o, _.
Qed.

Lemma safe_resolve_uncertain id fence succeeded receipt actor reason : safe (resolve_uncertain_tx id fence succeeded receipt actor reason).
Proof.
  apply safe_statement. intros w d Hd.
  op_update (λ _ : Operation, True).
  destruct Hu as (Hq & _).
  { intros o' [Hp%bool_decide_eq_true ?]%andb_true_iff. split; [done|]. apply ev_set_operation; [|lia].
    rewrite Hp. by destruct succeeded; cbn; lia. }
  destruct n; [done|by apply quiet_self].
Qed.

Lemma withdraw_turn_tells session turn who : tells (withdraw_turn_tx session turn who) (λ _ _ _ d', turn_over session turn d').
Proof.
  intros w d Hd. split; [by apply safe_withdraw_turn|]. unfold withdraw_turn_tx, statement. destruct (fault w); [done|]. cbn zeta.
  set (d1 := match cancelled d !! (session, turn) with Some _ => d | None => _ end). cbn [fst snd]. intros x _.
  assert (is_Some (cancelled d1 !! (session, turn))) as Hc.
  { unfold d1. destruct (cancelled d !! (session, turn)) eqn:E; [rewrite E; eauto|]. cbn. rewrite lookup_insert_eq. eauto. }
  clearbody d1. split; [by apply bool_decide_eq_true|]. intros id r Hr Hp Ho Hin Hlive. cbn in Hr, Hin.
  change (live_origins (with_approvals _ d1) id) with (live_origins d1 id) in Hlive.
  rewrite map_lookup_imap in Hr. destruct (approvals d1 !! id) as [r0|]; [|done]. cbn in Hr. injection Hr as <-.
  destruct (withdrawable d1 session turn id r0) eqn:E; [done|]. unfold withdrawable in E.
  rewrite !bool_decide_true in E by done. by rewrite Hlive in E.
Qed.

(** ** Tasks *)

Definition keeps {A} : Caller * Call → (A → Reply) → View → TaskOf A → Prop := Interleave.keeps db_inv evolves promise approved cause.

(** The same call later: it has seen more. *)
Definition onwards (v v' : View) : Prop := v.1 ⊆ v'.1 ∧ evolves v.2 v'.2.
#[export] Instance onwards_preorder : PreOrder onwards.
Proof. split; [by split|]. intros x y z [? ?] [? ?]. split; [set_solver|by trans (y.2)]. Qed.

(** A task whose accesses bring no approval about. *)
Definition calm {A} (p : TaskOf A) : Prop := ∀ v, reads v p (λ _ _, True).

Lemma calm_give {A} (r : result A bytes) : calm (give r).
Proof. done. Qed.
Lemma calm_access {A} (f : World → Db → Db * result A bytes) : safe f → calm (access f).
Proof. intros Hf d0 w d Hd _. specialize (Hf w d Hd). by destruct (f w d). Qed.
Lemma calm_ignore {A B} (f : World → Db → Db * result A bytes) (p : TaskOf B) : safe f → calm p → calm (Access f (λ _, p)).
Proof. intros Hf Hp d0 w d Hd _. specialize (Hf w d Hd). destruct (f w d). split; [done|]. apply Hp. Qed.
Lemma calm_look {A} (f : World → result A bytes) : calm (look f).
Proof. intros d0 w d Hd _. by split; [apply quiet_self|]. Qed.
Lemma calm_bind {A B} (m : TaskOf A) (k : A → TaskOf B) : calm m → (∀ x, calm (k x)) → calm (m ≫= k).
Proof.
  intros Hm Hk d0. apply Interleave.reads_bind. eapply Interleave.reads_weaken; [apply Hm|]. intros d [x|e] _; [apply Hk|done].
Qed.

Lemma keeps_calm {A} cc (j : A → Reply) v (p : TaskOf A) :
  (∀ r h w d d', promise cc (replied j r) h w d d') → calm p → keeps cc j v p.
Proof. intros Hp Hc. apply Interleave.keeps_reads; [done|]. apply Hc. Qed.

(** It has not answered yet. *)
Definition waits {A} (p : TaskOf A) : Prop := match p with Ret (Ok _) => False | _ => True end.

Lemma waits_promised {A} cc `{!Lenient cc} (j : A → Reply) (p : TaskOf A) h w d d' : waits p → Interleave.promised promise cc j p h w d d'.
Proof. intros Hw [x|e] ->; [by destruct Hw|apply lenient]. Qed.

Lemma keeps_after {A B} cc `{!Lenient cc} (j : B → Reply) v (m : TaskOf A) (k : A → TaskOf B) :
  calm m → (∀ x v, keeps cc j v (k x) ∧ waits (k x)) → keeps cc j v (m ≫= k).
Proof.
  intros Hm Hk. apply Interleave.keeps_bind; [apply lenient|]. eapply Interleave.reads_weaken; [apply Hm|].
  intros v' [x|e] _; [|done]. destruct (Hk x v'). split; [done|]. intros. by apply waits_promised.
Qed.

Lemma seen_more (v : View) w d : evolves v.2 d → onwards v (look_on v w d d).
Proof. intros Hev. split; [|done]. intros x Hx. apply elem_of_app. by left. Qed.
Lemma seen_last (v : View) w d d' : (w, d) ∈ (look_on v w d d').1.
Proof. apply elem_of_app. right. by apply list_elem_of_singleton. Qed.

Lemma witnessed_on (v v' : View) P : onwards v v' → witnessed v.1 P → witnessed v'.1 P.
Proof. intros [Hs _] (w0 & d0 & ? & ?). exists w0, d0. split; [by apply Hs|done]. Qed.

Lemma keeps_look {A B} cc `{!Lenient cc} (j : B → Reply) v (f : World → result A bytes) (k : A → TaskOf B) :
  (∀ v' x, onwards v v' → witnessed v'.1 (λ w, f w = Ok x) → keeps cc j v' (k x) ∧ waits (k x)) → keeps cc j v (look f ≫= k).
Proof.
  intros Hk. apply Interleave.keeps_bind; [apply lenient|]. apply Interleave.reads_look; [apply _|]. intros w d Hd Hev.
  destruct (f w) as [x|] eqn:E; [|done]. destruct (Hk (look_on v w d d) x) as [? ?];
    [by apply seen_more|exists w, d; split; [apply seen_last|done]|].
  split; [done|]. intros. by apply waits_promised.
Qed.

Lemma keeps_get_or {A} cc `{!Lenient cc} (j : A → Reply) v e id (k : ApprovalRecord → TaskOf A) :
  (∀ v' w d row, onwards v v' → (w, d) ∈ v'.1 → evolves d v'.2 → approvals d !! id = Some row →
     keeps cc j v' (k (record row)) ∧ waits (k (record row))) →
  keeps cc j v (get_or e id ≫= k).
Proof.
  intros Hk. apply Interleave.keeps_bind; [apply lenient|]. apply Interleave.reads_bind, Interleave.reads_access. intros w d Hd Hev.
  split; [by apply safe_get|]. unfold get_record, statement. destruct (fault w); [done|]. cbn.
  destruct (record_in d id) as [[r|]|] eqn:Er; [|done..]. apply record_in_row in Er as (row & Hr & <-). cbn.
  destruct (Hk (look_on v w d d) w d row) as [? ?]; [by apply seen_more|apply seen_last|done..|].
  split; [done|]. intros. by apply waits_promised.
Qed.

Lemma keeps_give {A B} cc (j : B → Reply) v (r : result A bytes) (k : A → TaskOf B) :
  (∀ x, r = Ok x → keeps cc j v (k x)) → keeps cc j v (give r ≫= k).
Proof. intros Hk. destruct r; [by apply Hk|done]. Qed.

Lemma waits_give {A B} (r : result A bytes) (k : A → TaskOf B) : (∀ x, waits (k x)) → waits (give r ≫= k).
Proof. intros Hk. destruct r; [apply Hk|done]. Qed.

(** The last access: it tells, and approves nothing. *)
Lemma keeps_tells {A} cc `{!Lenient cc} (j : A → Reply) v (f : World → Db → Db * result A bytes) Q :
  tells f Q → (∀ x h w d d', Q x w d d' → promise cc (Ok (j x)) h w d d') → keeps cc j v (access f).
Proof.
  intros Hf Hp. apply Interleave.keeps_access. intros w d Hd _. destruct (Hf w d Hd) as [(? & ? & Hq) Ht].
  destruct (f w d) as [d' r]. split; [done|]. split; [done|]. split; [intros key ?; left; auto|].
  destruct r as [x|e]; [by apply Hp, Ht|apply lenient].
Qed.
End promises.

#[export] Hint Extern 0 (Lenient _) => intros ? ? ? ? ?; exact I : typeclass_instances.

(** The accesses of a task, one after the other. *)
Ltac calm :=
  repeat first
    [ apply calm_bind; [|intros ?] | apply calm_look | apply calm_give | apply calm_access | apply calm_ignore
    | match goal with |- calm match ?x with _ => _ end => destruct x end ].

#[export] Hint Resolve safe_get safe_list safe_notify safe_remind safe_rewrite safe_invalidate safe_recover safe_restart_operations
  safe_restart_approvals safe_withdraw_turn safe_turn_rows safe_admission safe_resolve_uncertain : approvals.

Section calls.
Context `{SerdeValue} `{Sha256} `{ApprovalCrates} `{RowOrder}.

(** ** Calls that promise nothing *)

Definition yields {A} (m : TaskOf A) (P : A → Prop) : Prop := ∀ v, reads v m (λ _ r, ∀ x, r = Ok x → P x).

Lemma yields_look {A} (f : World → result A bytes) (P : A → Prop) : (∀ w x, f w = Ok x → P x) → yields (look f) P.
Proof. intros Hf d0 w d Hd _. split; [by apply quiet_self|]. cbn. intros x Hx. by apply (Hf w). Qed.
Lemma yields_after {A B} (m : TaskOf A) (k : A → TaskOf B) P : calm m → (∀ x, yields (k x) P) → yields (m ≫= k) P.
Proof.
  intros Hm Hk d0. apply Interleave.reads_bind. eapply Interleave.reads_weaken; [apply Hm|]. intros d [x|e] _; [apply Hk|done].
Qed.
Lemma calm_yields {A B} (m : TaskOf A) (k : A → TaskOf B) P : yields m P → (∀ x, P x → calm (k x)) → calm (m ≫= k).
Proof.
  intros Hm Hk d0. apply Interleave.reads_bind. eapply Interleave.reads_weaken; [apply Hm|].
  intros d [x|e] Hx; [by apply Hk, Hx|done].
Qed.

(** The hash of the binding is that of the payload. *)
Definition hash_bound (r : ApprovalRecord) : Prop :=
  ∀ e, binding r = Some e →
    bound_payload_hash e = payload_hash (payload r) ∧ (action_kind r = FIXTURE_DECISION_KIND → is_workflow e = true).

Lemma validated_hash e t v : ExecutionBinding_validate e t v = Ok tt → bound_payload_hash e = payload_hash v.
Proof.
  unfold ExecutionBinding_validate. destruct (DecisionContext_validate _); [|done]. destruct (ustr_eqb (bound_payload_hash e) (payload_hash v)) eqn:E.
  - intros _. by apply bool_decide_eq_true_1 in E.
  - rewrite !orb_true_r. cbn. rewrite ?orb_true_r. done.
Qed.

Lemma bound_kind_fixture kind v : bound_kind kind v ≠ FIXTURE_DECISION_KIND.
Proof. unfold bound_kind. destruct kind, (is_activation_payload v); vm_compute; congruence. Qed.

Lemma bound_record_yields c keyed kind agent text v e :
  yields (bound_record c keyed kind agent text v e) (λ r, hash_bound r ∧ status r = Pending ∧ binding r = Some e).
Proof.
  unfold bound_record. destruct (bool_decide _); [by intros d x [=]|]. intros d0. apply Interleave.reads_bind, Interleave.reads_look; [apply _|].
  intros w d Hd _. destruct (ExecutionBinding_validate e (now w) v) as [[]|] eqn:Ev; [|done]. apply validated_hash in Ev.
  destruct (negb _); [by intros x [=]|]. apply yields_after; [apply calm_look|]. intros [].
  apply yields_look. intros w' r. destruct (rfc3339_nanos (expires_at e)); [|done]. intros [= <-]. split; [|done].
  intros e' [= <-]. split; [done|]. by intros ?%bound_kind_fixture.
Qed.

Lemma calm_insert c r if_absent :
  hash_bound r → (status r = Approved → action_kind r = FIXTURE_DECISION_KIND) → calm (insert c r if_absent).
Proof. intros Hr Hs. unfold insert. calm. apply safe_insert; [|done]. intros e He. by destruct (Hr e He). Qed.

Lemma calm_get id : calm (get id).
Proof. unfold get. calm. auto with approvals. Qed.
Lemma calm_get_or e id : calm (get_or e id).
Proof. unfold get_or. apply calm_bind; [apply calm_get|]. intros r. calm. Qed.

Lemma calm_request c agent kind text v ttl sim : calm (request c agent kind text v ttl sim).
Proof.
  unfold request. eapply calm_yields; [apply (yields_look _ (λ r, binding r = None ∧ status r = Pending)); by intros w r [= <-]|].
  intros r [Hb Hs]. apply calm_bind; [apply calm_insert; [|congruence]|].
  - intros e He. congruence.
  - intros ?. unfold push_new_request, record_push. calm; auto with approvals.
Qed.

Lemma calm_request_bound c kind agent text v e sim : calm (request_bound c kind agent text v e sim).
Proof.
  unfold request_bound. eapply calm_yields; [apply bound_record_yields|]. intros r (Hr & Hs & _).
  apply calm_bind; [by apply calm_insert; [|cbn; congruence]|]. intros ?. calm.
Qed.

Lemma calm_request_bound_keyed c key kind agent text v e : calm (request_bound_keyed c key kind agent text v e).
Proof.
  unfold request_bound_keyed. eapply calm_yields; [apply bound_record_yields|]. intros r (Hr & Hs & _).
  apply calm_bind; [apply calm_insert; [done|congruence]|]. intros ?. apply calm_bind; [apply calm_get_or|]. intros ?. calm.
Qed.

Lemma calm_record_fixture_decision c key kind agent text v e f : calm (record_fixture_decision c key kind agent text v e f).
Proof.
  unfold record_fixture_decision, require_fixture_run. destruct (is_workflow e) eqn:Ew; [|done]. cbn [negb].
  apply calm_bind; [calm|]. intros ?. apply calm_bind; [calm|]. intros ?. eapply calm_yields; [apply bound_record_yields|]. intros r (Hr & Hs & He).
  eapply calm_yields; [apply (yields_look _ (λ r, hash_bound r ∧ action_kind r = FIXTURE_DECISION_KIND))|].
  { intros w r' [= <-]. split; [|done]. intros e' He'. cbn in He'. split; [by apply Hr|]. congruence. }
  intros r' [Hr' Ha]. apply calm_bind; [by apply calm_insert|]. intros ?. apply calm_bind; [apply calm_get_or|]. intros ?. calm.
Qed.

Lemma safe_expire expected id by_ at_ : safe (decide_if_pending expected id Expired by_ at_).
Proof. by apply safe_decide. Qed.

Lemma calm_maybe_remind capped r t at_ : calm (maybe_remind capped r t at_).
Proof.
  unfold maybe_remind. destruct (_ || _); [apply calm_give|]. intros d0 w d Hd _. pose proof (safe_remind (approval_id r) at_ w d Hd) as Hs.
  destruct (claim_reminder (approval_id r) at_ w d) as [d' n]. split; [done|].
  match goal with |- Interleave.reads _ _ _ _ ?p _ => enough (calm p) as Hc by apply Hc end.
  calm; auto with approvals.
Qed.

Lemma calm_poll no_reminder id : calm (poll no_reminder id).
Proof.
  unfold poll. apply calm_bind; [apply calm_get_or|]. intros r. apply calm_bind; [apply calm_look|]. intros t. destruct (is_stale r t.1).
  - apply calm_bind; [apply calm_access, safe_expire|]. intros ?. apply calm_bind; [apply calm_get|]. intros ?. calm.
  - apply calm_bind; [apply calm_maybe_remind|]. intros ?. calm.
Qed.

Lemma calm_await rounds no_reminder id : calm (await_decision rounds no_reminder id).
Proof.
  unfold await_decision. apply calm_bind; [apply calm_get_or|]. intros r.
  induction rounds as [|rounds IH]; cbn [await_loop]; [calm|]. apply calm_bind; [apply calm_poll|]. intros s.
  destruct (is_terminal s); [calm|]. apply calm_bind; [apply calm_look|]. intros [|]; [|apply IH]. unfold clock. calm. apply safe_expire.
Qed.

Lemma calm_expire_each l t at_ n : calm (expire_each l t at_ n).
Proof. revert n. induction l as [|r l IH]; intros n; cbn [expire_each]; [calm|]. destruct (is_stale r t); [|apply IH]. apply calm_bind; [apply calm_access, safe_expire|]. intros ?. apply IH. Qed.

Lemma calm_list_pending agent : calm (list_pending agent).
Proof.
  unfold list_pending, expire_stale, list_pending_rows. calm; auto with approvals. apply calm_expire_each.
Qed.

Lemma calm_checked {A} e v (k : unit → TaskOf A) :
  (bound_payload_hash e = payload_hash v → calm (k tt)) → calm (look (λ w, ExecutionBinding_validate e (now w) v) ≫= k).
Proof.
  intros Hk. eapply calm_yields; [apply (yields_look _ (λ _, bound_payload_hash e = payload_hash v))|intros []; apply Hk].
  intros w []. apply validated_hash.
Qed.

Lemma calm_prepare id step provider : calm (prepare_operation id step provider).
Proof.
  unfold prepare_operation. destruct (bad_step step); [calm|]. apply calm_bind; [apply calm_get_or|]. intros r.
  apply calm_bind; [calm|]. intros ?. destruct (negb _); [calm|]. destruct (binding r) as [e|]; [|calm].
  apply calm_checked. intros ?. calm. by apply safe_prepare.
Qed.
Lemma calm_prepare_granted g step v e provider : calm (prepare_granted_operation g step v e provider).
Proof.
  unfold prepare_granted_operation. destruct (bad_step step); [calm|]. apply calm_bind; [calm|]. intros ?.
  apply calm_checked. intros ?. calm. by apply safe_prepare_granted.
Qed.

(** ** Calls that decide *)

(** The last access decides. *)
Lemma moves_bring {A} cc (j : A → Reply) r h w d d' :
  moves (λ key, approves cc key ∧ ∃ x, r = Ok x) d d' → Interleave.brings approved cause cc (Some (replied j r)) h w d d'.
Proof.
  intros (_ & _ & Hm) key Hk. destruct (approved_dec key d) as [?|Hn]; [by left|right].
  destruct (Hm key Hk) as [?|(? & x & ->)]; [done|]. eexists. split; [done|]. split; [done|]. split; [by eexists|done].
Qed.

Lemma keeps_moves {A B} cc `{!Lenient cc} (j : B → Reply) v (f : World → Db → Db * result A bytes) (g : A → result B bytes)
    (k : A → TaskOf B) :
  (∀ x, k x = give (g x)) →
  (∀ w d, db_inv d → evolves v.2 d →
     let '(d', r) := f w d in
     let r := match r with Ok x => g x | Err e => Err e end in
     moves (λ key, approves cc key ∧ ∃ x, r = Ok x) d d' ∧ ∀ x, r = Ok x → promise cc (Ok (j x)) v.1 w d d') →
  keeps cc j v (access f ≫= k).
Proof.
  intros Hk Hf. eapply Interleave.keeps_last; [exact Hk|]. intros w d Hd Hev. specialize (Hf w d Hd Hev).
  destruct (f w d) as [d' r]. destruct Hf as [Hm Hp]. cbv zeta in *. split; [apply Hm|]. split; [apply Hm|].
  split; [by apply moves_bring|]. destruct (match r with Ok x => g x | Err e => Err e end) as [x|e]; [by apply Hp|apply lenient].
Qed.

Lemma keeps_moves_last {A} cc (j : A → Reply) v (f : World → Db → Db * result A bytes) :
  (∀ w d, db_inv d → evolves v.2 d →
     let '(d', r) := f w d in
     moves (λ key, approves cc key ∧ ∃ x, r = Ok x) d d' ∧ promise cc (replied j r) v.1 w d d') →
  keeps cc j v (access f).
Proof.
  intros Hf. apply Interleave.keeps_access. intros w d Hd Hev. specialize (Hf w d Hd Hev).
  destruct (f w d) as [d' r]. destruct Hf as [Hm Hp]. split; [apply Hm|]. split; [apply Hm|].
  split; [by apply moves_bring|done].
Qed.

Lemma decides_weaken id s by_ (P Q : Row → option Value → Prop) w d d' :
  (∀ r ans, approvals d !! id = Some r → status (record r) = Pending → P r ans → Q r ans) → decides id s by_ P w d d' → decides id s by_ Q w d d'.
Proof. intros HPQ (r & at_ & ans & ? & ? & ? & ? & ? & ? & ?). exists r, at_, ans. repeat (split; [by auto|]). done. Qed.

Lemma row_since d d' id r r' : evolves d d' → approvals d !! id = Some r → approvals d' !! id = Some r' → row_evolves r r'.
Proof. intros Hev Hr Hr'. destruct (ev_rows _ _ Hev id r Hr) as (x & Hx & ?). congruence. Qed.

Ltac waits := repeat case_match; done.

Lemma keeps_decide_unbound cc `{!Lenient cc} (j : unit → Reply) v c id approve by_ egress :
  (∀ v' w d d', onwards v v' → decides id (verdict approve) by_ unbound w d d' →
     (egress = false → found v'.1 id (λ r, egress_guarded (payload r) = false)) → promise cc (Ok (j tt)) v'.1 w d d') →
  (approve = true → approves cc id) →
  keeps cc j v (decide_unbound c id approve by_ egress).
Proof.
  intros Hp Ha. unfold decide_unbound. apply (keeps_get_or _). intros v1 w1 d1 row Hv1 Hin Hrow Hr. split; [|waits].
  destruct (_ && _) eqn:Eg; [done|]. destruct (bool_decide _ || _) eqn:Eb; [done|].
  apply orb_false_iff in Eb as [Hb Hk%negb_false_iff%bool_decide_eq_true].
  assert (binding (record row) = None) as Hb' by (apply bool_decide_eq_false in Hb; by apply eq_None_not_Some).
  apply (keeps_look _). intros v2 t Hv2 _. split; [|waits]. destruct (is_stale _ _).
  { apply (keeps_after _); [apply calm_look|]. intros at_ v'. split; [|done].
    apply (keeps_after _); [apply calm_access, safe_expire|]. by intros [] ?. }
  destruct (is_terminal _); [done|]. apply (keeps_look _). intros v3 at_ Hv3 _. split; [|done].
  eapply (keeps_moves _ _ _ _ (λ changed : bool, if changed then Ok tt else Err (b "approval " ++ id ++ b " was decided concurrently")));
    [by intros []|]. intros w d Hd Hev.
  pose proof (decide_moves (expected_digest c) id approve by_ at_ w d Hd) as Hm.
  change (if approve then Approved else Denied) with (verdict approve). destruct (decide_if_pending _ _ _ _ _ _ _) as [d' r].
  destruct Hm as [Hm Ht]. split.
  - eapply moves_weaken; [|exact Hm]. cbn. intros key (-> & Happ & ->). split; [auto|by exists tt].
  - intros [] Hx. assert (onwards v1 v3) as Hv13 by (by trans v2). apply Hp; [by trans v1| |].
    + destruct r as [[|]|]; try done. eapply decides_weaken; [|by apply Ht]. intros r' ans Hr' _ _.
      assert (evolves d1 d) as Hdd by (etrans; [exact Hrow|]; etrans; [apply Hv13|exact Hev]).
      pose proof (row_since _ _ _ _ _ Hdd Hr Hr') as He. split; [by rewrite (ev_binding _ _ He)|by rewrite (ev_kind _ _ He)].
    + intros ->. exists w1, d1, row. split; [by apply Hv13|]. split; [done|]. by rewrite andb_true_r in Eg.
Qed.

(** The card of a bound request stays what it was while it is pending. *)
Lemma same_card d d' id r r' e :
  evolves d d' → approvals d !! id = Some r → approvals d' !! id = Some r' → status (record r') = Pending → binding (record r) = Some e →
  binding (record r') = Some e ∧ payload (record r') = payload (record r) ∧ is_activation (record r') = is_activation (record r)
  ∧ request_kind (record r') = request_kind (record r).
Proof.
  intros Hev Hr Hr' Hp Hb. pose proof (row_since _ _ _ _ _ Hev Hr Hr') as He.
  assert (payload (record r') = payload (record r)) as Ht by (destruct (ev_text _ _ He) as [?|[?|?]]; congruence).
  split; [by rewrite (ev_binding _ _ He)|]. split; [done|]. split; [|apply He]. unfold is_activation. by rewrite Ht, (ev_action _ _ He).
Qed.

(** A look that only some requests need. *)
Lemma keeps_optional {B} cc `{!Lenient cc} (j : B → Reply) v (m : TaskOf unit) (k : unit → TaskOf B) (needed : bool) (Q : World → Prop) :
  (needed = false ∧ m = done tt ∨ ∃ f, m = look f ∧ ∀ w, f w = Ok tt → Q w) →
  (∀ v', onwards v v' → (needed = true → witnessed v'.1 Q) → keeps cc j v' (k tt) ∧ waits (k tt)) →
  keeps cc j v (m ≫= k) ∧ waits (m ≫= k).
Proof.
  intros [[-> ->]|(f & -> & HQ)] Hk; [by apply Hk|]. split; [|done]. apply (keeps_look _). intros v' [] Hv (w0 & d0 & ? & ?).
  apply Hk; [done|]. intros _. exists w0, d0. auto.
Qed.

(** What a resolved request was: [h] is what the call saw of it before. *)
Definition resolved (kind : RequestKind) (ans : option Value) (dashboard : option UserContext) (context : DecisionContext)
    (h : list (World * Db)) (r : Row) (given : option Value) : Prop :=
  given = ans ∧ request_kind (record r) = kind
  ∧ ∃ e, binding (record r) = Some e ∧ policy_current h e
         ∧ (dashboard = None → decision_context e = context ∧ is_activation (record r) = false ∧ mail_allowed h (record r)).

Lemma keeps_resolve cc `{!Lenient cc} (j : unit → Reply) v c id context kind st ans dashboard :
  (∀ by_ v' w d d', onwards v v' → evolves v'.2 d → decides id st by_ (resolved kind ans dashboard context v'.1) w d d' →
     (∀ ctx, dashboard = Some ctx → by_ = dashboard_name ctx) → promise cc (Ok (j tt)) v'.1 w d d') →
  (st = Approved → approves cc id) → keeps cc j v (resolve_bound c id context kind st ans dashboard).
Proof.
  intros Hp Ha. unfold resolve_bound. apply keeps_give. intros _ _. apply keeps_give. intros _ _.
  apply (keeps_get_or _). intros v1 w1 d1 row Hv1 _ Hrow Hr.
  apply (keeps_optional _ _ _ _ _ (egress_guarded (payload (record row)))
    (λ w, dashboard = None → mail_eligible w (record row) = true)).
  { destruct (egress_guarded _); [right|by left]. destruct dashboard; eexists; (split; [done|]); intros w; [done|].
    cbn beta. by destruct (mail_eligible w (record row)). }
  intros v2 Hv2 Hmail. destruct (binding (record row)) as [e|] eqn:Eb; [|done]. split; [|done].
  apply (keeps_look _). intros v3 [] Hv3 _. destruct (_ || _) eqn:Em; [done|]. apply orb_false_iff in Em as [Hkind Hctx].
  apply negb_false_iff, bool_decide_eq_true in Hkind.
  destruct (is_activation (record row) && bool_decide (dashboard = None)) eqn:Eact; [done|]. split; [|done].
  apply (keeps_look _). intros v4 [] Hv4 (w4 & d4 & Hin4 & Hpol). eapply (keeps_optional _ _ _ _ _ false (λ _, True)).
  { destruct (is_bound_mail _ _); [right; eexists; by split|by left]. }
  intros v5 Hv5 _. split; [|done].
  apply (keeps_look _). intros v6 [] Hv6 _. split; [|done]. apply (keeps_look _). intros v7 [] Hv7 _. split; [|done].
  assert (onwards v4 v7) as Hv47 by (trans v5; [done|by trans v6]).
  assert (onwards v2 v7) as Hv27 by (trans v3; [done|by trans v4]). assert (onwards v1 v7) as Hv17 by (by trans v2).
  apply keeps_moves_last. intros w d Hd Hev.
  assert (evolves d1 d) as Hdd by (etrans; [exact Hrow|]; etrans; [apply Hv17|exact Hev]).
  match goal with |- context [resolve_tx ?x id e kind st ?by_ ans w d] =>
    pose proof (resolve_moves x id e kind st by_ ans w d Hd) as Hm; destruct (resolve_tx x id e kind st by_ ans w d) as [d' r] eqn:Etx end.
  destruct Hm as [Hm Ht]. split.
  { eapply moves_weaken; [|exact Hm]. cbn. intros key (-> & Hst & ->). split; [by apply Ha|by exists tt]. }
  destruct r as [[]|]; [|apply lenient]. cbn [replied]. eapply Hp; [by trans v1|done|eapply decides_weaken; [|by apply Ht]|by intros ctx ->].
  intros r ans' Hr' Hpend (-> & Hk & Hb). destruct (same_card _ _ _ _ _ _ Hdd Hr Hr' Hpend Eb) as (_ & Hpay & Hact & _).
  split; [done|]. split; [done|]. exists e. split; [done|]. split.
  { exists w4, d4. split; [by apply Hv47|]. destruct (policy w4 (actor_principal e)) as [p|]; [|done].
    destruct (ustr_eqb p (policy_revision e)) eqn:Ep; [|done]. by apply bool_decide_eq_true_1 in Ep as ->. }
  intros ->. rewrite bool_decide_true in Hctx, Eact by done. cbn in Hctx. apply negb_false_iff, bool_decide_eq_true in Hctx.
  rewrite andb_true_r in Eact. split; [done|]. split; [by rewrite Hact|]. intros Hg. exists (record row). split; [congruence|]. split; [done|].
  eapply witnessed_on; [exact Hv27|]. rewrite Hpay in Hg. destruct (Hmail Hg) as (w0 & d0 & ? & ?). exists w0, d0. auto.
Qed.

Lemma keeps_decide_bound c j v id context approve :
  keeps (c, DecideBound id context approve) j v (decide_bound c id context approve).
Proof.
  apply (keeps_resolve _); [|by destruct approve]. intros by_ v' w d d' _ _ Hdec _. exists by_. eapply decides_weaken; [|exact Hdec].
  intros r ans Hr _ (_ & Hk & e & He & Hpol & Hc). split; [done|]. exists e. split; [done|]. destruct (Hc eq_refl) as (? & ? & ?). by split_and!.
Qed.

Lemma keeps_decide_bound_dashboard c j v id ctx approve :
  keeps (c, DecideBoundDashboard id ctx approve) j v (decide_bound_dashboard c id ctx approve).
Proof.
  unfold decide_bound_dashboard. apply (keeps_get_or _). intros v1 w1 d1 row Hv1 _ Hrow Hr. split; [|done].
  apply (keeps_look _). intros v2 [] Hv2 Hrole.
  destruct (binding (record row)) as [e|] eqn:Eb; [|done].
  split; [|unfold resolve_bound; apply waits_give; intros ?; apply waits_give; by intros ?].
  apply (keeps_resolve _); [|by destruct approve]. intros by_ v' w d d' Hv' Hev Hdec Hby. rewrite (Hby ctx eq_refl) in Hdec.
  eapply decides_weaken; [|exact Hdec].
  intros r ans Hr' Hp (_ & Hk & e' & He & Hpol & _). split; [done|]. exists e'. split; [done|]. split; [|done].
  assert (evolves d1 d) as Hdd by (etrans; [exact Hrow|]; etrans; [apply Hv2|]; etrans; [apply Hv'|exact Hev]).
  destruct (same_card _ _ _ _ _ _ Hdd Hr Hr' Hp Eb) as (_ & Ht & Hact & _). unfold dashboard_role. rewrite Hact, Ht.
  by eapply witnessed_on.
Qed.

Lemma keeps_answer c j v id context ans :
  keeps (c, AnswerQuestion id context ans) j v (answer_question c id context ans).
Proof.
  unfold answer_question. destruct ans as [| | |text| |]; try done. destruct (_ || _); [done|].
  apply (keeps_get_or _). intros v1 w1 d1 row Hv1 _ Hrow Hr.
  set (options := JsonValue.get _ _ ≫= as_array).
  assert ((∀ l, options = Some l → existsb (value_eqb (VString text)) l = true) →
    keeps (c, AnswerQuestion id context (VString text)) j v1 (resolve_bound c id context KindQuestion Answered (Some (VString text)) None)
    ∧ waits (resolve_bound c id context KindQuestion Answered (Some (VString text)) None)) as Hres.
  { intros Ho. split; [|unfold resolve_bound; apply waits_give; intros ?; apply waits_give; by intros ?].
    apply (keeps_resolve _); [|done]. intros by_ v' w d d' Hv' Hev Hdec _. exists by_. eapply decides_weaken; [|exact Hdec].
    intros r given Hr' Hp (-> & Hk & e & He & Hpol & Hc). destruct (Hc eq_refl) as (? & _ & ?).
    split; [done|]. split; [done|]. split; [by exists e|]. split; [done|].
    assert (evolves d1 d) as Hdd by (etrans; [exact Hrow|]; etrans; [apply Hv'|exact Hev]).
    pose proof (row_since _ _ _ _ _ Hdd Hr Hr') as Hrev.
    assert (binding (record row) = Some e) as Hb by (by rewrite <- (ev_binding _ _ Hrev)).
    destruct (same_card _ _ _ _ _ _ Hdd Hr Hr' Hp Hb) as (_ & Ht & _ & _). by rewrite Ht. }
  destruct options as [l|] eqn:El; [|by apply Hres].
  destruct (_ || _) eqn:E; [done|]. apply Hres. intros l' [= <-]. by apply orb_false_iff in E as [_ E%negb_false_iff].
Qed.

Lemma keeps_batch c j v session turn l by_ : keeps (c, DecideBatch session turn l by_) j v (decide_ag_ui_batch c session turn l by_).
Proof.
  unfold decide_ag_ui_batch. destruct (_ || _); [done|]. destruct (distinct_ids l) eqn:Ed; [|done]. apply keeps_moves_last. intros w d Hd _.
  pose proof (batch_moves (expected_digest c) session turn by_ l w d Hd Ed) as Hm.
  destruct (decide_batch_tx _ _ _ _ _ _ _) as [d' r] eqn:Etx. destruct Hm as [Hm Ht]. split.
  - eapply moves_weaken; [|exact Hm]. cbn. intros key (-> & ?). split; [done|by exists tt].
  - destruct r as [[]|]; [by apply Ht|by apply batch_fails in Etx].
Qed.

Lemma keeps_withdraw c v id by_ : keeps (c, Withdraw id by_) Changed v (withdraw c id by_).
Proof.
  apply (keeps_after _); [apply calm_look|]. intros at_ v1. split; [|done]. apply keeps_moves_last. intros w d Hd _.
  pose proof (decide_moves (expected_digest c) id false by_ at_ w d Hd) as Hm. cbn [verdict] in Hm. destruct (decide_if_pending _ _ _ _ _ _ _) as [d' r].
  destruct Hm as [Hm Ht]. split; [eapply moves_weaken; [|exact Hm]; by intros key (_ & ? & _)|].
  destruct r as [[|]|]; [by apply Ht|done..].
Qed.

Lemma keeps_consume c v id reason : keeps (c, ConsumeApproved id reason) Changed v (consume_approved id reason).
Proof. eapply (keeps_tells _); [apply consume_row_tells|]. intros [|] h w d d' Hc; [by apply Hc|done]. Qed.

Lemma keeps_consume_grant c d0 id g row mail :
  approval_id (record row) = id → agent_id (record row) = grant_agent g →
  keeps (c, VerifyAndConsume id g) Consumed d0 (access (consume_grant_tx (record row) mail)).
Proof.
  intros Hid Hg. eapply (keeps_tells _); [apply consume_grant_tells|]. intros [refusal|] h w d d' Hc; [done|].
  destruct (Hc eq_refl) as (r & Hr & Hs & (Ha & ?) & ?). rewrite Hid in *. exists r. split; [done|]. split; [done|].
  split; [by rewrite Ha|done].
Qed.

Ltac refusal := split; [done|right; intros ? ? ? ? ? [= <-]; exact I].

Lemma keeps_verify c d0 id g : keeps (c, VerifyAndConsume id g) Consumed d0 (verify_and_consume id g).
Proof.
  unfold verify_and_consume. apply Interleave.keeps_bind; [apply lenient|]. apply Interleave.reads_access. intros w0 d1 Hd1 _. split; [by apply safe_get|].
  unfold get_record, statement. destruct (fault w0); [done|]. cbn. destruct (record_in d1 id) as [[r|]|] eqn:Er; [| |done].
  2: split; [done|by intros ? ? ? ? _ _ x [= <-]].
  apply record_in_row in Er as (row & Hr & <-). apply inv_keyed in Hr as [Hid _]; [|done].
  match goal with |- Interleave.keeps _ _ _ _ _ ?cc _ ?v ?p ∧ _ =>
    enough (keeps cc Consumed v p ∧ (waits p ∨ ∀ h w d d' x, p = Ret (Ok x) → promise cc (Ok (Consumed x)) h w d d')) as [? [?|Hp]];
      [split; [done|]; intros; by apply (waits_promised _)
      |split; [done|]; intros h w d d' _ _ [x|] Hx; [by eapply Hp|done]|] end.
  destruct (negb (bool_decide _)); [refusal|].
  destruct (negb (ustr_eqb _ _)) eqn:Ea; [refusal|].
  apply negb_false_iff, bool_decide_eq_true in Ea.
  destruct (JsonValue.get _ _) as [stored|]; [|refusal].
  destruct (negb (matches_stored _ _)); [refusal|].
  destruct (binding (record row)) as [e|]; [|split; [by apply keeps_consume_grant|by left]].
  destruct (is_bound_mail _ _); [|split; [by apply keeps_consume_grant|by left]]. split; [|by left].
  do 4 (apply (keeps_look _); intros ? [] _ _; split; [|done]). apply (keeps_look _). intros ? [] _ _. split; [by apply keeps_consume_grant|done].
Qed.

Lemma calm_context id e : calm (operation_context id e).
Proof. unfold operation_context, operation_payload. calm. apply safe_statement, safe_look. Qed.

Lemma keeps_claim c d0 id e owner lease_seconds : keeps (c, ClaimOperation id e owner lease_seconds) Claim d0 (claim_operation id e owner lease_seconds).
Proof.
  unfold claim_operation. destruct (_ || _); [done|]. apply (keeps_after _); [apply calm_context|]. intros _ v. split; [|done].
  eapply (keeps_tells _); [apply claim_tells|done].
Qed.

Lemma keeps_begin c j d0 claim e : keeps (c, BeginExecution claim e) j d0 (begin_execution claim e).
Proof.
  apply (keeps_after _); [apply calm_context|]. intros _ v. split; [|done]. eapply (keeps_tells _); [apply begin_tells|done].
Qed.

Lemma keeps_settle c j d0 claim s receipt error : keeps (c, SettleOperation claim s receipt error) j d0 (settle_operation claim s receipt error).
Proof.
  unfold settle_operation. destruct (negb _ || _) eqn:E; [done|]. eapply (keeps_tells _); [apply settle_tells|done].
  destruct s; cbn in *; try done; lia.
Qed.

(** Every call keeps its promise, whatever runs between its accesses. *)
Lemma keeps_program no_reminder rounds cc v : keeps cc id v (program no_reminder rounds cc).
Proof.
  destruct cc as [c []]; apply Interleave.keeps_reply;
    try (apply keeps_calm; [by intros []|]).
  - apply calm_request.
  - apply calm_request_bound.
  - apply calm_request_bound_keyed.
  - apply calm_record_fixture_decision.
  - apply calm_get.
  - apply calm_poll.
  - apply calm_await.
  - apply calm_list_pending.
  - unfold list_by_kind. calm. auto with approvals.
  - apply (keeps_decide_unbound _); [|by intros ->]. intros v' w d d' _ ? Hf. split; [done|by apply Hf].
  - unfold decide_egress_dashboard. apply (keeps_look _). intros v1 [] Hv1 Hrole. split; [|done].
    apply (keeps_decide_unbound _); [|by intros ->]. intros v' w d d' Hv' Hd _. split; [done|by eapply witnessed_on].
  - apply keeps_decide_bound.
  - apply keeps_decide_bound_dashboard.
  - apply keeps_answer.
  - apply keeps_batch.
  - apply keeps_withdraw.
  - unfold replace_text. calm. auto with approvals.
  - unfold invalidate_request. calm. auto with approvals.
  - apply keeps_consume.
  - apply keeps_verify.
  - unfold withdraw_turn. apply keeps_give. intros _ _. eapply (keeps_tells _); [apply withdraw_turn_tells|done].
  - unfold sweep_cancelled_turns. destruct safe_sweep as (? & ? & ?). calm; auto.
  - unfold records_for_turn. calm. auto with approvals.
  - calm. auto with approvals.
  - apply calm_prepare.
  - apply calm_prepare_granted.
  - apply keeps_claim.
  - apply keeps_begin.
  - apply keeps_settle.
  - unfold recover_operations. calm. auto with approvals.
  - unfold invalidate_live_on_restart. calm; auto with approvals.
  - unfold resolve_uncertain. calm. auto with approvals.
Qed.
End calls.
