(* ===== verification/ApprovalGuarantees.v ===== *)
(** * Guarantees of the approval broker

    Of any interleaving of calls, from an empty store: what every answer in
    the log shows. *)

From S2P Require Import Prelude.
From S2P Require Import Bytes.
From S2P Require Import Chars.
From S2P Require Import JsonValue.
From S2P Require Import Conditions.
From S2P Require Import AuditChain.
From S2P Require Import Interleave.
From S2P Require Import Approval.
From S2P Require Import ApprovalStore.
From S2P Require Import ApprovalTx.
From S2P Require Import ApprovalBroker.
From S2P Require Import ApprovalSafety.
From S2P Require Import ApprovalPromise.

(** The broker: its store, the calls that run, and their answers. *)
Abbreviation Broker := (System (W := World) (D := Db) (C := Caller * Call) (R := Reply)).

Section guarantees.
Context `{SerdeValue} `{Sha256} `{ApprovalCrates} `{RowOrder}.
Context (no_reminder : bytes → bool).

(** Any calls, from an empty store. *)
Definition happens (s : Broker) : Prop := reachable (program no_reminder) empty_db s.

Lemma empty_inv : db_inv empty_db.
Proof. by split. Qed.

Lemma promised_result s e : happens s → e ∈ log s → promise (call e) (reply e) (seen e) (world e) (before e) (after e).
Proof.
  intros Hs He. edestruct (Interleave.answered (program no_reminder) db_inv evolves promise approved cause) as (_ & Hp & _);
    [intros; apply keeps_program|apply empty_inv|exact Hs|exact He|exact Hp].
Qed.

Lemma promised_answer s e r :
  happens s → e ∈ log s → reply e = Ok r → promised_reply (call e) r (seen e) (world e) (before e) (after e).
Proof. intros Hs He Hr. pose proof (promised_result s e Hs He) as Hp. by rewrite Hr in Hp. Qed.

Lemma before_inv s e : happens s → e ∈ log s → db_inv (before e).
Proof.
  intros Hs He. edestruct (Interleave.answered (program no_reminder) db_inv evolves promise approved cause) as (? & _);
    [intros; apply keeps_program|apply empty_inv|exact Hs|exact He|done].
Qed.

Lemma entry_evolves s e : happens s → e ∈ log s → evolves (before e) (after e).
Proof.
  intros Hs He. edestruct (Interleave.answered (program no_reminder) db_inv evolves promise approved cause) as (_ & _ & Hev);
    [intros; apply keeps_program|apply empty_inv|exact Hs|exact He|exact Hev].
Qed.

Lemma log_order s i j e e' : happens s → log s !! i = Some e → log s !! j = Some e' → (i < j)%nat → evolves (after e) (before e').
Proof.
  intros Hs. eapply (Interleave.in_turn (program no_reminder) db_inv evolves promise approved cause); [intros; apply keeps_program|apply empty_inv|exact Hs].
Qed.

(** Who is approved was approved by an answer, and by an earlier one than an
    answer that finds it so. *)
Lemma approval_cause s i e id :
  happens s → log s !! i = Some e → approved id (before e) → ∃ j e', (j < i)%nat ∧ log s !! j = Some e' ∧ cause id e'.
Proof.
  intros Hs He Ha. edestruct (Interleave.caused_before (program no_reminder) db_inv evolves promise approved cause) as [Hx|Hx];
    [intros; apply keeps_program|apply empty_inv|exact Hs|exact He|exact Ha| |exact Hx].
  destruct Hx as (r & Hr & _). by cbn in Hr; rewrite lookup_empty in Hr.
Qed.

Lemma approved_cause s id : happens s → approved id (data s) → ∃ e, e ∈ log s ∧ cause id e.
Proof.
  intros Hs Ha. edestruct (Interleave.caused (program no_reminder) db_inv evolves promise approved cause) as [Hx|Hx];
    [intros; apply keeps_program|apply empty_inv|exact Hs|exact Ha| |exact Hx].
  destruct Hx as (r & Hr & _). by cbn in Hr; rewrite lookup_empty in Hr.
Qed.

(** An answer that spends what it found unspent is given once. *)
Lemma given_once s (mine : Entry → Prop) (spent : Db → Prop) i j e e' :
  happens s →
  (∀ e, e ∈ log s → mine e → ¬ spent (before e) ∧ spent (after e)) → (∀ d d', evolves d d' → spent d → spent d') →
  log s !! i = Some e → log s !! j = Some e' → mine e → mine e' → i = j.
Proof.
  intros Hs Hm Hsp He He' Hme Hme'.
  assert (∀ i j e e', (i < j)%nat → log s !! i = Some e → log s !! j = Some e' → mine e → mine e' → False) as Hlt.
  { clear -Hs Hm Hsp. intros i j e e' Hij He He' Hme Hme'. destruct (Hm e') as [Hb _]; [by eapply list_elem_of_lookup_2|done|].
    destruct (Hm e) as [_ Ha]; [by eapply list_elem_of_lookup_2|done|]. apply Hb. eapply Hsp; [eapply log_order; [exact Hs|exact He|exact He'|done]|done]. }
  destruct (Nat.lt_trichotomy i j) as [?|[?|?]]; [exfalso|done|exfalso]; eauto.
Qed.

(** ** Decisions *)

(** The answer says the call decided the request. *)
Definition decides_request (id : bytes) (e : Entry) : Prop :=
  match (call e).2, reply e with
  | (Decide i _ _ | DecideEgressDashboard i _ _ | DecideBound i _ _ | DecideBoundDashboard i _ _ | AnswerQuestion i _ _), Ok _ => i = id
  | Withdraw i _, Ok (Changed true) => i = id
  | _, _ => False
  end.

(** The request was pending, in time, and a turn it belongs to was live. *)
Definition decidable_request (id : bytes) (e : Entry) : Prop :=
  ∃ r, approvals (before e) !! id = Some r ∧ status (record r) = Pending ∧ is_stale (record r) (now (world e)) = false
    ∧ live_origin (before e) id r = true.

Definition decided_request (id : bytes) (d : Db) : Prop := ∃ r, approvals d !! id = Some r ∧ status (record r) ≠ Pending.

Lemma decides_spends id st by_ P w d d' :
  st ≠ Pending → decides id st by_ P w d d' →
  (∃ r, approvals d !! id = Some r ∧ status (record r) = Pending ∧ is_stale (record r) (now w) = false ∧ live_origin d id r = true)
  ∧ decided_request id d'.
Proof. intros Hst (r & at_ & ans & ? & ? & ? & ? & _ & _ & ?). split; [by exists r|]. by eexists. Qed.

Lemma request_decided s e id : happens s → e ∈ log s → decides_request id e → decidable_request id e ∧ decided_request id (after e).
Proof.
  intros Hs He Hd. unfold decides_request in Hd. destruct (reply e) as [r|] eqn:Er; [|by destruct (call e).2].
  pose proof (promised_answer s e r Hs He Er) as Hp. unfold promised_reply in Hp.
  destruct (call e).2; try done.
  - subst. eapply decides_spends; [|exact (proj1 Hp)]. by destruct approve.
  - subst. eapply decides_spends; [|exact (proj1 Hp)]. by destruct approve.
  - subst. destruct Hp as [by_ Hp]. eapply decides_spends; [|exact Hp]. by destruct approve.
  - subst. eapply decides_spends; [|exact Hp]. by destruct approve.
  - subst. destruct Hp as [by_ Hp]. eapply decides_spends; [|exact Hp]. done.
  - destruct r as [| | | |[]| | | | |]; try done. subst. eapply decides_spends; [|exact Hp]. done.
Qed.

Lemma decided_stays id d d' : evolves d d' → decided_request id d → decided_request id d'.
Proof.
  intros Hev (r & Hr & Hs). destruct (ev_rows _ _ Hev id r Hr) as (r' & ? & He). exists r'. split; [done|].
  destruct (ev_status _ _ He) as [?|[?|?]]; congruence.
Qed.

(** C4 However calls interleave, a request is decided at most once: when two
    answers in the log say a call decided it, they are the same answer.  That
    answer found it pending, before its deadline, and with a live turn. *)
Theorem decided_once s id i j e e' :
  happens s → log s !! i = Some e → log s !! j = Some e' → decides_request id e → decides_request id e' →
  i = j ∧ decidable_request id e.
Proof.
  intros Hs Hi Hj He He'. split; [|eapply request_decided; [done|by eapply list_elem_of_lookup_2|done]].
  apply (given_once s (decides_request id) (decided_request id) i j e e' Hs); [|apply decided_stays|done..].
  intros x Hx Hd. destruct (request_decided s x id Hs Hx Hd) as [(r & Hr & Hp & _) ?]. split; [|done].
  intros (r' & Hr' & ?). congruence.
Qed.

(** ** Who decides *)

(** A batch that decides the request: it names it, and found it pending. *)
Definition decides_in_batch (id : bytes) (e : Entry) : Prop :=
  match (call e).2, reply e with
  | DecideBatch _ _ l _, Ok _ =>
      (∃ x, x ∈ l ∧ approval_id x.1 = id) ∧ ∃ r, approvals (before e) !! id = Some r ∧ status (record r) = Pending
  | _, _ => False
  end.

Definition decides_anyhow (id : bytes) (e : Entry) : Prop := decides_request id e ∨ decides_in_batch id e.

(** The dashboard's user holds the role: in the session and, when it was looked
    up, in the user store too, unless that store has nobody and this is the
    system. *)
Definition holds_role (ctx : UserContext) (min : UserRole) (w : World) : Prop :=
  at_least (ctx_role ctx) min = true
  ∧ ((∃ listing user x, users w = UsersOpen listing user ∧ user (ctx_user ctx) = Ok (Some x)
        ∧ user_active x = true ∧ at_least (user_role x) min = true)
     ∨ ctx_user ctx = b "system" ∧ (users w = UsersAbsent false ∨ ∃ user, users w = UsersOpen (Ok true) user)).

Lemma role_held ctx min w : require_current_dashboard_role ctx min w = Ok tt → holds_role ctx min w.
Proof.
  unfold require_current_dashboard_role, holds_role. destruct (at_least (ctx_role ctx) min); [|done]. cbn [negb].
  assert (∀ user : bytes → result (option User) bytes,
    match user (ctx_user ctx) with
    | Ok (Some x) => if negb (user_active x) || negb (at_least (user_role x) min) then Err (b "decision authority revoked") else Ok tt
    | Ok None => Err (b "decision principal unavailable")
    | Err _ => Err (b "identity lookup failed")
    end = Ok tt →
    ∃ x, user (ctx_user ctx) = Ok (Some x) ∧ user_active x = true ∧ at_least (user_role x) min = true) as Hknown.
  { intros user. destruct (user (ctx_user ctx)) as [[x|]|]; [|done..]. intros Hx. exists x. split; [done|].
    by destruct (user_active x), (at_least (user_role x) min). }
  intros Hx. split; [done|]. destruct (users w) as [e|exists_|listing user]; [done| |].
  - right. destruct exists_; [done|]. destruct (ustr_eqb _ _) eqn:Es; [|done]. apply bool_decide_eq_true_1 in Es. by split; [|left].
  - destruct (ustr_eqb _ _) eqn:Es.
    + destruct listing as [[|]|]; [right|left|done].
      * apply bool_decide_eq_true_1 in Es. split; [done|right; by exists user].
      * apply Hknown in Hx as (x & ? & ? & ?). by exists (Ok false), user, x.
    + left. apply Hknown in Hx as (x & ? & ? & ?). by exists listing, user, x.
Qed.

Lemma witnessed_role h ctx min :
  witnessed h (λ w, require_current_dashboard_role ctx min w = Ok tt) → witnessed h (holds_role ctx min).
Proof. intros (w & d & ? & ?%role_held). by exists w, d. Qed.

Definition entitled (id : bytes) (e : Entry) (r : ApprovalRecord) : Prop :=
  match (call e).2 with
  | Decide _ _ _ =>
      binding r = None ∧ request_kind r = KindApproval ∧ found (seen e) id (λ r0, egress_guarded (payload r0) = false)
  | DecideEgressDashboard _ ctx _ =>
      binding r = None ∧ request_kind r = KindApproval ∧ witnessed (seen e) (holds_role ctx Admin)
  | DecideBound _ context _ =>
      request_kind r = KindApproval ∧ is_activation r = false ∧ mail_allowed (seen e) r
      ∧ ∃ x, binding r = Some x ∧ decision_context x = context ∧ policy_current (seen e) x
  | DecideBoundDashboard _ ctx _ =>
      request_kind r = KindApproval ∧ witnessed (seen e) (holds_role ctx (dashboard_role r))
      ∧ ∃ x, binding r = Some x ∧ policy_current (seen e) x
  | AnswerQuestion _ context ans =>
      request_kind r = KindQuestion ∧ mail_allowed (seen e) r
      ∧ (∃ x, binding r = Some x ∧ decision_context x = context ∧ policy_current (seen e) x)
      ∧ ∀ options, JsonValue.get (payload r) (b "options") ≫= as_array = Some options → existsb (value_eqb ans) options = true
  | DecideBatch session turn _ _ =>
      binding r = None ∧ request_kind r = KindApproval ∧ (action_kind r = b "mcp_call" ∨ action_kind r = b "mcp_install")
      ∧ egress_guarded (payload r) = false ∧ dashboard_only (world e) r = false
      ∧ (id, session, turn) ∈ origins (before e) ∧ is_cancelled (before e) session turn = false
  | Withdraw _ _ => ∃ r', approvals (after e) !! id = Some r' ∧ status (record r') = Denied
  | _ => False
  end.

Lemma batch_entitled s e id :
  happens s → e ∈ log s → decides_in_batch id e →
  ∃ r, approvals (before e) !! id = Some r ∧ status (record r) = Pending ∧ entitled id e (record r).
Proof.
  intros Hs He Hd. unfold decides_in_batch in Hd. destruct (reply e) as [r|] eqn:Er; [|by destruct (call e).2].
  pose proof (promised_answer s e r Hs He Er) as Hp. unfold promised_reply in Hp. unfold entitled. destruct (call e).2; try done.
  destruct Hd as [(x & Hx & <-) (row & Hrow & Hpend)], Hp as [Hp _]. exists row. split; [done|]. split; [done|].
  rewrite list.Forall_forall in Hp. destruct (Hp x Hx) as (r0 & r' & Hr0 & _ & Hl & Hst & Hdec). rewrite Hrow in Hr0. injection Hr0 as <-.
  unfold turn_live in Hl. repeat (apply andb_true_iff in Hl as [Hl ?]). apply negb_true_iff in H3. apply bool_decide_eq_true in H4.
  destruct Hdec as [(_ & Ha & _)|(-> & _)]; [|rewrite Hpend in Hst; by destruct x.2].
  unfold ag_ui_decidable in Ha. repeat (apply andb_true_iff in Ha as [Ha ?]).
  repeat match goal with
    | Hb : bool_decide _ = true |- _ => apply bool_decide_eq_true in Hb
    | Hb : negb _ = true |- _ => apply negb_true_iff in Hb
    | Hb : _ || _ = true |- _ => apply orb_true_iff in Hb
    | Hb : bool_decide (is_Some (binding _)) = false |- _ => apply bool_decide_eq_false, eq_None_not_Some in Hb
    end.
  split_and!; try done.
  repeat match goal with Hb : ustr_eqb _ _ = true ∨ ustr_eqb _ _ = true |- _ =>
    destruct Hb as [Hb%bool_decide_eq_true_1|Hb%bool_decide_eq_true_1]; [by left|by right] end.
Qed.

Lemma decider_entitled s e id :
  happens s → e ∈ log s → decides_anyhow id e →
  ∃ r, approvals (before e) !! id = Some r ∧ status (record r) = Pending ∧ entitled id e (record r).
Proof.
  intros Hs He [Hd|Hd]; [|by eapply batch_entitled].
  unfold decides_request in Hd. destruct (reply e) as [r|] eqn:Er; [|by destruct (call e).2].
  pose proof (promised_answer s e r Hs He Er) as Hp. unfold promised_reply in Hp. unfold entitled.
  destruct (call e).2; try done; subst.
  - destruct Hp as [(x & ? & ? & ? & ? & _ & _ & _ & [? ?] & _) ?]. by exists x.
  - destruct Hp as [(x & ? & ? & ? & ? & _ & _ & _ & [? ?] & _) ?%witnessed_role]. by exists x.
  - destruct Hp as (? & x & ? & ? & ? & ? & _ & _ & _ & (? & y & ? & ? & ? & ? & ?) & _). exists x. split_and!; try done. by exists y.
  - destruct Hp as (x & ? & ? & ? & ? & _ & _ & _ & (? & y & ? & ?%witnessed_role & ?) & _). exists x. split_and!; try done. by exists y.
  - destruct Hp as (? & x & ? & ? & ? & ? & _ & _ & _ & (_ & ? & ? & ? & ?) & _). exists x. by split_and!.
  - destruct r as [| | | |[]| | | | |]; try done. subst. destruct Hp as (x & ? & ? & ? & ? & _ & _ & _ & _ & ?). exists x.
    split_and!; try done. by eexists.
Qed.

(** An answer that approves a request decides it. *)
Lemma cause_decides s e id : happens s → e ∈ log s → cause id e → decides_anyhow id e.
Proof.
  intros Hs He (Ha & (r & Hr) & Hn & Hy). unfold decides_anyhow, decides_request, decides_in_batch. rewrite Hr. unfold approves in Ha.
  pose proof (promised_answer s e r Hs He Hr) as Hp. unfold promised_reply in Hp.
  destruct (call e).2; try done; try (destruct approve; [by left|done]).
  right. destruct Ha as (x & Hx & <-). split; [by exists (x, true)|]. destruct Hp as [Hp _]. rewrite list.Forall_forall in Hp.
  destruct (Hp _ Hx) as (r0 & r' & Hr0 & Hr' & _ & Hst & [(? & _)|(-> & _)]); [by exists r0|]. cbn [fst snd] in *.
  destruct Hn, Hy as (r'' & Hr'' & ? & ?). rewrite Hr' in Hr''. injection Hr'' as <-. by exists r0.
Qed.

(** C5 Whoever decides a request was entitled to that request as it stood.  A
    decision without identity is of a pending approval without binding whose
    data, as the call read it, is not outgoing data.  Outgoing data without
    binding takes a dashboard Admin.  A channel decides with the very identity
    the request is bound to, never an activation, and outgoing data only where
    the host let the request's mail go; an answer is, besides, one of the
    options.  A dashboard decides activations and outgoing data as an Admin and
    other bound requests as a Manager, and that role was looked up in the user
    store during the call (an empty or absent store makes the system user one).
    A bound request was decided when the agent's policy was that of its
    binding.  A batch decides calls and installations of tools that are
    neither bound nor outgoing data nor reserved to the dashboard, of a turn
    that is theirs and not cancelled.  A withdrawal denies.  And nothing else
    approves: a request that stands approved, the script of a fixture run
    apart, was approved by such an answer. *)
Theorem decided_by_entitled s :
  happens s →
  (∀ e id, e ∈ log s → decides_anyhow id e →
     ∃ r, approvals (before e) !! id = Some r ∧ status (record r) = Pending ∧ entitled id e (record r))
  ∧ (∀ id, approved id (data s) → ∃ e, e ∈ log s ∧ decides_anyhow id e ∧ approves (call e) id).
Proof.
  intros Hs. split; [intros e id; by apply decider_entitled|]. intros id (e & He & Hc)%approved_cause; [|done].
  exists e. split; [done|]. split; [by eapply cause_decides|apply Hc].
Qed.

(** ** Approvals are used once *)

Definition uses_approval (id : bytes) (e : Entry) : Prop :=
  match (call e).2, reply e with
  | VerifyAndConsume i _, Ok (Consumed None) => i = id
  | ConsumeApproved i _, Ok (Changed true) => i = id
  | _, _ => False
  end.

Definition invalid_request (id : bytes) (d : Db) : Prop := ∃ r, approvals d !! id = Some r ∧ status (record r) = Invalidated.

Definition approved_request (id : bytes) (d : Db) : Prop := ∃ r, approvals d !! id = Some r ∧ status (record r) = Approved.

Lemma approval_used s e id : happens s → e ∈ log s → uses_approval id e → approved_request id (before e) ∧ invalid_request id (after e).
Proof.
  intros Hs He Hd. unfold uses_approval in Hd. destruct (reply e) as [r|] eqn:Er; [|by destruct (call e).2].
  pose proof (promised_answer s e r Hs He Er) as Hp. unfold promised_reply in Hp.
  assert (∀ reason P, consumes id reason P (before e) (after e) → approved_request id (before e) ∧ invalid_request id (after e)) as Hc
    by (intros reason P (x & ? & ? & _ & ?); split; by eexists).
  destruct (call e).2; try done; destruct r as [| | | |[]| | | |[]|]; try done; subst; by eapply Hc.
Qed.

(** C7 An approval is used once, and only while it stands: of two answers in
    the log that consumed the same approved request, by its grant or by hand,
    both are the same answer, and it found the request approved. *)
Theorem approval_used_once s id i j e e' :
  happens s → log s !! i = Some e → log s !! j = Some e' → uses_approval id e → uses_approval id e' →
  i = j ∧ approved_request id (before e).
Proof.
  intros Hs Hi Hj He He'. split; [|eapply approval_used; [done|by eapply list_elem_of_lookup_2|done]].
  apply (given_once s (uses_approval id) (invalid_request id) i j e e' Hs); [| |done..].
  - intros x Hx Hd. destruct (approval_used s x id Hs Hx Hd) as [(r & Hr & Hp) ?]. split; [|done]. intros (r' & Hr' & ?). congruence.
  - intros d d' Hev (r & Hr & Hst). destruct (ev_rows _ _ Hev id r Hr) as (r' & ? & He''). exists r'. split; [done|]. by eapply invalidated_stays.
Qed.

(** ** Operations *)

Definition begins_operation (c : OperationClaim) (binding : ExecutionBinding) (e : Entry) : Prop :=
  (call e).2 = BeginExecution c binding ∧ ∃ r, reply e = Ok r.

Definition begins_step (run step : bytes) (e : Entry) : Prop :=
  ∃ c binding o, begins_operation c binding e ∧ operations (before e) !! claim_operation_id c = Some o ∧ op_run o = run ∧ op_step o = step.

Definition started (run step : bytes) (d : Db) : Prop :=
  ∃ id o, operations d !! id = Some o ∧ op_run o = run ∧ op_step o = step ∧ (1 ≤ rank (op_state o))%nat.

Lemma begun s e c binding : happens s → e ∈ log s → begins_operation c binding e → begins c binding (world e) (before e) (after e).
Proof.
  intros Hs He [Hc [r Hr]]. pose proof (promised_answer s e r Hs He Hr) as Hp. unfold promised_reply in Hp. by rewrite Hc in Hp.
Qed.

Lemma step_begun s e run step : happens s → e ∈ log s → begins_step run step e → ¬ started run step (before e) ∧ started run step (after e).
Proof.
  intros Hs He (c & x & o & Hb & Ho & Hr & Hst). destruct (begun s e c x Hs He Hb) as (o' & Ho' & Hp & _ & _ & _ & _ & Ha).
  rewrite Ho in Ho'. injection Ho' as <-. split.
  - intros (id & o' & Ho' & ? & ? & Hrank). assert (id = claim_operation_id c) as -> by (eapply inv_steps; [by eapply before_inv|done|done|congruence..]).
    rewrite Ho in Ho'. injection Ho' as <-. rewrite Hp in Hrank. cbn in Hrank. lia.
  - eexists _, _. split; [exact Ha|]. by repeat (split; [done|]).
Qed.

(** C6 A step of a run starts once: two answers in the log that began the
    operation of the same step of the same run are the same answer, whoever
    claimed it and however often the step was prepared. *)
Theorem step_begins_once s run step i j e e' :
  happens s → log s !! i = Some e → log s !! j = Some e' → begins_step run step e → begins_step run step e' → i = j.
Proof.
  intros Hs Hi Hj He He'.
  apply (given_once s (begins_step run step) (started run step) i j e e' Hs); [by intros; apply step_begun with s| |done..].
  intros d d' Hev (id & o & Ho & ? & ? & Hrank). destruct (ev_ops _ _ Hev id o Ho) as (o' & ? & [? ? ? ? ? ? ?]).
  exists id, o'. split; [done|]. do 2 (split; [congruence|]). lia.
Qed.

(** The human approval an operation rests on. *)
Definition rests_on (approval : bytes) (c : OperationClaim) (e : Entry) : Prop :=
  ∃ o, operations (before e) !! claim_operation_id c = Some o ∧ op_authority o = BoundHumanApproval approval.

(** The approval is in force for what is executed. *)
Definition stands_for (approval : bytes) (binding : ExecutionBinding) (c : OperationClaim) (e : Entry) : Prop :=
  ∃ r o, approvals (before e) !! approval = Some r ∧ operations (before e) !! claim_operation_id c = Some o
    ∧ status (record r) = Approved ∧ request_kind (record r) = KindApproval ∧ Approval.binding (record r) = Some binding
    ∧ sql_before (now_text (world e)) (expires_at binding) = true
    ∧ sql_within (now_text (world e)) (created_at (record r)) (ttl_seconds (record r)) = true
    ∧ op_run o = run_id binding ∧ payload_hash (op_payload o) = payload_hash (payload (record r)).

Lemma human_authority w d o e approval :
  op_authority o = BoundHumanApproval approval → check_operation_authority w d o e = Ok tt →
  ∃ r, approvals d !! approval = Some r ∧ status (record r) = Approved ∧ request_kind (record r) = KindApproval
    ∧ Approval.binding (record r) = Some e ∧ sql_before (now_text w) (expires_at e) = true
    ∧ sql_within (now_text w) (created_at (record r)) (ttl_seconds (record r)) = true
    ∧ (action_kind (record r) = FIXTURE_DECISION_KIND → is_workflow e = true → run_authority w (run_id e) = Ok RunFixture).
Proof.
  intros Ha Hc. unfold check_operation_authority in Hc. rewrite Ha in Hc.
  match type of Hc with match ?x with _ => _ end = _ => destruct x as [[]|]; [|done] end.
  destruct (is_empty approval); [done|]. destruct (approval_in_force w d approval e) eqn:Ef; [|done]. cbn [negb] in Hc.
  unfold approval_in_force in Ef. destruct (approvals d !! approval) as [r|]; [|done].
  apply andb_true_iff in Ef as [[[[Hk%bool_decide_eq_true Hs%bool_decide_eq_true]%andb_true_iff Hb%bool_decide_eq_true]%andb_true_iff ?]%andb_true_iff ?].
  exists r. do 6 (split; [done|]). intros Hf Hw. rewrite Hw in Hc. cbn [negb] in Hc.
  destruct (run_authority w (run_id e)) as [[a g| |]|]; try done. rewrite Hf in Hc. by rewrite ustr_eqb_refl in Hc.
Qed.

(** The answer by which somebody entitled approved the request, when it was
    pending and bound as it is. *)
Definition approved_by (approval : bytes) (binding : ExecutionBinding) (e : Entry) : Prop :=
  approves (call e) approval ∧ (∃ r, reply e = Ok r)
  ∧ ∃ r, approvals (before e) !! approval = Some r ∧ status (record r) = Pending ∧ Approval.binding (record r) = Some binding
         ∧ entitled approval e (record r).

(** The request is the scripted decision of a fixture's run. *)
Definition scripted_by_fixture (approval : bytes) (binding : ExecutionBinding) (e : Entry) : Prop :=
  run_authority (world e) (run_id binding) = Ok RunFixture
  ∧ ∃ r, approvals (before e) !! approval = Some r ∧ action_kind (record r) = FIXTURE_DECISION_KIND ∧ is_workflow binding = true.

(** C3 Nothing runs on a human approval that is not one: when an execution
    that rests on a request has begun, that request stood approved, in time,
    for exactly this binding, and the payload executed has the hash of the
    payload approved; and earlier in the log is the answer by which a call
    approved it that was entitled to ([entitled]: since the request is bound,
    the very identity it is bound to, or a dashboard user whose role was looked
    up).  The exception is a request that is itself a fixture's scripted
    decision, while its run is still a fixture's when the execution begins. *)
Theorem execution_was_approved s i e c binding approval :
  happens s → log s !! i = Some e → begins_operation c binding e → rests_on approval c e →
  stands_for approval binding c e
  ∧ ((∃ j e', (j < i)%nat ∧ log s !! j = Some e' ∧ approved_by approval binding e') ∨ scripted_by_fixture approval binding e).
Proof.
  intros Hs Hi Hb (o & Ho & Ha). pose proof (list_elem_of_lookup_2 _ _ _ Hi) as He.
  destruct (begun s e c binding Hs He Hb) as (o' & Ho' & _ & Hbind & _ & _ & Hc & _).
  rewrite Ho in Ho'. injection Ho' as <-. pose proof (before_inv s e Hs He) as [Hk Hp _].
  destruct (human_authority _ _ _ _ _ Ha Hc) as (r & Hr & Hst & Hkind & Hrb & ? & ? & Hfix).
  destruct (Hp _ _ Ho) as [Hrun Hhash]. destruct (Hk _ _ Hr) as [_ Hbound]. destruct (Hbound _ Hrb) as [Hrh Hfw]. split.
  - exists r, o. do 7 (split; [done|]). split; [congruence|]. rewrite <- Hhash, Hbind. apply Hrh. congruence.
  - destruct (decide (action_kind (record r) = FIXTURE_DECISION_KIND)) as [Hf|Hf]; [right; split; [auto|exists r; auto]|left].
    destruct (approval_cause s i e approval Hs Hi) as (j & e' & Hj & He' & Hcause); [by exists r|].
    exists j, e'. split; [done|]. split; [done|]. pose proof (list_elem_of_lookup_2 _ _ _ He') as Hin.
    destruct (decider_entitled s e' approval Hs Hin (cause_decides _ _ _ Hs Hin Hcause)) as (r' & Hr' & Hpend & Hent).
    split; [apply Hcause|]. split; [apply Hcause|]. exists r'. split; [done|]. split; [done|]. split; [|done].
    assert (evolves (before e') (before e)) as Hev.
    { trans (after e'); [by eapply entry_evolves|by eapply log_order]. }
    by rewrite <- (ev_binding _ _ (row_since _ _ _ _ _ Hev Hr' Hr)).
Qed.

(** ** Claims *)

Definition claims_operation (c : OperationClaim) (e : Entry) : Prop := reply e = Ok (Claim c).

(** The answer acts under the claim. *)
Definition acts_under (c : OperationClaim) (e : Entry) : Prop :=
  (∃ r, reply e = Ok r) ∧ ((∃ binding, (call e).2 = BeginExecution c binding) ∨ ∃ st receipt error, (call e).2 = SettleOperation c st receipt error).

Definition fence_at_least (id : bytes) (fence : Z) (d : Db) : Prop := ∃ o, operations d !! id = Some o ∧ fence ≤ op_fence o.

Lemma claimed s e c :
  happens s → e ∈ log s → claims_operation c e →
  match (call e).2 with
  | ClaimOperation _ _ _ _ =>
      fence_at_least (claim_operation_id c) (claim_fence c) (after e)
      ∧ ∃ o, operations (before e) !! claim_operation_id c = Some o ∧ op_state o = Prepared ∧ claim_fence c = op_fence o + 1
  | _ => True
  end.
Proof.
  intros Hs He Hc. pose proof (promised_answer s e _ Hs He Hc) as Hp. unfold promised_reply in Hp. destruct (call e).2; try done.
  destruct Hp as (o & Ho & ? & _ & _ & _ & _ & -> & _ & ? & Ha). split; [|by exists o]. eexists. split; [exact Ha|]. cbn. lia.
Qed.

Lemma acted s e c :
  happens s → e ∈ log s → acts_under c e → ∃ o, operations (before e) !! claim_operation_id c = Some o ∧ op_fence o = claim_fence c.
Proof.
  intros Hs He [[r Hr] Hc]. pose proof (promised_answer s e r Hs He Hr) as Hp. unfold promised_reply in Hp.
  assert (∀ o, holds_lease c (seconds_now (world e)) o = true → op_fence o = claim_fence c) as Hl.
  { intros o Hl. unfold holds_lease in Hl. destruct (op_lease o); [|done]. apply andb_true_iff in Hl as [[[_ ?%Z.eqb_eq]%andb_true_iff _]%andb_true_iff _]. done. }
  destruct Hc as [[x Hc]|(st & receipt & error & Hc)]; rewrite Hc in Hp.
  - destruct Hp as (o & ? & _ & _ & ? & _). eauto.
  - destruct Hp as (o & _ & ? & _ & ? & _). eauto.
Qed.

Lemma fence_stays id fence d d' : evolves d d' → fence_at_least id fence d → fence_at_least id fence d'.
Proof. intros Hev (o & Ho & ?). destruct (ev_ops _ _ Hev id o Ho) as (o' & ? & [? ? ? ? ? ? ?]). exists o'. split; [done|]. lia. Qed.

(** C8 Only the latest claim acts: when an operation was claimed and later in
    the log somebody began or settled it, or claimed it, then under a claim
    whose fence is no older than the first, and newer for a claim.  So whoever
    lost the lease to a later claim can neither start nor settle the work. *)
Theorem latest_claim_acts s i j e e' id binding owner lease_seconds c c' :
  happens s → log s !! i = Some e → log s !! j = Some e' → (i < j)%nat →
  (call e).2 = ClaimOperation id binding owner lease_seconds → claims_operation c e → claim_operation_id c' = claim_operation_id c →
  (acts_under c' e' → claim_fence c ≤ claim_fence c')
  ∧ (∀ b' o' l', (call e').2 = ClaimOperation id b' o' l' → claims_operation c' e' → claim_fence c < claim_fence c').
Proof.
  intros Hs Hi Hj Hij Hcall Hc Hid.
  pose proof (claimed s e c Hs (list_elem_of_lookup_2 _ _ _ Hi) Hc) as Hcl. rewrite Hcall in Hcl. destruct Hcl as [Hf _].
  apply (fence_stays _ _ _ _ (log_order _ _ _ _ _ Hs Hi Hj Hij)) in Hf as (o & Ho & ?). rewrite <- Hid in Ho. split.
  - intros Ha. destruct (acted s e' c' Hs (list_elem_of_lookup_2 _ _ _ Hj) Ha) as (o' & Ho' & <-). rewrite Ho in Ho'. by injection Ho' as <-.
  - intros b' p' l' Hcall' Hc'. pose proof (claimed s e' c' Hs (list_elem_of_lookup_2 _ _ _ Hj) Hc') as Hcl. rewrite Hcall' in Hcl.
    destruct Hcl as (_ & o' & Ho' & _ & ?). rewrite Ho in Ho'. injection Ho' as <-. lia.
Qed.

(** ** Turns *)

Lemma nothing_pending d session turn id r :
  turn_pending d session turn = false → (id, session, turn) ∈ origins d → approvals d !! id = Some r → status (record r) ≠ Pending.
Proof.
  intros Ht Ho Hr Hp. apply not_true_iff_false in Ht. apply Ht. unfold turn_pending. apply existsb_exists. exists (id, session, turn).
  split; [by apply list_elem_of_In, elem_of_elements|]. rewrite !ustr_eqb_refl, Hr. by apply bool_decide_eq_true.
Qed.

(** C15 A batch decides the whole turn or nothing: when the answer says it was
    decided, each request named in it belonged to that turn, which was live,
    and stands as the batch says, by this decision where the request could be
    decided this way or by an earlier lawful one; and no request of the turn,
    named or not, is pending any more.  When the answer is an error, the store
    is as it was before, whichever request of the batch was at fault. *)
Theorem batch_decides_turn s e session turn l by_ :
  happens s → e ∈ log s → (call e).2 = DecideBatch session turn l by_ →
  match reply e with
  | Ok _ =>
      Forall (batch_decides session turn by_ (world e) (before e) (after e)) l
      ∧ ∀ id row, (id, session, turn) ∈ origins (after e) → approvals (after e) !! id = Some row → status (record row) ≠ Pending
  | Err _ => after e = before e
  end.
Proof.
  intros Hs He Hc. pose proof (promised_result s e Hs He) as Hp. destruct (reply e) as [r|x]; cbn in Hp; unfold promised_reply in Hp; rewrite Hc in Hp.
  - destruct Hp as [Hl Ht]. split; [done|]. intros id row. by apply nothing_pending.
  - done.
Qed.

(** C16 A withdrawn turn decides nothing: once the answer says a turn is
    withdrawn, a request of that turn that stood in the store is decided later
    only when another turn it belongs to was live at the withdrawal. *)
Theorem withdrawn_turn_decides_nothing s i j e e' session turn who r id row :
  happens s → log s !! i = Some e → log s !! j = Some e' → (i < j)%nat →
  (call e).2 = WithdrawTurn session turn who → reply e = Ok r → decides_request id e' →
  approvals (after e) !! id = Some row → is_Some (origin_session row) → (id, session, turn) ∈ origins (after e) →
  live_origins (after e) id ≠ [].
Proof.
  intros Hs Hi Hj Hij Hc Hr Hd Hrow Ho Hin. pose proof (promised_answer s e r Hs (list_elem_of_lookup_2 _ _ _ Hi) Hr) as Hp.
  unfold promised_reply in Hp. rewrite Hc in Hp. destruct Hp as [_ Hover].
  destruct (request_decided s e' id Hs (list_elem_of_lookup_2 _ _ _ Hj) Hd) as [(row' & Hrow' & Hpend & _) _].
  pose proof (row_since _ _ _ _ _ (log_order _ _ _ _ _ Hs Hi Hj Hij) Hrow Hrow') as Hev.
  apply (Hover id row); [done| |done..]. destruct (ev_status _ _ Hev) as [?|[?|?]]; congruence.
Qed.

(** ** Waiting ends *)

Lemma run_among_get_or {A} env i e id (k : ApprovalRecord → TaskOf A) :
  run_among env i (get_or e id ≫= k) =
    match (get_record id (env i).1 (env i).2).2 with
    | Ok (Some r) => run_among env (S i) (k r)
    | Ok None => (S i, Err e)
    | Err e => (S i, Err e)
    end.
Proof. unfold get_or, get. rewrite run_among_bind, run_among_access. by destruct (get_record _ _ _).2 as [[?|]|]. Qed.

Lemma poll_later env i id i' r : run_among env i (poll no_reminder id) = (i', Ok r) → (i + 2 ≤ i')%nat.
Proof.
  unfold poll, look. rewrite run_among_get_or. destruct (get_record id _ _).2 as [[x|]|]; [|done..]. rewrite run_among_look. intros Hx.
  match type of Hx with run_among ?env ?i ?m = _ => pose proof (run_among_later env i m) as Hl; rewrite Hx in Hl end. cbn in Hl. lia.
Qed.

(** How the loop ends: with a terminal status, or when its rounds are over,
    each of which took three accesses and found the deadline ahead. *)
Lemma await_loop_ends env id deadline rounds i i' r :
  run_among env i (await_loop rounds no_reminder id (Some deadline)) = (i', r) →
  match r with
  | Ok (Some st) => is_terminal st = true
  | Ok None => (i + 3 * rounds ≤ i')%nat ∧ ((0 < rounds)%nat → now (env (i' - 1)%nat).1 < deadline)
  | Err _ => True
  end.
Proof.
  revert i. induction rounds as [|rounds IH]; intros i; cbn [await_loop].
  - intros [= <- <-]. split; lia.
  - rewrite run_among_bind. destruct (run_among env i (poll no_reminder id)) as [i1 [st|e]] eqn:Ep; [|by intros [= _ <-]].
    apply poll_later in Ep. destruct (is_terminal st) eqn:Et; [by intros [= _ <-]|].
    unfold look. rewrite run_among_look. destruct (deadline <=? now (env i1).1) eqn:Eo.
    + unfold clock, look. rewrite run_among_look, run_among_access. destruct (decide_if_pending _ _ _ _ _ _ _).2; by intros [= _ <-].
    + intros Hx. specialize (IH _ Hx). destruct r as [[st'|]|]; [done| |done]. destruct IH as [Hi Hlast]. split; [lia|]. intros _.
      destruct rounds as [|rounds]; [|apply Hlast; lia]. cbn in Hx. injection Hx as <-. replace (S i1 - 1)%nat with i1 by lia. lia.
Qed.

(** The clock of the accesses of one wait: it does not run back, and in the
    rounds, after the first access, any six accesses have a sleep among them
    (a round has at most six). *)
Record ticks (interval : Z) (env : nat → World * Db) : Prop := {
  tick i : now (env i).1 ≤ now (env (S i)).1;
  sleeps i : (1 ≤ i)%nat → now (env i).1 + interval ≤ now (env (6 + i)%nat).1;
}.

Lemma ticks_later interval env i j : ticks interval env → (i ≤ j)%nat → now (env i).1 ≤ now (env j).1.
Proof. intros Ht. induction 1 as [|j _ IH]; [done|]. etrans; [exact IH|apply Ht]. Qed.

Lemma ticks_rounds interval env i n : ticks interval env → (1 ≤ i)%nat → now (env i).1 + Z.of_nat n * interval ≤ now (env (6 * n + i)%nat).1.
Proof.
  intros Ht Hi. induction n as [|n IH]; [cbn; lia|]. pose proof (sleeps _ _ Ht (6 * n + i) ltac:(lia)) as Hs.
  replace (6 * S n + i)%nat with (6 + (6 * n + i))%nat by lia. lia.
Qed.

(** C14 Nobody waits for ever: from the moment the request is found, whatever
    other tasks do to the store meanwhile, [await_decision] ends within two
    rounds per poll interval of the time to live that is left (and one more),
    with a status that is final or with an error of the store. *)
Theorem await_terminates interval env id r deadline rounds :
  0 < interval → ticks interval env →
  (get_record id (env 0%nat).1 (env 0%nat).2).2 = Ok (Some r) → record_expires_at r = Some deadline →
  deadline - now (env 0%nat).1 ≤ Z.of_nat rounds * interval →
  ∃ i a, run_among env 0 (await_decision (2 * rounds + 1) no_reminder id) = (i, a)
    ∧ match a with Ok st => ∃ x, st = Some x ∧ is_terminal x = true | Err _ => True end.
Proof.
  intros Hint Ht Hg Hd Hb. unfold await_decision. rewrite run_among_get_or, Hg, Hd. destruct (run_among env 1 _) as [i a] eqn:E. exists i, a. split; [done|].
  apply await_loop_ends in E. destruct a as [[st|]|]; [by exists st| |done]. exfalso. destruct E as [Hi Hlast].
  specialize (Hlast ltac:(lia)). pose proof (ticks_rounds _ _ 1 rounds Ht ltac:(lia)) as Hr.
  pose proof (ticks_later _ _ (6 * rounds + 1) (i - 1) Ht ltac:(lia)). pose proof (tick _ _ Ht 0). lia.
Qed.
End guarantees.

(** ** A concrete run *)

#[local] Existing Instances demo_values demo_sha.
#[local] Instance demo_rows : RowOrder := {| row_order _ l := l; row_order_perm _ l := Permutation_refl l |}.

(** Times are one character, its code the seconds; no text is a credential. *)
Definition demo_time (t : bytes) : Z := match t with [c] => Z.of_N c | _ => 0 end.
#[local] Instance demo_crates : ApprovalCrates := {|
  rfc3339_nanos t := match t with [c] => Some (secs (Z.of_N c)) | _ => None end;
  sql_before x y := demo_time x <? demo_time y;
  sql_within x y ttl := demo_time x <? demo_time y + ttl;
  sql_older x y h := demo_time x <? demo_time y - h * 3600;
  sql_newer x y h := demo_time y - h * 3600 <? demo_time x;
  strict_credential _ := Ok false;
  mask t := t;
  mask_json v := v;
  uuid_of_digest d := take 16 d;
|}.

Definition demo_context : DecisionContext :=
  {| channel := b "telegram"; account_id := b "bot"; conversation_id := b "chat"; principal_id := b "alice" |}.
Definition demo_payload : Value := str "transfer".
Definition demo_binding : ExecutionBinding :=
  {| schema_version := 1; run_id := b "run"; run_origin_kind := b "ingress"; actor_principal := b "agent";
     conversation_audience := Private; decision_context := demo_context; task_id := None; task_revision := None;
     task_snapshot_hash := None; bound_payload_hash := payload_hash demo_payload; policy_revision := b "p1"; cwd := None;
     environment_hash := b "env"; file_hashes := []; expires_at := b "z"; resume_handler := b "live_only_v1"; resume_version := 1 |}.

(** The world at a second, with the next fresh id. *)
Definition demo_world (t : N) (fresh : bytes) : World :=
  {| now := secs (Z.of_N t); now_text := [t]; fault := None; fresh_id := fresh; fresh_token := b "token";
     host := {| is_absolute _ := false; is_dir _ := false; read_file _ _ := None |};
     policy _ := Ok (b "p1"); task _ := None; run_authority _ := Ok RunUnclear; activation_revoked _ := false;
     granted _ _ _ _ := Err (b "no grant"); users := UsersAbsent true; mail_eligible _ := false;
     mail_environment _ _ := Err (b "no mail"); card_digest _ := []; dashboard_only _ := false; pushed := None |}.

Definition demo_caller : Caller := {| origin_source := b "test"; origin_pair := (None, None); works_for := None; expected_digest := None |}.
Definition demo_claim : OperationClaim :=
  {| claim_operation_id := b "op1"; claim_token := b "token"; claim_fence := 1; claim_owner := b "worker" |}.
Definition demo_calls : list (Call * World) :=
  [(RequestBound KindApproval (b "agent") (b "Transfer?") demo_payload demo_binding None, demo_world 10 (b "req1"));
   (PrepareOperation (b "req1") (b "step") None, demo_world 11 (b "op1"));
   (BeginExecution demo_claim demo_binding, demo_world 12 []);
   (DecideBound (b "req1") demo_context true, demo_world 13 []);
   (DecideBound (b "req1") demo_context false, demo_world 14 []);
   (ClaimOperation (b "op1") demo_binding (b "worker") 60, demo_world 15 []);
   (BeginExecution demo_claim demo_binding, demo_world 16 []);
   (ConsumeApproved (b "req1") (b "used"), demo_world 17 [])].

Definition demo_broker : Broker :=
  foldl (λ s x, run_call (program (λ _, false)) 0 1 (demo_caller, x.1) (replicate 12 x.2) s)
    {| data := empty_db; running := ∅; log := [] |} demo_calls.
Definition entry_at (s : Broker) (i : nat) : Entry :=
  default {| call := (demo_caller, RecoverOperations); reply := Ok Nothing; seen := []; world := demo_world 0 []; before := empty_db; after := empty_db |}
    (log s !! i).
Lemma logged (s : Broker) i : (i <? length (log s))%nat = true → log s !! i = Some (entry_at s i).
Proof. intros Hi%Nat.ltb_lt. unfold entry_at. by destruct (lookup_lt_is_Some_2 (log s) i Hi) as [x ->]. Qed.
Definition at_log : nat → Entry := entry_at demo_broker.

(** Not before the approval, and not decided again. *)
Example demo_replies :
  map (reply (W := World) (D := Db)) (log demo_broker)
  = [Ok (Id (b "req1")); Ok (Id (b "op1")); Err (b "human operation authority revoked or expired"); Ok Nothing;
     Err (b "request expired or decided concurrently"); Ok (Claim demo_claim); Ok Nothing; Ok (Changed true)].
Proof. vm_compute. reflexivity. Qed.

Lemma demo_happens : happens (λ _, false) demo_broker.
Proof.
  unfold demo_broker, demo_calls. cbn [foldl].
  repeat (apply reachable_call; [|vm_compute; reflexivity]). constructor.
Qed.

Lemma demo_log i : (i < 8)%nat → log demo_broker !! i = Some (at_log i).
Proof. intros Hi. apply logged, Nat.ltb_lt. eapply Nat.lt_le_trans; [exact Hi|]. vm_compute. lia. Qed.
Lemma demo_in_log i : (i < 8)%nat → at_log i ∈ log demo_broker.
Proof. intros Hi. eapply list_elem_of_lookup_2, demo_log, Hi. Qed.

Lemma decided_once_witness :
  decides_request (b "req1") (at_log 3) ∧ ¬ decides_request (b "req1") (at_log 4) ∧ decidable_request (b "req1") (at_log 3).
Proof.
  assert (decides_request (b "req1") (at_log 3)) as Hd by (vm_compute; reflexivity).
  split; [exact Hd|]. split; [vm_compute; intros []|].
  exact (proj2 (decided_once _ demo_broker (b "req1") 3 3 _ _ demo_happens (demo_log 3 ltac:(lia)) (demo_log 3 ltac:(lia)) Hd Hd)).
Defined.

Lemma decided_by_entitled_witness :
  ∃ r, approvals (before (at_log 3)) !! b "req1" = Some r ∧ status (record r) = Pending ∧ entitled (b "req1") (at_log 3) (record r).
Proof.
  apply (proj1 (decided_by_entitled _ demo_broker demo_happens) (at_log 3) (b "req1") (demo_in_log 3 ltac:(lia))). left. vm_compute. reflexivity.
Defined.

Lemma approval_used_once_witness : uses_approval (b "req1") (at_log 7) ∧ approved_request (b "req1") (before (at_log 7)).
Proof.
  assert (uses_approval (b "req1") (at_log 7)) as Hd by (vm_compute; reflexivity). split; [exact Hd|].
  exact (proj2 (approval_used_once _ demo_broker (b "req1") 7 7 _ _ demo_happens (demo_log 7 ltac:(lia)) (demo_log 7 ltac:(lia)) Hd Hd)).
Defined.

Lemma demo_begins : begins_operation demo_claim demo_binding (at_log 6).
Proof. split; [vm_compute; reflexivity|]. eexists. vm_compute. reflexivity. Qed.

Lemma demo_operation : ∃ o, operations (before (at_log 6)) !! b "op1" = Some o ∧ op_run o = b "run" ∧ op_step o = b "step"
  ∧ op_authority o = BoundHumanApproval (b "req1").
Proof. eexists. split; [vm_compute; reflexivity|]. by repeat split. Qed.

Lemma step_begins_once_witness : begins_step (b "run") (b "step") (at_log 6) ∧ (6 = 6)%nat.
Proof.
  assert (begins_step (b "run") (b "step") (at_log 6)) as Hd.
  { destruct demo_operation as (o & Ho & Hr & Hst & _). exists demo_claim, demo_binding, o.
    exact (conj demo_begins (conj Ho (conj Hr Hst))). }
  split; [exact Hd|].
  exact (step_begins_once _ demo_broker _ _ 6 6 _ _ demo_happens (demo_log 6 ltac:(lia)) (demo_log 6 ltac:(lia)) Hd Hd).
Defined.

Lemma execution_was_approved_witness :
  stands_for (b "req1") demo_binding demo_claim (at_log 6)
  ∧ ∃ j e', (j < 6)%nat ∧ log demo_broker !! j = Some e' ∧ approved_by (b "req1") demo_binding e'.
Proof.
  destruct (execution_was_approved _ demo_broker 6 (at_log 6) demo_claim demo_binding (b "req1") demo_happens (demo_log 6 ltac:(lia)) demo_begins)
    as [Hs [Hc|[Hf _]]].
  - destruct demo_operation as (o & Ho & _ & _ & Ha). exists o. exact (conj Ho Ha).
  - split; [exact Hs|exact Hc].
  - exfalso. vm_compute in Hf. discriminate.
Defined.

Lemma latest_claim_acts_witness : acts_under demo_claim (at_log 6) ∧ claim_fence demo_claim ≤ claim_fence demo_claim.
Proof.
  assert (acts_under demo_claim (at_log 6)) as Ha by (split; [apply demo_begins|left; exists demo_binding; apply demo_begins]).
  assert ((call (at_log 5)).2 = ClaimOperation (b "op1") demo_binding (b "worker") 60) as Hc by (vm_compute; reflexivity).
  assert (claims_operation demo_claim (at_log 5)) as Hr by (vm_compute; reflexivity).
  split; [exact Ha|].
  exact (proj1 (latest_claim_acts _ demo_broker 5 6 _ _ (b "op1") demo_binding (b "worker") 60 demo_claim demo_claim demo_happens
    (demo_log 5 ltac:(lia)) (demo_log 6 ltac:(lia)) ltac:(lia) Hc Hr eq_refl) Ha).
Defined.

(** A wait from second 10 on that finds the request each time, a second after
    the other; its binding expires at second 122. *)
Definition demo_waiting (i : nat) : World * Db := (demo_world (10 + N.of_nat i) [], after (at_log 0)).

Lemma await_terminates_witness :
  ∃ i a, run_among demo_waiting 0 (await_decision (2 * 20 + 1) (λ _, false) (b "req1")) = (i, a)
    ∧ match a with Ok st => ∃ x, st = Some x ∧ is_terminal x = true | Err _ => True end.
Proof.
  assert (ticks (secs 6) demo_waiting) as Ht.
  { split; intros i; unfold demo_waiting, demo_world, secs; cbn [fst now]; lia. }
  destruct (get_record (b "req1") (demo_waiting 0).1 (demo_waiting 0).2).2 as [[r|]|] eqn:E; [|exfalso; vm_compute in E; discriminate..].
  assert (record_expires_at r = Some (secs 122)) as Hr by (vm_compute in E; injection E as <-; vm_compute; reflexivity).
  apply (await_terminates _ (secs 6) demo_waiting (b "req1") r (secs 122) 20); [done|exact Ht|exact E|exact Hr|vm_compute; discriminate].
Defined.

(** Two turns: one whose batch is decided, and one that is withdrawn while a
    request of it lives on in another. *)
Definition in_turn (t : string) : Caller :=
  {| origin_source := b "test"; origin_pair := (Some (b "s"), Some (b t)); works_for := None; expected_digest := None |}.
Definition demo_asked : ApprovalRecord :=
  new_request (in_turn "t1") (b "q1") (b "agent") (b "mcp_call") (b "Call?") (str "call") 60 None [10%N].
Definition demo_key : bytes := keyed_id (b "duduclaw-keyed-approval:") (b "key").
Definition demo_turns : list (Caller * Call * World) :=
  [((in_turn "t1", Request (b "agent") (b "mcp_call") (b "Call?") (str "call") 60 None), demo_world 10 (b "q1"));
   ((in_turn "t1", DecideBatch (b "s") (b "t1") [(demo_asked, true)] (b "alice")), demo_world 11 []);
   ((in_turn "t2", RequestBoundKeyed (b "key") KindApproval (b "agent") (b "Transfer?") demo_payload demo_binding), demo_world 12 []);
   ((in_turn "t3", RequestBoundKeyed (b "key") KindApproval (b "agent") (b "Transfer?") demo_payload demo_binding), demo_world 12 []);
   ((demo_caller, WithdrawTurn (b "s") (b "t2") None), demo_world 13 []);
   ((demo_caller, DecideBound demo_key demo_context true), demo_world 14 []);
   ((in_turn "t1", DecideBatch (b "s") (b "t1") [(demo_asked, true)] (b "alice")), demo_world 15 [])].
Definition demo_turn_broker : Broker :=
  foldl (λ s x, run_call (program (λ _, false)) 0 1 x.1 (replicate 12 x.2) s) {| data := empty_db; running := ∅; log := [] |} demo_turns.

Example demo_turn_replies :
  map (reply (W := World) (D := Db)) (log demo_turn_broker)
  = [Ok (Id (b "q1")); Ok Nothing; Ok (Id demo_key); Ok (Id demo_key); Ok (Withdrawal 0 []); Ok Nothing;
     Err (b "approval changed before resume")].
Proof. vm_compute. reflexivity. Qed.

Lemma demo_turns_happen : happens (λ _, false) demo_turn_broker.
Proof.
  unfold demo_turn_broker, demo_turns. cbn [foldl].
  repeat (apply reachable_call; [|vm_compute; reflexivity]). constructor.
Qed.
Definition at_turn : nat → Entry := entry_at demo_turn_broker.
Lemma demo_turn_log i : (i < 7)%nat → log demo_turn_broker !! i = Some (at_turn i).
Proof. intros Hi. apply logged, Nat.ltb_lt. eapply Nat.lt_le_trans; [exact Hi|]. vm_compute. lia. Qed.

Lemma batch_decides_turn_witness :
  reply (at_turn 1) = Ok Nothing
  ∧ Forall (batch_decides (b "s") (b "t1") (b "alice") (world (at_turn 1)) (before (at_turn 1)) (after (at_turn 1))) [(demo_asked, true)]
  ∧ reply (at_turn 6) = Err (b "approval changed before resume") ∧ after (at_turn 6) = before (at_turn 6).
Proof.
  assert (reply (at_turn 1) = Ok Nothing) as Hr by (vm_compute; reflexivity).
  assert ((call (at_turn 1)).2 = DecideBatch (b "s") (b "t1") [(demo_asked, true)] (b "alice")) as Hc by (vm_compute; reflexivity).
  assert (reply (at_turn 6) = Err (b "approval changed before resume")) as Hr' by (vm_compute; reflexivity).
  assert ((call (at_turn 6)).2 = DecideBatch (b "s") (b "t1") [(demo_asked, true)] (b "alice")) as Hc' by (vm_compute; reflexivity).
  pose proof (batch_decides_turn _ demo_turn_broker (at_turn 1) _ _ _ _ demo_turns_happen
    (list_elem_of_lookup_2 _ _ _ (demo_turn_log 1 ltac:(lia))) Hc) as Hd. rewrite Hr in Hd.
  pose proof (batch_decides_turn _ demo_turn_broker (at_turn 6) _ _ _ _ demo_turns_happen
    (list_elem_of_lookup_2 _ _ _ (demo_turn_log 6 ltac:(lia))) Hc') as He. rewrite Hr' in He.
  exact (conj Hr (conj (proj1 Hd) (conj Hr' He))).
Defined.

Lemma withdrawn_turn_decides_nothing_witness : live_origins (after (at_turn 4)) demo_key ≠ [].
Proof.
  assert ((call (at_turn 4)).2 = WithdrawTurn (b "s") (b "t2") None) as Hc by (vm_compute; reflexivity).
  assert (reply (at_turn 4) = Ok (Withdrawal 0 [])) as Hr by (vm_compute; reflexivity).
  assert (decides_request demo_key (at_turn 5)) as Hd by (vm_compute; reflexivity).
  assert (∃ row, approvals (after (at_turn 4)) !! demo_key = Some row ∧ is_Some (origin_session row)) as (row & Hrow & Ho).
  { eexists. split; [vm_compute; reflexivity|]. vm_compute. eexists. reflexivity. }
  assert (bool_decide ((demo_key, b "s", b "t2") ∈ origins (after (at_turn 4))) = true) as Hin%bool_decide_eq_true_1 by (vm_compute; reflexivity).
  exact (withdrawn_turn_decides_nothing _ demo_turn_broker 4 5 _ _ _ _ _ _ _ _ demo_turns_happen
    (demo_turn_log 4 ltac:(lia)) (demo_turn_log 5 ltac:(lia)) ltac:(lia) Hc Hr Hd Hrow Ho Hin).
Defined.
