(* ===== verification/Sse.v ===== *)
(** * Server-sent events (crates/duduclaw-llm/src/sse.rs)

    Lines from byte chunks, and the stream that drives a provider's parser
    ([SseParser], here a record of operations) over them.  The response body
    is the list of what [bytes_stream] yields before it ends. *)

From S2P Require Import Prelude.
From S2P Require Import Bytes.
From S2P Require Import Utf8.

(** [str::trim]. *)
Definition trim_str (s : bytes) : bytes := utf8_encode (trim (utf8_decode s)).
Definition clean_line (line_bytes : bytes) : bytes := trim_str (from_utf8_lossy line_bytes).

(** ** [SseLineBuffer] *)

(** The loop of [push]: drain up to and including each newline. *)
Fixpoint drain_lines (fuel : nat) (buf : bytes) : list bytes * bytes :=
  match fuel with
  | O => ([], buf)
  | S fuel' =>
      match find buf [10%N] with
      | None => ([], buf)
      | Some pos =>
          let '(ls, buf') := drain_lines fuel' (drop (S pos) buf) in
          (clean_line (take (S pos) buf) :: ls, buf')
      end
  end.

Definition push_chunk (buf chunk : bytes) : list bytes * bytes :=
  let buf := buf ++ chunk in drain_lines (S (length buf)) buf.

Definition flush_line (buf : bytes) : option bytes :=
  if is_empty buf then None
  else let line := clean_line buf in if is_empty line then None else Some line.

(** [sse_data]. *)
Definition sse_data (line : bytes) : option bytes :=
  trim_str <$> match strip_prefix line (b "data: ") with
               | Some r => Some r
               | None => strip_prefix line (b "data:")
               end.

(** ** [SseParser] and [drive_sse] *)

Record SseParser (P event error : Type) := {
  on_line : P → bytes → list event * P;
  finished : P → bool;
  finalize : P → result event error * P;
}.
Arguments on_line {_ _ _}.
Arguments finished {_ _ _}.
Arguments finalize {_ _ _}.

Record Ctx (P event : Type) := {
  lines : bytes;
  parser : P;
  pending : list event;
  eof : bool;
  terminated : bool;
}.
Arguments lines {_ _}.
Arguments parser {_ _}.
Arguments pending {_ _}.
Arguments eof {_ _}.
Arguments terminated {_ _}.

Section drive.
Context {P event error transport : Type} (SP : SseParser P event error).
Context (classify_transport : transport → error).
Implicit Types (c : Ctx P event) (p : P).

Abbreviation item := (result event error).
Abbreviation body := (list (result bytes transport)).

(** The loop over a chunk's lines: it stops when the parser has finished. *)
Fixpoint feed_chunk p (ls : list bytes) : list event * P :=
  match ls with
  | [] => ([], p)
  | line :: ls' =>
      let '(out, p1) := on_line SP p line in
      if finished SP p1 then (out, p1)
      else let '(out', p2) := feed_chunk p1 ls' in (out ++ out', p2)
  end.

(** What one round of the loop answers before it reads. *)
Definition settle c : option (option (item * Ctx P event)) :=
  match pending c with
  | ev :: rest =>
      Some (Some (Ok ev, {| lines := lines c; parser := parser c; pending := rest; eof := eof c;
                            terminated := terminated c |}))
  | [] =>
      if terminated c then Some None
      else if eof c || finished SP (parser c) then
        let '(done_, p') := finalize SP (parser c) in
        Some (Some (done_, {| lines := lines c; parser := p'; pending := []; eof := eof c; terminated := true |}))
      else None
  end.

(** One element of the stream, with the rest of the body. *)
Fixpoint poll_next (incoming : body) c : option (item * (body * Ctx P event)) :=
  match settle c with
  | Some r => (λ x : item * Ctx P event, (x.1, (incoming, x.2))) <$> r
  | None =>
      match incoming with
      | Ok chunk :: incoming' =>
          let '(ls, buf) := push_chunk (lines c) chunk in
          let '(out, p') := feed_chunk (parser c) ls in
          poll_next incoming' {| lines := buf; parser := p'; pending := out; eof := false; terminated := false |}
      | Err e :: incoming' =>
          Some (Err (classify_transport e),
                (incoming', {| lines := lines c; parser := parser c; pending := []; eof := eof c; terminated := true |}))
      | [] =>
          let '(out, p') :=
            match flush_line (lines c) with Some line => on_line SP (parser c) line | None => ([], parser c) end in
          let c' := {| lines := []; parser := p'; pending := out; eof := true; terminated := false |} in
          (λ x : item * Ctx P event, (x.1, ([], x.2))) <$> default None (settle c')
      end
  end.

(** All elements of the stream, until it ends. *)
Inductive yields : body → Ctx P event → list item → Prop :=
| yields_end incoming c : poll_next incoming c = None → yields incoming c []
| yields_item incoming c x incoming' c' xs :
    poll_next incoming c = Some (x, (incoming', c')) → yields incoming' c' xs →
    yields incoming c (x :: xs).

Definition drive_start p : Ctx P event :=
  {| lines := []; parser := p; pending := []; eof := false; terminated := false |}.

(** ** What the stream means *)

(** The bytes received, and the error that cut them off. *)
Fixpoint received (incoming : body) : bytes * option transport :=
  match incoming with
  | [] => ([], None)
  | Ok chunk :: incoming' => let '(r, e) := received incoming' in (chunk ++ r, e)
  | Err e :: _ => ([], Some e)
  end.

(** The complete lines of a text, and what follows the last newline. *)
Fixpoint split_newlines (cur s : bytes) : list bytes * bytes :=
  match s with
  | [] => ([], cur)
  | x :: r =>
      if (x =? 10)%N then let '(ls, rest) := split_newlines [] r in ((cur ++ [x]) :: ls, rest)
      else split_newlines (cur ++ [x]) r
  end.

Definition feed p ls : list event * P := if finished SP p then ([], p) else feed_chunk p ls.

Definition sse_spec p (text : bytes) (cut : option transport) : list item :=
  let '(raw, rest) := split_newlines [] text in
  let '(out, p1) := feed p (map clean_line raw) in
  map Ok out ++
    if finished SP p1 then [(finalize SP p1).1]
    else
      match cut with
      | Some e => [Err (classify_transport e)]
      | None =>
          match flush_line rest with
          | Some line => let '(out2, p2) := on_line SP p1 line in map Ok out2 ++ [(finalize SP p2).1]
          | None => [(finalize SP p1).1]
          end
      end.

(** ** Lemmas *)

Lemma split_newlines_app cur s t :
  split_newlines cur (s ++ t) =
    ((split_newlines cur s).1 ++ (split_newlines (split_newlines cur s).2 t).1,
     (split_newlines (split_newlines cur s).2 t).2).
Proof.
  revert cur. induction s as [|x s IH]; intros cur; cbn [split_newlines app fst snd].
  - by destruct (split_newlines cur t).
  - destruct (x =? 10)%N; [|apply IH]. rewrite IH. by destruct (split_newlines [] s).
Qed.

Lemma split_newlines_rest cur s : 10%N ∉ cur → 10%N ∉ (split_newlines cur s).2.
Proof.
  revert cur. induction s as [|x s IH]; intros cur Hc; cbn [split_newlines]; [done|].
  destruct (N.eqb_spec x 10) as [->|Hx].
  - specialize (IH []). destruct (split_newlines [] s). apply IH. apply not_elem_of_nil.
  - apply IH. rewrite not_elem_of_app, not_elem_of_cons. split_and!; [done|done|apply not_elem_of_nil].
Qed.

Lemma split_newlines_none cur s : 10%N ∉ s → split_newlines cur s = ([], cur ++ s).
Proof.
  revert cur. induction s as [|x s IH]; intros cur Hs; cbn [split_newlines]; [by rewrite app_nil_r|].
  apply not_elem_of_cons in Hs as [Hx Hs]. destruct (N.eqb_spec x 10) as [->|_]; [done|].
  rewrite IH by done. by rewrite <- app_assoc.
Qed.

Lemma newline_cases (s : bytes) : 10%N ∉ s ∨ ∃ l r, s = l ++ 10%N :: r ∧ 10%N ∉ l.
Proof.
  induction s as [|x s IH]; [left; apply not_elem_of_nil|].
  destruct (decide (x = 10%N)) as [->|Hx]; [right; exists [], s; split; [done|apply not_elem_of_nil]|].
  destruct IH as [Hn|(l & r & -> & Hl)]; [left; by apply not_elem_of_cons|].
  right. exists (x :: l), r. split; [done|]. by apply not_elem_of_cons.
Qed.

Lemma drain_lines_spec fuel buf :
  (length buf < fuel)%nat →
  drain_lines fuel buf = (map clean_line (split_newlines [] buf).1, (split_newlines [] buf).2).
Proof.
  revert buf. induction fuel as [|fuel IH]; intros buf Hf; [lia|]. cbn [drain_lines].
  destruct (newline_cases buf) as [Hn|(l & r & -> & Hl)].
  - rewrite split_newlines_none by done.
    destruct (find buf [10%N]) as [pos|] eqn:E; [|done]. exfalso. apply Hn.
    clear -E. revert pos E. induction buf as [|x buf IH]; intros pos; [done|]. rewrite find_unfold. cbn [starts_with andb].
    destruct (N.eqb_spec 10 x) as [<-|_]; [intros; left|].
    intros (p' & Hp & _)%fmap_Some. right. by eapply IH.
  - rewrite find_char by done. replace (S (length l)) with (length (l ++ [10%N])) by (rewrite length_app; simpl; lia).
    change (l ++ 10%N :: r) with (l ++ [10%N] ++ r). rewrite app_assoc, take_app_length, drop_app_length.
    rewrite IH by (rewrite !length_app in Hf; simpl in Hf; lia).
    rewrite (split_newlines_app [] (l ++ [10%N]) r). rewrite (split_newlines_app [] l [10%N]).
    rewrite (split_newlines_none [] l) by done. cbn. by destruct (split_newlines [] r).
Qed.

Lemma push_chunk_spec buf chunk :
  push_chunk buf chunk =
    (map clean_line (split_newlines [] (buf ++ chunk)).1, (split_newlines [] (buf ++ chunk)).2).
Proof. unfold push_chunk. apply drain_lines_spec. lia. Qed.

Lemma feed_chunk_app p l1 l2 :
  finished SP p = false →
  feed_chunk p (l1 ++ l2) =
    ((feed_chunk p l1).1 ++ (feed (feed_chunk p l1).2 l2).1, (feed (feed_chunk p l1).2 l2).2).
Proof.
  revert p. induction l1 as [|l l1 IH]; intros p Hp; cbn [feed_chunk app].
  - unfold feed. cbn [fst snd]. rewrite Hp. by destruct (feed_chunk p l2).
  - destruct (on_line SP p l) as [out p1]. destruct (finished SP p1) eqn:E.
    + unfold feed. cbn [fst snd]. rewrite E. cbn. by rewrite app_nil_r.
    + rewrite IH by done. destruct (feed_chunk p1 l1) as [o1 q1]. cbn [fst snd].
      destruct (feed q1 l2) as [o2 q2]. cbn [fst snd]. by rewrite app_assoc.
Qed.

(** Pending events come first. *)
Lemma yields_pending incoming c xs out :
  yields incoming {| lines := lines c; parser := parser c; pending := []; eof := eof c; terminated := terminated c |} xs →
  yields incoming {| lines := lines c; parser := parser c; pending := out; eof := eof c; terminated := terminated c |}
    (map Ok out ++ xs).
Proof.
  intros Hy. induction out as [|ev out IH]; [done|].
  eapply yields_item; [|exact IH]. by destruct incoming.
Qed.

(** A stream that has terminated yields nothing more. *)
Lemma yields_terminated incoming buf p e :
  yields incoming {| lines := buf; parser := p; pending := []; eof := e; terminated := true |} [].
Proof. apply yields_end. by destruct incoming. Qed.

Lemma yields_final incoming buf p e :
  e || finished SP p = true →
  yields incoming {| lines := buf; parser := p; pending := []; eof := e; terminated := false |} [(finalize SP p).1].
Proof.
  intros He. destruct (finalize SP p) as [d p'] eqn:Ef.
  eapply (yields_item _ _ _ incoming); [|apply (yields_terminated incoming buf p' e)].
  destruct incoming; cbn [poll_next]; unfold settle; cbn; by rewrite He, Ef.
Qed.

Lemma yields_det incoming c xs ys : yields incoming c xs → yields incoming c ys → xs = ys.
Proof.
  intros Hx. revert ys. induction Hx as [incoming c Hn|incoming c x i2 c2 xs Hn _ IH]; intros ys Hy;
    inversion Hy as [? ? Hn'|? ? y i3 c3 ys' Hn' Hy']; subst; rewrite Hn in Hn'; simplify_eq; [done|].
  f_equal. by apply IH.
Qed.

(** Reading on without an answer is one step of the same poll. *)
Lemma yields_step incoming c incoming' c' xs :
  poll_next incoming c = poll_next incoming' c' → yields incoming' c' xs → yields incoming c xs.
Proof.
  intros He Hy. inversion Hy as [? ? Hn|? ? x i2 c2 xs' Hn Hy']; subst.
  - apply yields_end. by rewrite He.
  - eapply yields_item; [by rewrite He|done].
Qed.

Lemma drive_from incoming buf p :
  10%N ∉ buf →
  yields incoming {| lines := buf; parser := p; pending := []; eof := false; terminated := false |}
    (sse_spec p (buf ++ (received incoming).1) (received incoming).2).
Proof.
  revert buf p. induction incoming as [|[chunk|e] incoming IH]; intros buf p Hb.
  all: destruct (finished SP p) eqn:Hfin;
    [unfold sse_spec; destruct (split_newlines _ _) as [raw rest]; unfold feed; rewrite Hfin; cbn [map app];
     rewrite Hfin; by apply yields_final|].
  - cbn [received fst snd]. rewrite app_nil_r. unfold sse_spec.
    rewrite split_newlines_none by done. unfold feed. rewrite Hfin. cbn [map feed_chunk app]. rewrite Hfin.
    set (c0 := {| lines := buf; parser := p; pending := []; eof := false; terminated := false |}).
    destruct (match flush_line buf with Some line => on_line SP p line | None => ([], p) end) as [out p'] eqn:Eo.
    assert (yields [] {| lines := []; parser := p'; pending := out; eof := true; terminated := false |}
      (map Ok out ++ [(finalize SP p').1])) as Hy.
    { apply (yields_pending [] {| lines := []; parser := p'; pending := out; eof := true; terminated := false |}).
      by apply yields_final. }
    assert (poll_next [] c0 = poll_next [] {| lines := []; parser := p'; pending := out; eof := true; terminated := false |}) as Hp.
    { cbn [poll_next]. unfold c0. unfold settle at 1. cbn [pending terminated eof parser lines orb]. rewrite Hfin, Eo.
      unfold settle. cbn [pending terminated eof orb]. destruct out; [|done]. cbn [parser]. by destruct (finalize SP p'). }
    eapply yields_step; [exact Hp|]. destruct (flush_line buf) as [line|].
    + rewrite Eo. exact Hy.
    + injection Eo as <- <-. exact Hy.
  - cbn [received]. destruct (received incoming) as [r e] eqn:Er. cbn [fst snd].
    destruct (feed_chunk p (push_chunk buf chunk).1) as [out p'] eqn:Ef.
    apply (yields_step _ _ incoming
      {| lines := (push_chunk buf chunk).2; parser := p'; pending := out; eof := false; terminated := false |}).
    + cbn [poll_next]. unfold settle at 1. cbn [pending terminated eof parser lines orb]. rewrite Hfin.
      destruct (push_chunk buf chunk) as [ls rest]. cbn [fst snd] in *. by rewrite Ef.
    + rewrite push_chunk_spec in Ef |- *. cbn [fst snd] in *.
      specialize (IH (split_newlines [] (buf ++ chunk)).2 p').
      assert (sse_spec p (buf ++ chunk ++ r) e
              = map Ok out ++ sse_spec p' ((split_newlines [] (buf ++ chunk)).2 ++ r) e) as ->.
      { unfold sse_spec. rewrite app_assoc, (split_newlines_app [] (buf ++ chunk) r).
        destruct (split_newlines [] (buf ++ chunk)) as [raw1 rest1] eqn:E1. cbn [fst snd] in *.
        assert (10%N ∉ rest1) as Hr1.
        { replace rest1 with (split_newlines [] (buf ++ chunk)).2 by (by rewrite E1).
          apply split_newlines_rest, not_elem_of_nil. }
        rewrite (split_newlines_app [] rest1 r), (split_newlines_none [] rest1) by done. cbn [fst snd app].
        destruct (split_newlines rest1 r) as [raw2 rest2]. cbn [fst snd].
        rewrite map_app. unfold feed at 1. rewrite Hfin, feed_chunk_app by done. rewrite Ef. cbn [fst snd].
        destruct (feed p' (map clean_line raw2)) as [out2 p2]. cbn [fst snd].
        by rewrite map_app, <- app_assoc. }
      apply (yields_pending incoming
        {| lines := (split_newlines [] (buf ++ chunk)).2; parser := p'; pending := out; eof := false; terminated := false |}).
      cbn [lines parser eof terminated]. apply IH. apply split_newlines_rest, not_elem_of_nil.
  - cbn [received fst snd]. rewrite app_nil_r. unfold sse_spec.
    rewrite split_newlines_none by done. unfold feed. rewrite Hfin. cbn [map feed_chunk app]. rewrite Hfin.
    eapply yields_item; [|apply (yields_terminated incoming buf p false)].
    cbn [poll_next]. unfold settle. cbn [pending terminated eof parser lines orb]. by rewrite Hfin.
Qed.

(** What a stream yields. *)
Lemma driven_stream incoming p xs :
  yields incoming (drive_start p) xs ↔ xs = sse_spec p (received incoming).1 (received incoming).2.
Proof.
  pose proof (drive_from incoming [] p (not_elem_of_nil _)) as Hy. cbn [app] in Hy.
  split; [intros Hx; by eapply yields_det|by intros ->].
Qed.

(** Streaming is insensitive to chunking: what the stream yields, and that
    it ends, depends only on the bytes received and on the error that cut
    them off: the parser's events for the complete lines up to the one that
    finishes it, in order, then its final element; without a finish, the
    transport error, or, at the end of the body, the last unterminated line
    and the final element. *)
Theorem drive_sse_exact incoming p xs :
  yields incoming (drive_start p) xs ↔ xs = sse_spec p (received incoming).1 (received incoming).2.
Proof. apply driven_stream. Qed.
End drive.
