(* ===== verification/AnthropicSse.v ===== *)
(** * The Anthropic response parser (crates/duduclaw-llm/src/providers/
    anthropic.rs, with the response types of types.rs and error.rs)

    Both readings of a model's answer: [parse_response] of a whole body, and
    the state machine [AnthropicSse] over streamed events.  The JSON text
    parser and printer and the conversion of number literals are the interface
    [JsonText]. *)

From S2P Require Import Prelude.
From S2P Require Import Bytes.
From S2P Require Import TextUtils.
From S2P Require Import JsonValue.
From S2P Require Import Sse.

Class JsonText := {
  json_from_str : bytes → option Value;
  json_display : Value → bytes;
  number_as_u64 : bytes → option N;
}.

(** ** Responses *)

Inductive ContentPart :=
| Text (text : bytes)
| Image (media_type data_base64 : bytes)
| ToolCall (id name : bytes) (args : Value)
| ToolResult (call_id content : bytes) (is_error : bool)
| Reasoning (text : bytes) (signature : option bytes)
| RedactedReasoning (data : bytes).

Inductive StopReason :=
| EndTurn | ToolUse | MaxTokens | ContentFilter | Refusal
| Other (reason : bytes).

Record NormalizedUsage := {
  input_tokens : N;
  output_tokens : N;
  cache_read_tokens : N;
  cache_write_tokens : N;
  reasoning_tokens : N;
}.
Definition NormalizedUsage_default : NormalizedUsage :=
  {| input_tokens := 0; output_tokens := 0; cache_read_tokens := 0; cache_write_tokens := 0; reasoning_tokens := 0 |}.

Record ChatResponse := {
  parts : list ContentPart;
  stop : StopReason;
  usage : NormalizedUsage;
  model_used : bytes;
  provider : bytes;
}.

Inductive StreamEvent :=
| TextDelta (t : bytes)
| ReasoningDelta (t : bytes)
| ToolCallStart (index : N) (id name : bytes)
| ToolCallDelta (index : N) (args_fragment : bytes)
| Done (r : ChatResponse).

Inductive LlmError :=
| Http (status : N) (body_snippet : bytes)
| Parse (reason : bytes).

(** [snippet] (error.rs). *)
Definition SNIPPET_MAX_BYTES : nat := 300.
Definition snippet (body : bytes) : bytes := truncate_bytes body SNIPPET_MAX_BYTES.

Section anthropic.
Context `{JsonText}.

Definition as_u64 (v : Value) : option N := match v with VNumber n => number_as_u64 n | _ => None end.
Definition u64_or_zero (v : Value) (k : bytes) : N := default 0%N (get v k ≫= as_u64).

Definition parse_stop_reason (raw : option bytes) : StopReason :=
  match raw with
  | Some r =>
      if ustr_eqb r (b "end_turn") then EndTurn
      else if ustr_eqb r (b "tool_use") then ToolUse
      else if ustr_eqb r (b "max_tokens") then MaxTokens
      else if ustr_eqb r (b "refusal") then Refusal
      else Other r
  | None => Other (b "missing")
  end.

Definition parse_usage (v : Value) : NormalizedUsage := {|
  input_tokens := u64_or_zero v (b "input_tokens");
  output_tokens := u64_or_zero v (b "output_tokens");
  cache_read_tokens := u64_or_zero v (b "cache_read_input_tokens");
  cache_write_tokens := u64_or_zero v (b "cache_creation_input_tokens");
  reasoning_tokens := 0
|}.

(** ** [parse_response] *)

Definition parse_block (block : Value) : list ContentPart :=
  match str_field block (b "type") with
  | Some ty =>
      if ustr_eqb ty (b "text") then [Text (str_or_empty block (b "text"))]
      else if ustr_eqb ty (b "tool_use") then
        [ToolCall (str_or_empty block (b "id")) (str_or_empty block (b "name"))
           (default VNull (get block (b "input")))]
      else if ustr_eqb ty (b "thinking") then
        [Reasoning (str_or_empty block (b "thinking")) (str_field block (b "signature"))]
      else if ustr_eqb ty (b "redacted_thinking") then [RedactedReasoning (str_or_empty block (b "data"))]
      else []
  | None => []
  end.

Definition parse_response (body : Value) : result ChatResponse LlmError :=
  match get body (b "content") ≫= as_array with
  | None => Err (Parse (snippet (b "missing content array: " ++ json_display body)))
  | Some content =>
      Ok {| parts := concat (map parse_block content);
            stop := parse_stop_reason (str_field body (b "stop_reason"));
            usage := match get body (b "usage") with Some v => parse_usage v | None => NormalizedUsage_default end;
            model_used := str_or_empty body (b "model");
            provider := b "anthropic" |}
  end.

(** ** [AnthropicSse] *)

Record AnthropicSse := {
  s_parts : list ContentPart;
  tool_args_buf : gmap N (nat * bytes);
  s_usage : NormalizedUsage;
  s_stop : option StopReason;
  s_model_used : bytes;
  s_finished : bool;
  s_error : option LlmError;
}.

Definition AnthropicSse_default : AnthropicSse := {|
  s_parts := []; tool_args_buf := ∅; s_usage := NormalizedUsage_default; s_stop := None;
  s_model_used := []; s_finished := false; s_error := None
|}.

Definition with_parts (S : AnthropicSse) ps : AnthropicSse := {|
  s_parts := ps; tool_args_buf := tool_args_buf S; s_usage := s_usage S; s_stop := s_stop S;
  s_model_used := s_model_used S; s_finished := s_finished S; s_error := s_error S
|}.
Definition with_args (S : AnthropicSse) buf : AnthropicSse := {|
  s_parts := s_parts S; tool_args_buf := buf; s_usage := s_usage S; s_stop := s_stop S;
  s_model_used := s_model_used S; s_finished := s_finished S; s_error := s_error S
|}.
Definition with_usage (S : AnthropicSse) us : AnthropicSse := {|
  s_parts := s_parts S; tool_args_buf := tool_args_buf S; s_usage := us; s_stop := s_stop S;
  s_model_used := s_model_used S; s_finished := s_finished S; s_error := s_error S
|}.
Definition with_model (S : AnthropicSse) m : AnthropicSse := {|
  s_parts := s_parts S; tool_args_buf := tool_args_buf S; s_usage := s_usage S; s_stop := s_stop S;
  s_model_used := m; s_finished := s_finished S; s_error := s_error S
|}.
Definition with_stop (S : AnthropicSse) r : AnthropicSse := {|
  s_parts := s_parts S; tool_args_buf := tool_args_buf S; s_usage := s_usage S; s_stop := r;
  s_model_used := s_model_used S; s_finished := s_finished S; s_error := s_error S
|}.
Definition with_end (S : AnthropicSse) e : AnthropicSse := {|
  s_parts := s_parts S; tool_args_buf := tool_args_buf S; s_usage := s_usage S; s_stop := s_stop S;
  s_model_used := s_model_used S; s_finished := true; s_error := e
|}.
Definition with_output (us : NormalizedUsage) t : NormalizedUsage := {|
  input_tokens := input_tokens us; output_tokens := t; cache_read_tokens := cache_read_tokens us;
  cache_write_tokens := cache_write_tokens us; reasoning_tokens := reasoning_tokens us
|}.

(** [parts.last_mut()], written through. *)
Definition update_last (f : ContentPart → ContentPart) (ps : list ContentPart) : list ContentPart :=
  match list.last ps with
  | Some p => take (length ps - 1) ps ++ [f p]
  | None => ps
  end.

Definition push_text (t : bytes) (p : ContentPart) : ContentPart :=
  match p with Text buf => Text (buf ++ t) | _ => p end.
Definition push_thinking (t : bytes) (p : ContentPart) : ContentPart :=
  match p with Reasoning text sig => Reasoning (text ++ t) sig | _ => p end.
Definition push_signature (s : bytes) (p : ContentPart) : ContentPart :=
  match p with
  | Reasoning text sig => Reasoning text (Some (match sig with Some s0 => s0 ++ s | None => s end))
  | _ => p
  end.

(** The arguments of a tool call from its fragments. *)
Definition parse_args (buf : bytes) : Value :=
  match json_from_str buf with
  | Some v => v
  | None => if is_empty buf then VObject [] else VString buf
  end.

Definition block_start (S : AnthropicSse) (index : N) (block : Value) : list StreamEvent * AnthropicSse :=
  match str_field block (b "type") with
  | Some ty =>
      if ustr_eqb ty (b "tool_use") then
        let id := str_or_empty block (b "id") in
        let name := str_or_empty block (b "name") in
        let ps := s_parts S ++ [ToolCall id name VNull] in
        ([ToolCallStart index id name],
         with_args (with_parts S ps) (<[index := ((length ps - 1)%nat, [])]> (tool_args_buf S)))
      else if ustr_eqb ty (b "text") then ([], with_parts S (s_parts S ++ [Text []]))
      else if ustr_eqb ty (b "thinking") then ([], with_parts S (s_parts S ++ [Reasoning [] None]))
      else if ustr_eqb ty (b "redacted_thinking") then
        ([], with_parts S (s_parts S ++ [RedactedReasoning (str_or_empty block (b "data"))]))
      else ([], S)
  | None => ([], S)
  end.

Definition block_delta (S : AnthropicSse) (index : N) (delta : Value) : list StreamEvent * AnthropicSse :=
  match str_field delta (b "type") with
  | Some ty =>
      if ustr_eqb ty (b "text_delta") then
        let t := str_or_empty delta (b "text") in
        ([TextDelta t], with_parts S (update_last (push_text t) (s_parts S)))
      else if ustr_eqb ty (b "thinking_delta") then
        let t := str_or_empty delta (b "thinking") in
        ([ReasoningDelta t], with_parts S (update_last (push_thinking t) (s_parts S)))
      else if ustr_eqb ty (b "input_json_delta") then
        let frag := str_or_empty delta (b "partial_json") in
        ([ToolCallDelta index frag],
         match tool_args_buf S !! index with
         | Some (i, buf) => with_args S (<[index := (i, buf ++ frag)]> (tool_args_buf S))
         | None => S
         end)
      else if ustr_eqb ty (b "signature_delta") then
        ([], with_parts S (update_last (push_signature (str_or_empty delta (b "signature"))) (s_parts S)))
      else ([], S)
  | None => ([], S)
  end.

Definition block_stop (S : AnthropicSse) (index : N) : AnthropicSse :=
  match tool_args_buf S !! index with
  | Some (part_idx, buf) =>
      let S' := with_args S (delete index (tool_args_buf S)) in
      match s_parts S !! part_idx with
      | Some (ToolCall id name _) => with_parts S' (<[part_idx := ToolCall id name (parse_args buf)]> (s_parts S))
      | _ => S'
      end
  | None => S
  end.

Definition message_start (S : AnthropicSse) (ev : Value) : AnthropicSse :=
  match get ev (b "message") with
  | Some msg =>
      let S := match get msg (b "usage") with Some us => with_usage S (parse_usage us) | None => S end in
      match str_field msg (b "model") with Some m => with_model S m | None => S end
  | None => S
  end.

Definition message_delta (S : AnthropicSse) (ev : Value) : AnthropicSse :=
  let S :=
    match get ev (b "delta") ≫= (λ d, str_field d (b "stop_reason")) with
    | Some sr => with_stop S (Some (parse_stop_reason (Some sr)))
    | None => S
    end in
  match get ev (b "usage") ≫= (λ us, get us (b "output_tokens") ≫= as_u64) with
  | Some t => with_usage S (with_output (s_usage S) t)
  | None => S
  end.

(** [handle_event]. *)
Definition handle_event (S : AnthropicSse) (ev : Value) : list StreamEvent * AnthropicSse :=
  let index := u64_or_zero ev (b "index") in
  match str_field ev (b "type") with
  | Some ty =>
      if ustr_eqb ty (b "message_start") then ([], message_start S ev)
      else if ustr_eqb ty (b "content_block_start") then
        block_start S index (default VNull (get ev (b "content_block")))
      else if ustr_eqb ty (b "content_block_delta") then
        block_delta S index (default VNull (get ev (b "delta")))
      else if ustr_eqb ty (b "content_block_stop") then ([], block_stop S index)
      else if ustr_eqb ty (b "message_delta") then ([], message_delta S ev)
      else if ustr_eqb ty (b "message_stop") then ([], with_end S (s_error S))
      else if ustr_eqb ty (b "error") then
        let msg := default (b "stream error") (get ev (b "error") ≫= (λ e, str_field e (b "message"))) in
        ([], with_end S (Some (Http 0 (snippet msg))))
      else ([], S)
  | None => ([], S)
  end.

Definition anthropic_on_line (S : AnthropicSse) (line : bytes) : list StreamEvent * AnthropicSse :=
  match sse_data line with
  | None => ([], S)
  | Some data =>
      if is_empty data then ([], S)
      else match json_from_str data with Some ev => handle_event S ev | None => ([], S) end
  end.

Definition anthropic_finalize (S : AnthropicSse) : result StreamEvent LlmError * AnthropicSse :=
  match s_error S with
  | Some e =>
      (Err e, {| s_parts := s_parts S; tool_args_buf := tool_args_buf S; s_usage := s_usage S;
                 s_stop := s_stop S; s_model_used := s_model_used S; s_finished := s_finished S; s_error := None |})
  | None =>
      (Ok (Done {| parts := s_parts S; stop := default EndTurn (s_stop S); usage := s_usage S;
                   model_used := s_model_used S; provider := b "anthropic" |}),
       {| s_parts := []; tool_args_buf := tool_args_buf S; s_usage := s_usage S; s_stop := None;
          s_model_used := []; s_finished := s_finished S; s_error := None |})
  end.

Definition anthropic_parser : SseParser AnthropicSse StreamEvent LlmError :=
  {| on_line := anthropic_on_line; finished := s_finished; finalize := anthropic_finalize |}.
End anthropic.

(** ** What an event says *)

Inductive block_kind :=
| KText
| KTool (id name : bytes)
| KThinking
| KRedacted (data : bytes).

Inductive delta :=
| DText (t : bytes)
| DThinking (t : bytes)
| DJson (frag : bytes)
| DSignature (s : bytes).

Inductive sse_event :=
| MessageStart (us : option NormalizedUsage) (model : option bytes)
| BlockStart (index : N) (k : block_kind)
| BlockDelta (index : N) (d : delta)
| BlockStop (index : N)
| MessageDelta (stop_reason : option bytes) (output : option N)
| MessageStop
| StreamError (msg : bytes)
| Ignored.

Section events.
Context `{JsonText}.
Implicit Types (S : AnthropicSse) (v : Value) (i : N) (e : sse_event).

Definition kind_of v : option block_kind :=
  ty ← str_field v (b "type");
  if ustr_eqb ty (b "tool_use") then Some (KTool (str_or_empty v (b "id")) (str_or_empty v (b "name")))
  else if ustr_eqb ty (b "text") then Some KText
  else if ustr_eqb ty (b "thinking") then Some KThinking
  else if ustr_eqb ty (b "redacted_thinking") then Some (KRedacted (str_or_empty v (b "data")))
  else None.

Definition delta_of v : option delta :=
  ty ← str_field v (b "type");
  if ustr_eqb ty (b "text_delta") then Some (DText (str_or_empty v (b "text")))
  else if ustr_eqb ty (b "thinking_delta") then Some (DThinking (str_or_empty v (b "thinking")))
  else if ustr_eqb ty (b "input_json_delta") then Some (DJson (str_or_empty v (b "partial_json")))
  else if ustr_eqb ty (b "signature_delta") then Some (DSignature (str_or_empty v (b "signature")))
  else None.

Definition event_of v : sse_event :=
  let i := u64_or_zero v (b "index") in
  match str_field v (b "type") with
  | Some ty =>
      if ustr_eqb ty (b "message_start") then
        match get v (b "message") with
        | Some msg => MessageStart (parse_usage <$> get msg (b "usage")) (str_field msg (b "model"))
        | None => Ignored
        end
      else if ustr_eqb ty (b "content_block_start") then
        match kind_of (default VNull (get v (b "content_block"))) with Some k => BlockStart i k | None => Ignored end
      else if ustr_eqb ty (b "content_block_delta") then
        match delta_of (default VNull (get v (b "delta"))) with Some d => BlockDelta i d | None => Ignored end
      else if ustr_eqb ty (b "content_block_stop") then BlockStop i
      else if ustr_eqb ty (b "message_delta") then
        MessageDelta (get v (b "delta") ≫= (λ d, str_field d (b "stop_reason")))
          (get v (b "usage") ≫= (λ us, get us (b "output_tokens") ≫= as_u64))
      else if ustr_eqb ty (b "message_stop") then MessageStop
      else if ustr_eqb ty (b "error") then
        StreamError (default (b "stream error") (get v (b "error") ≫= (λ x, str_field x (b "message"))))
      else Ignored
  | None => Ignored
  end.

(** The step of the state machine on such an event. *)
Definition step S e : list StreamEvent * AnthropicSse :=
  match e with
  | MessageStart us m =>
      let S := match us with Some us => with_usage S us | None => S end in
      ([], match m with Some m => with_model S m | None => S end)
  | BlockStart i KText => ([], with_parts S (s_parts S ++ [Text []]))
  | BlockStart i (KTool id name) =>
      ([ToolCallStart i id name],
       with_args (with_parts S (s_parts S ++ [ToolCall id name VNull]))
         (<[i := (length (s_parts S), [])]> (tool_args_buf S)))
  | BlockStart i KThinking => ([], with_parts S (s_parts S ++ [Reasoning [] None]))
  | BlockStart i (KRedacted data) => ([], with_parts S (s_parts S ++ [RedactedReasoning data]))
  | BlockDelta i (DText t) => ([TextDelta t], with_parts S (update_last (push_text t) (s_parts S)))
  | BlockDelta i (DThinking t) => ([ReasoningDelta t], with_parts S (update_last (push_thinking t) (s_parts S)))
  | BlockDelta i (DJson frag) =>
      ([ToolCallDelta i frag],
       match tool_args_buf S !! i with
       | Some (k, buf) => with_args S (<[i := (k, buf ++ frag)]> (tool_args_buf S))
       | None => S
       end)
  | BlockDelta i (DSignature s) => ([], with_parts S (update_last (push_signature s) (s_parts S)))
  | BlockStop i => ([], block_stop S i)
  | MessageDelta sr out =>
      let S := match sr with Some r => with_stop S (Some (parse_stop_reason (Some r))) | None => S end in
      ([], match out with Some t => with_usage S (with_output (s_usage S) t) | None => S end)
  | MessageStop => ([], with_end S (s_error S))
  | StreamError msg => ([], with_end S (Some (Http 0 (snippet msg))))
  | Ignored => ([], S)
  end.

Lemma handle_event_step S v : handle_event S v = step S (event_of v).
Proof.
  unfold handle_event, event_of. destruct (str_field v (b "type")) as [ty|]; [|done].
  destruct (ustr_eqb ty (b "message_start")).
  { unfold message_start. destruct (get v (b "message")) as [msg|]; [|done]. cbn [step].
    by destruct (get msg (b "usage")). }
  destruct (ustr_eqb ty (b "content_block_start")).
  { unfold block_start, kind_of. destruct (str_field (default VNull _) _) as [bt|]; [|done].
    cbn [mbind option_bind].
    repeat case_match; simplify_eq; try done.
    cbn [step]. rewrite length_app, Nat.add_sub. done. }
  destruct (ustr_eqb ty (b "content_block_delta")).
  { unfold block_delta, delta_of. destruct (str_field (default VNull _) _) as [bt|]; [|done].
    cbn [mbind option_bind]. repeat (destruct (ustr_eqb bt _); [done|]). done. }
  repeat (destruct (ustr_eqb ty _); [done|]). done.
Qed.

Fixpoint run S (es : list sse_event) : list StreamEvent * AnthropicSse :=
  match es with
  | [] => ([], S)
  | e :: es' => let '(o, S1) := step S e in let '(o', S2) := run S1 es' in (o ++ o', S2)
  end.

Lemma run_app S es1 es2 :
  run S (es1 ++ es2) = ((run S es1).1 ++ (run (run S es1).2 es2).1, (run (run S es1).2 es2).2).
Proof.
  revert S. induction es1 as [|e es1 IH]; intros S; cbn [run app fst snd]; [by destruct (run S es2)|].
  destruct (step S e) as [o S1]. rewrite IH. destruct (run S1 es1) as [o1 S2]. cbn [fst snd].
  by rewrite app_assoc.
Qed.

Definition not_ignored e : bool := match e with Ignored => false | _ => true end.
Lemma run_ignored S es : run S es = run S (retain not_ignored es).
Proof.
  revert S. induction es as [|e es IH]; intros S; [done|]. cbn [retain List.filter run].
  destruct e; cbn [not_ignored run]; try (by destruct (step S _); rewrite IH).
  cbn [step]. rewrite IH. by destruct (run S _).
Qed.

(** ** Content blocks *)

(** A block of an answer with the pieces it is streamed in. *)
Inductive block :=
| SText (ts : list bytes)
| STool (id name : bytes) (frags : list bytes)
| SThinking (ds : list (bytes + bytes))
| SRedacted (data : bytes).

Definition lefts (ds : list (bytes + bytes)) : list bytes := omap (λ d, match d with inl t => Some t | inr _ => None end) ds.
Definition rights (ds : list (bytes + bytes)) : list bytes := omap (λ d, match d with inr s => Some s | inl _ => None end) ds.

Definition part_of (k : block) : ContentPart :=
  match k with
  | SText ts => Text (concat ts)
  | STool id name frags => ToolCall id name (parse_args (concat frags))
  | SThinking ds => Reasoning (concat (lefts ds)) (if is_empty (rights ds) then None else Some (concat (rights ds)))
  | SRedacted data => RedactedReasoning data
  end.

Definition script_of (i : N) (k : block) : list sse_event :=
  match k with
  | SText ts => BlockStart i KText :: map (λ t, BlockDelta i (DText t)) ts
  | STool id name frags => BlockStart i (KTool id name) :: map (λ f, BlockDelta i (DJson f)) frags
  | SThinking ds =>
      BlockStart i KThinking
        :: map (λ d, BlockDelta i (match d with inl t => DThinking t | inr s => DSignature s end)) ds
  | SRedacted data => [BlockStart i (KRedacted data)]
  end ++ [BlockStop i].

Definition shown_of (i : N) (k : block) : list StreamEvent :=
  match k with
  | SText ts => map TextDelta ts
  | STool id name frags => ToolCallStart i id name :: map (ToolCallDelta i) frags
  | SThinking ds => map ReasoningDelta (lefts ds)
  | SRedacted _ => []
  end.

Lemma with_parts_parts S ps : s_parts (with_parts S ps) = ps.
Proof. done. Qed.
Lemma with_parts_twice S ps qs : with_parts (with_parts S ps) qs = with_parts S qs.
Proof. done. Qed.
Lemma update_last_snoc f ps p : update_last f (ps ++ [p]) = ps ++ [f p].
Proof.
  unfold update_last. rewrite list.last_snoc, length_app. cbn [length]. rewrite Nat.add_sub.
  by rewrite take_app_length.
Qed.

Lemma run_texts S i ps t ts :
  run (with_parts S (ps ++ [Text t])) (map (λ t, BlockDelta i (DText t)) ts)
  = (map TextDelta ts, with_parts S (ps ++ [Text (t ++ concat ts)])).
Proof.
  revert t. induction ts as [|x ts IH]; intros t; cbn [map run concat]; [by rewrite app_nil_r|].
  cbn [step]. rewrite with_parts_parts, with_parts_twice, update_last_snoc. cbn [push_text].
  rewrite IH, <- app_assoc. done.
Qed.

Definition signed (sig : option bytes) (ss : list bytes) : option bytes :=
  match sig with
  | Some s => Some (s ++ concat ss)
  | None => if is_empty ss then None else Some (concat ss)
  end.

Lemma run_thinking S i ps t sig ds :
  run (with_parts S (ps ++ [Reasoning t sig]))
    (map (λ d, BlockDelta i (match d with inl t => DThinking t | inr s => DSignature s end)) ds)
  = (map ReasoningDelta (lefts ds),
     with_parts S (ps ++ [Reasoning (t ++ concat (lefts ds)) (signed sig (rights ds))])).
Proof.
  revert t sig. induction ds as [|[x|x] ds IH]; intros t sig; cbn [map run].
  - cbn. rewrite app_nil_r. do 4 f_equal. destruct sig; cbn; by rewrite ?app_nil_r.
  - cbn [step]. rewrite with_parts_parts, with_parts_twice, update_last_snoc. cbn [push_thinking].
    rewrite IH. cbn. by rewrite <- app_assoc.
  - cbn [step]. rewrite with_parts_parts, with_parts_twice, update_last_snoc. cbn [push_signature].
    rewrite IH. cbn. do 5 f_equal. destruct sig; cbn; by rewrite ?app_assoc.
Qed.

Lemma run_frags S i k buf frags :
  tool_args_buf S !! i = Some (k, buf) →
  run S (map (λ f, BlockDelta i (DJson f)) frags)
  = (map (ToolCallDelta i) frags, with_args S (<[i := (k, buf ++ concat frags)]> (tool_args_buf S))).
Proof.
  revert S buf. induction frags as [|f frags IH]; intros S buf Hl; cbn [map run concat].
  - rewrite app_nil_r, insert_id by done. by destruct S.
  - cbn [step]. rewrite Hl. rewrite (IH _ (buf ++ f)) by (cbn; by rewrite lookup_insert_eq).
    cbn [tool_args_buf with_args]. rewrite insert_insert_eq, <- app_assoc. done.
Qed.

(** A whole block adds its part and leaves no argument buffer behind. *)
Lemma run_block S i k :
  tool_args_buf S !! i = None →
  run S (script_of i k) = (shown_of i k, with_parts S (s_parts S ++ [part_of k])).
Proof.
  intros Hi. assert (∀ ps, block_stop (with_parts S ps) i = with_parts S ps) as Hstop
    by (intros ps; unfold block_stop; cbn; by rewrite Hi).
  destruct k as [ts|id name frags|ds|data]; unfold script_of, shown_of, part_of; cbn [app run].
  - cbn [step]. rewrite run_app, run_texts. cbn [fst snd run step]. by rewrite Hstop, app_nil_r.
  - cbn [step]. rewrite run_app.
    rewrite (run_frags _ i (length (s_parts S)) []) by (cbn; by rewrite lookup_insert_eq).
    cbn [fst snd run step]. rewrite !app_nil_r. f_equal. unfold block_stop. cbn.
    rewrite !insert_insert_eq, lookup_insert_eq, list_lookup_middle by done.
    unfold with_parts, with_args. cbn. rewrite delete_insert_id by done.
    rewrite insert_app_r_alt by lia. rewrite Nat.sub_diag. done.
  - cbn [step]. rewrite run_app, run_thinking. cbn [fst snd run step]. by rewrite Hstop, app_nil_r.
  - cbn [step]. by rewrite Hstop.
Qed.

Fixpoint blocks_script (i : N) (ks : list block) : list sse_event :=
  match ks with [] => [] | k :: ks' => script_of i k ++ blocks_script (i + 1) ks' end.
Fixpoint blocks_shown (i : N) (ks : list block) : list StreamEvent :=
  match ks with [] => [] | k :: ks' => shown_of i k ++ blocks_shown (i + 1) ks' end.

Lemma run_blocks S i ks :
  (∀ j, tool_args_buf S !! j = None) →
  run S (blocks_script i ks) = (blocks_shown i ks, with_parts S (s_parts S ++ map part_of ks)).
Proof.
  revert S i. induction ks as [|k ks IH]; intros S i Hi; cbn [blocks_script blocks_shown map run].
  - rewrite app_nil_r. by destruct S.
  - rewrite run_app, run_block by done. cbn [fst snd]. rewrite IH by done. cbn [fst snd].
    rewrite with_parts_twice, with_parts_parts, <- app_assoc. done.
Qed.

(** ** Whole answers *)

(** The events of an answer, and the answer. *)
Definition answer_script us m ks sr out : list sse_event :=
  MessageStart (Some us) (Some m) :: blocks_script 0 ks ++ [MessageDelta (Some sr) (Some out); MessageStop].

Definition answer_of us m ks sr out : ChatResponse := {|
  parts := map part_of ks; stop := parse_stop_reason (Some sr); usage := with_output us out;
  model_used := m; provider := b "anthropic"
|}.

Lemma run_answer us m ks sr out :
  let '(shown, st) := run AnthropicSse_default (answer_script us m ks sr out) in
  shown = blocks_shown 0 ks ∧ s_finished st = true
  ∧ (anthropic_finalize st).1 = Ok (Done (answer_of us m ks sr out)).
Proof.
  unfold answer_script. cbn [run step]. rewrite run_app, run_blocks by (intros j; apply lookup_empty).
  cbn. rewrite !app_nil_r. done.
Qed.

(** What a line of the stream carries. *)
Definition line_value (line : bytes) : option Value :=
  data ← sse_data line; if is_empty data then None else json_from_str data.

Definition ends e : bool := match e with MessageStop | StreamError _ => true | _ => false end.

Lemma step_finished S e : s_finished (step S e).2 = s_finished S || ends e.
Proof.
  destruct e as [us m|i k|i d|i|sr out| |msg|]; cbn; rewrite ?orb_true_r, ?orb_false_r; try done.
  - by destruct us, m.
  - by destruct k.
  - destruct d; cbn; try done. by destruct (tool_args_buf S !! i) as [[]|].
  - unfold block_stop. destruct (tool_args_buf S !! i) as [[k buf]|]; [|done]. cbn.
    by destruct (s_parts S !! k) as [[]|].
  - by destruct sr, out.
Qed.

(** Feeding lines is running their events, up to the one that ends the
    stream. *)
Lemma feed_lines S ls es1 e vs2 :
  s_finished S = false → (∀ x, x ∈ es1 → ends x = false) → ends e = true →
  map event_of (omap line_value ls) = es1 ++ e :: vs2 →
  feed_chunk anthropic_parser S ls = run S (es1 ++ [e]).
Proof.
  revert S es1. induction ls as [|l ls IH]; intros S es1 Hf Hno He Hm; [by destruct es1|].
  cbn [feed_chunk]. unfold on_line at 1, finished at 1. cbn [anthropic_parser].
  assert (anthropic_on_line S l = match line_value l with Some v => handle_event S v | None => ([], S) end) as ->.
  { unfold anthropic_on_line, line_value. destruct (sse_data l) as [data|]; [|done]. cbn [mbind option_bind].
    by destruct (is_empty data). }
  cbn [omap list_omap] in Hm. destruct (line_value l) as [v|].
  - rewrite handle_event_step. cbn [map] in Hm. destruct es1 as [|e1 es1]; cbn [app] in Hm; simplify_eq.
    + cbn [app run]. pose proof (step_finished S (event_of v)) as Hs.
      destruct (step S (event_of v)) as [o S1]. cbn [snd] in Hs. rewrite Hs, He, orb_true_r. by rewrite app_nil_r.
    + cbn [app run]. pose proof (step_finished S (event_of v)) as Hs.
      destruct (step S (event_of v)) as [o S1]. cbn [snd] in Hs.
      rewrite Hs, Hf, (Hno (event_of v)) by left. cbn [orb].
      rewrite (IH S1 es1); [done| |intros x Hx; apply Hno; by right|done|done].
      by rewrite Hs, Hf, (Hno (event_of v)) by left.
  - rewrite Hf, (IH S es1) by done. by destruct (run S (es1 ++ [e])).
Qed.

(** [ChatResponse::text], and the text a client is shown. *)
Definition text_part (p : ContentPart) : option bytes := match p with Text t => Some t | _ => None end.
Definition response_text (r : ChatResponse) : bytes := concat (omap text_part (parts r)).
Definition shown_text (x : StreamEvent) : option bytes := match x with TextDelta t => Some t | _ => None end.

Lemma shown_of_text i k : concat (omap shown_text (shown_of i k)) = concat (omap text_part [part_of k]).
Proof.
  destruct k as [ts|id name frags|ds|data]; cbn.
  - rewrite app_nil_r. induction ts as [|t ts IH]; cbn; [done|]. by rewrite IH.
  - induction frags as [|f frags IH]; cbn; [done|]. by rewrite IH.
  - induction (lefts ds) as [|t ts IH]; cbn; [done|]. by rewrite IH.
  - done.
Qed.

Lemma blocks_shown_text i ks :
  concat (omap shown_text (blocks_shown i ks)) = concat (omap text_part (map part_of ks)).
Proof.
  revert i. induction ks as [|k ks IH]; intros i; [done|]. cbn [blocks_shown map].
  rewrite omap_app, concat_app, IH, shown_of_text. cbn. destruct (text_part (part_of k)); cbn; by rewrite ?app_nil_r.
Qed.

Lemma script_no_end i ks x : x ∈ blocks_script i ks → ends x = false.
Proof.
  revert i. induction ks as [|k ks IH]; intros i; cbn [blocks_script]; [by intros ?%elem_of_nil|].
  intros [[Hx|Hx]%elem_of_app|Hx]%elem_of_app; [| |by eapply IH].
  - destruct k; repeat (apply elem_of_cons in Hx as [->|Hx]; [done|]);
      try (by apply elem_of_nil in Hx); apply list_elem_of_fmap in Hx as (y & -> & _); done.
  - by apply list_elem_of_singleton in Hx as ->.
Qed.

(** C25: A streamed answer is the whole answer: when the lines received carry
    the events of an answer, whatever the chunks, the pieces its blocks are
    cut into and the lines in between, the stream yields the pieces in order
    and ends with exactly the response that [parse_response] reads from the
    corresponding whole body, and the text shown is the response's text. *)
Theorem streamed_equals_whole {transport} (classify : transport → LlmError) incoming whole items uv us m ks sr out es more :
  map event_of (omap line_value (map clean_line (split_newlines [] (received incoming).1).1))
    = es ++ MessageStop :: more →
  retain not_ignored (es ++ [MessageStop]) = answer_script us m ks sr out →
  get whole (b "content") = Some (VArray items) → map parse_block items = map (λ k, [part_of k]) ks →
  str_field whole (b "stop_reason") = Some sr → str_field whole (b "model") = Some m →
  get whole (b "usage") = Some uv → parse_usage uv = with_output us out →
  ∃ r, parse_response whole = Ok r
    ∧ yields anthropic_parser classify incoming (drive_start AnthropicSse_default)
        (map Ok (blocks_shown 0 ks) ++ [Ok (Done r)])
    ∧ response_text r = concat (omap shown_text (blocks_shown 0 ks)).
Proof.
  intros Hev Hscript Hc Hp Hsr Hm Hu Hus. exists (answer_of us m ks sr out). split_and!.
  - unfold parse_response. rewrite Hc, Hu, Hsr. unfold str_or_empty. rewrite Hm. cbn.
    rewrite Hp, Hus. unfold answer_of. do 2 f_equal.
    clear. induction ks as [|k ks IH]; cbn; [done|]. by rewrite IH.
  - apply driven_stream. unfold sse_spec.
    destruct (split_newlines [] (received incoming).1) as [raw rest]. cbn [fst] in Hev.
    assert (∀ x, x ∈ es → ends x = false) as Hno.
    { intros x Hx. destruct (not_ignored x) eqn:En; [|by destruct x].
      assert (x ∈ retain not_ignored es) as Hin by by apply elem_of_retain.
      assert (retain not_ignored es ++ [MessageStop]
        = (MessageStart (Some us) (Some m) :: blocks_script 0 ks ++ [MessageDelta (Some sr) (Some out)]) ++ [MessageStop]) as He.
      { rewrite filter_app in Hscript. cbn in Hscript. rewrite Hscript. unfold answer_script.
        cbn. by rewrite <- app_assoc. }
      apply app_inj_tail in He as [He _]. rewrite He in Hin.
      apply elem_of_cons in Hin as [->|[Hin|Hin]%elem_of_app]; [done|by eapply script_no_end|].
      by apply list_elem_of_singleton in Hin as ->. }
    unfold feed. cbn [finished anthropic_parser AnthropicSse_default s_finished].
    rewrite (feed_lines _ _ es MessageStop more) by done. rewrite run_ignored, Hscript.
    pose proof (run_answer us m ks sr out) as Hr.
    destruct (run AnthropicSse_default _) as [shown st]. destruct Hr as (-> & Hf & Hfin).
    cbn [finished finalize anthropic_parser]. by rewrite Hf, Hfin.
  - unfold response_text. cbn [answer_of parts]. by rewrite blocks_shown_text.
Qed.
End events.

(** ** A concrete stream *)

Definition S_ (x : string) : Value := VString (b x).
Definition obj1 (l : list (string * Value)) : Value := VObject (map (λ e, (b e.1, e.2)) l).

(** The events of an answer with a text and a tool call, under short names. *)
Definition demo_events : list (bytes * Value) :=
  [(b "m0", obj1 [("type", S_ "message_start");
                  ("message", obj1 [("model", S_ "opus"); ("usage", obj1 [("input_tokens", VNumber (b "7"))])])]);
   (b "p", obj1 [("type", S_ "ping")]);
   (b "t0", obj1 [("type", S_ "content_block_start"); ("index", VNumber (b "0"));
                  ("content_block", obj1 [("type", S_ "text"); ("text", S_ "")])]);
   (b "t1", obj1 [("type", S_ "content_block_delta"); ("index", VNumber (b "0"));
                  ("delta", obj1 [("type", S_ "text_delta"); ("text", S_ "Hel")])]);
   (b "t2", obj1 [("type", S_ "content_block_delta"); ("index", VNumber (b "0"));
                  ("delta", obj1 [("type", S_ "text_delta"); ("text", S_ "lo")])]);
   (b "t3", obj1 [("type", S_ "content_block_stop"); ("index", VNumber (b "0"))]);
   (b "u0", obj1 [("type", S_ "content_block_start"); ("index", VNumber (b "1"));
                  ("content_block", obj1 [("type", S_ "tool_use"); ("id", S_ "c1"); ("name", S_ "rm")])]);
   (b "u1", obj1 [("type", S_ "content_block_delta"); ("index", VNumber (b "1"));
                  ("delta", obj1 [("type", S_ "input_json_delta"); ("partial_json", S_ "{args")])]);
   (b "u2", obj1 [("type", S_ "content_block_delta"); ("index", VNumber (b "1"));
                  ("delta", obj1 [("type", S_ "input_json_delta"); ("partial_json", S_ "}")])]);
   (b "u3", obj1 [("type", S_ "content_block_stop"); ("index", VNumber (b "1"))]);
   (b "m1", obj1 [("type", S_ "message_delta"); ("delta", obj1 [("stop_reason", S_ "tool_use")]);
                  ("usage", obj1 [("output_tokens", VNumber (b "7"))])]);
   (b "m2", obj1 [("type", S_ "message_stop")]);
   (b "{args}", obj1 [("path", S_ "/tmp/x")])].

Definition demo_json_text : JsonText := {|
  json_from_str s := entry demo_events s;
  json_display _ := [];
  number_as_u64 n := if ustr_eqb n (b "7") then Some 7%N else if ustr_eqb n (b "1") then Some 1%N else Some 0%N
|}.

Definition lf : bytes := [10%N].
Definition demo_body : list (result bytes unit) :=
  [Ok (b "data: m0" ++ lf ++ b "event: x" ++ lf ++ b "data: p" ++ lf ++ b "da");
   Ok (b "ta: t0" ++ lf ++ b "data: t1" ++ lf ++ b "data: t2" ++ lf ++ lf ++ b "data: t3" ++ lf ++ b "data: u0");
   Ok (lf ++ b "data: u1" ++ lf ++ b "data: u2" ++ lf ++ b "data: u3" ++ lf ++ b "data: m1" ++ lf);
   Ok (b "data:m2" ++ lf ++ b "data: t1" ++ lf)].

Definition demo_blocks : list block := [SText [b "Hel"; b "lo"]; STool (b "c1") (b "rm") [b "{args"; b "}"]].

Definition demo_whole : Value :=
  obj1 [("content", VArray [obj1 [("type", S_ "text"); ("text", S_ "Hello")];
                            obj1 [("type", S_ "tool_use"); ("id", S_ "c1"); ("name", S_ "rm");
                                  ("input", obj1 [("path", S_ "/tmp/x")])]]);
        ("stop_reason", S_ "tool_use"); ("model", S_ "opus");
        ("usage", obj1 [("input_tokens", VNumber (b "7")); ("output_tokens", VNumber (b "7"))])].

Definition demo_classify (_ : unit) : LlmError := Parse [].

Lemma streamed_equals_whole_witness :
  ∃ r, parse_response (H := demo_json_text) demo_whole = Ok r
    ∧ yields (anthropic_parser (H := demo_json_text)) demo_classify demo_body (drive_start AnthropicSse_default)
        (map Ok (blocks_shown 0 demo_blocks) ++ [Ok (Done r)])
    ∧ response_text r = concat (omap shown_text (blocks_shown 0 demo_blocks)).
Proof.
  exact (streamed_equals_whole (H := demo_json_text) demo_classify demo_body demo_whole
    [obj1 [("type", S_ "text"); ("text", S_ "Hello")];
     obj1 [("type", S_ "tool_use"); ("id", S_ "c1"); ("name", S_ "rm"); ("input", obj1 [("path", S_ "/tmp/x")])]]
    (obj1 [("input_tokens", VNumber (b "7")); ("output_tokens", VNumber (b "7"))])
    {| input_tokens := 7; output_tokens := 0; cache_read_tokens := 0; cache_write_tokens := 0; reasoning_tokens := 0 |}
    (b "opus") demo_blocks (b "tool_use") 7%N
    [MessageStart (Some {| input_tokens := 7; output_tokens := 0; cache_read_tokens := 0; cache_write_tokens := 0;
                           reasoning_tokens := 0 |}) (Some (b "opus"));
     Ignored; BlockStart 0 KText; BlockDelta 0 (DText (b "Hel")); BlockDelta 0 (DText (b "lo")); BlockStop 0;
     BlockStart 1 (KTool (b "c1") (b "rm")); BlockDelta 1 (DJson (b "{args")); BlockDelta 1 (DJson (b "}"));
     BlockStop 1; MessageDelta (Some (b "tool_use")) (Some 7%N)]
    [BlockDelta 0 (DText (b "Hel"))]
    ltac:(vm_compute; reflexivity) ltac:(vm_compute; reflexivity) ltac:(vm_compute; reflexivity)
    ltac:(vm_compute; reflexivity) ltac:(vm_compute; reflexivity) ltac:(vm_compute; reflexivity)
    ltac:(vm_compute; reflexivity) ltac:(vm_compute; reflexivity)).
Defined.

(** A stream that is cut off passes for a finished answer: when the body
    ends inside a tool call, before [message_stop], the response still ends
    with [EndTurn], and the call is in it with null arguments. *)
Lemma cut_stream_completes :
  yields (anthropic_parser (H := demo_json_text)) demo_classify
    [Ok (b "data: m0" ++ lf ++ b "data: u0" ++ lf ++ b "data: u1" ++ lf)] (drive_start AnthropicSse_default)
    [Ok (ToolCallStart 1 (b "c1") (b "rm")); Ok (ToolCallDelta 1 (b "{args"));
     Ok (Done {| parts := [ToolCall (b "c1") (b "rm") VNull]; stop := EndTurn;
                 usage := {| input_tokens := 7; output_tokens := 0; cache_read_tokens := 0; cache_write_tokens := 0;
                             reasoning_tokens := 0 |};
                 model_used := b "opus"; provider := b "anthropic" |})].
Proof. apply driven_stream. vm_compute. reflexivity. Qed.
