(* ===== verification/ConversationQueue.v ===== *)
(** * Conversation queues (crates/duduclaw-gateway/src/conversation_queue.rs)

    One worker per conversation, a bounded channel in front of it and a cap
    per group.  The bounded channel of tokio is the interface [Mpsc].  Every
    critical section of the code is one step; a step relation interleaves the
    submitting tasks and the workers. *)

From S2P Require Import Prelude.

(** A queued message; it carries the slot of its group, which its end (or its
    being dropped) gives back. *)
Record Job := { job_id : nat; job_group : ustr; job_key : ustr }.

#[export] Instance Job_eq_dec : EqDecision Job.
Proof. solve_decision. Defined.

(** [tokio::sync::mpsc] with a bound: a first-in, first-out queue. *)
Class Mpsc := {
  channel : Type;
  channel_new : nat → channel;
  queued : channel → list Job;
  capacity : channel → nat;
  try_send : channel → Job → option channel;
  try_recv : channel → option (Job * channel);
  channel_new_spec n : queued (channel_new n) = [] ∧ capacity (channel_new n) = n;
  try_send_full c j : try_send c j = None ↔ (capacity c ≤ length (queued c))%nat;
  try_send_ok c j c' : try_send c j = Some c' → queued c' = queued c ++ [j] ∧ capacity c' = capacity c;
  try_recv_empty c : try_recv c = None ↔ queued c = [];
  try_recv_ok c j c' : try_recv c = Some (j, c') → queued c = j :: queued c' ∧ capacity c' = capacity c;
}.

Inductive QueueFull := queue_full.

Definition DEFAULT_PER_CONVERSATION : nat := 10.
Definition DEFAULT_PER_GROUP : nat := 40.

(** Where [run_conversation] is: before [try_recv], inside a job, or after an
    empty [try_recv] and before the lock. *)
Inductive worker_at := AtRecv | Running (j : Job) | AtCheck.

Section queue.
Context `{Mpsc}.

Record worker := { w_id : nat; w_key : ustr; w_rx : channel; w_at : worker_at }.

Record ConversationQueue := {
  senders : gmap ustr nat;
  groups : gmap ustr nat;
  per_conversation : nat;
  per_group : nat;
  workers : list worker;
  next_id : nat;
  pending : list Job;
  accepted : list Job;
  disposed : list (Job * bool);
}.
Implicit Types (q : ConversationQueue) (j : Job) (g k : ustr) (w : worker).

(** [with_caps]. *)
Definition with_caps (pc pg : nat) : ConversationQueue := {|
  senders := ∅; groups := ∅; per_conversation := Nat.max pc 1; per_group := Nat.max pg 1;
  workers := []; next_id := 0; pending := []; accepted := []; disposed := []
|}.
Definition ConversationQueue_default := with_caps DEFAULT_PER_CONVERSATION DEFAULT_PER_GROUP.

(** [GroupSlot::drop]. *)
Definition release_slot (gs : gmap ustr nat) g : gmap ustr nat :=
  match gs !! g with
  | Some n => let n := (n - 1)%nat in if (n =? 0)%nat then delete g gs else <[g := n]> gs
  | None => gs
  end.
Definition release_slots (gs : gmap ustr nat) (js : list Job) : gmap ustr nat :=
  foldl (λ gs j, release_slot gs (job_group j)) gs js.

(** [submit_in], first critical section: a slot of the group. *)
Definition take_slot q j : result unit QueueFull * ConversationQueue :=
  let n := default 0%nat (groups q !! job_group j) in
  if (per_group q <=? n)%nat then (Err queue_full, q)
  else
    (Ok tt, {| senders := senders q; groups := <[job_group j := S n]> (groups q);
               per_conversation := per_conversation q; per_group := per_group q; workers := workers q;
               next_id := next_id q; pending := j :: pending q; accepted := accepted q;
               disposed := disposed q |}).

Definition find_worker (ws : list worker) (id : nat) : option worker :=
  List.find (λ w, (w_id w =? id)%nat) ws.
Definition set_worker (ws : list worker) (w' : worker) : list worker :=
  map (λ w, if (w_id w =? w_id w')%nat then w' else w) ws.
Definition remove_worker (ws : list worker) (id : nat) : list worker :=
  retain (λ w, negb (w_id w =? id)%nat) ws.

Definition with_rx w rx at_ : worker := {| w_id := w_id w; w_key := w_key w; w_rx := rx; w_at := at_ |}.

Fixpoint remove_job (j : Job) (js : list Job) : list Job :=
  match js with [] => [] | x :: r => if bool_decide (x = j) then r else x :: remove_job j r end.

(** [submit_in], second critical section: the job goes to the conversation's
    channel, or a new worker is started for it. *)
Definition start_worker q j (snd : gmap ustr nat) : result unit QueueFull * ConversationQueue :=
  match try_send (channel_new (per_conversation q)) j with
  | None =>
      (Err queue_full, {| senders := snd; groups := release_slot (groups q) (job_group j);
                          per_conversation := per_conversation q; per_group := per_group q;
                          workers := workers q; next_id := next_id q; pending := remove_job j (pending q);
                          accepted := accepted q; disposed := disposed q |})
  | Some rx =>
      (Ok tt, {| senders := <[job_key j := next_id q]> snd; groups := groups q;
                 per_conversation := per_conversation q; per_group := per_group q;
                 workers := {| w_id := next_id q; w_key := job_key j; w_rx := rx; w_at := AtRecv |} :: workers q;
                 next_id := S (next_id q); pending := remove_job j (pending q);
                 accepted := accepted q ++ [j]; disposed := disposed q |})
  end.

Definition send_job q j : result unit QueueFull * ConversationQueue :=
  match senders q !! job_key j with
  | Some id =>
      match find_worker (workers q) id with
      | Some w =>
          match try_send (w_rx w) j with
          | Some rx =>
              (Ok tt, {| senders := senders q; groups := groups q; per_conversation := per_conversation q;
                         per_group := per_group q; workers := set_worker (workers q) (with_rx w rx (w_at w));
                         next_id := next_id q; pending := remove_job j (pending q);
                         accepted := accepted q ++ [j]; disposed := disposed q |})
          | None =>
              (Err queue_full, {| senders := senders q; groups := release_slot (groups q) (job_group j);
                                  per_conversation := per_conversation q; per_group := per_group q;
                                  workers := workers q; next_id := next_id q;
                                  pending := remove_job j (pending q); accepted := accepted q;
                                  disposed := disposed q |})
          end
      | None => start_worker q j (delete (job_key j) (senders q))
      end
  | None => start_worker q j (senders q)
  end.

(** The worker's [try_recv]. *)
Definition worker_recv q w : ConversationQueue :=
  let '(w', log) :=
    match try_recv (w_rx w) with
    | Some (j, rx) => (with_rx w rx (Running j), [(j, true)])
    | None => (with_rx w (w_rx w) AtCheck, [])
    end in
  {| senders := senders q; groups := groups q; per_conversation := per_conversation q; per_group := per_group q;
     workers := set_worker (workers q) w'; next_id := next_id q; pending := pending q; accepted := accepted q;
     disposed := disposed q ++ log |}.

(** The end of a job, also by a panic. *)
Definition worker_done q w j : ConversationQueue :=
  {| senders := senders q; groups := release_slot (groups q) (job_group j);
     per_conversation := per_conversation q; per_group := per_group q;
     workers := set_worker (workers q) (with_rx w (w_rx w) AtRecv); next_id := next_id q;
     pending := pending q; accepted := accepted q; disposed := disposed q |}.

(** The emptiness check under the lock. *)
Definition worker_check q w : ConversationQueue :=
  if is_empty (queued (w_rx w)) then
    {| senders := delete (w_key w) (senders q); groups := groups q;
       per_conversation := per_conversation q; per_group := per_group q;
       workers := remove_worker (workers q) (w_id w); next_id := next_id q; pending := pending q;
       accepted := accepted q; disposed := disposed q |}
  else
    {| senders := senders q; groups := groups q; per_conversation := per_conversation q; per_group := per_group q;
       workers := set_worker (workers q) (with_rx w (w_rx w) AtRecv); next_id := next_id q;
       pending := pending q; accepted := accepted q; disposed := disposed q |}.

(** A worker that dies: the receiver is dropped with what is in it. *)
Definition jobs_of w : list Job := match w_at w with Running j => [j] | _ => [] end ++ queued (w_rx w).
Definition worker_dies q w : ConversationQueue :=
  {| senders := senders q; groups := release_slots (groups q) (jobs_of w);
     per_conversation := per_conversation q; per_group := per_group q;
     workers := remove_worker (workers q) (w_id w); next_id := next_id q; pending := pending q;
     accepted := accepted q; disposed := disposed q ++ map (λ j, (j, false)) (queued (w_rx w)) |}.

(** ** Interleavings *)

(** The steps of the workers by themselves. *)
Inductive worker_step : ConversationQueue → ConversationQueue → Prop :=
| step_recv q w : w ∈ workers q → w_at w = AtRecv → worker_step q (worker_recv q w)
| step_done q w j : w ∈ workers q → w_at w = Running j → worker_step q (worker_done q w j)
| step_check q w : w ∈ workers q → w_at w = AtCheck → worker_step q (worker_check q w).

Inductive queue_step : ConversationQueue → ConversationQueue → Prop :=
| step_slot q j r q' : take_slot q j = (r, q') → queue_step q q'
| step_send q j r q' : j ∈ pending q → send_job q j = (r, q') → queue_step q q'
| step_worker q q' : worker_step q q' → queue_step q q'
| step_dies q w : w ∈ workers q → queue_step q (worker_dies q w).

Definition reachable q : Prop := ∃ pc pg, rtc queue_step (with_caps pc pg) q.

(** ** The invariant *)

Definition live_jobs q : list Job := pending q ++ concat (map jobs_of (workers q)).
Definition in_group g (js : list Job) : nat := length (retain (λ j, bool_decide (job_group j = g)) js).
Definition of_key k (js : list Job) : list Job := retain (λ j, bool_decide (job_key j = k)) js.
Definition waiting_in k (ws : list worker) : list Job :=
  concat (map (λ w, if bool_decide (w_key w = k) then queued (w_rx w) else []) ws).
Definition waiting k q : list Job := waiting_in k (workers q).

(** A slot table that counts [f], without zero entries. *)
Definition counts (gs : gmap ustr nat) (f : ustr → nat) : Prop :=
  ∀ g, default 0%nat (gs !! g) = f g ∧ gs !! g ≠ Some 0%nat.

Record worker_ok q w : Prop := {
  ok_sender : senders q !! w_key w = Some (w_id w);
  ok_id : (w_id w < next_id q)%nat;
  ok_cap : capacity (w_rx w) = per_conversation q ∧ (length (queued (w_rx w)) ≤ per_conversation q)%nat;
  ok_keys : Forall (λ j, job_key j = w_key w) (jobs_of w);
}.

Record queue_inv q : Prop := {
  inv_caps : (1 ≤ per_conversation q ∧ 1 ≤ per_group q)%nat;
  inv_ids : NoDup (map w_id (workers q));
  inv_workers : Forall (worker_ok q) (workers q);
  inv_senders : ∀ k id, senders q !! k = Some id → (id < next_id q)%nat;
  inv_key : ∀ k id w, senders q !! k = Some id → w ∈ workers q → w_id w = id → w_key w = k;
  inv_groups : counts (groups q) (λ g, in_group g (live_jobs q));
  inv_bound : ∀ g, (in_group g (live_jobs q) ≤ per_group q)%nat;
  inv_fifo : ∀ k, of_key k (accepted q) = of_key k (map fst (disposed q)) ++ waiting k q;
}.

(** ** Lemmas *)

Lemma in_group_app g js1 js2 : in_group g (js1 ++ js2) = (in_group g js1 + in_group g js2)%nat.
Proof. unfold in_group. by rewrite filter_app, length_app. Qed.

Lemma of_key_app k js1 js2 : of_key k (js1 ++ js2) = of_key k js1 ++ of_key k js2.
Proof. apply filter_app. Qed.

Lemma in_group_perm g js1 js2 : js1 ≡ₚ js2 → in_group g js1 = in_group g js2.
Proof. induction 1; unfold in_group in *; simpl; repeat case_match; simpl; congruence. Qed.

Lemma of_key_all k js : Forall (λ j, job_key j = k) js → of_key k js = js.
Proof.
  intros Hf. apply retain_all. eapply List.Forall_impl; [|exact Hf]. intros j <-. by apply bool_decide_eq_true.
Qed.

Lemma of_key_none k k' js : Forall (λ j, job_key j = k) js → k ≠ k' → of_key k' js = [].
Proof.
  intros Hf Hne. apply retain_none. eapply List.Forall_impl; [|exact Hf]. intros j <-. by apply bool_decide_eq_false.
Qed.

Lemma counts_ext gs f f' : (∀ g, f g = f' g) → counts gs f → counts gs f'.
Proof. intros Hf Hc g. rewrite <- Hf. apply Hc. Qed.

Lemma counts_release gs f j :
  counts gs (λ g, (in_group g [j] + f g)%nat) → counts (release_slot gs (job_group j)) f.
Proof.
  intros Hc g. pose proof (Hc (job_group j)) as [Hj Hj0]. unfold in_group in Hj. cbn in Hj.
  rewrite bool_decide_eq_true_2 in Hj by done. cbn in Hj. unfold release_slot.
  destruct (gs !! job_group j) as [n|] eqn:En; cbn in Hj; [|lia].
  destruct (decide (g = job_group j)) as [->|Hne].
  - destruct (Nat.eqb_spec (n - 1) 0) as [E0|E0].
    + rewrite lookup_delete_eq. cbn. split; [lia|done].
    + rewrite lookup_insert_eq. cbn. split; [lia|congruence].
  - specialize (Hc g). unfold in_group in Hc. cbn in Hc. rewrite bool_decide_eq_false_2 in Hc by congruence.
    cbn in Hc. destruct (n - 1 =? 0)%nat; [by rewrite lookup_delete_ne|by rewrite lookup_insert_ne].
Qed.

Lemma counts_releases gs f js :
  counts gs (λ g, (in_group g js + f g)%nat) → counts (release_slots gs js) f.
Proof.
  unfold release_slots. revert gs. induction js as [|j js IH]; intros gs Hc; cbn [foldl]; [done|].
  apply IH, counts_release. eapply counts_ext; [|exact Hc]. intros g. cbn beta.
  change (j :: js) with ([j] ++ js). rewrite in_group_app. lia.
Qed.

Lemma remove_job_perm j js : j ∈ js → js ≡ₚ j :: remove_job j js.
Proof.
  induction js as [|x js IH]; intros Hj; [by apply elem_of_nil in Hj|]. cbn [remove_job].
  destruct (bool_decide_reflect (x = j)) as [->|Hne]; [done|].
  apply elem_of_cons in Hj as [->|Hj]; [done|]. rewrite (IH Hj) at 1. constructor.
Qed.

(** Picking a worker out of the list. *)
Lemma worker_split w ws :
  w ∈ ws → NoDup (map w_id ws) →
  ∃ l1 l2, ws = l1 ++ w :: l2 ∧ find_worker ws (w_id w) = Some w
    ∧ (∀ w', w_id w' = w_id w → set_worker ws w' = l1 ++ w' :: l2)
    ∧ remove_worker ws (w_id w) = l1 ++ l2.
Proof.
  induction ws as [|x ws IH]; intros Hin Hnd; [by apply elem_of_nil in Hin|].
  cbn [map] in Hnd. apply list.NoDup_cons in Hnd as [Hx Hnd].
  assert (∀ y, y ∈ ws → w_id y ≠ w_id x) as Hne
    by (intros y Hy Hxy; apply Hx; rewrite <- Hxy; by apply list_elem_of_fmap_2).
  apply elem_of_cons in Hin as [->|Hin].
  - exists [], ws. split_and!; [done| | |].
    + unfold find_worker. cbn. by rewrite Nat.eqb_refl.
    + intros w' Hw'. unfold set_worker. cbn. rewrite Hw', Nat.eqb_refl. f_equal.
      rewrite <- (map_id ws) at 2. apply map_ext_in. intros y Hy%list_elem_of_In.
      apply Hne, Nat.eqb_neq in Hy. by rewrite Hy.
    + unfold remove_worker. cbn. rewrite Nat.eqb_refl. cbn. apply retain_all, List.Forall_forall.
      intros y Hy%list_elem_of_In. apply Hne, Nat.eqb_neq in Hy. by rewrite Hy.
  - destruct (IH Hin Hnd) as (l1 & l2 & -> & Hf & Hs & Hr).
    assert ((w_id x =? w_id w)%nat = false) as Hxw by (apply Nat.eqb_neq; symmetry; by apply Hne).
    exists (x :: l1), l2. split_and!; [done| | |].
    + unfold find_worker. cbn. by rewrite Hxw.
    + intros w' Hw'. specialize (Hs w' Hw'). unfold set_worker in *. cbn. rewrite Hw' in Hs |- *.
      by rewrite Hxw, Hs.
    + unfold remove_worker in *. cbn. rewrite Hxw. cbn. by f_equal.
Qed.

Lemma find_worker_some ws id w : find_worker ws id = Some w → w ∈ ws ∧ w_id w = id.
Proof. unfold find_worker. intros [Hi He]%find_some. apply Nat.eqb_eq in He. by rewrite list_elem_of_In. Qed.

Lemma live_jobs_split q l1 w l2 g :
  workers q = l1 ++ w :: l2 →
  in_group g (live_jobs q) =
    (in_group g (jobs_of w) + (in_group g (pending q) + in_group g (concat (map jobs_of (l1 ++ l2)))))%nat.
Proof.
  intros Hw. unfold live_jobs. rewrite Hw, !map_app, !concat_app. cbn [map concat].
  rewrite !in_group_app. lia.
Qed.

Lemma waiting_in_app k l1 l2 : waiting_in k (l1 ++ l2) = waiting_in k l1 ++ waiting_in k l2.
Proof. unfold waiting_in. by rewrite map_app, concat_app. Qed.

Lemma waiting_none k ws : Forall (λ x, w_key x ≠ k) ws → waiting_in k ws = [].
Proof.
  induction 1 as [|x ws Hx _ IH]; [done|]. unfold waiting_in in *. cbn.
  by rewrite bool_decide_eq_false_2, IH.
Qed.

Lemma waiting_mid k l1 w l2 :
  Forall (λ x, w_key x ≠ w_key w) (l1 ++ l2) →
  waiting_in k (l1 ++ w :: l2) = if bool_decide (w_key w = k) then queued (w_rx w) else waiting_in k (l1 ++ l2).
Proof.
  intros [H1 H2]%Forall_app. rewrite waiting_in_app. unfold waiting_in at 2. cbn [map concat].
  fold (waiting_in k l2). case_bool_decide as Hk.
  - subst k. by rewrite (waiting_none _ l1), (waiting_none _ l2), app_nil_r.
  - by rewrite waiting_in_app.
Qed.

(** A live worker, with the others around it. *)
Lemma inv_split q w :
  queue_inv q → w ∈ workers q →
  worker_ok q w ∧ find_worker (workers q) (w_id w) = Some w ∧
  ∃ l1 l2, workers q = l1 ++ w :: l2
    ∧ (∀ w', w_id w' = w_id w → set_worker (workers q) w' = l1 ++ w' :: l2)
    ∧ remove_worker (workers q) (w_id w) = l1 ++ l2
    ∧ Forall (λ x, w_key x ≠ w_key w ∧ w_id x ≠ w_id w ∧ worker_ok q x) (l1 ++ l2)
    ∧ NoDup (map w_id (l1 ++ l2)).
Proof.
  intros Hi Hw. destruct (worker_split w (workers q) Hw (inv_ids _ Hi)) as (l1 & l2 & Hl & Hf & Hs & Hr).
  pose proof (inv_workers _ Hi) as Ho. rewrite List.Forall_forall in Ho.
  split; [by apply Ho, list_elem_of_In|]. split; [done|]. exists l1, l2.
  pose proof (inv_ids _ Hi) as Hnd. rewrite Hl, map_app in Hnd. cbn [map] in Hnd.
  assert (map w_id l1 ++ w_id w :: map w_id l2 ≡ₚ w_id w :: map w_id (l1 ++ l2)) as Hp
    by (rewrite map_app; symmetry; apply Permutation_middle).
  rewrite Hp in Hnd. apply list.NoDup_cons in Hnd as [Hn Hnd].
  split_and!; [done|done|done| |done].
  apply List.Forall_forall. intros x Hx.
  assert (worker_ok q x) as Hox.
  { apply Ho. rewrite Hl. apply in_app_iff in Hx as [?|?]; apply in_app_iff; [by left|right; by right]. }
  assert (w_id x ≠ w_id w) as Hid
    by (intros Hid; apply Hn; rewrite <- Hid; apply list_elem_of_fmap_2; by apply list_elem_of_In).
  split_and!; [|done|done]. intros Hk. apply Hid.
  assert (worker_ok q w) as How by (by apply Ho, list_elem_of_In).
  pose proof (ok_sender _ _ Hox). pose proof (ok_sender _ _ How). congruence.
Qed.

Lemma live_change q q' w ow l1 l2 g :
  workers q = l1 ++ w :: l2 → workers q' = l1 ++ option_list ow ++ l2 →
  (in_group g (live_jobs q') + in_group g (pending q) + in_group g (jobs_of w)
   = in_group g (live_jobs q) + in_group g (pending q') + from_option (λ w', in_group g (jobs_of w')) 0 ow)%nat.
Proof.
  intros Hw Hw'. rewrite (live_jobs_split _ _ _ _ g Hw). destruct ow as [w'|]; cbn in *.
  - rewrite (live_jobs_split _ _ _ _ g Hw'). lia.
  - unfold live_jobs. rewrite Hw', in_group_app. lia.
Qed.

(** One worker changes, or leaves. *)
Lemma inv_change q q' w ow l1 l2 js :
  queue_inv q → workers q = l1 ++ w :: l2 →
  Forall (λ x, w_key x ≠ w_key w ∧ w_id x ≠ w_id w ∧ worker_ok q x) (l1 ++ l2) → NoDup (map w_id (l1 ++ l2)) →
  per_conversation q' = per_conversation q → per_group q' = per_group q → next_id q' = next_id q →
  (∀ k, k ≠ w_key w → senders q' !! k = senders q !! k) →
  workers q' = l1 ++ option_list ow ++ l2 →
  match ow with
  | Some w' => w_id w' = w_id w ∧ w_key w' = w_key w ∧ worker_ok q' w'
  | None => ∀ id, senders q' !! w_key w = Some id → senders q !! w_key w = Some id
  end →
  groups q' = release_slots (groups q) js →
  (∀ g, (in_group g (jobs_of w) + in_group g (pending q)
         = in_group g js + in_group g (pending q') + from_option (λ w', in_group g (jobs_of w')) 0 ow)%nat) →
  (∀ k, of_key k (accepted q') = of_key k (map fst (disposed q')) ++
     if bool_decide (w_key w = k) then from_option (λ w', queued (w_rx w')) [] ow else waiting_in k (l1 ++ l2)) →
  queue_inv q'.
Proof.
  intros Hi Hw Hoth Hnd Hpc Hpg Hnx Hsn Hw' How Hg Hb Hf.
  assert (∀ g, in_group g (live_jobs q) = (in_group g js + in_group g (live_jobs q'))%nat) as Hlive
    by (intros g; pose proof (live_change q q' w ow l1 l2 g Hw Hw'); pose proof (Hb g); lia).
  split.
  - rewrite Hpc, Hpg. apply Hi.
  - rewrite Hw'. destruct ow as [w'|]; cbn; [|done]. destruct How as (Hid & _).
    rewrite map_app. cbn [map]. rewrite <- Permutation_middle, <- map_app. apply list.NoDup_cons.
    split; [|done]. rewrite Hid. intros (x & Hx & Hin)%list_elem_of_fmap.
    rewrite List.Forall_forall in Hoth. apply list_elem_of_In, Hoth in Hin as (_ & Hne & _). congruence.
  - rewrite Hw'. assert (Forall (worker_ok q') (l1 ++ l2)) as Hall.
    { eapply List.Forall_impl; [|exact Hoth]. intros x (Hk & _ & [H1 H2 H3 H4]).
      split; rewrite ?Hpc, ?Hnx, ?Hsn by done; done. }
    apply Forall_app in Hall as [Ha1 Ha2]. apply Forall_app. split; [done|].
    destruct ow as [w'|]; cbn; [|done]. constructor; [apply How|done].
  - intros k id Hs. rewrite Hnx. destruct (decide (k = w_key w)) as [->|Hne].
    + destruct ow as [w'|]; [|by eapply (inv_senders _ Hi), How]. destruct How as (Hid & Hk & Hok).
      pose proof (ok_sender _ _ Hok) as Hs'. rewrite Hk in Hs'. pose proof (ok_id _ _ Hok). rewrite <- Hnx. congruence.
    + rewrite Hsn in Hs by done. by eapply (inv_senders _ Hi).
  - assert (∀ x, x ∈ l1 ++ l2 → x ∈ workers q ∧ w_id x ≠ w_id w) as Hsub.
    { intros x Hx. rewrite List.Forall_forall in Hoth. split; [|by apply Hoth, list_elem_of_In].
      rewrite Hw. apply elem_of_app in Hx as [?|?]; apply elem_of_app; [by left|right; by right]. }
    assert (w ∈ workers q) as Hwin by (rewrite Hw; apply elem_of_app; right; left).
    intros k id x Hs Hx Hid.
    assert (x ∈ l1 ++ l2 ∨ ow = Some x) as Hx'.
    { rewrite Hw' in Hx. destruct ow as [w'|]; cbn in Hx; [|by left].
      rewrite !elem_of_app, elem_of_cons in Hx. rewrite elem_of_app. destruct Hx as [?|[->|?]]; auto. }
    destruct (decide (k = w_key w)) as [->|Hne].
    + destruct ow as [w'|].
      * destruct How as (Hid' & Hk' & [Hs' _ _ _]). rewrite Hk' in Hs'.
        destruct Hx' as [Hx'|[= <-]]; [|done]. apply Hsub in Hx' as [_ Hx']. congruence.
      * destruct Hx' as [Hx'|?]; [|done]. apply How in Hs. eapply (inv_key _ Hi); [done|by apply Hsub|done].
    + rewrite Hsn in Hs by done. destruct Hx' as [Hx'|Hx'].
      * eapply (inv_key _ Hi); [done|by apply Hsub|done].
      * subst ow. destruct How as (Hid' & Hk' & _). rewrite Hk'. exfalso. apply Hne. symmetry.
        eapply (inv_key _ Hi); [exact Hs|done|congruence].
  - rewrite Hg. apply counts_releases. eapply counts_ext; [exact Hlive|apply Hi].
  - intros g. rewrite Hpg. pose proof (inv_bound _ Hi g). rewrite Hlive in H0. lia.
  - intros k. rewrite Hf. f_equal. unfold waiting. rewrite Hw'. destruct ow as [w'|]; cbn.
    + destruct How as (_ & Hk & _). rewrite <- Hk. rewrite waiting_mid; [done|].
      eapply List.Forall_impl; [|exact Hoth]. intros x (Hx & _). by rewrite Hk.
    + case_bool_decide as Hk; [|done]. subst k. symmetry. apply waiting_none.
      eapply List.Forall_impl; [|exact Hoth]. by intros x (? & _).
Qed.

Lemma fifo_of q w l1 l2 k :
  queue_inv q → workers q = l1 ++ w :: l2 → Forall (λ x, w_key x ≠ w_key w ∧ w_id x ≠ w_id w ∧ worker_ok q x) (l1 ++ l2) →
  of_key k (accepted q) = of_key k (map fst (disposed q)) ++
    if bool_decide (w_key w = k) then queued (w_rx w) else waiting_in k (l1 ++ l2).
Proof.
  intros Hi Hw Hoth. rewrite (inv_fifo _ Hi). unfold waiting. rewrite Hw, waiting_mid; [done|].
  eapply List.Forall_impl; [|exact Hoth]. by intros x (? & _).
Qed.

(** ** Every step keeps the invariant *)

Lemma of_key_one k j : of_key k [j] = if bool_decide (job_key j = k) then [j] else [].
Proof. done. Qed.

(** The slots a change gives back, group by group. *)
Ltac slots_of := intros g; cbn [from_option pending]; try change (in_group g []) with O.

Lemma inv_recv q w : queue_inv q → w ∈ workers q → w_at w = AtRecv → queue_inv (worker_recv q w).
Proof.
  intros Hi Hw Hat. destruct (inv_split q w Hi Hw) as ([K1 K2 [K3 K4] K5] & _ & l1 & l2 & Hl & Hs & _ & Hoth & Hnd).
  unfold worker_recv. destruct (try_recv (w_rx w)) as [[j rx]|] eqn:E; rewrite Hs by done.
  - destruct (try_recv_ok _ _ _ E) as [Hq Hcap].
    assert (jobs_of w = j :: queued rx) as Hj by (unfold jobs_of; by rewrite Hat, Hq).
    assert (job_key j = w_key w) as Hjk by (rewrite Hj in K5; by inversion K5).
    eapply (inv_change q _ w (Some (with_rx w rx (Running j))) l1 l2 []); try done.
    + split_and!; [done|done|]. split; cbn; rewrite ?Hcap; [done|done| |by rewrite Hj in K5].
      split; [done|]. rewrite Hq in K4. cbn in K4. lia.
    + slots_of. rewrite Hj. change (jobs_of (with_rx w rx (Running j))) with (j :: queued rx). lia.
    + intros k. cbn [accepted disposed]. rewrite (fifo_of q w l1 l2 k Hi Hl Hoth).
      rewrite map_app, of_key_app, <- app_assoc. f_equal. cbn [map fst from_option]. rewrite of_key_one, Hjk, Hq.
      by case_bool_decide.
  - eapply (inv_change q _ w (Some (with_rx w (w_rx w) AtCheck)) l1 l2 []); try done.
    + split_and!; [done|done|]. split; cbn; try done. apply try_recv_empty in E. cbn. rewrite E. constructor.
    + slots_of. change (jobs_of (with_rx w (w_rx w) AtCheck)) with (queued (w_rx w)).
      assert (jobs_of w = queued (w_rx w)) as -> by (unfold jobs_of; by rewrite Hat). lia.
    + intros k. cbn [accepted disposed from_option]. rewrite app_nil_r. exact (fifo_of q w l1 l2 k Hi Hl Hoth).
Qed.

Lemma inv_done q w j : queue_inv q → w ∈ workers q → w_at w = Running j → queue_inv (worker_done q w j).
Proof.
  intros Hi Hw Hat. destruct (inv_split q w Hi Hw) as ([K1 K2 [K3 K4] K5] & _ & l1 & l2 & Hl & Hs & _ & Hoth & Hnd).
  assert (jobs_of w = j :: queued (w_rx w)) as Hj by (unfold jobs_of; by rewrite Hat).
  unfold worker_done. rewrite Hs by done.
  eapply (inv_change q _ w (Some (with_rx w (w_rx w) AtRecv)) l1 l2 [j]); try done.
  - split_and!; [done|done|]. split; cbn; try done. rewrite Hj in K5. by inversion K5.
  - slots_of. rewrite Hj. change (jobs_of (with_rx w (w_rx w) AtRecv)) with (queued (w_rx w)).
    change (j :: queued (w_rx w)) with ([j] ++ queued (w_rx w)). rewrite in_group_app. lia.
  - intros k. exact (fifo_of q w l1 l2 k Hi Hl Hoth).
Qed.

Lemma inv_check q w : queue_inv q → w ∈ workers q → w_at w = AtCheck → queue_inv (worker_check q w).
Proof.
  intros Hi Hw Hat. destruct (inv_split q w Hi Hw) as ([K1 K2 [K3 K4] K5] & _ & l1 & l2 & Hl & Hs & Hr & Hoth & Hnd).
  assert (jobs_of w = queued (w_rx w)) as Hj by (unfold jobs_of; by rewrite Hat).
  unfold worker_check. destruct (queued (w_rx w)) as [|j js] eqn:Eq; cbn [is_empty].
  - rewrite Hr. eapply (inv_change q _ w None l1 l2 []); try done.
    + intros k Hk. by apply lookup_delete_ne.
    + intros id. cbn. by rewrite lookup_delete_eq.
    + slots_of. rewrite Hj. change (in_group g []) with O. lia.
    + intros k. cbn [accepted disposed from_option]. rewrite (fifo_of q w l1 l2 k Hi Hl Hoth), Eq. done.
  - rewrite Hs by done. eapply (inv_change q _ w (Some (with_rx w (w_rx w) AtRecv)) l1 l2 []); try done.
    + split_and!; [done|done|]. split; cbn; try done; [by rewrite Eq|]. by rewrite Hj, <- Eq in K5.
    + slots_of. rewrite Hj. change (jobs_of (with_rx w (w_rx w) AtRecv)) with (queued (w_rx w)). rewrite Eq. lia.
    + intros k. exact (fifo_of q w l1 l2 k Hi Hl Hoth).
Qed.

Lemma inv_dies q w : queue_inv q → w ∈ workers q → queue_inv (worker_dies q w).
Proof.
  intros Hi Hw. destruct (inv_split q w Hi Hw) as ([K1 K2 [K3 K4] K5] & _ & l1 & l2 & Hl & Hs & Hr & Hoth & Hnd).
  unfold worker_dies. rewrite Hr. eapply (inv_change q _ w None l1 l2 (jobs_of w)); try done.
  - intros k. cbn [accepted disposed from_option]. rewrite (fifo_of q w l1 l2 k Hi Hl Hoth), map_app, of_key_app.
    rewrite map_map, map_id, <- app_assoc. f_equal.
    assert (Forall (λ j, job_key j = w_key w) (queued (w_rx w))) as Hq by (by apply Forall_app in K5 as [_ ?]).
    case_bool_decide as Hk; [subst k; by rewrite of_key_all, app_nil_r|by rewrite (of_key_none (w_key w))].
Qed.

Lemma worker_ok_frame q q' :
  senders q' = senders q → per_conversation q' = per_conversation q → next_id q' = next_id q →
  Forall (worker_ok q) (workers q) → Forall (worker_ok q') (workers q).
Proof.
  intros Hs Hp Hn. apply List.Forall_impl. intros w [K1 K2 K3 K4]. split; by rewrite ?Hs, ?Hp, ?Hn.
Qed.

Lemma inv_take_slot q j : queue_inv q → queue_inv (take_slot q j).2.
Proof.
  intros Hi. unfold take_slot. destruct (Nat.leb_spec (per_group q) (default 0%nat (groups q !! job_group j))) as [|Hlt];
    [exact Hi|]. cbn [snd]. pose proof (inv_groups _ Hi) as Hc.
  assert (∀ g, in_group g (j :: live_jobs q)
    = ((if bool_decide (job_group j = g) then 1 else 0) + in_group g (live_jobs q))%nat) as Hlive
    by (intros g; unfold in_group; cbn; by case_bool_decide).
  split; try apply Hi.
  - cbn. eapply worker_ok_frame; [done|done|done|apply Hi].
  - intros g. change (live_jobs _) with (j :: live_jobs q). rewrite Hlive. cbn [groups].
    destruct (Hc (job_group j)) as [Hj _]. case_bool_decide as Hg.
    + subst g. rewrite lookup_insert_eq. cbn [default from_option id]. rewrite Hj. split; [lia|done].
    + rewrite lookup_insert_ne by done. apply Hc.
  - intros g. change (live_jobs _) with (j :: live_jobs q). rewrite Hlive. cbn [per_group].
    pose proof (inv_bound _ Hi g). case_bool_decide as Hg; [|lia]. subst g.
    destruct (Hc (job_group j)) as [Hj _]. lia.
Qed.

(** Dropping a pending job gives its slot back. *)
Lemma inv_drop_pending q q' j :
  queue_inv q → j ∈ pending q → senders q' = senders q → per_conversation q' = per_conversation q →
  per_group q' = per_group q → next_id q' = next_id q → workers q' = workers q → accepted q' = accepted q →
  disposed q' = disposed q → groups q' = release_slot (groups q) (job_group j) →
  pending q' = remove_job j (pending q) → queue_inv q'.
Proof.
  intros Hi Hj H1 H2 H3 H4 H5 H6 H7 H8 H9.
  assert (∀ g, in_group g (live_jobs q) = (in_group g [j] + in_group g (live_jobs q'))%nat) as Hlive.
  { intros g. unfold live_jobs. rewrite H5, H9, !in_group_app.
    rewrite (in_group_perm g _ _ (remove_job_perm j _ Hj)).
    change (j :: remove_job j (pending q)) with ([j] ++ remove_job j (pending q)). rewrite in_group_app. lia. }
  split.
  - rewrite H2, H3. apply Hi.
  - rewrite H5. apply Hi.
  - rewrite H5. eapply worker_ok_frame; [done|done|done|apply Hi].
  - rewrite H1, H4. apply Hi.
  - rewrite H1, H5. apply Hi.
  - rewrite H8. apply counts_release. eapply counts_ext; [exact Hlive|apply Hi].
  - intros g. rewrite H3. pose proof (inv_bound _ Hi g). rewrite Hlive in H0. lia.
  - intros k. rewrite H6, H7. unfold waiting. rewrite H5. apply Hi.
Qed.

Lemma no_worker_sender q k :
  queue_inv q → (∀ id, senders q !! k = Some id → find_worker (workers q) id = None) →
  Forall (λ x, w_key x ≠ k) (workers q).
Proof.
  intros Hi Hn. apply List.Forall_forall. intros x Hx%list_elem_of_In <-.
  destruct (inv_split q x Hi Hx) as ([K1 _ _ _] & Hf & _). apply Hn in K1. congruence.
Qed.

Lemma inv_start q j snd_ :
  queue_inv q → j ∈ pending q → Forall (λ x, w_key x ≠ job_key j) (workers q) →
  (∀ k, k ≠ job_key j → snd_ !! k = senders q !! k) → queue_inv (start_worker q j snd_).2.
Proof.
  intros Hi Hj Hno Hsn. unfold start_worker. destruct (channel_new_spec (per_conversation q)) as [Hn1 Hn2].
  destruct (try_send _ j) as [rx|] eqn:E; cbn [snd].
  2: { apply try_send_full in E. rewrite Hn1, Hn2 in E. pose proof (inv_caps _ Hi). cbn in E. lia. }
  apply try_send_ok in E as [Hq Hcap]. rewrite Hn1 in Hq. rewrite Hn2 in Hcap. cbn [app] in Hq.
  pose proof (inv_workers _ Hi) as Hws. rewrite List.Forall_forall in Hws, Hno.
  set (w := {| w_id := next_id q; w_key := job_key j; w_rx := rx; w_at := AtRecv |}).
  assert (jobs_of w = [j]) as Hjw by done.
  set (q' := {| senders := _; groups := _; per_conversation := _; per_group := _; workers := w :: workers q;
                next_id := _; pending := _; accepted := _; disposed := _ |}).
  assert (∀ g, in_group g (live_jobs q) = in_group g (live_jobs q')) as Hlive.
  { intros g. unfold live_jobs. cbn [pending workers q' map concat]. rewrite Hjw, !in_group_app.
    rewrite (in_group_perm g _ _ (remove_job_perm j _ Hj)).
    change (j :: remove_job j (pending q)) with ([j] ++ remove_job j (pending q)). rewrite in_group_app. lia. }
  split.
  - apply Hi.
  - cbn. apply list.NoDup_cons. split; [|apply Hi]. intros (x & Hx & Hin)%list_elem_of_fmap.
    apply list_elem_of_In, Hws in Hin. pose proof (ok_id _ _ Hin). lia.
  - cbn. constructor.
    + split; [cbn; by rewrite lookup_insert_eq|cbn; lia| |by rewrite Hjw; repeat constructor].
      cbn. rewrite Hq, Hcap. pose proof (inv_caps _ Hi). split; [done|cbn; lia].
    + apply List.Forall_forall. intros x Hx. destruct (Hws x Hx) as [K1 K2 K3 K4].
      split; cbn; [|lia|done|done]. rewrite lookup_insert_ne by (symmetry; by apply Hno). rewrite Hsn; [done|by apply Hno].
  - intros k id. cbn. destruct (decide (k = job_key j)) as [->|Hk].
    + rewrite lookup_insert_eq. intros. simplify_eq. lia.
    + rewrite lookup_insert_ne, Hsn by done. intros Hs%(inv_senders _ Hi). lia.
  - intros k id x Hs Hx Hid. cbn in Hs, Hx. destruct (decide (k = job_key j)) as [->|Hk].
    + rewrite lookup_insert_eq in Hs. simplify_eq. apply elem_of_cons in Hx as [->|Hx]; [done|].
      apply list_elem_of_In, Hws in Hx. pose proof (ok_id _ _ Hx). lia.
    + rewrite lookup_insert_ne, Hsn in Hs by done. apply elem_of_cons in Hx as [->|Hx].
      * apply (inv_senders _ Hi) in Hs. cbn in Hid. lia.
      * by eapply (inv_key _ Hi).
  - eapply counts_ext; [exact Hlive|apply Hi].
  - intros g. rewrite <- Hlive. apply Hi.
  - intros k. cbn [accepted disposed q']. rewrite of_key_app, (inv_fifo _ Hi), <- app_assoc. f_equal.
    unfold waiting. cbn [workers q']. rewrite of_key_one.
    change (w :: workers q) with ([] ++ w :: workers q). rewrite waiting_mid by (by apply List.Forall_forall).
    cbn [w_key w w_rx app]. case_bool_decide as Hk; [|by rewrite app_nil_r].
    subst k. rewrite Hq, waiting_none by (by apply List.Forall_forall). done.
Qed.

Lemma inv_send q j : queue_inv q → j ∈ pending q → queue_inv (send_job q j).2.
Proof.
  intros Hi Hj. unfold send_job. destruct (senders q !! job_key j) as [id|] eqn:Es.
  2: { apply inv_start; [done|done| |done]. apply no_worker_sender; [done|]. congruence. }
  destruct (find_worker (workers q) id) as [w|] eqn:Ef.
  2: { apply inv_start; [done|done| |intros k Hk; by apply lookup_delete_ne].
       apply no_worker_sender; [done|]. congruence. }
  apply find_worker_some in Ef as [Hw Hid].
  destruct (try_send (w_rx w) j) as [rx|] eqn:E; cbn [snd].
  2: { by eapply (inv_drop_pending q _ j). }
  destruct (inv_split q w Hi Hw) as ([K1 K2 [K3 K4] K5] & _ & l1 & l2 & Hl & Hs & _ & Hoth & Hnd).
  assert (capacity (w_rx w) > length (queued (w_rx w)))%nat as Hroom.
  { destruct (decide (capacity (w_rx w) ≤ length (queued (w_rx w)))%nat) as [Hfull|]; [|lia].
    apply (try_send_full _ j) in Hfull. congruence. }
  apply try_send_ok in E as [Hq Hcap].
  assert (w_key w = job_key j) as Hk by (by eapply (inv_key _ Hi)).
  rewrite Hs by done. set (w' := with_rx w rx (w_at w)).
  assert (jobs_of w' = jobs_of w ++ [j]) as Hj' by (unfold jobs_of; cbn; by rewrite Hq, app_assoc).
  eapply (inv_change q _ w (Some w') l1 l2 []); try done.
  - split_and!; [done|done|]. split; [done|done|cbn; rewrite Hq, Hcap, length_app; cbn; lia|].
    rewrite Hj'. apply Forall_app. split; [done|]. repeat constructor. done.
  - slots_of. rewrite Hj', in_group_app, (in_group_perm g _ _ (remove_job_perm j _ Hj)).
    change (j :: remove_job j (pending q)) with ([j] ++ remove_job j (pending q)). rewrite in_group_app. lia.
  - intros k. cbn [accepted disposed from_option]. rewrite of_key_app, (fifo_of q w l1 l2 k Hi Hl Hoth), <- app_assoc.
    f_equal. rewrite of_key_one, <- Hk. case_bool_decide; [by cbn; rewrite Hq|by rewrite app_nil_r].
Qed.

Lemma inv_step q q' : queue_inv q → queue_step q q' → queue_inv q'.
Proof.
  intros Hi. destruct 1 as [q j r q' Ht|q j r q' Hj Hs|q q' Hw|q w Hw].
  - pose proof (inv_take_slot q j Hi) as H0. by rewrite Ht in H0.
  - pose proof (inv_send q j Hi Hj) as H0. by rewrite Hs in H0.
  - destruct Hw; [by apply inv_recv|by apply inv_done|by apply inv_check].
  - by apply inv_dies.
Qed.

Lemma inv_new pc pg : queue_inv (with_caps pc pg).
Proof.
  split; cbn; try done; try lia; try constructor.
Qed.

Lemma reachable_inv q : reachable q → queue_inv q.
Proof.
  assert (∀ q0, rtc queue_step q0 q → queue_inv q0 → queue_inv q) as Hk.
  { intros q0. induction 1 as [|x y z Hs _ IH]; [done|]. intros Hi. apply IH. by eapply inv_step. }
  intros (pc & pg & Hr). apply (Hk _ Hr), inv_new.
Qed.

(** ** What the queue promises *)

(** C23: One conversation, one at a time and in order, and no group beyond its
    cap: however submissions, workers, panics and worker deaths interleave, a
    conversation has at most one worker, its accepted messages are those
    started (or lost with a dead worker) followed by those waiting, in the
    order they were accepted, and the slots of a group, counted by the code
    exactly, never exceed the cap. *)
Theorem conversation_order_and_caps q :
  reachable q →
  (∀ w w', w ∈ workers q → w' ∈ workers q → w_key w = w_key w' → w = w')
  ∧ (∀ k, of_key k (accepted q) = of_key k (map fst (disposed q)) ++ waiting k q)
  ∧ (∀ w, w ∈ workers q → (length (queued (w_rx w)) ≤ per_conversation q)%nat)
  ∧ ∀ g, default 0%nat (groups q !! g) = in_group g (live_jobs q) ∧ (in_group g (live_jobs q) ≤ per_group q)%nat.
Proof.
  intros Hr%reachable_inv. split_and!.
  - intros w w' Hw Hw' Hk. destruct (inv_split q w Hr Hw) as (_ & _ & l1 & l2 & Hl & _ & _ & Hoth & _).
    rewrite Hl in Hw'. rewrite elem_of_app, elem_of_cons in Hw'.
    assert (w' = w ∨ w' ∈ l1 ++ l2) as [->|Hin] by (rewrite elem_of_app; tauto); [done|].
    exfalso. rewrite List.Forall_forall in Hoth. by apply list_elem_of_In, Hoth in Hin as (? & _).
  - apply Hr.
  - intros w Hw. by destruct (inv_split q w Hr Hw) as ([_ _ [_ ?] _] & _).
  - intros g. split; [apply Hr|apply Hr].
Qed.

(** How much a worker still has to do. *)
Definition weight w : nat :=
  match w_at w with
  | AtRecv => 3 * length (queued (w_rx w)) + 2
  | Running _ => 3 * length (queued (w_rx w)) + 3
  | AtCheck => if is_empty (queued (w_rx w)) then 1 else 3 * length (queued (w_rx w)) + 3
  end%nat.
Definition total_weight q : nat := sum_list_with weight (workers q).

Lemma worker_step_weight q q' : queue_inv q → worker_step q q' → (total_weight q' < total_weight q)%nat.
Proof.
  intros Hi Hs. assert (∀ w l1 l2 w', workers q = l1 ++ w :: l2 → (weight w' < weight w)%nat →
    sum_list_with weight (l1 ++ w' :: l2) < total_weight q)%nat as Hset.
  { intros w l1 l2 w' Hl Hw. unfold total_weight. rewrite Hl, !sum_list_with_app. cbn. lia. }
  destruct Hs as [q w Hw Hat|q w j Hw Hat|q w Hw Hat];
    destruct (inv_split q w Hi Hw) as (_ & _ & l1 & l2 & Hl & Hset' & Hr & _ & _).
  - unfold worker_recv. destruct (try_recv (w_rx w)) as [[j rx]|] eqn:E; unfold total_weight at 1; cbn [workers];
      rewrite Hset' by done; eapply Hset; try done; unfold weight; rewrite Hat; cbn.
    + apply try_recv_ok in E as [-> _]. cbn. lia.
    + apply try_recv_empty in E. rewrite E. cbn. lia.
  - unfold worker_done, total_weight at 1. cbn [workers]. rewrite Hset' by done. eapply Hset; [done|].
    unfold weight. rewrite Hat. cbn. lia.
  - unfold worker_check. destruct (queued (w_rx w)) as [|j js] eqn:Eq; unfold total_weight at 1; cbn [workers is_empty].
    + rewrite Hr. unfold total_weight. rewrite Hl, !sum_list_with_app. cbn. unfold weight at 4. rewrite Hat, Eq. cbn. lia.
    + rewrite Hset' by done. eapply Hset; [done|]. unfold weight. rewrite Hat. cbn. rewrite Eq. cbn. lia.
Qed.

Lemma worker_step_started q q' :
  worker_step q q' →
  accepted q' = accepted q ∧ ∃ js, disposed q' = disposed q ++ map (λ j, (j, true)) js.
Proof.
  destruct 1 as [q w Hw Hat|q w j Hw Hat|q w Hw Hat].
  - unfold worker_recv. destruct (try_recv (w_rx w)) as [[j rx]|]; cbn; (split; [done|]);
      [by exists [j]|by exists []].
  - split; [done|]. exists []. cbn. by rewrite app_nil_r.
  - unfold worker_check. destruct (is_empty _); cbn; (split; [done|]); exists []; cbn; by rewrite app_nil_r.
Qed.

(** No accepted message is left behind: from any reachable state the
    workers' own steps come to an end, and at every end no worker is left and
    the messages that were waiting have all been started, none dropped. *)
Theorem everything_is_started q :
  reachable q →
  Acc (λ q1 q2, worker_step q2 q1) q
  ∧ ∀ q', rtc worker_step q q' → (∀ q'', ¬ worker_step q' q'') →
      workers q' = [] ∧ accepted q' = accepted q
      ∧ (∀ k, of_key k (accepted q) = of_key k (map fst (disposed q')))
      ∧ ∃ js, disposed q' = disposed q ++ map (λ j, (j, true)) js.
Proof.
  intros Hi%reachable_inv. split.
  - remember (total_weight q) as n eqn:Hn. revert q Hi Hn. induction (lt_wf n) as [n _ IH]. intros q Hi ->.
    constructor. intros q' Hs. eapply IH; [by eapply worker_step_weight| |done].
    eapply inv_step; [exact Hi|by apply step_worker].
  - intros q' Hr. revert Hi. induction Hr as [q|q q1 q' Hs _ IH]; intros Hi Hend.
    + destruct (workers q) as [|w ws] eqn:Ew.
      * split_and!; [done|done| |by exists []; rewrite app_nil_r].
        intros k. rewrite (inv_fifo _ Hi). unfold waiting. rewrite Ew. apply app_nil_r.
      * exfalso. assert (w ∈ workers q) as Hw by (rewrite Ew; left). destruct (w_at w) as [|j|] eqn:Ea.
        -- eapply Hend. by apply (step_recv q w).
        -- eapply Hend. by apply (step_done q w j).
        -- eapply Hend. by apply (step_check q w).
    + destruct IH as (H1 & H2 & H3 & js & H4); [eapply inv_step; [exact Hi|by apply step_worker]|done|].
      destruct (worker_step_started _ _ Hs) as (Ha & js1 & Hd). rewrite Ha in *. rewrite Hd in H4.
      split_and!; [done|done|done|]. exists (js1 ++ js). by rewrite map_app, app_assoc.
Qed.
End queue.

(** ** [NoticeThrottle] *)

Definition NOTICE_KEYS_CAP : nat := 4096.

(** [allow]: the keys with their intervals, at [now]. *)
Definition throttle_allow (now : Z) (keys : list (ustr * Z)) (last : gmap ustr Z) : bool * gmap ustr Z :=
  let quiet :=
    forallb (λ p : ustr * Z, match last !! p.1 with None => true | Some t => p.2 <=? duration_since now t end) keys in
  if quiet then
    let last := if (NOTICE_KEYS_CAP <=? size last)%nat then ∅ else last in
    (true, foldl (λ last p, <[p.1 := now]> last) last keys)
  else (false, last).

(** Past the cap of remembered keys the throttle forgets all of them at
    once: a key noticed a moment ago may be noticed again right away. *)
Lemma throttle_forgets now last k k' every :
  k ≠ k' → last !! k' = None → last !! k = Some now → 0 < every →
  (NOTICE_KEYS_CAP ≤ size last)%nat →
  (throttle_allow now [(k, every)] last).1 = false
  ∧ (throttle_allow now [(k, every)] (throttle_allow now [(k', every)] last).2).1 = true.
Proof.
  intros Hne Hk' Hk He Hs. unfold throttle_allow. cbn [forallb fst snd foldl]. rewrite Hk, Hk'.
  apply Nat.leb_le in Hs. rewrite Hs. unfold duration_since. rewrite Z.sub_diag.
  assert ((every <=? Z.max 0 0) = false) as -> by (apply Z.leb_gt; lia). split; [done|].
  cbn [andb fst snd]. rewrite lookup_insert_ne by done. by rewrite lookup_empty.
Qed.

(** ** A concrete channel, and a queue with two messages *)

Definition demo_mpsc : Mpsc.
Proof.
  refine {| channel := list Job * nat; channel_new n := ([], n); queued := fst; capacity := snd;
            try_send c j := if (c.2 <=? length c.1)%nat then None else Some (c.1 ++ [j], c.2);
            try_recv c := match c.1 with [] => None | j :: r => Some (j, (r, c.2)) end |}.
  - done.
  - intros [l n] j. cbn. destruct (Nat.leb_spec n (length l)); naive_solver lia.
  - intros [l n] j [l' n']. cbn. destruct (n <=? length l)%nat; naive_solver.
  - intros [[|x l] n]; naive_solver.
  - intros [[|x l] n] j [l' n']; naive_solver.
Defined.

Definition demo_job (n : nat) : Job := {| job_id := n; job_group := u "space"; job_key := u "space/ann" |}.
Definition demo_queue0 : ConversationQueue (H := demo_mpsc) := with_caps 10 40.
Definition demo_queue1 := (take_slot (H := demo_mpsc) demo_queue0 (demo_job 1)).2.
Definition demo_queue2 := (send_job (H := demo_mpsc) demo_queue1 (demo_job 1)).2.

Lemma demo_reachable : reachable (H := demo_mpsc) demo_queue2.
Proof.
  exists 10%nat, 40%nat. eapply rtc_l; [apply (step_slot (H := demo_mpsc) demo_queue0 (demo_job 1) (Ok tt) demo_queue1);
    vm_compute; reflexivity|].
  eapply rtc_l; [|apply rtc_refl].
  apply (step_send (H := demo_mpsc) demo_queue1 (demo_job 1) (Ok tt) demo_queue2); [left|vm_compute; reflexivity].
Qed.

Lemma conversation_order_and_caps_witness :
  reachable (H := demo_mpsc) demo_queue2 ∧ in_group (u "space") (live_jobs (H := demo_mpsc) demo_queue2) = 1%nat
  ∧ (in_group (u "space") (live_jobs (H := demo_mpsc) demo_queue2) ≤ 40)%nat.
Proof.
  split; [exact demo_reachable|]. split; [vm_compute; reflexivity|].
  exact (proj2 (proj2 (proj2 (proj2 (conversation_order_and_caps (H := demo_mpsc) demo_queue2 demo_reachable))) (u "space"))).
Defined.

Lemma everything_is_started_witness :
  reachable (H := demo_mpsc) demo_queue2
  ∧ Acc (λ q1 q2, worker_step (H := demo_mpsc) q2 q1) demo_queue2.
Proof.
  split; [exact demo_reachable|]. exact (proj1 (everything_is_started (H := demo_mpsc) demo_queue2 demo_reachable)).
Defined.
