(* ===== verification/Otp.v ===== *)
(** * One-time login codes and setup tokens (crates/duduclaw-auth/src/otp.rs,
    with [create_user], [update_last_login] and [get_user] of db.rs)

    The SQL tables are finite maps; each SQL statement is atomic, and may
    fail.  [verify_otp] gives its connection back while it hashes, so its
    statements are separate steps, which other calls may come between.
    Argon2 and the order rows come back in are interfaces. *)

From S2P Require Import Prelude.

Definition OTP_TTL_SECS : Z := 300.
Definition OTP_MAX_ATTEMPTS : Z := 5.
Definition OTP_RATE_WINDOW_SECS : Z := 60.
Definition OTP_RATE_MAX : nat := 3.
Definition SETUP_TOKEN_TTL_SECS : Z := 3600.

Class PasswordHash := {
  hash_password : N → ustr → ustr;
  verify_password_hash : ustr → ustr → bool;
  verify_hashed salt p : verify_password_hash p (hash_password salt p) = true;
}.

Inductive OtpError := NotFound | Expired | Consumed | TooManyAttempts | BadCode | Internal.

Definition show_otp_error (e : OtpError) : ustr :=
  match e with
  | NotFound => u "challenge not found"
  | Expired => u "code expired"
  | Consumed => u "code already used"
  | TooManyAttempts => u "too many attempts"
  | BadCode => u "invalid code"
  | Internal => u "internal error"
  end.

Definition mask_target (id : ustr) : ustr :=
  if (length id <=? 4)%nat then u "••••" else u "••••" ++ drop (length id - 4) id.

(** ** Numeric codes *)

(** [{:06}] of a number below a million. *)
Definition digits6 (n : Z) : ustr :=
  map (λ p, Z.to_N (48 + (n / p) mod 10)) [100000; 10000; 1000; 100; 10; 1].

Definition CODE_LIMIT : Z := (u32_max / 1000000) * 1000000.

(** [generate_numeric_code]: [draw] is what the generator yields. *)
Fixpoint generate_numeric_code (fuel : nat) (draw : nat → Z) (i : nat) : option ustr :=
  match fuel with
  | O => None
  | S fuel' =>
      let n := draw i in
      if n <? CODE_LIMIT then Some (digits6 (n mod 1000000)) else generate_numeric_code fuel' draw (S i)
  end.

(** ** The tables *)

Inductive UserRole := Admin | Manager | Employee.

Record User := { email : ustr; role : UserRole; user_active : bool; last_login : option Z }.
Record ChannelIdentity := { ident_user : ustr; ident_verified : bool; ident_created : Z }.
Record Challenge := {
  c_user : ustr;
  c_hash : ustr;
  c_channel : ustr;
  c_channel_user : ustr;
  c_created : Z;
  c_expires : Z;
  c_attempts : Z;
  c_consumed : bool;
}.
Record SetupToken := { t_hash : ustr; t_expires : Z; t_consumed : bool }.

Record UserDb := {
  users : gmap ustr User;
  channel_identities : gmap (ustr * ustr) ChannelIdentity;
  otp_challenges : gmap ustr Challenge;
  setup_tokens : gmap ustr SetupToken;
  acl_generation : Z;
}.

Definition with_users (D : UserDb) x := {| users := x; channel_identities := channel_identities D;
  otp_challenges := otp_challenges D; setup_tokens := setup_tokens D; acl_generation := acl_generation D |}.
Definition with_otps (D : UserDb) x := {| users := users D; channel_identities := channel_identities D;
  otp_challenges := x; setup_tokens := setup_tokens D; acl_generation := acl_generation D |}.
Definition with_tokens (D : UserDb) x := {| users := users D; channel_identities := channel_identities D;
  otp_challenges := otp_challenges D; setup_tokens := x; acl_generation := acl_generation D |}.
(** A change of the identities bumps the ACL generation. *)
Definition with_identities (D : UserDb) x := {| users := users D; channel_identities := x;
  otp_challenges := otp_challenges D; setup_tokens := setup_tokens D; acl_generation := acl_generation D + 1 |}.

Section otp.
Context `{PasswordHash} `{RowOrder}.
Implicit Types (D : UserDb) (now : Z) (fails : bool) (id code user_id channel : ustr).

(** ** Channel identities *)

Inductive BindError := BindSql | AdminRequired | FactorRequired | BoundToAnother.

(** What [bind_channel_identity_authorized] reads of the MFA tables. *)
Record mfa_facts := { any_factor : bool; enforcement : bool }.

Definition is_active_admin D (actor : ustr) : bool :=
  match users D !! actor with
  | Some x => user_active x && match role x with Admin => true | _ => false end
  | None => false
  end.

Definition bind_channel_identity_authorized fails now D (M : mfa_facts) user_id channel (channel_user_id : ustr)
    (verified : bool) (actor : option ustr) : result unit BindError * UserDb :=
  let refused :=
    match actor with
    | Some actor =>
        if negb (is_active_admin D actor) then Some AdminRequired
        else if enforcement M && negb (any_factor M) && ustr_eqb actor user_id then Some FactorRequired
        else None
    | None => None
    end in
  match refused with
  | Some e => (Err e, D)
  | None =>
      let existing := channel_identities D !! (channel, channel_user_id) in
      if match existing with Some x => ident_verified x && negb (ustr_eqb (ident_user x) user_id) | None => false end
      then (Err BoundToAnother, D)
      else if fails then (Err BindSql, D)
      else
        (Ok tt, with_identities D
           (<[(channel, channel_user_id) :=
                {| ident_user := user_id; ident_verified := verified;
                   ident_created := match existing with Some x => ident_created x | None => now end |}]>
              (channel_identities D)))
  end.

Definition unbind_channel_identity fails D channel (channel_user_id : ustr) : result unit BindError * UserDb :=
  if fails then (Err BindSql, D)
  else (Ok tt, with_identities D (delete (channel, channel_user_id) (channel_identities D))).

Definition find_user_id_by_channel D channel (channel_user_id : ustr) : option ustr :=
  ident_user <$> channel_identities D !! (channel, channel_user_id).
Definition find_verified_user_id_by_channel D channel (channel_user_id : ustr) : option ustr :=
  match channel_identities D !! (channel, channel_user_id) with
  | Some x => if ident_verified x then Some (ident_user x) else None
  | None => None
  end.

(** [verified_channels_for_user]: ordered by creation. *)
Fixpoint insert_by_created (x : (ustr * ustr) * ChannelIdentity) (l : list ((ustr * ustr) * ChannelIdentity)) :=
  match l with
  | [] => [x]
  | y :: r => if ident_created x.2 <=? ident_created y.2 then x :: l else y :: insert_by_created x r
  end.
Definition verified_channels_for_user D user_id : list ((ustr * ustr) * ChannelIdentity) :=
  foldr insert_by_created []
    (row_order (retain (λ p : (ustr * ustr) * ChannelIdentity,
                  ustr_eqb (ident_user p.2) user_id && ident_verified p.2)
       (map_to_list (channel_identities D)))).

Definition find_user_id_by_email D (addr : ustr) : option ustr :=
  fst <$> head (row_order (retain (λ p : ustr * User, ustr_eqb (email p.2) addr && user_active p.2)
                             (map_to_list (users D)))).

(** ** Requesting a code *)

Inductive RequestError := RequestSql | RateLimited.
Record OtpChallenge := {
  challenge_id : ustr; code_of : ustr; och_user : ustr; och_channel : ustr; och_channel_user : ustr; masked_target : ustr
}.

Definition is_live user_id (since : Z) (c : Challenge) : bool :=
  ustr_eqb (c_user c) user_id && negb (c_consumed c) && (since <=? c_created c).
Definition live_challenge_count D now user_id : nat :=
  length (retain (λ p : ustr * Challenge, is_live user_id (now - secs OTP_RATE_WINDOW_SECS) p.2)
            (map_to_list (otp_challenges D))).

(** [request_otp] by itself: the code and the id come from the generators. *)
Definition request_otp fails now D (addr : ustr) id code (salt : N)
    : result (option OtpChallenge) RequestError * UserDb :=
  match find_user_id_by_email D addr with
  | None => (Ok None, D)
  | Some user_id =>
      match verified_channels_for_user D user_id with
      | [] => (Ok None, D)
      | ((channel, channel_user), _) :: _ =>
          if (OTP_RATE_MAX <=? live_challenge_count D now user_id)%nat then (Err RateLimited, D)
          else if fails then (Err RequestSql, D)
          else
            (Ok (Some {| challenge_id := id; code_of := code; och_user := user_id; och_channel := channel;
                         och_channel_user := channel_user; masked_target := mask_target channel_user |}),
             with_otps D
               (<[id := {| c_user := user_id; c_hash := hash_password salt code; c_channel := channel;
                           c_channel_user := channel_user; c_created := now;
                           c_expires := now + secs OTP_TTL_SECS; c_attempts := 0; c_consumed := false |}]>
                  (otp_challenges D)))
      end
  end.

(** ** Verifying a code *)

Definition consume (c : Challenge) : Challenge := {|
  c_user := c_user c; c_hash := c_hash c; c_channel := c_channel c; c_channel_user := c_channel_user c;
  c_created := c_created c; c_expires := c_expires c; c_attempts := c_attempts c; c_consumed := true
|}.
Definition count_attempt (c : Challenge) : Challenge := {|
  c_user := c_user c; c_hash := c_hash c; c_channel := c_channel c; c_channel_user := c_channel_user c;
  c_created := c_created c; c_expires := c_expires c; c_attempts := c_attempts c + 1; c_consumed := c_consumed c
|}.
Definition consume_challenge D id : UserDb := with_otps D (alter consume id (otp_challenges D)).

(** Where a call of [verify_otp] is: before its first statement, before it
    invalidates an exhausted challenge, before the hash, before the
    compare-and-swap, before the login time is written, before the user is
    loaded, before the count, before it invalidates the challenge, done. *)
Inductive verify_at :=
| VRead
| VExhausted
| VHash (user_id : ustr) (code_hash : ustr)
| VSwap (user_id : ustr)
| VLogin (user_id : ustr)
| VLoad (user_id : ustr)
| VCount
| VInvalidate
| VDone (r : result ustr OtpError).

Definition verify_step fails now D id code (at_ : verify_at) : verify_at * UserDb :=
  match at_ with
  | VRead =>
      if fails then (VDone (Err Internal), D)
      else
        match otp_challenges D !! id with
        | None => (VDone (Err NotFound), D)
        | Some c =>
            if c_consumed c then (VDone (Err Consumed), D)
            else if c_expires c <? now then (VDone (Err Expired), D)
            else if OTP_MAX_ATTEMPTS <=? c_attempts c then (VExhausted, D)
            else (VHash (c_user c) (c_hash c), D)
        end
  | VExhausted => (VDone (Err TooManyAttempts), if fails then D else consume_challenge D id)
  | VHash user_id code_hash =>
      (if verify_password_hash code code_hash then VSwap user_id else VCount, D)
  | VSwap user_id =>
      if fails then (VDone (Err Internal), D)
      else
        match otp_challenges D !! id with
        | Some c => if c_consumed c then (VDone (Err Consumed), D) else (VLogin user_id, consume_challenge D id)
        | None => (VDone (Err Consumed), D)
        end
  | VLogin user_id =>
      (VLoad user_id,
       if fails then D
       else with_users D
              (alter (λ x, {| email := email x; role := role x; user_active := user_active x; last_login := Some now |})
                 user_id (users D)))
  | VLoad user_id =>
      (if fails then VDone (Err Internal)
       else match users D !! user_id with Some _ => VDone (Ok user_id) | None => VDone (Err Internal) end, D)
  | VCount =>
      if fails then (VDone (Err Internal), D)
      else
        match otp_challenges D !! id with
        | Some c =>
            let D' := with_otps D (<[id := count_attempt c]> (otp_challenges D)) in
            if OTP_MAX_ATTEMPTS <=? c_attempts c + 1 then (VInvalidate, D') else (VDone (Err BadCode), D')
        | None => (VDone (Err Internal), D)
        end
  | VInvalidate => if fails then (VDone (Err Internal), D) else (VDone (Err TooManyAttempts), consume_challenge D id)
  | VDone r => (VDone r, D)
  end.

(** A call by itself, without failing statements: at most five steps. *)
Fixpoint run_verify (fuel : nat) now D id code (at_ : verify_at) : verify_at * UserDb :=
  match fuel with
  | O => (at_, D)
  | S fuel' => let '(at', D') := verify_step false now D id code at_ in run_verify fuel' now D' id code at'
  end.
Definition verify_otp now D id code : result ustr OtpError * UserDb :=
  match run_verify 5 now D id code VRead with
  | (VDone r, D') => (r, D')
  | (_, D') => (Err Internal, D')
  end.

(** [purge_stale_otp]. *)
Definition purge_stale_otp fails now D : UserDb :=
  if fails then D
  else with_otps D (base.filter (λ p : ustr * Challenge, c_consumed p.2 || (c_expires p.2 <? now) = false) (otp_challenges D)).

(** ** Setup tokens *)

Definition issue_setup_token fails now D (force : bool) (id token : ustr) (salt : N)
    : result (option ustr) unit * UserDb :=
  if negb force && (0 <? size (users D))%nat then (Ok None, D)
  else if fails then (Err tt, D)
  else
    (Ok (Some token),
     with_tokens D (<[id := {| t_hash := hash_password salt token; t_expires := now + secs SETUP_TOKEN_TTL_SECS;
                               t_consumed := false |}]> (setup_tokens D))).

(** The three statements of [claim_setup_token]. *)
Definition claim_find now D (token : ustr) : option ustr :=
  fst <$> head (retain (λ p : ustr * SetupToken, negb (t_expires p.2 <? now) && verify_password_hash token (t_hash p.2))
                  (row_order (retain (λ p : ustr * SetupToken, negb (t_consumed p.2)) (map_to_list (setup_tokens D))))).

(** [create_user]: the address is unique. *)
Definition create_user fails D (addr : ustr) (r : UserRole) (new_id : ustr) : option UserDb :=
  if fails || existsb (λ p : ustr * User, ustr_eqb (email p.2) addr) (map_to_list (users D)) then None
  else Some (with_users D (<[new_id := {| email := addr; role := r; user_active := true; last_login := None |}]> (users D))).

Definition consume_token D (token_id : ustr) : UserDb :=
  with_tokens D (alter (λ t, {| t_hash := t_hash t; t_expires := t_expires t; t_consumed := true |}) token_id (setup_tokens D)).

Inductive ClaimError := InvalidToken | CreateFailed | ConsumeFailed.

Definition claim_setup_token (create_fails consume_fails : bool) now D (token addr new_id : ustr)
    : result ustr ClaimError * UserDb :=
  match claim_find now D token with
  | None => (Err InvalidToken, D)
  | Some token_id =>
      match create_user create_fails D addr Admin new_id with
      | None => (Err CreateFailed, D)
      | Some D' => if consume_fails then (Err ConsumeFailed, D') else (Ok new_id, consume_token D' token_id)
      end
  end.

(** ** Interleaved verifications *)

(** Calls are numbered; each is a challenge id, a code and where it is.
    [issued] remembers every challenge as it was inserted, and [swaps] which
    call won the compare-and-swap of which challenge. *)
Record calls := {
  db : UserDb;
  procs : list (ustr * ustr * verify_at);
  issued : gmap ustr Challenge;
  swaps : list (nat * ustr);
}.

Definition won (at_ at' : verify_at) : bool :=
  match at_, at' with VSwap _, VLogin _ => true | _, _ => false end.

(** Statements of any calls in any order; a new challenge gets an id never
    used before; anything else leaves the challenges alone or deletes some. *)
Inductive otp_step : calls → calls → Prop :=
| s_insert C id c :
    issued C !! id = None → c_consumed c = false →
    otp_step C {| db := with_otps (db C) (<[id := c]> (otp_challenges (db C))); procs := procs C;
                  issued := <[id := c]> (issued C); swaps := swaps C |}
| s_call C id code :
    otp_step C {| db := db C; procs := procs C ++ [(id, code, VRead)]; issued := issued C; swaps := swaps C |}
| s_verify C i id code at_ fails now at' D' :
    procs C !! i = Some (id, code, at_) → verify_step fails now (db C) id code at_ = (at', D') →
    otp_step C {| db := D'; procs := <[i := (id, code, at')]> (procs C); issued := issued C;
                  swaps := if won at_ at' then (i, id) :: swaps C else swaps C |}
| s_purge C fails now :
    otp_step C {| db := purge_stale_otp fails now (db C); procs := procs C; issued := issued C; swaps := swaps C |}
| s_other C D' :
    otp_challenges D' ⊆ otp_challenges (db C) →
    otp_step C {| db := D'; procs := procs C; issued := issued C; swaps := swaps C |}.

Definition no_calls D : calls := {| db := D; procs := []; issued := ∅; swaps := [] |}.

(** What a call knows at its point. *)
Definition at_ok (C : calls) (i : nat) id code (at_ : verify_at) : Prop :=
  match at_ with
  | VHash user_id h => ∃ c0, issued C !! id = Some c0 ∧ c_user c0 = user_id ∧ c_hash c0 = h
  | VSwap user_id =>
      ∃ c0, issued C !! id = Some c0 ∧ c_user c0 = user_id ∧ verify_password_hash code (c_hash c0) = true
  | VLogin user_id | VLoad user_id | VDone (Ok user_id) =>
      (i, id) ∈ swaps C
      ∧ ∃ c0, issued C !! id = Some c0 ∧ c_user c0 = user_id ∧ verify_password_hash code (c_hash c0) = true
  | _ => True
  end.

Record calls_inv (C : calls) : Prop := {
  ci_rows : ∀ id c, otp_challenges (db C) !! id = Some c →
    ∃ c0, issued C !! id = Some c0 ∧ c_user c0 = c_user c ∧ c_hash c0 = c_hash c;
  ci_procs : ∀ i id code at_, procs C !! i = Some (id, code, at_) → at_ok C i id code at_;
  ci_swaps : ∀ i id, (i, id) ∈ swaps C →
    is_Some (issued C !! id) ∧ ∀ c, otp_challenges (db C) !! id = Some c → c_consumed c = true;
  ci_once : NoDup (map snd (swaps C));
}.

Lemma at_ok_mono C C' i id code at_ :
  (∀ k c, issued C !! k = Some c → issued C' !! k = Some c) → (∀ x, x ∈ swaps C → x ∈ swaps C') →
  at_ok C i id code at_ → at_ok C' i id code at_.
Proof. intros Hi Hs. destruct at_ as [| | | | | | | |[|]]; cbn; naive_solver. Qed.

(** What one statement does to the rows. *)
Lemma verify_step_rows fails now D id code at_ at' D' :
  verify_step fails now D id code at_ = (at', D') →
  ∀ k c', otp_challenges D' !! k = Some c' →
    ∃ c, otp_challenges D !! k = Some c ∧ c_user c' = c_user c ∧ c_hash c' = c_hash c
      ∧ (c_consumed c = true → c_consumed c' = true).
Proof.
  intros Hs k c' Hl.
  assert (∀ g : Challenge → Challenge, (∀ c, c_user (g c) = c_user c ∧ c_hash (g c) = c_hash c
      ∧ (c_consumed c = true → c_consumed (g c) = true)) →
    otp_challenges D' = alter g id (otp_challenges D) →
    ∃ c, otp_challenges D !! k = Some c ∧ c_user c' = c_user c ∧ c_hash c' = c_hash c
      ∧ (c_consumed c = true → c_consumed c' = true)) as Halter.
  { intros g Hg Hd. rewrite Hd in Hl. destruct (decide (k = id)) as [->|Hne].
    - rewrite lookup_alter_eq in Hl. apply fmap_Some in Hl as (c & Hc & ->). exists c. split; [done|apply Hg].
    - rewrite lookup_alter_ne in Hl by done. by exists c'. }
  assert (otp_challenges D' = otp_challenges D →
    ∃ c, otp_challenges D !! k = Some c ∧ c_user c' = c_user c ∧ c_hash c' = c_hash c
      ∧ (c_consumed c = true → c_consumed c' = true)) as Hsame
    by (intros Hd; exists c'; rewrite <- Hd; done).
  assert (otp_challenges D' = alter consume id (otp_challenges D) →
    ∃ c, otp_challenges D !! k = Some c ∧ c_user c' = c_user c ∧ c_hash c' = c_hash c
      ∧ (c_consumed c = true → c_consumed c' = true)) as Hcons by (apply Halter; by intros c).
  destruct at_; cbn in Hs; repeat case_match; simplify_eq/=; try by auto.
  all: apply (Halter count_attempt); [by intros c0|].
  all: symmetry; apply map_eq; intros k'; destruct (decide (k' = id)) as [->|]; 
    [rewrite lookup_alter_eq, lookup_insert_eq; by simplify_map_eq|by rewrite lookup_alter_ne, lookup_insert_ne].
Qed.

(** A won swap: the row was there, not consumed, and is consumed after. *)
Lemma won_swap fails now D id code at_ at' D' :
  verify_step fails now D id code at_ = (at', D') → won at_ at' = true →
  ∃ user_id c, at_ = VSwap user_id ∧ at' = VLogin user_id
    ∧ otp_challenges D !! id = Some c ∧ c_consumed c = false
    ∧ otp_challenges D' = alter consume id (otp_challenges D).
Proof.
  intros Hs Hw. destruct at_; try done. cbn in Hs. destruct fails; [by simplify_eq|].
  destruct (otp_challenges D !! id) as [c|] eqn:Ec; [|by simplify_eq].
  destruct (c_consumed c) eqn:Ex; simplify_eq. eexists _, c. by split_and!.
Qed.

(** What the statement leaves the call with. *)
Lemma verify_step_at C i id code fails now at_ at' D' :
  calls_inv C → procs C !! i = Some (id, code, at_) →
  verify_step fails now (db C) id code at_ = (at', D') →
  at_ok {| db := D'; procs := <[i := (id, code, at')]> (procs C); issued := issued C;
           swaps := if won at_ at' then (i, id) :: swaps C else swaps C |} i id code at'.
Proof.
  intros Hi Hp Hs. pose proof (ci_procs _ Hi _ _ _ _ Hp) as Hok.
  destruct at_ as [| |u0 h0|u0|u0|u0| | |r]; cbn in Hs.
  - destruct fails; [by simplify_eq|]. destruct (otp_challenges (db C) !! id) as [c|] eqn:Ec; [|by simplify_eq].
    repeat case_match; simplify_eq; try done. destruct (ci_rows _ Hi _ _ Ec) as (c0 & K1 & K2 & K3). by exists c0.
  - by simplify_eq.
  - destruct Hok as (c0 & K1 & K2 & K3). simplify_eq. destruct (verify_password_hash code (c_hash c0)) eqn:E; [|done].
    by exists c0.
  - destruct Hok as (c0 & K1 & K2 & K3). destruct fails; [by simplify_eq|].
    repeat case_match; simplify_eq; try done. split; [left|]. by exists c0.
  - simplify_eq. exact Hok.
  - repeat case_match; simplify_eq; done || exact Hok.
  - repeat case_match; simplify_eq; done.
  - repeat case_match; simplify_eq; done.
  - simplify_eq. exact Hok.
Qed.

Lemma calls_step C C' : calls_inv C → otp_step C C' → calls_inv C'.
Proof.
  intros Hi. destruct 1 as [C id c Hn Hc|C id code|C i id code at_ fails now at' D' Hp Hs|C fails now|C D' Hd].
  - split; cbn.
    + intros k ck. destruct (decide (k = id)) as [->|Hne]; rewrite ?lookup_insert_eq, ?lookup_insert_ne by done.
      * intros. simplify_eq. by exists ck.
      * apply Hi.
    + intros i k code at_ Hp. eapply at_ok_mono; [..|by apply Hi]; [|done].
      intros k' c' Hk'. cbn. rewrite lookup_insert_ne; [done|]. intros ->. congruence.
    + intros i k Hin. destruct (ci_swaps _ Hi _ _ Hin) as [[c0 K0] K1].
      assert (k ≠ id) as Hne by (intros ->; congruence). rewrite !lookup_insert_ne by done. by split; [exists c0|].
    + apply Hi.
  - split; cbn; try apply Hi. intros i k code' at_ [Hp|[_ Hp]]%lookup_app_Some.
    + eapply at_ok_mono; [..|by apply Hi]; done.
    + apply list_lookup_singleton_Some in Hp as [_ Hp]. simplify_eq. done.
  - pose proof (verify_step_rows _ _ _ _ _ _ _ _ Hs) as Hrows.
    pose proof (verify_step_at _ _ _ _ _ _ _ _ _ Hi Hp Hs) as Hat.
    split; cbn [db issued procs swaps].
    + intros k c' Hl. destruct (Hrows k c' Hl) as (c & Hc & K1 & K2 & _).
      destruct (ci_rows _ Hi _ _ Hc) as (c0 & ? & ? & ?). exists c0. split_and!; congruence.
    + intros j k code' at2 Hj. apply list_lookup_insert_Some in Hj as [(-> & Hj & _)|[Hne Hj]]; [by simplify_eq|].
      eapply at_ok_mono; [..|by apply Hi]; [done|]. intros x Hx. cbn. destruct (won at_ at'); [by right|done].
    + intros j k Hin.
      assert ((j, k) ∈ swaps C → is_Some (issued C !! k) ∧ ∀ c, otp_challenges D' !! k = Some c → c_consumed c = true) as Hold.
      { intros [Hk1 Hk2]%(ci_swaps _ Hi). split; [done|]. intros c' Hc'.
        destruct (Hrows k c' Hc') as (c & Hc & _ & _ & Himp). by apply Himp, Hk2. }
      destruct (won at_ at') eqn:Ew; [|by apply Hold]. apply elem_of_cons in Hin as [Heq|Hin]; [|by apply Hold].
      simplify_eq. destruct (won_swap _ _ _ _ _ _ _ _ Hs Ew) as (u0 & c & -> & -> & Hc & Hx & Hd).
      destruct (ci_rows _ Hi _ _ Hc) as (c0 & K0 & _). split; [by exists c0|].
      intros c' Hc'. rewrite Hd, lookup_alter_eq, Hc in Hc'. by simplify_eq/=.
    + destruct (won at_ at') eqn:Ew; [|apply Hi]. cbn. apply list.NoDup_cons. split; [|apply Hi].
      intros ([j k] & Hk & Hin)%list_elem_of_fmap. cbn in Hk. subst k.
      destruct (won_swap _ _ _ _ _ _ _ _ Hs Ew) as (u0 & c & -> & -> & Hc & Hx & Hd).
      destruct (ci_swaps _ Hi _ _ Hin) as [_ Hcons]. apply Hcons in Hc. congruence.
  - split; cbn; try apply Hi.
    + intros k c. unfold purge_stale_otp. destruct fails; [apply Hi|]. cbn.
      intros [Hc _]%map_lookup_filter_Some. by apply Hi.
    + intros j k Hin. destruct (ci_swaps _ Hi _ _ Hin) as [K1 K2]. split; [done|]. intros c.
      unfold purge_stale_otp. destruct fails; [apply K2|]. cbn. intros [Hc _]%map_lookup_filter_Some. by apply K2.
  - split; cbn; try apply Hi.
    + intros k c Hc. eapply Hi, lookup_weaken; [apply Hc|done].
    + intros j k Hin. destruct (ci_swaps _ Hi _ _ Hin) as [K1 K2]. split; [done|].
      intros c Hc. eapply K2, lookup_weaken; [apply Hc|done].
Qed.

Lemma calls_reachable D C : otp_challenges D = ∅ → rtc otp_step (no_calls D) C → calls_inv C.
Proof.
  intros HD Hr. assert (calls_inv (no_calls D)) as K0.
  { split; cbn; [by intros k c; rewrite HD|done|by intros i k ?%elem_of_nil|constructor]. }
  revert K0. induction Hr as [|x y z Hs _ IH]; [done|]. intros Hx. apply IH. by eapply calls_step.
Qed.

(** C30 A code logs in once: however verifications, requests, purges and
    failing statements interleave, two calls that succeed on a challenge are
    the same call, and the one that succeeds presented a code that verifies
    against the hash the challenge was issued with, and gets its user. *)
Theorem otp_single_use D C i j id code code' user_id user_id' :
  otp_challenges D = ∅ → rtc otp_step (no_calls D) C →
  procs C !! i = Some (id, code, VDone (Ok user_id)) → procs C !! j = Some (id, code', VDone (Ok user_id')) →
  i = j ∧ ∃ c0, issued C !! id = Some c0 ∧ c_user c0 = user_id ∧ verify_password_hash code (c_hash c0) = true.
Proof.
  intros HD Hr%calls_reachable Hi Hj; [|done].
  destruct (ci_procs _ Hr _ _ _ _ Hi) as [Hsi Hc], (ci_procs _ Hr _ _ _ _ Hj) as [Hsj _]. split; [|exact Hc].
  pose proof (ci_once _ Hr) as Hnd. clear -Hnd Hsi Hsj. induction (swaps C) as [|[k x] l IH]; [by apply elem_of_nil in Hsi|].
  cbn in Hnd. apply list.NoDup_cons in Hnd as [Hx Hnd]. rewrite elem_of_cons in Hsi, Hsj.
  destruct Hsi as [Hsi|Hsi], Hsj as [Hsj|Hsj]; simplify_eq; [done| | |by apply IH].
  - exfalso. apply Hx. apply (list_elem_of_fmap_2 snd) in Hsj. exact Hsj.
  - exfalso. apply Hx. apply (list_elem_of_fmap_2 snd) in Hsi. exact Hsi.
Qed.

(** ** One call at a time *)

(** What [verify_otp] does, branch by branch. *)
Definition verify_result now D id code : result ustr OtpError * UserDb :=
  match otp_challenges D !! id with
  | None => (Err NotFound, D)
  | Some c =>
      if c_consumed c then (Err Consumed, D)
      else if c_expires c <? now then (Err Expired, D)
      else if OTP_MAX_ATTEMPTS <=? c_attempts c then (Err TooManyAttempts, consume_challenge D id)
      else if verify_password_hash code (c_hash c) then
        let D' := consume_challenge D id in
        (match users D !! c_user c with Some _ => Ok (c_user c) | None => Err Internal end,
         with_users D'
           (alter (λ x, {| email := email x; role := role x; user_active := user_active x; last_login := Some now |})
              (c_user c) (users D)))
      else
        let D' := with_otps D (<[id := count_attempt c]> (otp_challenges D)) in
        if OTP_MAX_ATTEMPTS <=? c_attempts c + 1 then (Err TooManyAttempts, consume_challenge D' id)
        else (Err BadCode, D')
  end.

Lemma verify_otp_result now D id code : verify_otp now D id code = verify_result now D id code.
Proof.
  unfold verify_otp, verify_result. cbn [run_verify verify_step].
  destruct (otp_challenges D !! id) as [c|] eqn:Ec; [|done].
  destruct (c_consumed c) eqn:Ex; [done|]. destruct (c_expires c <? now); [done|].
  destruct (OTP_MAX_ATTEMPTS <=? c_attempts c); [done|]. cbn [verify_step].
  destruct (verify_password_hash code (c_hash c)); cbn [verify_step].
  - rewrite Ec, Ex. cbn. rewrite lookup_alter_eq. by destruct (users D !! c_user c).
  - rewrite Ec. destruct (OTP_MAX_ATTEMPTS <=? c_attempts c + 1); done.
Qed.

Fixpoint verify_all D id (tries : list (Z * ustr)) : list (result ustr OtpError) :=
  match tries with
  | [] => []
  | (now, code) :: tries' => let '(r, D') := verify_otp now D id code in r :: verify_all D' id tries'
  end.

Definition spent (c : option Challenge) : Prop := match c with None => True | Some c => c_consumed c = true end.

Lemma spent_never_ok D id tries i user_id :
  spent (otp_challenges D !! id) → verify_all D id tries !! i ≠ Some (Ok user_id).
Proof.
  revert D i. induction tries as [|[now code] tries IH]; intros D i Hs; [done|]. cbn [verify_all].
  rewrite verify_otp_result. unfold verify_result. destruct (otp_challenges D !! id) as [c|] eqn:Ec.
  - cbn in Hs. rewrite Hs. destruct i; [done|]. cbn. apply IH. by rewrite Ec.
  - destruct i; [done|]. cbn. apply IH. by rewrite Ec.
Qed.

Lemma expired_never_ok D id c tries t0 i user_id :
  otp_challenges D !! id = Some c → c_expires c < t0 → Forall (λ p : Z * ustr, t0 ≤ p.1) tries →
  verify_all D id tries !! i ≠ Some (Ok user_id).
Proof.
  revert i. induction tries as [|[now code] tries IH]; intros i Hc He Hf; [done|]. cbn [verify_all].
  inversion Hf as [|? ? Hn Hf']; subst. cbn in Hn. rewrite verify_otp_result. unfold verify_result. rewrite Hc.
  assert ((c_expires c <? now) = true) as -> by (apply Z.ltb_lt; lia).
  destruct (c_consumed c); (destruct i; [done|]; cbn; by apply IH).
Qed.

(** C31 Guessing is bounded: of the codes tried one after another on a fresh
    challenge, with a clock that does not go back, fewer than five wrong ones
    precede a success, which comes no later than the expiry. *)
Theorem guesses_bounded D id c tries i user_id :
  otp_challenges D !! id = Some c → c_consumed c = false → c_attempts c = 0 →
  StronglySorted Z.le (map fst tries) → verify_all D id tries !! i = Some (Ok user_id) →
  (length (retain (λ p : Z * ustr, negb (verify_password_hash p.2 (c_hash c))) (take i tries)) < 5)%nat
  ∧ ∃ p, tries !! i = Some p ∧ p.1 ≤ c_expires c ∧ verify_password_hash p.2 (c_hash c) = true.
Proof.
  intros Hc Hx Ha Hs Hr.
  assert (∀ a, c_attempts c = a → 0 ≤ a < 5 →
    (Z.of_nat (length (retain (λ p : Z * ustr, negb (verify_password_hash p.2 (c_hash c))) (take i tries))) + a < 5)
    ∧ ∃ p, tries !! i = Some p ∧ p.1 ≤ c_expires c ∧ verify_password_hash p.2 (c_hash c) = true) as Hgen.
  2: { destruct (Hgen 0) as [Hl Hp]; [done|lia|]. split; [lia|done]. }
  clear Ha. revert D c i Hc Hx Hr. induction tries as [|[now code] tries IH]; intros D c i Hc Hx Hr a Ha Hb; [done|].
  inversion Hs as [|? ? Hs' Hle]; subst. cbn [verify_all] in Hr.
  rewrite verify_otp_result in Hr. unfold verify_result in Hr. rewrite Hc, Hx in Hr.
  destruct (Z.ltb_spec (c_expires c) now) as [Hex|Hex].
  { destruct i as [|i]; [done|]. exfalso. cbn in Hr. revert Hr. eapply (expired_never_ok D id c tries now); [done|done|].
    apply List.Forall_forall. intros p Hp. rewrite List.Forall_forall in Hle. by apply Hle, (in_map fst). }
  assert ((OTP_MAX_ATTEMPTS <=? c_attempts c) = false) as Hmax by (apply Z.leb_gt; unfold OTP_MAX_ATTEMPTS; lia).
  rewrite Hmax in Hr. destruct (verify_password_hash code (c_hash c)) eqn:Ev.
  - destruct i as [|i]; cbn in Hr.
    + cbn. split; [lia|]. by exists (now, code).
    + exfalso. revert Hr. apply spent_never_ok. cbn. by rewrite lookup_alter_eq, Hc.
  - unfold OTP_MAX_ATTEMPTS in Hr. destruct (Z.leb_spec 5 (c_attempts c + 1)) as [Hm|Hm].
    + destruct i as [|i]; [done|]. exfalso. cbn in Hr. revert Hr. apply spent_never_ok. cbn.
      by rewrite lookup_alter_eq, lookup_insert_eq.
    + destruct i as [|i]; [done|]. cbn in Hr.
      destruct (IH Hs' (with_otps D (<[id := count_attempt c]> (otp_challenges D))) (count_attempt c) i) with (a := c_attempts c + 1) as [Hl Hp];
        [by cbn; rewrite lookup_insert_eq|done|exact Hr|done|lia|].
      cbn [take retain List.filter fst snd]. rewrite Ev. cbn [negb length]. cbn [c_hash count_attempt c_expires] in Hl, Hp.
      split; [|exact Hp].
      match type of Hl with Z.of_nat ?n + _ < _ => change (Z.of_nat (S n) + c_attempts c < 5) end. lia.
Qed.

(** ** Bindings *)

(** A verified channel is not taken over: binding, by the host or by a
    dashboard user, leaves every verified identity with its owner, and every
    change of the identities moves the ACL generation on. *)
Theorem bind_never_steals fails now D M user_id channel channel_user_id verified actor :
  let D' := (bind_channel_identity_authorized fails now D M user_id channel channel_user_id verified actor).2 in
  (∀ k x, channel_identities D !! k = Some x → ident_verified x = true →
     ∃ x', channel_identities D' !! k = Some x' ∧ ident_user x' = ident_user x)
  ∧ (channel_identities D' ≠ channel_identities D → acl_generation D < acl_generation D').
Proof.
  unfold bind_channel_identity_authorized.
  match goal with |- context [match ?r with Some e => (Err e, D) | None => _ end] => destruct r as [e|] end;
    [split; [eauto|done]|].
  destruct (channel_identities D !! (channel, channel_user_id)) as [x0|] eqn:Ex.
  - destruct (ident_verified x0 && negb (ustr_eqb (ident_user x0) user_id)) eqn:Eb; [split; [eauto|done]|].
    destruct fails; [split; [eauto|done]|]. cbn. split; [|lia]. intros k x Hk Hv.
    destruct (decide (k = (channel, channel_user_id))) as [->|Hne]; [|rewrite lookup_insert_ne by done; eauto].
    rewrite lookup_insert_eq. eexists. split; [done|]. cbn. simplify_eq. rewrite Hv in Eb. cbn in Eb.
    by apply negb_false_iff, bool_decide_eq_true in Eb.
  - destruct fails; [split; [eauto|done]|]. cbn. split; [|lia]. intros k x Hk Hv.
    rewrite lookup_insert_ne by congruence. eauto.
Qed.

(** The rate limit tells accounts apart: only an active account with a
    verified channel is ever answered [RateLimited]. *)
Lemma rate_limit_reveals_account fails now D addr id code salt D' :
  request_otp fails now D addr id code salt = (Err RateLimited, D') →
  ∃ user_id, find_user_id_by_email D addr = Some user_id ∧ verified_channels_for_user D user_id ≠ [].
Proof.
  unfold request_otp. destruct (find_user_id_by_email D addr) as [user_id|]; [|done].
  destruct (verified_channels_for_user D user_id) as [|[[ch cu] x] l] eqn:E; [done|].
  intros _. exists user_id. rewrite E. done.
Qed.
End otp.

(** Codes are uniform: each of the million codes comes from exactly 4294 of
    the accepted draws. *)
Theorem numeric_code_uniform k n :
  0 ≤ k < 1000000 → 0 ≤ n →
  (n < CODE_LIMIT ∧ n mod 1000000 = k) ↔ ∃ q, 0 ≤ q < 4294 ∧ n = k + q * 1000000.
Proof.
  intros Hk Hn. change CODE_LIMIT with 4294000000. split.
  - intros [Hl Hm]. exists (n / 1000000). pose proof (Z.div_mod n 1000000 ltac:(lia)). lia.
  - intros (q & Hq & ->). split; [lia|]. rewrite Z.mod_add by lia. by apply Z.mod_small.
Qed.

(** ** Concrete runs *)

Definition demo_hash : PasswordHash :=
  {| hash_password _ p := p; verify_password_hash p h := ustr_eqb p h; verify_hashed _ p := ustr_eqb_refl p |}.
Definition demo_order : RowOrder := {| row_order _ l := l; row_order_perm _ l := Permutation_refl l |}.

Definition demo_challenge : Challenge := {|
  c_user := u "ann"; c_hash := u "123456"; c_channel := u "telegram"; c_channel_user := u "77777";
  c_created := 0; c_expires := secs 300; c_attempts := 0; c_consumed := false
|}.
Definition demo_ann : User := {| email := u "a@b.c"; role := Employee; user_active := true; last_login := None |}.
Definition demo_db : UserDb := {|
  users := {[ u "ann" := demo_ann ]};
  channel_identities := {[ (u "telegram", u "77777") := {| ident_user := u "ann"; ident_verified := true; ident_created := 0 |} ]};
  otp_challenges := {[ u "c1" := demo_challenge ]};
  setup_tokens := ∅;
  acl_generation := 0
|}.

Lemma guesses_bounded_witness :
  let tries := [(1, u "000000"); (2, u "111111"); (3, u "123456")] in
  verify_all (H := demo_hash) demo_db (u "c1") tries !! 2%nat = Some (Ok (u "ann"))
  ∧ (length (retain (λ p : Z * ustr, negb (ustr_eqb p.2 (u "123456"))) (take 2 tries)) < 5)%nat.
Proof.
  split; [vm_compute; reflexivity|].
  refine (proj1 (guesses_bounded (H := demo_hash) demo_db (u "c1") demo_challenge
    [(1, u "000000"); (2, u "111111"); (3, u "123456")] 2 (u "ann") _ _ _ _ _)).
  - vm_compute. reflexivity.
  - reflexivity.
  - reflexivity.
  - repeat constructor; cbn; lia.
  - vm_compute. reflexivity.
Defined.

Lemma numeric_code_uniform_witness :
  (0 ≤ 42 < 1000000 ∧ 0 ≤ 7000042)
  ∧ ((7000042 < CODE_LIMIT ∧ 7000042 mod 1000000 = 42) ↔ ∃ q, 0 ≤ q < 4294 ∧ 7000042 = 42 + q * 1000000).
Proof. split; [lia|]. apply (numeric_code_uniform 42 7000042); lia. Defined.

(** Calls on one challenge advanced in the order of a schedule. *)
Definition advance (now : Z) (id : ustr) (st : UserDb * list (ustr * verify_at)) (i : nat)
    : UserDb * list (ustr * verify_at) :=
  match st.2 !! i with
  | Some (code, at_) =>
      let '(at', D') := verify_step (H := demo_hash) false now st.1 id code at_ in (D', <[i := (code, at')]> st.2)
  | None => st
  end.

(** Concurrent guesses exceed the cap: a verification that has counted its
    wrong guess invalidates the challenge only in a further statement, so
    calls that all read the challenge first can try any number of codes; here
    eight wrong ones, and then the right one logs in. *)
Lemma concurrent_guesses_exceed_cap :
  let calls := replicate 8 (u "000000", VRead) ++ [(u "123456", VRead)] in
  let schedule := seq 0 9 ++ seq 0 9 ++ seq 0 8 ++ [8; 8; 8]%nat in
  let '(D, cs) := foldl (advance 1 (u "c1")) (demo_db, calls) schedule in
  cs !! 8%nat = Some (u "123456", VDone (Ok (u "ann")))
  ∧ map c_attempts (option_list (otp_challenges D !! u "c1")) = [8].
Proof. vm_compute. by split. Qed.

(** Requesting a code and wasting five guesses on it. *)
Definition burn_round (st : UserDb * list bool) (k : Z) : UserDb * list bool :=
  let id := show_Z k in
  let '(r, D) := request_otp (H := demo_hash) (H0 := demo_order) false 1 st.1 (u "a@b.c") id (u "654321") 0%N in
  (foldl (λ D _, (verify_otp (H := demo_hash) 1 D id (u "000000")).2) D (seq 0 5),
   st.2 ++ [match r with Ok (Some _) => true | _ => false end]).

(** The rate limit counts only unspent challenges: codes requested and
    burned with five wrong guesses each do not count, so at one instant any
    number of codes is sent and guessed at, here eight. *)
Lemma burned_challenges_escape_rate_limit :
  (foldl burn_round (demo_db, []) (map Z.of_nat (seq 0 8))).2 = replicate 8 true.
Proof. vm_compute. reflexivity. Qed.

Definition demo_token_db : UserDb :=
  with_tokens demo_db {[ u "t1" := {| t_hash := u "secret"; t_expires := 10; t_consumed := false |} ]}.

(** A setup token can be claimed twice: two claims that both look before
    either consumes the token both create an administrator. *)
Lemma setup_token_claimed_twice :
  let find D := claim_find (H := demo_hash) (H0 := demo_order) 5 D (u "secret") in
  find demo_token_db = Some (u "t1")
  ∧ match create_user false demo_token_db (u "x@b.c") Admin (u "x") with
    | Some D1 =>
        find D1 = Some (u "t1")
        ∧ match create_user false D1 (u "y@b.c") Admin (u "y") with
          | Some D2 => map (is_active_admin (consume_token (consume_token D2 (u "t1")) (u "t1"))) [u "x"; u "y"] = [true; true]
          | None => False
          end
    | None => False
    end.
Proof. vm_compute. by split_and!. Qed.

Lemma otp_single_use_witness :
  let D := with_otps demo_db ∅ in
  ∃ C, rtc (otp_step (H := demo_hash)) (no_calls D) C
    ∧ procs C !! 0%nat = Some (u "c1", u "123456", VDone (Ok (u "ann")))
    ∧ ∃ c0, issued C !! u "c1" = Some c0 ∧ c_user c0 = u "ann"
        ∧ verify_password_hash (PasswordHash := demo_hash) (u "123456") (c_hash c0) = true.
Proof.
  assert (∃ C, rtc (otp_step (H := demo_hash)) (no_calls (with_otps demo_db ∅)) C
    ∧ procs C !! 0%nat = Some (u "c1", u "123456", VDone (Ok (u "ann")))) as (C & Hr & Hp).
  { eexists. split.
    - eapply rtc_l; [apply (s_insert _ (u "c1") demo_challenge); reflexivity|].
      eapply rtc_l; [apply (s_call _ (u "c1") (u "123456"))|].
      do 5 (eapply rtc_l; [eapply (s_verify _ 0 (u "c1") (u "123456") _ false 1); reflexivity|]).
      apply rtc_refl.
    - reflexivity. }
  exists C. split; [exact Hr|]. split; [exact Hp|].
  exact (proj2 (otp_single_use (H := demo_hash) (with_otps demo_db ∅) C 0 0 (u "c1") (u "123456") (u "123456")
    (u "ann") (u "ann") eq_refl Hr Hp Hp)).
Defined.
