(* ===== verification/Accounts.v ===== *)
(** * The account rotator (crates/duduclaw-agent/src/account_rotator)

    The accounts, their health book-keeping, the selection and the credential
    probe.  A time is a number of nanoseconds; each call reads the clock once.
    [chrono] (parsing a date, adding a configured number of seconds, which
    panics past its last date) and the host's environment are interfaces.
    Counters wrap at their width, as in a release build. *)

From S2P Require Import Prelude Toml.

(** [parse::<DateTime<Utc>>], and [now + Duration::seconds(s)]: [None] is a
    panic, a result is the sum. *)
Class Chrono := {
  parse_utc : ustr → option Z;
  add_seconds : Z → Z → option Z;
  add_seconds_sum now s t : add_seconds now s = Some t → t = now + secs s;
}.

(** [std::env::var], and whether a directory is [~/.claude]. *)
Class Host := {
  env_var : ustr → option ustr;
  is_default_home : ustr → bool;
}.

(** ** Accounts *)

Inductive AuthFailureKind := InvalidToken | OrgDisabled.

Inductive CredentialState :=
| CredOk
| Unverified
| Broken
| AuthDead (kind : AuthFailureKind).

Definition is_blocking (s : CredentialState) : bool :=
  match s with Broken => true | _ => false end.

Definition show_failure_kind (k : AuthFailureKind) : ustr :=
  match k with InvalidToken => u "invalid_token" | OrgDisabled => u "org_disabled" end.

Definition show_credential_state (s : CredentialState) : ustr :=
  match s with
  | CredOk => u "ok"
  | Unverified => u "unverified"
  | Broken => u "broken"
  | AuthDead k => u "auth_dead:" ++ show_failure_kind k
  end.

Definition credential_detail (s : CredentialState) : option ustr :=
  match s with
  | CredOk | Unverified => None
  | Broken => Some (u "憑證無法解密或為空，請檢查 ~/.duduclaw/.keyfile 後重新儲存憑證")
  | AuthDead InvalidToken => Some (u "token 無效（401），請重新執行 `claude setup-token` 並更新此帳號")
  | AuthDead OrgDisabled => Some (u "此組織已停用 Claude Code 訂閱存取（403），請改用 API key 或洽組織管理員")
  end.

Inductive AuthMethod := ApiKey | OAuth.
#[export] Instance AuthMethod_eq_dec : EqDecision AuthMethod.
Proof. solve_decision. Defined.

(** [Account]: what the load path sets, then the runtime state. *)
Record AccountConfig := {
  id : ustr;
  auth_method : AuthMethod;
  provider : ustr;
  priority : Z;
  monthly_budget_cents : Z;
  tags : list ustr;
  label : ustr;
  expires_at : option ustr;
  api_key : ustr;
  oauth_token : option ustr;
  credentials_dir : option ustr;
}.

Record Account := {
  conf :> AccountConfig;
  is_healthy : bool;
  consecutive_errors : Z;
  spent_this_month : Z;
  cooldown_until : option Z;
  last_used : option Z;
  total_requests : Z;
  credential_state : CredentialState;
  auth_dead_strikes : Z;
  next_probe_at : option Z;
  probe_failures : Z;
}.

(** Assignments to the fields of an account. *)
Definition set_conf (a : Account) v : Account := {| conf := v; is_healthy := is_healthy a;
  consecutive_errors := consecutive_errors a; spent_this_month := spent_this_month a;
  cooldown_until := cooldown_until a; last_used := last_used a; total_requests := total_requests a;
  credential_state := credential_state a; auth_dead_strikes := auth_dead_strikes a;
  next_probe_at := next_probe_at a; probe_failures := probe_failures a |}.
Definition set_health (a : Account) v errors : Account := {| conf := conf a; is_healthy := v;
  consecutive_errors := errors; spent_this_month := spent_this_month a;
  cooldown_until := cooldown_until a; last_used := last_used a; total_requests := total_requests a;
  credential_state := credential_state a; auth_dead_strikes := auth_dead_strikes a;
  next_probe_at := next_probe_at a; probe_failures := probe_failures a |}.
Definition set_usage (a : Account) spent used requests : Account := {| conf := conf a; is_healthy := is_healthy a;
  consecutive_errors := consecutive_errors a; spent_this_month := spent;
  cooldown_until := cooldown_until a; last_used := used; total_requests := requests;
  credential_state := credential_state a; auth_dead_strikes := auth_dead_strikes a;
  next_probe_at := next_probe_at a; probe_failures := probe_failures a |}.
Definition set_cooldown (a : Account) v : Account := {| conf := conf a; is_healthy := is_healthy a;
  consecutive_errors := consecutive_errors a; spent_this_month := spent_this_month a;
  cooldown_until := v; last_used := last_used a; total_requests := total_requests a;
  credential_state := credential_state a; auth_dead_strikes := auth_dead_strikes a;
  next_probe_at := next_probe_at a; probe_failures := probe_failures a |}.
Definition set_credential (a : Account) v strikes : Account := {| conf := conf a; is_healthy := is_healthy a;
  consecutive_errors := consecutive_errors a; spent_this_month := spent_this_month a;
  cooldown_until := cooldown_until a; last_used := last_used a; total_requests := total_requests a;
  credential_state := v; auth_dead_strikes := strikes;
  next_probe_at := next_probe_at a; probe_failures := probe_failures a |}.
Definition set_probe (a : Account) v failures : Account := {| conf := conf a; is_healthy := is_healthy a;
  consecutive_errors := consecutive_errors a; spent_this_month := spent_this_month a;
  cooldown_until := cooldown_until a; last_used := last_used a; total_requests := total_requests a;
  credential_state := credential_state a; auth_dead_strikes := auth_dead_strikes a;
  next_probe_at := v; probe_failures := failures |}.

Definition cooling (now : Z) (a : Account) : bool :=
  match cooldown_until a with Some cd => now <? cd | None => false end.
(** [cooldown_until.is_some_and(|cd| now >= cd)]. *)
Definition cooled_down (now : Z) (a : Account) : bool :=
  match cooldown_until a with Some cd => cd <=? now | None => false end.

Section accounts.
Context `{Chrono} `{Host}.
Implicit Types (a b : Account) (now : Z).

Definition has_credential a : bool :=
  match auth_method a with
  | ApiKey => negb (is_empty (api_key a))
  | OAuth =>
      if ustr_eqb (provider a) (u "anthropic") then
        match oauth_token a, credentials_dir a with None, None => false | _, _ => true end
      else true
  end.

Definition expired now a : bool :=
  match expires_at a with
  | Some exp => match parse_utc exp with Some expiry => expiry <? now | None => false end
  | None => false
  end.

Definition over_budget a : bool :=
  match auth_method a with ApiKey => monthly_budget_cents a <=? spent_this_month a | OAuth => false end.

Definition is_available now a : bool :=
  if is_blocking (credential_state a) then false
  else if negb (is_healthy a) && negb (cooled_down now a) then false
  else if over_budget a then false
  else if cooling now a then false
  else if expired now a then false
  else has_credential a.

(** ** Backoffs, in nanoseconds *)

Definition minutes (n : Z) : Z := secs (60 * n).
Definition hours (n : Z) : Z := minutes (60 * n).
Definition AUTH_DEAD_BASE_MINUTES : Z := 15.
Definition AUTH_DEAD_CAP_MINUTES : Z := 6 * 60.
Definition PROBE_BACKOFF_BASE_MINUTES : Z := 1.
Definition PROBE_BACKOFF_CAP_MINUTES : Z := 30.

Definition u32_saturating_sub (x y : Z) : Z := Z.max 0 (x - y).
Definition i64_saturating_mul (x y : Z) : Z := Z.max i64_min (Z.min i64_max (x * y)).

Definition auth_dead_backoff (strikes : Z) : Z :=
  let exp := Z.min (u32_saturating_sub strikes 1) 16 in
  minutes (Z.min (i64_saturating_mul AUTH_DEAD_BASE_MINUTES (Z.shiftl 1 exp)) AUTH_DEAD_CAP_MINUTES).

Definition probe_backoff (failures : Z) : Z :=
  let exp := Z.min (u32_saturating_sub failures 1) 16 in
  minutes (Z.min (i64_saturating_mul PROBE_BACKOFF_BASE_MINUTES (Z.shiftl 1 exp)) PROBE_BACKOFF_CAP_MINUTES).

(** [doubled_cooldown]: a doubling that overflows is above the cap anyway. *)
Definition doubled_cooldown now (current : option Z) : Z :=
  let next :=
    match current with
    | Some cd => if 0 <? cd - now then 2 * (cd - now) else minutes AUTH_DEAD_BASE_MINUTES
    | None => minutes AUTH_DEAD_BASE_MINUTES
    end in
  now + Z.min next (minutes AUTH_DEAD_CAP_MINUTES).

(** [Some(cooldown_until.map_or(until, |cur| cur.max(until)))]. *)
Definition extend_cooldown (until : Z) a : Account :=
  set_cooldown a (Some (match cooldown_until a with Some cur => Z.max cur until | None => until end)).

(** ** Health book-keeping *)

Inductive RotationStrategy := RoundRobin | LeastCost | Failover | Priority.

Definition strategy_of_str (s : ustr) : RotationStrategy :=
  if ustr_eqb s (u "round_robin") then RoundRobin
  else if ustr_eqb s (u "least_cost") then LeastCost
  else if ustr_eqb s (u "failover") then Failover
  else Priority.

Record AccountRotator := {
  accounts : list Account;
  inherit_host_credentials : bool;
  strategy : RotationStrategy;
  round_robin_index : nat;
  cooldown_seconds : Z;
}.
Implicit Types (R : AccountRotator).

Definition with_accounts R l : AccountRotator := {| accounts := l; inherit_host_credentials := inherit_host_credentials R;
  strategy := strategy R; round_robin_index := round_robin_index R; cooldown_seconds := cooldown_seconds R |}.
Definition with_index R i : AccountRotator := {| accounts := accounts R; inherit_host_credentials := inherit_host_credentials R;
  strategy := strategy R; round_robin_index := i; cooldown_seconds := cooldown_seconds R |}.

(** [iter_mut().find(..)] and a change of what is found. *)
Fixpoint update_first (p : Account → bool) (f : Account → Account) (l : list Account) : list Account :=
  match l with
  | [] => []
  | a :: r => if p a then f a :: r else a :: update_first p f r
  end.
Definition has_id (account_id : ustr) a : bool := ustr_eqb (id a) account_id.
Definition update R (account_id : ustr) (f : Account → Account) : AccountRotator :=
  with_accounts R (update_first (has_id account_id) f (accounts R)).

Definition u64_add (x y : Z) : Z := (x + y) mod 2 ^ 64.

Definition booked_success now (cost_cents : Z) a : Account :=
  let a := set_health a (if cooling now a then is_healthy a else true) 0 in
  let a := set_credential a (match credential_state a with Broken => Broken | _ => CredOk end) 0 in
  let a := set_probe a None 0 in
  set_usage a (u64_add (spent_this_month a) cost_cents) (Some now) (u64_add (total_requests a) 1).
Definition on_success now R account_id cost_cents : AccountRotator := update R account_id (booked_success now cost_cents).

Definition booked_auth_failed now (kind : AuthFailureKind) a : Account :=
  let a := set_health a false (consecutive_errors a) in
  let a := set_credential a (AuthDead kind) (u32_saturating_add (auth_dead_strikes a) 1) in
  let a := set_probe a None (probe_failures a) in
  extend_cooldown (now + auth_dead_backoff (auth_dead_strikes a)) a.
Definition on_auth_failed now R account_id kind : AccountRotator := update R account_id (booked_auth_failed now kind).

(** [on_error] and [on_rate_limited]: [None] when the cooldown panics. *)
Definition booked_error (until : Z) a : Account :=
  let a := set_health a (is_healthy a) (as_u32 (consecutive_errors a + 1)) in
  if 3 <=? consecutive_errors a then extend_cooldown until (set_health a false (consecutive_errors a)) else a.
Definition on_error now R account_id : option AccountRotator :=
  match List.find (has_id account_id) (accounts R) with
  | None => Some R
  | Some a =>
      if 3 <=? as_u32 (consecutive_errors a + 1) then
        until ← add_seconds now (as_i64 (cooldown_seconds R)); Some (update R account_id (booked_error until))
      else Some (update R account_id (booked_error now))
  end.

Definition booked_rate_limited (until : Z) a : Account :=
  let a := set_health a (if is_blocking (credential_state a) then is_healthy a else true) 0 in
  extend_cooldown until a.
Definition on_rate_limited now R account_id : option AccountRotator :=
  match List.find (has_id account_id) (accounts R) with
  | None => Some R
  | Some _ =>
      until ← add_seconds now (as_i64 (cooldown_seconds R)); Some (update R account_id (booked_rate_limited until))
  end.

Definition booked_billing now a : Account :=
  set_cooldown (set_health a false (consecutive_errors a)) (Some (now + hours 24)).
Definition on_billing_exhausted now R account_id : AccountRotator := update R account_id (booked_billing now).

Definition reset_monthly R : AccountRotator :=
  with_accounts R (map (λ a, set_usage a 0 (last_used a) (total_requests a)) (accounts R)).

Definition update_seat_token R account_id (new_token : ustr) : AccountRotator :=
  with_accounts R
    (update_first (λ a, has_id account_id a && bool_decide (auth_method a = OAuth))
       (λ a, set_conf a {| id := id a; auth_method := auth_method a; provider := provider a; priority := priority a;
               monthly_budget_cents := monthly_budget_cents a; tags := tags a; label := label a;
               expires_at := expires_at a; api_key := api_key a; oauth_token := Some new_token;
               credentials_dir := credentials_dir a |})
       (accounts R)).

Definition has_seat_for_provider now R (prov : ustr) : bool :=
  existsb (λ a, ustr_eqb (provider a) prov && bool_decide (auth_method a = OAuth) && is_available now a
             && match oauth_token a with Some t => negb (is_empty t) | None => false end) (accounts R).

Inductive UnavailableReason := LongCooldown | ShortCooldown | UnknownReason.

Definition unavailable_reason now R : UnavailableReason :=
  let cooldowns := retain (λ cd, now <? cd)
                     (omap cooldown_until (retain (λ a, negb (is_available now a)) (accounts R))) in
  match cooldowns with
  | [] => UnknownReason
  | cd :: r => if hours 1 <? foldl Z.max cd r - now then LongCooldown else ShortCooldown
  end.

(** ** Account pools *)

Definition has_pool_entries (pool : list ustr) : bool := existsb (λ p, negb (is_empty (trim p))) pool.

Definition account_in_pool a (pool : list ustr) : bool :=
  existsb (λ entry,
    let entry := trim entry in
    if is_empty entry then false
    else if eq_ignore_ascii_case entry (trim (id a)) then true
    else
      let lbl := trim (label a) in
      if negb (is_empty lbl) && eq_ignore_ascii_case entry lbl then true
      else existsb (λ t, negb (is_empty (trim t)) && eq_ignore_ascii_case entry (trim t)) (tags a)) pool.

Inductive PoolNarrowing :=
| NotRequested
| Applied (filtered : list Account)
| FailedOpen.

Definition narrow_by_pool (available : list Account) (pool : list ustr) : PoolNarrowing :=
  if is_empty available || negb (has_pool_entries pool) then NotRequested
  else
    let filtered := retain (λ a, account_in_pool a pool) available in
    if is_empty filtered then FailedOpen else Applied filtered.

(** ** Selection *)

Definition provider_env_key_names (prov : ustr) : list ustr :=
  if ustr_eqb prov (u "anthropic") then [u "ANTHROPIC_API_KEY"]
  else if ustr_eqb prov (u "openai") then [u "OPENAI_API_KEY"]
  else if ustr_eqb prov (u "gemini") || ustr_eqb prov (u "google") then [u "GEMINI_API_KEY"; u "GOOGLE_API_KEY"]
  else if ustr_eqb prov (u "deepseek") then [u "DEEPSEEK_API_KEY"]
  else if ustr_eqb prov (u "minimax") then [u "MINIMAX_API_KEY"]
  else if ustr_eqb prov (u "azure") then [u "AZURE_SPEECH_KEY"]
  else if ustr_eqb prov (u "groq") then [u "GROQ_API_KEY"]
  else if ustr_eqb prov (u "together") then [u "TOGETHER_API_KEY"]
  else if ustr_eqb prov (u "mistral") then [u "MISTRAL_API_KEY"]
  else if ustr_eqb prov (u "openrouter") then [u "OPENROUTER_API_KEY"]
  else if ustr_eqb prov (u "xai") then [u "XAI_API_KEY"]
  else if ustr_eqb prov (u "qwen") then [u "DASHSCOPE_API_KEY"; u "QWEN_API_KEY"]
  else [].

Record AccountEnv := {
  env_id : ustr;
  env_auth_method : AuthMethod;
  env_provider : ustr;
  raw_key : option ustr;
  seat_token : option ustr;
  env_vars : gmap ustr ustr;
}.

(** A string if it is not empty. *)
Definition non_empty (s : ustr) : option ustr := if is_empty s then None else Some s.

Definition anthropic_vars a : gmap ustr ustr :=
  match auth_method a with
  | ApiKey => {[ u "ANTHROPIC_API_KEY" := api_key a ]}
  | OAuth =>
      <[u "ANTHROPIC_API_KEY" := []]>
        match oauth_token a, credentials_dir a with
        | Some token, _ => {[ u "CLAUDE_CODE_OAUTH_TOKEN" := token ]}
        | None, Some dir => if is_default_home dir then ∅ else {[ u "CLAUDE_CONFIG_DIR" := dir ]}
        | None, None => ∅
        end
  end.
Definition other_vars a : gmap ustr ustr :=
  match auth_method a, provider_env_key_names (provider a) with
  | ApiKey, name :: _ => {[ name := api_key a ]}
  | _, _ => ∅
  end.

Definition build_account_env a : AccountEnv :=
  let anthropic := ustr_eqb (provider a) (u "anthropic") in
  {| env_id := id a;
     env_auth_method := auth_method a;
     env_provider := provider a;
     raw_key := match auth_method a with ApiKey => non_empty (api_key a) | OAuth => None end;
     seat_token :=
       match auth_method a with OAuth => if anthropic then None else oauth_token a ≫= non_empty | ApiKey => None end;
     env_vars := if anthropic then anthropic_vars a else other_vars a |}.

Definition env_fallback_account_env (prov : ustr) : option AccountEnv :=
  match provider_env_key_names prov with
  | [] => None
  | (emit_name :: _) as names =>
      key ← head (omap (λ n, env_var n ≫= non_empty) names);
      Some {| env_id := prov ++ u "-env"; env_auth_method := ApiKey; env_provider := prov; raw_key := Some key;
              seat_token := None; env_vars := {[ emit_name := key ]} |}
  end.

(** [Iterator::min_by_key]: the first of the least. *)
Definition first_min {A} (lt : A → A → bool) (l : list A) : option A :=
  match l with
  | [] => None
  | x :: r => Some (foldl (λ m y, if lt y m then y else m) x r)
  end.

(** The order of [Option]: [None] first. *)
Definition option_ltb (x y : option Z) : bool :=
  match x, y with
  | None, Some _ => true
  | Some i, Some j => i <? j
  | _, None => false
  end.

Definition by_priority (a b : Account) : bool := priority a <? priority b.
Definition by_spent (a b : Account) : bool := spent_this_month a <? spent_this_month b.
Definition by_last_used (a b : Account) : bool := option_ltb (last_used a) (last_used b).

Definition least_cost (available : list Account) : option Account :=
  match retain (λ a, bool_decide (auth_method a = OAuth)) available with
  | [] => first_min by_spent available
  | (x :: r) as oauth =>
      let min_spent := foldl Z.min (spent_this_month x) (map spent_this_month r) in
      first_min by_last_used (retain (λ a, spent_this_month a =? min_spent) oauth)
  end.

(** The accounts a selection chooses from, after the pool and the exclusion. *)
Definition candidates now R (prov : ustr) (pool exclude : list ustr) : list Account :=
  let available := retain (λ a, ustr_eqb (provider a) prov && is_available now a) (accounts R) in
  let available := match narrow_by_pool available pool with Applied filtered => filtered | _ => available end in
  retain (λ a, negb (existsb (λ i, ustr_eqb i (id a)) exclude)) available.

Definition choose R (available : list Account) : option Account * AccountRotator :=
  match strategy R with
  | Priority | Failover => (first_min by_priority available, R)
  | LeastCost => (least_cost available, R)
  | RoundRobin =>
      let n := length available in
      (available !! (round_robin_index R mod n)%nat, with_index R ((round_robin_index R + 1) mod n)%nat)
  end.

Definition select_excluding now R (prov : ustr) (pool exclude : list ustr) : option AccountEnv * AccountRotator :=
  let available := candidates now R prov pool exclude in
  if is_empty available then
    (if negb (existsb (λ a, ustr_eqb (provider a) prov) (accounts R)) && inherit_host_credentials R
     then env_fallback_account_env prov else None, R)
  else
    let '(selected, R') := choose R available in (build_account_env <$> selected, R').

(** ** The credential probe *)

Inductive CredentialKind := KindApiKey | KindOAuthToken.
Inductive CredentialProbe := Valid | InvalidCredential | ProbeOrgDisabled | RateLimited | ProbeUnknown.

Definition probe_secret_for a : option (CredentialKind * ustr) :=
  if negb (ustr_eqb (provider a) (u "anthropic")) then None
  else
    match auth_method a with
    | ApiKey => if is_empty (trim (api_key a)) then None else Some (KindApiKey, api_key a)
    | OAuth =>
        match oauth_token a with
        | Some t => if is_empty (trim t) then None else Some (KindOAuthToken, t)
        | None => None
        end
    end.

Definition legacy_status_probe_may_restore (s : CredentialState) : bool :=
  match s with AuthDead _ | Broken => false | _ => true end.

Record ProbeCandidate := {
  p_id : ustr;
  p_method : AuthMethod;
  p_state : CredentialState;
  p_secret : option (CredentialKind * ustr);
  p_env : gmap ustr ustr;
}.

Definition wants_probe now a : bool :=
  (negb (is_healthy a) || cooled_down now a) && negb (is_available now a) && negb (is_blocking (credential_state a))
  && match next_probe_at a with Some t => t <=? now | None => true end.

Definition probe_candidates now R : list ProbeCandidate :=
  map (λ a, {| p_id := id a; p_method := auth_method a; p_state := credential_state a;
               p_secret := probe_secret_for a; p_env := env_vars (build_account_env a) |})
    (retain (wants_probe now) (accounts R)).

Definition restored_by_probe a : Account :=
  let a := set_cooldown (set_health a true 0) None in
  set_probe (set_credential a CredOk 0) None 0.
Definition rejected_by_probe now (kind : AuthFailureKind) a : Account :=
  let a := set_credential (set_health a false (consecutive_errors a)) (AuthDead kind) (auth_dead_strikes a) in
  let a := extend_cooldown (doubled_cooldown now (cooldown_until a)) a in
  let failures := u32_saturating_add (probe_failures a) 1 in
  set_probe a (Some (now + probe_backoff failures)) failures.
Definition restored_by_status a : Account := set_cooldown (set_health a true 0) None.

(** The answers of the outside: a probe of a secret, and [claude auth status]
    under an environment. *)
Record Answers := {
  ask_api : CredentialKind → ustr → CredentialProbe;
  logged_in : gmap ustr ustr → bool;
}.

(** One candidate, at the time its answer is in. *)
Definition probe_one (W : Answers) now (c : ProbeCandidate) R : AccountRotator :=
  match p_secret c with
  | Some (kind, secret) =>
      match ask_api W kind secret with
      | Valid => update R (p_id c) restored_by_probe
      | InvalidCredential => update R (p_id c) (rejected_by_probe now InvalidToken)
      | ProbeOrgDisabled => update R (p_id c) (rejected_by_probe now OrgDisabled)
      | RateLimited | ProbeUnknown => R
      end
  | None =>
      let ok :=
        legacy_status_probe_may_restore (p_state c)
        && match p_method c with
           | OAuth => logged_in W (p_env c)
           | ApiKey =>
               match List.find (has_id (p_id c)) (accounts R) with
               | Some a => match cooldown_until a with Some cd => cd <=? now | None => true end
               | None => false
               end
           end in
      if ok then update R (p_id c) restored_by_status else R
  end.

Definition probe_and_restore (W : Answers) now R : AccountRotator :=
  foldl (λ R c, probe_one W now c R) R (probe_candidates now R).

(** ** Configuration *)

Context `{Toml}.

Definition host_credentials_policy (config : toml_table) : result bool ustr :=
  match toml_get config (u "account_loading") with
  | None => Ok true
  | Some section =>
      match as_table section with
      | None => Err (u "account_loading must be a table")
      | Some t =>
          match toml_get t (u "inherit_host_credentials") with
          | None => Ok true
          | Some v =>
              match as_bool v with
              | Some x => Ok x
              | None => Err (u "account_loading.inherit_host_credentials must be a boolean")
              end
          end
      end
  end.

Definition create_from_config (config : toml_table) : AccountRotator :=
  let rotation := toml_get config (u "rotation") ≫= as_table in
  {| accounts := [];
     inherit_host_credentials := match host_credentials_policy config with Ok x => x | Err _ => false end;
     strategy := strategy_of_str (default (u "priority") (rotation ≫= λ r, toml_get r (u "strategy") ≫= as_str));
     round_robin_index := 0;
     cooldown_seconds :=
       default 120 (rotation ≫= λ r, toml_get r (u "cooldown_after_rate_limit_seconds") ≫= as_integer) mod 2 ^ 64 |}.

(** ** Histories

    Anything that happens to a rotator, a probe whole or one answer at a time
    (for a candidate of any earlier snapshot). *)
Inductive op :=
| OpSelect (prov : ustr) (pool exclude : list ustr)
| OpSuccess (account_id : ustr) (cost_cents : Z)
| OpAuthFailed (account_id : ustr) (kind : AuthFailureKind)
| OpError (account_id : ustr)
| OpRateLimited (account_id : ustr)
| OpBilling (account_id : ustr)
| OpResetMonthly
| OpSeatToken (account_id : ustr) (new_token : ustr)
| OpProbe (W : Answers)
| OpProbeOne (W : Answers) (c : ProbeCandidate).

Definition run_op now (o : op) R : option AccountRotator :=
  match o with
  | OpSelect prov pool exclude => Some (select_excluding now R prov pool exclude).2
  | OpSuccess i cost => Some (on_success now R i cost)
  | OpAuthFailed i kind => Some (on_auth_failed now R i kind)
  | OpError i => on_error now R i
  | OpRateLimited i => on_rate_limited now R i
  | OpBilling i => Some (on_billing_exhausted now R i)
  | OpResetMonthly => Some (reset_monthly R)
  | OpSeatToken i tok => Some (update_seat_token R i tok)
  | OpProbe W => Some (probe_and_restore W now R)
  | OpProbeOne W c => Some (probe_one W now c R)
  end.

Fixpoint run_ops (l : list (Z * op)) R : option AccountRotator :=
  match l with
  | [] => Some R
  | (now, o) :: r => R' ← run_op now o R; run_ops r R'
  end.

(** ** What every operation does to the accounts *)

(** A change an operation makes to an account, at a time and with a
    configured cooldown. *)
Inductive change (now cooldown : Z) : Account → Account → Prop :=
| ch_success a cost : change now cooldown a (booked_success now cost a)
| ch_auth a kind : change now cooldown a (booked_auth_failed now kind a)
| ch_error a until :
    (3 ≤ as_u32 (consecutive_errors a + 1) → until = now + cooldown) → change now cooldown a (booked_error until a)
| ch_limited a : change now cooldown a (booked_rate_limited (now + cooldown) a)
| ch_billing a : change now cooldown a (booked_billing now a)
| ch_monthly a : change now cooldown a (set_usage a 0 (last_used a) (total_requests a))
| ch_seat a c : id c = id a → provider c = provider a → change now cooldown a (set_conf a c)
| ch_restored a : change now cooldown a (restored_by_probe a)
| ch_status a : change now cooldown a (restored_by_status a)
| ch_rejected a kind : change now cooldown a (rejected_by_probe now kind a).

Definition cooldown_of R : Z := secs (as_i64 (cooldown_seconds R)).

(** What no operation changes. *)
Definition identity a : ustr * ustr := (id a, provider a).

Lemma booked_error_identity until a : identity (booked_error until a) = identity a.
Proof. unfold booked_error. by destruct (_ <=? _). Qed.

Lemma change_identity now cooldown a b : change now cooldown a b → identity b = identity a.
Proof. destruct 1; cbn; try done; [apply booked_error_identity|]. unfold identity. cbn. congruence. Qed.

Lemma Forall2_changes_refl now cooldown (l : list Account) : Forall2 (rtc (change now cooldown)) l l.
Proof. induction l; by constructor. Qed.

Lemma update_first_changes now cooldown p f (l : list Account) :
  (∀ a, a ∈ l → p a = true → change now cooldown a (f a)) →
  Forall2 (rtc (change now cooldown)) l (update_first p f l).
Proof.
  induction l as [|a l IH]; intros Hf; cbn; [constructor|]. destruct (p a) eqn:E.
  - constructor; [|apply Forall2_changes_refl]. apply rtc_once, Hf; [by left|done].
  - constructor; [done|]. apply IH. intros. apply Hf; [by right|done].
Qed.

(** The operation left everything else alone. *)
Definition same_settings R R' : Prop :=
  cooldown_seconds R' = cooldown_seconds R ∧ strategy R' = strategy R
  ∧ inherit_host_credentials R' = inherit_host_credentials R.

Definition steps_to now R R' : Prop :=
  same_settings R R' ∧ Forall2 (rtc (change now (cooldown_of R))) (accounts R) (accounts R').

Lemma update_steps now R i f :
  (∀ a, List.find (has_id i) (accounts R) = Some a → change now (cooldown_of R) a (f a)) →
  steps_to now R (update R i f).
Proof.
  intros Hf. split; [done|]. cbn. revert Hf. generalize (cooldown_of R). intros cd.
  induction (accounts R) as [|a l IH]; intros Hf; cbn; [constructor|]. cbn in Hf. destruct (has_id i a).
  - constructor; [by apply rtc_once, Hf|apply Forall2_changes_refl].
  - constructor; [done|by apply IH].
Qed.

Lemma steps_refl now R : steps_to now R R.
Proof. split; [done|apply Forall2_changes_refl]. Qed.

Lemma steps_trans now R1 R2 R3 : steps_to now R1 R2 → steps_to now R2 R3 → steps_to now R1 R3.
Proof.
  intros [(Hc & Hs & Hi) K1] [(Hc' & Hs' & Hi') K2]. split; [split_and!; congruence|].
  unfold cooldown_of in *. rewrite Hc in K2. revert K2. generalize (accounts R3). clear -K1.
  induction K1 as [|a b l l' Hab _ IH]; intros l3 K2; [inversion K2; constructor|].
  inversion K2; subst. constructor; [by etrans|by apply IH].
Qed.

Lemma probe_one_steps W now c R : steps_to now R (probe_one W now c R).
Proof.
  unfold probe_one. repeat case_match; try apply steps_refl; apply update_steps; intros; constructor.
Qed.

Lemma probes_steps W now cs R : steps_to now R (foldl (λ R c, probe_one W now c R) R cs).
Proof.
  revert R. induction cs as [|c cs IH]; intros R; cbn; [apply steps_refl|].
  eapply steps_trans; [apply probe_one_steps|apply IH].
Qed.

Lemma run_op_steps now o R R' : run_op now o R = Some R' → steps_to now R R'.
Proof.
  destruct o; cbn; intros Ho; simplify_eq; try (apply update_steps; intros; constructor).
  - unfold select_excluding, choose. repeat case_match; simplify_eq/=; (split; [done|apply Forall2_changes_refl]).
  - unfold on_error in Ho. destruct (List.find _ _) as [a|] eqn:Ef; [|simplify_eq; apply steps_refl].
    destruct (Z.leb_spec 3 (as_u32 (consecutive_errors a + 1))) as [Hl|Hl].
    + apply bind_Some in Ho as (until & Ha & ?). simplify_eq. apply update_steps. intros b Hb. simplify_eq.
      constructor. intros _. by apply add_seconds_sum.
    + simplify_eq. apply update_steps. intros b Hb. simplify_eq. constructor. lia.
  - unfold on_rate_limited in Ho. destruct (List.find _ _) as [a|]; [|simplify_eq; apply steps_refl].
    apply bind_Some in Ho as (until & Ha & ?). simplify_eq. apply add_seconds_sum in Ha as ->.
    apply update_steps. intros. constructor.
  - split; [done|]. cbn. induction (accounts R) as [|a l IH]; cbn; constructor; [|done]. apply rtc_once. constructor.
  - split; [done|]. cbn. apply update_first_changes. intros. by constructor.
  - apply probes_steps.
  - apply probe_one_steps.
Qed.

Lemma run_op_identity now o R R' : run_op now o R = Some R' → map identity (accounts R') = map identity (accounts R).
Proof.
  intros [_ Hs]%run_op_steps. induction Hs as [|a b l l' Hab _ IH]; cbn; [done|]. f_equal; [|done].
  clear -Hab. induction Hab as [|a b c Hs _ IH]; [done|]. rewrite IH. by eapply change_identity.
Qed.

Lemma run_ops_identity l R R' : run_ops l R = Some R' → map identity (accounts R') = map identity (accounts R).
Proof.
  revert R. induction l as [|[now o] l IH]; intros R Hr; cbn in Hr; [by simplify_eq|].
  apply bind_Some in Hr as (R1 & Ho & Hr). rewrite (IH _ Hr). by eapply run_op_identity.
Qed.

(** ** Accounts come back *)

(** An unhealthy account has a cooldown to wait for, unless it is broken. *)
Definition heals a : Prop := is_healthy a = true ∨ is_Some (cooldown_until a) ∨ credential_state a = Broken.
Definition cools_by (t : Z) a : Prop := ∀ cd, cooldown_until a = Some cd → cd ≤ t.

Definition longest R : Z := Z.max (hours 24) (cooldown_of R).

Lemma backoff_bounds strikes : 0 < auth_dead_backoff strikes ≤ hours 6.
Proof.
  unfold auth_dead_backoff, u32_saturating_sub.
  assert (∃ k : nat, (k ≤ 16)%nat ∧ Z.min (Z.max 0 (strikes - 1)) 16 = Z.of_nat k) as (k & Hk & ->).
  { exists (Z.to_nat (Z.min (Z.max 0 (strikes - 1)) 16)). split; lia. }
  do 17 (destruct k as [|k]; [vm_compute; by split|]). lia.
Qed.

Lemma doubled_bounds now cd : now ≤ doubled_cooldown now cd ≤ now + hours 6.
Proof.
  unfold doubled_cooldown. change (minutes AUTH_DEAD_CAP_MINUTES) with (hours 6).
  assert (0 < hours 6 ∧ 0 ≤ minutes AUTH_DEAD_BASE_MINUTES) as [? ?] by (by vm_compute).
  destruct cd as [cd|]; [|lia]. destruct (Z.ltb_spec 0 (cd - now)); lia.
Qed.

Lemma change_heals now cooldown t a b :
  change now cooldown a b → now + Z.max (hours 24) cooldown ≤ t →
  heals a ∧ cools_by t a → heals b ∧ cools_by t b.
Proof.
  intros Hc Ht [Hh Ht'].
  assert (hours 6 ≤ hours 24 ∧ 0 < hours 6) as [? ?] by (by vm_compute).
  assert (∀ until, until ≤ t → ∀ cd,
    Some (match cooldown_until a with Some cur => Z.max cur until | None => until end) = Some cd → cd ≤ t) as Hext.
  { intros w Hu cd [= <-]. unfold cools_by in Ht'. destruct (cooldown_until a); [|done]. specialize (Ht' _ eq_refl). lia. }
  destruct Hc; unfold heals, cools_by in *; cbn.
  - split; [|done]. unfold cooling. destruct (cooldown_until a) as [cd|]; [by eauto|by left].
  - split; [eauto|]. apply Hext. pose proof (backoff_bounds (u32_saturating_add (auth_dead_strikes a) 1)). lia.
  - unfold booked_error. cbn. destruct (Z.leb_spec 3 (as_u32 (consecutive_errors a + 1))) as [Hl|Hl]; cbn; [|done].
    split; [eauto|]. apply Hext. match goal with Hu : 3 ≤ _ → until = _ |- _ => rewrite Hu by done end. lia.
  - split; [eauto|]. apply Hext. lia.
  - split; [eauto|]. intros cd [= <-]. lia.
  - done.
  - done.
  - split; [by left|done].
  - split; [by left|done].
  - split; [eauto|]. apply Hext. pose proof (doubled_bounds now (cooldown_until a)). lia.
Qed.

Lemma changes_heal now cooldown t a b :
  rtc (change now cooldown) a b → now + Z.max (hours 24) cooldown ≤ t →
  heals a ∧ cools_by t a → heals b ∧ cools_by t b.
Proof. intros Hr Ht. induction Hr as [|a b c Hs _ IH]; [done|]. intros Ha. eapply IH, change_heals; eauto. Qed.

Lemma run_ops_heal l R R' t :
  Forall (λ p : Z * op, p.1 + longest R ≤ t) l → run_ops l R = Some R' →
  Forall (λ a, heals a ∧ cools_by t a) (accounts R) → Forall (λ a, heals a ∧ cools_by t a) (accounts R').
Proof.
  revert R. induction l as [|[now o] l IH]; intros R Ht Hr Hi; cbn in Hr; [by simplify_eq|].
  apply bind_Some in Hr as (R1 & Ho & Hr). inversion Ht as [|? ? Hn Hl]; subst. cbn in Hn.
  destruct (run_op_steps _ _ _ _ Ho) as [(Hc & _) Hs].
  apply (IH R1); [|done|].
  - unfold longest, cooldown_of in *. by rewrite Hc.
  - clear IH Hr Ho Hl Ht. revert Hi. induction Hs as [|a b la lb Hab _ IH]; intros Hi; [constructor|].
    inversion Hi; subst. constructor; [|by apply IH]. eapply changes_heal; [done|exact Hn|done].
Qed.

(** The ladder of the cooldowns, and that the clamp of its exponent never
    shows: fifteen minutes doubling per failure, six hours at most. *)
Lemma auth_dead_ladder k : 1 ≤ k ≤ u32_max → auth_dead_backoff k = minutes (Z.min (15 * 2 ^ (k - 1)) 360).
Proof.
  intros Hk. unfold auth_dead_backoff, u32_saturating_sub. rewrite Z.max_r by lia.
  destruct (Z.le_gt_cases (k - 1) 16) as [Hle|Hgt].
  - rewrite (Z.min_l (k - 1) 16) by done. assert (∃ n : nat, (n ≤ 16)%nat ∧ k - 1 = Z.of_nat n) as (n & Hn & ->)
      by (exists (Z.to_nat (k - 1)); lia).
    do 17 (destruct n as [|n]; [by vm_compute|]). lia.
  - rewrite (Z.min_r (k - 1) 16) by lia. rewrite (Z.min_r (15 * 2 ^ (k - 1))); [by vm_compute|].
    pose proof (Z.pow_le_mono_r 2 16 (k - 1) ltac:(lia) ltac:(lia)) as Hp. change (2 ^ 16) with 65536 in Hp. lia.
Qed.

(** Accounts come back: whatever happens to the rotator up to a time, once
    the longest cooldown has passed an account is available again exactly when
    its credential is usable, not expired and within its budget; no history of
    failures leaves it out for good. *)
Theorem accounts_come_back R l R' a t now :
  Forall heals (accounts R) → Forall (cools_by (t + longest R)) (accounts R) →
  Forall (λ p : Z * op, p.1 ≤ t) l → run_ops l R = Some R' → a ∈ accounts R' → t + longest R ≤ now →
  is_available now a
  = negb (is_blocking (credential_state a)) && negb (over_budget a) && negb (expired now a) && has_credential a.
Proof.
  intros Hh Hc Hl Hr Ha Hn.
  assert (Forall (λ a, heals a ∧ cools_by (t + longest R) a) (accounts R')) as Hi.
  { eapply run_ops_heal; [|exact Hr|].
    - eapply Forall_impl; [|exact Hl]. cbn. intros; lia.
    - by apply Forall_and. }
  rewrite List.Forall_forall in Hi. destruct (Hi a (proj1 (list_elem_of_In _ _) Ha)) as [Hheal Hcool]. clear -Hheal Hcool Hn.
  unfold is_available, heals, cools_by, cooled_down, cooling in *.
  destruct (credential_state a) eqn:Es; cbn; [| |done|];
    (destruct (cooldown_until a) as [cd|];
     [specialize (Hcool cd eq_refl); rewrite (proj2 (Z.leb_le cd now)), (proj2 (Z.ltb_ge now cd)) by lia|];
     [|assert (is_healthy a = true) as -> by (destruct Hheal as [|[[? ?]|?]]; congruence)]);
    cbn; rewrite ?andb_false_r; cbn; by destruct (over_budget a), (expired now a), (has_credential a).
Qed.

(** ** Refusals are waited out *)

Definition rests (X : ustr) (until : Z) R : Prop :=
  ∀ a, a ∈ accounts R → id a = X → is_healthy a = true ∧ ∃ cd, cooldown_until a = Some cd ∧ until ≤ cd.

(** What is not a failure booked on the account, nor the answer to a question
    asked before the refusal. *)
Definition spares (X : ustr) (o : op) : Prop :=
  match o with
  | OpAuthFailed i _ | OpError i | OpBilling i => i ≠ X
  | OpProbeOne _ c => p_id c ≠ X
  | _ => True
  end.

Lemma update_elem R i f b :
  b ∈ accounts (update R i f) → b ∈ accounts R ∨ ∃ a, a ∈ accounts R ∧ id a = i ∧ b = f a.
Proof.
  cbn. induction (accounts R) as [|a l IH]; cbn; [by left|]. destruct (has_id i a) eqn:E.
  - intros [->|Hb]%elem_of_cons; [|by left; right]. right. exists a. unfold has_id in E. reflect_bools.
    split_and!; [by left|done|done].
  - intros [->|Hb]%elem_of_cons; [by left; left|]. destruct (IH Hb) as [Hl|(c & Hc & Hp & ->)]; [by left; right|].
    right. exists c. split_and!; [by right|done|done].
Qed.

Lemma update_rests X until R i (f : Account → Account) :
  (∀ a, identity (f a) = identity a) →
  (∀ a, id a = X → i = X → is_healthy a = true → ∀ cd, cooldown_until a = Some cd → until ≤ cd →
    is_healthy (f a) = true ∧ ∃ cd', cooldown_until (f a) = Some cd' ∧ cd ≤ cd') →
  rests X until R → rests X until (update R i f).
Proof.
  intros Hid Hf Hr b Hb Hx. apply update_elem in Hb as [Hb|(a & Ha & Hi & ->)]; [by apply Hr|].
  pose proof (Hid a) as Hia. unfold identity in Hia. injection Hia as Hia _. rewrite Hia in Hx. destruct (Hr a Ha Hx) as (Hh & cd & Hc & Hu).
  destruct (Hf a Hx ltac:(congruence) Hh cd Hc Hu) as (Hh' & cd' & Hc' & Hle). split; [done|]. exists cd'. split; [done|lia].
Qed.

Lemma update_other_rests X until R i (f : Account → Account) :
  (∀ a, identity (f a) = identity a) → i ≠ X → rests X until R → rests X until (update R i f).
Proof. intros Hid Hne. apply update_rests; [done|]. intros. congruence. Qed.

Lemma probe_one_rests X until W now c R : p_id c ≠ X → rests X until R → rests X until (probe_one W now c R).
Proof. intros Hne Hr. unfold probe_one. repeat case_match; try done; by apply update_other_rests. Qed.

Lemma resting_not_probed X until now R c : now < until → rests X until R → c ∈ probe_candidates now R → p_id c ≠ X.
Proof.
  intros Hn Hr (a & -> & [Ha Hw]%elem_of_retain)%list_elem_of_fmap. cbn. intros Hx.
  destruct (Hr a Ha Hx) as (Hh & cd & Hc & Hu). unfold wants_probe, cooled_down in Hw.
  rewrite Hh, Hc in Hw. rewrite (proj2 (Z.leb_gt cd now)) in Hw by lia. done.
Qed.

Lemma probe_rests X until W now R : now < until → rests X until R → rests X until (probe_and_restore W now R).
Proof.
  intros Hn Hr. unfold probe_and_restore.
  assert (Forall (λ c, p_id c ≠ X) (probe_candidates now R)) as Hcs
    by (apply List.Forall_forall; intros c Hc%list_elem_of_In; by eapply resting_not_probed).
  clear Hn. revert R Hr Hcs. intros R Hr. generalize (probe_candidates now R). intros cs.
  revert R Hr. induction cs as [|c cs IH]; intros R Hr Hcs; [done|]. inversion Hcs; subst. cbn.
  apply IH; [by apply probe_one_rests|done].
Qed.

Lemma extend_cooldown_rests until a cd :
  cooldown_until a = Some cd → ∃ cd', cooldown_until (extend_cooldown until a) = Some cd' ∧ cd ≤ cd'.
Proof. intros Hc. unfold extend_cooldown. cbn. rewrite Hc. eexists. split; [done|lia]. Qed.

Lemma run_op_rests X until now o R R' :
  now < until → spares X o → run_op now o R = Some R' → rests X until R → rests X until R'.
Proof.
  intros Hn Hsp Ho Hr. destruct o; cbn in Ho, Hsp; simplify_eq.
  - unfold select_excluding, choose. repeat case_match; simplify_eq/=; done.
  - apply update_rests; [done| |done]. intros a _ _ Hh cd Hc Hu. cbn. rewrite Hh, Hc.
    split; [by destruct (cooling _ _)|by exists cd].
  - by apply update_other_rests.
  - unfold on_error in Ho. destruct (List.find _ _) as [a|]; [|by simplify_eq].
    destruct (3 <=? _); [apply bind_Some in Ho as (? & _ & Ho)|]; simplify_eq;
      apply update_other_rests; auto using booked_error_identity.
  - unfold on_rate_limited in Ho. destruct (List.find _ _) as [a|]; [|by simplify_eq].
    apply bind_Some in Ho as (un & _ & Ho). simplify_eq. apply update_rests; [done| |done].
    intros b _ _ Hh cd Hc Hu. split; [cbn; by destruct (is_blocking _)|by apply extend_cooldown_rests].
  - by apply update_other_rests.
  - intros b (a & -> & Ha)%list_elem_of_fmap Hx. cbn in *. by apply (Hr a).
  - intros b Hb Hx. cbn in Hb. revert Hb Hr Hx. unfold rests. induction (accounts R) as [|a l IH]; cbn; [by intros ?%elem_of_nil|].
    destruct (has_id account_id a && _).
    + intros [->|Hb]%elem_of_cons Hr Hx; [apply (Hr a); [by left|done]|apply (Hr b); [by right|done]].
    + intros [->|Hb]%elem_of_cons Hr Hx; [apply (Hr a); [by left|done]|].
      apply IH; [done| |done]. intros c Hc. apply Hr. by right.
  - by apply probe_rests.
  - by apply probe_one_rests.
Qed.

Lemma limited_rests R R1 t X :
  NoDup (map (λ a, id a) (accounts R)) →
  (∀ a, a ∈ accounts R → id a = X → credential_state a ≠ Broken) →
  on_rate_limited t R X = Some R1 → rests X (t + cooldown_of R) R1 ∧ cooldown_of R1 = cooldown_of R.
Proof.
  intros Hnd Hb Hl. unfold on_rate_limited in Hl. destruct (List.find (has_id X) (accounts R)) as [a0|] eqn:Ef.
  - apply bind_Some in Hl as (un & Ha%add_seconds_sum & Hl). simplify_eq. split; [|done].
    change (t + secs (as_i64 (cooldown_seconds R))) with (t + cooldown_of R).
    generalize (t + cooldown_of R). intros un b Hin Hx. cbn in Hin. clear Ef.
    induction (accounts R) as [|a l IH]; cbn in *; [by apply elem_of_nil in Hin|].
    apply list.NoDup_cons in Hnd as [Hni Hnd]. destruct (has_id X a) eqn:E; unfold has_id in E; reflect_bools.
    + apply elem_of_cons in Hin as [->|Hin].
      * cbn. assert (is_blocking (credential_state a) = false) as ->.
        { pose proof (Hb a ltac:(by left) E). by destruct (credential_state a). }
        split; [done|]. destruct (cooldown_until a); eexists; (split; [done|lia]).
      * exfalso. apply Hni. rewrite E, <- Hx. apply list_elem_of_fmap. by exists b.
    + apply elem_of_cons in Hin as [->|Hin]; [done|]. apply IH; [done| |done]. intros c Hc. apply Hb. by right.
  - simplify_eq. split; [|done]. intros a Ha Hx. exfalso.
    pose proof (List.find_none _ _ Ef a (proj1 (list_elem_of_In _ _) Ha)) as Hn. unfold has_id in Hn. by reflect_bools.
Qed.

Lemma run_ops_rests X until l R R' :
  Forall (λ p : Z * op, spares X p.2 ∧ p.1 < until) l → run_ops l R = Some R' → rests X until R → rests X until R'.
Proof.
  revert R. induction l as [|[now o] l IH]; intros R Hl Hr Hx; cbn in Hr; [by simplify_eq|].
  apply bind_Some in Hr as (R1 & Ho & Hr). inversion Hl as [|? ? [K1 K2] Hl']; subst. eapply IH; [done..|].
  by eapply run_op_rests.
Qed.

Lemma candidates_available now R prov pool exclude a :
  a ∈ candidates now R prov pool exclude → a ∈ accounts R ∧ is_available now a = true.
Proof.
  unfold candidates. intros [Ha _]%elem_of_retain.
  assert (a ∈ retain (λ a, ustr_eqb (provider a) prov && is_available now a) (accounts R)) as Hin.
  { unfold narrow_by_pool in Ha. repeat case_match; simplify_eq; try done. by apply elem_of_retain in Ha as [? _]. }
  apply elem_of_retain in Hin as [? Hin]. by reflect_bools.
Qed.

(** C22 A refused account rests: after a quota refusal the account is not
    handed out until the configured cooldown has passed, whatever selections,
    successes, further refusals, seat tokens, whole probe passes, and failures
    and probes of other accounts come in between: a probe pass started after the
    refusal does not ask about the account, so no 200 of it brings the account
    back.  Left out are further failures booked on the account itself and the
    answer to a probe of it that was on its way when it was refused. *)
Theorem refused_account_rests R R1 l R' X t now prov pool exclude a :
  NoDup (map (λ a, id a) (accounts R)) →
  (∀ a, a ∈ accounts R → id a = X → credential_state a ≠ Broken) →
  on_rate_limited t R X = Some R1 →
  Forall (λ p : Z * op, spares X p.2 ∧ p.1 < t + cooldown_of R) l → run_ops l R1 = Some R' →
  now < t + cooldown_of R → a ∈ candidates now R' prov pool exclude → id a ≠ X.
Proof.
  intros Hnd Hb Hl Hops Hr Hn [Ha Hav]%candidates_available Hx.
  destruct (limited_rests _ _ _ _ Hnd Hb Hl) as [Hrest _].
  destruct (run_ops_rests _ _ _ _ _ Hops Hr Hrest a Ha Hx) as (Hh & cd & Hc & Hu).
  unfold is_available, cooling in Hav. rewrite Hc in Hav. rewrite (proj2 (Z.ltb_lt now cd)) in Hav by lia.
  repeat case_match; done.
Qed.

(** ** What is selected *)

Definition named now R (prov : ustr) (pool : list ustr) : Prop :=
  ∃ b : Account, b ∈ accounts R ∧ provider b = prov ∧ is_available now b = true ∧ account_in_pool b pool = true.

Definition eligible now R (prov : ustr) (pool exclude : list ustr) a : Prop :=
  a ∈ accounts R ∧ provider a = prov ∧ is_available now a = true ∧ id a ∉ exclude
  ∧ (named now R prov pool → account_in_pool a pool = true).

Lemma blank_pool a pool : has_pool_entries pool = false → account_in_pool a pool = false.
Proof.
  unfold has_pool_entries, account_in_pool. induction pool as [|p pool IH]; cbn; [done|].
  intros [Hp Hr]%orb_false_iff. apply negb_false_iff in Hp. rewrite Hp. by apply IH.
Qed.

Lemma not_excluded exclude a : existsb (λ i, ustr_eqb i (id a)) exclude = false ↔ id a ∉ exclude.
Proof.
  rewrite <- not_true_iff_false, existsb_exists. split.
  - intros Hn Hin. apply Hn. exists (id a). rewrite ustr_eqb_refl. by rewrite <- list_elem_of_In.
  - intros Hn (x & Hx & He). reflect_bools. subst. by rewrite <- list_elem_of_In in Hx.
Qed.

Lemma candidates_eligible now R prov pool exclude a :
  a ∈ candidates now R prov pool exclude ↔ eligible now R prov pool exclude a.
Proof.
  unfold candidates, eligible. rewrite elem_of_retain, negb_true_iff, not_excluded.
  set (avail := retain _ (accounts R)).
  assert (∀ b : Account, b ∈ avail ↔ b ∈ accounts R ∧ provider b = prov ∧ is_available now b = true) as Hav.
  { intros b. unfold avail. rewrite elem_of_retain, andb_true_iff. unfold ustr_eqb. by rewrite bool_decide_eq_true. }
  assert (named now R prov pool ↔ ∃ b : Account, b ∈ avail ∧ account_in_pool b pool = true) as Hnm.
  { unfold named. split; intros (b & Hb); exists b; [|rewrite Hav in Hb]; rewrite ?Hav; tauto. }
  assert (a ∈ match narrow_by_pool avail pool with Applied filtered => filtered | _ => avail end
    ↔ a ∈ avail ∧ (named now R prov pool → account_in_pool a pool = true)) as ->; [|rewrite Hav; tauto].
  rewrite Hnm. clear Hnm Hav. unfold narrow_by_pool.
  destruct (is_empty avail) eqn:Ee; cbn.
  { destruct avail; [|done]. split; [by intros ?%elem_of_nil|by intros [? _]]. }
  destruct (has_pool_entries pool) eqn:Ep; cbn.
  - destruct (is_empty (retain _ _)) eqn:Er.
    + split; [|by intros [? _]]. intros Ha. split; [done|]. intros (b & Hb & Hp). exfalso.
      assert (b ∈ retain (λ a, account_in_pool a pool) avail) as Hin by (by apply elem_of_retain).
      destruct (retain _ avail); [by apply elem_of_nil in Hin|done].
    + rewrite elem_of_retain. split; [tauto|]. intros [Ha Himp]. split; [done|]. apply Himp.
      destruct (retain _ avail) as [|b l] eqn:El; [done|]. exists b. apply (elem_of_retain (λ a, account_in_pool a pool)).
      rewrite El. by left.
  - split; [|by intros [? _]]. intros Ha. split; [done|]. intros (b & _ & Hp). by rewrite blank_pool in Hp.
Qed.

(** A test [lt] whose negation is a total preorder. *)
Record strict_test {A} (lt : A → A → bool) : Prop := {
  st_irrefl x : lt x x = false;
  st_asym x y : lt x y = true → lt y x = false;
  st_trans x y z : lt x y = false → lt y z = false → lt x z = false;
}.

Lemma first_min_spec {A} (lt : A → A → bool) (l : list A) m :
  strict_test lt → first_min lt l = Some m → m ∈ l ∧ ∀ y, y ∈ l → lt y m = false.
Proof.
  intros Hlt. destruct l as [|x l]; [done|]. cbn. intros [= <-]. revert x. induction l as [|y l IH]; intros x; cbn.
  - split; [by left|]. intros z ->%list_elem_of_singleton. by apply st_irrefl.
  - destruct (IH (if lt y x then y else x)) as [Hin Hmin]. split.
    + apply elem_of_cons in Hin as [->|Hin]; [|by right; right]. destruct (lt y x); [by right; left|by left].
    + pose proof (Hmin _ ltac:(by left)) as Hm. intros z [->|[->|Hz]%elem_of_cons]%elem_of_cons.
      * destruct (lt y x) eqn:E; [|done]. eapply st_trans; [done|by apply st_asym|done].
      * destruct (lt y x) eqn:E; [done|]. by eapply st_trans.
      * apply Hmin. by right.
Qed.

Lemma first_min_none {A} (lt : A → A → bool) (l : list A) : first_min lt l = None → l = [].
Proof. by destruct l. Qed.

Lemma by_priority_strict : strict_test by_priority.
Proof. unfold by_priority. split; intros; reflect_bools; lia. Qed.
Lemma by_spent_strict : strict_test by_spent.
Proof. unfold by_spent. split; intros; reflect_bools; lia. Qed.
Lemma by_last_used_strict : strict_test by_last_used.
Proof.
  unfold by_last_used, option_ltb.
  split; intros; repeat case_match; simplify_eq; try done; reflect_bools; lia.
Qed.

Lemma foldl_min_spec (l : list Z) x : (∀ y, y ∈ x :: l → foldl Z.min x l ≤ y).
Proof.
  revert x. induction l as [|y l IH]; intros x z Hz; cbn.
  - apply list_elem_of_singleton in Hz. lia.
  - pose proof (IH (Z.min x y)) as K. apply elem_of_cons in Hz as [->|[->|Hz]%elem_of_cons].
    + specialize (K (Z.min x y) ltac:(by left)). lia.
    + specialize (K (Z.min x y) ltac:(by left)). lia.
    + apply K. by right.
Qed.

(** Which of two candidates a strategy may pick in the presence of the other. *)
Definition preferred (s : RotationStrategy) (a b : Account) : Prop :=
  match s with
  | Priority | Failover => priority a ≤ priority b
  | RoundRobin => True
  | LeastCost =>
      match auth_method a, auth_method b with
      | OAuth, ApiKey => True
      | ApiKey, OAuth => False
      | OAuth, OAuth =>
          spent_this_month a < spent_this_month b
          ∨ spent_this_month a = spent_this_month b ∧ option_ltb (last_used b) (last_used a) = false
      | ApiKey, ApiKey => spent_this_month a ≤ spent_this_month b
      end
  end.

Lemma least_cost_spec l a : least_cost l = Some a → a ∈ l ∧ ∀ b, b ∈ l → preferred LeastCost a b.
Proof.
  unfold least_cost. destruct (retain _ l) as [|x r] eqn:Eo.
  - intros [Ha Hm]%first_min_spec; [|apply by_spent_strict]. split; [done|]. intros b Hb.
    assert (∀ c : Account, c ∈ l → auth_method c = ApiKey) as Hk.
    { intros c Hc. destruct (auth_method c) eqn:Em; [done|]. exfalso.
      assert (c ∈ retain (λ a, bool_decide (auth_method a = OAuth)) l) as Hin
        by (apply elem_of_retain; by rewrite bool_decide_eq_true).
      rewrite Eo in Hin. by apply elem_of_nil in Hin. }
    cbn. rewrite (Hk a Ha), (Hk b Hb). specialize (Hm b Hb). unfold by_spent in Hm. reflect_bools. lia.
  - assert (∀ c : Account, c ∈ x :: r ↔ c ∈ l ∧ auth_method c = OAuth) as Ho.
    { intros c. rewrite <- Eo, elem_of_retain. by rewrite bool_decide_eq_true. }
    set (ms := foldl Z.min _ _).
    intros [[Ha Hs]%elem_of_retain Hm]%first_min_spec; [|apply by_last_used_strict]. apply Ho in Ha as [Ha Hao].
    reflect_bools. split; [done|]. intros b Hb. cbn. rewrite Hao. destruct (auth_method b) eqn:Eb; [done|].
    assert (b ∈ x :: r) as Hbo by (by apply Ho).
    assert (ms ≤ spent_this_month b) as Hle.
    { apply foldl_min_spec. rewrite <- map_cons. by apply (list_elem_of_fmap_2 spent_this_month). }
    destruct (Z.eq_dec (spent_this_month b) ms) as [He|Hne]; [|left; lia]. right. split; [lia|].
    apply Hm. apply elem_of_retain. split; [done|]. by apply Z.eqb_eq.
Qed.

Lemma choose_spec R (l : list Account) a :
  (choose R l).1 = Some a → a ∈ l ∧ ∀ b, b ∈ l → preferred (strategy R) a b.
Proof.
  unfold choose. destruct (strategy R) eqn:Es; cbn.
  - intros Hl. split; [by eapply list_elem_of_lookup_2|done].
  - apply least_cost_spec.
  - intros [Ha Hm]%first_min_spec; [|apply by_priority_strict]. split; [done|]. intros b Hb.
    specialize (Hm b Hb). unfold by_priority in Hm. reflect_bools. lia.
  - intros [Ha Hm]%first_min_spec; [|apply by_priority_strict]. split; [done|]. intros b Hb.
    specialize (Hm b Hb). unfold by_priority in Hm. reflect_bools. lia.
Qed.

Lemma choose_some R (l : list Account) : l ≠ [] → is_Some (choose R l).1.
Proof.
  intros Hl. unfold choose, least_cost. destruct (strategy R); cbn [fst].
  - apply lookup_lt_is_Some_2, Nat.mod_upper_bound. by destruct l.
  - destruct (retain _ l) as [|x r] eqn:Eo; [by destruct l|].
    set (ms := foldl Z.min _ _). destruct (first_min _ _) eqn:Ef; [done|]. apply first_min_none in Ef.
    exfalso. assert (∃ a, a ∈ x :: r ∧ spent_this_month a = ms) as (a & Ha & Hs).
    { subst ms. clear. revert x. induction r as [|y r IH]; intros x; [exists x; split; [by left|done]|]. cbn.
      destruct (Z.min_spec (spent_this_month x) (spent_this_month y)) as [[_ ->]|[_ ->]].
      - destruct (IH x) as (a & Ha & Hs). exists a. split; [|done].
        apply elem_of_cons in Ha as [->|Ha]; [by left|by right; right].
      - destruct (IH y) as (a & Ha & Hs). exists a. split; [by right|done]. }
    assert (a ∈ retain (λ a, spent_this_month a =? ms) (x :: r)) as Hin by (apply elem_of_retain; by rewrite Z.eqb_eq).
    rewrite Ef in Hin. by apply elem_of_nil in Hin.
  - by destruct l.
  - by destruct l.
Qed.

Lemma candidates_index now R i prov pool exclude :
  candidates now (with_index R i) prov pool exclude = candidates now R prov pool exclude.
Proof. done. Qed.

(** What a selection gives. *)
Lemma selected_account now R prov pool exclude :
  match (select_excluding now R prov pool exclude).1 with
  | Some e =>
      (∃ a, eligible now R prov pool exclude a ∧ e = build_account_env a
            ∧ ∀ b, eligible now R prov pool exclude b → preferred (strategy R) a b)
      ∨ ((∀ a, a ∈ accounts R → provider a ≠ prov) ∧ inherit_host_credentials R = true
         ∧ env_fallback_account_env prov = Some e)
  | None => ∀ a, ¬ eligible now R prov pool exclude a
  end.
Proof.
  unfold select_excluding. pose proof (candidates_eligible now R prov pool exclude) as Hc.
  destruct (candidates now R prov pool exclude) as [|x l] eqn:El; cbn [is_empty fst].
  - assert (∀ a, ¬ eligible now R prov pool exclude a) as Hno by (intros a Ha; apply Hc, elem_of_nil in Ha; done).
    destruct (existsb _ (accounts R)) eqn:Ex; cbn; [exact Hno|].
    destruct (inherit_host_credentials R) eqn:Ei; cbn; [|exact Hno].
    destruct (env_fallback_account_env prov) eqn:Ee; [|exact Hno]. right. split_and!; [|done|done].
    intros a0 Ha <-. rewrite <- not_true_iff_false, existsb_exists in Ex. apply Ex. exists a0.
    rewrite ustr_eqb_refl. by rewrite <- list_elem_of_In.
  - destruct (choose R (x :: l)) as [selected R'] eqn:Eh. cbn.
    destruct (choose_some R (x :: l)) as [a Ha]; [done|]. rewrite Eh in Ha. cbn in Ha. subst selected. cbn.
    destruct (choose_spec R (x :: l) a) as [Hin Hp]; [by rewrite Eh|]. left. exists a.
    split_and!; [by apply Hc|done|]. intros b Hb. by apply Hp, Hc.
Qed.

(** What is selected: an account of the provider that is available, not
    excluded, and in the agent's pool if the pool names any available account;
    the one the strategy prefers among all such; and nothing only if there is
    none.  The environment's key serves a provider without any account. *)
Theorem select_exact now R prov pool exclude :
  match (select_excluding now R prov pool exclude).1 with
  | Some e =>
      (∃ a, eligible now R prov pool exclude a ∧ e = build_account_env a
            ∧ ∀ b, eligible now R prov pool exclude b → preferred (strategy R) a b)
      ∨ ((∀ a, a ∈ accounts R → provider a ≠ prov) ∧ inherit_host_credentials R = true
         ∧ env_fallback_account_env prov = Some e)
  | None => ∀ a, ¬ eligible now R prov pool exclude a
  end.
Proof. apply selected_account. Qed.

(** Selections one after the other at one time. *)
Fixpoint select_times (k : nat) now R (prov : ustr) (pool exclude : list ustr) : list (option AccountEnv) :=
  match k with
  | O => []
  | S k' =>
      let '(e, R') := select_excluding now R prov pool exclude in e :: select_times k' now R' prov pool exclude
  end.

Lemma select_times_lookup k j now R prov pool exclude :
  strategy R = RoundRobin → candidates now R prov pool exclude ≠ [] → (j < k)%nat →
  select_times k now R prov pool exclude !! j
  = Some (build_account_env <$>
      candidates now R prov pool exclude !! ((round_robin_index R + j) mod length (candidates now R prov pool exclude))%nat).
Proof.
  revert j R. induction k as [|k IH]; intros j R Hs Hne Hj; [lia|]. cbn [select_times].
  unfold select_excluding, choose at 1. rewrite Hs.
  destruct (candidates now R prov pool exclude) as [|x l] eqn:El; [done|]. cbn [is_empty].
  rewrite <- El in *. set (c := candidates now R prov pool exclude) in *.
  assert (length c ≠ 0%nat) as Hlen by (by rewrite El).
  destruct j as [|j]; cbn [lookup list_lookup].
  - by rewrite Nat.add_0_r.
  - rewrite IH; [|done|by rewrite candidates_index|lia]. rewrite candidates_index. cbn [round_robin_index with_index].
    fold c. do 3 f_equal. rewrite Nat.Div0.add_mod_idemp_l. f_equal. lia.
Qed.

(** Round robin is fair: as many selections in a row as there are
    candidates hand out each of them exactly once, in their order, starting
    where the last selection left off. *)
Theorem round_robin_fair now R prov pool exclude :
  let c := candidates now R prov pool exclude in
  strategy R = RoundRobin → c ≠ [] →
  select_times (length c) now R prov pool exclude
  = map (λ a, Some (build_account_env a)) (rotate (round_robin_index R) c).
Proof.
  intros c Hs Hne. apply list_eq. intros j.
  assert (∀ k R, length (select_times k now R prov pool exclude) = k) as Hlen.
  { induction k as [|k IH]; intros R0; cbn; [done|]. destruct (select_excluding _ _ _ _ _). cbn. by rewrite IH. }
  destruct (decide (j < length c)%nat) as [Hj|Hj].
  - rewrite select_times_lookup by done. fold c. rewrite list_lookup_fmap, lookup_rotate_r by done.
    unfold rotate_nat_add. rewrite <- Nat2Z.inj_add, <- Nat2Z.inj_mod, Nat2Z.id.
    destruct (c !! _) as [a|] eqn:E; [done|]. exfalso. apply lookup_ge_None in E.
    pose proof (Nat.mod_upper_bound (round_robin_index R + j) (length c)). lia.
  - rewrite !lookup_ge_None_2; [done| |by rewrite Hlen; lia].
    rewrite length_map, length_rotate. lia.
Qed.
End accounts.

(** ** Concrete runs *)

(** A [Duration] holds [i64::MAX] milliseconds, and the last date is the end of
    the year 262142, as chrono 0.4 documents. *)
Definition bounded_add (now s : Z) : option Z :=
  if (Z.abs s <=? (2 ^ 63 - 1) / 1000) && (now + secs s <? secs 8210266876800) then Some (now + secs s) else None.

Lemma bounded_add_sum now s t : bounded_add now s = Some t → t = now + secs s.
Proof. unfold bounded_add. destruct (_ && _); congruence. Qed.

Definition demo_chrono : Chrono :=
  {| parse_utc _ := None; add_seconds := bounded_add; add_seconds_sum := bounded_add_sum |}.
Definition demo_host : Host := {| env_var _ := None; is_default_home _ := false |}.

Definition demo_config (i key : ustr) : AccountConfig := {|
  id := i; auth_method := ApiKey; provider := u "anthropic"; priority := 1; monthly_budget_cents := 5000;
  tags := []; label := []; expires_at := None; api_key := key; oauth_token := None; credentials_dir := None
|}.
Definition demo_account (i : ustr) : Account := {|
  conf := demo_config i (u "sk-1"); is_healthy := true; consecutive_errors := 0; spent_this_month := 0;
  cooldown_until := None; last_used := None; total_requests := 0; credential_state := Unverified;
  auth_dead_strikes := 0; next_probe_at := None; probe_failures := 0
|}.
Definition demo_rotator (s : RotationStrategy) (ids : list ustr) : AccountRotator := {|
  accounts := map demo_account ids; inherit_host_credentials := true; strategy := s;
  round_robin_index := 0; cooldown_seconds := 120
|}.
(** An API that answers 200 to every key. *)
Definition all_valid : Answers := {| ask_api _ _ := Valid; logged_in _ := true |}.

Definition available_ids (now : Z) (R : AccountRotator) : list ustr :=
  map (λ a : Account, id a) (candidates (H := demo_chrono) now R (u "anthropic") [] []).

Definition failing_history : list (Z * op) :=
  [(0, OpBilling (u "a")); (1, OpAuthFailed (u "a") InvalidToken); (2, OpError (u "a"))].

Lemma accounts_come_back_witness :
  match run_ops (H := demo_chrono) (H0 := demo_host) failing_history (demo_rotator Priority [u "a"]) with
  | Some R' =>
      map (λ a, is_available (H := demo_chrono) (2 + hours 24) a) (accounts R') = [true]
      ∧ available_ids (hours 23) R' = []
  | None => False
  end.
Proof.
  destruct (run_ops (H := demo_chrono) (H0 := demo_host) failing_history (demo_rotator Priority [u "a"])) as [R'|] eqn:E;
    [|vm_compute in E; discriminate E].
  assert (∃ a, accounts R' = [a] ∧ is_blocking (credential_state a) = false
    ∧ over_budget a = false ∧ has_credential a = true ∧ expires_at a = None ∧ available_ids (hours 23) R' = [])
    as (a & Ha & K1 & K2 & K3 & K4 & K5).
  { vm_compute in E. injection E as <-. eexists. split; [reflexivity|]. split_and!; vm_compute; reflexivity. }
  split; [|done]. rewrite Ha. cbn [map]. f_equal.
  rewrite (accounts_come_back (H := demo_chrono) (H0 := demo_host) (demo_rotator Priority [u "a"]) failing_history R' a 2).
  - unfold expired. by rewrite K1, K2, K3, K4.
  - repeat constructor.
  - repeat constructor. intros cd Hcd. vm_compute in Hcd. discriminate Hcd.
  - repeat constructor; cbn; lia.
  - exact E.
  - rewrite Ha. by left.
  - vm_compute. intros Hx. discriminate Hx.
Defined.

(** Probes that answer 200, successes and an error of another account during
    the two minutes. *)
Definition resting_history : list (Z * op) :=
  [(secs 1, OpProbe all_valid); (secs 60, OpSuccess (u "a") 3); (secs 61, OpError (u "b")); (secs 90, OpProbe all_valid)].

Lemma refused_account_rests_witness :
  match on_rate_limited (H := demo_chrono) 0 (demo_rotator Priority [u "a"; u "b"]) (u "a") with
  | Some R1 =>
      match run_ops (H := demo_chrono) (H0 := demo_host) resting_history R1 with
      | Some R' =>
          (∀ a : Account, a ∈ candidates (H := demo_chrono) (secs 119) R' (u "anthropic") [] [] → id a ≠ u "a")
          ∧ available_ids (secs 119) R' = [u "b"] ∧ available_ids (secs 120) R' = [u "a"; u "b"]
      | None => False
      end
  | None => False
  end.
Proof.
  destruct (on_rate_limited (H := demo_chrono) 0 (demo_rotator Priority [u "a"; u "b"]) (u "a")) as [R1|] eqn:E1;
    [|vm_compute in E1; discriminate E1].
  destruct (run_ops (H := demo_chrono) (H0 := demo_host) resting_history R1) as [R'|] eqn:E2;
    [|vm_compute in E1; injection E1 as <-; vm_compute in E2; discriminate E2].
  split.
  - intros a Ha.
    refine (refused_account_rests (H := demo_chrono) (H0 := demo_host) (demo_rotator Priority [u "a"; u "b"])
      R1 resting_history R' (u "a") 0 (secs 119) _ _ _ a _ _ E1 _ E2 _ Ha).
    + apply (bool_decide_unpack _). vm_compute. reflexivity.
    + intros c Hc _. cbn in Hc. apply elem_of_cons in Hc as [->|[->|Hc]%elem_of_cons];
        [discriminate|discriminate|by apply elem_of_nil in Hc].
    + repeat constructor; try (vm_compute; reflexivity). cbn. discriminate.
    + vm_compute. reflexivity.
  - vm_compute in E1. injection E1 as <-. vm_compute in E2. injection E2 as <-. split; vm_compute; reflexivity.
Defined.

Lemma round_robin_fair_witness :
  let R := demo_rotator RoundRobin [u "a"; u "b"; u "c"] in
  map (option_map env_id)
    (select_times (H := demo_chrono) (H0 := demo_host) 3 0 (with_index R 1) (u "anthropic") [] [u "x"])
  = [Some (u "b"); Some (u "c"); Some (u "a")].
Proof.
  cbv zeta. set (R := demo_rotator RoundRobin [u "a"; u "b"; u "c"]).
  pose proof (round_robin_fair (H := demo_chrono) (H0 := demo_host) 0 (with_index R 1) (u "anthropic") [] [u "x"]) as Hf.
  cbv zeta in Hf. change (length _) with 3%nat in Hf. rewrite Hf; [vm_compute; reflexivity|reflexivity|vm_compute; discriminate].
Defined.

(** A billing refusal does not last a day: the probe asks a model list that
    an account without credit can read, and its answer 200 clears the 24-hour
    cooldown a minute later. *)
Lemma billing_cooldown_probed_away :
  let R := on_billing_exhausted 0 (demo_rotator Priority [u "a"]) (u "a") in
  available_ids (secs 60) R = []
  ∧ available_ids (secs 60) (probe_and_restore (H := demo_chrono) (H0 := demo_host) all_valid (secs 60) R) = [u "a"].
Proof. split; vm_compute; reflexivity. Qed.

(** An answer clears what came after its question: an account refused for
    quota while its probe is on the way is available as soon as the probe
    answers. *)
Lemma probe_clears_fresh_cooldown :
  let R0 := on_auth_failed 0 (demo_rotator Priority [u "a"]) (u "a") InvalidToken in
  match probe_candidates (H := demo_chrono) (H0 := demo_host) (secs 60) R0, on_rate_limited (H := demo_chrono) (secs 61) R0 (u "a") with
  | [c], Some R1 =>
      available_ids (secs 62) R1 = []
      ∧ available_ids (secs 62) (probe_one all_valid (secs 62) c R1) = [u "a"]
  | _, _ => False
  end.
Proof. vm_compute. by split. Qed.
