(* ===== verification/AccountLoad.v ===== *)
(** * Loading the accounts (account_rotator/rotator.rs and load.rs)

    [load_from_config]: the entries of config.toml, the host's own login, and
    the fallbacks.  Reading files, resolving a secret reference and asking the
    host for its login are interfaces or arguments. *)

From S2P Require Import Prelude Toml Accounts.

(** [SecretRef::classify(enc, plain).resolve(..)], and the directory of a
    profile when it exists. *)
Class Secrets := {
  resolve_secret : option ustr → option ustr → option ustr;
  profile_dir : ustr → option ustr;
}.

Inductive ReadError := NotFound | OtherReadError.

Section load.
Context `{Chrono} `{Host} `{Toml} `{Secrets}.

Definition API_KEY_ENC_FIELDS : list ustr := [u "anthropic_api_key_enc"; u "api_key_enc"].
Definition OAUTH_TOKEN_ENC_FIELDS : list ustr := [u "oauth_token_enc"].

Definition str_at (t : toml_table) (k : ustr) : option ustr := toml_get t k ≫= as_str.

Definition has_nonempty_field (t : toml_table) (fields : list ustr) : bool :=
  existsb (λ name, match str_at t name with Some s => negb (is_empty (trim s)) | None => false end) fields.

Definition resolve_oauth_token (t : toml_table) : option ustr :=
  let enc := str_at t (u "oauth_token_enc") in
  let plain := str_at t (u "oauth_token") ≫= λ s, if starts_with s (u "secret://") then Some s else None in
  match enc, plain with None, None => None | _, _ => resolve_secret enc plain end.

(** The first field that resolves; the empty string if none does. *)
Definition resolve_api_key (t : toml_table) : ustr :=
  default []
    (head (omap (λ k, resolve_secret (str_at t k) None) [u "anthropic_api_key_enc"; u "api_key_enc"]
           ++ omap (λ k, resolve_secret None (str_at t k)) [u "anthropic_api_key"; u "api_key"])).

Definition parse_account_tags (t : toml_table) : list ustr :=
  match toml_get t (u "tags") ≫= as_array with
  | None => []
  | Some arr =>
      take 32 (retain (λ s : ustr, negb (is_empty s) && (length s <=? 64)%nat) (map trim (omap as_str arr)))
  end.

Definition new_account (cfg : AccountConfig) (healthy : bool) (state : CredentialState) : Account := {|
  conf := cfg; is_healthy := healthy; consecutive_errors := 0; spent_this_month := 0; cooldown_until := None;
  last_used := None; total_requests := 0; credential_state := state; auth_dead_strikes := 0;
  next_probe_at := None; probe_failures := 0
|}.

Definition int_at (t : toml_table) (k : ustr) : option Z := toml_get t k ≫= as_integer.

Definition load_api_key_entry (t : toml_table) (entry_id : ustr) : option Account :=
  let key := resolve_api_key t in
  let broken := is_empty key && has_nonempty_field t API_KEY_ENC_FIELDS in
  if negb broken && is_empty key then None
  else
    Some (new_account
      {| id := entry_id; auth_method := ApiKey; provider := default (u "anthropic") (str_at t (u "provider"));
         priority := as_u32 (default 10 (int_at t (u "priority")));
         monthly_budget_cents := default 5000 (int_at t (u "monthly_budget_cents")) mod 2 ^ 64;
         tags := parse_account_tags t; label := default [] (str_at t (u "label")); expires_at := None;
         api_key := key; oauth_token := None; credentials_dir := None |}
      (negb broken) (if broken then Broken else Unverified)).

Definition load_oauth_entry (t : toml_table) (entry_id : ustr) : Account :=
  let creds_dir := profile_dir (default (u "default") (str_at t (u "profile"))) in
  let token := resolve_oauth_token t in
  let token_usable := match token with Some s => negb (is_empty (trim s)) | None => false end in
  let broken := negb token_usable && has_nonempty_field t OAUTH_TOKEN_ENC_FIELDS in
  let token := if token_usable then token else None in
  let has_auth := match token, creds_dir with None, None => false | _, _ => true end in
  new_account
    {| id := entry_id; auth_method := OAuth; provider := default (u "anthropic") (str_at t (u "provider"));
       priority := as_u32 (default 5 (int_at t (u "priority")));
       monthly_budget_cents := 0; tags := parse_account_tags t; label := default [] (str_at t (u "label"));
       expires_at := str_at t (u "expires_at"); api_key := []; oauth_token := token; credentials_dir := creds_dir |}
    (has_auth && negb broken) (if broken then Broken else Unverified).

Definition load_entry (t : toml_table) : option Account :=
  let entry_id := default (u "unnamed") (str_at t (u "id")) in
  let auth_type := default (u "api_key") (str_at t (u "type")) in
  if ustr_eqb auth_type (u "api_key") then load_api_key_entry t entry_id
  else if ustr_eqb auth_type (u "oauth") then Some (load_oauth_entry t entry_id)
  else None.

Definition load_entries (table : toml_table) : list Account :=
  match toml_get table (u "accounts") ≫= as_array with
  | None => []
  | Some accs => omap (λ v, as_table v ≫= load_entry) accs
  end.

Definition should_autodetect_anthropic_oauth (loaded : list Account) : bool :=
  negb (existsb (λ a : Account, bool_decide (auth_method a = OAuth) && ustr_eqb (provider a) (u "anthropic")) loaded).

(** The single key of [[api]] or of the environment. *)
Definition fallback_account (i : ustr) (prio : Z) (lbl key : ustr) : Account :=
  new_account
    {| id := i; auth_method := ApiKey; provider := u "anthropic"; priority := prio; monthly_budget_cents := 10000;
       tags := []; label := lbl; expires_at := None; api_key := key; oauth_token := None; credentials_dir := None |}
    true Unverified.

Definition read_config (read : result ustr ReadError) : result (toml_table * bool) ustr :=
  let content :=
    match read with
    | Ok c => Ok c
    | Err NotFound => Ok []
    | Err OtherReadError => Err (u "Failed to read account config.toml")
    end in
  match content with
  | Err e => Err e
  | Ok c =>
      match toml_parse c with
      | None => Err (u "Failed to parse account config.toml")
      | Some table =>
          match host_credentials_policy table with
          | Ok inherit => Ok (table, inherit)
          | Err e => Err e
          end
      end
  end.

(** The three sources; [detected] is the host's own login, if there is one. *)
Definition load_accounts (table : toml_table) (inherit : bool) (detected : option Account) : list Account :=
  let loaded := load_entries table in
  let loaded :=
    if inherit && should_autodetect_anthropic_oauth loaded then loaded ++ option_list detected else loaded in
  let loaded :=
    match loaded, toml_get table (u "api") ≫= as_table with
    | [], Some api =>
        match resolve_api_key api with [] => [] | key => [fallback_account (u "main") 1 [] key] end
    | _, _ => loaded
    end in
  match loaded with
  | [] =>
      if inherit then
        match env_var (u "ANTHROPIC_API_KEY") ≫= non_empty with
        | Some key => [fallback_account (u "env") 99 (u "環境變數") key]
        | None => []
        end
      else []
  | _ => loaded
  end.

Definition load_from_config (read : result ustr ReadError) (detected : option Account) (R : AccountRotator)
    : result nat ustr * AccountRotator :=
  match read_config read with
  | Err e =>
      (Err e, {| accounts := []; inherit_host_credentials := false; strategy := strategy R;
                 round_robin_index := round_robin_index R; cooldown_seconds := cooldown_seconds R |})
  | Ok (table, inherit) =>
      let loaded := load_accounts table inherit detected in
      (Ok (length loaded),
       {| accounts := loaded; inherit_host_credentials := inherit; strategy := strategy R;
          round_robin_index := round_robin_index R; cooldown_seconds := cooldown_seconds R |})
  end.

(** ** Every loaded account starts fresh *)

Definition fresh (a : Account) : Prop :=
  cooldown_until a = None ∧ next_probe_at a = None
  ∧ consecutive_errors a = 0 ∧ auth_dead_strikes a = 0 ∧ spent_this_month a = 0
  ∧ match credential_state a with
    | Broken => is_healthy a = false
    | Unverified => is_healthy a = true ∨ auth_method a = OAuth ∧ oauth_token a = None ∧ credentials_dir a = None
    | _ => False
    end.

Lemma new_account_fresh cfg healthy state :
  match state with
  | Broken => healthy = false
  | Unverified => healthy = true ∨ auth_method cfg = OAuth ∧ oauth_token cfg = None ∧ credentials_dir cfg = None
  | _ => False
  end → fresh (new_account cfg healthy state).
Proof. intros Hs. by split_and!. Qed.

Lemma load_api_key_entry_fresh t i a : load_api_key_entry t i = Some a → fresh a.
Proof.
  unfold load_api_key_entry. set (broken := is_empty (resolve_api_key t) && _). clearbody broken.
  destruct (negb broken && _); [done|]. intros [= <-]. apply new_account_fresh. destruct broken; [done|by left].
Qed.

Lemma load_oauth_entry_fresh t i : fresh (load_oauth_entry t i).
Proof.
  unfold load_oauth_entry. set (usable := match resolve_oauth_token t with Some s => _ | None => false end).
  clearbody usable. destruct (negb usable && _); apply new_account_fresh; [by rewrite andb_false_r|].
  rewrite andb_true_r. cbn. destruct (if usable then resolve_oauth_token t else None), (profile_dir _); auto.
Qed.

Lemma load_entry_fresh t a : load_entry t = Some a → fresh a.
Proof.
  unfold load_entry. destruct (ustr_eqb _ _); [apply load_api_key_entry_fresh|].
  destruct (ustr_eqb _ _); [|done]. intros [= <-]. apply load_oauth_entry_fresh.
Qed.

(** Loaded accounts are well formed: each starts without a cooldown, a
    strike or a spent cent, a credential that is stored but cannot be read is
    marked broken and unhealthy, and every other account is healthy unless it
    is a login with neither a token nor a directory. *)
Theorem loaded_accounts_fresh read detected R n R' a :
  (∀ d, detected = Some d → fresh d) → load_from_config read detected R = (Ok n, R') → a ∈ accounts R' → fresh a.
Proof.
  intros Hd Hl Ha. unfold load_from_config in Hl. destruct (read_config read) as [[table inherit]|]; [|done].
  injection Hl as <- <-. cbn in Ha. unfold load_accounts in Ha.
  assert (∀ b, b ∈ load_entries table → fresh b) as He.
  { unfold load_entries. destruct (_ ≫= as_array); [|by intros b ?%elem_of_nil].
    intros b (v & _ & Hv)%list_elem_of_omap. apply bind_Some in Hv as (t & _ & Ht). by eapply load_entry_fresh. }
  assert (∀ i prio lbl key, fresh (fallback_account i prio lbl key)) as Hf
    by (intros; apply new_account_fresh; by left).
  set (l1 := if inherit && _ then _ else _) in Ha.
  assert (∀ b, b ∈ l1 → fresh b) as H1'.
  { subst l1. intros b Hb. destruct (inherit && _); [|by apply He]. apply elem_of_app in Hb as [Hb|Hb]; [by apply He|].
    destruct detected; [|by apply elem_of_nil in Hb]. apply list_elem_of_singleton in Hb as ->. by apply Hd. }
  clearbody l1. set (l2 := match l1 with [] => _ | _ :: _ => _ end) in Ha.
  assert (∀ b, b ∈ l2 → fresh b) as H2'.
  { subst l2. intros b Hb. destruct l1; [|by apply H1']. destruct (toml_get _ _ ≫= as_table); [|by apply elem_of_nil in Hb].
    destruct (resolve_api_key _); [by apply elem_of_nil in Hb|]. by apply list_elem_of_singleton in Hb as ->. }
  clearbody l2. destruct l2; [|by apply H2']. destruct inherit; [|by apply elem_of_nil in Ha].
  destruct (env_var _ ≫= non_empty); [|by apply elem_of_nil in Ha]. by apply list_elem_of_singleton in Ha as ->.
Qed.

Lemma no_accounts_no_host now R prov pool exclude :
  (∀ a : Account, a ∈ accounts R → provider a ≠ prov) → inherit_host_credentials R = false →
  select_excluding now R prov pool exclude = (None, R).
Proof.
  intros Hno Hi. unfold select_excluding.
  destruct (candidates now R prov pool exclude) as [|a l] eqn:E.
  - cbn. by rewrite Hi, andb_false_r.
  - exfalso. assert (a ∈ candidates now R prov pool exclude) as Ha by (rewrite E; by left).
    apply candidates_eligible in Ha as (Ha & Hp & _). by apply (Hno a).
Qed.
End load.

(** The host's credentials need consent: unless the configuration was read
    and does not opt out, loading does not depend on the host's login or its
    environment, and a provider without an account of its own is given
    nothing; a file that cannot be read, does not parse or has a malformed
    policy counts as opting out, and leaves no account at all. *)
Theorem host_login_needs_consent `{Chrono} `{Toml} `{Secrets} (h h' : Host) read detected detected' R r R' :
  (∀ table, read_config read ≠ Ok (table, true)) →
  load_from_config (H0 := h) read detected R = (r, R') →
  load_from_config (H0 := h') read detected' R = (r, R')
  ∧ inherit_host_credentials R' = false
  ∧ (∀ now prov pool exclude, (∀ a : Account, a ∈ accounts R' → provider a ≠ prov) →
       select_excluding (H0 := h) now R' prov pool exclude = (None, R'))
  ∧ ((∃ e, read_config read = Err e) → accounts R' = []).
Proof.
  intros Hc Hl. unfold load_from_config, load_accounts in *.
  destruct (read_config read) as [[table [|]]|e]; [by destruct (Hc table)| |]; cbn in *; injection Hl as <- <-.
  - split_and!; [done|done|intros; by apply no_accounts_no_host|by intros [? ?]].
  - split_and!; [done|done|intros; by apply no_accounts_no_host|done].
Qed.

(** ** Concrete runs *)

Inductive tvalue := TStr (s : ustr) | TBool (x : bool) | TTab (t : list (ustr * tvalue)) | TArr (l : list tvalue).

(** Two documents: [seat], a login of another provider without a token, and
    [off], which opts out. *)
Definition demo_doc (s : ustr) : list (ustr * tvalue) :=
  if ustr_eqb s (u "seat") then
    [(u "accounts", TArr [TTab [(u "id", TStr (u "codex")); (u "type", TStr (u "oauth")); (u "provider", TStr (u "openai"))]])]
  else if ustr_eqb s (u "off") then [(u "account_loading", TTab [(u "inherit_host_credentials", TBool false)])]
  else [].
Definition demo_toml : Toml := {|
  toml_table := list (ustr * tvalue);
  toml_value := tvalue;
  toml_parse s := Some (demo_doc s);
  toml_get t k := snd <$> List.find (λ p, ustr_eqb p.1 k) t;
  as_table v := match v with TTab t => Some t | _ => None end;
  as_integer _ := None;
  as_float _ := None;
  as_str v := match v with TStr s => Some s | _ => None end;
  as_bool v := match v with TBool x => Some x | _ => None end;
  as_array v := match v with TArr l => Some l | _ => None end
|}.
Definition demo_secrets : Secrets := {| resolve_secret _ plain := plain; profile_dir _ := None |}.
(** A host with a key in its environment. *)
Definition keyed_host : Host := {| env_var _ := Some (u "sk-host"); is_default_home _ := false |}.

Lemma loaded_accounts_fresh_witness :
  match load_from_config (H0 := keyed_host) (H1 := demo_toml) (H2 := demo_secrets) (Ok []) None (demo_rotator Priority []) with
  | (Ok n, R') => n = 1%nat ∧ ∀ a : Account, a ∈ accounts R' → fresh a
  | _ => False
  end.
Proof.
  destruct (load_from_config (H0 := keyed_host) (H1 := demo_toml) (H2 := demo_secrets) (Ok []) None (demo_rotator Priority []))
    as [[n|] R'] eqn:E; [|vm_compute in E; discriminate E].
  split; [vm_compute in E; injection E as <- _; reflexivity|].
  intros a Ha. refine (loaded_accounts_fresh (H0 := keyed_host) (H1 := demo_toml) (H2 := demo_secrets)
    (Ok []) None (demo_rotator Priority []) n R' a _ E Ha).
  discriminate.
Defined.

Lemma host_login_needs_consent_witness :
  let load h d :=
    load_from_config (H0 := h) (H1 := demo_toml) (H2 := demo_secrets) (Ok (u "off")) d (demo_rotator Priority []) in
  load keyed_host (Some (demo_account (u "oauth-default"))) = load demo_host None
  ∧ accounts (load demo_host None).2 = [].
Proof.
  cbv zeta.
  destruct (load_from_config (H0 := demo_host) (H1 := demo_toml) (H2 := demo_secrets) (Ok (u "off")) None (demo_rotator Priority []))
    as [r R'] eqn:E.
  destruct (host_login_needs_consent (H := demo_chrono) (H0 := demo_toml) (H1 := demo_secrets) demo_host keyed_host
    (Ok (u "off")) None (Some (demo_account (u "oauth-default"))) (demo_rotator Priority []) r R') as (Hl & _).
  - intros table Ht. vm_compute in Ht. discriminate Ht.
  - exact E.
  - split; [exact Hl|]. vm_compute in E. injection E as _ <-. reflexivity.
Defined.

(** A subscription seat whose token the runtime manages (no token and no
    ~/.claude) is loaded unhealthy without a cooldown, so it is never
    available, although [is_available] itself accepts such a seat. *)
Lemma managed_seat_loads_dead :
  let '(_, R') := load_from_config (H0 := demo_host) (H1 := demo_toml) (H2 := demo_secrets) (Ok (u "seat")) None
                    (demo_rotator Priority []) in
  map (λ a : Account, (id a, has_credential a, is_healthy a, cooldown_until a)) (accounts R')
  = [(u "codex", true, false, None)]
  ∧ ∀ now, map (is_available (H := demo_chrono) now) (accounts R') = [false].
Proof. vm_compute. split; [done|]. by intros []. Qed.
