(* ===== verification/Rotation.v ===== *)
(** * Rotating a CLI call over the accounts (channel_reply/cli_spawn.rs)

    The classification of failures (claude_runner.rs, failure_message.rs,
    pty_runtime.rs, mcp_spawn_gate.rs, budget.rs) and the retry loop
    [rotate_cli_spawn].  What the outside does during an attempt (the spawned
    process, the clock, other tasks on the same rotator) is a [world]; Unicode
    lower-casing is an interface. *)

From S2P Require Import Prelude Toml Accounts.

(** [str::to_lowercase]. *)
Class LowerCase := { to_lowercase : ustr → ustr }.

(** ** Strings *)

(** [s.replace(p, empty)]; [skip] characters of a match are left to drop. *)
Fixpoint remove_all (p : ustr) (skip : nat) (s : ustr) : ustr :=
  match s, skip with
  | [], _ => []
  | _ :: r, S skip' => remove_all p skip' r
  | c :: r, O => if starts_with s p then remove_all p (length p - 1) r else c :: remove_all p 0 r
  end.

(** [s.split(p)]; [cur] is the part so far, backwards. *)
Fixpoint split_parts (p : ustr) (skip : nat) (cur s : ustr) : list ustr :=
  match s, skip with
  | [], _ => [rev cur]
  | _ :: r, S skip' => split_parts p skip' cur r
  | c :: r, O =>
      if starts_with s p then rev cur :: split_parts p (length p - 1) [] r else split_parts p 0 (c :: cur) r
  end.

Definition is_code_char (c : N) : bool :=
  (((48 <=? c) && (c <=? 57)) || ((65 <=? c) && (c <=? 90)) || ((97 <=? c) && (c <=? 122)) || (c =? 95))%N.
Fixpoint first_code (s : ustr) : ustr :=
  match s with
  | c :: r => if is_code_char c then c :: first_code r else []
  | [] => []
  end.

Definition contains_any (s : ustr) (ps : list ustr) : bool := existsb (contains s) ps.

(** ** Classifying failures *)

Definition SPAWN_GATE_ERROR_PREFIX : ustr := u "[mcp_config_unverified] ".
Definition is_spawn_gate_error (err : ustr) : bool := starts_with err SPAWN_GATE_ERROR_PREFIX.

Definition TRANSPORT_MARKERS : list ustr :=
  [u "failed to open pty"; u "failed to spawn child process"; u "pty i/o error"; u "pty closed unexpectedly";
   u "read timed out after"; u "write timed out after"; u "background task panicked"].
Definition is_pty_transport_error (err : ustr) : bool := contains_any (to_ascii_lowercase err) TRANSPORT_MARKERS.

Definition BUDGET_REFUSAL_PREFIX : ustr := u "[budget_preflight] ".

Inductive FailureReason :=
| BinaryMissing
| ReasonRateLimited
| Billing
| AuthFailed
| Timeout
| SpawnError
| EmptyResponse
| NoAccounts
| AccountsCoolingDownLong
| AccountsCoolingDownShort
| AccountsCoolingDownUnknown
| ReasonUnknown.
#[export] Instance FailureReason_eq_dec : EqDecision FailureReason.
Proof. solve_decision. Defined.

Section rotation.
Context `{LowerCase}.
Implicit Types (err : ustr) (was_denied : bool).

Definition is_admission_refusal was_denied err : bool :=
  starts_with err BUDGET_REFUSAL_PREFIX || was_denied || starts_with err (u "AUTONOMY_PAUSED:").

Definition is_billing_error was_denied err : bool :=
  if is_admission_refusal was_denied err then false
  else
    contains_any (to_lowercase err)
      [u "credit"; u "balance"; u "billing"; u "payment"; u "402"; u "insufficient_quota"].

Definition has_cli_error_code (lower code : ustr) : bool :=
  existsb (λ rest, ustr_eqb (first_code (trim_start rest)) code)
    (drop 1 (split_parts (u "assistant error:") 0 [] lower)).

Definition is_rate_limit_error err : bool :=
  let lower := to_lowercase err in
  let lower :=
    if contains_any lower [u "rate_limit_event"; u "allowed_warning"] then
      foldl (λ s tok, remove_all tok 0 s) lower
        [u "rate_limit_event"; u "rate_limit_info"; u "ratelimittype"; u "allowed_warning"]
    else lower in
  contains_any lower
    [u "rate limit"; u "rate-limit"; u "ratelimit"; u "429"; u "usage limit"; u "overloaded"; u "capacity limit"]
  || has_cli_error_code lower (u "rate_limit").

Definition classify_cli_failure was_denied err : FailureReason :=
  let lower := to_lowercase err in
  if contains lower (u "claude cli not found") then BinaryMissing
  else if contains_any lower
    [u "not logged in"; u "authentication_failed"; u "please run /login"; u "oauth_org_not_allowed";
     u "oauth_not_allowed_for_organization"; u "not allowed for this organization"; u "invalid bearer token";
     u "oauth access token is invalid"; u "disabled claude subscription access"] then AuthFailed
  else if contains_any lower [u "hard timeout"; u "timed out"] then Timeout
  else if contains lower (u "empty response") then EmptyResponse
  else if contains lower (u "no accounts available: billing cooldown") then AccountsCoolingDownLong
  else if contains lower (u "no accounts available: short cooldown") then AccountsCoolingDownShort
  else if contains lower (u "no accounts available: reason unknown") then AccountsCoolingDownUnknown
  else if contains_any lower [u "no accounts"; u "no account configured"] then NoAccounts
  else if is_billing_error was_denied err then Billing
  else if is_rate_limit_error err then ReasonRateLimited
  else if contains_any lower [u "spawn error"; u "no such file"; u "exit "; u "read error"] then SpawnError
  else ReasonUnknown.

Definition auth_failure_kind_hint was_denied err : option ustr :=
  if negb (bool_decide (classify_cli_failure was_denied err = AuthFailed)) then None
  else if contains_any (to_lowercase err)
    [u "oauth_org_not_allowed"; u "oauth_not_allowed_for_organization"; u "not allowed for this organization";
     u "disabled claude subscription access"] then Some (u "org_disabled")
  else Some (u "invalid_token").

Definition auth_failure_kind_for was_denied err : option AuthFailureKind :=
  match auth_failure_kind_hint was_denied err with
  | Some s => Some (if ustr_eqb s (u "org_disabled") then OrgDisabled else InvalidToken)
  | None => None
  end.

Definition retry_hint_for was_denied err : option ustr :=
  match classify_cli_failure was_denied err with
  | Timeout =>
      Some (u "A previous attempt at this exact request timed out before completing. Do not repeat the same approach: answer more directly, keep tool use to a minimum, and prefer a shorter response.")
  | EmptyResponse =>
      Some (u "A previous attempt at this exact request ended without producing any text. Reply with a direct textual answer.")
  | _ => None
  end.

(** ** The loop *)

Context `{Chrono} `{Host}.
Implicit Types (R : AccountRotator).

(** The outside of attempt [k]: what the spawned CLI answers under an
    environment and a hint, whether an autonomy refusal was noted, the clock
    at the selection and at the booking, and what other tasks do to the
    rotator in between. *)
Record world := {
  spawn : nat → gmap ustr ustr → option ustr → result ustr ustr;
  denied : nat → bool;
  select_at : nat → Z;
  book_at : nat → Z;
  others : nat → list (Z * op);
}.

Inductive ending :=
| Replied (text : ustr)
| Refused (err : ustr)
| Unavailable (why : UnavailableReason) (account_count : nat)
| Exhausted (last_error : ustr).

Definition answer (e : ending) : result ustr ustr :=
  match e with
  | Replied text => Ok text
  | Refused err => Err err
  | Unavailable why n =>
      let tier :=
        match why with
        | LongCooldown => u "billing cooldown"
        | ShortCooldown => u "short cooldown"
        | UnknownReason => u "reason unknown"
        end in
      Err (u "no accounts available: " ++ tier ++ u " — all " ++ show_nat n
           ++ u " configured account(s) are cooling down or marked unhealthy")
  | Exhausted last_error => Err (u "All accounts exhausted. Last error: " ++ last_error)
  end.

Definition reply_cost (input_size_hint : nat) (m : AuthMethod) (text : ustr) : Z :=
  match m with
  | OAuth => 0
  | ApiKey => Z.of_nat (Nat.max ((input_size_hint + length (utf8_encode text)) / 1000) 1)
  end.

(** The cascade of the failed attempt: what is booked on the account. *)
Definition book_failure now R (account_id err : ustr) : option AccountRotator :=
  if is_billing_error false err then Some (on_billing_exhausted now R account_id)
  else if is_rate_limit_error err then on_rate_limited now R account_id
  else if is_pty_transport_error err then Some R
  else
    match auth_failure_kind_for false err with
    | Some kind => Some (on_auth_failed now R account_id kind)
    | None => on_error now R account_id
    end.

(** Attempts [k], [k + 1], ..., at most [attempts]; [None] is a panic. *)
Fixpoint rotate_loop (W : world) (pool : list ustr) (size_hint account_count attempts k : nat)
    R (tried : list ustr) (last_error : ustr) (hint : option ustr) : option (ending * AccountRotator * list ustr) :=
  match attempts with
  | O => Some (Exhausted last_error, R, tried)
  | S attempts' =>
      let '(selected, R) := select_excluding (select_at W k) R (u "anthropic") pool tried in
      match selected with
      | None =>
          if (0 <? account_count)%nat && is_empty last_error
          then Some (Unavailable (unavailable_reason (select_at W k) R) account_count, R, tried)
          else Some (Exhausted last_error, R, tried)
      | Some e =>
          let tried := tried ++ [env_id e] in
          R ← run_ops (others W k) R;
          match spawn W k (env_vars e) hint with
          | Ok text =>
              let cost := reply_cost size_hint (env_auth_method e) text in
              Some (Replied text, on_success (book_at W k) R (env_id e) cost, tried)
          | Err err =>
              if is_spawn_gate_error err || denied W k then Some (Refused err, R, tried)
              else
                R ← book_failure (book_at W k) R (env_id e) err;
                rotate_loop W pool size_hint account_count attempts' (S k) R tried err (retry_hint_for false err)
          end
      end
  end.

Definition rotate_cli_spawn (W : world) (pool : list ustr) (size_hint : nat) R
    : option (ending * AccountRotator * list ustr) :=
  let account_count := length (accounts R) in
  rotate_loop W pool size_hint account_count (Nat.max account_count 1) 0 R [] [] None.

(** ** What an attempt leaves unchanged *)

Definition ids R : list ustr := map (λ a : Account, id a) (accounts R).
Definition has_anthropic R : Prop := ∃ a : Account, a ∈ accounts R ∧ provider a = u "anthropic".
Definition same_accounts R R' : Prop := map identity (accounts R') = map identity (accounts R).

Lemma ids_identity R : ids R = map fst (map identity (accounts R)).
Proof. unfold ids. by rewrite map_map. Qed.

Lemma same_ids R R' : same_accounts R R' → ids R' = ids R.
Proof. intros Hs. by rewrite !ids_identity, Hs. Qed.

Lemma same_anthropic R R' : same_accounts R R' → has_anthropic R → has_anthropic R'.
Proof.
  intros Hs (a & Ha & Hp). apply (list_elem_of_fmap_2 identity) in Ha. unfold same_accounts in Hs.
  change (identity <$> accounts R) with (map identity (accounts R)) in Ha. rewrite <- Hs in Ha.
  apply list_elem_of_fmap in Ha as (b & He & Hb). exists b. split; [done|]. injection He. congruence.
Qed.

(** The account an operation is about. *)
Definition about (i : ustr) (o : op) : Prop :=
  match o with
  | OpSuccess j _ | OpAuthFailed j _ | OpError j | OpRateLimited j | OpBilling j => j = i
  | _ => False
  end.

Lemma book_failure_op now R i err R' :
  book_failure now R i err = Some R' → R' = R ∨ ∃ o, about i o ∧ run_op now o R = Some R'.
Proof.
  unfold book_failure. intros Hb.
  destruct (is_billing_error false err); [right; exists (OpBilling i); by split|].
  destruct (is_rate_limit_error err); [right; exists (OpRateLimited i); by split|].
  destruct (is_pty_transport_error err); [left; by simplify_eq|].
  destruct (auth_failure_kind_for false err) as [kind|];
    [right; exists (OpAuthFailed i kind); by split|right; exists (OpError i); by split].
Qed.

Lemma book_failure_same now R i err R' : book_failure now R i err = Some R' → same_accounts R R'.
Proof. intros [->|(o & _ & Ho)]%book_failure_op; [done|by eapply run_op_identity]. Qed.

Lemma select_same now R prov pool exclude : same_accounts R (select_excluding now R prov pool exclude).2.
Proof. by eapply (run_op_identity now (OpSelect prov pool exclude)). Qed.

(** With an account of the provider the environment's key is never used. *)
Lemma select_eligible now R pool exclude e R1 :
  has_anthropic R → select_excluding now R (u "anthropic") pool exclude = (Some e, R1) →
  ∃ a : Account, eligible now R (u "anthropic") pool exclude a ∧ e = build_account_env a.
Proof.
  intros (a & Ha & Hp) Hs. pose proof (selected_account now R (u "anthropic") pool exclude) as Hx. rewrite Hs in Hx. cbn in Hx.
  destruct Hx as [(b & Hb & He & _)|(Hno & _)]; [by exists b|]. by destruct (Hno a).
Qed.

Lemma select_none now R pool exclude R1 :
  select_excluding now R (u "anthropic") pool exclude = (None, R1) →
  R1 = R ∧ ∀ a : Account, ¬ eligible now R (u "anthropic") pool exclude a.
Proof.
  intros Hs. pose proof (selected_account now R (u "anthropic") pool exclude) as Hx. rewrite Hs in Hx. split; [|done].
  unfold select_excluding in Hs. destruct (candidates now R _ pool exclude) as [|x l] eqn:E; cbn [is_empty] in Hs; [by simplify_eq|].
  destruct (choose R (x :: l)) as [sel R2] eqn:Ec. destruct (choose_some R (x :: l)) as [b Hb]; [done|].
  rewrite Ec in Hb. cbn in Hb. by subst sel.
Qed.

(** ** Every account is tried, once *)

Definition covered (W : world) (pool : list ustr) (start attempts n k : nat) (e : ending) R (tried : list ustr) : Prop :=
  match e with
  | Replied _ | Refused _ => True
  | Unavailable _ _ | Exhausted _ =>
      n = (start + attempts)%nat
      ∨ ∀ a : Account, ¬ eligible (select_at W (k + (n - start))) R (u "anthropic") pool tried a
  end.

Lemma loop_tried W pool sh count attempts k R tried le hint e R' tried' :
  has_anthropic R → NoDup tried → (∀ x, x ∈ tried → x ∈ ids R) →
  rotate_loop W pool sh count attempts k R tried le hint = Some (e, R', tried') →
  NoDup tried' ∧ (∀ x, x ∈ tried' → x ∈ ids R) ∧ same_accounts R R'
  ∧ (length tried ≤ length tried' ≤ length tried + attempts)%nat
  ∧ covered W pool (length tried) attempts (length tried') k e R' tried'.
Proof.
  revert k R tried le hint. induction attempts as [|attempts IH]; intros k R tried le hint Ha Hnd Hin Hl; cbn [rotate_loop] in Hl.
  { simplify_eq. split_and!; [done|done|done|lia|lia|]. left. lia. }
  destruct (select_excluding _ _ _ _ _) as [selected R1] eqn:Es.
  pose proof (select_same (select_at W k) R (u "anthropic") pool tried) as Hsame1. rewrite Es in Hsame1. cbn in Hsame1.
  destruct selected as [en|].
  2: { apply select_none in Es as [-> Hno]. 
       assert (covered W pool (length tried) (S attempts) (length tried) k e R tried) as Hcov.
       { assert (k + (length tried - length tried) = k)%nat as Hk by lia.
         destruct e; cbn; try done; right; by rewrite Hk. }
       destruct (_ && _); simplify_eq; (split_and!; [done|done|done|lia|lia|done]). }
  destruct (select_eligible _ _ _ _ _ _ Ha Es) as (a & (Hacc & Hp & Hav & Hex & _) & ->). cbn [env_id build_account_env] in Hl.
  assert (NoDup (tried ++ [id a])) as Hnd'.
  { apply list.NoDup_app. split_and!; [done| |apply list.NoDup_singleton]. by intros x Hx ->%list_elem_of_singleton. }
  assert (∀ x, x ∈ tried ++ [id a] → x ∈ ids R) as Hin'.
  { intros x [Hx| ->%list_elem_of_singleton]%elem_of_app; [by apply Hin|]. by apply (list_elem_of_fmap_2 (λ a : Account, id a)). }
  apply bind_Some in Hl as (R2 & Ho & Hl). apply run_ops_identity in Ho.
  assert (same_accounts R R2) as Hsame2 by (unfold same_accounts in *; congruence).
  assert (length (tried ++ [id a]) = S (length tried)) as Hlen by (rewrite length_app; cbn; lia).
  destruct (spawn W k _ hint) as [text|err].
  { simplify_eq. split_and!; [done|done| |lia|lia|done]. 
    unfold same_accounts in *. rewrite <- Hsame2. by apply (run_op_identity (book_at W k) (OpSuccess (id a) (reply_cost sh (auth_method a) text))). }
  destruct (_ || _); [by simplify_eq; split_and!; [done|done|done|lia|lia|done]|].
  apply bind_Some in Hl as (R3 & Hb%book_failure_same & Hl).
  assert (same_accounts R R3) as Hsame3 by (unfold same_accounts in *; congruence).
  apply IH in Hl as (K1 & K2 & K3 & K4 & K5); [| |done|].
  - split_and!; [done| | |lia|lia|].
    + intros x Hx. rewrite <- (same_ids R R3) by done. by apply K2.
    + unfold same_accounts in *. congruence.
    + destruct e; cbn in *; try done; (destruct K5 as [K5|K5]; [left; lia|right]).
      all: by replace (k + (length tried' - length tried))%nat with (S k + (length tried' - length (tried ++ [id a])))%nat by lia.
  - by eapply same_anthropic.
  - intros x Hx. rewrite (same_ids R R3) by done. by apply Hin'.
Qed.

(** The attempts of a rotation suffice for the accounts it has. *)
Lemma rotation_loop W pool sh R e R' tried :
  has_anthropic R → rotate_cli_spawn W pool sh R = Some (e, R', tried) →
  NoDup tried ∧ (∀ x, x ∈ tried → x ∈ ids R) ∧ same_accounts R R' ∧ (length tried ≤ length (accounts R))%nat
  ∧ covered W pool 0 (length (accounts R)) (length tried) 0 e R' tried.
Proof.
  intros Ha Hr. unfold rotate_cli_spawn in Hr.
  assert (Nat.max (length (accounts R)) 1 = length (accounts R)) as Hmax.
  { destruct Ha as (a & Hin & _). destruct (accounts R); [by apply elem_of_nil in Hin|cbn; lia]. }
  rewrite Hmax in Hr. apply loop_tried in Hr as (K1 & K2 & K3 & K4 & K5); [|done|constructor|by intros x ?%elem_of_nil].
  cbn in K4. by split_and!; [..|lia|].
Qed.

Lemma end_covers W pool sh R e R' tried :
  has_anthropic R → NoDup (ids R) → rotate_cli_spawn W pool sh R = Some (e, R', tried) →
  match e with
  | Exhausted _ | Unavailable _ _ =>
      ∀ a : Account, eligible (select_at W (length tried)) R' (u "anthropic") pool [] a → id a ∈ tried
  | _ => True
  end.
Proof.
  intros Ha Hnd Hr. apply rotation_loop in Hr as (K1 & K2 & K3 & K4 & K5); [|done].
  assert (∀ a : Account, length tried = length (accounts R)
    ∨ (∀ b : Account, ¬ eligible (select_at W (length tried)) R' (u "anthropic") pool tried b) →
    eligible (select_at W (length tried)) R' (u "anthropic") pool [] a → id a ∈ tried) as Hfin.
  { intros a [Hlen|Hno] Hel.
    - assert (tried ≡ₚ ids R) as Hperm.
      { apply submseteq_length_Permutation; [by apply list.NoDup_submseteq|]. unfold ids. rewrite length_map. lia. }
      rewrite Hperm, <- (same_ids R R') by done. destruct Hel as (Hin & _). by apply (list_elem_of_fmap_2 (λ a : Account, id a)).
    - destruct (decide (id a ∈ tried)) as [|Hni]; [done|]. destruct (Hno a). destruct Hel as (? & ? & ? & _ & ?). by split_and!. }
  unfold covered in K5. cbn in K5. rewrite Nat.sub_0_r in K5. destruct e; try done; intros a; apply Hfin; exact K5.
Qed.

(** The configured cooldown can be added to a time: chrono panics past its
    last date. *)
Definition cooldown_fits R (now : Z) : Prop := is_Some (add_seconds now (as_i64 (cooldown_seconds R))).

(** It can be added to every time the clock shows while the rotation runs. *)
Definition in_range (W : world) R : Prop :=
  ∀ k, (k < Nat.max (length (accounts R)) 1)%nat →
    cooldown_fits R (book_at W k) ∧ Forall (λ p : Z * op, cooldown_fits R p.1) (others W k).

Lemma fits_settings R R' now : same_settings R R' → cooldown_fits R now → cooldown_fits R' now.
Proof. intros [Hc _]. unfold cooldown_fits. by rewrite Hc. Qed.

Lemma same_settings_trans R1 R2 R3 : same_settings R1 R2 → same_settings R2 R3 → same_settings R1 R3.
Proof. intros (? & ? & ?) (? & ? & ?). split_and!; congruence. Qed.

Lemma run_op_settings now o R R' : run_op now o R = Some R' → same_settings R R'.
Proof. by intros [Hs _]%run_op_steps. Qed.

Lemma run_op_total now o R : cooldown_fits R now → is_Some (run_op now o R).
Proof.
  intros [t Ht]. destruct o; cbn; try by eexists.
  - unfold on_error. destruct (List.find _ _); [|by eexists]. destruct (3 <=? _); [rewrite Ht|]; by eexists.
  - unfold on_rate_limited. destruct (List.find _ _); [rewrite Ht|]; by eexists.
Qed.

Lemma run_ops_total l R :
  Forall (λ p : Z * op, cooldown_fits R p.1) l → ∃ R', run_ops l R = Some R' ∧ same_settings R R'.
Proof.
  revert R. induction l as [|[now o] l IH]; intros R Hl; cbn; [by eexists|].
  apply list.Forall_cons in Hl as [Ho Hl]. destruct (run_op_total now o R Ho) as [R1 Ks1]. rewrite Ks1.
  apply run_op_settings in Ks1. destruct (IH R1) as (R2 & Ks2 & Hs).
  - eapply list.Forall_impl; [exact Hl|]. intros p. by apply fits_settings.
  - exists R2. split; [done|by eapply same_settings_trans].
Qed.

Lemma book_failure_total now R i err :
  cooldown_fits R now → ∃ R', book_failure now R i err = Some R' ∧ same_settings R R'.
Proof.
  intros Hf. assert (is_Some (book_failure now R i err)) as [R' Hb].
  { unfold book_failure. destruct (is_billing_error _ _); [by eexists|].
    destruct (is_rate_limit_error _); [exact (run_op_total now (OpRateLimited i) R Hf)|].
    destruct (is_pty_transport_error _); [by eexists|].
    destruct (auth_failure_kind_for _ _); [by eexists|exact (run_op_total now (OpError i) R Hf)]. }
  exists R'. split; [done|]. by apply book_failure_op in Hb as [->|(o & _ & ?%run_op_settings)].
Qed.

Lemma loop_total W pool sh count attempts k R tried le hint :
  (∀ j, (k ≤ j < k + attempts)%nat →
     cooldown_fits R (book_at W j) ∧ Forall (λ p : Z * op, cooldown_fits R p.1) (others W j)) →
  is_Some (rotate_loop W pool sh count attempts k R tried le hint).
Proof.
  revert k R tried le hint.
  induction attempts as [|attempts IH]; intros k R tried le hint Hin; cbn [rotate_loop]; [by eexists|].
  pose proof (run_op_settings (select_at W k) (OpSelect (u "anthropic") pool tried) R _ eq_refl) as Ks1.
  destruct (select_excluding _ _ _ _ _) as [[en|] R1]; [|destruct (_ && _); by eexists]. cbn [snd] in Ks1.
  destruct (Hin k) as [Hb Ho]; [lia|].
  destruct (run_ops_total (others W k) R1) as (R2 & -> & Ks2).
  { eapply list.Forall_impl; [exact Ho|]. intros p. by apply fits_settings. }
  cbn [mbind option_bind].
  destruct (spawn W k _ hint) as [text|err]; [by eexists|]. destruct (_ || _); [by eexists|].
  pose proof (same_settings_trans _ _ _ Ks1 Ks2) as Ks12.
  destruct (book_failure_total (book_at W k) R2 (env_id en) err) as (R3 & -> & Ks3); [by eapply fits_settings|].
  cbn [mbind option_bind]. pose proof (same_settings_trans _ _ _ Ks12 Ks3) as Ks13. apply IH. intros j Hj.
  destruct (Hin j) as [Hb' Ho']; [lia|]. split; [by eapply fits_settings|].
  eapply list.Forall_impl; [exact Ho'|]. intros p. by apply fits_settings.
Qed.

Lemma rotation_total W pool sh R : in_range W R → is_Some (rotate_cli_spawn W pool sh R).
Proof. intros Hin. apply loop_total. intros j Hj. apply Hin. lia. Qed.

(** One attempt per account, and no account forgotten: with at least one
    configured account of the provider, the rotation tries distinct accounts,
    so at most as many as there are, and when it reports exhaustion every
    account that was eligible at its end had been tried, whatever other tasks
    did to the rotator meanwhile. *)
Theorem rotation_tries_each_once W pool sh R :
  in_range W R → has_anthropic R → NoDup (ids R) →
  ∃ e R' tried, rotate_cli_spawn W pool sh R = Some (e, R', tried)
  ∧ NoDup tried ∧ (length tried ≤ length (accounts R))%nat ∧ (∀ x, x ∈ tried → x ∈ ids R)
  ∧ match e with
    | Exhausted _ | Unavailable _ _ =>
        ∀ a : Account, eligible (select_at W (length tried)) R' (u "anthropic") pool [] a → id a ∈ tried
    | _ => True
    end.
Proof.
  intros Hin Ha Hnd. destruct (rotation_total W pool sh R Hin) as [[[e R'] tried] Hr]. exists e, R', tried.
  pose proof (end_covers W pool sh R e R' tried Ha Hnd Hr). split; [done|].
  apply rotation_loop in Hr as (K1 & K2 & _ & K4 & _); [|done]. by split_and!.
Qed.

(** ** A working account is reached *)

Lemma update_keeps R i f (g : Account) : g ∈ accounts R → id g ≠ i → g ∈ accounts (update R i f).
Proof.
  cbn. intros Hg Hne. induction (accounts R) as [|a l IH]; cbn; [done|]. destruct (has_id i a) eqn:E.
  - unfold has_id in E. reflect_bools. apply elem_of_cons in Hg as [->|Hg]; [done|by right].
  - apply elem_of_cons in Hg as [->|Hg]; [by left|right; by apply IH].
Qed.

Lemma select_keeps now R prov pool exclude : accounts (select_excluding now R prov pool exclude).2 = accounts R.
Proof. unfold select_excluding, choose. by repeat case_match; simplify_eq/=. Qed.

(** An operation that is about another account, or about none. *)
Definition leaves (i : ustr) (o : op) : Prop :=
  match o with
  | OpSelect _ _ _ => True
  | OpSuccess j _ | OpAuthFailed j _ | OpError j | OpRateLimited j | OpBilling j => j ≠ i
  | _ => False
  end.

Lemma run_op_keeps now o R R' (g : Account) :
  leaves (id g) o → run_op now o R = Some R' → g ∈ accounts R → g ∈ accounts R'.
Proof.
  intros Ho Hr Hg. destruct o; cbn in Ho, Hr; try done; unfold on_error, on_rate_limited in Hr; simplify_eq;
    try by apply update_keeps.
  - by rewrite select_keeps.
  - destruct (List.find _ _) as [a|]; [|by simplify_eq].
    destruct (3 <=? _); [apply bind_Some in Hr as (? & _ & Hr)|]; simplify_eq; by apply update_keeps.
  - destruct (List.find _ _) as [a|]; [|by simplify_eq].
    apply bind_Some in Hr as (? & _ & Hr). simplify_eq. by apply update_keeps.
Qed.

Lemma run_ops_keeps l R R' (g : Account) :
  Forall (λ p : Z * op, leaves (id g) p.2) l → run_ops l R = Some R' → g ∈ accounts R → g ∈ accounts R'.
Proof.
  revert R. induction l as [|[now o] l IH]; intros R Hl Hr Hg; cbn in Hr; [by simplify_eq|].
  apply list.Forall_cons in Hl as [Ho Hl]. apply bind_Some in Hr as (R1 & Ks1 & Hr).
  apply (IH R1 Hl Hr). by eapply run_op_keeps.
Qed.

Lemma book_failure_keeps now R i err R' (g : Account) :
  book_failure now R i err = Some R' → id g ≠ i → g ∈ accounts R → g ∈ accounts R'.
Proof.
  intros [->|(o & Ho & Hr)]%book_failure_op Hne Hg; [done|]. eapply run_op_keeps; [|exact Hr|exact Hg].
  destruct o; cbn in Ho |- *; try done; by subst.
Qed.

Lemma unique_account R (a g : Account) :
  NoDup (ids R) → a ∈ accounts R → g ∈ accounts R → id a = id g → a = g.
Proof.
  unfold ids. intros Hnd Ha Hg He. apply list_elem_of_lookup in Ha as [i Hi]. apply list_elem_of_lookup in Hg as [j Hj].
  assert (map (λ a : Account, id a) (accounts R) !! i = Some (id a)) as Ki by (rewrite list_lookup_fmap; by rewrite Hi).
  assert (map (λ a : Account, id a) (accounts R) !! j = Some (id g)) as Kj by (rewrite list_lookup_fmap; by rewrite Hj).
  rewrite He in Ki. pose proof (list.NoDup_lookup _ _ _ _ Hnd Ki Kj). congruence.
Qed.

(** What makes [g] a working account in a world whose failures are the
    accounts' own. *)
Record works (W : world) (pool : list ustr) (g : Account) : Prop := {
  w_provider : provider g = u "anthropic";
  w_pool : account_in_pool g pool = true ∨ has_pool_entries pool = false;
  w_available k : is_available (select_at W k) g = true;
  w_alone k : Forall (λ p : Z * op, leaves (id g) p.2) (others W k);
  w_answers k hint : ∃ text, spawn W k (env_vars (build_account_env g)) hint = Ok text;
  w_own k vars hint err : spawn W k vars hint = Err err → is_spawn_gate_error err = false ∧ denied W k = false;
}.

Lemma loop_working W pool sh count attempts k R tried le hint e R' tried' (g : Account) :
  works W pool g → g ∈ accounts R → NoDup (ids R) → id g ∉ tried →
  rotate_loop W pool sh count attempts k R tried le hint = Some (e, R', tried') →
  (∃ text, e = Replied text) ∨ (g ∈ accounts R' ∧ id g ∉ tried' ∧ ∀ err, e ≠ Refused err).
Proof.
  intros Hw. revert k R tried le hint. induction attempts as [|attempts IH]; intros k R tried le hint Hg Hnd Hni Hl; cbn [rotate_loop] in Hl.
  { simplify_eq. by right. }
  destruct (select_excluding _ _ _ _ _) as [selected R1] eqn:Es.
  pose proof (select_keeps (select_at W k) R (u "anthropic") pool tried) as Hacc1. rewrite Es in Hacc1. cbn in Hacc1.
  destruct selected as [en|].
  2: { right. destruct (_ && _); simplify_eq; by rewrite Hacc1. }
  assert (has_anthropic R) as Ha by (exists g; split; [done|apply Hw]).
  destruct (select_eligible _ _ _ _ _ _ Ha Es) as (a & (Hacc & _) & ->). cbn [env_id build_account_env] in Hl.
  apply bind_Some in Hl as (R2 & Ho & Hl).
  assert (g ∈ accounts R2) as Hg2.
  { eapply run_ops_keeps; [apply (w_alone _ _ _ Hw k)|exact Ho|by rewrite Hacc1]. }
  apply run_ops_identity in Ho.
  destruct (spawn W k _ hint) as [text|err] eqn:Esp; [simplify_eq; left; by exists text|].
  destruct (w_own _ _ _ Hw _ _ _ _ Esp) as [Hgate Hden]. rewrite Hgate, Hden in Hl. cbn [orb] in Hl.
  assert (id a ≠ id g) as Hne.
  { intros Heq. rewrite (unique_account R a g Hnd Hacc Hg Heq) in Esp.
    destruct (w_answers _ _ _ Hw k hint) as [text Ht]. congruence. }
  apply bind_Some in Hl as (R3 & Hb & Hl). revert Hl. apply IH.
  - by eapply book_failure_keeps; [exact Hb|apply not_eq_sym|].
  - rewrite (same_ids R2 R3), (same_ids R1 R2) by (done || by eapply book_failure_same). unfold ids. by rewrite Hacc1.
  - intros [Hin|Hin%list_elem_of_singleton]%elem_of_app; [done|congruence].
Qed.

(** C19 A working account is reached: if some account of the pool is available
    whenever the rotation selects and its CLI answers, if the other accounts
    fail for reasons of their own (no gate and no autonomy refusal), and if
    what other tasks do to the rotator meanwhile is to select accounts and to
    book the outcomes of the other accounts, then the rotation ends with a
    reply and does not panic, however many accounts before that one refuse,
    whatever they fail with and whichever strategy is configured.  The ids of
    the accounts are distinct, and the configured cooldown, added to a time the
    clock shows meanwhile, is a date chrono has (it panics past the last). *)
Theorem working_account_reached W pool sh R (g : Account) :
  in_range W R → works W pool g → g ∈ accounts R → NoDup (ids R) →
  ∃ text R' tried, rotate_cli_spawn W pool sh R = Some (Replied text, R', tried).
Proof.
  intros Hin Hw Hg Hnd. destruct (rotation_total W pool sh R Hin) as [[[e R'] tried] Hr].
  cut (∃ text, e = Replied text); [intros [text ->]; eauto|].
  assert (has_anthropic R) as Ha by (exists g; split; [done|apply Hw]).
  pose proof (end_covers W pool sh R e R' tried Ha Hnd Hr) as Hend.
  unfold rotate_cli_spawn in Hr. eapply loop_working in Hr as [|(Hg' & Hni & Hnr)]; [done| |exact Hw|done|done|by apply not_elem_of_nil].
  assert (eligible (select_at W (length tried)) R' (u "anthropic") pool [] g) as Hel.
  { split_and!; [done|apply Hw|apply Hw|by apply not_elem_of_nil|]. intros (b & _ & _ & _ & Hb).
    destruct (w_pool _ _ _ Hw) as [|Hp]; [done|]. by rewrite (blank_pool b pool Hp) in Hb. }
  destruct e as [text|err| |]; [by exists text|by destruct (Hnr err)|by destruct Hni; apply Hend..].
Qed.
End rotation.

(** ** Concrete runs *)

Definition ascii_case : LowerCase := {| to_lowercase := to_ascii_lowercase |}.

(** Accounts whose key is their id, in the order of their priorities. *)
Definition keyed_account (prov i : ustr) : Account := {|
  conf := {| id := i; auth_method := ApiKey; provider := prov; priority := 1; monthly_budget_cents := 5000; tags := [];
             label := []; expires_at := None; api_key := i; oauth_token := None; credentials_dir := None |};
  is_healthy := true; consecutive_errors := 0; spent_this_month := 0; cooldown_until := None; last_used := None;
  total_requests := 0; credential_state := Unverified; auth_dead_strikes := 0; next_probe_at := None; probe_failures := 0
|}.
Definition keyed_rotator (prov : ustr) (names : list ustr) : AccountRotator := {|
  accounts := map (keyed_account prov) names; inherit_host_credentials := true; strategy := Priority;
  round_robin_index := 0; cooldown_seconds := 120
|}.
(** The CLI answers only under the key [good]; else it fails with [err]. *)
Definition demo_world (good err : ustr) : world := {|
  spawn _ vars _ := if bool_decide (vars !! u "ANTHROPIC_API_KEY" = Some good) then Ok (u "hello") else Err err;
  denied _ := false; select_at k := secs (Z.of_nat k); book_at k := secs (Z.of_nat k); others _ := []
|}.
Definition demo_rotate (W : world) (pool : list ustr) (R : AccountRotator) :=
  rotate_cli_spawn (H := ascii_case) (H0 := demo_chrono) (H1 := demo_host) W pool 100 R.

(** While it runs, another task books a failure of [a] and selects. *)
Definition shared_world (good err : ustr) : world := {|
  spawn := spawn (demo_world good err); denied _ := false;
  select_at := select_at (demo_world good err); book_at := book_at (demo_world good err);
  others k := [(secs (Z.of_nat k), OpError (u "a")); (secs (Z.of_nat k), OpSelect (u "anthropic") [] [])]
|}.

Lemma demo_fits prov names now :
  now < secs 8210266876680 → cooldown_fits (H0 := demo_chrono) (keyed_rotator prov names) now.
Proof.
  intros Hn. eexists. cbn. unfold bounded_add.
  change (as_i64 120) with 120. replace (now + secs 120 <? secs 8210266876800) with true; [reflexivity|].
  symmetry. apply Z.ltb_lt. unfold secs in *. lia.
Qed.

Lemma rotation_tries_each_once_witness :
  let R := keyed_rotator (u "anthropic") [u "a"; u "b"] in
  match demo_rotate (demo_world (u "c") (u "boom")) [] R with
  | Some (Exhausted e, _, tried) => e = u "boom" ∧ tried = [u "a"; u "b"] ∧ NoDup tried
  | _ => False
  end.
Proof.
  cbv zeta.
  destruct (rotation_tries_each_once (H := ascii_case) (H0 := demo_chrono) (H1 := demo_host)
    (demo_world (u "c") (u "boom")) [] 100 (keyed_rotator (u "anthropic") [u "a"; u "b"])) as (e & R' & tried & Hr & Hnd & _).
  - intros k Hk. cbn in Hk. split; [apply demo_fits; cbn; unfold secs; lia|constructor].
  - exists (keyed_account (u "anthropic") (u "a")). split; [by left|reflexivity].
  - apply (bool_decide_unpack _). vm_compute. reflexivity.
  - unfold demo_rotate. rewrite Hr. vm_compute in Hr. injection Hr as <- _ <-. split; [reflexivity|]. split; [reflexivity|exact Hnd].
Defined.

Lemma working_account_reached_witness :
  let R := keyed_rotator (u "anthropic") [u "a"; u "b"; u "c"] in
  match demo_rotate (shared_world (u "c") (u "429 Too Many Requests")) [] R with
  | Some (Replied text, _, tried) => text = u "hello" ∧ tried = [u "a"; u "b"; u "c"]
  | _ => False
  end.
Proof.
  cbv zeta.
  destruct (working_account_reached (H := ascii_case) (H0 := demo_chrono) (H1 := demo_host)
    (shared_world (u "c") (u "429 Too Many Requests")) [] 100 (keyed_rotator (u "anthropic") [u "a"; u "b"; u "c"])
    (keyed_account (u "anthropic") (u "c"))) as (text & R' & tried & Hr).
  - intros k Hk. cbn in Hk. split; [|repeat constructor]; apply demo_fits; cbn; unfold secs; lia.
  - split; try reflexivity.
    + by right.
    + intros k. repeat constructor; cbn; discriminate.
    + intros k hint. exists (u "hello"). vm_compute. reflexivity.
    + intros k vars hint err. cbn [spawn shared_world demo_world]. destruct (bool_decide _); [discriminate|].
      intros Herr. injection Herr as <-. split; vm_compute; reflexivity.
  - right; right; left.
  - apply (bool_decide_unpack _). vm_compute. reflexivity.
  - unfold demo_rotate. rewrite Hr. vm_compute in Hr. injection Hr as <- _ <-. split; reflexivity.
Defined.

(** The key of the environment is retried: for a provider without accounts
    the ephemeral account ignores the exclusion, so it is tried as many times
    as other providers have accounts, here three times. *)
Lemma env_fallback_retried :
  match rotate_cli_spawn (H := ascii_case) (H0 := demo_chrono)
          (H1 := {| env_var _ := Some (u "sk-env"); is_default_home _ := false |})
          (demo_world (u "c") (u "boom")) [] 100 (keyed_rotator (u "openai") [u "x"; u "y"; u "z"]) with
  | Some (Exhausted _, _, tried) => tried = replicate 3 (u "anthropic-env")
  | _ => False
  end.
Proof. vm_compute. reflexivity. Qed.

(** A refused pool spills: the only account of an agent's pool refuses, so
    the pool names no available account any more, and the retry goes to an
    account outside the pool. *)
Lemma refused_pool_spills :
  match demo_rotate (demo_world (u "b") (u "429 Too Many Requests")) [u "a"]
          (keyed_rotator (u "anthropic") [u "a"; u "b"]) with
  | Some (Replied _, _, tried) => tried = [u "a"; u "b"]
  | _ => False
  end.
Proof. vm_compute. reflexivity. Qed.

(** The message and the account disagree: the message tests for
    authentication before billing, the booking for billing before
    authentication, so a failure reported as a dead login is booked as
    exhausted credit. *)
Lemma message_and_state_disagree :
  let err := u "Not logged in: run /login or check your billing page" in
  let R := keyed_rotator (u "anthropic") [u "a"] in
  classify_cli_failure (H := ascii_case) false err = AuthFailed
  ∧ auth_failure_kind_for (H := ascii_case) false err = Some InvalidToken
  ∧ book_failure (H := ascii_case) (H0 := demo_chrono) 0 R (u "a") err = Some (on_billing_exhausted 0 R (u "a")).
Proof. vm_compute. by split_and!. Qed.

(** Digits cost a day: any error text with 402 in it, such as a request
    number, is taken for exhausted credit. *)
Lemma digits_cost_a_day :
  is_billing_error (H := ascii_case) false (u "claude CLI exit 1: request req-1402b") = true.
Proof. vm_compute. reflexivity. Qed.
